(* ===== verification/_CoqProject ===== *)
-Q . S2P
Prelude.v
Utf8.v
NetAddr.v
TextParse.v
Effects.v
SansIo.v
Varint.v
Digits.v
Multibase.v
PeerId.v
Keys.v
Tls.v
Pem.v
Multiaddr.v
PeerAddr.v
MultiaddrText.v
Multistream.v
Ping.v
Protobuf.v
Framing.v
IdentifyMessage.v
Identify.v
RelayMessage.v
Relay.v
DcutrMessage.v
Dcutr.v
AutonatMessage.v
Autonat.v
FieldReaders.v
Decoders.v
SwarmEvents.v
Transport.v
QuicConnection.v
QuicGuarantees.v
QuicTransport.v
QuicIndexes.v
QuicEndpoint.v
QuicConfig.v
SwarmCore.v
SwarmInvariant.v
SwarmStreams.v
SwarmOpener.v
SwarmLink.v
SwarmRefusal.v
SwarmTold.v
SwarmConns.v
Driver.v
Silence.v
Builder.v
Facade.v
Cli.v
ErrorText.v
PeerRuntime.v
PeerFlows.v
PeerScript.v
PeerRelay.v
PeerSafety.v
PeerReturns.v
Peer.v
