(* ===== verification/Prelude.v ===== *)
(** * minip2p in Rocq

    minip2p is a small libp2p stack in Rust whose protocols are written without I/O:
    every protocol is a state machine that takes inputs and is polled for outputs, and
    a driver moves bytes between the machines and a transport.  This library models the
    machines, the codecs they exchange messages with, the dispatcher that connects them,
    the driver that runs it over a transport, the transport over QUIC and the program
    built on them, as executable functions, and proves what they promise to each other.

    ** The system and how its parts interact

    - [crates/identity]: varints, base58 and base32, public keys and signatures, peer
      ids (multihashes of keys).
    - [crates/core]: multiaddrs, peer addresses, the choice of dial candidates, and the
      trait [SansIoProtocol] of the machines.
    - [crates/multistream-select]: the handshake by which a stream gets its protocol.
    - [crates/ping], [crates/identify]: one machine per protocol, serving all peers, on
      streams that have been negotiated.
    - [crates/relay], [crates/dcutr], [crates/autonat]: one machine per exchange and
      role (reserving, connecting through and accepting from a relay; initiating and
      answering a hole punch; asking for and serving a reachability probe).
    - [crates/swarm]: [SwarmCore] receives transport events, keeps the tables of
      connections, peers and streams, runs one negotiation machine per new stream,
      hands the bytes of negotiated streams to the machine that owns them, and queues
      actions for the driver and events for the application.  The driver [Swarm] owns
      a transport and the core: it feeds the core what the transport reports, executes
      its actions and buffers its events; [SwarmBuilder] makes one from a keypair.
    - [crates/tls]: certificates that bind a connection's key to a peer id.
    - [crates/transport], [transports/quic]: the transport interface and its
      implementation over QUIC: one [quiche] connection and a table of streams per
      remote, tables that lead packets and peers to connections, and an endpoint over
      an IPv4 socket, an IPv6 socket or both.
    - [crates/minip2p]: [Endpoint], the swarm over QUIC as one object.
    - [examples/peer]: a command-line program with five modes: listening and dialing
      directly, the same through a relay with a hole punch, and an AutoNAT server.

    ** Files, in dependency order

    - [Prelude]: results with panics ([res]), [u64] arithmetic, bytes and text, shared
      list and map lemmas, the hint database and tactics.
    - [Utf8]: [str::from_utf8], [String::from_utf8_lossy] and [str::chars].
      [NetAddr]: [std::net] addresses and their text; [TextParse]: reading them, and
      numbers, from text.  [Effects]: a monad of state,
      errors and panics for methods on [&mut self], with the rules ([run_ok],
      [respects]) by which relations between states go through programs.
    - [SansIo]: the trait as the class [SansIoProtocol], its contract as [SansIoLaws],
      theorems about any driver of any machine that keeps the contract, and the
      implementations for references and boxes ([crates/core/src/sans_io.rs]).
    - [Varint], [Digits], [Multibase], [PeerId]: [crates/identity/src/peer_id.rs].
      [Digits] is the positional arithmetic the two text encodings are instances of.
    - [Keys]: [crates/identity/src/key.rs], [ed25519.rs], [signed.rs].
    - [Tls], [Pem]: [crates/tls/src/verify.rs], [generate.rs], [pem.rs].
    - [Multiaddr]: [crates/core/src/protocol.rs], [multiaddr.rs], over the interface
      [PeerIdBytes] that [PeerId] implements.  [PeerAddr]: [peer_addr.rs],
      [candidates.rs].  [MultiaddrText]: the text of both, printed and parsed.
    - [Multistream]: [crates/multistream-select/src/lib.rs], and the network of a dialer
      and a listener joined by two byte streams, as a step relation.
    - [Ping]: [crates/ping/src/lib.rs].
    - [Protobuf]: the field readers and the frame codec of the message modules;
      [Framing]: waiting for one framed message in any fragmentation, shared by the
      machines that exchange them.  [FieldReaders]: the copies of the field readers
      that the identify and DCUtR crates have, which are the same functions.
    - [IdentifyMessage], [Identify]: [crates/identify/src/message.rs], [lib.rs].
    - [RelayMessage], [Relay]: [crates/relay/src/message.rs], [lib.rs].
    - [DcutrMessage], [Dcutr]: [crates/dcutr/src/message.rs], [lib.rs].
    - [AutonatMessage], [Autonat]: [crates/autonat/src/lib.rs].
    - [Decoders]: the decoders of all crates, on bytes from the network.
    - [SwarmEvents], [SwarmCore]: [crates/swarm/src/events.rs], [core.rs], with the
      event types of [crates/transport].  [SwarmInvariant], [SwarmStreams],
      [SwarmOpener] (a stream seen from the side that opened it) and [SwarmConns] hold
      the lemmas and theorems about the core.  [SwarmLink]: two cores and a stream
      between them, as a step relation; [SwarmRefusal]: a stream that is refused.  [SwarmTold]: the queries of the core and what
      the application was told.
    - [Transport]: the trait of [crates/transport/src/transport.rs] as a class, its
      contract as laws, [error.rs], [connection_endpoint.rs].
    - [QuicConnection]: [transports/quic/src/connection.rs], over the interfaces
      [Quiche], [World] (sockets, names, randomness) and [CertVerifier];
      [QuicGuarantees] has what sequences of calls on a connection guarantee.
    - [QuicTransport]: the addresses and [QuicTransport] of [transports/quic/src/lib.rs];
      [QuicIndexes] has the agreement of its tables.
    - [QuicEndpoint]: [DualQuicTransport] and [QuicEndpoint] of the same file, with the
      instance of the transport class.
    - [QuicConfig]: [transports/quic/src/config.rs], [build_quiche_config] and the
      constructors, where the certificates of [Tls] meet the connections.
    - [Driver], [Builder]: [crates/swarm/src/driver.rs], [builder.rs].  [Silence]: how long
      the driver's loops can be kept busy.
    - [Facade]: [crates/minip2p/src/lib.rs].
    - [Cli]: the parser of [examples/peer/src/cli.rs].  [ErrorText]: the texts of the
      protocol crates' errors and states, which the program prints.
    - [PeerRuntime]: the host a program runs on (console, files, randomness) as the class
      [Host], and the key files of [examples/peer/src/runtime.rs].
    - [PeerFlows]: the parts of [relay.rs] that do not touch the swarm: the functions
      that drive the relay, DCUtR and AutoNAT machines, and the choice of addresses.
    - [PeerScript]: programs that run a swarm on a host and may fail, the printing of
      events, and [direct.rs].  [PeerRelay]: the rest of [relay.rs], one script per
      function.  [PeerSafety]: what the scripts guarantee; [PeerReturns]: that they come to
      an end, with rules for loops that wait ([settles_loop]) or watch the clock.  [Peer]:
      building the swarm of a mode, and [main.rs]; [quic_node] is the program over the QUIC
      endpoint.

    A Rust struct is a record with the source's fields, an enum an inductive type, a
    [BTreeMap] or [HashMap] a [gmap] (iteration goes over the sorted keys where the
    source's order is observable), a [VecDeque] a list.  A method that takes
    [&mut self] returns the new record; [Result] is [res], whose third case [Panic] is
    an unwinding evaluation, so that absence of panics is a statement about values.
    A method that mutates before it returns an error returns the pair of the new state
    and the result.  Loops are [Fixpoint]s with fuel.

    ** What the theorems show

    - Negotiation: dialer and listener agree under every fragmentation and interleaving
      ([multistream_agreement]), every run ends ([multistream_terminates]), a machine
      gives one verdict ([multistream_one_verdict]), and the packet boundaries do not
      matter ([multistream_fragmentation]).
    - The swarm: in every reachable state its tables agree, and no further input makes
      it unwind ([swarm_consistent]); what closing, superseding and verifying a
      connection do to every table ([swarm_closed], [swarm_supersede],
      [swarm_upgrade]); an inbound user stream from its first byte to the application
      ([swarm_user_stream]); [connected_peers] is what the events handed out and waiting
      say, but for names that verifying an identity has replaced ([swarm_told],
      [replaced_name_stays_told]).
    - Two swarms: a user stream between two cores, over pipes that deliver in pieces of
      any size and in any interleaving with what both applications write, is announced
      once on both ends and carries exactly what was written, in order
      ([user_stream_link]).  That theorem asks for one connection between the two; with
      two, a stream is written to on the wrong one ([write_goes_to_first_connection]).  A
      stream for a protocol the other side does not support leaves no trace on either, and
      one error ([user_stream_refused]).
    - Ping: a ping crosses any fragmentation and is measured ([ping_end_to_end]), the
      bounds on streams, buffers and pings in flight ([ping_invariant]), which pings a
      tick expires ([ping_tick_exact]).
    - The driver: over any transport that keeps the contract, no sequence of calls
      unwinds, every call but the two that wait returns, and every call that returns
      leaves the core idle ([driver_safe]); flushing executes
      every action once and in order ([driver_flush]); a stream that the application
      opens is the stream it is given ([driver_opens_user_stream]); waiting for an
      event ends by the deadline and loses no event ([driver_poll_next]); waiting for a
      wanted event ends once the network falls silent ([run_until_returns]), and need not
      before ([run_until_ignores_deadline]); a built node
      advertises the identity of its keypair ([builder_identity]).
    - Identify: the message sent is the message received ([identify_exchange]), within
      bounded memory ([identify_bounded]).
    - Relay: each of the three flows against any fragmentation of the remote's answer
      whose chunks fit the receive buffer ([reservation_exchange], [connect_bridge], [stop_exchange]), at most one outcome
      for every order of inputs and polls ([relay_at_most_once]), and exactly which
      data unwinds a machine ([relay_data_panics_iff]).
    - Hole punching and reachability: each side learns exactly what the other sent, for
      any fragmentation ([dcutr_exchange], [autonat_exchange]), and outputs come in
      order and at most once for every order of inputs and polls ([dcutr_order],
      [autonat_safe]).
    - Identity: certificate verification accepts exactly the certificates that prove an
      identity ([tls_verify_exact]), and those a node generates prove its own
      ([certificate_roundtrip]); a QUIC connection is reported once and with the identity
      that the certificate presented in its handshake proves, the expected one if there
      was one ([quic_identity], and with the real verifier [quic_authentication]).
    - QUIC: streams are first-in first-out for every sequence of calls, failures
      included ([quic_streams_fifo]); the tables of the transport agree in every
      reachable state ([quic_tables]); dialing dials every resolved family once, adds one
      fresh connection per family reached and nothing when it fails ([quic_dial],
      [quic_dial_all]); the two families
      share one space of identifiers without interfering ([dual_routing]).  The examples
      [connected_unverified], [refused_stream_blocks], [refused_stream_stops_transport],
      [closed_stream_reopens] and [endpoint_breaks_event_order] show where the adapter
      falls short of the transport's documented contract.  The swarm and the driver are
      proved against less than that ([TransportContract]: a connection is not reported as
      connected twice, or after data of it).
    - Addresses: what [PeerAddr] accepts ([peer_addr_type]), which candidates are
      selected ([candidates_selected]), what decapsulation removes
      ([multiaddr_decapsulate]), and that addresses are read back from their text, whose
      accepted forms have a normal form ([multiaddr_text]), when their peer ids are of
      the hashes that libp2p uses ([other_hash_text_refused]).
    - The endpoint has the one identity of its keypair on every socket, down to the
      certificate it is configured with, in identify and in every address it announces
      ([endpoint_identity]).
    - The program: command lines and modes correspond ([cli_modes]); a key file is an
      identity that lasts ([key_file]); what is offered for a hole punch
      ([relay_candidates]); both sides' handshake over the circuit, from the request to
      the relay to SYNC, for every fragmentation ([dialer_handshake],
      [listener_handshake], and [read_until_delivers], by which the scripts' reading
      loops are these); the AutoNAT server reports only addresses at which a probe dialed
      the requesting peer and was told that it is connected ([dialback_honest]); the modes without a relay never unwind, and a dial that
      succeeds has measured its target ([peer_modes]); on a network that falls silent the
      program, in any mode, comes to an end with the exit code of its outcome
      ([peer_main]).  Only the relayed modes can unwind: a relay can do that with one
      frame ([relay_data_panics_iff]).
    - Codecs: round trips of varints, text encodings, peer ids, public keys, multiaddrs
      and messages, canonicity of varints and keys, merge semantics of identify
      messages, and which bytes make a decoder unwind: none, but for the frames of the
      relay and DCUtR and for public keys ([decoders_total]).

    ** Bounds and fuel

    Integers are [Z] with their width written out where it matters ([wrap_u64],
    [saturating_sub], the [u16] and [u32] buffers of base32).  Varint loops run at most
    ten times on a [u64]; decoders and the multistream receive loop consume at least one
    byte per iteration and have one unit of fuel more than the bytes they are given;
    loops that drain a machine have one more than its pending outputs; the driver's
    flush has one more than [work], which counts three for an action that may open a
    stream, two for any other and one for an event.  [poll_next] and [run_until] wait
    for the outside world, so their fuel is an argument; [driver_poll_next] says how
    much is enough.  Loops that drain [quiche] or a socket have one more than what it
    holds ([q_packets], [q_reads], [inbox]), writing a stream's queue one more than its
    bytes and entries ([queue_size]), and the search for an unused connection
    identifier two more than the connections there are.  The scripts of the program wait
    for peers, who can keep them busy for ever ([run_until_ignores_deadline]): their fuel
    is an argument, and running out of it is the value [OutOfFuel], which no handler
    catches.  Safety is proved for every fuel; [peer_main] says that there is enough, and
    that more makes no difference, if the transport brings events in finitely many more
    polls ([Silence]) and the host's clock goes on ([TimeLaws], [HostTime]).  That the fuel
    suffices is proved where the result depends on it ([write_uvarint_rep],
    [while_tag_no_panic], [receive_loop_fuel]); [quic_identity] and [quic_tables] include
    that no call on a connection or the transport runs out.

    ** Parameters

    The [multihash] and [sha2] crates are third-party code: [MultihashApi] and
    [MultihashLaws] state what [PeerId] uses of them, and [PlainMultihash] is an
    instance that satisfies the laws.  The machines are generic in the type of peer ids;
    [SwarmPeers] is what the swarm needs of it.  [Ed25519Api] and [Ed25519Laws] stand
    for [ed25519_dalek], [Transport] and [TransportContract] for a transport adapter,
    [Silence] for a network that falls silent,
    [Time] and [TimeLaws] for clocks and sleeping; [X509Api] and [X509Laws] for the X.509,
    DER and ECDSA crates; [Quiche] with [QuicheLaws] and [QuicheEndpoint] for [quiche],
    [TlsStack] for [boring]; [World] with [WorldLaws] and [SysRandom] for the operating
    system; [Host] with [FileLaws] and [HostTime] for console and files, [PeerNode] with [PeerNodeLaws]
    for what the program asks of its transport beyond the trait, [StrDebug] for the
    escapes of [Debug].  [toy_ed25519], [OneConn_contract], [Z_time_laws], [ToyX509],
    [ToyQuiche], [ToyWorld], [DemoHost_host] and [demo_node] are instances, and
    [quic_node] gives [PeerNode] for the QUIC endpoint.  [BuildProfile] and [overflow_checks]
    are the two compiler settings the behaviour depends on.

    ** Not modelled

    The tests of the crates; accessors that only read a field of a record; how signals end
    the listening modes.  [SwarmLink] follows one stream: other traffic between the two
    cores and the closing of the stream are covered by the theorems about one core.  Console output is an effect on the host without a result: a closed
    console, at which [println!] unwinds, is not modelled. *)
From Stdlib Require Import ZArith Strings.Byte Strings.Ascii Strings.String.
From stdpp Require Import base numbers list gmap strings pretty sorting.

#[local] Open Scope Z_scope.

(** ** Results

    [res E A] is what a Rust expression of type [Result<A, E>] evaluates to:
    [Ok], [Err], or [Panic] when evaluation unwinds (an [expect] on [None], an
    out-of-range slice, an overflow with overflow checks on).  Expressions whose
    Rust type is a plain [A] but that may unwind have type [res Empty_set A]. *)

Inductive res (E A : Type) : Type :=
  | Ok (a : A)
  | Err (e : E)
  | Panic.
Arguments Ok {E A} a.
Arguments Err {E A} e.
Arguments Panic {E A}.

(** The [?] operator: early return on [Err]; a panic is never caught. *)
#[export] Instance res_bind {E} : MBind (res E) := λ A B k r,
  match r with Ok a => k a | Err e => Err e | Panic => Panic end.
#[export] Instance res_ret {E} : MRet (res E) := λ A a, Ok a.
#[export] Instance res_fmap {E} : FMap (res E) := λ A B f r,
  match r with Ok a => Ok (f a) | Err e => Err e | Panic => Panic end.

(** [Result::map_err]. *)
Definition map_err {E F A} (f : E → F) (r : res E A) : res F A :=
  match r with Ok a => Ok a | Err e => Err (f e) | Panic => Panic end.

(** [Option::ok_or]. *)
Definition ok_or {E A} (o : option A) (e : E) : res E A :=
  match o with Some a => Ok a | None => Err e end.

(** [Option::expect]. *)
Definition expect {E A} (o : option A) : res E A :=
  match o with Some a => Ok a | None => Panic end.

Definition is_panic {E A} (r : res E A) : bool :=
  match r with Panic => true | _ => false end.

Lemma bind_Ok {E A B} (r : res E A) (k : A → res E B) b :
  r ≫= k = Ok b ↔ ∃ a, r = Ok a ∧ k a = Ok b.
Proof.
  destruct r; simpl; split; intros Hb; simplify_eq; eauto; by destruct Hb as (?&?&?); simplify_eq.
Qed.

Lemma bind_no_panic {E A B} (r : res E A) (k : A → res E B) :
  r ≠ Panic → (∀ a, r = Ok a → k a ≠ Panic) → r ≫= k ≠ Panic.
Proof. destruct r; naive_solver. Qed.

Lemma map_err_no_panic {E F A} (f : E → F) (r : res E A) :
  r ≠ Panic → map_err f r ≠ Panic.
Proof. by destruct r. Qed.

Lemma ok_or_no_panic {E A} (o : option A) (e : E) : ok_or o e ≠ Panic.
Proof. by destruct o. Qed.

(** ** Bytes *)

#[export] Instance byte_eq_dec : EqDecision byte := Byte.byte_eq_dec.

(** [b as u64], and the truncating cast [z as u8]. *)
Definition byte_Z (b : byte) : Z := Z.of_N (Byte.to_N b).
Definition Z_byte (z : Z) : byte :=
  match Byte.of_N (Z.to_N (z mod 256)) with Some b => b | None => x00 end.

#[global] Arguments byte_Z : simpl never.
#[global] Arguments Z_byte : simpl never.

Lemma byte_Z_range b : 0 <= byte_Z b < 256.
Proof. unfold byte_Z. pose proof (Byte.to_N_bounded b). lia. Qed.

Lemma byte_Z_inj b1 b2 : byte_Z b1 = byte_Z b2 → b1 = b2.
Proof.
  unfold byte_Z. intros H%N2Z.inj.
  pose proof (Byte.of_to_N b1) as E1. pose proof (Byte.of_to_N b2) as E2.
  rewrite H in E1. congruence.
Qed.

Lemma byte_Z_Z_byte z : byte_Z (Z_byte z) = z mod 256.
Proof.
  unfold Z_byte. pose proof (Z.mod_pos_bound z 256 eq_refl).
  destruct (Byte.of_N _) as [b|] eqn:E.
  - apply Byte.to_of_N in E. unfold byte_Z. rewrite E. lia.
  - apply Byte.of_N_None_iff in E. lia.
Qed.

Lemma byte_Z_Z_byte_small z : 0 <= z < 256 → byte_Z (Z_byte z) = z.
Proof. intros. rewrite byte_Z_Z_byte. by apply Z.mod_small. Qed.

Lemma Z_byte_byte_Z b : Z_byte (byte_Z b) = b.
Proof. apply byte_Z_inj. rewrite byte_Z_Z_byte. apply Z.mod_small, byte_Z_range. Qed.

#[export] Program Instance byte_countable : Countable byte :=
  inj_countable' byte_Z Z_byte _.
Next Obligation. apply Z_byte_byte_Z. Qed.

(** ** Machine integers

    [usize] and [u64] are 64 bits wide (the targets the crates are built for);
    values are integers in [0, 2^64). *)

Definition u64_mod : Z := 2 ^ 64.
Definition is_u64 (z : Z) : Prop := 0 <= z < u64_mod.
#[export] Instance is_u64_dec z : Decision (is_u64 z) := ltac:(unfold is_u64; apply _).
Definition wrap_u64 (z : Z) : Z := z mod u64_mod.

(** [a + b] on [usize]: with overflow checks (debug builds) an overflow unwinds,
    without them (release builds) it wraps around. *)
Definition usize_add {E} (overflow_checks : bool) (a b : Z) : res E Z :=
  if a + b <? u64_mod then Ok (a + b)
  else if overflow_checks then Panic else Ok (wrap_u64 (a + b)).

(** [u64::saturating_sub]. *)
Definition saturating_sub (a b : Z) : Z := Z.max 0 (a - b).

(** [&l[a..b]]: unwinds when [a > b] or [b > l.len()]. *)
Definition slice {E A} (l : list A) (a b : Z) : res E (list A) :=
  if (a <=? b) && (b <=? Z.of_nat (length l))
  then Ok (take (Z.to_nat (b - a)) (drop (Z.to_nat a) l)) else Panic.

Lemma slice_app {E A} (l1 l2 l3 : list A) :
  slice (E:=E) (l1 ++ l2 ++ l3) (Z.of_nat (length l1))
    (Z.of_nat (length l1) + Z.of_nat (length l2)) = Ok l2.
Proof.
  unfold slice. rewrite !length_app.
  rewrite (proj2 (Z.leb_le _ _)), (proj2 (Z.leb_le _ _)) by lia; simpl.
  f_equal. rewrite Nat2Z.id, drop_app_length.
  replace (Z.to_nat _) with (length l2) by lia. apply take_app_length.
Qed.

(** ** Bit operations as arithmetic *)

Lemma land_127 v : Z.land v 127 = v mod 128.
Proof. change 127 with (Z.ones 7). by rewrite Z.land_ones. Qed.

Lemma shiftr_7 v : Z.shiftr v 7 = v / 128.
Proof. by rewrite Z.shiftr_div_pow2. Qed.

Lemma lor_shiftl_disjoint a b n :
  0 <= n → 0 <= a < 2 ^ n → Z.lor a (Z.shiftl b n) = a + b * 2 ^ n.
Proof.
  intros Hn Ha. rewrite <- Z.shiftl_mul_pow2 by done.
  pose proof (Z.add_lor_land a (Z.shiftl b n)) as H.
  enough (Z.land a (Z.shiftl b n) = 0) by lia.
  apply Z.bits_inj'. intros i Hi. rewrite Z.land_spec, Z.bits_0.
  destruct (Z.lt_ge_cases i n).
  - rewrite Z.shiftl_spec_low by done. apply andb_false_r.
  - rewrite <- (Z.mod_small a (2 ^ n)) by done.
    rewrite Z.mod_pow2_bits_high by lia. done.
Qed.

Lemma lor_128 b : 0 <= b < 128 → Z.lor b 128 = b + 128.
Proof. intros. change 128 with (Z.shiftl 1 7) at 1. by rewrite lor_shiftl_disjoint. Qed.

(** The continuation bit of a byte. *)
Lemma land_128_byte b : Z.land (byte_Z b) 128 = if byte_Z b <? 128 then 0 else 128.
Proof. by destruct b. Qed.

(** ** Text

    A Rust [String] is the byte string of its UTF-8 encoding. *)

Definition as_bytes (s : string) : list byte := String.list_byte_of_string s.
Definition from_bytes (l : list byte) : string := String.string_of_list_byte l.

Lemma from_as_bytes s : from_bytes (as_bytes s) = s.
Proof. apply String.string_of_list_byte_of_string. Qed.

Lemma as_from_bytes l : as_bytes (from_bytes l) = l.
Proof. apply String.list_byte_of_string_of_list_byte. Qed.

Lemma as_bytes_inj s1 s2 : as_bytes s1 = as_bytes s2 → s1 = s2.
Proof. intros H. by rewrite <- (from_as_bytes s1), <- (from_as_bytes s2), H. Qed.

(** [core::fmt::Display]. *)
Class Display (A : Type) := to_string : A → string.
#[global] Hint Mode Display ! : typeclass_instances.
#[global] Arguments to_string : simpl never.
#[export] Instance Z_display : Display Z := pretty.
#[export] Instance nat_display : Display nat := pretty.
#[export] Instance string_display : Display string := λ s, s.

(** [{:x}] of an unsigned number: sixteen digits are enough for [u64]. *)
Definition hex_digit (d : Z) : ascii := ascii_of_N (Z.to_N (if d <? 10 then d + 48 else d + 87)).
Fixpoint hex_loop (fuel : nat) (n : Z) (acc : string) : string :=
  match fuel with
  | O => acc
  | S fuel =>
      let acc := String (hex_digit (n mod 16)) acc in
      if n / 16 =? 0 then acc else hex_loop fuel (n / 16) acc
  end.
Definition lower_hex (n : Z) : string := hex_loop 16 n EmptyString.

(** [slice.join(sep)]. *)
Definition str_join (sep : string) (l : list string) : string := String.concat sep l.

(** [{:02x}] of a byte. *)
Definition hex02 (b : byte) : string :=
  String (hex_digit (byte_Z b / 16)) (String (hex_digit (byte_Z b mod 16)) EmptyString).

(** [b'\n']. *)
Definition newline : byte := x0a.

(** ** Transport identifiers

    Newtypes of [u64] ([crates/transport/src/stream_id.rs], [connection_id.rs]). *)
Definition StreamId : Type := Z.
Definition ConnectionId : Type := Z.

(** ** Ordered maps

    [BTreeMap] and [BTreeSet] are finite maps; their iterators visit the keys in
    increasing order. *)

Section btree.
Context {K V : Type} `{Countable K} (le : relation K) `{!RelDecision le}.

Definition key_le (x y : K * V) : Prop := le x.1 y.1.
#[export] Instance key_le_dec x y : Decision (key_le x y) := decide (le x.1 y.1).

Definition btree_iter (m : gmap K V) : list (K * V) :=
  merge_sort key_le (map_to_list m).

Lemma btree_iter_perm m : btree_iter m ≡ₚ map_to_list m.
Proof. apply merge_sort_Permutation. Qed.

Lemma elem_of_btree_iter m k v : (k, v) ∈ btree_iter m ↔ m !! k = Some v.
Proof. by rewrite btree_iter_perm, elem_of_map_to_list. Qed.

Lemma NoDup_btree_iter m : NoDup (btree_iter m).*1.
Proof. rewrite btree_iter_perm. apply NoDup_fst_map_to_list. Qed.
End btree.

(** ** Lists *)

Lemma length_Z_nil {A} (l : list A) : Z.of_nat (length l) = 0 ↔ l = [].
Proof. destruct l; simpl; naive_solver lia. Qed.

Lemma drop_app_ge' {A} (l1 l2 : list A) n :
  (length l1 <= n)%nat → drop n (l1 ++ l2) = drop (n - length l1) l2.
Proof. intros. by rewrite drop_app_ge. Qed.

Lemma Forall_repeat {A} (P : A → Prop) x n : P x → Forall P (repeat x n).
Proof. intros Hx. induction n; by constructor. Qed.

Lemma length_concat_ne {A} (xs : list (list A)) :
  Forall (λ x, x ≠ []) xs → (length xs <= length (concat xs))%nat.
Proof.
  induction 1 as [|x xs Hx _ IH]; simpl; [lia|]. rewrite length_app.
  destruct x; [done|simpl; lia].
Qed.

(** ** Tactics and hints *)

(** Range goals on machine integers. *)
Ltac u64_tac := unfold is_u64, u64_mod in *; lia.

(** Split every [match] and [if] of the goal and discharge impossible branches. *)
Ltac crush_cases :=
  repeat (case_match || case_decide || case_bool_decide); simplify_eq/=; try done.

(** [Forall] on a concrete list. *)
Ltac each :=
  repeat match goal with
  | |- Forall _ [] => apply Forall_nil_2
  | |- Forall _ (_ :: _) => apply Forall_cons_2
  end.

(** Decides the tests of a [match] on a concrete name. *)
Ltac decides := repeat first
  [rewrite (decide_True (P:=_)) by (solve [reflexivity | left; reflexivity | right; left; reflexivity | right; right; reflexivity])
  |rewrite (decide_False (P:=_)) by (solve [discriminate | intros [[=]|[[=]|[=]]]])].

Create HintDb rust discriminated.
#[export] Hint Resolve byte_Z_range map_err_no_panic ok_or_no_panic : rust.
