(* ===== verification/Utf8.v ===== *)
(** * UTF-8 ([core::str::from_utf8], [str::chars])

    The part of the standard library's string handling the crates rely on: which
    byte sequences are text, and the sequence of scalar values of a text. *)
From S2P Require Import Prelude.
From Stdlib Require Import ZArith Strings.Byte Strings.String.
From stdpp Require Import base numbers list option strings.

#[local] Open Scope Z_scope.

(** A continuation byte, [10xxxxxx]. *)
Definition is_cont (b : byte) : bool := (128 <=? byte_Z b) && (byte_Z b <? 192).
Definition in_range (lo hi : Z) (b : byte) : bool := (lo <=? byte_Z b) && (byte_Z b <=? hi).

(** Well-formed sequences of two, three and four bytes (Unicode, table 3-7). *)
Definition utf8_two (b0 b1 : byte) : bool := in_range 0xC2 0xDF b0 && is_cont b1.
(** The first two bytes of a longer sequence. *)
Definition three_head (b0 b1 : byte) : bool :=
  if byte_Z b0 =? 0xE0 then in_range 0xA0 0xBF b1
  else if byte_Z b0 =? 0xED then in_range 0x80 0x9F b1
  else in_range 0xE1 0xEF b0 && is_cont b1.
Definition four_head (b0 b1 : byte) : bool :=
  if byte_Z b0 =? 0xF0 then in_range 0x90 0xBF b1
  else if byte_Z b0 =? 0xF4 then in_range 0x80 0x8F b1
  else in_range 0xF1 0xF3 b0 && is_cont b1.
Definition utf8_three (b0 b1 b2 : byte) : bool := three_head b0 b1 && is_cont b2.
Definition utf8_four (b0 b1 b2 b3 : byte) : bool := four_head b0 b1 && is_cont b2 && is_cont b3.

Definition low6 (b : byte) : Z := byte_Z b - 128.

(** The scalar values of a UTF-8 byte sequence, or [None] if it is ill-formed. *)
Fixpoint utf8_decode (l : list byte) : option (list Z) :=
  match l with
  | [] => Some []
  | b0 :: l1 =>
      if byte_Z b0 <? 128 then cons (byte_Z b0) <$> utf8_decode l1
      else match l1 with
      | [] => None
      | b1 :: l2 =>
          if utf8_two b0 b1
          then cons ((byte_Z b0 - 192) * 64 + low6 b1) <$> utf8_decode l2
          else match l2 with
          | [] => None
          | b2 :: l3 =>
              if utf8_three b0 b1 b2
              then cons ((byte_Z b0 - 224) * 4096 + low6 b1 * 64 + low6 b2) <$> utf8_decode l3
              else match l3 with
              | [] => None
              | b3 :: l4 =>
                  if utf8_four b0 b1 b2 b3
                  then cons ((byte_Z b0 - 240) * 262144 + low6 b1 * 4096
                             + low6 b2 * 64 + low6 b3) <$> utf8_decode l4
                  else None
              end
          end
      end
  end.

Definition is_utf8 (l : list byte) : bool := bool_decide (is_Some (utf8_decode l)).

(** [core::str::from_utf8]; the error value carries nothing the callers use. *)
Definition from_utf8 (l : list byte) : res unit string :=
  if is_utf8 l then Ok (from_bytes l) else Err ().

(** U+FFFD. *)
Definition replacement : list byte := [xef; xbf; xbd].

(** [String::from_utf8_lossy]: well-formed sequences are kept; of an ill-formed one the
    bytes that could have begun a well-formed one are replaced together. *)
Fixpoint utf8_lossy (l : list byte) : list byte :=
  match l with
  | [] => []
  | b0 :: l1 =>
      if byte_Z b0 <? 128 then b0 :: utf8_lossy l1
      else match l1 with
      | [] => replacement
      | b1 :: l2 =>
          if utf8_two b0 b1 then b0 :: b1 :: utf8_lossy l2
          else if three_head b0 b1 then
            match l2 with
            | [] => replacement
            | b2 :: l3 => if is_cont b2 then b0 :: b1 :: b2 :: utf8_lossy l3
                          else replacement ++ utf8_lossy l2
            end
          else if four_head b0 b1 then
            match l2 with
            | [] => replacement
            | b2 :: l3 =>
                if is_cont b2 then
                  match l3 with
                  | [] => replacement
                  | b3 :: l4 => if is_cont b3 then b0 :: b1 :: b2 :: b3 :: utf8_lossy l4
                                else replacement ++ utf8_lossy l3
                  end
                else replacement ++ utf8_lossy l2
            end
          else replacement ++ utf8_lossy l1
      end
  end.

Definition from_utf8_lossy (l : list byte) : string := from_bytes (utf8_lossy l).

(** The type invariant of [String] and [&str]. *)
Definition str_ok (s : string) : Prop := is_utf8 (as_bytes s) = true.

(** [str::chars]. *)
Definition chars (s : string) : list Z := default [] (utf8_decode (as_bytes s)).

Lemma from_utf8_as_bytes s : str_ok s → from_utf8 (as_bytes s) = Ok s.
Proof. unfold str_ok, from_utf8. intros ->. by rewrite from_as_bytes. Qed.

Lemma from_utf8_Ok l s : from_utf8 l = Ok s ↔ is_utf8 l = true ∧ s = from_bytes l.
Proof. unfold from_utf8. destruct (is_utf8 l); naive_solver. Qed.

Lemma from_utf8_no_panic l : from_utf8 l ≠ Panic.
Proof. unfold from_utf8. by case_match. Qed.

Lemma utf8_decode_ascii l :
  Forall (λ b, byte_Z b < 128) l → utf8_decode l = Some (byte_Z <$> l).
Proof.
  induction 1 as [|b l Hb Hl IH]; [done|]. cbn [utf8_decode].
  rewrite (proj2 (Z.ltb_lt _ _)) by done. by rewrite IH.
Qed.

Lemma is_utf8_ascii l : Forall (λ b, byte_Z b < 128) l → is_utf8 l = true.
Proof.
  intros H. unfold is_utf8. rewrite utf8_decode_ascii by done. apply bool_decide_eq_true. eauto.
Qed.

(** Lossy decoding: text is unchanged, and the result is always text. *)

Lemma utf8_lossy_id l : is_Some (utf8_decode l) → utf8_lossy l = l.
Proof.
  assert (∀ n l, (length l < n)%nat → is_Some (utf8_decode l) → utf8_lossy l = l) as Hall; [|eauto].
  clear l. induction n as [|n IH]; intros l Hn Hs; [lia|].
  destruct l as [|b0 l1]; [done|]. cbn [utf8_decode utf8_lossy] in *.
  destruct (byte_Z b0 <? 128).
  { rewrite fmap_is_Some in Hs. by rewrite IH by (simpl in *; lia || done). }
  destruct l1 as [|b1 l2]; [by destruct Hs|]. destruct (utf8_two b0 b1).
  { rewrite fmap_is_Some in Hs. by rewrite IH by (simpl in *; lia || done). }
  destruct l2 as [|b2 l3]; [by destruct Hs|]. unfold utf8_three, utf8_four in Hs.
  destruct (three_head b0 b1) eqn:E3; cbn [andb] in Hs.
  { destruct (is_cont b2) eqn:Ec; cbn [andb] in Hs.
    - rewrite fmap_is_Some in Hs. by rewrite IH by (simpl in *; lia || done).
    - exfalso. destruct l3 as [|b3 l4]; [by destruct Hs|]. rewrite andb_false_r in Hs. by destruct Hs. }
  destruct l3 as [|b3 l4]; [by destruct Hs|].
  destruct (four_head b0 b1); cbn [andb] in Hs; [|by destruct Hs].
  destruct (is_cont b2); cbn [andb] in Hs; [|by destruct Hs].
  destruct (is_cont b3); [|by destruct Hs].
  rewrite fmap_is_Some in Hs. by rewrite IH by (simpl in *; lia || done).
Qed.

Lemma utf8_decode_replacement l : is_Some (utf8_decode l) → is_Some (utf8_decode (replacement ++ l)).
Proof.
  intros Hl. unfold replacement. cbn [app utf8_decode].
  change (byte_Z xef <? 128) with false. change (utf8_two xef xbf) with false.
  change (utf8_three xef xbf xbd) with true. cbn iota. by apply fmap_is_Some.
Qed.

Lemma utf8_lossy_text l : is_Some (utf8_decode (utf8_lossy l)).
Proof.
  assert (∀ n l, (length l < n)%nat → is_Some (utf8_decode (utf8_lossy l))) as Hall; [|eauto].
  clear l. induction n as [|n IH]; intros l Hn; [lia|].
  assert (is_Some (utf8_decode replacement)) as Hr by (apply (utf8_decode_replacement []); by eexists).
  destruct l as [|b0 l1]; [by eexists|]. cbn [utf8_lossy].
  destruct (byte_Z b0 <? 128) eqn:E0.
  { cbn [utf8_decode]. rewrite E0. apply fmap_is_Some, IH. simpl in *; lia. }
  destruct l1 as [|b1 l2]; [done|]. destruct (utf8_two b0 b1) eqn:E2.
  { cbn [utf8_decode]. rewrite E0, E2. apply fmap_is_Some, IH. simpl in *; lia. }
  destruct (three_head b0 b1) eqn:E3; [|destruct (four_head b0 b1) eqn:E4].
  - destruct l2 as [|b2 l3]; [done|].
    destruct (is_cont b2) eqn:C2; [|apply utf8_decode_replacement, IH; simpl in *; lia].
    cbn [utf8_decode]. unfold utf8_three. rewrite E0, E2, E3, C2. apply fmap_is_Some, IH. simpl in *; lia.
  - destruct l2 as [|b2 l3]; [done|].
    destruct (is_cont b2) eqn:C2; [|apply utf8_decode_replacement, IH; simpl in *; lia].
    destruct l3 as [|b3 l4]; [done|].
    destruct (is_cont b3) eqn:C3; [|apply utf8_decode_replacement, IH; simpl in *; lia].
    cbn [utf8_decode]. unfold utf8_three, utf8_four. rewrite E0, E2, E3, E4, C2, C3.
    apply fmap_is_Some, IH. simpl in *; lia.
  - apply utf8_decode_replacement, IH. simpl in *; lia.
Qed.

Lemma from_utf8_lossy_id s : str_ok s → from_utf8_lossy (as_bytes s) = s.
Proof.
  intros Hs%bool_decide_eq_true. unfold from_utf8_lossy. by rewrite utf8_lossy_id, from_as_bytes.
Qed.

Lemma from_utf8_lossy_ok l : str_ok (from_utf8_lossy l).
Proof.
  unfold str_ok, from_utf8_lossy, is_utf8. rewrite as_from_bytes.
  apply bool_decide_eq_true, utf8_lossy_text.
Qed.

#[export] Hint Resolve from_utf8_no_panic : rust.
