(* ===== verification/NetAddr.v ===== *)
(** * IP and socket addresses ([core::net])

    The address types of the standard library and their text forms, as the sources use
    them: in multiaddrs, in the messages of errors and to bind sockets. *)
From S2P Require Import Prelude.
From Stdlib Require Import ZArith Strings.Byte Strings.Ascii Strings.String.
From stdpp Require Import base numbers list strings.

#[local] Open Scope Z_scope.

(** [core::net::IpAddr], by its octets: four or sixteen bytes. *)
Inductive IpAddr : Type := V4 (octets : list byte) | V6 (octets : list byte).
#[export] Instance IpAddr_eq_dec : EqDecision IpAddr.
Proof. solve_decision. Defined.

Definition ip_ok (ip : IpAddr) : Prop :=
  match ip with V4 o => length o = 4%nat | V6 o => length o = 16%nat end.

(** [core::net::SocketAddr]; flow label and scope of IPv6 addresses are zero. *)
Record SocketAddr : Type := { sa_ip : IpAddr; sa_port : Z }.
#[export] Instance SocketAddr_eq_dec : EqDecision SocketAddr.
Proof. solve_decision. Defined.

Definition is_ipv4 (a : SocketAddr) : bool := match sa_ip a with V4 _ => true | V6 _ => false end.
Definition is_ipv6 (a : SocketAddr) : bool := match sa_ip a with V4 _ => false | V6 _ => true end.

(** ** Text *)

Definition ipv4_text (octets : list byte) : string := str_join "." (to_string (A:=Z) ∘ byte_Z <$> octets).

(** [Ipv6Addr::segments]. *)
Fixpoint segments (octets : list byte) : list Z :=
  match octets with
  | b1 :: b2 :: octets => byte_Z b1 * 256 + byte_Z b2 :: segments octets
  | _ => []
  end.

(** The first longest run of zero segments: its start and length. *)
Fixpoint longest_zeros (segs : list Z) (i start len best best_len : nat) : nat * nat :=
  match segs with
  | [] => (best, best_len)
  | s :: segs =>
      if s =? 0 then
        let start := if (len =? 0)%nat then i else start in
        let len := S len in
        if (best_len <? len)%nat then longest_zeros segs (S i) start len start len
        else longest_zeros segs (S i) start len best best_len
      else longest_zeros segs (S i) 0 0 best best_len
  end.

Definition segments_text (segs : list Z) : string := str_join ":" (lower_hex <$> segs).

Definition ipv6_text (octets : list byte) : string :=
  let segs := segments octets in
  if decide (take 6 segs = [0; 0; 0; 0; 0; 0xffff]) then "::ffff:" ++ ipv4_text (drop 12 octets)
  else
    let '(start, len) := longest_zeros segs 0 0 0 0 0 in
    if (1 <? len)%nat
    then segments_text (take start segs) ++ "::" ++ segments_text (drop (start + len) segs)
    else segments_text segs.

#[export] Instance IpAddr_display : Display IpAddr := λ ip,
  match ip with V4 o => ipv4_text o | V6 o => ipv6_text o end.

#[export] Instance SocketAddr_display : Display SocketAddr := λ a,
  (match sa_ip a with
   | V4 o => ipv4_text o
   | V6 o => "[" ++ ipv6_text o ++ "]"
   end ++ ":" ++ to_string (A:=Z) (sa_port a))%string.

Example ipv6_text_examples :
  ipv6_text (replicate 16 x00) = "::"%string ∧
  ipv6_text (replicate 15 x00 ++ [x01]) = "::1"%string ∧
  ipv6_text ([x20; x01; x0d; xb8] ++ replicate 11 x00 ++ [x05]) = "2001:db8::5"%string ∧
  ipv6_text (replicate 10 x00 ++ [xff; xff; x7f; x00; x00; x01]) = "::ffff:127.0.0.1"%string ∧
  to_string {| sa_ip := V6 (replicate 16 x00); sa_port := 4001 |} = "[::]:4001"%string.
Proof. split_and!; by vm_compute. Qed.
