(* ===== verification/TextParse.v ===== *)
(** * Reading numbers and addresses from text ([core::str], [core::num], [core::net])

    The parts of the standard library by which the sources read text: splitting,
    [parse] at the unsigned integer types and at [Ipv6Addr], with the proof that what
    [NetAddr] prints is read back. *)
From S2P Require Import Prelude Utf8 NetAddr.
From Stdlib Require Import ZArith Strings.Byte Strings.Ascii Strings.String.
From stdpp Require Import base numbers list strings pretty.

#[local] Open Scope Z_scope.

(** ** Splitting *)

(** [str::split] at an ASCII character. *)
Fixpoint split_bytes (c : byte) (l : list byte) : list (list byte) :=
  match l with
  | [] => [[]]
  | b :: l =>
      if decide (b = c) then [] :: split_bytes c l
      else match split_bytes c l with
           | [] => [[b]]
           | s :: ss => (b :: s) :: ss
           end
  end.
Definition str_split (c : byte) (s : string) : list string := from_bytes <$> split_bytes c (as_bytes s).

(** ** Integers *)

(** [char::to_digit]. *)
Definition to_digit (radix : Z) (b : byte) : option Z :=
  let c := byte_Z b in
  let d := if (48 <=? c) && (c <=? 57) then c - 48
           else if (97 <=? c) && (c <=? 122) then c - 87
           else if (65 <=? c) && (c <=? 90) then c - 55
           else radix in
  if d <? radix then Some d else None.

(** [uN::from_str]: decimal digits, with an optional plus sign; [max] is the largest
    value of the type. *)
Fixpoint parse_digits (max : Z) (l : list byte) (result : Z) : option Z :=
  match l with
  | [] => Some result
  | b :: l =>
      d ← to_digit 10 b;
      let result := result * 10 + d in
      if result <=? max then parse_digits max l result else None
  end.
Definition parse_uint (max : Z) (s : string) : option Z :=
  match as_bytes s with
  | [] => None
  | b :: l =>
      if decide (b = x2b) then if decide (l = []) then None else parse_digits max l 0
      else parse_digits max (b :: l) 0
  end.

(** ** The address parser *)

(** A reader takes what is left of the input and returns its value with what is left
    after it; where it fails, the caller continues from where it was. *)
Definition reader (A : Type) : Type := list byte → option (A * list byte).

(** [Parser::read_number] with a bound on the digits. *)
Fixpoint read_digits (radix : Z) (max_digits : nat) (p : list byte) (result : Z) (digit_count : nat)
    : option (Z * nat * list byte) :=
  match p with
  | [] => Some (result, digit_count, p)
  | b :: rest =>
      match to_digit radix b with
      | None => Some (result, digit_count, p)
      | Some d =>
          if (max_digits <? S digit_count)%nat then None
          else read_digits radix max_digits rest (result * radix + d) (S digit_count)
      end
  end.
Definition read_number (radix : Z) (max_digits : nat) (allow_zero_prefix : bool) (max : Z) : reader Z := λ p,
  let has_leading_zero := bool_decide (head p = Some x30) in
  '(result, digit_count, p) ← read_digits radix max_digits p 0 0;
  if (digit_count =? 0)%nat then None
  else if negb allow_zero_prefix && has_leading_zero && (1 <? digit_count)%nat then None
  else if result <=? max then Some (result, p) else None.

(** [Parser::read_given_char], [Parser::read_separator]. *)
Definition read_given_char (c : byte) : reader unit := λ p,
  match p with b :: p => if decide (b = c) then Some ((), p) else None | [] => None end.
Definition read_separator {A} (sep : byte) (first : bool) (inner : reader A) : reader A := λ p,
  if first then inner p
  else '(_, p) ← read_given_char sep p; inner p.

(** [Parser::read_ipv4_addr]: four numbers without leading zeros. *)
Definition read_ipv4_addr : reader (list Z) := λ p,
  let number := read_number 10 3 false 255 in
  '(a, p) ← read_separator x2e true number p;
  '(b, p) ← read_separator x2e false number p;
  '(c, p) ← read_separator x2e false number p;
  '(d, p) ← read_separator x2e false number p;
  Some ([a; b; c; d], p).

(** [read_groups]: up to [limit] groups, the last two of them possibly as an IPv4
    address; whether there was one; what is left. *)
Fixpoint read_groups (limit : nat) (first : bool) (p : list byte) : list Z * bool * list byte :=
  match limit with
  | O => ([], false, p)
  | S limit =>
      match (if (limit =? 0)%nat then None else read_separator x3a first read_ipv4_addr p) with
      | Some ([a; b; c; d], p) => ([a * 256 + b; c * 256 + d], true, p)
      | _ =>
          match read_separator x3a first (read_number 16 4 true 0xffff) p with
          | None => ([], false, p)
          | Some (g, p) =>
              let '(gs, ipv4, p) := read_groups limit false p in
              (g :: gs, ipv4, p)
          end
      end
  end.

(** [Parser::read_ipv6_addr]. *)
Definition read_ipv6_addr : reader (list Z) := λ p,
  let '(head, head_ipv4, p) := read_groups 8 true p in
  if (length head =? 8)%nat then Some (head, p)
  else if head_ipv4 : bool then None
  else
    '(_, p) ← read_given_char x3a p;
    '(_, p) ← read_given_char x3a p;
    let limit := (8 - (length head + 1))%nat in
    let '(tail, _, p) := read_groups limit true p in
    Some (head ++ repeat 0 (8 - length head - length tail) ++ tail, p).

(** [Ipv6Addr::octets], from the segments. *)
Definition octets (segs : list Z) : list byte := segs ≫= λ s, [Z_byte (s / 256); Z_byte s].

(** [str::parse::<Ipv6Addr>]: the whole input is read. *)
Definition parse_ipv6 (s : string) : option (list byte) :=
  match read_ipv6_addr (as_bytes s) with
  | Some (segs, []) => Some (octets segs)
  | _ => None
  end.

(** ** Numerals *)

Lemma split_bytes_ne c l : split_bytes c l ≠ [].
Proof. destruct l; cbn; [done|]. case_decide; [done|]. by case_match. Qed.

(** Splitting at [c] what was joined with [c] in front of each part. *)
Lemma split_bytes_app c s rest : c ∉ s → split_bytes c (s ++ c :: rest) = s :: split_bytes c rest.
Proof.
  induction s as [|b s IH]; intros Hs; cbn [app split_bytes].
  - by rewrite decide_True.
  - apply not_elem_of_cons in Hs as [Hb Hs]. rewrite decide_False by congruence. by rewrite IH.
Qed.
Lemma split_bytes_last c s : c ∉ s → split_bytes c s = [s].
Proof.
  induction s as [|b s IH]; intros Hs; cbn [split_bytes]; [done|].
  apply not_elem_of_cons in Hs as [Hb Hs]. rewrite decide_False by congruence. by rewrite IH.
Qed.

Lemma split_bytes_parts c l : Forall (λ s, c ∉ s) (split_bytes c l).
Proof.
  induction l as [|b l IH]; cbn [split_bytes]; [repeat constructor; apply not_elem_of_nil|].
  case_decide; [constructor; [apply not_elem_of_nil|done]|].
  destruct (split_bytes c l) as [|s ss]; inversion_clear IH; repeat constructor; try done;
    apply not_elem_of_cons; split; try done; apply not_elem_of_nil.
Qed.

(** A numeral: its digits, most significant first, without leading zeros. *)
Definition value (radix : Z) (ds : list Z) : Z := foldl (λ v d, v * radix + d) 0 ds.
Definition numeral (radix : Z) (ds : list Z) (n : Z) : Prop :=
  Forall (λ d, 0 <= d < radix) ds ∧ value radix ds = n ∧ ds ≠ [] ∧ (head ds = Some 0 → ds = [0]).
Definition digit_byte (d : Z) : byte := byte_of_ascii (hex_digit d).

Lemma value_snoc radix ds d : value radix (ds ++ [d]) = value radix ds * radix + d.
Proof. unfold value. by rewrite foldl_app. Qed.

Lemma digit_cases d : 0 <= d < 16 → d ∈ [0;1;2;3;4;5;6;7;8;9;10;11;12;13;14;15].
Proof. intros. rewrite !elem_of_cons. lia. Qed.

Lemma to_digit_byte radix d : 0 <= d < radix → radix <= 16 → to_digit radix (digit_byte d) = Some d.
Proof.
  intros Hd Hr. assert (to_digit 16 (digit_byte d) = Some d) as H16.
  { assert (Forall (λ d, to_digit 16 (digit_byte d) = Some d) [0;1;2;3;4;5;6;7;8;9;10;11;12;13;14;15]) as H
      by (repeat constructor). rewrite Forall_forall in H. apply H, digit_cases. lia. }
  unfold to_digit in *. set (c := byte_Z _) in *. clearbody c.
  repeat case_match; simplify_eq; try done; lia.
Qed.

Lemma digit_byte_inj d c : 0 <= d < 16 → digit_byte d = c → to_digit 16 c = Some d.
Proof. intros Hd <-. apply to_digit_byte; lia. Qed.

(** With digits in front and a place for more, a numeral grows at its front. *)
Lemma value_cons radix d ds : value radix (d :: ds) = d * radix ^ Z.of_nat (length ds) + value radix ds.
Proof.
  induction ds as [|x ds IH] using rev_ind; [cbn; lia|].
  rewrite app_comm_cons, !value_snoc, IH, length_app. cbn [length].
  replace (Z.of_nat (length ds + 1)) with (Z.succ (Z.of_nat (length ds))) by lia.
  rewrite Z.pow_succ_r by lia. ring.
Qed.

Lemma value_bound radix ds : 0 < radix → Forall (λ d, 0 <= d < radix) ds → 0 <= value radix ds < radix ^ Z.of_nat (length ds).
Proof.
  intros Hr. induction 1 as [|d ds Hd _ IH]; [cbn; lia|]. rewrite value_cons. cbn [length].
  replace (Z.of_nat (S (length ds))) with (Z.succ (Z.of_nat (length ds))) by lia. rewrite Z.pow_succ_r by lia. nia.
Qed.

(** A numeral below a power of the radix has no more digits than the power. *)
Lemma numeral_length radix ds n k : 1 < radix → numeral radix ds n → n < radix ^ Z.of_nat k → (0 < k)%nat → (length ds <= k)%nat.
Proof.
  intros Hr (Hds & Hv & Hne & Hz) Hn Hk. destruct ds as [|d ds]; [done|]. apply Forall_cons in Hds as [Hd Hds].
  destruct (decide (d = 0)) as [->|Hd0]; [rewrite Hz by done; cbn; lia|].
  rewrite value_cons in Hv. pose proof (value_bound radix ds ltac:(lia) Hds).
  destruct (decide (length (d :: ds) <= k)%nat) as [|Hl]; [done|]. exfalso. cbn [length] in Hl.
  assert (radix ^ Z.of_nat k <= radix ^ Z.of_nat (length ds)) by (apply Z.pow_le_mono_r; lia). nia.
Qed.

(** What [{:x}] prints. *)
Lemma hex_loop_digits fuel n acc : 0 <= n < 16 ^ Z.of_nat fuel →
  ∃ ds, as_bytes (hex_loop fuel n acc) = (digit_byte <$> ds) ++ as_bytes acc ∧ Forall (λ d, 0 <= d < 16) ds ∧
    value 16 ds = n ∧ (0 < n → head ds ≠ Some 0) ∧ (n = 0 → ds = [0] ∨ fuel = O).
Proof.
  revert n acc. induction fuel as [|fuel IH]; intros n acc Hn; cbn [hex_loop].
  { exists []. cbn in Hn. split_and!; [done|constructor|cbn; lia|done|by right]. }
  rewrite Nat2Z.inj_succ, Z.pow_succ_r in Hn by lia.
  pose proof (Z.div_mod n 16 ltac:(lia)). pose proof (Z.mod_pos_bound n 16 ltac:(lia)).
  destruct (n / 16 =? 0) eqn:E; [apply Z.eqb_eq in E|apply Z.eqb_neq in E].
  - exists [n mod 16]. split_and!; [done|repeat constructor; lia|cbn; lia|cbn; intros ? [= ?]; lia|].
    intros ->. by left.
  - destruct (IH (n / 16) (String (hex_digit (n mod 16)) acc)) as (ds & E1 & Hds & Hv & Hh & _); [lia|].
    exists (ds ++ [n mod 16]). rewrite E1, fmap_app, value_snoc, Hv, <- app_assoc. split_and!.
    + done.
    + apply Forall_app. split; [done|]. apply Forall_singleton. lia.
    + lia.
    + intros _. assert (0 < n / 16) as Hp by lia. specialize (Hh Hp). by destruct ds.
    + lia.
Qed.

Lemma lower_hex_numeral n : 0 <= n < 16 ^ 16 → ∃ ds, as_bytes (lower_hex n) = digit_byte <$> ds ∧ numeral 16 ds n.
Proof.
  intros Hn. destruct (hex_loop_digits 16 n EmptyString Hn) as (ds & E & Hds & Hv & Hh & Hz).
  exists ds. rewrite app_nil_r in E. split; [done|]. split_and!; [done..| |].
  - intros ->. cbn in Hv. destruct (Hz (eq_sym Hv)); done.
  - intros H0. destruct (decide (n = 0)) as [Hn0|]; [by destruct (Hz Hn0)|]. exfalso. apply Hh; [lia|done].
Qed.

(** What [{}] prints at the unsigned integer types. *)
Lemma pretty_N_go_digits x : ∀ s, ∃ ds,
  as_bytes (pretty_N_go x s) = (digit_byte <$> ds) ++ as_bytes s ∧ Forall (λ d, 0 <= d < 10) ds ∧
  value 10 ds = Z.of_N x ∧ (head ds ≠ Some 0).
Proof.
  induction (N.lt_wf_0 x) as [x _ IH]. intros s. destruct (decide (x = 0)%N) as [->|Hx].
  { exists []. rewrite pretty_N_go_0. split_and!; [done|constructor|done|done]. }
  rewrite pretty_N_go_step by lia. destruct (IH (x / 10)%N ltac:(apply N.div_lt; lia) (String (pretty_N_char (x mod 10)) s))
    as (ds & E & Hds & Hv & Hh).
  pose proof (N.mod_lt x 10 ltac:(lia)) as Hm. pose proof (N.div_mod x 10 ltac:(lia)) as Hx10.
  set (r := (x mod 10)%N) in *. set (y := (x / 10)%N) in *. clearbody r y.
  exists (ds ++ [Z.of_N r]). rewrite E, fmap_app, value_snoc, Hv, <- app_assoc. split_and!.
  - f_equal. cbn [fmap list_fmap app]. change (as_bytes (String ?c s)) with (byte_of_ascii c :: as_bytes s). f_equal.
    assert (∀ z, (z < 10)%N → byte_of_ascii (pretty_N_char z) = digit_byte (Z.of_N z)) as Hc; [|by apply Hc].
    intros z Hy. assert (Forall (λ y, byte_of_ascii (pretty_N_char y) = digit_byte (Z.of_N y)) [0;1;2;3;4;5;6;7;8;9]%N) as HF
      by (repeat constructor). rewrite Forall_forall in HF. apply HF. rewrite !elem_of_cons. lia.
  - apply Forall_app. split; [done|]. apply Forall_singleton. lia.
  - lia.
  - destruct ds as [|d ds]; [|done]. cbn in *. intros [= Hr]. lia.
Qed.

Lemma display_numeral (n : Z) : 0 <= n → ∃ ds, as_bytes (to_string n) = digit_byte <$> ds ∧ numeral 10 ds n.
Proof.
  intros Hn. unfold to_string, Z_display, pretty, pretty_Z. destruct n as [|n|n]; [|clear Hn|lia].
  { exists [0]. split; [done|]. by repeat constructor. }
  unfold pretty, pretty_positive, pretty, pretty_N. rewrite decide_False by done.
  destruct (pretty_N_go_digits (Npos n) EmptyString) as (ds & E & Hds & Hv & Hh).
  exists ds. rewrite app_nil_r in E. split; [done|]. split_and!; [done|exact Hv| |done].
  intros ->. cbn in Hv. lia.
Qed.

(** ** Reading numerals *)

Lemma parse_digits_numeral max ds v : Forall (λ d, 0 <= d < 10) ds → 0 <= v →
  foldl (λ v d, v * 10 + d) v ds <= max → parse_digits max (digit_byte <$> ds) v = Some (foldl (λ v d, v * 10 + d) v ds).
Proof.
  intros Hds. revert v. induction Hds as [|d ds Hd Hds IH]; intros v Hv Hm; cbn [fmap list_fmap parse_digits foldl] in *; [done|].
  rewrite to_digit_byte by lia. cbn [mbind option_bind].
  assert (∀ ds v, Forall (λ d, 0 <= d < 10) ds → 0 <= v → v <= foldl (λ v d, v * 10 + d) v ds) as Hmono.
  { clear. intros ds. induction ds as [|d ds IH]; intros v Hds Hv; cbn [foldl]; [lia|]. apply Forall_cons in Hds as [Hd Hds].
    specialize (IH (v * 10 + d) Hds ltac:(lia)). lia. }
  rewrite (proj2 (Z.leb_le _ _)); [apply IH; [lia|done]|]. etrans; [apply Hmono; [exact Hds|lia]|done].
Qed.

(** [parse] reads what [Display] prints. *)
Lemma parse_uint_display max n : 0 <= n <= max → parse_uint max (to_string n) = Some n.
Proof.
  intros Hn. destruct (display_numeral n) as (ds & E & Hds & Hv & Hne & _); [lia|].
  unfold parse_uint. rewrite E. destruct ds as [|d ds]; [done|]. cbn [fmap list_fmap].
  rewrite decide_False.
  - rewrite <- fmap_cons, (parse_digits_numeral max (d :: ds) 0); [by f_equal|done|done|].
    change (value 10 (d :: ds) <= max). lia.
  - intros Hb. apply Forall_cons in Hds as [Hd _]. by apply digit_byte_inj in Hb; [|lia].
Qed.

Lemma parse_digits_range max l v n : 0 <= v <= max → parse_digits max l v = Some n → 0 <= n <= max.
Proof.
  revert v. induction l as [|b l IH]; intros v Hv; cbn [parse_digits]; [by intros [= <-]|].
  destruct (to_digit 10 b) as [d|] eqn:Ed; cbn [mbind option_bind]; [|done].
  case_match eqn:Em; [|done]. apply Z.leb_le in Em. apply IH. pose proof (byte_Z_range b).
  unfold to_digit in Ed. repeat case_match; simplify_eq; lia.
Qed.
Lemma parse_uint_range max s n : 0 <= max → parse_uint max s = Some n → 0 <= n <= max.
Proof.
  intros Hm. unfold parse_uint. repeat case_match; try done; apply parse_digits_range; lia.
Qed.

(** Reading stops at the first byte that is no digit. *)
Definition no_digit (radix : Z) (rest : list byte) : Prop := ∀ b, head rest = Some b → to_digit radix b = None.

Lemma read_digits_numeral radix max ds rest v count : 0 < radix <= 16 → Forall (λ d, 0 <= d < radix) ds → no_digit radix rest →
  (count + length ds <= max)%nat →
  read_digits radix max ((digit_byte <$> ds) ++ rest) v count
  = Some (foldl (λ v d, v * radix + d) v ds, (count + length ds)%nat, rest).
Proof.
  intros Hr Hds Hrest. revert v count. induction Hds as [|d ds Hd Hds IH]; intros v count Hc; cbn [fmap list_fmap app foldl length].
  - rewrite Nat.add_0_r. destruct rest as [|b rest]; [done|]. cbn [read_digits]. by rewrite (Hrest b).
  - cbn [read_digits length] in *. rewrite to_digit_byte by lia. rewrite (proj2 (Nat.ltb_ge _ _)) by lia.
    rewrite IH by lia. by rewrite Nat.add_succ_r.
Qed.

Lemma read_number_numeral radix k allow max ds n rest : 1 < radix <= 16 → numeral radix ds n → no_digit radix rest →
  n < radix ^ Z.of_nat k → (0 < k)%nat → n <= max →
  read_number radix k allow max ((digit_byte <$> ds) ++ rest) = Some (n, rest).
Proof.
  intros Hr Hn Hrest Hk Hk0 Hmax. pose proof (numeral_length radix ds n k ltac:(lia) Hn Hk Hk0) as Hl.
  destruct Hn as (Hds & Hv & Hne & Hz). unfold read_number. rewrite read_digits_numeral by (done || lia).
  cbn [mbind option_bind Nat.add]. fold (value radix ds). rewrite Hv.
  destruct (length ds =? 0)%nat eqn:E0; [by destruct ds|].
  rewrite (proj2 (Z.leb_le _ _)) by done.
  destruct (negb allow && _ && _) eqn:E; [|done]. exfalso.
  apply andb_true_iff in E as [[_ E1%bool_decide_eq_true]%andb_true_iff E2%Nat.ltb_lt].
  destruct ds as [|d ds]; [done|]. cbn [fmap list_fmap app head] in E1. injection E1 as E1.
  apply Forall_cons in Hds as [Hd _]. apply digit_byte_inj in E1; [|lia]. change (Some 0 = Some d) in E1. injection E1 as <-.
  rewrite Hz in E2 by done. cbn in E2. lia.
Qed.

(** ** Reading addresses *)

Lemma digit_byte_not radix d c : 0 <= d < radix → radix <= 16 → to_digit 16 c = None → digit_byte d ≠ c.
Proof. intros Hd Hr Hc Hdc. apply digit_byte_inj in Hdc; [congruence|lia]. Qed.

(** After a decimal number inside hexadecimal digits there is no dot, *)
Lemma read_digits_no_dot max ds rest v count r : Forall (λ d, 0 <= d < 16) ds → no_digit 10 rest → head rest ≠ Some x2e →
  read_digits 10 max ((digit_byte <$> ds) ++ rest) v count = Some r → head r.2 ≠ Some x2e.
Proof.
  intros Hds Hrest Hdot. revert v count. induction Hds as [|d ds Hd _ IH]; intros v count; cbn [fmap list_fmap app].
  - destruct rest as [|b rest]; cbn [read_digits]; [by intros [= <-]|]. rewrite (Hrest b) by done. by intros [= <-].
  - cbn [read_digits]. case_match; [case_match; [done|apply IH]|]. intros [= <-]. cbn. intros [= Hb].
    by apply digit_byte_inj in Hb.
Qed.

(** so a group is never taken for an IPv4 address. *)
Lemma read_ipv4_group ds rest : Forall (λ d, 0 <= d < 16) ds → no_digit 10 rest → head rest ≠ Some x2e →
  read_ipv4_addr ((digit_byte <$> ds) ++ rest) = None.
Proof.
  intros Hds Hrest Hdot. unfold read_ipv4_addr. cbn [read_separator].
  destruct (read_number 10 3 false 255 _) as [[n p]|] eqn:En; cbn [mbind option_bind]; [|done].
  assert (head p ≠ Some x2e) as Hp.
  { unfold read_number in En. destruct (read_digits 10 3 _ 0 0) as [[[r k] p']|] eqn:E; cbn [mbind option_bind] in En; [|done].
    apply read_digits_no_dot in E; [|done..]. by repeat case_match; simplify_eq. }
  unfold read_given_char. destruct p as [|b p]; [done|]. by rewrite decide_False by (intros ->; done).
Qed.

(** The end of the groups of an address, or of those before [::]. *)
Definition ends (rest : list byte) : Prop := rest = [] ∨ ∃ r, rest = x3a :: x3a :: r.

Lemma ends_stop rest : ends rest → no_digit 16 rest ∧ no_digit 10 rest ∧ head rest ≠ Some x2e.
Proof. intros [->|[r ->]]; split_and!; try done; by intros b [= <-]. Qed.

Lemma read_groups_end n first rest : ends rest → read_groups n first rest = ([], false, rest).
Proof. intros [->|[r ->]]; destruct n as [|[|n]], first; reflexivity. Qed.

(** The text of groups: a colon between them, and in front unless they come first. *)
Fixpoint groups_text (first : bool) (gs : list Z) : list byte :=
  match gs with
  | [] => []
  | g :: gs => (if first then [] else [x3a]) ++ as_bytes (lower_hex g) ++ groups_text false gs
  end.

Lemma as_bytes_app s1 s2 : as_bytes (s1 ++ s2)%string = as_bytes s1 ++ as_bytes s2.
Proof.
  induction s1 as [|c s1 IH]; [done|].
  change (byte_of_ascii c :: as_bytes (s1 ++ s2)%string = byte_of_ascii c :: (as_bytes s1 ++ as_bytes s2)). by rewrite IH.
Qed.

Lemma segments_text_groups gs : as_bytes (segments_text gs) = groups_text true gs.
Proof.
  unfold segments_text, str_join. destruct gs as [|g gs]; [done|]. cbn [groups_text fmap list_fmap app].
  revert g. induction gs as [|g' gs IH]; intros g; cbn [fmap list_fmap String.concat groups_text]; [by rewrite app_nil_r|].
  rewrite !as_bytes_app. f_equal. cbn [app]. change (as_bytes ":") with [x3a]. cbn [app]. f_equal. apply IH.
Qed.

Lemma read_groups_text gs n first rest : (length gs <= n)%nat → Forall (λ g, 0 <= g < 65536) gs → ends rest →
  read_groups n first (groups_text first gs ++ rest) = (gs, false, rest).
Proof.
  intros Hn Hgs Hrest. revert n first Hn. induction Hgs as [|g gs Hg _ IH]; intros n first Hn.
  { by apply read_groups_end. }
  destruct n as [|n]; cbn [length] in Hn; [lia|]. cbn [groups_text].
  destruct (lower_hex_numeral g) as (ds & Eds & Hds); [lia|]. rewrite Eds, <- !app_assoc.
  set (tail := groups_text false gs ++ rest).
  assert (no_digit 16 tail ∧ no_digit 10 tail ∧ head tail ≠ Some x2e) as (Ht16 & Ht10 & Htd).
  { unfold tail. destruct gs as [|g' gs]; [by apply ends_stop|].
    cbn [groups_text]. rewrite <- !app_assoc. cbn [app]. split_and!; [intros b [= <-]; reflexivity|intros b [= <-]; reflexivity|done]. }
  assert (∀ A (inner : reader A), read_separator x3a first inner ((if first then [] else [x3a]) ++ (digit_byte <$> ds) ++ tail)
    = inner ((digit_byte <$> ds) ++ tail)) as Hsep by (intros; by destruct first).
  cbn [read_groups]. rewrite !Hsep. rewrite read_ipv4_group by (done || apply Hds).
  assert ((if (n =? 0)%nat then None else None) = @None (list Z * list byte)) as -> by (by destruct (n =? 0)%nat).
  rewrite (read_number_numeral 16 4 true 0xffff ds g) by (done || lia).
  unfold tail. rewrite IH by lia. done.
Qed.

Lemma read_ipv4_text a b c d rest : no_digit 10 rest →
  read_ipv4_addr (as_bytes (ipv4_text [a; b; c; d]) ++ rest) = Some ([byte_Z a; byte_Z b; byte_Z c; byte_Z d], rest).
Proof.
  intros Hrest.
  assert (∀ (x : byte) rest, no_digit 10 rest →
    read_number 10 3 false 255 (as_bytes (to_string (byte_Z x)) ++ rest) = Some (byte_Z x, rest)) as Hnum.
  { intros x r Hr. pose proof (byte_Z_range x). destruct (display_numeral (byte_Z x)) as (ds & -> & Hds); [lia|].
    apply read_number_numeral; (done || lia). }
  unfold ipv4_text, str_join. cbn [fmap list_fmap String.concat]. unfold compose. rewrite !as_bytes_app, <- !app_assoc.
  change (as_bytes ".") with [x2e]. cbn [app].
  assert (∀ l, no_digit 10 (x2e :: l)) as Hdot by (by intros l b0 [= <-]).
  unfold read_ipv4_addr, read_separator, read_given_char.
  do 3 (rewrite Hnum by apply Hdot; cbn [mbind option_bind]; rewrite decide_True by done; cbn [mbind option_bind]).
  by rewrite Hnum.
Qed.

(** ** Segments and octets *)

Lemma segments_range o : Forall (λ g, 0 <= g < 65536) (segments o).
Proof.
  assert (∀ n o, (length o < n)%nat → Forall (λ g, 0 <= g < 65536) (segments o)) as H; [|eauto].
  induction n as [|n IH]; intros l Hl; [lia|]. destruct l as [|b1 [|b2 l]]; cbn [segments]; [done..|].
  pose proof (byte_Z_range b1). pose proof (byte_Z_range b2). constructor; [lia|]. apply IH. cbn in Hl. lia.
Qed.

Lemma segments_octets o k : length o = (2 * k)%nat → octets (segments o) = o ∧ length (segments o) = k.
Proof.
  revert o. induction k as [|k IH]; intros o Hl; [by destruct o|].
  destruct o as [|b1 [|b2 o]]; cbn [length] in Hl; [lia..|]. destruct (IH o ltac:(lia)) as [E El].
  cbn [segments length]. split; [|by rewrite El]. unfold octets in *. cbn [mbind list_bind]. rewrite E. cbn [app].
  pose proof (byte_Z_range b1). pose proof (byte_Z_range b2). f_equal; [|f_equal].
  - rewrite <- (Z_byte_byte_Z b1) at 2. f_equal. rewrite Z.div_add_l by lia. rewrite Z.div_small by lia. lia.
  - apply byte_Z_inj. rewrite byte_Z_Z_byte. rewrite Z.add_comm, Z.mod_add by lia. by apply Z.mod_small.
Qed.

(** The run that [longest_zeros] finds is a run of zeros. *)
Definition zeros_at (segs : list Z) (start len : nat) : Prop := take len (drop start segs) = repeat 0 len.

Lemma longest_zeros_spec segs : ∀ pre start len best best_len,
  zeros_at pre best best_len → (best + best_len <= length pre)%nat →
  zeros_at pre start len → (0 < len → start + len = length pre)%nat →
  let r := longest_zeros segs (length pre) start len best best_len in
  zeros_at (pre ++ segs) r.1 r.2 ∧ (r.1 + r.2 <= length (pre ++ segs))%nat.
Proof.
  assert (∀ l1 l2 a n, zeros_at l1 a n → (a + n <= length l1)%nat → zeros_at (l1 ++ l2) a n) as Hext.
  { intros l1 l2 a n Hz Hl. unfold zeros_at in *. rewrite drop_app_le by lia. rewrite take_app_le; [done|]. rewrite length_drop. lia. }
  induction segs as [|s segs IH]; intros pre start len best best_len Hb Hbl Hs Hsl; cbn [longest_zeros].
  { rewrite app_nil_r. done. }
  assert (length (pre ++ [s]) = S (length pre)) as Hlen by (rewrite length_app; cbn; lia).
  replace (pre ++ s :: segs) with ((pre ++ [s]) ++ segs) by (by rewrite <- app_assoc). rewrite <- !Hlen.
  destruct (s =? 0) eqn:Es; [apply Z.eqb_eq in Es as ->|].
  - set (start' := if (len =? 0)%nat then length pre else start).
    assert (zeros_at (pre ++ [0]) start' (S len) ∧ (start' + S len)%nat = length (pre ++ [0])) as [Hz Hzl].
    { rewrite Hlen. subst start'. destruct (len =? 0)%nat eqn:El.
      - apply Nat.eqb_eq in El as ->. split; [|lia]. unfold zeros_at. by rewrite drop_app_length.
      - apply Nat.eqb_neq in El. specialize (Hsl ltac:(lia)). split; [|lia]. unfold zeros_at in *.
        rewrite drop_app_le by lia. rewrite take_app_ge by (rewrite length_drop; lia). rewrite length_drop.
        replace (S len - (length pre - start))%nat with 1%nat by lia. rewrite (take_ge (drop _ _)) in Hs by (rewrite length_drop; lia).
        rewrite Hs. change (take 1 [0]) with (repeat 0 1). rewrite <- repeat_app. f_equal. lia. }
    case_match; apply IH; try done; try lia; apply Hext; done.
  - apply IH; try done; try lia. by apply Hext.
Qed.

Lemma zeros_split segs start len : zeros_at segs start len → (start + len <= length segs)%nat →
  segs = take start segs ++ repeat 0 len ++ drop (start + len) segs.
Proof.
  intros Hz Hl. rewrite <- (take_drop start segs) at 1. f_equal. rewrite <- (take_drop len (drop start segs)), drop_drop. by rewrite Hz.
Qed.

(** ** What is printed is read back *)

Lemma read_given_same c p : read_given_char c (c :: p) = Some ((), p).
Proof. cbn. by rewrite decide_True. Qed.

Lemma read_groups_ipv4 n first p a b c d rest : read_separator x3a first read_ipv4_addr p = Some ([a; b; c; d], rest) →
  read_groups (S (S n)) first p = ([a * 256 + b; c * 256 + d], true, rest).
Proof. intros H. cbn [read_groups]. change (S n =? 0)%nat with false. cbv iota. by rewrite H. Qed.

Lemma read_ipv6_mapped a b c d :
  read_ipv6_addr (as_bytes ("::ffff:" ++ ipv4_text [a; b; c; d]))
  = Some ([0; 0; 0; 0; 0; 0xffff; byte_Z a * 256 + byte_Z b; byte_Z c * 256 + byte_Z d], []).
Proof.
  rewrite as_bytes_app. change (as_bytes "::ffff:") with ([x3a; x3a] ++ as_bytes "ffff" ++ [x3a]).
  unfold read_ipv6_addr. rewrite <- !app_assoc.
  rewrite read_groups_end by (right; by eexists). cbn [length Nat.eqb app].
  rewrite read_given_same; cbn [mbind option_bind]. rewrite read_given_same; cbn [mbind option_bind]. change (8 - (0 + 1))%nat with 7%nat.
  assert (∀ l, read_groups 7 true (as_bytes "ffff" ++ x3a :: l) =
    let '(gs, ipv4, p) := read_groups 6 false (x3a :: l) in (0xffff :: gs, ipv4, p)) as -> by (intros; reflexivity).
  rewrite (read_groups_ipv4 4 _ _ (byte_Z a) (byte_Z b) (byte_Z c) (byte_Z d) []); [reflexivity|].
  unfold read_separator. rewrite read_given_same; cbn [mbind option_bind].
  by rewrite <- (app_nil_r (as_bytes (ipv4_text _))), read_ipv4_text.
Qed.

Lemma parse_ipv6_text o : length o = 16%nat → parse_ipv6 (ipv6_text o) = Some o.
Proof.
  intros Ho. destruct (segments_octets o 8 Ho) as [Hoct Hlen]. pose proof (segments_range o) as Hr.
  unfold parse_ipv6, ipv6_text. case_decide as Hm.
  - do 16 (destruct o as [|? o]; [done|]). destruct o as [|? o]; [|done]. cbn [drop]. rewrite read_ipv6_mapped. f_equal. rewrite <- Hoct. f_equal.
    cbn [segments take] in Hm |- *. by injection Hm as -> -> -> -> -> ->.
  - pose proof (longest_zeros_spec (segments o) [] 0 0 0 0 eq_refl ltac:(done) eq_refl ltac:(lia)) as Hz.
    cbn [length app] in Hz. destruct (longest_zeros (segments o) 0 0 0 0 0) as [start len]. cbn [fst snd] in Hz.
    destruct Hz as [Hz Hzl]. rewrite Hlen in Hzl. destruct (1 <? len)%nat eqn:El.
    + apply Nat.ltb_lt in El. rewrite !as_bytes_app, !segments_text_groups. unfold read_ipv6_addr.
      set (hd := take start (segments o)). set (tl := drop (start + len) (segments o)).
      assert (length hd = start) as Hhd by (unfold hd; rewrite length_take; lia).
      assert (length tl = 8 - (start + len))%nat as Htl by (unfold tl; rewrite length_drop; lia).
      rewrite read_groups_text; [|lia|by apply Forall_take|right; by eexists].
      rewrite (proj2 (Nat.eqb_neq _ _)) by lia. change (as_bytes "::") with [x3a; x3a]. cbn [app].
      rewrite read_given_same; cbn [mbind option_bind]. rewrite read_given_same; cbn [mbind option_bind].
      rewrite <- (app_nil_r (groups_text true tl)), read_groups_text; [|lia|by apply Forall_drop|by left].
      f_equal. rewrite <- Hoct. f_equal. rewrite (zeros_split _ _ _ Hz) by lia. fold hd tl. do 3 f_equal. lia.
    + unfold read_ipv6_addr. rewrite segments_text_groups, <- (app_nil_r (groups_text true _)).
      rewrite read_groups_text; [|lia|done|by left]. rewrite Hlen. cbn [Nat.eqb]. by rewrite Hoct.
Qed.

Lemma parse_ipv6_empty : parse_ipv6 EmptyString = None.
Proof. vm_compute. reflexivity. Qed.

Lemma read_groups_length n first p : (length (read_groups n first p).1.1 <= n)%nat.
Proof.
  revert first p. induction n as [|n IH]; intros first p; cbn [read_groups]; [done|].
  assert (length (match read_separator x3a first (read_number 16 4 true 65535) p with
           | None => ([], false, p)
           | Some (g, p) => let '(gs, ipv4, p) := read_groups n false p in (g :: gs, ipv4, p)
           end).1.1 <= S n)%nat as Hgroup.
  { destruct (read_separator x3a first _ p) as [[g p']|]; [|cbn; lia].
    specialize (IH false p'). destruct (read_groups n false p') as [[gs v4] p'']. cbn in *. lia. }
  destruct (n =? 0)%nat eqn:En; [exact Hgroup|]. apply Nat.eqb_neq in En.
  destruct (read_separator x3a first read_ipv4_addr p) as [[[|a [|b [|c [|d [|? ?]]]]] p']|]; try exact Hgroup. cbn. lia.
Qed.

#[local] Opaque read_groups.
Lemma parse_ipv6_length s o : parse_ipv6 s = Some o → length o = 16%nat.
Proof.
  assert (∀ segs, length (octets segs) = (2 * length segs)%nat) as Hoct.
  { induction segs as [|g segs IH]; [done|]. unfold octets in *. cbn. rewrite IH. lia. }
  unfold parse_ipv6. destruct (read_ipv6_addr (as_bytes s)) as [[segs [|? ?]]|] eqn:E; try done. intros [= <-].
  rewrite Hoct. unfold read_ipv6_addr in E. pose proof (read_groups_length 8 true (as_bytes s)) as Hh.
  destruct (read_groups 8 true (as_bytes s)) as [[hd v4] p]. cbn [fst] in Hh.
  destruct (length hd =? 8)%nat eqn:El; [apply Nat.eqb_eq in El; injection E as -> _; lia|apply Nat.eqb_neq in El].
  destruct v4; [done|]. destruct (read_given_char x3a p) as [[? p1]|]; cbn [mbind option_bind] in E; [|done].
  destruct (read_given_char x3a p1) as [[? p2]|]; cbn [mbind option_bind] in E; [|done].
  pose proof (read_groups_length (8 - (length hd + 1)) true p2) as Ht.
  destruct (read_groups (8 - (length hd + 1)) true p2) as [[tl v6] p3]. cbn [fst] in Ht. injection E as <- _.
  rewrite !length_app, repeat_length. lia.
Qed.
#[local] Transparent read_groups.

(** ** Parts of a text are text *)

Lemma utf8_decode_split l1 c l2 : byte_Z c < 128 → is_Some (utf8_decode (l1 ++ c :: l2)) →
  is_Some (utf8_decode l1) ∧ is_Some (utf8_decode l2).
Proof.
  intros Hc. assert (is_cont c = false) as Hcont by (unfold is_cont; apply andb_false_iff; left; apply Z.leb_gt; lia).
  assert (∀ b0, utf8_two b0 c = false) as H2 by (intros; unfold utf8_two; by rewrite Hcont, andb_false_r).
  assert (∀ b0, three_head b0 c = false ∧ four_head b0 c = false) as H34.
  { intros b0. unfold three_head, four_head, in_range. rewrite Hcont.
    assert (∀ lo, 128 <= lo → (lo <=? byte_Z c) = false) as Hlo by (intros; apply Z.leb_gt; lia).
    rewrite !Hlo by lia. rewrite !andb_false_r. by repeat case_match. }
  assert (∀ n l1, (length l1 < n)%nat → is_Some (utf8_decode (l1 ++ c :: l2)) → is_Some (utf8_decode l1) ∧ is_Some (utf8_decode l2))
    as Hall; [|eauto]. clear l1.
  induction n as [|n IH]; intros l1 Hn Hs; [lia|].
  assert (∀ k, (k < length l1)%nat → is_Some (utf8_decode (drop (S k) l1 ++ c :: l2)) →
    is_Some (utf8_decode (drop (S k) l1)) ∧ is_Some (utf8_decode l2)) as Hrec.
  { intros k Hk. apply IH. rewrite length_drop. lia. }
  destruct l1 as [|b0 l1].
  { cbn [app utf8_decode] in *. rewrite (proj2 (Z.ltb_lt _ _)), fmap_is_Some in Hs by done. split; [by eexists|done]. }
  cbn [app utf8_decode] in *. destruct (byte_Z b0 <? 128) eqn:E0.
  { rewrite fmap_is_Some in *. apply (Hrec 0%nat); [cbn; lia|done]. }
  destruct l1 as [|b1 l1]; cbn [app] in Hs.
  { rewrite H2 in Hs. unfold utf8_three, utf8_four in Hs. rewrite !(proj1 (H34 b0)), !(proj2 (H34 b0)) in Hs. cbn [andb] in Hs.
    destruct l2 as [|? [|? ?]]; by destruct Hs. }
  destruct (utf8_two b0 b1).
  { rewrite fmap_is_Some in *. apply (Hrec 1%nat); [cbn; lia|done]. }
  destruct l1 as [|b2 l1]; cbn [app] in Hs.
  { unfold utf8_three, utf8_four in Hs. rewrite Hcont, !andb_false_r in Hs. cbn [andb] in Hs. destruct l2; by destruct Hs. }
  destruct (utf8_three b0 b1 b2).
  { rewrite fmap_is_Some in *. apply (Hrec 2%nat); [cbn; lia|done]. }
  destruct l1 as [|b3 l1]; cbn [app] in Hs.
  { unfold utf8_four in Hs. rewrite Hcont, !andb_false_r in Hs. by destruct Hs. }
  destruct (utf8_four b0 b1 b2 b3); [|by destruct Hs].
  rewrite fmap_is_Some in *. apply (Hrec 3%nat); [cbn; lia|done].
Qed.

Lemma split_bytes_utf8 c l : byte_Z c < 128 → is_Some (utf8_decode l) → Forall (λ s, is_Some (utf8_decode s)) (split_bytes c l).
Proof.
  intros Hc. assert (∀ n l, (length l < n)%nat → is_Some (utf8_decode l) → Forall (λ s, is_Some (utf8_decode s)) (split_bytes c l))
    as Hall; [|eauto]. clear l. induction n as [|n IH]; intros l Hn Hl; [lia|].
  destruct (decide (c ∈ l)) as [Hin|Hout]; [|rewrite split_bytes_last by done; by constructor].
  apply list_elem_of_split_l in Hin as (l1 & l2 & -> & Hout). rewrite split_bytes_app by done.
  apply utf8_decode_split in Hl as [H1 H2]; [|done]. constructor; [done|]. apply IH; [|done]. rewrite length_app in Hn. cbn in Hn. lia.
Qed.

Lemma split_bytes_length c l : Forall (λ s, (length s <= length l)%nat) (split_bytes c l).
Proof.
  assert (∀ n l, (length l < n)%nat → Forall (λ s, (length s <= length l)%nat) (split_bytes c l)) as Hall; [|eauto].
  clear l. induction n as [|n IH]; intros l Hn; [lia|].
  destruct (decide (c ∈ l)) as [Hin|Hout]; [|rewrite split_bytes_last by done; by constructor].
  apply list_elem_of_split_l in Hin as (l1 & l2 & -> & Hout). rewrite split_bytes_app, length_app in * by done. cbn [length] in *.
  constructor; [lia|]. eapply Forall_impl; [apply IH; lia|]. cbn. lia.
Qed.

(** [parse::<Ipv6Addr>] on the forms of RFC 4291. *)
Example parse_ipv6_examples :
  parse_ipv6 "::" = Some (replicate 16 x00) ∧
  parse_ipv6 "2001:DB8::5" = Some ([x20; x01; x0d; xb8] ++ replicate 11 x00 ++ [x05]) ∧
  parse_ipv6 "::ffff:127.0.0.1" = Some (replicate 10 x00 ++ [xff; xff; x7f; x00; x00; x01]) ∧
  parse_ipv6 "1:2:3:4:5:6:7::" = Some (octets [1; 2; 3; 4; 5; 6; 7; 0]) ∧
  parse_ipv6 "1:2:3:4:5:6:7:8::" = None ∧ parse_ipv6 ":1" = None ∧ parse_ipv6 "1::2::3" = None ∧
  parse_ipv6 "::127.0.0.01" = None ∧ parse_ipv6 "12345::" = None.
Proof. split_and!; by vm_compute. Qed.
