(* ===== verification/Effects.v ===== *)
(** * Methods with [&mut] state that may fail

    A Rust method of type [fn(&mut self, ..) -> Result<A, E>] is a function from the
    state it borrows to the state it leaves and its result: what it changed before an
    early return stays changed.  [eff] is the monad of such functions, and [ensures]
    its program logic: a state invariant, a relation between the states before and
    after that composes, and no unwinding. *)
From S2P Require Import Prelude.
From Stdlib Require Import ZArith.
From stdpp Require Import base numbers list.

Definition eff (S E A : Type) : Type := S → S * res E A.

#[export] Instance eff_ret {S E} : MRet (eff S E) := λ A a s, (s, Ok a).
#[export] Instance eff_bind {S E} : MBind (eff S E) := λ A B k m s,
  match m s with
  | (s', Ok a) => k a s'
  | (s', Err e) => (s', Err e)
  | (s', Panic) => (s', Panic)
  end.

Lemma eff_assoc {S E A B C} (m : eff S E A) (k : A → eff S E B) (h : B → eff S E C) s :
  (m ≫= λ a, k a ≫= h) s = ((m ≫= k) ≫= h) s.
Proof. unfold mbind, eff_bind. by destruct (m s) as [s' [a|e|]]. Qed.

Section primitives.
Context {S E : Type}.

Definition get : eff S E S := λ s, (s, Ok s).
Definition gets {A} (f : S → A) : eff S E A := λ s, (s, Ok (f s)).
Definition modify (f : S → S) : eff S E unit := λ s, (f s, Ok ()).
Definition throw {A} (e : E) : eff S E A := λ s, (s, Err e).
Definition panic {A} : eff S E A := λ s, (s, Panic).
Definition lift {A} (r : res E A) : eff S E A := λ s, (s, r).
(** A call on a part of the state that always returns. *)
Definition state {A} (f : S → S * A) : eff S E A := λ s, let '(s', a) := f s in (s', Ok a).

(** [for x in l { body }]; [?] in the body leaves the loop and the function. *)
Fixpoint for_each {A} (l : list A) (body : A → eff S E unit) : eff S E unit :=
  match l with
  | [] => mret ()
  | x :: l => _ ← body x; for_each l body
  end.
End primitives.

(** A method of a part of the state: [zoom get put m] runs [m] on the part. *)
Definition zoom {S T E A} (part : S → T) (put : T → S → S) (m : eff T E A) : eff S E A :=
  λ s, let '(t, r) := m (part s) in (put t s, r).

(** ** The logic *)

Section logic.
Context {S E : Type} (I : S → Prop) (R : S → S → Prop).

(** Run from [s], [m] does not unwind and leaves a state that satisfies the invariant
    [I] and is related to the reference state [s0] by [R]. *)
Definition run_ok {A} (s0 : S) (m : eff S E A) (s : S) : Prop :=
  (m s).2 ≠ Panic ∧ I (m s).1 ∧ R s0 (m s).1.

(** From every state of the invariant, [m] keeps to the invariant and the relation. *)
Definition respects {A} (m : eff S E A) : Prop := ∀ s, I s → run_ok s m s.

Lemma ok_ret {A} (a : A) s0 s : I s → R s0 s → run_ok s0 (mret a) s.
Proof. intros. by unfold run_ok; split_and!. Qed.

Lemma ok_throw {A} (e : E) s0 s : I s → R s0 s → run_ok s0 (throw (A:=A) e) s.
Proof. intros. by unfold run_ok; split_and!. Qed.

Lemma ok_modify f s0 s : I (f s) → R s0 (f s) → run_ok s0 (modify f) s.
Proof. intros. by unfold run_ok; split_and!. Qed.

Lemma ok_gets_bind {A B} (f : S → A) (k : A → eff S E B) s0 s :
  run_ok s0 (k (f s)) s → run_ok s0 (gets f ≫= k) s.
Proof. done. Qed.

Lemma ok_modify_bind {B} f (k : unit → eff S E B) s0 s :
  run_ok s0 (k ()) (f s) → run_ok s0 (modify f ≫= k) s.
Proof. done. Qed.

Lemma ok_state_bind {A B} (f : S → S * A) (k : A → eff S E B) s0 s :
  run_ok s0 (k (f s).2) (f s).1 → run_ok s0 (state f ≫= k) s.
Proof. unfold run_ok, mbind, eff_bind, state. by destruct (f s). Qed.

Lemma ok_lift_bind {A B} (a : A) (k : A → eff S E B) s0 s :
  run_ok s0 (k a) s → run_ok s0 (lift (Ok a) ≫= k) s.
Proof. done. Qed.

Lemma ok_ret_bind {A B} (a : A) (k : A → eff S E B) s0 s :
  run_ok s0 (k a) s → run_ok s0 (mret a ≫= k) s.
Proof. done. Qed.

Lemma ok_bind {A B} (m : eff S E A) (k : A → eff S E B) s0 s :
  run_ok s0 m s → (∀ a s', m s = (s', Ok a) → I s' → R s0 s' → run_ok s0 (k a) s') → run_ok s0 (m ≫= k) s.
Proof.
  intros (Hp & HI & HR) Hk. unfold run_ok, mbind, eff_bind.
  destruct (m s) as [s' [a|e|]]; cbn in *; [by apply Hk|done..].
Qed.

Context `{!PreOrder R}.

Lemma ok_call {A} (m : eff S E A) s0 s : respects m → I s → R s0 s → run_ok s0 m s.
Proof. intros Hm Hs HR. destruct (Hm s Hs) as (? & ? & ?). unfold run_ok. split_and!; [done..|]. by etrans. Qed.

Lemma ok_call_bind {A B} (m : eff S E A) (k : A → eff S E B) s0 s :
  respects m → I s → R s0 s →
  (∀ a s', m s = (s', Ok a) → I s' → R s s' → R s0 s' → run_ok s0 (k a) s') →
  run_ok s0 (m ≫= k) s.
Proof.
  intros Hm Hs HR Hk. apply ok_bind; [by apply ok_call|]. intros a s' E0 Hs' HR'.
  apply Hk; [done..| |done]. destruct (Hm s Hs) as (_ & _ & Hr). by rewrite E0 in Hr.
Qed.

Lemma respects_bind {A B} (m : eff S E A) (k : A → eff S E B) :
  respects m → (∀ a, respects (k a)) → respects (m ≫= k).
Proof. intros Hm Hk s Hs. apply ok_call_bind; [done..|]. intros a s' _ Hs' _ HR. by apply ok_call. Qed.

Lemma respects_for_each {A} (l : list A) body :
  (∀ x, respects (body x)) → respects (for_each l body).
Proof. intros Hb. induction l; cbn; [intros s Hs; by apply ok_ret|]. by apply respects_bind. Qed.
End logic.

(** The relation to another reference state. *)
Lemma run_ok_weaken {S E A} (I : S → Prop) (R R' : S → S → Prop) (m : eff S E A) s0 s0' s :
  (∀ s', R s0 s' → R' s0' s') → run_ok I R s0 m s → run_ok I R' s0' m s.
Proof. intros HR (? & ? & ?). unfold run_ok. split_and!; auto. Qed.
