(* ===== verification/SansIo.v ===== *)
(** * The Sans-I/O contract ([crates/core/src/sans_io.rs])

    Every protocol state machine implements the trait [SansIoProtocol]: it takes
    one input at a time and hands out the outputs this produced one poll at a
    time.  [SansIoLaws] states what a driver relies on, and the theorems of this
    file are proved against that interface; each protocol file provides the
    instance for its machine. *)
From S2P Require Import Prelude.
From stdpp Require Import base list.

(** ** The trait *)

Class SansIoProtocol (St In Out Er : Type) := {
  handle_input : St → In → St * res Er unit;
  poll_output : St → option Out * St;
  is_idle : St → bool;
}.
#[global] Hint Mode SansIoProtocol ! - - - : typeclass_instances.

(** The documented obligations: [is_idle] says whether an output is pending, and
    polling consumes pending outputs, so it cannot go on for ever. *)
Class SansIoLaws {St In Out Er} (P : SansIoProtocol St In Out Er) := {
  pending : St → nat;
  idle_iff_no_output (s : St) : is_idle s = true ↔ (poll_output s).1 = None;
  poll_none_idle (s s' : St) : poll_output s = (None, s') → is_idle s' = true;
  poll_some_decreases (s : St) (o : Out) (s' : St) : poll_output s = (Some o, s') → pending s' < pending s;
}.

Section driver.
Context {St In Out Er : Type} `{L : SansIoLaws St In Out Er}.

(** [while let Some(output) = machine.poll_output() { .. }] *)
Fixpoint drain (fuel : nat) (s : St) : list Out * St :=
  match fuel with
  | O => ([], s)
  | S fuel =>
      match poll_output s with
      | (None, s') => ([], s')
      | (Some o, s') => let '(os, s'') := drain fuel s' in (o :: os, s'')
      end
  end.

Lemma drain_idle fuel (s : St) : pending s < fuel → is_idle (drain fuel s).2 = true.
Proof.
  revert s. induction fuel as [|fuel IH]; intros s Hf; [lia|]. simpl.
  destruct (poll_output s) as [[o|] s'] eqn:E.
  - apply poll_some_decreases in E. specialize (IH s'). 
    destruct (drain fuel s'). apply IH. lia.
  - by eapply poll_none_idle.
Qed.

(** More fuel than needed changes nothing. *)
Lemma drain_fuel fuel1 fuel2 (s : St) :
  pending s < fuel1 → fuel1 ≤ fuel2 → drain fuel1 s = drain fuel2 s.
Proof.
  revert fuel2 s. induction fuel1 as [|fuel1 IH]; intros [|fuel2] s H1 H2; try lia. simpl.
  destruct (poll_output s) as [[o|] s'] eqn:E; [|done].
  apply poll_some_decreases in E. rewrite (IH fuel2 s'); [done|lia..].
Qed.

(** Draining to the end, with the fuel the machine's measure asks for. *)
Definition drain_all (s : St) : list Out * St := drain (S (pending s)) s.

(** A sequence of inputs, up to the first error: the callers of the protocol machines
    propagate it with [?]. *)
Fixpoint feed_inputs (s : St) (inputs : list In) : St * res Er unit :=
  match inputs with
  | [] => (s, Ok ())
  | i :: inputs =>
      match handle_input s i with
      | (s', Ok _) => feed_inputs s' inputs
      | (s', r) => (s', r)
      end
  end.

Lemma feed_inputs_app (s s' : St) is1 is2 :
  feed_inputs s is1 = (s', Ok ()) → feed_inputs s (is1 ++ is2) = feed_inputs s' is2.
Proof.
  revert s. induction is1 as [|i is1 IH]; cbn [feed_inputs app]; intros s; [by intros [= ->]|].
  destruct (handle_input s i) as [s1 [| |]]; [apply IH|done..].
Qed.

(** Any use of a machine: inputs and polls in any order, going on after errors. *)
Inductive DriverStep : Type := Feed (i : In) | Poll.

Definition driver_step (x : list Out * St) (d : DriverStep) : list Out * St :=
  match d with
  | Feed i => (x.1, (handle_input x.2 i).1)
  | Poll => match poll_output x.2 with
            | (Some o, s') => (x.1 ++ [o], s')
            | (None, s') => (x.1, s')
            end
  end.

(** The outputs obtained so far, oldest first, and the machine. *)
Definition drive (s : St) (steps : list DriverStep) : list Out * St :=
  foldl driver_step ([], s) steps.

(** A property of the outputs and the machine that holds at the start and survives
    every input and every poll holds throughout. *)
Lemma drive_invariant (I : list Out → St → Prop) s steps :
  I [] s →
  (∀ os m i, I os m → I os (handle_input m i).1) →
  (∀ os m, I os m → I (os ++ option_list (poll_output m).1) (poll_output m).2) →
  I (drive s steps).1 (drive s steps).2.
Proof.
  intros H0 Hi Hp. unfold drive. generalize (@nil Out) s H0.
  induction steps as [|d steps IH]; intros os m Hm; [done|].
  cbn [foldl]. destruct d as [i|]; cbn [driver_step].
  - by apply IH, Hi.
  - cbn [snd fst]. specialize (Hp os m Hm). destruct (poll_output m) as [[o|] m'].
    + by apply IH.
    + apply IH. cbn in Hp. by rewrite app_nil_r in Hp.
Qed.

(** The machine is quiescent: nothing pending, nothing to poll. *)
Lemma idle_poll_none (s : St) : is_idle s = true → ∃ s', poll_output s = (None, s').
Proof.
  intros Hi%idle_iff_no_output. destruct (poll_output s) as [[o|] s']; simplify_eq/=; eauto.
Qed.
End driver.

(** ** The blanket implementations

    A reference to a machine and a box holding one are machines.  A reference is a place in
    its owner's state: using the machine through it changes that place and nothing else. *)
Record MutRef (Owner St : Type) : Type := {
  deref : Owner → St;
  assign : Owner → St → Owner;
  deref_assign o s : deref (assign o s) = s
}.
Arguments deref {_ _} _ _.
Arguments assign {_ _} _ _ _.

Section forwarding.
Context {St In Out Er : Type} {M : SansIoProtocol St In Out Er}.

(** [impl SansIoProtocol for &mut P] *)
Definition mut_ref_sansio {Owner} (r : MutRef Owner St) : SansIoProtocol Owner In Out Er := {|
  handle_input o i := let '(s, res) := handle_input (deref r o) i in (assign r o s, res);
  poll_output o := let '(out, s) := poll_output (deref r o) in (out, assign r o s);
  is_idle o := is_idle (deref r o)
|}.

(** [impl SansIoProtocol for Box<P>]: the box owns the machine and nothing else. *)
Definition boxed : MutRef St St := {| deref s := s; assign _ s := s; deref_assign _ _ := eq_refl |}.
Definition box_sansio : SansIoProtocol St In Out Er := mut_ref_sansio boxed.

(** They keep the laws. *)
Lemma mut_ref_laws {Owner} (r : MutRef Owner St) : SansIoLaws M → SansIoLaws (mut_ref_sansio r).
Proof.
  intros L. exists (λ o, pending (deref r o)); intros o; cbn.
  - rewrite idle_iff_no_output. by destruct (poll_output (deref r o)).
  - intros o'. destruct (poll_output (deref r o)) as [[out|] s] eqn:E; intros [= <-].
    rewrite deref_assign. by eapply poll_none_idle.
  - intros out o'. destruct (poll_output (deref r o)) as [[out'|] s] eqn:E; intros [= <- <-].
    rewrite deref_assign. by eapply poll_some_decreases.
Qed.

(** Draining through a reference is draining the machine in its place. *)
Lemma mut_ref_drain {Owner} (r : MutRef Owner St) fuel o :
  (∀ o s s', assign r (assign r o s) s' = assign r o s') → (0 < fuel)%nat →
  @drain _ _ _ _ (mut_ref_sansio r) fuel o =
    let '(os, s) := drain fuel (deref r o) in (os, assign r o s).
Proof.
  intros Hr. revert o. induction fuel as [|fuel IH]; intros o Hf; [lia|]. cbn.
  destruct (poll_output (deref r o)) as [[out|] s]; [|done].
  destruct fuel as [|fuel]; [done|]. rewrite IH by lia. rewrite deref_assign.
  destruct (drain (S fuel) s) as [os s']. by rewrite Hr.
Qed.

End forwarding.
