(* ===== verification/Varint.v ===== *)
(** * Unsigned varints ([crates/identity/src/peer_id.rs])

    [write_uvarint], [read_uvarint] and [uvarint_len] are the LEB128 routines
    every wire format of the workspace is built on.  Their loops run over a [u64]
    seven bits at a time, so ten iterations are enough: the fuel of the two loops
    is 10 and [write_uvarint_rep] shows that no [u64] exhausts it.

    [uvarint_rep] is the reference definition of the encoding (a list of bytes
    denotes a number); the routines are proved against it. *)
From S2P Require Import Prelude.
From Stdlib Require Import ZArith Strings.Byte.
From stdpp Require Import base numbers list strings.

#[local] Open Scope Z_scope.

(** ** Definitions *)

Inductive VarintError : Type :=
  | BufferTooShort
  | Overflow
  | NonCanonical.

#[export] Instance VarintError_eq_dec : EqDecision VarintError.
Proof. solve_decision. Defined.

#[export] Instance VarintError_display : Display VarintError := λ e,
  match e with
  | BufferTooShort => "buffer ended before varint terminated"
  | Overflow => "varint overflows u64"
  | NonCanonical => "varint is not minimally encoded"
  end%string.

Fixpoint uvarint_len_loop (fuel : nat) (value : Z) (len : nat) : nat :=
  match fuel with
  | O => len
  | S fuel =>
      if 0x80 <=? value then uvarint_len_loop fuel (Z.shiftr value 7) (len + 1)
      else len
  end.

Definition uvarint_len (value : Z) : nat := uvarint_len_loop 10 value 1.

Fixpoint write_uvarint_loop (fuel : nat) (value : Z) : list byte :=
  match fuel with
  | O => []
  | S fuel =>
      let byte := Z.land value 0x7f in
      let value := Z.shiftr value 7 in
      let byte := if negb (value =? 0) then Z.lor byte 0x80 else byte in
      Z_byte byte :: (if value =? 0 then [] else write_uvarint_loop fuel value)
  end.

Definition write_uvarint (value : Z) (out : list byte) : list byte :=
  out ++ write_uvarint_loop 10 value.

Fixpoint read_uvarint_loop (input : list byte) (idx : nat) (value shift : Z)
    : res VarintError (Z * nat) :=
  match input with
  | [] => Err BufferTooShort
  | byte :: rest =>
      let byte := byte_Z byte in
      if (10 <=? idx)%nat then Err Overflow
      else if (idx =? 9)%nat && (negb (Z.land byte 0x80 =? 0) || (1 <? byte))
      then Err Overflow
      else
        let low := Z.land byte 0x7f in
        let value := Z.lor value (wrap_u64 (Z.shiftl low shift)) in
        if Z.land byte 0x80 =? 0 then
          let used := (idx + 1)%nat in
          if negb (used =? uvarint_len value)%nat then Err NonCanonical
          else Ok (value, used)
        else read_uvarint_loop rest (idx + 1) value (shift + 7)
  end.

Definition read_uvarint (input : list byte) : res VarintError (Z * nat) :=
  read_uvarint_loop input 0 0 0.

#[global] Arguments uvarint_len : simpl never.
#[global] Arguments write_uvarint : simpl never.
#[global] Arguments read_uvarint : simpl never.

(** ** The encoding, abstractly *)

(** [uvarint_rep l v]: the bytes [l] are a (not necessarily minimal) little-endian
    base-128 representation of [v]; every byte but the last has its high bit set. *)
Inductive uvarint_rep : list byte → Z → Prop :=
  | rep_last b : byte_Z b < 128 → uvarint_rep [b] (byte_Z b)
  | rep_cont b l v :
      128 <= byte_Z b → uvarint_rep l v →
      uvarint_rep (b :: l) (byte_Z b - 128 + 128 * v).

Lemma rep_last_eq b v : byte_Z b = v → v < 128 → uvarint_rep [b] v.
Proof. intros <-. apply rep_last. Qed.

Lemma rep_cont_eq b l v w :
  128 <= byte_Z b → uvarint_rep l v → w = byte_Z b - 128 + 128 * v → uvarint_rep (b :: l) w.
Proof. intros ?? ->. by apply rep_cont. Qed.

Lemma rep_nonneg l v : uvarint_rep l v → 0 <= v.
Proof. induction 1; pose proof (byte_Z_range b); lia. Qed.

Lemma rep_length_pos l v : uvarint_rep l v → (0 < length l)%nat.
Proof. destruct 1; simpl; lia. Qed.

(** Two representations of the same length denote the same number only if they
    are the same bytes. *)
Lemma rep_unique l1 l2 v :
  uvarint_rep l1 v → uvarint_rep l2 v → length l1 = length l2 → l1 = l2.
Proof.
  intros H1. revert l2. induction H1 as [b Hb|b l v Hb H1 IH]; intros l2 H2 Hlen.
  - inversion H2 as [b' Hb' Hl Heq|b' l' v' Hb' H' Hl Heq]; subst; simpl in *.
    + f_equal. by apply byte_Z_inj.
    + apply rep_length_pos in H'. lia.
  - inversion H2 as [b' Hb' Hl Heq|b' l' v' Hb' H' Hl Heq]; subst; simpl in *.
    + apply rep_length_pos in H1. lia.
    + pose proof (byte_Z_range b). pose proof (byte_Z_range b').
      assert (v' = v) as -> by lia. f_equal; [apply byte_Z_inj; lia|].
      apply IH; [done|lia].
Qed.

Lemma rep_bound l v : uvarint_rep l v → v < 2 ^ (7 * Z.of_nat (length l)).
Proof.
  induction 1 as [b Hb|b l v Hb H IH]; [simpl; lia|].
  pose proof (byte_Z_range b). cbn [length].
  replace (7 * Z.of_nat (S (length l))) with (7 + 7 * Z.of_nat (length l)) by lia.
  rewrite Z.pow_add_r by lia. lia.
Qed.

(** ** Writing *)

Lemma write_uvarint_loop_rep fuel v :
  0 <= v < 2 ^ (7 * Z.of_nat fuel) → fuel ≠ O → uvarint_rep (write_uvarint_loop fuel v) v.
Proof.
  revert v. induction fuel as [|fuel IH]; intros v Hv Hf; [done|].
  cbn [write_uvarint_loop]. rewrite shiftr_7, land_127.
  pose proof (Z.mod_pos_bound v 128 eq_refl). pose proof (Z.div_mod v 128 ltac:(done)).
  destruct (Z.eqb_spec (v / 128) 0) as [E|E]; simpl.
  - apply rep_last_eq; [rewrite byte_Z_Z_byte_small|]; lia.
  - rewrite lor_128 by done.
    assert (byte_Z (Z_byte (v mod 128 + 128)) = v mod 128 + 128) as Eb
      by (apply byte_Z_Z_byte_small; lia).
    apply (rep_cont_eq _ _ (v / 128)); [lia| |lia]. replace (7 * Z.of_nat (S fuel)) with (7 + 7 * Z.of_nat fuel) in Hv by lia.
    rewrite Z.pow_add_r in Hv by lia. apply IH.
    + split; [apply Z.div_pos; lia|]. apply Z.div_lt_upper_bound; lia.
    + intros ->. simpl in Hv. rewrite Z.div_small in E; lia.
Qed.

Lemma write_uvarint_rep v : is_u64 v → uvarint_rep (write_uvarint_loop 10 v) v.
Proof.
  intros [H1 H2]. apply write_uvarint_loop_rep; [|done].
  unfold u64_mod in *. split; [done|]. simpl. lia.
Qed.

Lemma uvarint_len_loop_add fuel v n :
  uvarint_len_loop fuel v n = (n + uvarint_len_loop fuel v 0)%nat.
Proof.
  revert v n. induction fuel as [|fuel IH]; intros v n; simpl; [lia|].
  case_match; [|lia]. rewrite IH, (IH _ 1%nat). lia.
Qed.

Lemma uvarint_len_rep l v :
  uvarint_rep l v → (length l <= 10)%nat → (uvarint_len v <= length l)%nat.
Proof.
  unfold uvarint_len. intros Hrep Hlen. rewrite uvarint_len_loop_add.
  enough (∀ fuel, (length l <= fuel)%nat →
    (S (uvarint_len_loop fuel v 0) <= length l)%nat) as H by by apply H.
  clear Hlen. induction Hrep as [b Hb|b l v Hb H IH]; intros [|fuel] Hf; simpl in *; try lia.
  - destruct (Z.leb_spec 128 (byte_Z b)); lia.
  - case_match; [|lia]. rewrite uvarint_len_loop_add, shiftr_7.
    pose proof (byte_Z_range b).
    replace ((byte_Z b - 128 + 128 * v) / 128) with v
      by (apply (Z.div_unique _ _ _ (byte_Z b - 128)); lia).
    specialize (IH fuel). lia.
Qed.

Lemma write_uvarint_loop_length fuel v :
  0 <= v < 2 ^ (7 * Z.of_nat fuel) → fuel ≠ O →
  length (write_uvarint_loop fuel v) = S (uvarint_len_loop fuel v 0).
Proof.
  revert v. induction fuel as [|fuel IH]; intros v Hv Hf; [done|].
  cbn [write_uvarint_loop uvarint_len_loop length]. rewrite shiftr_7.
  destruct (Z.eqb_spec (v / 128) 0) as [E|E], (Z.leb_spec 0x80 v); simpl; try lia.
  - pose proof (Z.div_le_lower_bound v 128 1). lia.
  - replace (7 * Z.of_nat (S fuel)) with (7 + 7 * Z.of_nat fuel) in Hv by lia.
    rewrite Z.pow_add_r in Hv by lia.
    rewrite IH; [rewrite (uvarint_len_loop_add _ _ 1); lia| |].
    + split; [apply Z.div_pos; lia|]. apply Z.div_lt_upper_bound; lia.
    + intros ->. simpl in Hv. lia.
  - rewrite Z.div_small in E; lia.
Qed.

Lemma write_uvarint_length v :
  is_u64 v → length (write_uvarint_loop 10 v) = uvarint_len v.
Proof.
  intros [H1 H2]. unfold uvarint_len. rewrite uvarint_len_loop_add.
  apply write_uvarint_loop_length; [|done]. unfold u64_mod in *. simpl. lia.
Qed.

(** ** Reading *)

(** The body of the read loop on a byte with and without the continuation bit. *)
Lemma read_loop_last b rest idx value shift :
  byte_Z b < 128 → (idx < 10)%nat → (idx = 9%nat → byte_Z b <= 1) →
  read_uvarint_loop (b :: rest) idx value shift =
    let value := Z.lor value (wrap_u64 (Z.shiftl (byte_Z b) shift)) in
    if negb (idx + 1 =? uvarint_len value)%nat then Err NonCanonical
    else Ok (value, (idx + 1)%nat).
Proof.
  intros Hb Hidx H9. cbn [read_uvarint_loop]. rewrite land_128_byte.
  rewrite (proj2 (Z.ltb_lt _ _)) by done. rewrite land_127, Z.mod_small
    by (pose proof (byte_Z_range b); lia).
  rewrite (proj2 (Nat.leb_gt _ _)) by lia. simpl.
  destruct (Nat.eqb_spec idx 9) as [->|]; simpl; [|done].
  rewrite (proj2 (Z.ltb_ge _ _)); [done|]. by apply H9.
Qed.

Lemma read_loop_cont b rest idx value shift :
  128 <= byte_Z b → (idx < 9)%nat →
  read_uvarint_loop (b :: rest) idx value shift =
    read_uvarint_loop rest (idx + 1)
      (Z.lor value (wrap_u64 (Z.shiftl (byte_Z b - 128) shift))) (shift + 7).
Proof.
  intros Hb Hidx. cbn [read_uvarint_loop]. rewrite land_128_byte.
  rewrite (proj2 (Z.ltb_ge _ _)) by done. rewrite land_127.
  replace (byte_Z b mod 128) with (byte_Z b - 128).
  2:{ pose proof (byte_Z_range b). apply (Z.mod_unique _ _ 1); lia. }
  rewrite (proj2 (Nat.leb_gt _ _)) by lia.
  rewrite (proj2 (Nat.eqb_neq _ _)) by lia. done.
Qed.

(** Appending a digit [low] at position [idx] of a partial value. *)
Lemma read_step_value value low idx :
  let shift := 7 * Z.of_nat idx in
  0 <= value < 2 ^ shift → 0 <= low → low * 2 ^ shift < u64_mod →
  Z.lor value (wrap_u64 (Z.shiftl low shift)) = value + low * 2 ^ shift.
Proof.
  intros shift Hv Hl Hb. unfold wrap_u64. rewrite Z.mod_small.
  - apply lor_shiftl_disjoint; lia.
  - rewrite Z.shiftl_mul_pow2 by lia. nia.
Qed.

Lemma pow_shift_succ idx :
  2 ^ (7 * Z.of_nat (idx + 1)) = 128 * 2 ^ (7 * Z.of_nat idx).
Proof.
  replace (7 * Z.of_nat (idx + 1)) with (7 + 7 * Z.of_nat idx) by lia.
  by rewrite Z.pow_add_r by lia.
Qed.

Lemma shift_nine : 2 ^ (7 * Z.of_nat 9) = 2 ^ 63.
Proof. done. Qed.

(** Reading a representation succeeds exactly when it is the minimal one. *)
Lemma read_loop_rep l w rest idx value :
  uvarint_rep l w → (idx + length l <= 10)%nat →
  0 <= value < 2 ^ (7 * Z.of_nat idx) →
  value + w * 2 ^ (7 * Z.of_nat idx) < u64_mod →
  read_uvarint_loop (l ++ rest) idx value (7 * Z.of_nat idx) =
    let v := value + w * 2 ^ (7 * Z.of_nat idx) in
    if negb (idx + length l =? uvarint_len v)%nat then Err NonCanonical
    else Ok (v, (idx + length l)%nat).
Proof.
  intros Hrep. revert idx value. induction Hrep as [b Hb|b l w Hb Hrep IH]; intros idx value Hlen Hval Hw;
    pose proof (byte_Z_range b); cbn [app length] in *.
  - rewrite read_loop_last; [|done|lia|].
    + rewrite read_step_value by lia. done.
    + intros ->. rewrite shift_nine in Hw. unfold u64_mod in Hw. lia.
  - pose proof (rep_nonneg _ _ Hrep). pose proof (rep_length_pos _ _ Hrep).
    assert (0 < 2 ^ (7 * Z.of_nat idx)) by (apply Z.pow_pos_nonneg; lia).
    rewrite read_loop_cont by lia.
    rewrite read_step_value by nia.
    replace (7 * Z.of_nat idx + 7) with (7 * Z.of_nat (idx + 1)) by lia.
    rewrite IH; rewrite ?pow_shift_succ; [|lia|nia|nia].
    cbv zeta.
    replace (value + (byte_Z b - 128) * 2 ^ (7 * Z.of_nat idx) + w * (128 * 2 ^ (7 * Z.of_nat idx)))
      with (value + (byte_Z b - 128 + 128 * w) * 2 ^ (7 * Z.of_nat idx)) by ring.
    replace (idx + 1 + length l)%nat with (idx + S (length l))%nat by lia. done.
Qed.

(** Conversely, a successful read consumed a representation of its result. *)
Lemma read_loop_inv input idx value v used :
  read_uvarint_loop input idx value (7 * Z.of_nat idx) = Ok (v, used) →
  0 <= value < 2 ^ (7 * Z.of_nat idx) → 
  ∃ l rest w, input = l ++ rest ∧ uvarint_rep l w ∧ used = (idx + length l)%nat ∧
    v = value + w * 2 ^ (7 * Z.of_nat idx) ∧ v < u64_mod ∧ used = uvarint_len v ∧
    (used <= 10)%nat.
Proof.
  revert idx value. induction input as [|b input IH]; intros idx value Hr Hval; [done|].
  pose proof (byte_Z_range b) as Hb.
  assert (0 < 2 ^ (7 * Z.of_nat idx)) by (apply Z.pow_pos_nonneg; lia).
  destruct (Nat.le_gt_cases 10 idx) as [Hi|Hi].
  { cbn [read_uvarint_loop] in Hr. by rewrite (proj2 (Nat.leb_le _ _)) in Hr. }
  assert (2 ^ (7 * Z.of_nat idx) <= 2 ^ 63) as Hp by (apply Z.pow_le_mono_r; lia).
  destruct (decide (idx = 9%nat ∧ 1 < byte_Z b)) as [[-> Hb9]|H9].
  { cbn [read_uvarint_loop] in Hr. rewrite (proj2 (Z.ltb_lt 1 _)) in Hr by done.
    by rewrite orb_true_r in Hr. }
  destruct (Z.lt_ge_cases (byte_Z b) 128) as [Hlt|Hge].
  - rewrite read_loop_last in Hr by lia. cbv zeta in Hr.
    assert (byte_Z b * 2 ^ (7 * Z.of_nat idx) + 2 ^ (7 * Z.of_nat idx) <= u64_mod) as Hfit.
    { unfold u64_mod. destruct (decide (idx = 9%nat)) as [->|].
      - rewrite shift_nine. lia.
      - assert (2 ^ (7 * Z.of_nat idx) <= 2 ^ 56) by (apply Z.pow_le_mono_r; lia). nia. }
    rewrite read_step_value in Hr by lia.
    destruct (Nat.eqb_spec (idx + 1) (uvarint_len (value + byte_Z b * 2 ^ (7 * Z.of_nat idx))));
      simpl in Hr; simplify_eq.
    exists [b], input, (byte_Z b). split_and!; try done; [by apply rep_last|lia..].
  - rewrite read_loop_cont in Hr by lia.
    assert (2 ^ (7 * Z.of_nat idx) <= 2 ^ 56) as Hp' by (apply Z.pow_le_mono_r; lia).
    rewrite read_step_value in Hr by (unfold u64_mod; nia).
    replace (7 * Z.of_nat idx + 7) with (7 * Z.of_nat (idx + 1)) in Hr by lia.
    destruct (IH _ _ Hr) as (l & rest & w & -> & Hrep & -> & -> & Hv & Hu & H10);
      [rewrite pow_shift_succ; nia|].
    rewrite pow_shift_succ in *.
    exists (b :: l), rest, (byte_Z b - 128 + 128 * w). cbn [length app].
    split_and!; [done|by apply rep_cont|lia|ring|lia| |lia].
    rewrite Hu. f_equal; ring.
Qed.

(** A read decision does not change when more bytes arrive, unless the buffer was
    too short. *)
Lemma read_loop_app input more idx value shift r :
  read_uvarint_loop input idx value shift = r → r ≠ Err BufferTooShort →
  read_uvarint_loop (input ++ more) idx value shift = r.
Proof.
  revert idx value shift. induction input as [|b input IH]; intros idx value shift <- Hr; [done|].
  cbn [app read_uvarint_loop] in *. repeat case_match; auto.
Qed.

Lemma read_loop_short input idx value shift :
  read_uvarint_loop input idx value shift = Err BufferTooShort →
  (idx < 10)%nat → (length input + idx <= 9)%nat.
Proof.
  revert idx value shift. induction input as [|b input IH]; intros idx value shift Hr Hi;
    cbn [read_uvarint_loop length] in *; [lia|].
  repeat case_match; try done.
  destruct (decide (idx = 9%nat)) as [->|].
  - rewrite Nat.eqb_refl in *. destruct (Z.land _ _ =? 0); simpl in *; done.
  - apply IH in Hr; lia.
Qed.

Lemma read_loop_no_panic input idx value shift :
  read_uvarint_loop input idx value shift ≠ Panic.
Proof.
  revert idx value shift. induction input as [|b input IH]; intros idx value shift; [done|].
  cbn [read_uvarint_loop]. repeat case_match; done || apply IH.
Qed.

(** ** The interface the codecs use *)

Lemma uvarint_len_pos v : (0 < uvarint_len v)%nat.
Proof. unfold uvarint_len. rewrite uvarint_len_loop_add. lia. Qed.

Lemma uvarint_len_le v : is_u64 v → (uvarint_len v <= 10)%nat.
Proof.
  intros Hv. rewrite <- write_uvarint_length by done.
  assert (∀ fuel w, (length (write_uvarint_loop fuel w) <= fuel)%nat) as H; [|apply H].
  induction fuel as [|fuel IH]; intros w; simpl; [done|].
  case_match; simpl; [lia|]. specialize (IH (Z.shiftr w 7)). lia.
Qed.

Lemma write_uvarint_app v out : write_uvarint v out = out ++ write_uvarint v [].
Proof. done. Qed.

Lemma length_write_uvarint v out :
  is_u64 v → length (write_uvarint v out) = (length out + uvarint_len v)%nat.
Proof. intros. unfold write_uvarint. rewrite length_app, write_uvarint_length; done. Qed.

Lemma read_uvarint_no_panic input : read_uvarint input ≠ Panic.
Proof. apply read_loop_no_panic. Qed.

Lemma read_uvarint_app input more r :
  read_uvarint input = r → r ≠ Err BufferTooShort → read_uvarint (input ++ more) = r.
Proof. apply read_loop_app. Qed.

Lemma read_uvarint_write v rest :
  is_u64 v → read_uvarint (write_uvarint v [] ++ rest) = Ok (v, uvarint_len v).
Proof.
  intros Hv. pose proof (uvarint_len_le v Hv) as Hle.
  unfold read_uvarint, write_uvarint. cbn [app].
  rewrite (read_loop_rep _ v rest 0 0); rewrite ?write_uvarint_length by done.
  - cbv zeta. rewrite Z.mul_1_r, Z.add_0_l. simpl. by rewrite Nat.eqb_refl.
  - by apply write_uvarint_rep.
  - lia.
  - simpl. lia.
  - destruct Hv. simpl. lia.
Qed.

(** A successful read: the consumed prefix is the written form of the result. *)
Lemma read_uvarint_inv input v used :
  read_uvarint input = Ok (v, used) →
  is_u64 v ∧ used = uvarint_len v ∧ (used <= length input)%nat ∧
  input = write_uvarint v [] ++ drop used input.
Proof.
  intros Hr. destruct (read_loop_inv _ 0 0 _ _ Hr) as (l & rest & w & -> & Hrep & -> & -> & Hv & Hu & H10);
    [simpl; lia|].
  rewrite Z.mul_1_r, Z.add_0_l in *. rewrite Nat.add_0_l in *.
  assert (is_u64 w) as Hw by (split; [by eapply rep_nonneg|done]).
  assert (write_uvarint w [] = l) as ->.
  { eapply rep_unique; [by apply write_uvarint_rep|done|].
    by rewrite length_write_uvarint. }
  split_and!; [done..|rewrite length_app; lia|by rewrite drop_app_length].
Qed.

Lemma read_uvarint_short_length input :
  read_uvarint input = Err BufferTooShort → (length input < 10)%nat.
Proof. intros Hr. apply read_loop_short in Hr; lia. Qed.

Lemma length_uvarint v : is_u64 v → length (write_uvarint v []) = uvarint_len v.
Proof. apply length_write_uvarint. Qed.

#[global] Arguments write_uvarint : simpl never.
#[global] Arguments read_uvarint : simpl never.
#[global] Arguments uvarint_len : simpl never.

#[export] Hint Resolve read_uvarint_no_panic uvarint_len_pos : rust.

(** ** Properties *)

(** C38. The varint codec is a prefix code: [read_uvarint] accepts a buffer with value
    [v] exactly when the buffer starts with the bytes [write_uvarint] produces for [v],
    and consumes exactly those, so no value has a second accepted encoding; it asks for
    more input only below ten bytes, and any other answer is final. *)
Theorem uvarint_codec input more v used :
  (read_uvarint input = Ok (v, used) ↔
     is_u64 v ∧ used = uvarint_len v ∧ take used input = write_uvarint v []) ∧
  (read_uvarint input = Err BufferTooShort → (length input < 10)%nat) ∧
  (read_uvarint input ≠ Err BufferTooShort → read_uvarint (input ++ more) = read_uvarint input).
Proof.
  split_and!; [split| |].
  - intros Hr. destruct (read_uvarint_inv _ _ _ Hr) as (Hv & -> & Hle & Heq). split_and!; [done..|].
    rewrite Heq. rewrite <- (length_uvarint v Hv). by rewrite take_app_length.
  - intros (Hv & -> & Ht). rewrite <- (take_drop (uvarint_len v) input), Ht. by apply read_uvarint_write.
  - apply read_uvarint_short_length.
  - intros Hr. by apply read_uvarint_app.
Qed.

Lemma uvarint_codec_witness :
  read_uvarint [xac; x02; x09] = Ok (300, 2%nat) ∧ read_uvarint ([x05] ++ [xff]) = read_uvarint [x05].
Proof.
  split.
  - apply (proj1 (uvarint_codec [xac; x02; x09] [] 300 2)). split_and!; [u64_tac|reflexivity|reflexivity].
  - apply (proj2 (proj2 (uvarint_codec [x05] [xff] 0 0))). done.
Defined.
