(* ===== verification/Digits.v ===== *)
(** * Positional numerals

    Arithmetic shared by the base58 and base32 codecs: the value of a list of
    digits, uniqueness of representations, and two generic algorithms the codecs are
    instances of: multiply-and-add on little-endian digits ([mul_add], [flush]) and
    regrouping a stream of [a]-bit groups into [b]-bit groups ([regroup]). *)
From S2P Require Import Prelude.
From Stdlib Require Import ZArith.
From stdpp Require Import base numbers list.

#[local] Open Scope Z_scope.

(** Little-endian value. *)
Fixpoint le_value (B : Z) (ds : list Z) : Z :=
  match ds with [] => 0 | d :: ds => d + B * le_value B ds end.

Definition digits_ok (B : Z) (ds : list Z) : Prop := Forall (λ d, 0 <= d < B) ds.

(** No superfluous most significant digit. *)
Definition canonical (B : Z) (ds : list Z) : Prop :=
  ds = [] ∨ B ^ (Z.of_nat (length ds) - 1) <= le_value B ds.

Section digits.
Context (B : Z) (HB : 1 < B).

Lemma le_value_app ds1 ds2 :
  le_value B (ds1 ++ ds2) = le_value B ds1 + B ^ Z.of_nat (length ds1) * le_value B ds2.
Proof using.
  induction ds1 as [|d ds1 IH]; [simpl; lia|]. cbn [app le_value length].
  rewrite IH, Nat2Z.inj_succ, Z.pow_succ_r by lia. lia.
Qed.

Lemma le_value_bound ds : digits_ok B ds → 0 <= le_value B ds < B ^ Z.of_nat (length ds).
Proof using HB.
  induction 1 as [|d ds Hd _ IH]; [simpl; lia|]. cbn [le_value length].
  rewrite Nat2Z.inj_succ, Z.pow_succ_r by lia. nia.
Qed.

Lemma le_value_unique ds1 ds2 :
  digits_ok B ds1 → digits_ok B ds2 → length ds1 = length ds2 →
  le_value B ds1 = le_value B ds2 → ds1 = ds2.
Proof using HB.
  intros H1. revert ds2. induction H1 as [|d1 ds1 Hd1 _ IH]; intros [|d2 ds2] H2 Hl Hv;
    simpl in Hl; try done.
  apply Forall_cons in H2 as [Hd2 H2]. cbn [le_value] in Hv.
  destruct (Z.div_mod_unique B (le_value B ds1) (le_value B ds2) d1 d2) as [Hv' ->]; [lia..|].
  f_equal. apply IH; [done|lia|done].
Qed.

Lemma canonical_length ds1 ds2 :
  digits_ok B ds1 → canonical B ds1 → canonical B ds2 → digits_ok B ds2 →
  le_value B ds1 = le_value B ds2 → (length ds1 <= length ds2)%nat.
Proof using HB.
  intros H1 C1 C2 H2 Hv. pose proof (le_value_bound ds2 H2) as [_ Hb2].
  destruct C1 as [->|C1]; [simpl; lia|].
  destruct (decide (length ds1 <= length ds2)%nat) as [|Hn]; [done|].
  assert (B ^ Z.of_nat (length ds2) <= B ^ (Z.of_nat (length ds1) - 1)); [|lia].
  apply Z.pow_le_mono_r; lia.
Qed.

Lemma canonical_unique ds1 ds2 :
  digits_ok B ds1 → digits_ok B ds2 → canonical B ds1 → canonical B ds2 →
  le_value B ds1 = le_value B ds2 → ds1 = ds2.
Proof using HB.
  intros H1 H2 C1 C2 Hv. apply le_value_unique; [done..| |done].
  apply Nat.le_antisymm; eapply canonical_length; eauto.
Qed.

Lemma canonical_last ds d : 0 < d → digits_ok B ds → canonical B (ds ++ [d]).
Proof using HB.
  intros Hd Hds. right. rewrite length_app. cbn [length].
  replace (Z.of_nat (length ds + 1) - 1) with (Z.of_nat (length ds)) by lia.
  rewrite le_value_app. cbn [le_value]. pose proof (le_value_bound ds Hds).
  assert (0 < B ^ Z.of_nat (length ds)) by (apply Z.pow_pos_nonneg; lia). nia.
Qed.

(** The most significant digit of a canonical representation is not zero. *)
Lemma canonical_head ds d :
  digits_ok B (ds ++ [d]) → canonical B (ds ++ [d]) → d ≠ 0.
Proof using HB.
  intros [Hds _]%Forall_app [C|C]; [by destruct ds|]. intros ->.
  rewrite length_app, le_value_app in C. cbn [length le_value] in C.
  replace (Z.of_nat (length ds + 1) - 1) with (Z.of_nat (length ds)) in C by lia.
  pose proof (le_value_bound ds Hds). nia.
Qed.

(** ** Multiply and add *)

Fixpoint mul_add (m : Z) (ds : list Z) (carry : Z) : list Z * Z :=
  match ds with
  | [] => ([], carry)
  | d :: ds =>
      let value := d * m + carry in
      let '(ds, carry) := mul_add m ds (value / B) in (value mod B :: ds, carry)
  end.

Fixpoint flush (fuel : nat) (ds : list Z) (carry : Z) : list Z :=
  match fuel with
  | O => ds
  | S fuel => if 0 <? carry then flush fuel (ds ++ [carry mod B]) (carry / B) else ds
  end.

Lemma mul_add_spec m ds carry ds' c :
  0 <= m → digits_ok B ds → 0 <= carry → mul_add m ds carry = (ds', c) →
  digits_ok B ds' ∧ length ds' = length ds ∧ 0 <= c ∧
  le_value B ds' + B ^ Z.of_nat (length ds) * c = m * le_value B ds + carry ∧
  (carry < m → c < m).
Proof using HB.
  intros Hm Hds. revert carry ds' c. induction Hds as [|d ds Hd _ IH]; intros carry ds' c Hc Heq.
  - simpl in Heq. simplify_eq. split_and!; simpl; [constructor|done|lia..].
  - cbn [mul_add] in Heq. destruct (mul_add m ds ((d * m + carry) / B)) as [ds1 c1] eqn:E.
    simplify_eq. pose proof (Z.mod_pos_bound (d * m + carry) B ltac:(lia)).
    pose proof (Z.div_mod (d * m + carry) B ltac:(lia)) as Hdm.
    assert (0 <= (d * m + carry) / B) as Hq by (apply Z.div_pos; nia).
    destruct (IH _ _ _ Hq E) as (H1 & H2 & H3 & H4 & H5). split_and!.
    + by constructor.
    + simpl. lia.
    + done.
    + cbn [le_value length]. rewrite Nat2Z.inj_succ, Z.pow_succ_r by lia. nia.
    + intros Hlt. apply H5. apply Z.div_lt_upper_bound; nia.
Qed.

Lemma flush_spec fuel ds c :
  digits_ok B ds → 0 <= c < B ^ Z.of_nat fuel →
  let ds' := flush fuel ds c in
  digits_ok B ds' ∧ le_value B ds' = le_value B ds + B ^ Z.of_nat (length ds) * c ∧
  (0 < c → canonical B ds' ∧ ds' ≠ []) ∧ (c = 0 → ds' = ds).
Proof using HB.
  cbv zeta. revert ds c. induction fuel as [|fuel IH]; intros ds c Hds Hc; cbn [flush].
  { simpl in Hc. assert (c = 0) as -> by lia. split_and!; [done|lia|lia|done]. }
  destruct (Z.ltb_spec 0 c) as [Hp|]; [|assert (c = 0) as -> by lia; split_and!; [done|lia|lia|done]].
  pose proof (Z.mod_pos_bound c B ltac:(lia)). pose proof (Z.div_mod c B ltac:(lia)) as Hdm.
  assert (0 <= c / B < B ^ Z.of_nat fuel) as Hq.
  { rewrite Nat2Z.inj_succ, Z.pow_succ_r in Hc by lia.
    split; [apply Z.div_pos; lia|apply Z.div_lt_upper_bound; lia]. }
  assert (digits_ok B (ds ++ [c mod B])) as Hds' by (apply Forall_app; split; [done|by apply Forall_singleton]).
  destruct (IH _ _ Hds' Hq) as (H1 & H2 & H3 & H4). split_and!.
  - done.
  - rewrite H2, le_value_app, length_app. cbn [le_value length].
    rewrite Nat2Z.inj_add, Z.pow_add_r by lia. simpl (Z.of_nat 1). nia.
  - intros _. destruct (decide (c / B = 0)) as [E|E]; [|apply H3; lia].
    rewrite H4 by done. split; [apply canonical_last; [lia|done]|by destruct ds].
  - lia.
Qed.

(** One digit of input: [ds * m + v] in base [B], kept canonical. *)
Lemma push_spec m ds v ds1 c fuel :
  0 < m → digits_ok B ds → canonical B ds → 0 <= v < m → m <= B ^ Z.of_nat fuel →
  mul_add m ds v = (ds1, c) →
  let ds' := flush fuel ds1 c in
  digits_ok B ds' ∧ le_value B ds' = m * le_value B ds + v ∧
  (0 < v ∨ ds ≠ [] → canonical B ds' ∧ ds' ≠ []).
Proof using HB.
  intros Hm Hds Hcan Hv Hf E. cbv zeta.
  destruct (mul_add_spec m ds v ds1 c ltac:(lia) Hds ltac:(lia) E) as (H1 & H2 & H3 & H4 & H5).
  destruct (flush_spec fuel ds1 c H1 ltac:(lia)) as (F1 & F2 & F3 & F4).
  split_and!; [done|rewrite H2 in F2; lia|]. intros Hne.
  destruct (decide (c = 0)) as [->|Hc]; [|apply F3; lia]. rewrite F4 by done.
  destruct ds as [|d ds0].
  { simpl in E. simplify_eq. simpl in H4. destruct Hne; [lia|done]. }
  split; [|by destruct ds1]. destruct Hcan as [?|Hcan]; [done|]. right. rewrite H2.
  pose proof (le_value_bound _ Hds). nia.
Qed.

End digits.

(** ** Regrouping bits *)

Section regroup.
Context (a b W : Z) (Ha : 0 < a) (Hb : 0 < b) (HW : a + b <= W).

(** [while bits >= b { bits -= b; out.push((buffer >> bits) & (2^b - 1)) }] *)
Fixpoint drain_bits (fuel : nat) (buffer bits : Z) (out : list Z) : Z * list Z :=
  match fuel with
  | O => (bits, out)
  | S fuel =>
      if b <=? bits then
        drain_bits fuel buffer (bits - b) (out ++ [Z.shiftr buffer (bits - b) mod 2 ^ b])
      else (bits, out)
  end.

Fixpoint regroup (fuel : nat) (gs : list Z) (buffer bits : Z) (out : list Z)
    : Z * Z * list Z :=
  match gs with
  | [] => (buffer, bits, out)
  | g :: gs =>
      let buffer := (buffer * 2 ^ a + g) mod 2 ^ W in
      let '(bits, out) := drain_bits fuel buffer (bits + a) out in
      regroup fuel gs buffer bits out
  end.

(** Big-endian value. *)
Definition be_value (B : Z) (ds : list Z) : Z := le_value B (rev ds).

Lemma be_value_snoc B ds d : be_value B (ds ++ [d]) = be_value B ds * B + d.
Proof using. unfold be_value. rewrite rev_app_distr. simpl. lia. Qed.

Lemma be_value_unique B ds1 ds2 :
  1 < B → digits_ok B ds1 → digits_ok B ds2 → length ds1 = length ds2 →
  be_value B ds1 = be_value B ds2 → ds1 = ds2.
Proof using.
  intros HB H1 H2 Hl Hv. rewrite <- (rev_involutive ds1), <- (rev_involutive ds2).
  f_equal. apply (le_value_unique B HB).
  - by apply Forall_rev.
  - by apply Forall_rev.
  - by rewrite !length_rev.
  - done.
Qed.

Definition grouped (n : Z) (len : nat) (buffer bits : Z) (out : list Z) : Prop :=
  n = be_value (2 ^ b) out * 2 ^ bits + buffer mod 2 ^ bits ∧
  a * Z.of_nat len = b * Z.of_nat (length out) + bits ∧ 0 <= bits ∧ digits_ok (2 ^ b) out.

Lemma shiftr_split buffer bits :
  b <= bits →
  buffer mod 2 ^ bits =
    (Z.shiftr buffer (bits - b) mod 2 ^ b) * 2 ^ (bits - b) + buffer mod 2 ^ (bits - b).
Proof using Hb.
  intros Hle. rewrite Z.shiftr_div_pow2 by lia.
  replace bits with ((bits - b) + b) at 1 by lia. rewrite Z.pow_add_r by lia.
  rewrite Z.rem_mul_r by (apply Z.pow_nonzero || apply Z.pow_pos_nonneg; lia). lia.
Qed.

Lemma drain_bits_spec fuel n len buffer bits out bits' out' :
  grouped n len buffer bits out → bits < b * (Z.of_nat fuel + 1) →
  drain_bits fuel buffer bits out = (bits', out') → 
  grouped n len buffer bits' out' ∧ bits' < b.
Proof using Hb.
  revert bits out. induction fuel as [|fuel IH]; intros bits out HG Hf E; cbn [drain_bits] in E.
  { simplify_eq. split; [done|lia]. }
  destruct (Z.leb_spec b bits) as [Hle|]; [|simplify_eq; split; [done|lia]].
  refine (IH _ _ _ _ E); [|lia]. destruct HG as (-> & H2 & H3 & H4). split_and!.
  - rewrite be_value_snoc, (shiftr_split buffer bits) by done.
    replace (2 ^ bits) with (2 ^ b * 2 ^ (bits - b)); [lia|].
    rewrite <- Z.pow_add_r by lia. f_equal. lia.
  - rewrite length_app. cbn [length]. lia.
  - lia.
  - apply Forall_app. split; [done|]. repeat constructor; apply Z.mod_pos_bound, Z.pow_pos_nonneg; lia.
Qed.

Lemma regroup_spec fuel gs buffer bits out n len buffer' bits' out' :
  grouped n len buffer bits out → bits < b → digits_ok (2 ^ a) gs →
  a + b <= b * (Z.of_nat fuel + 1) →
  regroup fuel gs buffer bits out = (buffer', bits', out') →
  grouped (n * (2 ^ a) ^ Z.of_nat (length gs) + be_value (2 ^ a) gs) (len + length gs)
    buffer' bits' out' ∧ bits' < b.
Proof using Ha Hb HW.
  intros HG Hlt Hgs Hf. revert n len buffer bits out HG Hlt.
  induction Hgs as [|g gs Hg Hgs IH]; intros n len buffer bits out HG Hlt E; cbn [regroup] in E.
  - simplify_eq. unfold be_value. simpl. rewrite Z.mul_1_r, Z.add_0_r, Nat.add_0_r. done.
  - set (buf := (buffer * 2 ^ a + g) mod 2 ^ W) in *.
    destruct (drain_bits fuel buf (bits + a) out) as [bits1 out1] eqn:Ed.
    assert (grouped (n * 2 ^ a + g) (len + 1) buf (bits + a) out) as HG1.
    { destruct HG as (-> & H2 & H3 & H4). split_and!; [|lia|lia|done]. subst buf.
      assert ((buffer * 2 ^ a + g) mod 2 ^ W mod 2 ^ (bits + a) = buffer mod 2 ^ bits * 2 ^ a + g) as ->.
      { replace W with ((bits + a) + (W - (bits + a))) by lia.
        rewrite Z.pow_add_r by lia. rewrite Z.mod_mod_divide by apply Z.divide_factor_l.
        rewrite (Z.add_comm bits a), Z.pow_add_r by lia.
        rewrite Z.rem_mul_r by (apply Z.pow_nonzero || apply Z.pow_pos_nonneg; lia).
        rewrite (Z.add_comm (buffer * 2 ^ a)), Z.mod_add, Z.div_add by (apply Z.pow_nonzero; lia).
        rewrite (Z.mod_small g), (Z.div_small g), Z.add_0_l by done. lia. }
      rewrite Z.pow_add_r by lia. lia. }
    assert (bits + a < b * (Z.of_nat fuel + 1)) as Hf' by lia.
    destruct (drain_bits_spec _ _ _ _ _ _ _ _ HG1 Hf' Ed) as [HG2 Hb2].
    destruct (IH _ _ _ _ _ HG2 Hb2 E) as [HG3 Hb3]. split; [|done].
    replace (len + length (g :: gs))%nat with (len + 1 + length gs)%nat by (simpl; lia).
    replace (n * (2 ^ a) ^ Z.of_nat (length (g :: gs)) + be_value (2 ^ a) (g :: gs))
      with ((n * 2 ^ a + g) * (2 ^ a) ^ Z.of_nat (length gs) + be_value (2 ^ a) gs); [done|].
    cbn [length]. rewrite Nat2Z.inj_succ, (Z.pow_succ_r (2 ^ a)) by lia.
    unfold be_value. simpl rev. rewrite le_value_app, length_rev. simpl le_value. lia.
Qed.

End regroup.
