(* ===== verification/Multibase.v ===== *)
(** * Text encodings of peer ids ([crates/identity/src/peer_id.rs])

    Base58btc (big-number conversion with leading zeros kept as [1]) and unpadded
    lower-case base32 (a bit buffer).  Digits are integers; the [u32], [u16] and
    [u8] intermediates never overflow because the carries stay below the
    multipliers ([Digits.mul_add_spec]) except the base32 buffers, whose shifts drop
    the high bits and are written modulo [2^16] and [2^32]. *)
From S2P Require Import Prelude Utf8 Varint Digits.
From Stdlib Require Import ZArith Strings.Byte Strings.String.
From stdpp Require Import base numbers list strings.

#[local] Open Scope Z_scope.

Inductive PeerIdError : Type :=
  | EmptyInput
  | UnsupportedMultibase (prefix : Z)
  | UnsupportedCidVersion (version : Z)
  | UnsupportedMulticodec (codec : Z)
  | InvalidSha256DigestLength (actual : nat)
  | InvalidBase58Character (character : Z) (index : nat)
  | InvalidBase32Character (character : Z) (index : nat)
  | InvalidCidVersionVarint (e : VarintError)
  | InvalidCidMulticodecVarint (e : VarintError)
  | InvalidMultihash (reason : string).

(** A [char] as text, and [{:x}]. *)
Definition char_text (c : Z) : string :=
  from_bytes (if c <? 0x80 then [Z_byte c]
    else if c <? 0x800 then [Z_byte (0xC0 + c / 64); Z_byte (0x80 + c mod 64)]
    else if c <? 0x10000 then
      [Z_byte (0xE0 + c / 4096); Z_byte (0x80 + c / 64 mod 64); Z_byte (0x80 + c mod 64)]
    else [Z_byte (0xF0 + c / 262144); Z_byte (0x80 + c / 4096 mod 64);
          Z_byte (0x80 + c / 64 mod 64); Z_byte (0x80 + c mod 64)]).

Fixpoint hex_digits (fuel : nat) (v : Z) (acc : list byte) : list byte :=
  match fuel with
  | O => acc
  | S fuel =>
      let d := nth (Z.to_nat (v mod 16)) (as_bytes "0123456789abcdef") x00 in
      if v <? 16 then d :: acc else hex_digits fuel (v / 16) (d :: acc)
  end.
Definition hex_text (v : Z) : string := from_bytes (hex_digits 16 v []).

#[export] Instance PeerIdError_display : Display PeerIdError := λ e,
  match e with
  | EmptyInput => "peer id input is empty"
  | UnsupportedMultibase c => "unsupported multibase prefix '" ++ char_text c
      ++ "' (supported: b/B for base32, z for base58btc)"
  | UnsupportedCidVersion v => "unsupported cid version " ++ to_string v ++ "; expected v1"
  | UnsupportedMulticodec v =>
      "unsupported multicodec 0x" ++ hex_text v ++ "; expected libp2p-key (0x72)"
  | InvalidSha256DigestLength n =>
      "invalid sha2-256 digest length: expected 32, got " ++ to_string n
  | InvalidBase58Character c i =>
      "invalid base58btc character '" ++ char_text c ++ "' at index " ++ to_string i
  | InvalidBase32Character c i =>
      "invalid base32 character '" ++ char_text c ++ "' at index " ++ to_string i
  | InvalidCidVersionVarint e => "invalid cid version varint: " ++ to_string e
  | InvalidCidMulticodecVarint e => "invalid cid multicodec varint: " ++ to_string e
  | InvalidMultihash r => "invalid multihash: " ++ r
  end%string.

Definition BASE58_ALPHABET : list byte :=
  as_bytes "123456789ABCDEFGHJKLMNPQRSTUVWXYZabcdefghijkmnopqrstuvwxyz".
Definition BASE32_ALPHABET_LOWER : list byte := as_bytes "abcdefghijklmnopqrstuvwxyz234567".

(** [iter().take_while(p).count()]. *)
Fixpoint count_while {A} (p : A → bool) (l : list A) : nat :=
  match l with [] => 0 | x :: l => if p x then S (count_while p l) else 0 end.

(** ** Base58 *)

(** [for digit in &mut digits { .. }] *)
Fixpoint base58_digits (digits : list Z) (carry : Z) : list Z * Z :=
  match digits with
  | [] => ([], carry)
  | digit :: digits =>
      let value := digit * 256 + carry in
      let '(digits, carry) := base58_digits digits (value / 58) in
      (value mod 58 :: digits, carry)
  end.

(** [while carry > 0 { digits.push((carry % 58) as u8); carry /= 58; }]; a [u32] has at
    most 32 digits. *)
Fixpoint base58_carry (fuel : nat) (digits : list Z) (carry : Z) : list Z :=
  match fuel with
  | O => digits
  | S fuel =>
      if 0 <? carry then base58_carry fuel (digits ++ [carry mod 58]) (carry / 58) else digits
  end.

(** The body of the loop over the input bytes. *)
Definition base58_byte (digits : list Z) (byte : byte) : list Z :=
  let '(digits, carry) := base58_digits digits (byte_Z byte) in
  let digits := base58_carry 32 digits carry in
  if decide (digits = []) then [0] else digits.

(** [BASE58_ALPHABET[digit as usize]]; the digits are below 58
    ([encode_base58_digits]). *)
Definition base58_char (digit : Z) : byte := nth (Z.to_nat digit) BASE58_ALPHABET x00.

Definition encode_base58 (input : list byte) : string :=
  if decide (input = []) then EmptyString
  else
    let leading_zeros := count_while (λ b, bool_decide (b = x00)) input in
    let digits := fold_left base58_byte (drop leading_zeros input) [] in
    let out := repeat x31 leading_zeros in
    if decide (digits = []) then from_bytes out
    else from_bytes (out ++ (base58_char <$> rev digits)).

(** [BASE58_ALPHABET.iter().position(|v| *v == c as u8)]: the cast keeps the low eight
    bits of the character. *)
Definition base58_value (c : Z) : option Z :=
  (λ p, Z.of_nat p.1) <$> list_find (λ v, v = Z_byte c) BASE58_ALPHABET.

Fixpoint base256_bytes (bytes : list Z) (carry : Z) : list Z * Z :=
  match bytes with
  | [] => ([], carry)
  | byte :: bytes =>
      let acc := byte * 58 + carry in
      let '(bytes, carry) := base256_bytes bytes (Z.shiftr acc 8) in
      (Z.land acc 0xff :: bytes, carry)
  end.

Fixpoint base256_carry (fuel : nat) (bytes : list Z) (carry : Z) : list Z :=
  match fuel with
  | O => bytes
  | S fuel =>
      if 0 <? carry then base256_carry fuel (bytes ++ [Z.land carry 0xff]) (Z.shiftr carry 8)
      else bytes
  end.

Definition base256_digit (bytes : list Z) (value : Z) : list Z :=
  let bytes := if decide (bytes = []) then [0] else bytes in
  let '(bytes, carry) := base256_bytes bytes value in
  base256_carry 32 bytes carry.

Fixpoint decode_base58_loop (chs : list Z) (index : nat) (bytes : list Z)
    : res PeerIdError (list Z) :=
  match chs with
  | [] => Ok bytes
  | ch :: chs =>
      value ← ok_or (base58_value ch) (InvalidBase58Character ch index);
      decode_base58_loop chs (S index) (base256_digit bytes value)
  end.

Definition decode_base58 (input : string) : res PeerIdError (list byte) :=
  if decide (input = EmptyString) then Err EmptyInput
  else
    let leading_zeros := count_while (λ c, c =? 0x31) (chars input) in
    bytes ← decode_base58_loop (drop leading_zeros (chars input)) leading_zeros [];
    Ok (repeat x00 leading_zeros ++ (Z_byte <$> rev bytes)).

(** ** Base32 *)

(** [while bits >= 5 { bits -= 5; .. }]; [bits] is at most 12. *)
Fixpoint base32_drain (fuel : nat) (buffer bits : Z) (out : list Z) : Z * list Z :=
  match fuel with
  | O => (bits, out)
  | S fuel =>
      if 5 <=? bits then
        let bits := bits - 5 in
        let idx := Z.land (Z.shiftr buffer bits) 0x1f in
        base32_drain fuel buffer bits (out ++ [idx])
      else (bits, out)
  end.

Fixpoint base32_loop (input : list byte) (buffer bits : Z) (out : list Z) : Z * Z * list Z :=
  match input with
  | [] => (buffer, bits, out)
  | byte :: input =>
      let buffer := Z.lor (Z.shiftl buffer 8 mod 2 ^ 16) (byte_Z byte) in
      let bits := bits + 8 in
      let '(bits, out) := base32_drain 3 buffer bits out in
      base32_loop input buffer bits out
  end.

(** [BASE32_ALPHABET_LOWER[idx] as char], [idx] below 32. *)
Definition base32_char (idx : Z) : byte := nth (Z.to_nat idx) BASE32_ALPHABET_LOWER x00.

Definition encode_base32_nopad_lower (input : list byte) : string :=
  if decide (input = []) then EmptyString
  else
    let '(buffer, bits, out) := base32_loop input 0 0 [] in
    let out := if 0 <? bits
               then out ++ [Z.land (Z.shiftl buffer (5 - bits) mod 2 ^ 16) 0x1f] else out in
    from_bytes (base32_char <$> out).

(** [c.to_ascii_lowercase()]. *)
Definition to_ascii_lowercase (c : Z) : Z := if (0x41 <=? c) && (c <=? 0x5a) then c + 32 else c.

Definition base32_value (c : Z) : option Z :=
  let lower := to_ascii_lowercase c in
  if (0x61 <=? lower) && (lower <=? 0x7a) then Some (lower - 0x61)
  else if (0x32 <=? lower) && (lower <=? 0x37) then Some (26 + (lower - 0x32))
  else None.

Fixpoint base32_undrain (fuel : nat) (buffer bits : Z) (out : list Z) : Z * list Z :=
  match fuel with
  | O => (bits, out)
  | S fuel =>
      if 8 <=? bits then
        let bits := bits - 8 in
        let byte := Z.land (Z.shiftr buffer bits) 0xff in
        base32_undrain fuel buffer bits (out ++ [byte])
      else (bits, out)
  end.

Fixpoint decode_base32_loop (chs : list Z) (index : nat) (buffer bits : Z) (out : list Z)
    : res PeerIdError (list Z) :=
  match chs with
  | [] => Ok out
  | ch :: chs =>
      value ← ok_or (base32_value ch) (InvalidBase32Character ch index);
      let buffer := Z.lor (Z.shiftl buffer 5 mod 2 ^ 32) value in
      let bits := bits + 5 in
      let '(bits, out) := base32_undrain 2 buffer bits out in
      decode_base32_loop chs (S index) buffer bits out
  end.

Definition decode_base32_nopad (input : string) : res PeerIdError (list byte) :=
  if decide (input = EmptyString) then Ok []
  else
    out ← decode_base32_loop (chars input) 0%nat 0 0 [];
    Ok (map Z_byte out).

(** ** The loops as instances of the generic algorithms *)

Lemma base58_digits_eq ds c : base58_digits ds c = mul_add 58 256 ds c.
Proof.
  revert c. induction ds as [|d ds IH]; intros c; [done|]. cbn [base58_digits mul_add].
  by rewrite IH.
Qed.

Lemma base58_carry_eq fuel ds c : base58_carry fuel ds c = flush 58 fuel ds c.
Proof.
  revert ds c. induction fuel as [|fuel IH]; intros ds c; [done|].
  cbn [base58_carry flush]. by rewrite IH.
Qed.

Lemma land_255 v : Z.land v 255 = v mod 256.
Proof. change 255 with (Z.ones 8). by rewrite Z.land_ones. Qed.

Lemma base256_bytes_eq ds c : base256_bytes ds c = mul_add 256 58 ds c.
Proof.
  revert c. induction ds as [|d ds IH]; intros c; [done|]. cbn [base256_bytes mul_add].
  by rewrite IH, land_255, Z.shiftr_div_pow2.
Qed.

Lemma base256_carry_eq fuel ds c : base256_carry fuel ds c = flush 256 fuel ds c.
Proof.
  revert ds c. induction fuel as [|fuel IH]; intros ds c; [done|].
  cbn [base256_carry flush]. by rewrite IH, land_255, Z.shiftr_div_pow2.
Qed.

(** One input byte of the encoder, one character of the decoder. *)
Lemma base58_byte_spec ds b :
  digits_ok 58 ds → canonical 58 ds → b ≠ x00 ∨ ds ≠ [] →
  digits_ok 58 (base58_byte ds b) ∧ canonical 58 (base58_byte ds b) ∧ base58_byte ds b ≠ [] ∧
  le_value 58 (base58_byte ds b) = 256 * le_value 58 ds + byte_Z b.
Proof.
  intros Hds Hc Hne. unfold base58_byte. rewrite base58_digits_eq.
  destruct (mul_add 58 256 ds (byte_Z b)) as [ds1 c] eqn:E. rewrite base58_carry_eq.
  pose proof (byte_Z_range b) as Hb.
  destruct (push_spec 58 ltac:(lia) 256 ds (byte_Z b) ds1 c 32) as (H1 & H2 & H3);
    [lia|done..|lia|done|].
  destruct H3 as [H3 H4].
  { destruct Hne as [Hne|Hne]; [left|by right]. destruct (decide (byte_Z b = 0)) as [E0|]; [|lia].
    destruct Hne. by apply byte_Z_inj. }
  rewrite decide_False by done. done.
Qed.

Lemma base256_digit_spec ds v :
  digits_ok 256 ds → canonical 256 ds → 0 <= v < 58 → 0 < v ∨ ds ≠ [] →
  digits_ok 256 (base256_digit ds v) ∧ canonical 256 (base256_digit ds v) ∧
  base256_digit ds v ≠ [] ∧ le_value 256 (base256_digit ds v) = 58 * le_value 256 ds + v.
Proof.
  intros Hds Hc Hv Hne. unfold base256_digit. case_decide as Hnil.
  - subst ds. destruct Hne as [Hv0|]; [|done].
    assert (base256_bytes [0] v = ([v], 0)) as ->.
    { rewrite base256_bytes_eq. cbn [mul_add]. rewrite Z.mul_0_l, Z.add_0_l.
      by rewrite Z.mod_small, Z.div_small by lia. }
    change (base256_carry 32 [v] 0) with [v].
    split_and!; [by apply Forall_singleton; lia| |done|cbn [le_value]; lia]. right. simpl. lia.
  - rewrite base256_bytes_eq. destruct (mul_add 256 58 ds v) as [ds1 c] eqn:E.
    rewrite base256_carry_eq.
    destruct (push_spec 256 ltac:(lia) 58 ds v ds1 c 32) as (H1 & H2 & H3); [lia|done..|].
    destruct H3 as [H3 H4]; [by right|]. done.
Qed.

(** ** Base58 round trip *)

Lemma base58_char_spec d :
  0 <= d < 58 →
  base58_value (byte_Z (base58_char d)) = Some d ∧ byte_Z (base58_char d) < 128 ∧
  (d ≠ 0 → byte_Z (base58_char d) ≠ 0x31).
Proof.
  intros Hd. assert (Forall (λ d, base58_value (byte_Z (base58_char d)) = Some d ∧
    byte_Z (base58_char d) < 128 ∧ (d = 0 ∨ byte_Z (base58_char d) ≠ 0x31)) (seqZ 0 58)) as HF.
  { apply (bool_decide_unpack _). vm_compute. done. }
  rewrite Forall_forall in HF. destruct (HF d) as (H1 & H2 & H3); [by apply elem_of_seqZ|].
  split_and!; [done..|]. intros. by destruct H3.
Qed.

(** The encoder's loop computes the bytes' value in base 58. *)
Lemma fold_base58_byte bs pre ds :
  digits_ok 58 ds → canonical 58 ds → ds ≠ [] → le_value 58 ds = be_value 256 pre →
  let r := fold_left base58_byte bs ds in
  digits_ok 58 r ∧ canonical 58 r ∧ r ≠ [] ∧ le_value 58 r = be_value 256 (pre ++ (byte_Z <$> bs)).
Proof.
  cbv zeta. revert pre ds. induction bs as [|b bs IH]; intros pre ds Hd Hc Hne Hv.
  { cbn [fmap list_fmap fold_left]. by rewrite app_nil_r. }
  cbn [fmap list_fmap fold_left].
  destruct (base58_byte_spec ds b Hd Hc (or_intror Hne)) as (H1 & H2 & H3 & H4).
  destruct (IH (pre ++ [byte_Z b]) (base58_byte ds b)) as (I1 & I2 & I3 & I4); [done..| |].
  { rewrite H4, be_value_snoc, Hv. lia. }
  by rewrite <- app_assoc in I4.
Qed.

Lemma encode_base58_digits b bs :
  b ≠ x00 →
  let r := fold_left base58_byte (b :: bs) [] in
  digits_ok 58 r ∧ canonical 58 r ∧ r ≠ [] ∧ le_value 58 r = be_value 256 (byte_Z <$> (b :: bs)).
Proof.
  intros Hb. cbn [fold_left].
  destruct (base58_byte_spec [] b) as (H1 & H2 & H3 & H4); [constructor|by left|by left|].
  apply (fold_base58_byte bs [byte_Z b]); [done..|]. rewrite H4. unfold be_value. simpl. lia.
Qed.

(** The decoder's loop computes the characters' value in base 256. *)
Lemma decode_base58_loop_spec ds index bytes pre :
  digits_ok 58 ds → digits_ok 256 bytes → canonical 256 bytes →
  (bytes ≠ [] ∨ ∃ d ds', ds = d :: ds' ∧ 0 < d) → le_value 256 bytes = be_value 58 pre →
  ∃ r, decode_base58_loop ((λ d, byte_Z (base58_char d)) <$> ds) index bytes = Ok r ∧
    digits_ok 256 r ∧ canonical 256 r ∧ le_value 256 r = be_value 58 (pre ++ ds).
Proof.
  intros Hds. revert index bytes pre.
  induction Hds as [|d ds Hd Hds IH]; intros index bytes pre Hb Hc Hne Hv.
  { exists bytes. rewrite app_nil_r. done. }
  cbn [fmap list_fmap decode_base58_loop].
  destruct (base58_char_spec d Hd) as (-> & _). cbn [ok_or mbind res_bind].
  destruct (base256_digit_spec bytes d Hb Hc Hd) as (H1 & H2 & H3 & H4).
  { destruct Hne as [?|(? & ? & [= <- <-] & ?)]; auto. }
  destruct (IH (S index) (base256_digit bytes d) (pre ++ [d])) as (r & Hr & I1 & I2 & I3);
    [done..|by left| |].
  { rewrite H4, be_value_snoc, Hv. lia. }
  exists r. rewrite <- app_assoc in I3. done.
Qed.

Lemma chars_ascii l : Forall (λ b, byte_Z b < 128) l → chars (from_bytes l) = byte_Z <$> l.
Proof. intros Hl. unfold chars. by rewrite as_from_bytes, utf8_decode_ascii. Qed.

Lemma count_while_app {A} (p : A → bool) l1 l2 :
  Forall (λ x, p x = true) l1 → (∀ x l, l2 = x :: l → p x = false) →
  count_while p (l1 ++ l2) = length l1.
Proof.
  intros H1 H2. induction H1 as [|x l1 Hx _ IH]; simpl.
  - destruct l2 as [|x l2]; [done|]. simpl. by rewrite (H2 x l2).
  - by rewrite Hx, IH.
Qed.

Lemma count_while_split {A} (p : A → bool) l :
  Forall (λ x, p x = true) (take (count_while p l) l) ∧
  (∀ x l', drop (count_while p l) l = x :: l' → p x = false).
Proof.
  induction l as [|x l [IH1 IH2]]; simpl; [split; [constructor|done]|].
  destruct (p x) eqn:E; simpl; [split; [by constructor|done]|].
  split; [constructor|]. intros ? ? [= <- _]. done.
Qed.

(** Zeros and the rest of an input. *)
Lemma leading_zeros_split input :
  let z := count_while (λ b, bool_decide (b = x00)) input in
  input = repeat x00 z ++ drop z input ∧ (∀ b bs, drop z input = b :: bs → b ≠ x00).
Proof.
  cbv zeta. destruct (count_while_split (λ b, bool_decide (b = x00)) input) as [H1 H2].
  set (z := count_while _ input) in *. split.
  - rewrite <- (take_drop z input) at 1. f_equal.
    assert (length (take z input) = z) as Hl.
    { apply length_take_le. clear H1 H2. subst z.
      induction input as [|x input IH]; simpl; [lia|]. case_bool_decide; simpl; lia. }
    rewrite <- Hl at 2. clear Hl H2. induction H1 as [|x l Hx _ IH]; simpl; [done|].
    apply bool_decide_eq_true in Hx as ->. by f_equal.
  - intros b bs Hd ->. apply H2 in Hd. by rewrite bool_decide_eq_true_2 in Hd.
Qed.

Lemma bytes_value_digits (l : list byte) : digits_ok 256 (byte_Z <$> l).
Proof. apply Forall_fmap, Forall_true. intros b. apply byte_Z_range. Qed.

Lemma Z_byte_fmap (l : list byte) : Z_byte <$> (byte_Z <$> l) = l.
Proof.
  rewrite <- list_fmap_compose. rewrite <- (list_fmap_id l) at 2. apply list_fmap_ext.
  intros _ b _. apply Z_byte_byte_Z.
Qed.

(** The text of a leading-zero count and base58 digits, and what decoding it gives. *)
Lemma decode_base58_digits z ds r :
  digits_ok 58 ds → (ds = [] ∨ ∃ d ds', ds = d :: ds' ∧ 0 < d) → (z ≠ 0%nat ∨ ds ≠ []) →
  digits_ok 256 r → canonical 256 r → le_value 256 r = be_value 58 ds →
  decode_base58 (from_bytes (repeat x31 z ++ (base58_char <$> ds)))
    = Ok (repeat x00 z ++ (Z_byte <$> rev r)).
Proof.
  intros Hds Hhd Hne Hr Hcr Hv. unfold decode_base58.
  set (txt := repeat x31 z ++ (base58_char <$> ds)).
  assert (txt ≠ []) as Htxt.
  { subst txt. intros [H1 H2]%app_eq_nil. destruct Hne as [Hz|Hd]; [by destruct z|].
    by apply fmap_nil_inv in H2. }
  rewrite decide_False.
  2: { intros E. apply (f_equal as_bytes) in E. by rewrite as_from_bytes in E. }
  assert (chars (from_bytes txt)
    = repeat 0x31 z ++ ((λ d, byte_Z (base58_char d)) <$> ds)) as ->.
  { rewrite chars_ascii.
    - subst txt. rewrite fmap_app, <- list_fmap_compose. f_equal.
      clear. induction z as [|z IH]; [done|]. simpl. f_equal. exact IH.
    - apply Forall_app. split; [by apply Forall_repeat|]. apply Forall_fmap.
      eapply Forall_impl; [exact Hds|]. intros d Hd. by apply base58_char_spec. }
  cbv zeta. rewrite count_while_app, repeat_length.
  2: { apply Forall_repeat. done. }
  2: { intros x l E. destruct Hhd as [->|(d & ds' & -> & Hd)]; [done|]. simpl in E. simplify_eq.
       apply Z.eqb_neq. apply Forall_cons in Hds as [Hd' _]. apply base58_char_spec; lia. }
  rewrite drop_app_length' by by rewrite repeat_length.
  assert (∃ r', decode_base58_loop ((λ d, byte_Z (base58_char d)) <$> ds) z [] = Ok r' ∧
    digits_ok 256 r' ∧ canonical 256 r' ∧ le_value 256 r' = be_value 58 ds) as (r' & -> & H1 & H2 & H3).
  { destruct Hhd as [->|Hhd].
    - exists []. split_and!; [done|constructor|by left|done].
    - apply (decode_base58_loop_spec ds z [] []); [done|constructor|by left|by right|done]. }
  cbn [mbind res_bind]. do 4 f_equal.
  apply (canonical_unique 256); [lia|done..|]. by rewrite H3, Hv.
Qed.

Lemma decode_encode_base58 input : input ≠ [] → decode_base58 (encode_base58 input) = Ok input.
Proof.
  intros Hne. unfold encode_base58. rewrite decide_False by done. cbv zeta.
  pose proof (leading_zeros_split input) as [Hsplit Hhd]. cbv zeta in *.
  set (z := count_while _ input) in *. destruct (drop z input) as [|b bs] eqn:E.
  - cbn [fold_left]. rewrite decide_True by done. rewrite app_nil_r in Hsplit.
    replace (repeat x31 z) with (repeat x31 z ++ (base58_char <$> [])) by by rewrite app_nil_r.
    rewrite (decode_base58_digits z [] []);
      [|constructor|by left|left; intros Hz; by rewrite Hz in Hsplit|constructor|by left|done].
    simpl. by rewrite app_nil_r, <- Hsplit.
  - specialize (Hhd b bs eq_refl).
    destruct (encode_base58_digits b bs Hhd) as (H1 & H2 & H3 & H4). cbv zeta in *.
    set (D := fold_left base58_byte (b :: bs) []) in *. rewrite decide_False by done.
    rewrite (decode_base58_digits z (rev D) (rev (byte_Z <$> (b :: bs)))).
    + rewrite rev_involutive, Z_byte_fmap. by rewrite <- Hsplit.
    + by apply Forall_rev.
    + destruct (rev D) as [|d ds] eqn:ED; [by left|right]. exists d, ds. split; [done|].
      apply (f_equal (@rev Z)) in ED. rewrite rev_involutive in ED. simpl in ED. rewrite ED in H1, H2.
      pose proof (canonical_head 58 ltac:(lia) _ _ H1 H2).
      apply Forall_app in H1 as [_ [? _]%Forall_cons]. lia.
    + right. intros ED. apply (f_equal (@rev Z)) in ED. by rewrite rev_involutive in ED.
    + apply Forall_rev, bytes_value_digits.
    + cbn [fmap list_fmap]. simpl rev. apply canonical_last; [lia| |apply Forall_rev, bytes_value_digits].
      pose proof (byte_Z_range b). destruct (decide (byte_Z b = 0)) as [E0|]; [|lia].
      destruct Hhd. by apply byte_Z_inj.
    + unfold be_value at 1. rewrite rev_involutive, H4. done.
Qed.

(** ** Base32 round trip *)

Lemma land_31 v : Z.land v 31 = v mod 2 ^ 5.
Proof. change 31 with (Z.ones 5). by rewrite Z.land_ones. Qed.

Lemma base32_drain_eq fuel buffer bits out :
  base32_drain fuel buffer bits out = drain_bits 5 fuel buffer bits out.
Proof.
  revert bits out. induction fuel as [|fuel IH]; intros bits out; [done|].
  cbn [base32_drain drain_bits]. cbv zeta. by rewrite IH, land_31.
Qed.

Lemma base32_undrain_eq fuel buffer bits out :
  base32_undrain fuel buffer bits out = drain_bits 8 fuel buffer bits out.
Proof.
  revert bits out. induction fuel as [|fuel IH]; intros bits out; [done|].
  cbn [base32_undrain drain_bits]. cbv zeta. by rewrite IH, land_255.
Qed.

(** [(buffer << a) | g] at a fixed width. *)
Lemma shift_or buffer a g W :
  0 < a <= W → 0 <= g < 2 ^ a →
  Z.lor (Z.shiftl buffer a mod 2 ^ W) g = (buffer * 2 ^ a + g) mod 2 ^ W.
Proof.
  intros Ha Hg. rewrite Z.shiftl_mul_pow2 by lia.
  replace W with (a + (W - a)) by lia. rewrite Z.pow_add_r by lia.
  rewrite !Z.rem_mul_r by (apply Z.pow_nonzero || apply Z.pow_pos_nonneg; lia).
  rewrite Z.mod_mul, Z.div_mul by (apply Z.pow_nonzero; lia).
  rewrite (Z.add_comm (buffer * 2 ^ a)), Z.mod_add, Z.div_add by (apply Z.pow_nonzero; lia).
  rewrite (Z.mod_small g), (Z.div_small g) by lia. rewrite !Z.add_0_l.
  set (q := buffer mod 2 ^ (W - a)). rewrite Z.lor_comm, (Z.mul_comm (2 ^ a) q).
  rewrite <- (Z.shiftl_mul_pow2 q a) at 1 by lia. by rewrite lor_shiftl_disjoint by lia.
Qed.

Lemma base32_loop_eq input buffer bits out :
  base32_loop input buffer bits out = regroup 8 5 16 3 (byte_Z <$> input) buffer bits out.
Proof.
  revert buffer bits out. induction input as [|b input IH]; intros buffer bits out; [done|].
  cbn [base32_loop regroup fmap list_fmap]. cbv zeta.
  rewrite shift_or by (pose proof (byte_Z_range b); lia). rewrite base32_drain_eq.
  destruct (drain_bits 5 3 _ (bits + 8) out). apply IH.
Qed.

Lemma base32_char_spec d :
  0 <= d < 32 → base32_value (byte_Z (base32_char d)) = Some d ∧ byte_Z (base32_char d) < 128.
Proof.
  intros Hd. assert (Forall (λ d, base32_value (byte_Z (base32_char d)) = Some d ∧
    byte_Z (base32_char d) < 128) (seqZ 0 32)) as HF.
  { apply (bool_decide_unpack _). vm_compute. done. }
  rewrite Forall_forall in HF. apply HF. by apply elem_of_seqZ.
Qed.

Lemma decode_base32_loop_eq ds index buffer bits out :
  digits_ok 32 ds →
  decode_base32_loop ((λ d, byte_Z (base32_char d)) <$> ds) index buffer bits out
    = Ok (regroup 5 8 32 2 ds buffer bits out).2.
Proof.
  intros Hds. revert index buffer bits out.
  induction Hds as [|d ds Hd Hds IH]; intros index buffer bits out; [done|].
  cbn [decode_base32_loop regroup fmap list_fmap]. cbv zeta.
  destruct (base32_char_spec d Hd) as [-> _]. cbn [ok_or mbind res_bind].
  rewrite shift_or by lia. rewrite base32_undrain_eq.
  destruct (drain_bits 8 2 _ (bits + 5) out). apply IH.
Qed.

Lemma grouped_nil a b : grouped a b 0 0 0 0 [].
Proof. split_and!; [done|simpl; lia|done|constructor]. Qed.

(** The last, padded group. *)
Lemma base32_pad n len buffer bits out :
  grouped 8 5 n len buffer bits out → 0 < bits < 5 →
  let idx := Z.land (Z.shiftl buffer (5 - bits) mod 2 ^ 16) 31 in
  0 <= idx < 32 ∧ be_value 32 (out ++ [idx]) = n * 2 ^ (5 - bits).
Proof.
  intros (-> & _ & _ & _) Hb. cbv zeta. rewrite land_31, Z.shiftl_mul_pow2 by lia.
  rewrite be_value_snoc. split; [apply Z.mod_pos_bound; lia|].
  rewrite Z.mod_mod_divide by (exists (2 ^ 11); done).
  assert (2 ^ 5 = 2 ^ bits * 2 ^ (5 - bits)) as E5.
  { rewrite <- Z.pow_add_r by lia. f_equal. lia. }
  rewrite E5 at 1. rewrite (Z.mul_comm buffer), (Z.mul_comm (2 ^ bits)).
  rewrite Z.mul_mod_distr_l by (apply Z.pow_nonzero; lia).
  change 32 with (2 ^ 5). rewrite E5. lia.
Qed.

Lemma decode_base32_digits ds :
  ds ≠ [] → digits_ok 32 ds →
  decode_base32_nopad (from_bytes (base32_char <$> ds))
    = Ok (map Z_byte (regroup 5 8 32 2 ds 0 0 []).2).
Proof.
  intros Hne Hds. unfold decode_base32_nopad. rewrite decide_False.
  2: { intros E. apply (f_equal as_bytes) in E. rewrite as_from_bytes in E.
       by apply fmap_nil_inv in E. }
  rewrite chars_ascii.
  - rewrite <- list_fmap_compose. change (byte_Z ∘ base32_char) with (λ d, byte_Z (base32_char d)).
    by rewrite decode_base32_loop_eq.
  - apply Forall_fmap. eapply Forall_impl; [exact Hds|]. intros d Hd. by apply base32_char_spec.
Qed.

(** Whatever the padding, regrouping back gives the bytes. *)
Lemma regroup_back input ds pad :
  digits_ok 32 ds → 0 <= pad < 5 →
  8 * Z.of_nat (length input) + pad = 5 * Z.of_nat (length ds) →
  be_value 32 ds = be_value 256 (byte_Z <$> input) * 2 ^ pad →
  map Z_byte (regroup 5 8 32 2 ds 0 0 []).2 = input.
Proof.
  intros Hds Hp Hlen Hv.
  destruct (regroup 5 8 32 2 ds 0 0 []) as [[buffer bits] out] eqn:E.
  destruct (regroup_spec 5 8 32 ltac:(lia) ltac:(lia) ltac:(lia) 2 ds 0 0 [] 0 0 buffer bits out)
    as [(H1 & H2 & H3 & H4) Hlt]; [apply grouped_nil|lia|done|lia|done|].
  cbn [snd]. rewrite Z.mul_0_l, Z.add_0_l in H1. change (2 ^ 5) with 32 in *.
  change (2 ^ 8) with 256 in *. rewrite Hv in H1.
  assert (length out = length input ∧ bits = pad) as [Hl ->] by (simpl in H2; lia).
  assert (0 < 2 ^ pad) by (apply Z.pow_pos_nonneg; lia).
  pose proof (Z.mod_pos_bound buffer (2 ^ pad) ltac:(lia)).
  rewrite <- (Z_byte_fmap input). f_equal. apply (be_value_unique 256); [lia|done| | |nia].
  - apply bytes_value_digits.
  - by rewrite length_fmap.
Qed.

Lemma decode_encode_base32 input :
  decode_base32_nopad (encode_base32_nopad_lower input) = Ok input.
Proof.
  unfold encode_base32_nopad_lower. case_decide as Hn; [by subst|].
  rewrite base32_loop_eq.
  destruct (regroup 8 5 16 3 (byte_Z <$> input) 0 0 []) as [[buffer bits] out] eqn:E.
  destruct (regroup_spec 8 5 16 ltac:(lia) ltac:(lia) ltac:(lia) 3 (byte_Z <$> input)
    0 0 [] 0 0 buffer bits out) as [HG Hlt];
    [apply grouped_nil|lia|apply bytes_value_digits|lia|done|].
  rewrite Z.mul_0_l, Z.add_0_l, length_fmap in HG. change (2 ^ 8) with 256 in HG.
  simpl (0 + length input)%nat in HG.
  assert (0 < length input)%nat by (destruct input; [done|simpl; lia]).
  pose proof HG as (H1 & H2 & H3 & H4). change (2 ^ 5) with 32 in *.
  destruct (Z.ltb_spec 0 bits) as [Hb|Hb].
  - destruct (base32_pad _ _ _ _ _ HG ltac:(lia)) as [Hidx Hval]. cbv zeta in *.
    set (idx := Z.land _ 31) in *.
    assert (digits_ok 32 (out ++ [idx])) by (apply Forall_app; split; [done|by apply Forall_singleton]).
    rewrite decode_base32_digits by (done || by destruct out). f_equal.
    apply (regroup_back input (out ++ [idx]) (5 - bits)); [done|lia| |done].
    rewrite length_app. simpl length. lia.
  - assert (bits = 0) as -> by lia. rewrite Z.mod_1_r, Z.add_0_r in H1.
    rewrite decode_base32_digits; [|intros ->; simpl in H2; lia|done]. f_equal.
    apply (regroup_back input out 0); [done|lia|lia|]. rewrite H1. lia.
Qed.

(** Encoded text is ASCII. *)
Lemma base32_out_ascii (out : list Z) : Forall (λ b, byte_Z b < 128) (base32_char <$> out).
Proof.
  apply Forall_fmap, Forall_true. intros d. unfold compose, base32_char.
  assert (Forall (λ b, byte_Z b < 128) BASE32_ALPHABET_LOWER) as HF.
  { apply (bool_decide_unpack _). vm_compute. done. }
  destruct (nth_in_or_default (Z.to_nat d) BASE32_ALPHABET_LOWER x00) as [Hin| ->]; [|done].
  rewrite Forall_forall in HF. apply HF. by apply list_elem_of_In.
Qed.

(** ** Properties *)

(** Both text codecs are lossless: base58btc decodes what it encoded for every
    non-empty input, leading zero bytes included, and unpadded base32 for every
    input, whatever the number of bits in the last character. *)
Theorem multibase_roundtrip input :
  (input ≠ [] → decode_base58 (encode_base58 input) = Ok input) ∧
  decode_base32_nopad (encode_base32_nopad_lower input) = Ok input.
Proof. split; [apply decode_encode_base58|apply decode_encode_base32]. Qed.

Lemma multibase_roundtrip_witness :
  decode_base58 (encode_base58 [x00; x00; xff; x01]) = Ok [x00; x00; xff; x01].
Proof. exact (proj1 (multibase_roundtrip [x00; x00; xff; x01]) ltac:(done)). Defined.
