(* ===== verification/PeerId.v ===== *)
(** * Peer identities ([crates/identity/src/peer_id.rs])

    A [PeerId] wraps a multihash.  The [multihash] and [sha2] crates are third-party
    code: [MultihashApi] and [MultihashLaws] state the documented interface this file
    relies on, [sha256] is a parameter, and [PlainMultihash] is a concrete instance
    that satisfies the laws. *)
From S2P Require Import Prelude Utf8 Varint Digits Multibase.
From Stdlib Require Import ZArith Strings.Byte Strings.Ascii Strings.String.
From stdpp Require Import base numbers list strings decidable countable.

#[local] Open Scope Z_scope.

Definition IDENTITY_MULTIHASH_CODE : Z := 0x00.
Definition SHA256_MULTIHASH_CODE : Z := 0x12.
Definition LIBP2P_KEY_MULTICODEC : Z := 0x72.
Definition MAX_INLINE_KEY_LENGTH : nat := 42.
Definition PEER_ID_MULTIHASH_SIZE : nat := 64.

(** ** The multihash crate *)

(** [Multihash<64>]; errors are represented by their display text, all this crate
    uses of them. *)
Class MultihashApi (MH : Type) := {
  mh_wrap : Z → list byte → res string MH;
  mh_from_bytes : list byte → res string MH;
  mh_to_bytes : MH → list byte;
  mh_code : MH → Z;
  mh_digest : MH → list byte;
}.
#[global] Hint Mode MultihashApi ! : typeclass_instances.

(** Documented: [wrap] accepts digests of up to 64 bytes, [to_bytes] writes the varint
    code, the varint size and the digest, and [from_bytes] reads that back. *)
Class MultihashLaws (MH : Type) `{!MultihashApi MH} := {
  mh_wrap_ok c d : is_u64 c → (length d <= PEER_ID_MULTIHASH_SIZE)%nat →
    ∃ m : MH, mh_wrap c d = Ok m ∧ mh_code m = c ∧ mh_digest m = d;
  mh_layout (m : MH) : mh_to_bytes m =
    write_uvarint (mh_code m) [] ++ write_uvarint (Z.of_nat (length (mh_digest m))) []
      ++ mh_digest m;
  mh_from_to_bytes (m : MH) : mh_from_bytes (mh_to_bytes m) = Ok m;
  mh_bounds (m : MH) : is_u64 (mh_code m) ∧ (length (mh_digest m) <= PEER_ID_MULTIHASH_SIZE)%nat;
  mh_from_bytes_no_panic b : mh_from_bytes (MH:=MH) b ≠ Panic;
}.

(** ** Definitions *)

(** [str::starts_with]. *)
Definition starts_with (p s : string) : bool :=
  bool_decide (take (length (as_bytes p)) (as_bytes s) = as_bytes p).

(** Bytes of a scalar value in UTF-8. *)
Definition char_len (c : Z) : nat :=
  if c <? 0x80 then 1 else if c <? 0x800 then 2 else if c <? 0x10000 then 3 else 4.

Section peer_id.
Context {MH : Type} `{!MultihashApi MH}.
Context (sha256 : list byte → list byte).

Record PeerId : Type := { multihash : MH }.

Definition validate_multihash (m : MH) : res PeerIdError unit :=
  let digest_len := length (mh_digest m) in
  if decide (mh_code m = SHA256_MULTIHASH_CODE ∧ digest_len ≠ 32%nat)
  then Err (InvalidSha256DigestLength digest_len) else Ok ().

(** [PeerMultihash::wrap(code, digest).expect(..)]. *)
Definition build_multihash (code : Z) (digest : list byte) : res Empty_set MH :=
  match mh_wrap code digest with Ok m => Ok m | _ => Panic end.

Definition from_public_key_protobuf (encoded_public_key : list byte) : res Empty_set PeerId :=
  m ← (if decide (length encoded_public_key <= MAX_INLINE_KEY_LENGTH)%nat
       then build_multihash IDENTITY_MULTIHASH_CODE encoded_public_key
       else build_multihash SHA256_MULTIHASH_CODE (sha256 encoded_public_key));
  Ok {| multihash := m |}.

Definition from_multihash (m : MH) : res PeerIdError PeerId :=
  _ ← validate_multihash m;
  Ok {| multihash := m |}.

Definition peer_from_bytes (bytes : list byte) : res PeerIdError PeerId :=
  parsed ← map_err InvalidMultihash (mh_from_bytes bytes);
  from_multihash parsed.

Definition peer_to_bytes (p : PeerId) : list byte := mh_to_bytes (multihash p).

Definition digest_bytes (p : PeerId) : list byte := mh_digest (multihash p).

Definition to_base58 (p : PeerId) : string := encode_base58 (peer_to_bytes p).

Definition to_cid_base32 (p : PeerId) : string :=
  let cid := write_uvarint 1 [] in
  let cid := write_uvarint LIBP2P_KEY_MULTICODEC cid in
  let cid := cid ++ peer_to_bytes p in
  ("b" ++ encode_base32_nopad_lower cid)%string.

Definition from_base58 (input : string) : res PeerIdError PeerId :=
  bytes ← decode_base58 input;
  peer_from_bytes bytes.

Definition from_cid (input : string) : res PeerIdError PeerId :=
  if decide (input = EmptyString) then Err EmptyInput
  else
    prefix ← ok_or (head (chars input)) EmptyInput;
    let payload := from_bytes (drop (char_len prefix) (as_bytes input)) in
    cid_bytes ← (if (prefix =? 0x62) || (prefix =? 0x42) then decode_base32_nopad payload
                 else if prefix =? 0x7a then decode_base58 payload
                 else Err (UnsupportedMultibase prefix));
    '(version, version_len) ← map_err InvalidCidVersionVarint (read_uvarint cid_bytes);
    if negb (version =? 1) then Err (UnsupportedCidVersion version)
    else
      '(codec, codec_len) ←
        map_err InvalidCidMulticodecVarint (read_uvarint (drop version_len cid_bytes));
      if negb (codec =? LIBP2P_KEY_MULTICODEC) then Err (UnsupportedMulticodec codec)
      else peer_from_bytes (drop (version_len + codec_len) cid_bytes).

(** [impl Display for PeerId]. *)
#[export] Instance PeerId_display : Display PeerId := to_base58.

(** [impl FromStr for PeerId]. *)
Definition peer_from_str (s : string) : res PeerIdError PeerId :=
  if starts_with "1" s || starts_with "Qm" s then from_base58 s else from_cid s.

(** ** Lemmas *)

Context `{!MultihashLaws MH}.

(** The type's invariant: what [validate_multihash] checks. *)
Definition peer_ok (p : PeerId) : Prop :=
  mh_code (multihash p) = SHA256_MULTIHASH_CODE → length (digest_bytes p) = 32%nat.

Lemma validate_ok m : validate_multihash m = Ok () ↔ peer_ok {| multihash := m |}.
Proof.
  unfold validate_multihash, peer_ok, digest_bytes. simpl.
  case_decide as H; split; intros H'; try done; [destruct H as [H1 H2]; tauto|].
  intros Hc. destruct (decide (length (mh_digest m) = 32%nat)); [done|tauto].
Qed.

Lemma from_multihash_ok p : peer_ok p → from_multihash (multihash p) = Ok p.
Proof.
  intros Hp. unfold from_multihash. destruct p as [m]. cbn [multihash]. rewrite (proj2 (validate_ok m)); done.
Qed.

Lemma peer_from_to_bytes p : peer_ok p → peer_from_bytes (peer_to_bytes p) = Ok p.
Proof.
  intros Hp. unfold peer_from_bytes, peer_to_bytes. rewrite mh_from_to_bytes. simpl.
  by apply from_multihash_ok.
Qed.

Lemma peer_from_bytes_ok b p : peer_from_bytes b = Ok p → peer_ok p.
Proof.
  unfold peer_from_bytes, from_multihash.
  destruct (mh_from_bytes b) as [m| |]; simpl; [|done..].
  destruct (validate_multihash m) as [[]| |] eqn:E; simpl; [|done..]. intros [= <-].
  by apply validate_ok.
Qed.

Lemma peer_from_bytes_no_panic b : peer_from_bytes b ≠ Panic.
Proof.
  unfold peer_from_bytes, from_multihash, validate_multihash.
  pose proof (mh_from_bytes_no_panic b). destruct (mh_from_bytes b); simpl; [|done..].
  by case_decide.
Qed.

Lemma peer_to_bytes_ne p : peer_to_bytes p ≠ [].
Proof.
  unfold peer_to_bytes. rewrite mh_layout. intros [E _]%app_eq_nil.
  destruct (mh_bounds (multihash p)) as [Hc _].
  pose proof (length_uvarint _ Hc). pose proof (uvarint_len_pos (mh_code (multihash p))).
  rewrite E in *. cbn [length] in *. lia.
Qed.

Lemma from_to_base58 p : peer_ok p → from_base58 (to_base58 p) = Ok p.
Proof.
  intros Hp. unfold from_base58, to_base58.
  rewrite decode_encode_base58 by apply peer_to_bytes_ne. cbn [mbind res_bind].
  by apply peer_from_to_bytes.
Qed.

(** ** The text starts with [1] or [Qm] *)

Lemma encode_base58_zero rest :
  ∃ s, encode_base58 (x00 :: rest) = String "1"%char s.
Proof.
  unfold encode_base58. rewrite decide_False by done. cbv zeta.
  cbn [count_while]. rewrite bool_decide_eq_true_2 by done. cbn [repeat app].
  case_decide; eexists; reflexivity.
Qed.

(** The two most significant base58 digits of a SHA-256 multihash. *)
Lemma sha256_top_digits D n :
  digits_ok 58 D → canonical 58 D → le_value 58 D = n →
  1378 * 58 ^ 44 <= n < 1379 * 58 ^ 44 → ∃ ds, rev D = 23 :: 44 :: ds.
Proof.
  intros HD HC Hv Hn. pose proof (le_value_bound 58 ltac:(lia) D HD) as [_ Hlt].
  assert (Z.of_nat (length D) = 46) as Hlen.
  { destruct HC as [->|HC]; [simpl in Hv; lia|].
    assert (Z.of_nat (length D) - 1 < 46) by (apply (Z.pow_lt_mono_r_iff 58); lia).
    assert (45 < Z.of_nat (length D)) by (apply (Z.pow_lt_mono_r_iff 58); lia). lia. }
  remember (rev D) as R eqn:HR.
  assert (D = rev R) as -> by by rewrite HR, rev_involutive. clear HR HC.
  rewrite length_rev in Hlen. destruct R as [|d1 [|d2 R]]; simpl in Hlen; [lia..|].
  cbn [rev] in Hv, HD. rewrite <- app_assoc, le_value_app in Hv.
  unfold digits_ok in HD. rewrite !Forall_app, !Forall_singleton in HD.
  destruct HD as [[HD H2] H1]. pose proof (le_value_bound 58 ltac:(lia) _ HD) as Hb. rewrite length_rev in *.
  replace (Z.of_nat (length R)) with 44 in * by lia. cbn [le_value app] in Hv.
  assert (d2 + 58 * d1 = 1378) by nia. assert (d1 = 23 ∧ d2 = 44) as [-> ->] by lia. by eexists.
Qed.

Lemma be_value_cons_bound b1 b2 (bs : list byte) :
  be_value 256 (byte_Z <$> (b1 :: b2 :: bs)) =
    (byte_Z b1 * 256 + byte_Z b2) * 256 ^ Z.of_nat (length bs) + be_value 256 (byte_Z <$> bs) ∧
  0 <= be_value 256 (byte_Z <$> bs) < 256 ^ Z.of_nat (length bs).
Proof.
  unfold be_value. split.
  - cbn [fmap list_fmap rev]. rewrite <- app_assoc, le_value_app, length_rev, length_fmap.
    cbn [le_value app]. lia.
  - pose proof (le_value_bound 256 ltac:(lia) (rev (byte_Z <$> bs))
      (Forall_rev (bytes_value_digits bs))) as Hb.
    by rewrite length_rev, length_fmap in Hb.
Qed.

Lemma encode_base58_sha256 bs :
  length bs = 32%nat → ∃ s, encode_base58 (x12 :: x20 :: bs) = String "Q"%char (String "m"%char s).
Proof.
  intros Hl. unfold encode_base58. rewrite decide_False by done. cbv zeta.
  cbn [count_while]. rewrite bool_decide_eq_false_2 by done. cbn [drop repeat].
  destruct (encode_base58_digits x12 (x20 :: bs) ltac:(done)) as (H1 & H2 & H3 & H4).
  cbv zeta in *. set (D := fold_left _ _ _) in *. rewrite decide_False by done.
  destruct (be_value_cons_bound x12 x20 bs) as [Hv Hb]. rewrite Hl in *.
  destruct (sha256_top_digits D _ H1 H2 H4) as [ds Hds].
  { rewrite Hv. change (byte_Z x12) with 18. change (byte_Z x20) with 32. lia. }
  rewrite Hds. eexists. reflexivity.
Qed.

Lemma to_base58_prefix p :
  peer_ok p →
  mh_code (multihash p) = IDENTITY_MULTIHASH_CODE ∨ mh_code (multihash p) = SHA256_MULTIHASH_CODE →
  starts_with "1" (to_base58 p) || starts_with "Qm" (to_base58 p) = true.
Proof.
  intros Hp Hc. unfold to_base58, peer_to_bytes. rewrite mh_layout. destruct Hc as [Hc|Hc].
  - rewrite Hc. destruct (encode_base58_zero
      (write_uvarint (Z.of_nat (length (mh_digest (multihash p)))) [] ++ mh_digest (multihash p)))
      as [s Hs].
    change (write_uvarint IDENTITY_MULTIHASH_CODE [] ++ ?l) with (x00 :: l). rewrite Hs. reflexivity.
  - specialize (Hp Hc). unfold digest_bytes in Hp. rewrite Hc, Hp.
    destruct (encode_base58_sha256 _ Hp) as [s Hs].
    change (write_uvarint SHA256_MULTIHASH_CODE [] ++ write_uvarint (Z.of_nat 32) [] ++ ?l)
      with (x12 :: x20 :: l). rewrite Hs. reflexivity.
Qed.

(** ** CIDs *)

Lemma from_to_cid p : peer_ok p → from_cid (to_cid_base32 p) = Ok p.
Proof.
  intros Hp. unfold from_cid, to_cid_base32.
  set (cid := write_uvarint LIBP2P_KEY_MULTICODEC (write_uvarint 1 []) ++ peer_to_bytes p).
  rewrite decide_False by done.
  change (as_bytes (String.append "b" ?s)) with (x62 :: as_bytes s).
  unfold chars. change (as_bytes (String.append "b" ?s)) with (x62 :: as_bytes s).
  assert (is_Some (utf8_decode (as_bytes (encode_base32_nopad_lower cid)))) as [cs Hcs].
  { unfold encode_base32_nopad_lower. case_decide; [by eexists|].
    destruct (base32_loop cid 0 0 []) as [[buf bits] out] eqn:E. rewrite as_from_bytes.
    rewrite utf8_decode_ascii; [by eexists|]. apply base32_out_ascii. }
  assert (utf8_decode (x62 :: as_bytes (encode_base32_nopad_lower cid)) = Some (0x62 :: cs)) as ->.
  { cbn [utf8_decode]. rewrite Hcs. reflexivity. }
  cbn [default from_option id head ok_or mbind res_bind].
  change (drop (char_len 0x62) (x62 :: ?l)) with l. rewrite from_as_bytes.
  change ((0x62 =? 0x62) || (0x62 =? 0x42)) with true. cbv iota.
  rewrite decode_encode_base32. cbn [mbind res_bind]. subst cid.
  change (write_uvarint LIBP2P_KEY_MULTICODEC (write_uvarint 1 []))
    with (write_uvarint 1 [] ++ write_uvarint LIBP2P_KEY_MULTICODEC []).
  rewrite <- app_assoc, read_uvarint_write by done. cbn [map_err mbind res_bind].
  change (negb (1 =? 1)) with false. cbv iota.
  rewrite <- (length_uvarint 1) by done. rewrite drop_app_length, read_uvarint_write by done.
  cbn [map_err mbind res_bind]. rewrite Z.eqb_refl. cbn [negb].
  rewrite <- (length_uvarint LIBP2P_KEY_MULTICODEC) by done.
  rewrite <- drop_drop, drop_app_length, drop_app_length. by apply peer_from_to_bytes.
Qed.

Context (Hsha : ∀ b, length (sha256 b) = 32%nat).

Lemma from_public_key_protobuf_spec k :
  ∃ p, from_public_key_protobuf k = Ok p ∧ peer_ok p ∧
    mh_code (multihash p) = (if decide (length k <= 42)%nat then IDENTITY_MULTIHASH_CODE
                             else SHA256_MULTIHASH_CODE) ∧
    digest_bytes p = (if decide (length k <= 42)%nat then k else sha256 k).
Proof.
  unfold from_public_key_protobuf, build_multihash, MAX_INLINE_KEY_LENGTH. case_decide as Hk.
  - destruct (mh_wrap_ok IDENTITY_MULTIHASH_CODE k) as (m & -> & Hc & Hd);
      [done|unfold PEER_ID_MULTIHASH_SIZE; lia|].
    exists {| multihash := m |}. split_and!; [done| |done..].
    unfold peer_ok. simpl. by rewrite Hc.
  - destruct (mh_wrap_ok SHA256_MULTIHASH_CODE (sha256 k)) as (m & -> & Hc & Hd);
      [done|rewrite Hsha; unfold PEER_ID_MULTIHASH_SIZE; lia|].
    exists {| multihash := m |}. split_and!; [done| |done..].
    unfold peer_ok, digest_bytes. simpl. by rewrite Hd, Hsha.
Qed.

(** ** Properties *)

(** A peer id has a binary and a CID form ([bafz..]), and both parse back to it;
    parsing bytes never unwinds and never yields an invalid id: a SHA-256 identity
    always has a 32-byte digest. *)
Theorem peer_id_forms p b :
  peer_ok p →
  peer_from_bytes (peer_to_bytes p) = Ok p ∧ peer_from_str (to_cid_base32 p) = Ok p ∧
  (∀ q, peer_from_bytes b = Ok q → peer_ok q) ∧ peer_from_bytes b ≠ Panic.
Proof.
  intros Hp. split_and!; [by apply peer_from_to_bytes| |apply peer_from_bytes_ok|apply peer_from_bytes_no_panic].
  unfold peer_from_str.
  assert (starts_with "1" (to_cid_base32 p) || starts_with "Qm" (to_cid_base32 p) = false) as -> by reflexivity.
  by apply from_to_cid.
Qed.

(** A peer id derived from a public key: derivation never panics, keys of up to 42
    bytes are inlined (so the id determines the key), longer ones hashed; and the
    display text, which starts with [1] or [Qm], parses back to the same id. *)
Theorem peer_id_from_key k :
  ∃ p, from_public_key_protobuf k = Ok p ∧ peer_ok p ∧
    digest_bytes p = (if decide (length k <= 42)%nat then k else sha256 k) ∧
    peer_from_str (to_string p) = Ok p ∧ peer_from_bytes (peer_to_bytes p) = Ok p.
Proof.
  destruct (from_public_key_protobuf_spec k) as (p & Hp & Hok & Hc & Hd).
  exists p. split_and!; [done..| |by apply peer_from_to_bytes].
  unfold peer_from_str, to_string, PeerId_display.
  rewrite to_base58_prefix; [by apply from_to_base58|done|]. rewrite Hc. case_decide; auto.
Qed.

End peer_id.

#[global] Arguments PeerId : clear implicits.

#[export] Instance PeerId_eq_dec `{EqDecision MH} : EqDecision (PeerId MH).
Proof. solve_decision. Defined.

(** ** What other components rely on

    The address formats embed peer ids through their binary form only. *)
Class PeerIdBytes (P : Type) := {
  pid_to_bytes : P → list byte;
  pid_from_bytes : list byte → res PeerIdError P;
  pid_ok : P → Prop;
  pid_roundtrip p : pid_ok p → pid_from_bytes (pid_to_bytes p) = Ok p;
  pid_length p : (length (pid_to_bytes p) <= 84)%nat;
  pid_no_panic b : pid_from_bytes b ≠ Panic;
}.
#[global] Hint Mode PeerIdBytes ! : typeclass_instances.

#[export, refine] Instance PeerId_bytes `{MultihashLaws MH} : PeerIdBytes (PeerId MH) := {
  pid_to_bytes := peer_to_bytes;
  pid_from_bytes := peer_from_bytes;
  pid_ok := peer_ok;
}.
Proof.
  - apply peer_from_to_bytes.
  - intros p. unfold peer_to_bytes. rewrite mh_layout, !length_app.
    destruct (mh_bounds (multihash p)) as [Hc Hd]. unfold PEER_ID_MULTIHASH_SIZE in Hd.
    assert (is_u64 (Z.of_nat (length (mh_digest (multihash p))))) as Hl by u64_tac.
    rewrite !length_uvarint by done. pose proof (uvarint_len_le _ Hc).
    pose proof (uvarint_len_le _ Hl). lia.
  - apply peer_from_bytes_no_panic.
Defined.

(** ** A concrete multihash *)

Record PlainMultihash : Type := {
  plain_code : Z;
  plain_digest : list byte;
  plain_ok : bool_decide (is_u64 plain_code ∧ (length plain_digest <= PEER_ID_MULTIHASH_SIZE)%nat);
}.

Lemma plain_eq (m1 m2 : PlainMultihash) :
  plain_code m1 = plain_code m2 ∧ plain_digest m1 = plain_digest m2 ↔ m1 = m2.
Proof.
  split; [|by intros ->]. destruct m1 as [c1 d1 H1], m2 as [c2 d2 H2]. cbn. intros [-> ->].
  f_equal. apply proof_irrel.
Qed.
#[export] Instance PlainMultihash_eq_dec : EqDecision PlainMultihash := λ m1 m2,
  match decide (plain_code m1 = plain_code m2 ∧ plain_digest m1 = plain_digest m2) with
  | left H => left (proj1 (plain_eq m1 m2) H)
  | right H => right (λ E, H (proj2 (plain_eq m1 m2) E))
  end.

Definition plain_make (c : Z) (d : list byte) : res string PlainMultihash :=
  match decide (bool_decide (is_u64 c ∧ (length d <= PEER_ID_MULTIHASH_SIZE)%nat)) with
  | left H => Ok {| plain_code := c; plain_digest := d; plain_ok := H |}
  | right _ => Err "Invalid multihash size"%string
  end.

#[export] Instance Plain_multihash : MultihashApi PlainMultihash := {
  mh_wrap := plain_make;
  mh_from_bytes b :=
    match read_uvarint b with
    | Ok (c, n) =>
        match read_uvarint (drop n b) with
        | Ok (len, k) =>
            if decide (Z.of_nat (length (drop (n + k) b)) = len)
            then plain_make c (drop (n + k) b) else Err "invalid size"%string
        | _ => Err "invalid varint"%string
        end
    | _ => Err "invalid varint"%string
    end;
  mh_to_bytes m := write_uvarint (plain_code m) []
    ++ write_uvarint (Z.of_nat (length (plain_digest m))) [] ++ plain_digest m;
  mh_code := plain_code;
  mh_digest := plain_digest;
}.

Lemma plain_make_ok m : plain_make (plain_code m) (plain_digest m) = Ok m.
Proof.
  destruct m as [c d H]. unfold plain_make. simpl. destruct (decide _) as [H'|H']; [|done].
  do 2 f_equal. apply proof_irrel.
Qed.

Lemma plain_decode (m : PlainMultihash) :
  (λ cd : Z * list byte, match plain_make cd.1 cd.2 with Ok m => Some m | _ => None end)
    (plain_code m, plain_digest m) = Some m.
Proof. cbn [fst snd]. by rewrite plain_make_ok. Qed.

#[export] Instance PlainMultihash_countable : Countable PlainMultihash :=
  inj_countable (λ m, (plain_code m, plain_digest m)) _ plain_decode.

#[export] Program Instance PeerId_countable `{Countable MH} : Countable (PeerId MH) :=
  inj_countable' multihash (λ m, {| multihash := m |}) _.
Next Obligation. by intros MH ? ? []. Qed.

#[export] Instance Plain_laws : MultihashLaws PlainMultihash.
Proof.
  split.
  - intros c d Hc Hd. simpl. unfold plain_make. destruct (decide _) as [H|H]; [by eexists|].
    destruct H. by apply bool_decide_pack.
  - done.
  - intros m. pose proof (plain_ok m) as Hok. apply bool_decide_unpack in Hok as [Hc Hd].
    unfold PEER_ID_MULTIHASH_SIZE in Hd. cbn [mh_from_bytes mh_to_bytes Plain_multihash].
    assert (is_u64 (Z.of_nat (length (plain_digest m)))) as Hl by u64_tac.
    rewrite read_uvarint_write by done. rewrite <- (length_uvarint _ Hc), drop_app_length.
    rewrite read_uvarint_write by done. rewrite <- (length_uvarint _ Hl).
    rewrite <- drop_drop, !drop_app_length, decide_True by done. apply plain_make_ok.
  - intros m. pose proof (plain_ok m) as Hok. by apply bool_decide_unpack in Hok.
  - intros b. cbn [mh_from_bytes Plain_multihash]. unfold plain_make.
    repeat (case_match || case_decide); done.
Qed.

(** ** Witnesses *)

(** The peer id of a 36-byte Ed25519 public key message, and one of a longer key. *)
Definition demo_key : list byte := [x08; x01; x12; x20] ++ repeat x07 32.
Definition demo_sha256 (_ : list byte) : list byte := repeat x5a 32.
Definition demo_mh : PlainMultihash :=
  {| plain_code := 0x12; plain_digest := repeat x5a 32; plain_ok := I |}.

Lemma peer_id_forms_witness :
  peer_from_str (to_cid_base32 {| multihash := demo_mh |}) = Ok {| multihash := demo_mh |}.
Proof. apply (peer_id_forms {| multihash := demo_mh |} []). intros _. reflexivity. Defined.

Lemma peer_id_from_key_witness :
  ∃ p : PeerId PlainMultihash,
    from_public_key_protobuf demo_sha256 demo_key = Ok p ∧ digest_bytes p = demo_key.
Proof.
  destruct (peer_id_from_key (MH:=PlainMultihash) demo_sha256 (λ _, eq_refl) demo_key)
    as (p & H1 & _ & H2 & _).
  exists p. split; [exact H1|exact H2].
Defined.

(** A peer id with another hash function is accepted by [from_bytes], but its display
    text is not accepted by [from_str], which takes it for a CID. *)
Example peer_id_other_hash_not_parsed :
  let p := {| multihash := {| plain_code := 0x16; plain_digest := repeat x5a 32; plain_ok := I |} |} in
  peer_from_bytes (peer_to_bytes p) = Ok p ∧
  peer_from_str (MH:=PlainMultihash) (to_string p) = Err (UnsupportedMultibase 0x57).
Proof. split; vm_compute; reflexivity. Qed.

(** [base58_value] truncates the character to a byte, so a non-ASCII character is taken
    for the base58 digit with the same low byte (U+0132 for [2] here). *)
Example base58_non_ascii_alias :
  decode_base58 (from_bytes [x32; xc4; xb2]) = decode_base58 (from_bytes [x32; x32]) ∧
  decode_base58 (from_bytes [x32; x32]) = Ok [x3b].
Proof. split; vm_compute; reflexivity. Qed.
