(* ===== verification/Keys.v ===== *)
(** * Public keys, keypairs and signed payloads ([crates/identity/src/key.rs],
      [ed25519.rs], [signed.rs])

    The deterministic protobuf form of public keys, of which peer ids are made, and
    signatures.  Ed25519 itself is the third-party crate [ed25519_dalek]:
    [Ed25519Api] names the functions the code calls and [Ed25519Laws] states their
    documented behaviour; [toy_ed25519] is a concrete instance. *)
From S2P Require Import Prelude Varint Multibase PeerId.
From Stdlib Require Import ZArith Strings.Byte Strings.String.
From stdpp Require Import base numbers list strings.

#[local] Open Scope Z_scope.

(** ** Public keys *)

Inductive KeyType : Type := Rsa | Ed25519 | Secp256k1 | Ecdsa.
#[export] Instance KeyType_eq_dec : EqDecision KeyType.
Proof. solve_decision. Defined.

(** The discriminants, [key_type as u64]. *)
Definition key_type_u64 (t : KeyType) : Z :=
  match t with Rsa => 0 | Ed25519 => 1 | Secp256k1 => 2 | Ecdsa => 3 end.

Inductive PublicKeyError : Type :=
  | EmptyInput
  | InvalidFieldTag (expected : byte) (found : option byte)
  | KeyVarint (e : VarintError)
  | UnknownKeyType (value : Z)
  | LengthOverflow
  | InvalidLength (expected_total : Z) (actual_total : nat).

(** [{:?}]. *)
Definition key_type_debug (t : KeyType) : string :=
  match t with Rsa => "Rsa" | Ed25519 => "Ed25519" | Secp256k1 => "Secp256k1" | Ecdsa => "Ecdsa" end.

#[export] Instance PublicKeyError_display : Display PublicKeyError := λ e,
  match e with
  | EmptyInput => "public key protobuf input is empty"
  | InvalidFieldTag expected found =>
      "invalid protobuf field tag: expected 0x" ++ hex02 expected ++ ", found " ++
      match found with
      | Some b => "Some(" ++ to_string (A:=Z) (byte_Z b) ++ ")"
      | None => "None"
      end
  | KeyVarint e => "invalid protobuf varint: " ++ to_string e
  | UnknownKeyType value => "unknown key type value: " ++ to_string (A:=Z) value
  | LengthOverflow => "protobuf length does not fit in usize"
  | InvalidLength expected_total actual_total =>
      "invalid protobuf length: expected total " ++ to_string (A:=Z) expected_total
      ++ " bytes, got " ++ to_string (A:=nat) actual_total
  end%string.

Definition key_type_try_from (value : Z) : res PublicKeyError KeyType :=
  if value =? 0 then Ok Rsa
  else if value =? 1 then Ok Ed25519
  else if value =? 2 then Ok Secp256k1
  else if value =? 3 then Ok Ecdsa
  else Err (UnknownKeyType value).

Record PublicKey : Type := { key_type : KeyType; key_data : list byte }.

(** [{:x}]: two digits per byte. *)
Definition lower_hex (k : PublicKey) : string := str_join EmptyString (hex02 <$> key_data k).

#[export] Instance PublicKey_display : Display PublicKey := λ k,
  (key_type_debug (key_type k) ++ ":" ++ lower_hex k)%string.

Definition encode_protobuf (k : PublicKey) : list byte :=
  let out := [x08] in
  let out := write_uvarint (key_type_u64 (key_type k)) out in
  let out := out ++ [x12] in
  let out := write_uvarint (Z.of_nat (length (key_data k))) out in
  out ++ key_data k.

(** [if input.get(idx).copied() != Some(expected) { return Err(..) }] *)
Definition expect_tag (input : list byte) (idx : nat) (expected : byte) : res PublicKeyError unit :=
  if decide (input !! idx = Some expected) then Ok ()
  else Err (InvalidFieldTag expected (input !! idx)).

(** [u64] values fit [usize] on the 64-bit targets, so [try_into] succeeds; the sum
    [idx + data_len] need not. *)
Definition decode_protobuf (overflow_checks : bool) (input : list byte) : res PublicKeyError PublicKey :=
  if decide (input = []) then Err EmptyInput
  else
    let idx := 0%nat in
    _ ← expect_tag input idx x08;
    let idx := S idx in
    '(key_type_raw, used) ← map_err KeyVarint (read_uvarint (drop idx input));
    let idx := (idx + used)%nat in
    key_type ← key_type_try_from key_type_raw;
    _ ← expect_tag input idx x12;
    let idx := S idx in
    '(data_len, used) ← map_err KeyVarint (read_uvarint (drop idx input));
    let idx := (idx + used)%nat in
    total ← usize_add overflow_checks (Z.of_nat idx) data_len;
    if decide (total ≠ Z.of_nat (length input))
    then Err (InvalidLength total (length input))
    else Ok {| key_type := key_type; key_data := drop idx input |}.

(** ** Signatures *)

Class Ed25519Api (VK : Type) := {
  (** [SigningKey::from_bytes(secret).verifying_key().to_bytes()] *)
  derive_public : list byte → list byte;
  (** [SigningKey::from_bytes(secret).sign(message).to_bytes()] *)
  ed_sign : list byte → list byte → list byte;
  (** [VerifyingKey::from_bytes] *)
  verifying_key : list byte → option VK;
  (** [verify_strict(..).is_ok()] *)
  verify_strict : VK → list byte → list byte → bool;
}.
#[global] Hint Mode Ed25519Api - : typeclass_instances.

Definition ED25519_SECRET_KEY_LENGTH : nat := 32.
Definition ED25519_PUBLIC_KEY_LENGTH : nat := 32.
Definition ED25519_SIGNATURE_LENGTH : nat := 64.

(** The public key of a keypair is a valid 32-byte key that accepts the keypair's
    signatures. *)
Class Ed25519Laws (VK : Type) `{!Ed25519Api VK} : Prop := {
  derive_public_length s : length (derive_public s) = ED25519_PUBLIC_KEY_LENGTH;
  ed_sign_length s msg : length (ed_sign s msg) = ED25519_SIGNATURE_LENGTH;
  verify_sign s msg : length s = ED25519_SECRET_KEY_LENGTH →
    ∃ vk, verifying_key (derive_public s) = Some vk ∧ verify_strict vk msg (ed_sign s msg) = true;
}.

Inductive VerifyError : Type :=
  | UnsupportedKeyType (t : KeyType)
  | InvalidEd25519PublicKeyLength (actual : nat)
  | InvalidEd25519PublicKey
  | InvalidSignature.

#[export] Instance VerifyError_display : Display VerifyError := λ e,
  match e with
  | UnsupportedKeyType t => "signature verification is unsupported for key type " ++ key_type_debug t
  | InvalidEd25519PublicKeyLength actual =>
      "invalid ed25519 public key length: expected 32, got " ++ to_string (A:=nat) actual
  | InvalidEd25519PublicKey => "invalid ed25519 public key bytes"
  | InvalidSignature => "signature verification failed"
  end%string.

Section signatures.
Context {VK : Type} `{!Ed25519Api VK}.
Context {MH : Type} `{!MultihashApi MH} (sha256 : list byte → list byte).

(** [signature] is an array of 64 bytes. *)
Definition key_verify (k : PublicKey) (message signature : list byte) : res VerifyError unit :=
  match key_type k with
  | Ed25519 =>
      if decide (length (key_data k) ≠ ED25519_PUBLIC_KEY_LENGTH)
      then Err (InvalidEd25519PublicKeyLength (length (key_data k)))
      else
        match verifying_key (key_data k) with
        | None => Err InvalidEd25519PublicKey
        | Some vk => if verify_strict vk message signature then Ok () else Err InvalidSignature
        end
  | other => Err (UnsupportedKeyType other)
  end.

(** [PeerId::from_public_key]. *)
Definition from_public_key (k : PublicKey) : res Empty_set (PeerId MH) :=
  from_public_key_protobuf sha256 (encode_protobuf k).

Record Ed25519Keypair : Type := { secret_key : list byte; public_key_bytes : list byte }.

Definition from_secret_key_bytes (secret : list byte) : Ed25519Keypair :=
  {| secret_key := secret; public_key_bytes := derive_public secret |}.

Definition keypair_public_key (kp : Ed25519Keypair) : PublicKey :=
  {| key_type := Ed25519; key_data := public_key_bytes kp |}.

Definition keypair_peer_id (kp : Ed25519Keypair) : res Empty_set (PeerId MH) :=
  from_public_key (keypair_public_key kp).

Definition keypair_sign (kp : Ed25519Keypair) (message : list byte) : list byte :=
  ed_sign (secret_key kp) message.

Record SignedBytes : Type := {
  signed_public_key : PublicKey;
  signed_payload : list byte;
  signed_signature : list byte;
}.

Definition sign_ed25519 (kp : Ed25519Keypair) (payload : list byte) : SignedBytes :=
  let signature := keypair_sign kp payload in
  {| signed_public_key := keypair_public_key kp; signed_payload := payload;
     signed_signature := signature |}.

Definition signed_verify (s : SignedBytes) : res VerifyError unit :=
  key_verify (signed_public_key s) (signed_payload s) (signed_signature s).

End signatures.

(** ** The protobuf form is canonical *)

Lemma encode_protobuf_eq k :
  encode_protobuf k =
    [x08] ++ write_uvarint (key_type_u64 (key_type k)) []
    ++ [x12] ++ write_uvarint (Z.of_nat (length (key_data k))) [] ++ key_data k.
Proof.
  unfold encode_protobuf. cbv zeta. rewrite write_uvarint_app, (write_uvarint_app _ [x08]).
  by rewrite <- !app_assoc.
Qed.

Lemma key_type_is_u64 t : is_u64 (key_type_u64 t).
Proof. by destruct t. Qed.

Lemma key_type_roundtrip t : key_type_try_from (key_type_u64 t) = Ok t.
Proof. by destruct t. Qed.

Lemma key_type_try_from_inv v t : key_type_try_from v = Ok t → v = key_type_u64 t.
Proof.
  unfold key_type_try_from.
  repeat match goal with
    | |- context [v =? ?n] => destruct (Z.eqb_spec v n) as [->|?]; [by intros [= <-]|]
    end. by intros [=].
Qed.

Lemma expect_tag_app pre b post : expect_tag (pre ++ b :: post) (length pre) b = Ok ().
Proof. unfold expect_tag. by rewrite decide_True by by rewrite list_lookup_middle. Qed.

Lemma expect_tag_inv input idx b :
  expect_tag input idx b = Ok () → drop idx input = b :: drop (S idx) input.
Proof. unfold expect_tag. case_decide as H; [|done]. intros _. by apply drop_S. Qed.

Lemma decode_encode_protobuf oc k :
  Z.of_nat (length (encode_protobuf k)) < u64_mod → decode_protobuf oc (encode_protobuf k) = Ok k.
Proof.
  intros Hl. rewrite encode_protobuf_eq in *. unfold decode_protobuf. rewrite decide_False by done.
  assert (is_u64 (Z.of_nat (length (key_data k)))) as Hu by (rewrite !length_app in Hl; u64_tac).
  pose proof (read_uvarint_write _ ([x12] ++ write_uvarint (Z.of_nat (length (key_data k))) [] ++ key_data k)
    (key_type_is_u64 (key_type k))) as Hr1.
  pose proof (read_uvarint_write _ (key_data k) Hu) as Hr2.
  rewrite <- (length_uvarint _ (key_type_is_u64 (key_type k))) in Hr1. rewrite <- (length_uvarint _ Hu) in Hr2.
  set (w1 := write_uvarint (key_type_u64 (key_type k)) []) in *.
  set (w2 := write_uvarint (Z.of_nat (length (key_data k))) []) in *.
  cbn [app] in *.
  assert (∀ l, expect_tag (x08 :: l) 0 x08 = Ok ()) as -> by done. cbn [mbind res_bind].
  change (drop 1 (x08 :: w1 ++ x12 :: w2 ++ key_data k)) with (w1 ++ x12 :: w2 ++ key_data k). rewrite Hr1.
  cbn [map_err mbind res_bind]. rewrite key_type_roundtrip. cbn [mbind res_bind].
  change (x08 :: w1 ++ x12 :: w2 ++ key_data k) with ((x08 :: w1) ++ x12 :: w2 ++ key_data k) in *.
  change (1 + length w1)%nat with (length (x08 :: w1)). rewrite expect_tag_app. cbn [mbind res_bind].
  rewrite (drop_app_ge' (x08 :: w1)) by lia. replace (S _ - _)%nat with 1%nat by lia.
  change (drop 1 (x12 :: w2 ++ key_data k)) with (w2 ++ key_data k). rewrite Hr2. cbn [map_err mbind res_bind].
  assert (Z.of_nat (S (length (x08 :: w1)) + length w2) + Z.of_nat (length (key_data k))
    = Z.of_nat (length ((x08 :: w1) ++ x12 :: w2 ++ key_data k))) as Heq.
  { rewrite !length_app. cbn [length]. rewrite length_app. lia. }
  unfold usize_add. rewrite Heq, (proj2 (Z.ltb_lt _ _)) by done. cbn [mbind res_bind].
  rewrite decide_False by (by intros ?). rewrite drop_app_ge' by lia.
  replace (S (length (x08 :: w1)) + length w2 - length (x08 :: w1))%nat with (S (length w2)) by lia.
  change (drop (S (length w2)) (x12 :: w2 ++ key_data k)) with (drop (length w2) (w2 ++ key_data k)).
  rewrite drop_app_length. by destruct k.
Qed.

Lemma decode_protobuf_inv oc b k :
  Z.of_nat (length b) < u64_mod → decode_protobuf oc b = Ok k → b = encode_protobuf k.
Proof.
  intros Hb. unfold decode_protobuf. case_decide; [done|].
  intros ([] & Ht1 & H1)%bind_Ok. apply expect_tag_inv in Ht1. rewrite drop_0 in Ht1.
  destruct (read_uvarint (drop 1 b)) as [[v u]| |] eqn:Hr1; [|done..]. cbn [map_err mbind res_bind] in H1.
  apply bind_Ok in H1 as (t & ->%key_type_try_from_inv & ([] & Ht2 & H2)%bind_Ok).
  apply expect_tag_inv in Ht2.
  destruct (read_uvarint (drop (S (1 + u)) b)) as [[len u2]| |] eqn:Hr2; [|done..].
  cbn [map_err mbind res_bind] in H2. apply bind_Ok in H2 as (total & Hadd & H2).
  case_decide as Htot; [done|]. injection H2 as <-. subst total.
  destruct (read_uvarint_inv _ _ _ Hr1) as (_ & Hu1 & _ & Hd1).
  destruct (read_uvarint_inv _ _ _ Hr2) as (Hv2 & Hu2 & Hle2 & Hd2).
  rewrite drop_drop in Hd1, Hd2. rewrite length_drop in Hle2.
  assert (S (1 + u) + u2 <= length b)%nat as Hi.
  { apply (f_equal length) in Ht2. rewrite length_drop in Ht2. cbn [length] in Ht2. lia. }
  assert (len = Z.of_nat (length b) - Z.of_nat (S (1 + u) + u2)) as Hlen.
  { revert Hadd Hi. generalize (S (1 + u) + u2)%nat as i. intros i Hadd Hi. unfold usize_add in Hadd.
    destruct (Z.ltb_spec (Z.of_nat i + len) u64_mod) as [Hlt|Hge]; [injection Hadd as Hadd; lia|].
    destruct oc; [done|]. exfalso.
    assert (wrap_u64 (Z.of_nat i + len) = Z.of_nat i + len - u64_mod) as Hw.
    { unfold wrap_u64. symmetry. apply (Z.mod_unique _ _ 1); u64_tac. }
    rewrite Hw in Hadd. injection Hadd as Hadd. u64_tac. }
  change (S (S (u + u2))) with (S (1 + u) + u2)%nat. generalize dependent (S (1 + u) + u2)%nat. intros i Hadd Hd2 Hi Hlen.
  assert (Z.of_nat (length (drop i b)) = len) as Hdl by (rewrite length_drop; lia).
  rewrite encode_protobuf_eq. cbn [key_type key_data]. rewrite Hdl.
  trans (x08 :: drop 1 b); [exact Ht1|]. rewrite Hd1. cbn [app]. f_equal. f_equal.
  change (1 + u)%nat with (S u) in *. rewrite Ht2. f_equal. exact Hd2.
Qed.

(** A key message up to the length of its key, which overflows [usize] when the bytes read
    so far are added to it. *)
Definition key_length_overflows (input : list byte) : Prop :=
  ∃ ty used len used', head input = Some x08 ∧ read_uvarint (drop 1 input) = Ok (ty, used) ∧ 0 <= ty <= 3 ∧
    input !! S used = Some x12 ∧ read_uvarint (drop (2 + used) input) = Ok (len, used') ∧
    u64_mod <= Z.of_nat (2 + used + used') + len.

(** The decoder unwinds on an overflowing length, and only with overflow checks. *)
Lemma decode_protobuf_panic oc input :
  decode_protobuf oc input = Panic ↔ oc = true ∧ key_length_overflows input.
Proof.
  unfold decode_protobuf, key_length_overflows, expect_tag. destruct input as [|b input]; [rewrite decide_True by done; naive_solver|].
  rewrite decide_False by done. cbn [lookup list_lookup head]. set (inp := b :: input).
  destruct (decide (Some b = Some x08)) as [Hb|Hb]; cbn [mbind res_bind]; [|naive_solver].
  pose proof (read_uvarint_no_panic (drop 1 inp)) as Hp1. destruct (read_uvarint (drop 1 inp)) as [[ty u]|e|] eqn:H1;
    cbn [map_err mbind res_bind]; [|naive_solver|done].
  assert (key_type_try_from ty ≠ Panic ∧ (0 <= ty <= 3 ↔ ∃ k, key_type_try_from ty = Ok k)) as [Hk Hty].
  { unfold key_type_try_from. split; [by repeat case_match|].
    destruct (Z.eqb_spec ty 0), (Z.eqb_spec ty 1), (Z.eqb_spec ty 2), (Z.eqb_spec ty 3); try lia;
      (split; [by eauto|by intros _; lia]) || (split; [lia|by intros [? [=]]]). }
  destruct (key_type_try_from ty) as [k|e|]; cbn [mbind res_bind]; [| |done]; cycle 1.
  { split; [done|]. intros (_ & ty' & ? & ? & ? & _ & [= <- <-] & [? [=]]%Hty & _). }
  destruct (decide (inp !! (1 + u)%nat = Some x12)) as [Ht|Ht]; cbn [mbind res_bind]; cycle 1.
  { split; [done|]. by intros (_ & ty' & ? & ? & ? & _ & [= <- <-] & _ & Ht' & _). }
  change (S (1 + u)) with (2 + u)%nat. pose proof (read_uvarint_no_panic (drop (2 + u) inp)) as Hp2.
  destruct (read_uvarint (drop (2 + u) inp)) as [[len u2]|e|] eqn:H2; cbn [map_err mbind res_bind]; [| |done]; cycle 1.
  { split; [done|]. intros (_ & ty' & ? & ? & ? & _ & [= <- <-] & _ & _ & H2' & _). congruence. }
  unfold usize_add. destruct (Z.ltb_spec (Z.of_nat (2 + u + u2) + len) u64_mod) as [Hlt|Hge]; cbn [mbind res_bind].
  { split; [by case_decide|]. intros (_ & ty' & ? & ? & ? & _ & [= <- <-] & _ & _ & H2' & Hge). rewrite H2 in H2'. simplify_eq. lia. }
  destruct oc; cbn [mbind res_bind]; [|split; [by case_decide|by intros [[=] _]]].
  split; [intros _|done]. split; [done|]. exists ty, u, len, u2. split_and!; try done; apply Hty; eauto.
Qed.

(** ** Properties *)

(** The protobuf form of public keys is canonical: a byte string decodes to a key
    exactly when it is the encoding of that key, so a key has one encoding, and, since
    peer ids are made from encodings, one peer id. *)
Theorem public_key_canonical oc b k :
  Z.of_nat (length b) < u64_mod → (decode_protobuf oc b = Ok k ↔ b = encode_protobuf k).
Proof.
  intros Hb. split; [by apply decode_protobuf_inv|]. intros ->. by apply decode_encode_protobuf.
Qed.

Lemma public_key_canonical_witness :
  decode_protobuf true demo_key = Ok {| key_type := Ed25519; key_data := repeat x07 32 |}.
Proof. apply (public_key_canonical true demo_key); reflexivity. Defined.

(** The length check adds attacker-controlled numbers: with overflow checks a key of
    thirteen bytes unwinds the decoder, which runs on keys received in certificates. *)
Example public_key_length_overflow :
  let b := [x08; x01; x12] ++ repeat xff 9 ++ [x01] in
  decode_protobuf true b = Panic ∧ decode_protobuf false b = Err (InvalidLength 12 13).
Proof. split; by vm_compute. Qed.

(** A keypair stands for one identity: its peer id is well-formed and carries the
    public key, which can be read back from it; whatever the keypair signs verifies
    against that key; and no key of another type, or of another length, verifies
    anything. *)
Lemma keypair_identity {VK} `{Ed25519Laws VK} {MH} `{MultihashLaws MH} sha256 oc secret payload k sig :
  (∀ b, length (sha256 b) = 32%nat) → length secret = ED25519_SECRET_KEY_LENGTH →
  let kp := from_secret_key_bytes secret in
  (∃ p : PeerId MH, keypair_peer_id sha256 kp = Ok p ∧ peer_ok p ∧
     decode_protobuf oc (digest_bytes p) = Ok (keypair_public_key kp)) ∧
  signed_verify (sign_ed25519 kp payload) = Ok () ∧
  (key_verify k payload sig = Ok () → key_type k = Ed25519 ∧ length (key_data k) = ED25519_PUBLIC_KEY_LENGTH).
Proof.
  intros Hsha Hs kp. split_and!.
  - destruct (from_public_key_protobuf_spec (MH:=MH) sha256 Hsha (encode_protobuf (keypair_public_key kp)))
      as (p & Hp & Hok & _ & Hd).
    assert (length (encode_protobuf (keypair_public_key kp)) = 36%nat) as Hl.
    { rewrite encode_protobuf_eq. cbn [key_type key_data keypair_public_key kp from_secret_key_bytes public_key_bytes].
      rewrite derive_public_length, !length_app, derive_public_length. done. }
    exists p. split_and!; [done..|]. rewrite decide_True in Hd by (rewrite Hl; lia). rewrite Hd.
    apply decode_encode_protobuf. rewrite Hl. done.
  - unfold signed_verify, key_verify. cbn. rewrite decide_False by (rewrite derive_public_length; by intros ?).
    destruct (verify_sign secret payload Hs) as (vk & -> & Hv). unfold keypair_sign. cbn. by rewrite Hv.
  - unfold key_verify. destruct (key_type k); try done. case_decide; [done|]. done.
Qed.

(** A stand-in for Ed25519 that satisfies the laws (and is not secure): the public key
    is the secret, the signature the first bytes of the message and the key. *)
#[export] Instance toy_ed25519 : Ed25519Api (list byte) := {
  derive_public s := take 32 (s ++ repeat x00 32);
  ed_sign s msg := take 32 (msg ++ repeat x00 32) ++ take 32 (s ++ repeat x00 32);
  verifying_key b := Some b;
  verify_strict vk msg sig := bool_decide (sig = take 32 (msg ++ repeat x00 32) ++ vk);
}.
#[export] Instance toy_ed25519_laws : Ed25519Laws (list byte).
Proof.
  split.
  - intros s. unfold derive_public, toy_ed25519. rewrite length_take, length_app, repeat_length.
    unfold ED25519_PUBLIC_KEY_LENGTH. lia.
  - intros s msg. unfold ed_sign, toy_ed25519, ED25519_SIGNATURE_LENGTH.
    rewrite length_app, !length_take, !length_app, repeat_length. lia.
  - intros s msg _. eexists. split; [done|]. by apply bool_decide_eq_true.
Qed.

Lemma keypair_identity_witness :
  ∃ p : PeerId PlainMultihash,
    keypair_peer_id demo_sha256 (from_secret_key_bytes (repeat x07 32)) = Ok p ∧
    decode_protobuf true (digest_bytes p) = Ok {| key_type := Ed25519; key_data := repeat x07 32 |} ∧
    signed_verify (sign_ed25519 (from_secret_key_bytes (repeat x07 32)) [x61]) = Ok ().
Proof.
  destruct (keypair_identity (VK:=list byte) (MH:=PlainMultihash) demo_sha256 true (repeat x07 32) [x61]
    {| key_type := Rsa; key_data := [] |} [] (λ _, eq_refl) eq_refl) as ((p & H1 & _ & H2) & H3 & _).
  exists p. split; [exact H1|]. split; [exact H2|exact H3].
Defined.
