(* ===== verification/Tls.v ===== *)
(** * libp2p TLS certificates ([crates/tls/src/verify.rs], [generate.rs], [pem.rs],
      [error.rs])

    A node proves its identity with a self-signed certificate: an extension carries its
    public key and a signature by that key over the certificate's own key.  The X.509,
    DER and P-256 code is the third-party crates [x509_cert], [der] and [p256]:
    [X509Api] names the functions the sources call, [X509Laws] states their documented
    behaviour, and [ToyX509] is a concrete instance. *)
From S2P Require Import Prelude Utf8 Varint Multibase PeerId Keys.
From Stdlib Require Import ZArith Strings.Byte Strings.Ascii Strings.String.
From stdpp Require Import base numbers list strings.

#[local] Open Scope Z_scope.

(** ** Errors *)

Inductive TlsError : Type :=
  | MissingExtension
  | InvalidExtension (reason : string)
  | SignatureVerification (reason : string)
  | InvalidPublicKey (reason : string)
  | InvalidSelfSignature
  | UnsupportedSignatureAlgorithm (oid : string)
  | Der (reason : string)
  | PeerIdMismatch (expected actual : string)
  | CertificateGeneration (reason : string).

#[export] Instance TlsError_display : Display TlsError := λ e,
  match e with
  | MissingExtension => "missing libp2p TLS extension (OID 1.3.6.1.4.1.53594.1.1)"
  | InvalidExtension r => "invalid libp2p TLS extension: " ++ r
  | SignatureVerification r => "extension signature verification failed: " ++ r
  | InvalidPublicKey r => "invalid public key in certificate extension: " ++ r
  | InvalidSelfSignature => "certificate self-signature verification failed"
  | UnsupportedSignatureAlgorithm oid => "unsupported certificate signature algorithm: " ++ oid
  | Der r => "DER encoding/decoding error: " ++ r
  | PeerIdMismatch expected actual => "peer id mismatch: expected " ++ expected ++ ", got " ++ actual
  | CertificateGeneration r => "certificate generation failed: " ++ r
  end%string.

(** A call of third-party code: its error, by its text, or its result. *)
Definition call {A} (r : string + A) : res string A :=
  match r with inl e => Err e | inr a => Ok a end.

(** Object identifiers, by their dotted text. *)
Definition LIBP2P_EXTENSION_OID : string := "1.3.6.1.4.1.53594.1.1".
Definition ECDSA_SHA256_OID : string := "1.2.840.10045.4.3.2".
Definition SIGNATURE_PREFIX : list byte := as_bytes "libp2p-tls-handshake:".

(** ** The third-party crates *)

Record BuilderProfile : Type := {
  get_issuer : string → string;
  get_subject : string;
  build_extensions : list (string * bool * list byte);
}.

(** [Cert], [Validity], [Bld]: certificates, validity periods and the certificate
    builder of [x509_cert]; [PK], [SG], [SK]: keys and signatures of [p256]; [RNG]: the
    random generator.  A DER reader is the bytes it has not read yet. *)
Class X509Api (Cert Validity Bld PK SG SK RNG : Type) := {
  cert_from_der : list byte → string + Cert;
  signature_algorithm_oid : Cert → string;
  tbs_signature_oid : Cert → string;
  extensions : Cert → option (list (string * list byte));
  spki_to_der : Cert → string + list byte;
  spki_raw_bytes : Cert → list byte;
  cert_signature : Cert → list byte;

  reader_new : list byte → string + list byte;
  (** the length of the value, and the reader after the header *)
  header_decode : list byte → string + (Z * list byte);
  (** [sequence]: the contents, and the reader after them *)
  sequence_decode : list byte → string + (list byte * list byte);
  octet_decode : list byte → string + (list byte * list byte);
  reader_finish : list byte → string + ();
  octet_encode : list byte → string + list byte;

  from_sec1_bytes : list byte → option PK;
  sig_from_der : list byte → option SG;
  ecdsa_verify : PK → list byte → SG → bool;

  sk_generate : RNG → RNG * SK;
  sk_verifying_key : SK → PK;
  to_public_key_der : PK → string + list byte;
  (** [SubjectPublicKeyInfoOwned::from_key], by its DER *)
  spki_from_key : PK → string + list byte;
  serial_new : list byte → string + list byte;
  builder_new : BuilderProfile → list byte → Validity → list byte → string + Bld;
  add_extension : Bld → string → bool → list byte → string + Bld;
  build : Bld → SK → string + Cert;
  cert_to_der : Cert → string + list byte;
  to_pkcs8_der : SK → string + list byte;
}.

Section tls.
Context {Cert Validity Bld PK SG SK RNG : Type} `{XA : !X509Api Cert Validity Bld PK SG SK RNG}.
Context {VK : Type} `{EA : !Ed25519Api VK}.
Context {MH : Type} `{MA : !MultihashApi MH} (sha256 : list byte → list byte).

(** ** Verification *)

(** [pk.len() - ..] and the sums are of lengths below [2^32] ([der::Length]). *)
Definition extract_tbs_der (cert_der : list byte) : res TlsError (list byte) :=
  reader ← map_err Der (call (reader_new cert_der));
  '(_, reader) ← map_err Der (call (header_decode reader));
  let remaining_before := Z.of_nat (length reader) in
  let tbs_start := Z.of_nat (length cert_der) - remaining_before in
  '(tbs_value_len, reader) ← map_err Der (call (header_decode reader));
  let remaining_after := Z.of_nat (length reader) in
  let tbs_header_len := remaining_before - remaining_after in
  let tbs_end := tbs_start + tbs_header_len + tbs_value_len in
  if Z.of_nat (length cert_der) <? tbs_end then Err (Der "TBS extends beyond certificate")
  else slice cert_der tbs_start tbs_end.

Definition verify_self_signature (cert_der : list byte) (cert : Cert) : res TlsError unit :=
  let sig_alg_oid := signature_algorithm_oid cert in
  if decide (sig_alg_oid ≠ ECDSA_SHA256_OID) then Err (UnsupportedSignatureAlgorithm sig_alg_oid)
  else if decide (tbs_signature_oid cert ≠ sig_alg_oid) then Err InvalidSelfSignature
  else
    tbs_der ← extract_tbs_der cert_der;
    verifying_key ← ok_or (from_sec1_bytes (spki_raw_bytes cert)) InvalidSelfSignature;
    signature ← ok_or (sig_from_der (cert_signature cert)) InvalidSelfSignature;
    if ecdsa_verify verifying_key tbs_der signature then Ok () else Err InvalidSelfSignature.

Definition decode_signed_key (der_bytes : list byte) : res string (list byte * list byte) :=
  reader ← call (reader_new der_bytes);
  '(seq, reader) ← call (sequence_decode reader);
  '(public_key, seq) ← call (octet_decode seq);
  '(signature, seq) ← call (octet_decode seq);
  _ ← call (reader_finish seq);
  _ ← call (reader_finish reader);
  Ok (public_key, signature).

Definition verify_host_signature (public_key : PublicKey) (message signature : list byte)
    : res TlsError unit :=
  match key_type public_key with
  | Ed25519 =>
      if decide (length signature ≠ ED25519_SIGNATURE_LENGTH)
      then Err (SignatureVerification
                  ("invalid Ed25519 signature length: expected 64, got " ++ to_string (A:=nat) (length signature)))
      else map_err (λ e, SignatureVerification (to_string e)) (key_verify public_key message signature)
  | other =>
      Err (SignatureVerification
             ("unsupported host key type for verification: " ++ key_type_debug other))
  end.

Definition verify_libp2p_certificate (overflow_checks : bool) (cert_der : list byte) : res TlsError (PeerId MH) :=
  cert ← map_err Der (call (cert_from_der cert_der));
  _ ← verify_self_signature cert_der cert;
  exts ← ok_or (extensions cert) MissingExtension;
  '(_, ext_bytes) ← ok_or (List.find (λ ext, bool_decide (ext.1 = LIBP2P_EXTENSION_OID)) exts) MissingExtension;
  '(public_key_bytes, signature_bytes) ← map_err InvalidExtension (decode_signed_key ext_bytes);
  libp2p_public_key ← map_err (λ e, InvalidPublicKey (to_string e)) (decode_protobuf overflow_checks public_key_bytes);
  spki_der ← map_err Der (call (spki_to_der cert));
  let message := SIGNATURE_PREFIX ++ spki_der in
  _ ← verify_host_signature libp2p_public_key message signature_bytes;
  map_err (Empty_set_rect (λ _, TlsError)) (from_public_key sha256 libp2p_public_key).

(** ** Generation *)

Definition Libp2pProfile : BuilderProfile := {|
  get_issuer subject := subject;
  get_subject := "O=libp2p.io,serialNumber=1";
  build_extensions := [];
|}.

(** The header of the sequence is written by hand. *)
Definition encode_signed_key (public_key signature : list byte) : res string (list byte) :=
  pk ← call (octet_encode public_key);
  sig ← call (octet_encode signature);
  let len_val := Z.of_nat (length pk) + Z.of_nat (length sig) in
  let buf := [x30] ++
    (if len_val <? 128 then [Z_byte len_val]
     else if len_val <? 256 then [x81; Z_byte len_val]
     else [x82; Z_byte (Z.shiftr len_val 8); Z_byte (Z.land len_val 0xff)]) in
  Ok (buf ++ pk ++ sig).

Definition generate_certificate_with_rng (keypair : Ed25519Keypair) (validity : Validity) (rng : RNG)
    : RNG * res TlsError (list byte * list byte) :=
  let gen {A} (r : string + A) := map_err CertificateGeneration (call r) in
  let '(rng, ephemeral_signing_key) := sk_generate rng in
  let ephemeral_verifying_key := sk_verifying_key ephemeral_signing_key in
  (rng,
    spki_der ← gen (to_public_key_der ephemeral_verifying_key);
    let sign_message := SIGNATURE_PREFIX ++ spki_der in
    let host_signature := keypair_sign keypair sign_message in
    let public_key_protobuf := encode_protobuf (keypair_public_key keypair) in
    signed_key_der ← map_err CertificateGeneration (encode_signed_key public_key_protobuf host_signature);
    serial_number ← gen (serial_new [x49; x96; x02; xd2]);
    spki_owned ← gen (spki_from_key ephemeral_verifying_key);
    builder ← gen (builder_new Libp2pProfile serial_number validity spki_owned);
    builder ← gen (add_extension builder LIBP2P_EXTENSION_OID false signed_key_der);
    cert ← gen (build builder ephemeral_signing_key);
    cert_der ← gen (cert_to_der cert);
    key_der ← gen (to_pkcs8_der ephemeral_signing_key);
    Ok (cert_der, key_der)).


(** ** Laws of the crates *)

(** The DER length of a value of up to 65535 bytes: the short form below 128, else the
    long form with as many bytes as the number needs. *)
Definition der_length (n : Z) : list byte :=
  if n <? 128 then [Z_byte n]
  else if n <? 256 then [x81; Z_byte n]
  else [x82; Z_byte (n / 256); Z_byte (n mod 256)].

Class X509Laws : Prop := {
  reader_new_small b : Z.of_nat (length b) < 2 ^ 16 → reader_new b = inr b;
  reader_new_inv b r : reader_new b = inr r → r = b;
  (** a header is read from the front, and lengths are not negative *)
  header_decode_inv r n r' : header_decode r = inr (n, r') → 0 <= n ∧ ∃ h, r = h ++ r';
  (** a value that is its header and as many bytes as it announces *)
  sequence_decode_ok c rest : Z.of_nat (length c) < 2 ^ 16 →
    sequence_decode ([x30] ++ der_length (Z.of_nat (length c)) ++ c ++ rest) = inr (c, rest);
  octet_roundtrip v e rest : octet_encode v = inr e → octet_decode (e ++ rest) = inr (v, rest);
  (** lengths are 32-bit numbers *)
  octet_decode_length r v r' : octet_decode r = inr (v, r') → Z.of_nat (length v) < 2 ^ 32;
  octet_length v e : octet_encode v = inr e → (length e <= length v + 6)%nat;
  (** a reader is finished when nothing is left to read *)
  reader_finish_spec r : reader_finish r = inr () ↔ r = [];
  (** the two forms of the subject's key agree *)
  spki_forms pk d d' : to_public_key_der pk = inr d → spki_from_key pk = inr d' → d = d';
  (** a built certificate parses back to what was put into it, and its signature is by
      the key over the first element of its outermost sequence *)
  build_parses profile serial validity spki b oid critical v b' sk c d :
    spki_from_key (sk_verifying_key sk) = inr spki → build_extensions profile = [] →
    builder_new profile serial validity spki = inr b → add_extension b oid critical v = inr b' →
    build b' sk = inr c → cert_to_der c = inr d →
    ∃ c', cert_from_der d = inr c' ∧ signature_algorithm_oid c' = ECDSA_SHA256_OID ∧
      tbs_signature_oid c' = ECDSA_SHA256_OID ∧ extensions c' = Some [(oid, v)] ∧
      spki_to_der c' = inr spki ∧ from_sec1_bytes (spki_raw_bytes c') = Some (sk_verifying_key sk) ∧
      ∃ outer inner value rest n sg,
        d = outer ++ inner ++ value ++ rest ∧ reader_new d = inr d ∧
        header_decode d = inr (n, inner ++ value ++ rest) ∧
        header_decode (inner ++ value ++ rest) = inr (Z.of_nat (length value), value ++ rest) ∧
        sig_from_der (cert_signature c') = Some sg ∧
        ecdsa_verify (sk_verifying_key sk) (inner ++ value) sg = true;
}.

Context `{XL : !X509Laws} `{EL : !Ed25519Laws VK} `{ML : !MultihashLaws MH}.
Context (sha256_length : ∀ b, length (sha256 b) = 32%nat).

Lemma call_Ok {A} (r : string + A) a : call r = Ok a ↔ r = inr a.
Proof. destruct r; naive_solver. Qed.

(** ** The extension *)

Lemma encode_signed_key_eq pk sig e :
  encode_signed_key pk sig = Ok e ↔
  ∃ epk esig, octet_encode pk = inr epk ∧ octet_encode sig = inr esig ∧
    e = [x30] ++ der_length (Z.of_nat (length (epk ++ esig))) ++ epk ++ esig.
Proof.
  assert (∀ epk esig : list byte, [x30] ++ der_length (Z.of_nat (length (epk ++ esig))) ++ epk ++ esig =
    ([x30] ++ (let n := Z.of_nat (length epk) + Z.of_nat (length esig) in
       if n <? 128 then [Z_byte n] else if n <? 256 then [x81; Z_byte n]
       else [x82; Z_byte (Z.shiftr n 8); Z_byte (Z.land n 255)])) ++ epk ++ esig) as Heq.
  { intros epk esig. unfold der_length. rewrite length_app, Nat2Z.inj_add.
    change 255 with (Z.ones 8). rewrite Z.land_ones, Z.shiftr_div_pow2 by lia. by rewrite <- app_assoc. }
  unfold encode_signed_key. split.
  - intros (epk & ?%call_Ok & (esig & ?%call_Ok & [= <-])%bind_Ok)%bind_Ok. exists epk, esig.
    split_and!; [done..|]. by rewrite Heq.
  - intros (epk & esig & -> & -> & ->). rewrite Heq. done.
Qed.

(** What the hand-written encoder produces, the decoder reads back, for keys and
    signatures of up to 32 KiB. *)
Lemma signed_key_roundtrip pk sig e :
  Z.of_nat (length pk) + Z.of_nat (length sig) < 2 ^ 15 → encode_signed_key pk sig = Ok e → decode_signed_key e = Ok (pk, sig).
Proof.
  intros Hl (epk & esig & Hpk & Hsig & ->)%encode_signed_key_eq.
  pose proof (octet_length _ _ Hpk) as Lpk. pose proof (octet_length _ _ Hsig) as Lsig.
  assert (Z.of_nat (length (epk ++ esig)) < 2 ^ 15 + 16) as Hlen by (rewrite length_app; lia).
  unfold decode_signed_key. rewrite reader_new_small; cycle 1.
  { rewrite (length_app [_]), (length_app (der_length _)). generalize dependent (length (epk ++ esig)). intros n Hn.
    unfold der_length. repeat case_match; cbn [length]; lia. }
  cbn [call mbind res_bind].
  rewrite <- (app_nil_r (epk ++ esig)) at 2. rewrite sequence_decode_ok by lia. cbn [call mbind res_bind].
  rewrite (octet_roundtrip _ _ esig Hpk). cbn [call mbind res_bind].
  rewrite <- (app_nil_r esig), (octet_roundtrip _ _ [] Hsig). cbn [call mbind res_bind].
  by rewrite (proj2 (reader_finish_spec [])).
Qed.

(** [ext] is a sequence of two octet strings, and nothing follows the second of them or
    the sequence. *)
Definition signed_key (ext public_key signature : list byte) : Prop :=
  ∃ seq rest, reader_new ext = inr ext ∧ sequence_decode ext = inr (seq, []) ∧
    octet_decode seq = inr (public_key, rest) ∧ octet_decode rest = inr (signature, []).

Lemma decode_signed_key_exact ext pk sig : decode_signed_key ext = Ok (pk, sig) ↔ signed_key ext pk sig.
Proof.
  unfold decode_signed_key, signed_key. split.
  - intros (r & Hr%call_Ok & ([seq r'] & Hq%call_Ok & H)%bind_Ok)%bind_Ok. pose proof (reader_new_inv _ _ Hr) as ->.
    apply bind_Ok in H as ([pk' s1] & H1%call_Ok & ([sig' s2] & H2%call_Ok & ([] & H3%call_Ok & ([] & H4%call_Ok & [= -> ->])
      %bind_Ok)%bind_Ok)%bind_Ok).
    apply reader_finish_spec in H3 as ->. apply reader_finish_spec in H4 as ->. by exists seq, s1.
  - intros (seq & rest & -> & Hq & H1 & H2). cbn [call mbind res_bind]. rewrite Hq. cbn [call mbind res_bind].
    rewrite H1. cbn [call mbind res_bind]. rewrite H2. cbn [call mbind res_bind].
    by rewrite (proj2 (reader_finish_spec [])).
Qed.

(** ** The signed part of the certificate *)

(** [tbs] is the whole first element, header and value, of what the outermost header of
    the certificate encloses. *)
Definition first_element (cert_der tbs : list byte) : Prop :=
  ∃ outer inner value rest n, reader_new cert_der = inr cert_der ∧ cert_der = outer ++ inner ++ value ++ rest ∧
    header_decode cert_der = inr (n, inner ++ value ++ rest) ∧
    header_decode (inner ++ value ++ rest) = inr (Z.of_nat (length value), value ++ rest) ∧ tbs = inner ++ value.

Lemma extract_tbs_der_no_panic cert_der : extract_tbs_der cert_der ≠ Panic.
Proof.
  unfold extract_tbs_der. destruct (reader_new cert_der) as [|r] eqn:Er; [done|]. cbn [call map_err mbind res_bind].
  apply reader_new_inv in Er as ->. destruct (header_decode cert_der) as [|[n r1]] eqn:E1; [done|].
  cbn [call map_err mbind res_bind]. destruct (header_decode_inv _ _ _ E1) as (_ & h1 & ->).
  destruct (header_decode r1) as [|[n2 r2]] eqn:E2; [done|]. cbn [call map_err mbind res_bind].
  destruct (header_decode_inv _ _ _ E2) as (Hn2 & h2 & ->). case_match eqn:Hlt; [done|].
  apply Z.ltb_ge in Hlt. unfold slice. rewrite !length_app in *.
  rewrite (proj2 (Z.leb_le _ _)), (proj2 (Z.leb_le _ _)) by lia. done.
Qed.

Lemma extract_tbs_der_ok outer inner value rest n :
  let d := outer ++ inner ++ value ++ rest in
  reader_new d = inr d → header_decode d = inr (n, inner ++ value ++ rest) →
  header_decode (inner ++ value ++ rest) = inr (Z.of_nat (length value), value ++ rest) →
  extract_tbs_der d = Ok (inner ++ value).
Proof.
  intros d Hr H1 H2. unfold extract_tbs_der. rewrite Hr. cbn [call map_err mbind res_bind]. rewrite H1.
  cbn [call map_err mbind res_bind]. rewrite H2. cbn [call map_err mbind res_bind]. unfold d.
  case_match eqn:Hlt; [apply Z.ltb_lt in Hlt; rewrite !length_app in Hlt; lia|].
  rewrite (app_assoc inner). rewrite <- (slice_app (E:=TlsError) outer (inner ++ value) rest).
  f_equal; rewrite !length_app; lia.
Qed.

Lemma extract_tbs_der_exact cert_der tbs : extract_tbs_der cert_der = Ok tbs ↔ first_element cert_der tbs.
Proof.
  split; [|intros (outer & inner & value & rest & n & Hr & -> & H1 & H2 & ->); by eapply extract_tbs_der_ok].
  unfold extract_tbs_der. destruct (reader_new cert_der) as [|r] eqn:Er; [done|]. cbn [call map_err mbind res_bind].
  pose proof (reader_new_inv _ _ Er) as ->. destruct (header_decode cert_der) as [|[n r1]] eqn:E1; [done|].
  cbn [call map_err mbind res_bind]. destruct (header_decode_inv _ _ _ E1) as (_ & outer & ->).
  destruct (header_decode r1) as [|[m r2]] eqn:E2; [done|]. cbn [call map_err mbind res_bind].
  destruct (header_decode_inv _ _ _ E2) as (Hm & inner & ->). case_match eqn:Hlt; [done|]. apply Z.ltb_ge in Hlt.
  rewrite !length_app in Hlt. assert (∃ value rest, r2 = value ++ rest ∧ m = Z.of_nat (length value)) as (value & rest & -> & ->).
  { exists (take (Z.to_nat m) r2), (drop (Z.to_nat m) r2). rewrite take_drop, length_take. split; [done|lia]. }
  intros Hs. exists outer, inner, value, rest, n. split_and!; [done..|].
  rewrite (app_assoc inner value) in Hs.
  pose proof (slice_app (E:=TlsError) outer (inner ++ value) rest) as Hx. enough (Ok tbs = Ok (E:=TlsError) (inner ++ value)) as [=] by done.
  rewrite <- Hs, <- Hx. f_equal; rewrite !length_app; lia.
Qed.

(** ** The identity a certificate proves *)

(** The certificate is signed by its own key: the signature is one of the bytes of the
    first element of its outermost sequence. *)
Definition self_signed (cert_der : list byte) (cert : Cert) : Prop :=
  signature_algorithm_oid cert = ECDSA_SHA256_OID ∧ tbs_signature_oid cert = ECDSA_SHA256_OID ∧
  ∃ tbs vk sg, first_element cert_der tbs ∧ from_sec1_bytes (spki_raw_bytes cert) = Some vk ∧
    sig_from_der (cert_signature cert) = Some sg ∧ ecdsa_verify vk tbs sg = true.

(** [k] is a valid Ed25519 key and [sig] its signature of [message]. *)
Definition host_signed (k : PublicKey) (message sig : list byte) : Prop :=
  key_type k = Ed25519 ∧ length (key_data k) = ED25519_PUBLIC_KEY_LENGTH ∧ length sig = ED25519_SIGNATURE_LENGTH ∧
  ∃ vk, verifying_key (key_data k) = Some vk ∧ verify_strict vk message sig = true.

(** The first libp2p extension of the certificate. *)
Definition libp2p_extension (cert : Cert) (ext : list byte) : Prop :=
  ∃ before after, extensions cert = Some (before ++ (LIBP2P_EXTENSION_OID, ext) :: after) ∧
    Forall (λ e, e.1 ≠ LIBP2P_EXTENSION_OID) before.

(** What the specification of libp2p TLS asks of a certificate that proves the
    identity of the holder of [k]. *)
Definition certifies (cert_der : list byte) (k : PublicKey) : Prop :=
  ∃ cert ext sig spki,
    cert_from_der cert_der = inr cert ∧ self_signed cert_der cert ∧ libp2p_extension cert ext ∧
    signed_key ext (encode_protobuf k) sig ∧ spki_to_der cert = inr spki ∧
    host_signed k (SIGNATURE_PREFIX ++ spki) sig.

Lemma verify_self_signature_Ok cert_der cert :
  verify_self_signature cert_der cert = Ok () ↔ self_signed cert_der cert.
Proof.
  unfold verify_self_signature, self_signed. case_decide as H1; [naive_solver|].
 rewrite H1. case_decide as H2; [naive_solver|].
  split.
  - intros (tbs & Ht%extract_tbs_der_exact & (vk & Hv & (sg & Hs & Hif)%bind_Ok)%bind_Ok)%bind_Ok.
    destruct (from_sec1_bytes _) as [vk'|] eqn:Ev; [|done]. destruct (sig_from_der _) as [sg'|] eqn:Es; [|done].
    cbn in Hv, Hs. simplify_eq. split_and!; [done..|]. exists tbs, vk, sg. split_and!; try done. by case_match.
  - intros (_ & _ & tbs & vk & sg & ->%extract_tbs_der_exact & -> & -> & Hv). cbn. by rewrite Hv.
Qed.

Lemma verify_host_signature_Ok k message sig :
  verify_host_signature k message sig = Ok () ↔ host_signed k message sig.
Proof.
  unfold verify_host_signature, host_signed, key_verify.
  destruct (key_type k); try (split; [done|by intros [? _]]).
  case_decide as H1; [naive_solver|]. case_decide as H2; [naive_solver|].
  destruct (verifying_key (key_data k)) as [vk|]; [|naive_solver].
  destruct (verify_strict vk message sig) eqn:E; [naive_solver|]. split; [done|]. naive_solver congruence.
Qed.

Lemma find_extension exts oid ext :
  List.find (λ e, bool_decide (e.1 = LIBP2P_EXTENSION_OID)) exts = Some (oid, ext) ↔
  oid = LIBP2P_EXTENSION_OID ∧ ∃ before after, exts = before ++ (oid, ext) :: after ∧
    Forall (λ e : string * list byte, e.1 ≠ LIBP2P_EXTENSION_OID) before.
Proof.
  split.
  - induction exts as [|[o e] exts IH]; [done|]. cbn [List.find fst].
    case_bool_decide as Ho; [intros [= <- <-]; split; [done|]; by exists [], exts|].
    intros (-> & before & after & -> & Hb)%IH. split; [done|]. exists ((o, e) :: before), after.
    split; [done|]. by constructor.
  - intros (-> & before & after & -> & Hb). induction Hb as [|[o e] before Ho _ IH]; cbn [app List.find fst].
    + by rewrite bool_decide_true.
    + by rewrite bool_decide_false.
Qed.

Lemma decode_signed_key_length ext pk sig :
  decode_signed_key ext = Ok (pk, sig) → Z.of_nat (length pk) < u64_mod.
Proof.
  unfold decode_signed_key. intros (r & _ & ([seq r'] & _ & ([pk' seq'] & Hpk%call_Ok & H)%bind_Ok)%bind_Ok)%bind_Ok.
  apply octet_decode_length in Hpk. apply bind_Ok in H as ([? ?] & _ & (_ & _ & (_ & _ & [= <- <-])%bind_Ok)%bind_Ok).
  change u64_mod with (2 ^ 64). lia.
Qed.

Lemma length_encode_ed25519 k : key_type k = Ed25519 → length (key_data k) = ED25519_PUBLIC_KEY_LENGTH →
  length (encode_protobuf k) = 36%nat.
Proof. intros Ht Hl. rewrite encode_protobuf_eq, Ht, !length_app, Hl. done. Qed.

(** The peer id of an Ed25519 key contains the key. *)
Lemma from_ed25519_key k : key_type k = Ed25519 → length (key_data k) = ED25519_PUBLIC_KEY_LENGTH →
  ∃ p : PeerId MH, from_public_key sha256 k = Ok p ∧ peer_ok p ∧ digest_bytes p = encode_protobuf k.
Proof.
  intros Ht Hl. destruct (from_public_key_protobuf_spec (MH:=MH) sha256 sha256_length (encode_protobuf k))
    as (p & Hp & Hok & _ & Hd). exists p. split_and!; [done..|]. rewrite Hd.
  by rewrite decide_True by (rewrite length_encode_ed25519 by done; lia).
Qed.

Lemma verify_certifies oc cert_der p :
  verify_libp2p_certificate oc cert_der = Ok p ↔ ∃ k, certifies cert_der k ∧ from_public_key sha256 k = Ok p.
Proof.
  unfold verify_libp2p_certificate, certifies. split.
  - intros (cert & Hc & ([] & Hself%verify_self_signature_Ok & (exts & He & H)%bind_Ok)%bind_Ok)%bind_Ok.
    destruct (cert_from_der cert_der) as [|cert'] eqn:Ec; [done|]. injection Hc as <-.
    destruct (extensions cert') as [exts'|] eqn:Ee; [|done]. injection He as <-.
    apply bind_Ok in H as ([oid ext] & Hf & ([pk sig] & Hd & (k & Hk & (spki & Hs & ([] & Hh & Hp)%bind_Ok)%bind_Ok)%bind_Ok)%bind_Ok).
    destruct (List.find _ _) as [[oid' ext']|] eqn:Ef; [|done]. injection Hf as -> ->.
    apply find_extension in Ef as (-> & before & after & -> & Hb).
    destruct (decode_signed_key ext) as [[pk' sig']| |] eqn:Ed; [|done..]. injection Hd as -> ->.
    destruct (decode_protobuf oc pk) as [k'| |] eqn:Ek; [|done..]. injection Hk as ->.
    destruct (spki_to_der cert') as [|spki'] eqn:Es; [done|]. injection Hs as ->.
    apply verify_host_signature_Ok in Hh.
    apply decode_protobuf_inv in Ek; [|by eapply decode_signed_key_length]. subst pk.
    exists k. split; [|by destruct (from_public_key sha256 k) as [|[]|]; simplify_eq/=].
    apply decode_signed_key_exact in Ed.
    exists cert', ext, sig, spki. split_and!; try done; try by apply Hself. by exists before, after.
  - intros (k & (cert & ext & sig & spki & -> & Hself & (before & after & Hext & Hb) & Hd%decode_signed_key_exact & Hs & Hh) & Hp).
    apply verify_self_signature_Ok in Hself. cbn [call map_err mbind res_bind]. rewrite Hself, Hext.
    cbn [ok_or mbind res_bind]. rewrite (proj2 (find_extension _ LIBP2P_EXTENSION_OID ext)) by (split; [done|]; by exists before, after).
    cbn [ok_or mbind res_bind]. rewrite Hd. cbn [map_err mbind res_bind].
    rewrite decode_encode_protobuf by (by eapply decode_signed_key_length). cbn [map_err mbind res_bind].
    rewrite Hs. cbn [call map_err mbind res_bind]. apply verify_host_signature_Ok in Hh. rewrite Hh.
    cbn [mbind res_bind]. by rewrite Hp.
Qed.

(** Verification unwinds only where the key decoder does. *)
Lemma verify_no_panic cert_der : verify_libp2p_certificate false cert_der ≠ Panic.
Proof.
  unfold verify_libp2p_certificate, verify_self_signature, decode_signed_key, verify_host_signature.
  destruct (cert_from_der _) as [|cert]; [done|]. cbn [call map_err mbind res_bind].
  apply bind_no_panic.
  { repeat case_decide; try done. apply bind_no_panic; [apply extract_tbs_der_no_panic|]. intros tbs _.
    destruct (from_sec1_bytes _); [|done]. destruct (sig_from_der _); [|done]. cbn. by case_match. }
  intros [] _. destruct (extensions cert) as [exts|]; [|done]. cbn [ok_or mbind res_bind].
  destruct (List.find _ _) as [[oid ext]|]; [|done]. cbn [ok_or mbind res_bind].
  apply bind_no_panic.
  { apply map_err_no_panic. destruct (reader_new _); [done|]. cbn.
    destruct (sequence_decode _) as [|[? ?]]; [done|]. cbn. destruct (octet_decode _) as [|[? seq]]; [done|]. cbn.
    destruct (octet_decode seq) as [|[? seq']]; [done|]. cbn [call mbind res_bind].
    destruct (reader_finish seq'); [done|]. cbn [call mbind res_bind]. by destruct (reader_finish _). }
  intros [pk sig] _. apply bind_no_panic.
  { apply map_err_no_panic. intros [? _]%decode_protobuf_panic. done. }
  intros k _. destruct (spki_to_der cert) as [|spki]; [done|]. cbn [call map_err mbind res_bind].
  apply bind_no_panic.
  { destruct (key_type k) eqn:Ek; try done. case_decide; [done|]. apply map_err_no_panic. unfold key_verify. rewrite Ek.
    case_decide; [done|]. case_match; [|done]. by case_match. }
  intros [] _. apply map_err_no_panic. unfold from_public_key.
  destruct (from_public_key_protobuf_spec (MH:=MH) sha256 sha256_length (encode_protobuf k)) as (p & -> & _). done.
Qed.

(** ** Properties *)

(** C9. Certificate verification accepts exactly the certificates that prove an
    identity: it returns [p] if and only if the certificate is signed by its own key over
    the exact bytes of the first element of its outermost sequence, its first libp2p
    extension is a sequence of two octet strings with nothing after them, and they hold
    the canonical encoding of a valid Ed25519 key and that key's 64-byte signature over
    the certificate's key, and [p] is the peer id of that key, which can be read off
    [p].  Without overflow checks it returns on every input. *)
Theorem tls_verify_exact oc cert_der p :
  (verify_libp2p_certificate oc cert_der = Ok p ↔
     ∃ k, certifies cert_der k ∧ from_public_key sha256 k = Ok p) ∧
  (∀ k, certifies cert_der k → from_public_key sha256 k = Ok p →
     peer_ok p ∧ digest_bytes p = encode_protobuf k) ∧
  verify_libp2p_certificate false cert_der ≠ Panic.
Proof.
  split_and!; [apply verify_certifies| |apply verify_no_panic].
  intros k (cert & ext & sig & spki & _ & _ & _ & _ & _ & Ht & Hl & _) Hp.
  destruct (from_ed25519_key k Ht Hl) as (p' & Hp' & Hok & Hd). rewrite Hp in Hp'. by injection Hp' as <-.
Qed.

Lemma generated_certifies secret validity rng rng' cert_der key_der :
  length secret = ED25519_SECRET_KEY_LENGTH →
  generate_certificate_with_rng (from_secret_key_bytes secret) validity rng = (rng', Ok (cert_der, key_der)) →
  certifies cert_der (keypair_public_key (from_secret_key_bytes secret)).
Proof.
  intros Hs. unfold generate_certificate_with_rng. destruct (sk_generate rng) as [rng1 sk]. set (kp := from_secret_key_bytes secret).
  intros [= _ H].
  apply bind_Ok in H as (spki & H1 & (ext & H2 & (serial & H3 & (spki' & H4 & (b & H5 & (b' & H6 & (c & H7 & (d & H8 & (kd & H9 & [= <- <-])
    %bind_Ok)%bind_Ok)%bind_Ok)%bind_Ok)%bind_Ok)%bind_Ok)%bind_Ok)%bind_Ok).
  destruct (to_public_key_der _) as [|spki1] eqn:E1; [done|]. injection H1 as ->.
  destruct (encode_signed_key _ _) as [ext1| |] eqn:E2; [|done..]. injection H2 as ->.
  destruct (spki_from_key _) as [|spki2] eqn:E4; [done|]. injection H4 as ->.
  destruct (builder_new _ _ _ _) as [|b1] eqn:E5; [done|]. injection H5 as ->.
  destruct (add_extension _ _ _ _) as [|b2] eqn:E6; [done|]. injection H6 as ->.
  destruct (build _ _) as [|c1] eqn:E7; [done|]. injection H7 as ->.
  destruct (cert_to_der _) as [|d1] eqn:E8; [done|]. injection H8 as ->.
  pose proof (spki_forms _ _ _ E1 E4) as ->.
  destruct (build_parses Libp2pProfile _ _ _ _ _ _ _ _ _ _ _ E4 eq_refl E5 E6 E7 E8)
    as (c' & Hc & Ho & Ho' & Hext & Hsp & Hpk & outer & inner & value & rest & n & sg & -> & Hr & Hh1 & Hh2 & Hsg & Hv).
  assert (key_type (keypair_public_key kp) = Ed25519 ∧ length (key_data (keypair_public_key kp)) = ED25519_PUBLIC_KEY_LENGTH)
    as [Ht Hl] by (split; [done|apply derive_public_length]).
  exists c', ext, (keypair_sign kp (SIGNATURE_PREFIX ++ spki')), spki'. split_and!; try done.
  - split_and!; [done..|]. exists (inner ++ value), (sk_verifying_key sk), sg. split_and!; try done.
    by exists outer, inner, value, rest, n.
  - by exists [], [].
  - apply decode_signed_key_exact. eapply signed_key_roundtrip; [|done]. rewrite length_encode_ed25519 by done. unfold keypair_sign.
    rewrite ed_sign_length. done.
  - split_and!; try done; [apply ed_sign_length|]. destruct (verify_sign secret (SIGNATURE_PREFIX ++ spki') Hs) as (vk & Hvk & Hver).
    by exists vk.
Qed.

(** C17. A generated certificate proves its owner's identity: whatever the host key,
    validity and random generator, a certificate made by [generate_certificate_with_rng]
    passes [verify_libp2p_certificate] with the peer id of the host keypair. *)
Theorem certificate_roundtrip oc secret validity rng rng' cert_der key_der :
  length secret = ED25519_SECRET_KEY_LENGTH →
  generate_certificate_with_rng (from_secret_key_bytes secret) validity rng = (rng', Ok (cert_der, key_der)) →
  ∃ p : PeerId MH, keypair_peer_id sha256 (from_secret_key_bytes secret) = Ok p ∧
    verify_libp2p_certificate oc cert_der = Ok p.
Proof.
  intros Hs Hg. pose proof (generated_certifies _ _ _ _ _ _ Hs Hg) as Hc.
  destruct (from_ed25519_key (keypair_public_key (from_secret_key_bytes secret))) as (p & Hp & _);
    [done|apply derive_public_length|].
  exists p. split; [done|]. apply verify_certifies. by eexists.
Qed.

End tls.

(** ** A concrete instance

    Small certificates in DER: a sequence of a sequence (key, extension id, extension
    value) and a signature, with one-byte keys that sign by naming themselves. *)

Definition malformed : string := "malformed".

Definition der_read_length (r : list byte) : option (Z * list byte) :=
  match r with
  | [] => None
  | b :: r =>
      if byte_Z b <? 128 then Some (byte_Z b, r)
      else match b, r with
           | x81, n :: r => Some (byte_Z n, r)
           | x82, h :: l :: r => Some (byte_Z h * 256 + byte_Z l, r)
           | _, _ => None
           end
  end.

Lemma der_read_der_length n rest : 0 <= n < 2 ^ 16 → der_read_length (der_length n ++ rest) = Some (n, rest).
Proof.
  intros Hn. unfold der_length. destruct (Z.ltb_spec n 128) as [H|H].
  { cbn. rewrite byte_Z_Z_byte_small by lia. by rewrite (proj2 (Z.ltb_lt _ _)). }
  destruct (Z.ltb_spec n 256) as [H'|H']; cbn.
  { change (byte_Z x81 <? 128) with false. cbn. by rewrite byte_Z_Z_byte_small by lia. }
  change (byte_Z x82 <? 128) with false. cbn. rewrite !byte_Z_Z_byte_small by (try apply Z.mod_pos_bound; try split; try apply Z.div_pos; try apply Z.div_lt_upper_bound; lia).
  do 2 f_equal. pose proof (Z.div_mod n 256). lia.
Qed.

Lemma der_read_length_inv r n r' : der_read_length r = Some (n, r') → 0 <= n ∧ ∃ h, r = h ++ r'.
Proof.
  destruct r as [|b r]; [done|]. cbn. pose proof (byte_Z_range b).
  case_match; [intros [= <- <-]; split; [lia|]; by exists [b]|].
  destruct b; try done; destruct r as [|h r]; try done.
  - intros [= <- <-]. pose proof (byte_Z_range h). split; [lia|]. by exists [x81; h].
  - destruct r as [|l r]; [done|]. intros [= <- <-]. pose proof (byte_Z_range h). pose proof (byte_Z_range l).
    split; [lia|]. by exists [x82; h; l].
Qed.

(** A value with its tag: the contents and what follows. *)
Definition der_read (tag : byte) (r : list byte) : string + (list byte * list byte) :=
  match r with
  | [] => inl malformed
  | t :: r =>
      if decide (t = tag) then
        match der_read_length r with
        | Some (n, r) =>
            if Z.of_nat (length r) <? n then inl malformed
            else if 2 ^ 16 <=? n then inl malformed
            else inr (take (Z.to_nat n) r, drop (Z.to_nat n) r)
        | None => inl malformed
        end
      else inl malformed
  end.
Definition der_write (tag : byte) (v : list byte) : string + list byte :=
  if Z.of_nat (length v) <? 2 ^ 12 then inr ([tag] ++ der_length (Z.of_nat (length v)) ++ v)
  else inl malformed.

Lemma der_read_ok tag v rest : Z.of_nat (length v) < 2 ^ 16 →
  der_read tag ([tag] ++ der_length (Z.of_nat (length v)) ++ v ++ rest) = inr (v, rest).
Proof.
  intros Hv. cbn [der_read app]. rewrite decide_True by done. rewrite der_read_der_length by lia.
  rewrite length_app, (proj2 (Z.ltb_ge _ _)), (proj2 (Z.leb_gt _ _)) by lia.
  by rewrite Nat2Z.id, take_app_length, drop_app_length.
Qed.

Record ToyCert : Type := { tc_key : byte; tc_oid : string; tc_ext : list byte; tc_sig : list byte }.
Record ToyBuilder : Type := { tb_spki : list byte; tb_exts : list (string * list byte) }.

Definition toy_cert_to_der (c : ToyCert) : string + list byte :=
  match der_write x04 (as_bytes (tc_oid c)), der_write x04 (tc_ext c) with
  | inr oid, inr ext =>
      match der_write x30 ([tc_key c] ++ oid ++ ext) with
      | inr tbs => der_write x30 (tbs ++ tc_sig c)
      | inl e => inl e
      end
  | inl e, _ | _, inl e => inl e
  end.

Definition toy_cert_from_der (d : list byte) : string + ToyCert :=
  match der_read x30 d with
  | inr (body, []) =>
      match der_read x30 body with
      | inr (key :: tbs, sig) =>
          match der_read x04 tbs with
          | inr (oid, tbs) =>
              match der_read x04 tbs with
              | inr (ext, []) =>
                  inr {| tc_key := key; tc_oid := from_bytes oid; tc_ext := ext; tc_sig := sig |}
              | _ => inl malformed
              end
          | _ => inl malformed
          end
      | _ => inl malformed
      end
  | _ => inl malformed
  end.

#[export] Instance ToyX509 : X509Api ToyCert unit ToyBuilder byte (list byte) byte unit := {
  cert_from_der := toy_cert_from_der;
  signature_algorithm_oid _ := ECDSA_SHA256_OID;
  tbs_signature_oid _ := ECDSA_SHA256_OID;
  extensions c := Some [(tc_oid c, tc_ext c)];
  spki_to_der c := inr [tc_key c];
  spki_raw_bytes c := [tc_key c];
  cert_signature := tc_sig;
  reader_new b := inr b;
  header_decode r :=
    match r with
    | [] => inl malformed
    | _ :: r => match der_read_length r with Some x => inr x | None => inl malformed end
    end;
  sequence_decode := der_read x30;
  octet_decode := der_read x04;
  reader_finish r := match r with [] => inr () | _ => inl malformed end;
  octet_encode := der_write x04;
  from_sec1_bytes b := head b;
  sig_from_der b := Some b;
  ecdsa_verify pk _ sg := bool_decide (sg = [pk]);
  sk_generate _ := ((), x2a);
  sk_verifying_key sk := sk;
  to_public_key_der pk := inr [pk];
  spki_from_key pk := inr [pk];
  serial_new s := inr s;
  builder_new _ _ _ spki := inr {| tb_spki := spki; tb_exts := [] |};
  add_extension b oid _ v := inr {| tb_spki := tb_spki b; tb_exts := tb_exts b ++ [(oid, v)] |};
  build b sk :=
    match tb_spki b, tb_exts b with
    | [key], [(oid, ext)] => inr {| tc_key := key; tc_oid := oid; tc_ext := ext; tc_sig := [sk] |}
    | _, _ => inl malformed
    end;
  cert_to_der := toy_cert_to_der;
  to_pkcs8_der sk := inr [sk];
}.

Lemma der_write_inv tag v e : der_write tag v = inr e →
  Z.of_nat (length v) < 2 ^ 12 ∧ e = [tag] ++ der_length (Z.of_nat (length v)) ++ v.
Proof. unfold der_write. case_match eqn:H; [|done]. apply Z.ltb_lt in H. by intros [= <-]. Qed.

Lemma der_length_length n : (1 <= length (der_length n) <= 3)%nat.
Proof. unfold der_length. repeat case_match; cbn; lia. Qed.

Lemma der_read_write tag v e rest : der_write tag v = inr e → der_read tag (e ++ rest) = inr (v, rest).
Proof. intros [Hv ->]%der_write_inv. rewrite <- !app_assoc. apply der_read_ok. lia. Qed.

Lemma toy_cert_roundtrip c d : toy_cert_to_der c = inr d →
  toy_cert_from_der d = inr c ∧
  ∃ tbs, d = [x30] ++ der_length (Z.of_nat (length ([x30] ++ der_length (Z.of_nat (length tbs)) ++ tbs ++ tc_sig c)))
    ++ [x30] ++ der_length (Z.of_nat (length tbs)) ++ tbs ++ tc_sig c ∧ Z.of_nat (length tbs) < 2 ^ 12.
Proof.
  destruct c as [key oid ext sg]. unfold toy_cert_to_der, toy_cert_from_der. cbn [tc_key tc_oid tc_ext tc_sig].
  destruct (der_write x04 (as_bytes oid)) as [|eo] eqn:Eo; [done|]. destruct (der_write x04 ext) as [|ee] eqn:Ee; [done|].
  destruct (der_write x30 _) as [|et] eqn:Et; [done|]. intros Ed. split.
  - pose proof (der_read_write _ _ _ [] Ed) as H. rewrite app_nil_r in H. rewrite H.
    rewrite (der_read_write _ _ _ sg Et). cbn [app]. rewrite (der_read_write _ _ _ ee Eo).
    rewrite <- (app_nil_r ee), (der_read_write _ _ _ [] Ee). by rewrite from_as_bytes.
  - apply der_write_inv in Ed as [Hd ->]. apply der_write_inv in Et as [Ht ->].
    eexists. split; [|exact Ht]. by rewrite <- !app_assoc.
Qed.

#[export] Instance ToyX509_laws : X509Laws (XA:=ToyX509).
Proof.
  split; cbn [reader_new header_decode sequence_decode octet_decode octet_encode reader_finish ToyX509].
  - done.
  - by intros b r [= ->].
  - intros [|t r] n r'; [done|]. destruct (der_read_length r) as [[n1 r1]|] eqn:E; [|done]. intros [= -> ->].
    apply der_read_length_inv in E as (Hn & h & ->). split; [done|]. by exists (t :: h).
  - intros c rest Hc. by apply der_read_ok.
  - intros v e rest. apply der_read_write.
  - intros [|t r] v r'; [done|]. cbn [der_read]. case_decide; [|done].
    destruct (der_read_length r) as [[n1 r1]|]; [|done]. case_match; [done|]. case_match eqn:Hn; [done|].
    apply Z.leb_gt in Hn. intros [= <- <-]. rewrite length_take. lia.
  - intros v e [Hv ->]%der_write_inv. rewrite !length_app. pose proof (der_length_length (Z.of_nat (length v))). cbn. lia.
  - by intros [].
  - by intros pk d d' [= <-] [= <-].
  - intros profile serial validity spki b oid critical v b' sk c d [= <-] _ [= <-] [= <-] [= <-] Hd.
    cbn [tb_exts tb_spki app] in Hd. destruct (toy_cert_roundtrip _ _ Hd) as (Hp & tbs & -> & Ht). cbn [tc_sig] in *.
    eexists. split; [exact Hp|]. split_and!; try done.
    exists ([x30] ++ der_length (Z.of_nat (length ([x30] ++ der_length (Z.of_nat (length tbs)) ++ tbs ++ [sk])))),
      ([x30] ++ der_length (Z.of_nat (length tbs))), tbs, [sk],
      (Z.of_nat (length ([x30] ++ der_length (Z.of_nat (length tbs)) ++ tbs ++ [sk]))), [sk].
    split_and!; try done.
    + rewrite <- !app_assoc. cbn [app]. rewrite der_read_der_length; [done|]. cbn [length]. rewrite !length_app.
      pose proof (der_length_length (Z.of_nat (length tbs))). cbn [length]. lia.
    + rewrite <- !app_assoc. cbn [app]. rewrite der_read_der_length by lia. done.
    + by apply bool_decide_eq_true.
Qed.

Definition demo_secret : list byte := repeat x07 32.

Lemma certificate_roundtrip_witness :
  ∃ (cert_der key_der : list byte) (p : PeerId PlainMultihash),
    (generate_certificate_with_rng (from_secret_key_bytes demo_secret) () ()).2 = Ok (cert_der, key_der) ∧
    keypair_peer_id demo_sha256 (from_secret_key_bytes demo_secret) = Ok p ∧
    verify_libp2p_certificate demo_sha256 true cert_der = Ok p.
Proof.
  destruct (generate_certificate_with_rng (from_secret_key_bytes demo_secret) () ()) as [rng [[cert key]| |]] eqn:E;
    [|vm_compute in E; discriminate E..].
  destruct (certificate_roundtrip (MH:=PlainMultihash) demo_sha256 (λ _, eq_refl) true demo_secret () () rng cert key eq_refl E)
    as (p & H1 & H2).
  exists cert, key, p. split; [reflexivity|]. split; [exact H1|exact H2].
Defined.

Definition demo_cert : list byte :=
  match (generate_certificate_with_rng (from_secret_key_bytes demo_secret) () ()).2 with
  | Ok (cert, _) => cert
  | _ => []
  end.

Lemma tls_verify_exact_witness :
  ∃ (p : PeerId PlainMultihash) k,
    verify_libp2p_certificate demo_sha256 true demo_cert = Ok p ∧ certifies demo_cert k ∧
    digest_bytes p = encode_protobuf k.
Proof.
  destruct (verify_libp2p_certificate (MH:=PlainMultihash) demo_sha256 true demo_cert) as [p| |] eqn:E;
    [|vm_compute in E; discriminate E..].
  destruct (tls_verify_exact (MH:=PlainMultihash) demo_sha256 (λ _, eq_refl) true demo_cert p) as (H1 & H2 & _).
  destruct (proj1 H1 E) as (k & Hk & Hp). exists p, k. split; [reflexivity|]. split; [exact Hk|].
  exact (proj2 (H2 k Hk Hp)).
Defined.
