(* ===== verification/Pem.v ===== *)
(** * PEM ([crates/tls/src/pem.rs])

    The hand-written base64 and PEM encoders. *)
From S2P Require Import Prelude Utf8 Varint Multibase PeerId Keys Tls.
From Stdlib Require Import ZArith Strings.Byte Strings.String.
From stdpp Require Import base numbers list strings.

#[local] Open Scope Z_scope.

Definition ALPHABET : list byte :=
  as_bytes "ABCDEFGHIJKLMNOPQRSTUVWXYZabcdefghijklmnopqrstuvwxyz0123456789+/".

(** [ALPHABET[(v & 0x3f) as usize]]: the index is below 64. *)
Definition sextet (v : Z) : list byte :=
  match ALPHABET !! Z.to_nat (Z.land v 0x3f) with Some c => [c] | None => [] end.

(** The body of [for chunk in input.chunks(3)]. *)
Definition encode_chunk (b0 : byte) (b1 b2 : option byte) : list byte :=
  let z o := match o with Some b => byte_Z b | None => 0 end in
  let triple := Z.lor (Z.lor (Z.shiftl (byte_Z b0) 16) (Z.shiftl (z b1) 8)) (z b2) in
  sextet (Z.shiftr triple 18) ++ sextet (Z.shiftr triple 12)
  ++ (match b1 with Some _ => sextet (Z.shiftr triple 6) | None => [x3d] end)
  ++ (match b2 with Some _ => sextet triple | None => [x3d] end).

Fixpoint base64_encode (input : list byte) : list byte :=
  match input with
  | [] => []
  | [b0] => encode_chunk b0 None None
  | [b0; b1] => encode_chunk b0 (Some b1) None
  | b0 :: b1 :: b2 :: input => encode_chunk b0 (Some b1) (Some b2) ++ base64_encode input
  end.

(** [slice.chunks(n)]. *)
Fixpoint chunks_loop {A} (fuel n : nat) (l : list A) : list (list A) :=
  match fuel, l with
  | S fuel, _ :: _ => take n l :: chunks_loop fuel n (drop n l)
  | _, _ => []
  end.
Definition chunks {A} (n : nat) (l : list A) : list (list A) := chunks_loop (length l) n l.

(** The chunks are ASCII text, so [from_utf8] accepts them. *)
Definition manual_pem (label : string) (der : list byte) : list byte :=
  let b64 := base64_encode der in
  as_bytes ("-----BEGIN " ++ label ++ "-----") ++ [newline]
  ++ concat ((λ chunk, chunk ++ [newline]) <$> chunks 64 b64)
  ++ as_bytes ("-----END " ++ label ++ "-----") ++ [newline].

Definition private_key_to_pem (key_der : list byte) : list byte := manual_pem "PRIVATE KEY" key_der.

(** With the [std] feature a certificate that parses is printed by [der::EncodePem]
    ([to_pem]); without it [manual_pem] prints every certificate. *)
Definition cert_to_pem `{X509Api Cert Validity Bld PK SG SK RNG} (to_pem : Cert → option (list byte))
    (cert_der : list byte) : list byte :=
  match cert_from_der cert_der with
  | inr cert => match to_pem cert with Some pem => pem | None => manual_pem "CERTIFICATE" cert_der end
  | inl _ => manual_pem "CERTIFICATE" cert_der
  end.
Definition cert_to_pem_no_std (cert_der : list byte) : list byte := manual_pem "CERTIFICATE" cert_der.

(** ** A reference decoder *)

Definition sextet_value (c : byte) : option Z :=
  Z.of_nat ∘ fst <$> list_find (λ d, d = c) ALPHABET.

Fixpoint base64_decode (input : list byte) : option (list byte) :=
  match input with
  | [] => Some []
  | c0 :: c1 :: c2 :: c3 :: rest =>
      v0 ← sextet_value c0; v1 ← sextet_value c1;
      let b0 := Z_byte (v0 * 4 + v1 / 16) in
      if decide (c2 = x3d) then
        if decide (c3 = x3d ∧ rest = []) then Some [b0] else None
      else
        v2 ← sextet_value c2;
        let b1 := Z_byte (v1 mod 16 * 16 + v2 / 4) in
        if decide (c3 = x3d) then if decide (rest = []) then Some [b0; b1] else None
        else
          v3 ← sextet_value c3;
          tail ← base64_decode rest;
          Some ([b0; b1; Z_byte (v2 mod 4 * 64 + v3)] ++ tail)
  | _ => None
  end.

Lemma sextet_ok v : ∃ c, sextet v = [c] ∧ sextet_value c = Some (v mod 64) ∧ c ≠ x3d.
Proof.
  unfold sextet. change 0x3f with (Z.ones 6). rewrite Z.land_ones by lia. change (2 ^ 6) with 64.
  pose proof (Z.mod_pos_bound v 64 eq_refl) as Hr. remember (v mod 64) as d eqn:Hd. clear Hd v.
  destruct (Z_of_nat_complete d) as [n ->]; [lia|]. rewrite Nat2Z.id. assert (n < 64)%nat as Hn by lia. clear Hr.
  assert (forallb (λ n, match ALPHABET !! n with
    | Some c => bool_decide (sextet_value c = Some (Z.of_nat n)) && negb (bool_decide (c = x3d))
    | None => false
    end) (seq 0 64) = true) as H by by vm_compute.
  rewrite forallb_forall in H. specialize (H n). rewrite in_seq in H. specialize (H ltac:(lia)).
  destruct (ALPHABET !! n) as [c|]; [|done]. exists c.
  apply andb_true_iff in H as [H1%bool_decide_eq_true H2%negb_true_iff%bool_decide_eq_false]. done.
Qed.

(** The bits of a triple, as digits in base 64. *)
Lemma triple_digits b0 b1 b2 : 0 <= b0 < 256 → 0 <= b1 < 256 → 0 <= b2 < 256 →
  let t := Z.lor (Z.lor (Z.shiftl b0 16) (Z.shiftl b1 8)) b2 in
  (Z.shiftr t 18) mod 64 = b0 / 4 ∧ (Z.shiftr t 12) mod 64 = b0 mod 4 * 16 + b1 / 16 ∧
  (Z.shiftr t 6) mod 64 = b1 mod 16 * 4 + b2 / 64 ∧ t mod 64 = b2 mod 64.
Proof.
  intros H0 H1 H2. cbv zeta.
  assert (Z.lor (Z.lor (Z.shiftl b0 16) (Z.shiftl b1 8)) b2 = b0 * 65536 + b1 * 256 + b2) as ->.
  { rewrite (Z.lor_comm (Z.shiftl b0 16)).
    replace (Z.lor (Z.shiftl b1 8) (Z.shiftl b0 16)) with (Z.shiftl (Z.lor b1 (Z.shiftl b0 8)) 8)
      by by rewrite Z.shiftl_lor, Z.shiftl_shiftl by lia.
    rewrite Z.lor_comm, lor_shiftl_disjoint, lor_shiftl_disjoint by lia. lia. }
  rewrite !Z.shiftr_div_pow2 by lia. change (2 ^ 18) with 262144. change (2 ^ 12) with 4096. change (2 ^ 6) with 64.
  Z.to_euclidean_division_equations. lia.
Qed.

(** The bytes of the digits. *)
Lemma byte0 b0 b1 : Z_byte (byte_Z b0 / 4 * 4 + (byte_Z b0 mod 4 * 16 + byte_Z b1 / 16) / 16) = b0.
Proof.
  pose proof (byte_Z_range b0). pose proof (byte_Z_range b1). rewrite <- (Z_byte_byte_Z b0) at 3. f_equal.
  Z.to_euclidean_division_equations. lia.
Qed.
Lemma byte1 b0 b1 b2 :
  Z_byte ((byte_Z b0 mod 4 * 16 + byte_Z b1 / 16) mod 16 * 16 + (byte_Z b1 mod 16 * 4 + byte_Z b2 / 64) / 4) = b1.
Proof.
  pose proof (byte_Z_range b0). pose proof (byte_Z_range b1). pose proof (byte_Z_range b2).
  rewrite <- (Z_byte_byte_Z b1) at 3. f_equal. Z.to_euclidean_division_equations. lia.
Qed.
Lemma byte2 b1 b2 : Z_byte ((byte_Z b1 mod 16 * 4 + byte_Z b2 / 64) mod 4 * 64 + byte_Z b2 mod 64) = b2.
Proof.
  pose proof (byte_Z_range b1). pose proof (byte_Z_range b2).
  rewrite <- (Z_byte_byte_Z b2) at 3. f_equal. Z.to_euclidean_division_equations. lia.
Qed.

Lemma encode_chunk_full b0 b1 b2 rest :
  base64_decode (encode_chunk b0 (Some b1) (Some b2) ++ rest) = app [b0; b1; b2] <$> base64_decode rest.
Proof.
  unfold encode_chunk. set (t := Z.lor _ _).
  destruct (triple_digits _ _ _ (byte_Z_range b0) (byte_Z_range b1) (byte_Z_range b2)) as (D0 & D1 & D2 & D3). fold t in D0, D1, D2, D3.
  destruct (sextet_ok (Z.shiftr t 18)) as (c0 & -> & V0 & _). destruct (sextet_ok (Z.shiftr t 12)) as (c1 & -> & V1 & _).
  destruct (sextet_ok (Z.shiftr t 6)) as (c2 & -> & V2 & N2). destruct (sextet_ok t) as (c3 & -> & V3 & N3).
  cbn [app base64_decode]. rewrite V0, V1. cbn [mbind option_bind]. rewrite decide_False by done. rewrite V2.
  cbn [mbind option_bind]. rewrite decide_False by done. rewrite V3. cbn [mbind option_bind].
  destruct (base64_decode rest) as [tail|]; [|done]. cbn. f_equal. rewrite D0, D1, D2, D3.
  by rewrite byte0, byte1, byte2.
Qed.

Lemma encode_chunk_one b0 : base64_decode (encode_chunk b0 None None) = Some [b0].
Proof.
  unfold encode_chunk. set (t := Z.lor _ _).
  destruct (triple_digits (byte_Z b0) 0 0 (byte_Z_range b0)) as (D0 & D1 & _); [lia..|]. fold t in D0, D1.
  destruct (sextet_ok (Z.shiftr t 18)) as (c0 & -> & V0 & _). destruct (sextet_ok (Z.shiftr t 12)) as (c1 & -> & V1 & _).
  cbn [app base64_decode]. rewrite V0, V1. cbn [mbind option_bind]. rewrite decide_True by done.
  rewrite decide_True by done. rewrite D0, D1. 
  pose proof (byte0 b0 x00) as H. change (byte_Z x00) with 0 in H. by rewrite H.
Qed.

Lemma encode_chunk_two b0 b1 : base64_decode (encode_chunk b0 (Some b1) None) = Some [b0; b1].
Proof.
  unfold encode_chunk. set (t := Z.lor _ _).
  destruct (triple_digits (byte_Z b0) (byte_Z b1) 0 (byte_Z_range b0) (byte_Z_range b1)) as (D0 & D1 & D2 & _); [lia|].
  fold t in D0, D1, D2.
  destruct (sextet_ok (Z.shiftr t 18)) as (c0 & -> & V0 & _). destruct (sextet_ok (Z.shiftr t 12)) as (c1 & -> & V1 & _).
  destruct (sextet_ok (Z.shiftr t 6)) as (c2 & -> & V2 & N2).
  cbn [app base64_decode]. rewrite V0, V1. cbn [mbind option_bind]. rewrite decide_False by done. rewrite V2.
  cbn [mbind option_bind]. rewrite decide_True by done. rewrite decide_True by done. rewrite D0, D1, D2.
  pose proof (byte1 b0 b1 x00) as H. change (byte_Z x00) with 0 in H. by rewrite byte0, H.
Qed.

Lemma base64_roundtrip input : base64_decode (base64_encode input) = Some input.
Proof.
  induction input as [input IH] using (induction_ltof1 _ (@length byte)). unfold ltof in IH.
  destruct input as [|b0 [|b1 [|b2 input]]]; cbn [base64_encode]; [done|apply encode_chunk_one|apply encode_chunk_two|].
  rewrite encode_chunk_full, IH; [done|cbn; lia].
Qed.

Lemma chunks_concat {A} n (l : list A) : (0 < n)%nat → concat (chunks n l) = l ∧ Forall (λ c, (length c <= n)%nat ∧ c ≠ []) (chunks n l).
Proof.
  intros Hn. unfold chunks.
  enough (∀ fuel, (length l <= fuel)%nat → concat (chunks_loop fuel n l) = l ∧
    Forall (λ c, (length c <= n)%nat ∧ c ≠ []) (chunks_loop fuel n l)) as H by by apply H.
  intros fuel. revert l. induction fuel as [|fuel IH]; intros [|x l] Hf; cbn in *; try done; [lia|].
  destruct n as [|n]; [lia|]. cbn [take drop]. destruct (IH (drop n l)) as [H1 H2]; [rewrite length_drop; lia|].
  split; [cbn; by rewrite H1, take_drop|]. constructor; [|done]. split; [|done]. cbn. rewrite length_take. lia.
Qed.

(** The text of a key or certificate is its base64 form in lines of at most 64
    characters between the two labels, and base64 loses nothing: the reference decoder
    gives the bytes back. *)
Lemma manual_pem_roundtrip label der :
  ∃ lines, manual_pem label der =
      as_bytes ("-----BEGIN " ++ label ++ "-----") ++ [newline]
      ++ concat ((λ line, line ++ [newline]) <$> lines)
      ++ as_bytes ("-----END " ++ label ++ "-----") ++ [newline] ∧
    Forall (λ line, (length line <= 64)%nat ∧ line ≠ []) lines ∧
    base64_decode (concat lines) = Some der.
Proof.
  exists (chunks 64 (base64_encode der)). split; [done|]. destruct (chunks_concat 64 (base64_encode der)) as [Hc Hf]; [lia|].
  split; [done|]. rewrite Hc. apply base64_roundtrip.
Qed.

Example base64_abc : base64_encode (as_bytes "abc") = as_bytes "YWJj" ∧ base64_encode (as_bytes "a") = as_bytes "YQ==".
Proof. split; by vm_compute. Qed.
