(* ===== verification/Multiaddr.v ===== *)
(** * Multiaddrs ([crates/core/src/protocol.rs], [crates/core/src/multiaddr.rs])

    Network addresses as sequences of protocol components, and their binary form.
    Peer ids are used through [PeerIdBytes]; the theorems are proved against that
    interface, which [PeerId.PeerId_bytes] implements. *)
From S2P Require Import Prelude Utf8 NetAddr Varint Multibase PeerId.
From Stdlib Require Import ZArith Strings.Byte Strings.Ascii Strings.String.
From stdpp Require Import base numbers list strings.

#[local] Open Scope Z_scope.

Definition IP4_CODE : Z := 0x04.
Definition IP6_CODE : Z := 0x29.
Definition DNS_CODE : Z := 0x35.
Definition DNS4_CODE : Z := 0x36.
Definition DNS6_CODE : Z := 0x37.
Definition UDP_CODE : Z := 0x0111.
Definition QUIC_V1_CODE : Z := 0x01cd.
Definition P2P_CODE : Z := 0x01a5.

(** [crates/core/src/error.rs]. *)
Inductive MultiaddrError : Type :=
  | EmptyMultiaddr
  | MissingLeadingSlash
  | EmptyProtocol
  | MissingValue (protocol : string)
  | UnknownProtocol (protocol : string)
  | InvalidIp4 (value : string)
  | InvalidIp6 (value : string)
  | InvalidPort (value : string)
  | InvalidDnsName (value : string)
  | InvalidPeerId (value : string) (source : PeerIdError)
  | UnknownProtocolCode (code : Z)
  | TruncatedBinaryValue (protocol : string)
  | InvalidBinaryValue (protocol : string) (reason : string)
  | MultiaddrVarint (e : VarintError).

#[export] Instance MultiaddrError_display : Display MultiaddrError := λ e,
  match e with
  | EmptyMultiaddr => "multiaddr input is empty"
  | MissingLeadingSlash => "multiaddr must start with '/' (example: /ip4/127.0.0.1/udp/4001/quic-v1)"
  | EmptyProtocol => "empty protocol segment in multiaddr"
  | MissingValue protocol => "missing value for protocol '" ++ protocol ++ "'"
  | UnknownProtocol protocol => "unknown protocol '" ++ protocol ++ "'"
  | InvalidIp4 value => "invalid ip4 value '" ++ value ++ "'"
  | InvalidIp6 value => "invalid ip6 value '" ++ value ++ "'"
  | InvalidPort value => "invalid udp port '" ++ value ++ "'"
  | InvalidDnsName value => "invalid dns value '" ++ value ++ "'"
  | InvalidPeerId value source => "invalid peer id '" ++ value ++ "': " ++ to_string source
  | UnknownProtocolCode code => "unknown multicodec protocol code 0x" ++ lower_hex code
  | TruncatedBinaryValue protocol => "truncated binary value for protocol '" ++ protocol ++ "'"
  | InvalidBinaryValue protocol reason =>
      "invalid binary value for protocol '" ++ protocol ++ "': " ++ reason
  | MultiaddrVarint e => "invalid varint in binary multiaddr: " ++ to_string e
  end%string.

Section multiaddr.
Context {P : Type} `{PidEq : EqDecision P} `{!PeerIdBytes P}.

(** The display text of [core::str::Utf8Error], by the bytes that caused it. *)
Context (utf8_error_text : list byte → string).

(** Fixed-size arrays are byte lists whose length [protocol_ok] fixes. *)
Inductive Protocol : Type :=
  | Ip4 (bytes : list byte)
  | Ip6 (bytes : list byte)
  | Dns (name : string)
  | Dns4 (name : string)
  | Dns6 (name : string)
  | Udp (port : Z)
  | QuicV1
  | P2p (peer_id : P).

#[export] Instance Protocol_eq_dec : EqDecision Protocol.
Proof using PidEq. solve_decision. Defined.

Record Multiaddr : Type := { protocols : list Protocol }.

#[export] Instance Multiaddr_eq_dec : EqDecision Multiaddr.
Proof using PidEq. solve_decision. Defined.

(** ** Components *)

Definition is_host (p : Protocol) : bool :=
  match p with Ip4 _ | Ip6 _ | Dns _ | Dns4 _ | Dns6 _ => true | _ => false end.

Definition code (p : Protocol) : Z :=
  match p with
  | Ip4 _ => IP4_CODE
  | Ip6 _ => IP6_CODE
  | Dns _ => DNS_CODE
  | Dns4 _ => DNS4_CODE
  | Dns6 _ => DNS6_CODE
  | Udp _ => UDP_CODE
  | QuicV1 => QUIC_V1_CODE
  | P2p _ => P2P_CODE
  end.

(** [u16::to_be_bytes], [u16::from_be_bytes]. *)
Definition to_be_bytes (port : Z) : list byte := [Z_byte (port / 256); Z_byte port].
Definition from_be_bytes (b : list byte) : Z :=
  match b with b1 :: b2 :: _ => byte_Z b1 * 256 + byte_Z b2 | _ => 0 end.

Definition write_binary (p : Protocol) (out : list byte) : list byte :=
  let out := write_uvarint (code p) out in
  match p with
  | Ip4 bytes => out ++ bytes
  | Ip6 bytes => out ++ bytes
  | Dns name | Dns4 name | Dns6 name =>
      let body := as_bytes name in
      let out := write_uvarint (Z.of_nat (length body)) out in
      out ++ body
  | Udp port => out ++ to_be_bytes port
  | QuicV1 => out
  | P2p peer_id =>
      let body := pid_to_bytes peer_id in
      let out := write_uvarint (Z.of_nat (length body)) out in
      out ++ body
  end.

(** [fixed::<N>]. *)
Definition fixed (n : nat) (bytes : list byte) (protocol : string)
    : res MultiaddrError (list byte) :=
  if decide (length bytes < n)%nat then Err (TruncatedBinaryValue protocol)
  else Ok (take n bytes).

Definition length_prefixed (bytes : list byte) (protocol : string)
    : res MultiaddrError (list byte * nat) :=
  '(len, consumed) ← map_err MultiaddrVarint (read_uvarint bytes);
  let available := (length bytes - consumed)%nat in
  if Z.of_nat available <? len then Err (TruncatedBinaryValue protocol)
  else
    body ← slice bytes (Z.of_nat consumed) (Z.of_nat consumed + len);
    Ok (body, (consumed + Z.to_nat len)%nat).

Definition read_binary (bytes : list byte) : res MultiaddrError (Protocol * nat) :=
  '(code, consumed) ← map_err MultiaddrVarint (read_uvarint bytes);
  let rest := drop consumed bytes in
  if code =? IP4_CODE then
    value ← fixed 4 rest "ip4"%string; Ok (Ip4 value, (consumed + 4)%nat)
  else if code =? IP6_CODE then
    value ← fixed 16 rest "ip6"%string; Ok (Ip6 value, (consumed + 16)%nat)
  else if code =? UDP_CODE then
    value ← fixed 2 rest "udp"%string; Ok (Udp (from_be_bytes value), (consumed + 2)%nat)
  else if code =? QUIC_V1_CODE then Ok (QuicV1, consumed)
  else if (code =? DNS_CODE) || (code =? DNS4_CODE) || (code =? DNS6_CODE) then
    let label := if code =? DNS_CODE then "dns"%string
                 else if code =? DNS4_CODE then "dns4"%string else "dns6"%string in
    '(body, used) ← length_prefixed rest label;
    let consumed := (consumed + used)%nat in
    name ← map_err (λ _, InvalidBinaryValue label (utf8_error_text body)) (from_utf8 body);
    let protocol := if code =? DNS_CODE then Dns name
                    else if code =? DNS4_CODE then Dns4 name else Dns6 name in
    Ok (protocol, consumed)
  else if code =? P2P_CODE then
    '(body, used) ← length_prefixed rest "p2p"%string;
    let consumed := (consumed + used)%nat in
    peer_id ← map_err (λ e, InvalidBinaryValue "p2p"%string (to_string e)) (pid_from_bytes body);
    Ok (P2p peer_id, consumed)
  else Err (UnknownProtocolCode code).

(** ** Addresses *)

(** [new], [from_protocols], [push], [len], [is_empty]; the slice and the iterators are the
    list itself. *)
Definition multiaddr_new : Multiaddr := {| protocols := [] |}.
Definition from_protocols (ps : list Protocol) : Multiaddr := {| protocols := ps |}.
Definition push (m : Multiaddr) (p : Protocol) : Multiaddr := {| protocols := protocols m ++ [p] |}.
Definition multiaddr_len (m : Multiaddr) : nat := length (protocols m).
Definition multiaddr_is_empty (m : Multiaddr) : bool := bool_decide (protocols m = []).

Definition has_quic_v1 (m : Multiaddr) : bool :=
  existsb (λ p, match p with QuicV1 => true | _ => false end) (protocols m).

Fixpoint first_p2p (ps : list Protocol) : option P :=
  match ps with [] => None | P2p p :: _ => Some p | _ :: ps => first_p2p ps end.

Definition peer_id (m : Multiaddr) : option P := first_p2p (protocols m).

Definition encapsulate (m other : Multiaddr) : Multiaddr :=
  {| protocols := protocols m ++ protocols other |}.

(** [for idx in (0..=n).rev()]. *)
Fixpoint decapsulate_loop (m suffix : list Protocol) (idx : nat) : option Multiaddr :=
  if decide (take (length suffix) (drop idx m) = suffix)
  then Some {| protocols := take idx m |}
  else match idx with O => None | S idx => decapsulate_loop m suffix idx end.

Definition decapsulate (m suffix : Multiaddr) : option Multiaddr :=
  if decide (protocols suffix = []) then Some m
  else if decide (length (protocols m) < length (protocols suffix))%nat then None
  else decapsulate_loop (protocols m) (protocols suffix)
         (length (protocols m) - length (protocols suffix)).

Definition is_quic_transport (m : Multiaddr) : bool :=
  match protocols m with
  | [h; Udp _; QuicV1] => is_host h
  | _ => false
  end.

Definition to_bytes (m : Multiaddr) : list byte :=
  fold_left (λ out p, write_binary p out) (protocols m) [].

Fixpoint from_bytes_loop (fuel : nat) (bytes : list byte) (offset : nat) (ps : list Protocol)
    : res MultiaddrError Multiaddr :=
  match fuel with
  | O => Panic
  | S fuel =>
      if decide (offset < length bytes)%nat then
        '(protocol, consumed) ← read_binary (drop offset bytes);
        from_bytes_loop fuel bytes (offset + consumed) (ps ++ [protocol])
      else Ok {| protocols := ps |}
  end.

Definition from_bytes (bytes : list byte) : res MultiaddrError Multiaddr :=
  from_bytes_loop (S (length bytes)) bytes 0 [].

(** ** Lemmas *)

(** What the Rust types guarantee of a component. *)
Definition name_ok (s : string) : Prop := str_ok s ∧ is_u64 (Z.of_nat (length (as_bytes s))).
Definition protocol_ok (p : Protocol) : Prop :=
  match p with
  | Ip4 b => length b = 4%nat
  | Ip6 b => length b = 16%nat
  | Dns n | Dns4 n | Dns6 n => name_ok n
  | Udp port => 0 <= port < 65536
  | QuicV1 => True
  | P2p p => pid_ok p
  end.
Definition maddr_ok (m : Multiaddr) : Prop := Forall protocol_ok (protocols m).

Lemma code_u64 p : is_u64 (code p).
Proof using. destruct p; split; vm_compute; done. Qed.

Lemma write_binary_app p out : write_binary p out = out ++ write_binary p [].
Proof using.
  unfold write_binary. cbv zeta. rewrite (write_uvarint_app (code p) out).
  destruct p; rewrite ?(write_uvarint_app _ (_ ++ _)), ?(write_uvarint_app _ (write_uvarint _ [])),
    ?app_assoc; done.
Qed.

Lemma be_bytes_roundtrip port : 0 <= port < 65536 → from_be_bytes (to_be_bytes port) = port.
Proof using.
  intros Hp. unfold from_be_bytes, to_be_bytes. rewrite !byte_Z_Z_byte.
  rewrite (Z.mod_small (port / 256)); [|split; [apply Z.div_pos; lia|apply Z.div_lt_upper_bound; lia]].
  pose proof (Z.div_mod port 256 ltac:(lia)). lia.
Qed.

Lemma fixed_app n v rest label :
  length v = n → fixed n (v ++ rest) label = Ok v.
Proof using.
  intros <-. unfold fixed. rewrite decide_False by (rewrite length_app; lia).
  by rewrite take_app_length.
Qed.

Lemma length_prefixed_app body rest label :
  is_u64 (Z.of_nat (length body)) →
  length_prefixed (write_uvarint (Z.of_nat (length body)) [] ++ body ++ rest) label
    = Ok (body, length (write_uvarint (Z.of_nat (length body)) [] ++ body)).
Proof using.
  intros Hb. unfold length_prefixed. rewrite read_uvarint_write by done.
  cbn [map_err mbind res_bind]. rewrite <- (length_uvarint _ Hb).
  set (w := write_uvarint _ []). rewrite (proj2 (Z.ltb_ge _ _)) by (rewrite !length_app; lia).
  rewrite slice_app. cbn [mbind res_bind]. rewrite length_app. do 2 f_equal. lia.
Qed.

(** What follows the code of a component. *)
Definition body_bytes (p : Protocol) : list byte :=
  match p with
  | Ip4 b | Ip6 b => b
  | Dns n | Dns4 n | Dns6 n => write_uvarint (Z.of_nat (length (as_bytes n))) [] ++ as_bytes n
  | Udp port => to_be_bytes port
  | QuicV1 => []
  | P2p p => write_uvarint (Z.of_nat (length (pid_to_bytes p))) [] ++ pid_to_bytes p
  end.

Lemma write_binary_body p : write_binary p [] = write_uvarint (code p) [] ++ body_bytes p.
Proof using.
  unfold write_binary. cbv zeta. destruct p; cbn [body_bytes];
    rewrite ?(write_uvarint_app _ (write_uvarint _ [])), ?app_nil_r, <- ?app_assoc; done.
Qed.

Lemma read_binary_code p rest :
  read_binary (write_uvarint (code p) [] ++ rest) =
    let consumed := length (write_uvarint (code p) []) in
    match p with
    | Ip4 _ => value ← fixed 4 rest "ip4"%string; Ok (Ip4 value, (consumed + 4)%nat)
    | Ip6 _ => value ← fixed 16 rest "ip6"%string; Ok (Ip6 value, (consumed + 16)%nat)
    | Udp _ => value ← fixed 2 rest "udp"%string;
               Ok (Udp (from_be_bytes value), (consumed + 2)%nat)
    | QuicV1 => Ok (QuicV1, consumed)
    | Dns _ => '(body, used) ← length_prefixed rest "dns"%string;
        name ← map_err (λ _, InvalidBinaryValue "dns"%string (utf8_error_text body)) (from_utf8 body);
        Ok (Dns name, (consumed + used)%nat)
    | Dns4 _ => '(body, used) ← length_prefixed rest "dns4"%string;
        name ← map_err (λ _, InvalidBinaryValue "dns4"%string (utf8_error_text body)) (from_utf8 body);
        Ok (Dns4 name, (consumed + used)%nat)
    | Dns6 _ => '(body, used) ← length_prefixed rest "dns6"%string;
        name ← map_err (λ _, InvalidBinaryValue "dns6"%string (utf8_error_text body)) (from_utf8 body);
        Ok (Dns6 name, (consumed + used)%nat)
    | P2p _ => '(body, used) ← length_prefixed rest "p2p"%string;
        q ← map_err (λ e, InvalidBinaryValue "p2p"%string (to_string e)) (pid_from_bytes body);
        Ok (P2p q, (consumed + used)%nat)
    end.
Proof using.
  unfold read_binary. rewrite read_uvarint_write by apply code_u64. cbn [map_err mbind res_bind].
  rewrite <- (length_uvarint _ (code_u64 p)), drop_app_length. by destruct p.
Qed.

Lemma read_write_binary p rest :
  protocol_ok p → read_binary (write_binary p [] ++ rest) = Ok (p, length (write_binary p [])).
Proof using.
  intros Hp. rewrite write_binary_body, <- app_assoc, read_binary_code, length_app. cbv zeta.
  destruct p; cbn [body_bytes]; cbn [protocol_ok] in Hp.
  - rewrite fixed_app by done. cbn [mbind res_bind]. by rewrite Hp.
  - rewrite fixed_app by done. cbn [mbind res_bind]. by rewrite Hp.
  - destruct Hp as [Hs Hl]. rewrite <- app_assoc, length_prefixed_app by done.
    cbn [mbind res_bind]. by rewrite from_utf8_as_bytes.
  - destruct Hp as [Hs Hl]. rewrite <- app_assoc, length_prefixed_app by done.
    cbn [mbind res_bind]. by rewrite from_utf8_as_bytes.
  - destruct Hp as [Hs Hl]. rewrite <- app_assoc, length_prefixed_app by done.
    cbn [mbind res_bind]. by rewrite from_utf8_as_bytes.
  - rewrite fixed_app by done. cbn [mbind res_bind]. by rewrite be_bytes_roundtrip.
  - by rewrite Nat.add_0_r.
  - assert (is_u64 (Z.of_nat (length (pid_to_bytes peer_id0)))) as Hl
      by (pose proof (pid_length peer_id0); u64_tac).
    rewrite <- app_assoc, length_prefixed_app by done.
    cbn [mbind res_bind]. by rewrite pid_roundtrip.
Qed.

Lemma to_bytes_concat m : to_bytes m = concat ((λ p, write_binary p []) <$> protocols m).
Proof using.
  unfold to_bytes. enough (∀ ps out, fold_left (λ out p, write_binary p out) ps out
    = out ++ concat ((λ p, write_binary p []) <$> ps)) as H by apply (H _ []).
  induction ps as [|p ps IH]; intros out; cbn [fold_left fmap list_fmap concat];
    [by rewrite app_nil_r|]. by rewrite IH, write_binary_app, <- app_assoc.
Qed.

Lemma write_binary_ne p : write_binary p [] ≠ [].
Proof using.
  rewrite write_binary_body. intros [E _]%app_eq_nil.
  pose proof (length_uvarint _ (code_u64 p)). pose proof (uvarint_len_pos (code p)).
  rewrite E in *. cbn [length] in *. lia.
Qed.

Lemma from_bytes_loop_app ps pre acc fuel :
  Forall protocol_ok ps → (length ps < fuel)%nat →
  from_bytes_loop fuel (pre ++ concat ((λ p, write_binary p []) <$> ps)) (length pre) acc
    = Ok {| protocols := acc ++ ps |}.
Proof using.
  intros Hps. revert pre acc fuel.
  induction Hps as [|p ps Hp Hps IH]; intros pre acc [|fuel] Hf; simpl in Hf; try lia;
    cbn [from_bytes_loop fmap list_fmap concat].
  - rewrite !app_nil_r, decide_False by lia. done.
  - pose proof (write_binary_ne p) as Hne. rewrite decide_True.
    2: { rewrite !length_app. destruct (write_binary p []); [done|]. simpl. lia. }
    rewrite drop_app_length, read_write_binary by done. cbn [mbind res_bind].
    rewrite app_assoc, <- length_app, IH by lia. by rewrite <- app_assoc.
Qed.

Lemma from_to_bytes m : maddr_ok m → from_bytes (to_bytes m) = Ok m.
Proof using.
  intros Hm. rewrite to_bytes_concat. unfold from_bytes.
  rewrite (from_bytes_loop_app (protocols m) [] []); [by destruct m|done|].
  enough (length (protocols m) <= length (concat ((λ p, write_binary p []) <$> protocols m)))%nat
    by lia.
  rewrite <- (length_fmap (λ p, write_binary p [])) at 1.
  apply length_concat_ne, Forall_fmap, Forall_true. intros p. apply write_binary_ne.
Qed.

(** Lists of encoded addresses, as the protocols exchange them. *)
Definition addrs_ok (addrs : list Multiaddr) : Prop :=
  Forall (λ a, maddr_ok a ∧ is_u64 (Z.of_nat (length (to_bytes a)))) addrs.

Lemma omap_from_to_bytes addrs :
  addrs_ok addrs →
  omap (λ bytes, match from_bytes bytes with Ok a => Some a | _ => None end) (to_bytes <$> addrs) = addrs.
Proof using.
  induction 1 as [|a addrs [Ha _] _ IH]; [done|]. cbn [fmap list_fmap omap list_omap].
  rewrite from_to_bytes by done. by rewrite IH.
Qed.

Lemma addrs_bytes_ok addrs :
  addrs_ok addrs → Forall (λ b, is_u64 (Z.of_nat (length b))) (to_bytes <$> addrs).
Proof using. intros Ha. apply Forall_fmap. eapply Forall_impl; [exact Ha|]. by intros a [_ ?]. Qed.

(** ** The decoder is total *)

Lemma length_prefixed_total bytes label :
  match length_prefixed bytes label with
  | Ok (_, used) => (used <= length bytes)%nat | Err _ => True | Panic => False
  end.
Proof using.
  unfold length_prefixed. destruct (read_uvarint bytes) as [[len used]| |] eqn:E;
    cbn [map_err mbind res_bind]; [|done|by apply read_uvarint_no_panic in E].
  apply read_uvarint_inv in E as ([Hl _] & _ & Hle & _).
  destruct (Z.ltb_spec (Z.of_nat (length bytes - used)) len); [done|].
  unfold slice. rewrite (proj2 (Z.leb_le _ _)), (proj2 (Z.leb_le _ _)) by lia.
  cbn [andb mbind res_bind]. lia.
Qed.

Lemma read_binary_total bytes :
  match read_binary bytes with
  | Ok (_, used) => (0 < used <= length bytes)%nat | Err _ => True | Panic => False
  end.
Proof using.
  unfold read_binary. destruct (read_uvarint bytes) as [[c used]| |] eqn:E;
    cbn [map_err mbind res_bind]; [|done|by apply read_uvarint_no_panic in E].
  apply read_uvarint_inv in E as (_ & -> & Hle & _). pose proof (uvarint_len_pos c).
  cbv zeta. unfold fixed.
  assert (length (drop (uvarint_len c) bytes) = (length bytes - uvarint_len c)%nat) as Hd
    by apply length_drop.
  pose proof (λ l, length_prefixed_total (drop (uvarint_len c) bytes) l) as Hlp.
  destruct (c =? IP4_CODE); [case_decide; simpl; lia || done|].
  destruct (c =? IP6_CODE); [case_decide; simpl; lia || done|].
  destruct (c =? UDP_CODE); [case_decide; simpl; lia || done|].
  destruct (c =? QUIC_V1_CODE); [lia|].
  destruct (_ || _).
  - match goal with |- context [length_prefixed ?b ?l] => specialize (Hlp l);
      destruct (length_prefixed b l) as [[body u]| |] end; cbn [mbind res_bind]; [|done..].
    pose proof (from_utf8_no_panic body).
    destruct (from_utf8 body); cbn [map_err mbind res_bind]; [lia|done..].
  - destruct (c =? P2P_CODE); [|done].
    specialize (Hlp "p2p"%string).
    destruct (length_prefixed _ _) as [[body u]| |]; cbn [mbind res_bind]; [|done..].
    pose proof (pid_no_panic (P:=P) body).
    destruct (pid_from_bytes body); cbn [map_err mbind res_bind]; [lia|done..].
Qed.

Lemma from_bytes_loop_total fuel bytes offset acc :
  (offset <= length bytes)%nat → (length bytes - offset < fuel)%nat →
  from_bytes_loop fuel bytes offset acc ≠ Panic.
Proof using.
  revert offset acc. induction fuel as [|fuel IH]; intros offset acc Ho Hf; [lia|].
  cbn [from_bytes_loop]. case_decide; [|done].
  pose proof (read_binary_total (drop offset bytes)) as Hr. rewrite length_drop in Hr.
  destruct (read_binary (drop offset bytes)) as [[p used]| |]; cbn [mbind res_bind]; [|done..].
  apply IH; lia.
Qed.

(** Pushing builds the address, its binary form and its length component by component. *)
Lemma push_all ps m : foldl push m ps = from_protocols (protocols m ++ ps).
Proof using.
  revert m. induction ps as [|p ps IH]; intros m; cbn [foldl]; [rewrite app_nil_r; by destruct m|].
  rewrite IH. unfold push, from_protocols. cbn. by rewrite <- app_assoc.
Qed.
Lemma push_to_bytes m p : to_bytes (push m p) = to_bytes m ++ write_binary p [].
Proof using. unfold to_bytes, push. cbn. by rewrite fold_left_app, <- write_binary_app. Qed.
Lemma multiaddr_len_empty m : multiaddr_is_empty m = true ↔ multiaddr_len m = 0%nat.
Proof using. unfold multiaddr_is_empty, multiaddr_len. by rewrite bool_decide_eq_true, length_zero_iff_nil. Qed.

(** ** Decapsulation *)

(** [s] occurs in [l] at index [i]. *)
Definition occurs_at (l s : list Protocol) (i : nat) : Prop := take (length s) (drop i l) = s.

Lemma decapsulate_loop_spec l s idx :
  match decapsulate_loop l s idx with
  | Some p => ∃ i, (i <= idx)%nat ∧ protocols p = take i l ∧ occurs_at l s i ∧
                ∀ j, (i < j <= idx)%nat → ~ occurs_at l s j
  | None => ∀ j, (j <= idx)%nat → ~ occurs_at l s j
  end.
Proof using.
  induction idx as [|idx IH]; cbn [decapsulate_loop]; case_decide as Hd.
  - exists 0%nat. split_and!; [lia|done..|]. intros j Hj. lia.
  - intros j Hj. by replace j with 0%nat by lia.
  - exists (S idx). split_and!; [lia|done..|]. intros j Hj. lia.
  - destruct (decapsulate_loop l s idx) as [p|].
    + destruct IH as (i & Hi & Hp & Ho & Hmax). exists i. split_and!; [lia|done..|].
      intros j Hj. destruct (decide (j = S idx)) as [->|]; [done|]. apply Hmax. lia.
    + intros j Hj. destruct (decide (j = S idx)) as [->|]; [done|]. apply IH. lia.
Qed.

Lemma occurs_at_bound l s i : s ≠ [] → occurs_at l s i → (i + length s <= length l)%nat.
Proof using.
  intros Hs Ho. apply (f_equal length) in Ho. rewrite length_take, length_drop in Ho.
  assert (0 < length s)%nat by (destruct s; [done|simpl; lia]). lia.
Qed.

(** ** Properties *)

(** Binary round trip: every multiaddr decodes from its binary form to itself,
    and encapsulation is concatenation of the binary forms. *)
Theorem multiaddr_bytes_roundtrip m n :
  maddr_ok m → maddr_ok n →
  from_bytes (to_bytes m) = Ok m ∧
  to_bytes (encapsulate m n) = to_bytes m ++ to_bytes n ∧
  from_bytes (to_bytes m ++ to_bytes n) = Ok (encapsulate m n).
Proof using.
  intros Hm Hn. assert (to_bytes (encapsulate m n) = to_bytes m ++ to_bytes n) as He.
  { rewrite !to_bytes_concat. unfold encapsulate. simpl. by rewrite fmap_app, concat_app. }
  split_and!; [by apply from_to_bytes|done|]. rewrite <- He. apply from_to_bytes.
  by apply Forall_app.
Qed.

Lemma from_bytes_no_panic bytes : from_bytes bytes ≠ Panic.
Proof using. apply from_bytes_loop_total; lia. Qed.

(** Decapsulation removes from the last occurrence of the suffix on: the result is
    the part before the last index at which the suffix occurs, there is no result
    exactly when it does not occur, and it undoes encapsulation. *)
Theorem multiaddr_decapsulate m s :
  protocols s ≠ [] →
  match decapsulate m s with
  | Some p => ∃ i, protocols p = take i (protocols m) ∧ occurs_at (protocols m) (protocols s) i ∧
                ∀ j, (i < j)%nat → ~ occurs_at (protocols m) (protocols s) j
  | None => ∀ j, ~ occurs_at (protocols m) (protocols s) j
  end ∧
  decapsulate (encapsulate m s) s = Some m.
Proof using.
  intros Hs. split.
  - unfold decapsulate. rewrite decide_False by done. case_decide as Hlen.
    { intros j Ho%occurs_at_bound; [lia|done]. }
    pose proof (decapsulate_loop_spec (protocols m) (protocols s)
      (length (protocols m) - length (protocols s))) as Hl.
    destruct (decapsulate_loop _ _ _) as [p|].
    + destruct Hl as (i & Hi & Hp & Ho & Hmax). exists i. split_and!; [done..|].
      intros j Hj Hoj. pose proof (occurs_at_bound _ _ _ Hs Hoj). apply (Hmax j); [lia|done].
    + intros j Hoj. pose proof (occurs_at_bound _ _ _ Hs Hoj). apply (Hl j); [lia|done].
  - unfold decapsulate, encapsulate. cbn [protocols]. rewrite decide_False by done.
    rewrite length_app, decide_False by lia.
    replace (length (protocols m) + length (protocols s) - length (protocols s))%nat
      with (length (protocols m)) by lia.
    assert (take (length (protocols s)) (drop (length (protocols m)) (protocols m ++ protocols s))
      = protocols s) as Ho.
    { rewrite drop_app_length. apply firstn_all. }
    destruct (length (protocols m)) as [|k] eqn:Ek; cbn [decapsulate_loop];
      rewrite decide_True by done; rewrite <- Ek, take_app_length; by destruct m.
Qed.

End multiaddr.

#[global] Arguments Protocol : clear implicits.
#[global] Arguments Multiaddr : clear implicits.

(** ** Witnesses *)

Definition demo_addr : Multiaddr (PeerId PlainMultihash) :=
  {| protocols := [Ip4 [x7f; x00; x00; x01]; Udp 4001; QuicV1] |}.
Definition demo_p2p : Multiaddr (PeerId PlainMultihash) :=
  {| protocols := [P2p {| multihash := demo_mh |}] |}.

Lemma multiaddr_bytes_roundtrip_witness :
  from_bytes (λ _, EmptyString) (to_bytes demo_addr ++ to_bytes demo_p2p) = Ok (encapsulate demo_addr demo_p2p).
Proof.
  apply (multiaddr_bytes_roundtrip (λ _, EmptyString) demo_addr demo_p2p).
  - repeat constructor; simpl; lia.
  - repeat constructor.
Defined.

Lemma multiaddr_decapsulate_witness :
  decapsulate (encapsulate demo_addr demo_addr) demo_addr = Some demo_addr.
Proof. apply (multiaddr_decapsulate demo_addr demo_addr). done. Defined.
