(* ===== verification/PeerAddr.v ===== *)
(** * Peer addresses and dial candidates ([crates/core/src/peer_addr.rs],
      [candidates.rs])

    A peer address is a transport address with a peer id at its end; the candidate
    selector chooses, among the addresses a node knows for itself, the ones a remote
    can dial. *)
From S2P Require Import Prelude NetAddr Multibase PeerId Multiaddr.
From Stdlib Require Import ZArith Strings.Byte Strings.String.
From stdpp Require Import base numbers list strings.

#[local] Open Scope Z_scope.

(** [Iterator::position], [Iterator::rposition]. *)
Fixpoint position {A} (f : A → bool) (l : list A) : option nat :=
  match l with
  | [] => None
  | x :: l => if f x then Some O else S <$> position f l
  end.
Definition rposition {A} (f : A → bool) (l : list A) : option nat :=
  (λ i, (length l - 1 - i)%nat) <$> position f (rev l).

Section position.
Context {A : Type} (f : A → bool).

Lemma position_None l : position f l = None ↔ Forall (λ x, f x = false) l.
Proof.
  induction l as [|x l IH]; cbn [position]; [done|]. rewrite Forall_cons.
  destruct (f x), (position f l); naive_solver.
Qed.

Lemma position_app_l l1 x l2 : Forall (λ y, f y = false) l1 → f x = true → position f (l1 ++ x :: l2) = Some (length l1).
Proof. induction 1 as [|y l1 Hy _ IH]; intros Hx; cbn; [by rewrite Hx|]. by rewrite Hy, IH. Qed.

Lemma position_Some l i : position f l = Some i →
  ∃ l1 x l2, l = l1 ++ x :: l2 ∧ length l1 = i ∧ f x = true ∧ Forall (λ y, f y = false) l1.
Proof.
  revert i. induction l as [|x l IH]; cbn [position]; intros i; [done|].
  destruct (f x) eqn:E; [intros [= <-]; by exists [], x, l|].
  intros (j & Hj & ->)%fmap_Some. destruct (IH j Hj) as (l1 & y & l2 & -> & <- & Hy & Hf).
  exists (x :: l1), y, l2. by split_and!; [| | |constructor].
Qed.

Lemma rposition_None l : rposition f l = None ↔ Forall (λ x, f x = false) l.
Proof.
  unfold rposition. rewrite fmap_None, position_None. split; intros H; [|by apply List.Forall_rev].
  rewrite <- (rev_involutive l). by apply List.Forall_rev.
Qed.

Lemma rposition_last l x : f x = true → rposition f (l ++ [x]) = Some (length l).
Proof.
  intros Hx. unfold rposition. rewrite rev_app_distr. cbn [rev app position]. rewrite Hx.
  cbn. rewrite length_app. cbn. f_equal. lia.
Qed.

(** The last match is at the end of the list exactly when its last element matches. *)
Lemma rposition_end l x : rposition f (l ++ [x]) = Some (length l) ↔ f x = true.
Proof.
  split; [|apply rposition_last]. unfold rposition. rewrite rev_app_distr. cbn [rev app position].
  destruct (f x); [done|]. intros (i & (j & Hj & ->)%fmap_Some & Hl)%fmap_Some.
  rewrite length_app in Hl. cbn [length] in Hl. destruct l as [|y l]; [by destruct j|cbn [length] in Hl; lia].
Qed.
End position.

(** ** Peer addresses *)

Inductive PeerAddrError : Type :=
  | PeerAddrMultiaddr (e : MultiaddrError)
  | MissingPeerId
  | NonTerminalPeerId
  | TransportContainsPeerId
  | EmptyTransport.

#[export] Instance PeerAddrError_display : Display PeerAddrError := λ e,
  match e with
  | PeerAddrMultiaddr e => "multiaddr parse error: " ++ to_string e
  | MissingPeerId => "peer address must end with /p2p/<peer-id>"
  | NonTerminalPeerId => "peer id protocol must be terminal"
  | TransportContainsPeerId => "transport address must not already contain /p2p"
  | EmptyTransport =>
      "transport address must contain at least one protocol before /p2p/<peer-id>"
  end%string.

Section peer_addr.
Context {P : Type} `{PidEq : EqDecision P}.

Record PeerAddr : Type := { pa_transport : Multiaddr P; pa_peer_id : P }.

Definition is_p2p (p : Protocol P) : bool := match p with P2p _ => true | _ => false end.

Definition pa_new (transport : Multiaddr P) (peer_id : P) : res PeerAddrError PeerAddr :=
  if existsb is_p2p (protocols transport) then Err TransportContainsPeerId
  else if decide (protocols transport = []) then Err EmptyTransport
  else Ok {| pa_transport := transport; pa_peer_id := peer_id |}.

Definition quic_v1 (ip : IpAddr) (udp_port : Z) (peer_id : P) : PeerAddr :=
  let host := match ip with V4 o => Ip4 o | V6 o => Ip6 o end in
  let transport := {| protocols := [host; Udp udp_port; QuicV1] |} in
  {| pa_transport := transport; pa_peer_id := peer_id |}.

(** An index past the end of [protocols] unwinds. *)
Definition from_multiaddr (multiaddr : Multiaddr P) : res PeerAddrError PeerAddr :=
  let protocols := Multiaddr.protocols multiaddr in
  last ← ok_or (rposition is_p2p protocols) MissingPeerId;
  if decide (last ≠ (length protocols - 1)%nat) then Err NonTerminalPeerId
  else
    first ← ok_or (position is_p2p protocols) MissingPeerId;
    if decide (first ≠ last) then Err NonTerminalPeerId
    else
      peer_id ← match protocols !! last with
                | Some (P2p peer_id) => Ok peer_id
                | Some _ => Err MissingPeerId
                | None => Panic
                end;
      let transport_slice := take last protocols in
      if decide (transport_slice = []) then Err EmptyTransport
      else Ok {| pa_transport := {| Multiaddr.protocols := transport_slice |}; pa_peer_id := peer_id |}.

Definition to_multiaddr (a : PeerAddr) : Multiaddr P :=
  {| protocols := protocols (pa_transport a) ++ [P2p (pa_peer_id a)] |}.

(** What the type promises. *)
Definition peer_addr_ok (a : PeerAddr) : Prop :=
  protocols (pa_transport a) ≠ [] ∧ Forall (λ p, is_p2p p = false) (protocols (pa_transport a)).

(** ** Dial candidates *)

Inductive DirectCandidateSource : Type := Manual | IdentifyObserved | Listen.
Inductive DirectCandidateRejectReason : Type := WildcardBindAddress | NotQuicV1Transport | Duplicate.

Definition source_as_str (s : DirectCandidateSource) : string :=
  match s with Manual => "manual" | IdentifyObserved => "identify-observed" | Listen => "listen" end.
Definition reason_as_str (r : DirectCandidateRejectReason) : string :=
  match r with
  | WildcardBindAddress => "wildcard-bind-address"
  | NotQuicV1Transport => "not-quic-v1-transport"
  | Duplicate => "duplicate"
  end.

Record DirectCandidateRejection : Type := {
  rej_source : DirectCandidateSource;
  rej_addr : Multiaddr P;
  rej_reason : DirectCandidateRejectReason;
}.
Record DirectCandidate : Type := { cand_source : DirectCandidateSource; cand_addr : Multiaddr P }.
Record DirectCandidateSelection : Type := {
  accepted : list DirectCandidate;
  rejected : list DirectCandidateRejection;
}.

Definition selection_is_empty (s : DirectCandidateSelection) : bool := bool_decide (accepted s = []).
Definition into_addrs (s : DirectCandidateSelection) : list (Multiaddr P) := cand_addr <$> accepted s.

Definition is_wildcard_addr (addr : Multiaddr P) : bool :=
  match protocols addr with
  | Ip4 bytes :: _ => bool_decide (bytes = [x00; x00; x00; x00])
  | Ip6 bytes :: _ => bool_decide (bytes = replicate 16 x00)
  | _ => false
  end.

Definition reject (selection : DirectCandidateSelection) (source : DirectCandidateSource)
    (addr : Multiaddr P) (reason : DirectCandidateRejectReason) : DirectCandidateSelection :=
  {| accepted := accepted selection;
     rejected := rejected selection ++ [{| rej_source := source; rej_addr := addr; rej_reason := reason |}] |}.

Definition push_candidate (selection : DirectCandidateSelection) (source : DirectCandidateSource)
    (addr : Multiaddr P) : DirectCandidateSelection :=
  if is_wildcard_addr addr then reject selection source addr WildcardBindAddress
  else if negb (is_quic_transport addr) then reject selection source addr NotQuicV1Transport
  else if existsb (λ candidate, bool_decide (cand_addr candidate = addr)) (accepted selection)
  then reject selection source addr Duplicate
  else
    {| accepted := accepted selection ++ [{| cand_source := source; cand_addr := addr |}];
       rejected := rejected selection |}.

Definition select_direct_candidates (manual : list (Multiaddr P))
    (identify_observed listen : option (Multiaddr P)) : DirectCandidateSelection :=
  let selection := {| accepted := []; rejected := [] |} in
  let selection := fold_left (λ s addr, push_candidate s Manual addr) manual selection in
  let selection := match identify_observed with
                   | Some addr => push_candidate selection IdentifyObserved addr
                   | None => selection
                   end in
  match listen with
  | Some addr => push_candidate selection Listen addr
  | None => selection
  end.


(** ** Peer addresses: lemmas *)

Lemma existsb_p2p (ps : list (Protocol P)) : existsb is_p2p ps = false ↔ Forall (λ p, is_p2p p = false) ps.
Proof. induction ps; cbn; [done|]. rewrite orb_false_iff, Forall_cons. by f_equiv. Qed.

Lemma from_to_multiaddr a : peer_addr_ok a → from_multiaddr (to_multiaddr a) = Ok a.
Proof.
  destruct a as [[ps] p]. intros [Hne Hf]. cbn in *. unfold from_multiaddr, to_multiaddr. cbn [protocols pa_transport pa_peer_id].
  rewrite rposition_last by done. cbn [ok_or mbind res_bind]. rewrite length_app. cbn [length].
  rewrite decide_False by (intros H; apply H; lia).
  rewrite (position_app_l is_p2p ps (P2p p) []) by done. cbn [ok_or mbind res_bind].
  rewrite decide_False by tauto. rewrite list_lookup_middle by done. cbn [mbind res_bind].
  rewrite take_app_length. by rewrite decide_False.
Qed.

Lemma from_multiaddr_cases m :
  match from_multiaddr m with
  | Ok a => peer_addr_ok a ∧ to_multiaddr a = m
  | Err MissingPeerId => Forall (λ p, is_p2p p = false) (protocols m)
  | Err NonTerminalPeerId => ∃ ps p x ps', protocols m = ps ++ P2p p :: x :: ps'
  | Err EmptyTransport => ∃ p, protocols m = [P2p p]
  | _ => False
  end.
Proof.
  destruct m as [ps]. unfold from_multiaddr. cbn [protocols].
  destruct (rposition is_p2p ps) as [j|] eqn:Ej; cbn [ok_or mbind res_bind]; [|by apply rposition_None in Ej].
  destruct (position is_p2p ps) as [i|] eqn:Ei; cycle 1.
  { apply position_None, (rposition_None is_p2p) in Ei. congruence. }
  destruct (position_Some _ _ _ Ei) as (l1 & x & l2 & -> & <- & Hx & Hf).
  destruct x as [| | | | | | |p]; try done.
  case_decide as Hj.
  - destruct l2 as [|y l2]; [|by exists l1, p, y, l2].
    rewrite rposition_last in Ej by done. rewrite length_app in Hj. cbn in Hj. simplify_eq. lia.
  - cbn [ok_or mbind res_bind]. case_decide as Hij; [|].
    + destruct l2 as [|y l2]; [|by exists l1, p, y, l2].
      rewrite rposition_last in Ej by done. simplify_eq.
    + rewrite length_app in Hj. destruct l2 as [|y l2]; [|cbn in Hj; lia]. rewrite <- Hij in *. clear Hj Hij Ej.
      rewrite list_lookup_middle by done. cbn [mbind res_bind]. rewrite take_app_length.
      case_decide as He; [subst l1; by exists p|]. done.
Qed.

Lemma pa_new_ok t p a : pa_new t p = Ok a → peer_addr_ok a ∧ pa_transport a = t ∧ pa_peer_id a = p.
Proof.
  destruct t as [ps]. unfold pa_new. cbn [protocols]. destruct (existsb _ _) eqn:E; [done|].
  case_decide; [done|]. intros [= <-]. by split_and!; [split; [|by apply existsb_p2p]|..].
Qed.

(** C36. [PeerAddr] is a type of addresses that end in their only peer id, after at
    least one transport component: all three constructors produce such values, and
    parsing a multiaddr succeeds exactly on the addresses that values of the type
    print, giving back that value; otherwise the error tells which condition failed. *)
Theorem peer_addr_type :
  (∀ t p a, pa_new t p = Ok a → peer_addr_ok a ∧ pa_transport a = t ∧ pa_peer_id a = p) ∧
  (∀ ip port p, peer_addr_ok (quic_v1 ip port p)) ∧
  (∀ m a, from_multiaddr m = Ok a ↔ peer_addr_ok a ∧ to_multiaddr a = m) ∧
  (∀ a, peer_addr_ok a → pa_new (pa_transport a) (pa_peer_id a) = Ok a) ∧
  (∀ m, match from_multiaddr m with
        | Ok _ => True
        | Err MissingPeerId => Forall (λ p, is_p2p p = false) (protocols m)
        | Err NonTerminalPeerId => ∃ ps p x ps', protocols m = ps ++ P2p p :: x :: ps'
        | Err EmptyTransport => ∃ p, protocols m = [P2p p]
        | _ => False
        end).
Proof.
  split_and!.
  - apply pa_new_ok.
  - intros [o|o] port p; (split; [done|]); by repeat constructor.
  - intros m a. split; [|intros [Hok <-]; by apply from_to_multiaddr].
    intros E. pose proof (from_multiaddr_cases m) as H. by rewrite E in H.
  - intros [[ps] p] [Hne Hf]. unfold pa_new. cbn in *. apply existsb_p2p in Hf. by rewrite Hf, decide_False.
  - intros m. pose proof (from_multiaddr_cases m) as H. by destruct (from_multiaddr m) as [|[]|].
Qed.

(** ** Dial candidates: lemmas *)

Definition candidates (manual : list (Multiaddr P)) (identify_observed listen : option (Multiaddr P))
    : list DirectCandidate :=
  (Build_DirectCandidate Manual <$> manual)
  ++ (Build_DirectCandidate IdentifyObserved <$> option_list identify_observed)
  ++ (Build_DirectCandidate Listen <$> option_list listen).

(** Why a candidate is refused, given those that come before it. *)
Definition refusal (before : list DirectCandidate) (c : DirectCandidate) : option DirectCandidateRejectReason :=
  if is_wildcard_addr (cand_addr c) then Some WildcardBindAddress
  else if negb (is_quic_transport (cand_addr c)) then Some NotQuicV1Transport
  else if decide (cand_addr c ∈ cand_addr <$> before) then Some Duplicate
  else None.

Definition keep (before : list DirectCandidate) (c : DirectCandidate) : option DirectCandidate :=
  match refusal before c with None => Some c | Some _ => None end.
Definition refuse (before : list DirectCandidate) (c : DirectCandidate) : option DirectCandidateRejection :=
  (λ r, {| rej_source := cand_source c; rej_addr := cand_addr c; rej_reason := r |}) <$> refusal before c.

(** [f] on every element with the elements before it. *)
Definition with_before {A B} (f : list A → A → option B) (l : list A) : list B :=
  omap id (imap (λ i x, f (take i l) x) l).

Lemma with_before_snoc {A B} (f : list A → A → option B) l x :
  with_before f (l ++ [x]) = with_before f l ++ option_list (f l x).
Proof.
  unfold with_before. rewrite imap_app. cbn [imap]. rewrite omap_app, Nat.add_0_r, take_app_length.
  rewrite (imap_ext _ (λ i x, f (take i l) x) l).
  - cbn. by destruct (f l x).
  - intros i y Hi%lookup_lt_Some. by rewrite take_app_le by lia.
Qed.

Definition push_all (cs : list DirectCandidate) : DirectCandidateSelection :=
  foldl (λ s c, push_candidate s (cand_source c) (cand_addr c)) {| accepted := []; rejected := [] |} cs.

Lemma select_push_all manual observed listen :
  select_direct_candidates manual observed listen = push_all (candidates manual observed listen).
Proof.
  unfold select_direct_candidates, push_all, candidates. rewrite !foldl_app.
  assert (∀ s, fold_left (λ s a, push_candidate s Manual a) manual s
    = foldl (λ s c, push_candidate s (cand_source c) (cand_addr c)) s (Build_DirectCandidate Manual <$> manual)) as ->.
  { induction manual as [|a l IH]; intros s; cbn; [done|]. apply IH. }
  by destruct observed, listen.
Qed.

Definition dialable (c : DirectCandidate) : Prop :=
  is_wildcard_addr (cand_addr c) = false ∧ is_quic_transport (cand_addr c) = true.

(** A dialable address is among the accepted ones exactly when it occurred before. *)
Lemma seen_before sel cs c :
  sel `sublist_of` cs → (∀ d, d ∈ cs → dialable d → cand_addr d ∈ cand_addr <$> sel) → dialable c →
  existsb (λ d, bool_decide (cand_addr d = cand_addr c)) sel = bool_decide (cand_addr c ∈ cand_addr <$> cs).
Proof.
  intros Hs Hin [Hw Hq]. apply eq_true_iff_eq. rewrite bool_decide_eq_true, existsb_exists.
  setoid_rewrite bool_decide_eq_true. rewrite list_elem_of_fmap. split.
  - intros (d & Hd1%list_elem_of_In & <-). exists d. split; [done|]. by eapply elem_of_sublist.
  - intros (d & Hcd & Hd'). assert (dialable d) as Hdd by (split; by rewrite <- Hcd).
    apply (Hin d Hd') in Hdd as (e & He & Hein)%list_elem_of_fmap. exists e.
    rewrite <- list_elem_of_In. split; [done|congruence].
Qed.

Lemma push_all_spec cs :
  accepted (push_all cs) = with_before keep cs ∧
  rejected (push_all cs) = with_before refuse cs ∧
  Forall dialable (accepted (push_all cs)) ∧
  NoDup (cand_addr <$> accepted (push_all cs)) ∧
  (∀ c, c ∈ cs → dialable c → cand_addr c ∈ cand_addr <$> accepted (push_all cs)) ∧
  accepted (push_all cs) `sublist_of` cs.
Proof.
  induction cs as [|c cs (Ha & Hr & Hd & Hn & Hin & Hs)] using rev_ind.
  { split_and!; try done; try constructor. by intros c []%elem_of_nil. }
  assert (push_all (cs ++ [c]) = push_candidate (push_all cs) (cand_source c) (cand_addr c)) as ->
    by (unfold push_all; by rewrite foldl_app).
  rewrite !with_before_snoc, <- Ha, <- Hr. unfold push_candidate, keep, refuse, refusal.
  assert (∀ sel, accepted sel = accepted (push_all cs) → (dialable c → cand_addr c ∈ cand_addr <$> accepted sel) →
    ∀ c', c' ∈ cs ++ [c] → dialable c' → cand_addr c' ∈ cand_addr <$> accepted sel) as Hin'.
  { intros sel -> Hc c' [Hc'| ->%list_elem_of_singleton]%elem_of_app; auto. }
  destruct (is_wildcard_addr (cand_addr c)) eqn:Ew; cbn [accepted rejected reject option_list fmap option_fmap option_map].
  { rewrite app_nil_r. split_and!; try done; [apply Hin'; [done|]; by intros [? _]; congruence|by apply sublist_inserts_r]. }
  destruct (is_quic_transport (cand_addr c)) eqn:Eq; cbn [negb]; cycle 1.
  { cbn. rewrite app_nil_r. split_and!; try done; [apply Hin'; [done|]; by intros [_ ?]; congruence|by apply sublist_inserts_r]. }
  rewrite (seen_before (accepted (push_all cs)) cs c) by done.
  case_bool_decide as Hm; cbn [accepted rejected reject].
  - rewrite decide_True by done. cbn. rewrite app_nil_r. split_and!; try done.
    + apply Hin'; [done|]. intros Hdc. apply list_elem_of_fmap in Hm as (d & Hcd & Hd').
      cbn. rewrite Hcd. apply Hin; [done|]. split; by rewrite <- Hcd.
    + by apply sublist_inserts_r.
  - rewrite decide_False by done. cbn. rewrite app_nil_r. destruct c as [src a].
    assert (cand_addr <$> accepted (push_all cs) ⊆ cand_addr <$> cs) as Hsub.
    { intros x (d & -> & Hd')%list_elem_of_fmap. apply list_elem_of_fmap. exists d. split; [done|].
      by eapply elem_of_sublist. }
    split_and!; try done.
    + apply Forall_app. split; [done|]. by repeat constructor.
    + rewrite fmap_app, NoDup_app. split_and!; [done| |apply NoDup_singleton].
      intros x Hx Hx'. apply list_elem_of_singleton in Hx' as ->. by apply Hm, Hsub.
    + intros c' [Hc'| ->%list_elem_of_singleton]%elem_of_app Hdc; rewrite fmap_app, elem_of_app; [left; auto|right; by left].
    + by apply sublist_app.
Qed.

(** The candidate selector considers the manual addresses, then the observed one,
    then the listen address, and decides each by the same rule: wildcard hosts and
    anything but host/udp/quic-v1 are refused, and so is an address that came before;
    the accepted addresses keep that order, are dialable and pairwise different, no
    dialable address is left out, and every candidate is either accepted or refused
    with its reason. *)
Theorem candidates_selected manual observed listen :
  let cs := candidates manual observed listen in
  let sel := select_direct_candidates manual observed listen in
  accepted sel = with_before keep cs ∧ rejected sel = with_before refuse cs ∧
  Forall dialable (accepted sel) ∧ NoDup (into_addrs sel) ∧
  (∀ c, c ∈ cs → dialable c → cand_addr c ∈ into_addrs sel) ∧
  (length (accepted sel) + length (rejected sel) = length cs)%nat.
Proof.
  cbv zeta. rewrite select_push_all. generalize (candidates manual observed listen) as cs. intros cs.
  destruct (push_all_spec cs) as (Ha & Hr & Hd & Hn & Hin & _). split_and!; try done.
  rewrite Ha, Hr. clear. induction cs as [|c cs IH] using rev_ind; [done|].
  rewrite !with_before_snoc, !length_app. unfold keep at 2, refuse at 2. destruct (refusal cs c); cbn; lia.
Qed.

End peer_addr.

#[global] Arguments PeerAddr : clear implicits.
