(* ===== verification/MultiaddrText.v ===== *)
(** * The text of addresses ([crates/core/src/multiaddr.rs], [peer_addr.rs])

    [Display] and [FromStr] of multiaddrs and peer addresses.  Peer ids are used through
    [PeerIdText], which [PeerId] implements. *)
From S2P Require Import Prelude Utf8 NetAddr TextParse Varint Multibase PeerId Multiaddr PeerAddr.
From Stdlib Require Import ZArith Strings.Byte Strings.Ascii Strings.String.
From stdpp Require Import base numbers list strings.

#[local] Open Scope Z_scope.

(** What the text of addresses needs of peer ids.  Not every peer id is read back from
    what it prints ([PeerId.peer_id_other_hash_not_parsed]): those of [pid_printable] are. *)
Class PeerIdText (P : Type) `{!PeerIdBytes P} `{!Display P} := {
  pid_from_str : string → res PeerIdError P;
  pid_printable : P → Prop;
  pid_printable_ok p : pid_printable p → pid_ok p;
  pid_text_roundtrip p : pid_printable p → pid_from_str (to_string p) = Ok p;
  pid_text_slash (p : P) : x2f ∉ as_bytes (to_string p);
  pid_from_str_ok s p : pid_from_str s = Ok p → pid_ok p;
  pid_from_str_empty p : pid_from_str EmptyString ≠ Ok p;
  pid_from_str_no_panic s : pid_from_str s ≠ Panic;
}.

(** [char::is_whitespace], [char::is_control]. *)
Definition is_whitespace (c : Z) : bool :=
  (c =? 0x20) || (0x09 <=? c) && (c <=? 0x0d) || (c =? 0x85) || (c =? 0xa0) || (c =? 0x1680)
  || (0x2000 <=? c) && (c <=? 0x200a) || (c =? 0x2028) || (c =? 0x2029) || (c =? 0x202f)
  || (c =? 0x205f) || (c =? 0x3000).
Definition is_control (c : Z) : bool := (c <=? 0x1f) || (0x7f <=? c) && (c <=? 0x9f).

Definition is_valid_dns (value : string) : bool :=
  negb (bool_decide (value = EmptyString)) && negb (bool_decide (x2f ∈ as_bytes value))
  && negb (existsb (λ ch, is_whitespace ch || is_control ch) (chars value)).

(** [for slot in &mut out]: the next part of each slot must be there and be a [u8]. *)
Fixpoint parse_slots (n : nat) (parts : list string) : option (list byte * list string) :=
  match n with
  | O => Some ([], parts)
  | S n =>
      match parts with
      | [] => None
      | part :: parts =>
          v ← parse_uint 255 part;
          '(out, parts) ← parse_slots n parts;
          Some (Z_byte v :: out, parts)
      end
  end.
Definition parse_ip4 (value : string) : option (list byte) :=
  '(out, parts) ← parse_slots 4 (str_split x2e value);
  match parts with [] => Some out | _ :: _ => None end.

Definition require_value (segments : list string) (idx : nat) (protocol : string) : res MultiaddrError string :=
  match segments !! (idx + 1)%nat with
  | Some value => if decide (value ≠ EmptyString) then Ok value else Err (MissingValue protocol)
  | None => Err (MissingValue protocol)
  end.

Section text.
Context {P : Type} `{PidEq : EqDecision P} `{PB : !PeerIdBytes P} `{PD : !Display P} `{PT : !PeerIdText P}.

(** ** Printing *)

Definition protocol_text (p : Protocol P) : string :=
  match p with
  | Ip4 bytes => "/ip4/" ++ ipv4_text bytes
  | Ip6 bytes => "/ip6/" ++ ipv6_text bytes
  | Dns value => "/dns/" ++ value
  | Dns4 value => "/dns4/" ++ value
  | Dns6 value => "/dns6/" ++ value
  | Udp port => "/udp/" ++ to_string port
  | QuicV1 => "/quic-v1"
  | P2p peer_id => "/p2p/" ++ to_string peer_id
  end%string.
#[export] Instance Multiaddr_display : Display (Multiaddr P) := λ m,
  fold_left (λ s p, s ++ protocol_text p)%string (protocols m) EmptyString.

(** ** Parsing *)

(** The arm of [match protocol] for the segment at [idx]: the component and the number
    of segments it takes. *)
Definition parse_component (segments : list string) (idx : nat) (protocol : string)
    : res MultiaddrError (Protocol P * nat) :=
  if decide (protocol = "ip4"%string) then
    value ← require_value segments idx "ip4";
    parsed ← ok_or (parse_ip4 value) (InvalidIp4 value);
    Ok (Ip4 parsed, 2%nat)
  else if decide (protocol = "ip6"%string) then
    value ← require_value segments idx "ip6";
    parsed ← ok_or (parse_ipv6 value) (InvalidIp6 value);
    Ok (Ip6 parsed, 2%nat)
  else if decide (protocol = "dns"%string ∨ protocol = "dns4"%string ∨ protocol = "dns6"%string) then
    value ← require_value segments idx protocol;
    if negb (is_valid_dns value) then Err (InvalidDnsName value)
    else if decide (protocol = "dns"%string) then Ok (Dns value, 2%nat)
    else if decide (protocol = "dns4"%string) then Ok (Dns4 value, 2%nat)
    else Ok (Dns6 value, 2%nat)
  else if decide (protocol = "udp"%string) then
    value ← require_value segments idx "udp";
    parsed ← ok_or (parse_uint 0xffff value) (InvalidPort value);
    Ok (Udp parsed, 2%nat)
  else if decide (protocol = "quic-v1"%string) then Ok (QuicV1, 1%nat)
  else if decide (protocol = "p2p"%string) then
    value ← require_value segments idx "p2p";
    parsed ← map_err (InvalidPeerId value) (pid_from_str value);
    Ok (P2p parsed, 2%nat)
  else Err (UnknownProtocol protocol).

(** [while idx < segments.len()]. *)
Fixpoint parse_loop (fuel : nat) (segments : list string) (idx : nat) (protocols : list (Protocol P))
    : res MultiaddrError (list (Protocol P)) :=
  match fuel with
  | O => Panic
  | S fuel =>
      match segments !! idx with
      | None => Ok protocols
      | Some protocol =>
          if decide (protocol = EmptyString) then Err EmptyProtocol
          else
            '(p, n) ← parse_component segments idx protocol;
            parse_loop fuel segments (idx + n) (protocols ++ [p])
      end
  end.

Definition parse_multiaddr (input : string) : res MultiaddrError (Multiaddr P) :=
  if decide (input = EmptyString) then Err EmptyMultiaddr
  else if negb (starts_with "/" input) then Err MissingLeadingSlash
  else
    let segments := str_split x2f input in
    protocols ← parse_loop (length segments) segments 1 [];
    Ok {| protocols := protocols |}.

(** [impl Display] and [impl FromStr] of [PeerAddr]. *)
#[export] Instance PeerAddr_display : Display (PeerAddr P) := λ a, to_string (to_multiaddr a).
Definition peer_addr_from_str (s : string) : res PeerAddrError (PeerAddr P) :=
  multiaddr ← map_err PeerAddrMultiaddr (parse_multiaddr s);
  from_multiaddr multiaddr.

(** ** Segments *)

Definition component_segments (p : Protocol P) : list string :=
  match p with
  | Ip4 bytes => ["ip4"; ipv4_text bytes]
  | Ip6 bytes => ["ip6"; ipv6_text bytes]
  | Dns value => ["dns"; value]
  | Dns4 value => ["dns4"; value]
  | Dns6 value => ["dns6"; value]
  | Udp port => ["udp"; to_string port]
  | QuicV1 => ["quic-v1"]
  | P2p peer_id => ["p2p"; to_string peer_id]
  end%string.

(** Components that the parser makes; and those it makes from their own text. *)
Definition parsed_ok (p : Protocol P) : Prop :=
  protocol_ok p ∧ match p with Dns n | Dns4 n | Dns6 n => is_valid_dns n = true | _ => True end.
Definition printable (p : Protocol P) : Prop :=
  parsed_ok p ∧ match p with P2p peer => pid_printable peer | _ => True end.

Definition slashed (segs : list (list byte)) : list byte := segs ≫= cons x2f.

Lemma protocol_text_segments p : as_bytes (protocol_text p) = slashed (as_bytes <$> component_segments p).
Proof. destruct p; cbn [protocol_text component_segments fmap list_fmap]; unfold slashed; cbn [mbind list_bind]; rewrite ?as_bytes_app, ?app_nil_r; reflexivity. Qed.

Lemma display_segments ps s : as_bytes (fold_left (λ s p, s ++ protocol_text p)%string ps s)
  = as_bytes s ++ slashed (as_bytes <$> (ps ≫= component_segments)).
Proof.
  revert s. induction ps as [|p ps IH]; intros s; cbn [fold_left mbind list_bind]; [by rewrite app_nil_r|].
  rewrite IH, as_bytes_app, protocol_text_segments, <- app_assoc. unfold slashed. by rewrite fmap_app, bind_app.
Qed.

Lemma split_slashed s segs : x2f ∉ s → Forall (λ s, x2f ∉ s) segs → split_bytes x2f (s ++ slashed segs) = s :: segs.
Proof.
  intros Hs Hsegs. revert s Hs. induction Hsegs as [|t segs Ht _ IH]; intros s Hs; unfold slashed; cbn [mbind list_bind].
  - rewrite app_nil_r. by apply split_bytes_last.
  - rewrite <- app_comm_cons, split_bytes_app by done. f_equal. by apply IH.
Qed.

(** ** Reading back *)

Lemma ipv4_text_no c o : to_digit 16 c = None → c ≠ x2e → c ∉ as_bytes (ipv4_text o).
Proof.
  intros Hc Hdot. assert (∀ b : byte, c ∉ as_bytes (to_string (byte_Z b))) as Hb.
  { intros b. pose proof (byte_Z_range b). destruct (display_numeral (byte_Z b)) as (ds & -> & Hds & _); [lia|].
    intros (d & -> & Hd)%list_elem_of_fmap. rewrite Forall_forall in Hds. apply Hds in Hd. by apply (digit_byte_not 10 d (digit_byte d)). }
  unfold ipv4_text, str_join. destruct o as [|b o]; [apply not_elem_of_nil|]. revert b.
  induction o as [|b' o IH]; intros b; [apply Hb|].
  change (c ∉ as_bytes (to_string (byte_Z b) ++ "." ++ String.concat "." (to_string ∘ byte_Z <$> b' :: o))%string).
  rewrite !as_bytes_app, !not_elem_of_app. split_and!; [apply Hb| |apply IH]. change (c ∉ [x2e]). by rewrite list_elem_of_singleton.
Qed.

Lemma groups_text_no c first gs : to_digit 16 c = None → c ≠ x3a → Forall (λ g, 0 <= g < 65536) gs → c ∉ groups_text first gs.
Proof.
  intros Hc Hcolon Hgs. revert first. induction Hgs as [|g gs Hg _ IH]; intros first; cbn [groups_text]; [apply not_elem_of_nil|].
  rewrite !not_elem_of_app. split_and!; [destruct first; [apply not_elem_of_nil|by rewrite list_elem_of_singleton]| |apply IH].
  destruct (lower_hex_numeral g) as (ds & -> & Hds & _); [lia|].
  intros (d & -> & Hd)%list_elem_of_fmap. rewrite Forall_forall in Hds. apply Hds in Hd. by apply (digit_byte_not 16 d (digit_byte d)).
Qed.

Lemma ipv6_text_slash o : x2f ∉ as_bytes (ipv6_text o).
Proof.
  pose proof (segments_range o). unfold ipv6_text. case_decide; [|destruct (longest_zeros _ _ _ _ _ _) as [start len]; case_match].
  - rewrite as_bytes_app, not_elem_of_app. split; [|by apply ipv4_text_no]. apply (bool_decide_unpack _). reflexivity.
  - rewrite !as_bytes_app, !not_elem_of_app, !segments_text_groups. split_and!; [apply groups_text_no; [done..|by apply Forall_take]| |apply groups_text_no; [done..|by apply Forall_drop]].
    apply (bool_decide_unpack _). reflexivity.
  - rewrite segments_text_groups. by apply groups_text_no.
Qed.

Lemma parse_ip4_text o : length o = 4%nat → parse_ip4 (ipv4_text o) = Some o.
Proof.
  intros Ho. destruct o as [|a [|b [|c [|d [|? ?]]]]]; try done.
  assert (∀ x : byte, x2e ∉ as_bytes (to_string (byte_Z x))) as Hno.
  { intros x. pose proof (byte_Z_range x). destruct (display_numeral (byte_Z x)) as (ds & -> & Hds & _); [lia|].
    intros (e & He & Hd)%list_elem_of_fmap. rewrite Forall_forall in Hds. apply Hds in Hd. symmetry in He.
    by apply (digit_byte_not 10) in He; [|lia..|]. }
  unfold parse_ip4, str_split, ipv4_text, str_join. cbn [fmap list_fmap String.concat]. unfold compose.
  rewrite !as_bytes_app. change (as_bytes ".") with [x2e]. cbn [app].
  rewrite !split_bytes_app, split_bytes_last by apply Hno. cbn [fmap list_fmap]. rewrite !from_as_bytes.
  assert (∀ x : byte, parse_uint 255 (to_string (byte_Z x)) = Some (byte_Z x)) as Hp
    by (intros x; pose proof (byte_Z_range x); apply parse_uint_display; lia).
  cbn [parse_slots]. rewrite !Hp.
  cbn [mbind option_bind]. by rewrite !Z_byte_byte_Z.
Qed.


Lemma component_no_slash p : printable p → Forall (λ s, x2f ∉ as_bytes s) (component_segments p).
Proof.
  intros [[Hok Hdns] _].
  assert (∀ n, is_valid_dns n = true → x2f ∉ as_bytes n) as Hvalid.
  { unfold is_valid_dns. intros n [[_ Hn%negb_true_iff%bool_decide_eq_false]%andb_true_iff _]%andb_true_iff. done. }
  destruct p as [o|o|n|n|n|port| |peer]; cbn [component_segments]; (constructor; [apply (bool_decide_unpack _); reflexivity|]);
    try (constructor; [|done]); auto using ipv6_text_slash.
  - by apply ipv4_text_no.
  - cbn in Hok. destruct (display_numeral port) as (ds & -> & Hds & _); [lia|].
    intros (d & Hdb & Hd)%list_elem_of_fmap. rewrite Forall_forall in Hds. apply Hds in Hd. symmetry in Hdb.
    by apply (digit_byte_not 10) in Hdb; [|lia..|].
  - apply pid_text_slash.
Qed.

Lemma require_value_at pre name value rest label : value ≠ EmptyString →
  require_value (pre ++ name :: value :: rest) (length pre) label = Ok value.
Proof.
  intros Hv. unfold require_value. rewrite lookup_app_r by lia. replace (length pre + 1 - length pre)%nat with 1%nat by lia.
  cbn. by rewrite decide_True.
Qed.

Lemma parse_component_ip6 pre v o rest : parse_ipv6 v = Some o →
  parse_component (pre ++ "ip6"%string :: v :: rest) (length pre) "ip6" = Ok (Ip6 o, 2%nat).
Proof.
  intros H. assert (v ≠ EmptyString) as Hv by (intros ->; rewrite parse_ipv6_empty in H; discriminate H).
  unfold parse_component. decides. rewrite require_value_at by done.
  assert (∀ (k : string → res MultiaddrError (Protocol P * nat)), (value ← Ok v; k value) = k v) as -> by done.
  rewrite H. reflexivity.
Qed.

Lemma parse_component_segments pre p rest : printable p →
  ∃ name values, component_segments p = name :: values ∧ name ≠ EmptyString ∧
    parse_component (pre ++ component_segments p ++ rest) (length pre) name = Ok (p, length (component_segments p)).
Proof.
  intros [[Hok Hdns] Hpeer].
  assert (∀ n, is_valid_dns n = true → n ≠ EmptyString) as Hvalid by (by intros n Hn ->).
  destruct p as [o|o|n|n|n|port| |peer]; do 2 eexists; (split; [reflexivity|]); (split; [done|]);
    cbn [component_segments app length];
    try (apply parse_component_ip6, parse_ipv6_text; exact Hok); unfold parse_component; decides; try done.
  - rewrite require_value_at; cbn [mbind res_bind]; [by rewrite parse_ip4_text|].
    intros E. pose proof (parse_ip4_text o Hok) as H. by rewrite E in H.
  - rewrite require_value_at by auto. cbn [mbind res_bind]. rewrite Hdns. cbn [negb]. by decides.
  - rewrite require_value_at by auto. cbn [mbind res_bind]. rewrite Hdns. cbn [negb]. by decides.
  - rewrite require_value_at by auto. cbn [mbind res_bind]. rewrite Hdns. cbn [negb]. by decides.
  - cbn in Hok. assert (parse_uint 0xffff (to_string port) = Some port) as Hp by (apply parse_uint_display; lia).
    rewrite require_value_at; cbn [mbind res_bind]; [by rewrite Hp|]. intros E. by rewrite E in Hp.
  - pose proof (pid_text_roundtrip peer Hpeer) as H. rewrite require_value_at; cbn [mbind res_bind]; [by rewrite H|].
    intros E. rewrite E in H. by apply pid_from_str_empty in H.
Qed.

Lemma parse_loop_segments ps pre acc fuel : Forall printable ps → (length ps < fuel)%nat →
  parse_loop fuel (pre ++ (ps ≫= component_segments)) (length pre) acc = Ok (acc ++ ps).
Proof.
  intros Hps. revert pre acc fuel. induction Hps as [|p ps Hp _ IH]; intros pre acc [|fuel] Hf; cbn [length] in Hf; try lia;
    cbn [mbind list_bind parse_loop].
  - rewrite !app_nil_r. by rewrite (proj2 (lookup_ge_None _ _)) by lia.
  - destruct (parse_component_segments pre p (ps ≫= component_segments) Hp) as (name & values & E & Hname & Hc).
    rewrite lookup_app_r, Nat.sub_diag by lia.
    assert ((component_segments p ++ (ps ≫= component_segments)) !! 0%nat = Some name) as -> by (by rewrite E).
    rewrite decide_False by done. rewrite Hc. cbn [mbind res_bind]. rewrite app_assoc, <- length_app, IH by lia.
    by rewrite <- app_assoc.
Qed.

Lemma parse_display m : protocols m ≠ [] → Forall printable (protocols m) → parse_multiaddr (to_string m) = Ok m.
Proof.
  intros Hne Hm. destruct m as [ps]. cbn [protocols] in *.
  assert (as_bytes (to_string {| protocols := ps |}) = slashed (as_bytes <$> (ps ≫= component_segments))) as Ebytes
    by exact (display_segments ps EmptyString).
  assert (∃ l, as_bytes (to_string {| protocols := ps |}) = x2f :: l) as [l El].
  { rewrite Ebytes. destruct ps as [|p ps]; [done|]. destruct p; by eexists. }
  unfold parse_multiaddr. rewrite decide_False by (intros E; by rewrite E in El).
  assert (starts_with "/" (to_string {| protocols := ps |}) = true) as ->.
  { unfold starts_with. rewrite El. done. }
  cbn [negb]. unfold str_split. rewrite Ebytes.
  rewrite <- (app_nil_l (slashed _)), split_slashed; [|apply not_elem_of_nil|].
  - cbn [fmap list_fmap]. rewrite <- list_fmap_compose.
    assert (∀ l, Prelude.from_bytes ∘ as_bytes <$> l = l) as ->.
    { clear. induction l as [|s l IH]; [done|]. cbn. by rewrite IH, from_as_bytes. }
    rewrite (parse_loop_segments ps [Prelude.from_bytes []]); [done..|]. cbn [length].
    assert (∀ ps, (length ps <= length (ps ≫= component_segments))%nat) as Hl; [|specialize (Hl ps); lia].
    clear. induction ps as [|p ps IH]; [done|]. cbn [mbind list_bind length]. rewrite length_app. destruct p; cbn in *; lia.
  - apply Forall_fmap, Forall_bind. eapply Forall_impl; [exact Hm|]. intros p Hp. by apply component_no_slash.
Qed.


(** ** What the parser makes *)

Lemma parse_slots_length n parts out rest : parse_slots n parts = Some (out, rest) → length out = n.
Proof.
  revert parts out rest. induction n as [|n IH]; intros parts out rest; cbn [parse_slots]; [by intros [= <- _]|].
  destruct parts as [|part parts]; [done|]. destruct (parse_uint 255 part); cbn [mbind option_bind]; [|done].
  destruct (parse_slots n parts) as [[out' rest']|] eqn:E; cbn [mbind option_bind]; [|done].
  intros [= <- _]. cbn. by rewrite (IH _ _ _ E).
Qed.

Lemma parse_ip4_length s o : parse_ip4 s = Some o → length o = 4%nat.
Proof.
  unfold parse_ip4. destruct (parse_slots 4 (str_split x2e s)) as [[out rest]|] eqn:E; cbn [mbind option_bind]; [|done].
  apply parse_slots_length in E. by destruct rest; [intros [= <-]|].
Qed.

Lemma require_value_Ok segs idx label v : require_value segs idx label = Ok v → v ∈ segs ∧ v ≠ EmptyString.
Proof.
  unfold require_value. destruct (segs !! (idx + 1)%nat) eqn:E; [|done]. case_decide; [|done]. intros [= <-].
  split; [|done]. by apply list_elem_of_lookup_2 in E.
Qed.

(** Each arm reads the value of its protocol, or none. *)
Lemma parse_component_inv segs idx name : Forall name_ok segs →
  match parse_component segs idx name with
  | Ok (p, n) => parsed_ok p ∧ (0 < n)%nat
  | Err _ => True
  | Panic => False
  end.
Proof.
  intros Hsegs. unfold parse_component.
  assert (∀ label v, require_value segs idx label = Ok v → name_ok v) as Hv.
  { intros label v (Hin & _)%require_value_Ok. rewrite Forall_forall in Hsegs. by apply Hsegs. }
  assert (∀ label, require_value segs idx label ≠ Panic) as Hpanic.
  { intros label. unfold require_value. by repeat case_match. }
  assert (∀ label (k : string → res MultiaddrError (Protocol P * nat)),
    (∀ v, name_ok v → match k v with Ok (p, n) => parsed_ok p ∧ (0 < n)%nat | Err _ => True | Panic => False end) →
    match (v ← require_value segs idx label; k v) with Ok (p, n) => parsed_ok p ∧ (0 < n)%nat | Err _ => True | Panic => False end)
    as Hreq.
  { intros label k Hk. destruct (require_value segs idx label) as [v|e|] eqn:E; cbn [mbind res_bind]; [by apply Hk, (Hv label)|done|].
    by apply (Hpanic label). }
  repeat case_decide; try apply Hreq; try (split; [done|lia]); try done; intros v Hname.
  - destruct (parse_ip4 v) eqn:E; cbn; [|done]. apply parse_ip4_length in E. split; [by split|lia].
  - destruct (parse_ipv6 v) eqn:E; cbn; [|done]. apply parse_ipv6_length in E. split; [by split|lia].
  - destruct (is_valid_dns v) eqn:E; cbn [negb]; [|done]. split; [by split|lia].
  - destruct (is_valid_dns v) eqn:E; cbn [negb]; [|done]. split; [by split|lia].
  - destruct (is_valid_dns v) eqn:E; cbn [negb]; [|done]. split; [by split|lia].
  - destruct (parse_uint 65535 v) eqn:E; cbn; [|done]. apply parse_uint_range in E; [|lia]. split; [split; [cbn; lia|done]|lia].
  - destruct (pid_from_str v) as [p|e|] eqn:E; cbn; [|done|by apply pid_from_str_no_panic in E].
    apply pid_from_str_ok in E. split; [by split|lia].
Qed.

Lemma parse_loop_inv fuel segs idx acc : Forall name_ok segs → Forall parsed_ok acc → (length segs < fuel + idx)%nat → (0 < fuel)%nat →
  match parse_loop fuel segs idx acc with
  | Ok ps => Forall parsed_ok ps ∧ (acc ≠ [] ∨ (idx < length segs)%nat → ps ≠ [])
  | Err _ => True
  | Panic => False
  end.
Proof.
  intros Hsegs. revert idx acc. induction fuel as [|fuel IH]; intros idx acc Hacc Hf H0; [lia|]. cbn [parse_loop].
  destruct (segs !! idx) as [name|] eqn:E.
  - case_decide; [done|]. pose proof (parse_component_inv segs idx name Hsegs) as Hc.
    apply lookup_lt_Some in E.
    destruct (parse_component segs idx name) as [[p n]|e|]; cbn [mbind res_bind]; [|done..]. destruct Hc as [Hp Hn].
    assert (acc ++ [p] ≠ []) as Hne by (by destruct acc).
    assert (Forall parsed_ok (acc ++ [p])) as Hacc' by (apply Forall_app; split; [done|by apply Forall_singleton]).
    specialize (IH (idx + n)%nat (acc ++ [p]) Hacc' ltac:(lia) ltac:(lia)).
    destruct (parse_loop fuel segs (idx + n) (acc ++ [p])) as [ps|e|]; [|done..]. destruct IH as [IH1 IH2]. split; [done|]. auto.
  - apply lookup_ge_None in E. split; [done|]. intros [H|H]; [done|lia].
Qed.

Lemma str_split_ok c s : byte_Z c < 128 → name_ok s → Forall name_ok (str_split c s).
Proof.
  intros Hc [Hs Hl]. unfold str_split. apply Forall_fmap.
  pose proof (split_bytes_utf8 c (as_bytes s) Hc) as Hu. pose proof (split_bytes_length c (as_bytes s)) as Hlen.
  specialize (Hu (proj1 (bool_decide_eq_true _) Hs)). rewrite Forall_forall in Hu, Hlen. apply Forall_forall. intros b Hb.
  unfold compose, name_ok, str_ok, is_utf8. rewrite as_from_bytes. split; [by apply bool_decide_eq_true, Hu|].
  specialize (Hlen _ Hb). unfold is_u64 in *. lia.
Qed.

Lemma parse_multiaddr_inv s : name_ok s →
  match parse_multiaddr s with
  | Ok m => protocols m ≠ [] ∧ Forall parsed_ok (protocols m)
  | Err _ => True
  | Panic => False
  end.
Proof.
  intros Hs. unfold parse_multiaddr. case_decide as Hne; [done|]. destruct (starts_with "/" s) eqn:Hst; cbn [negb]; [|done].
  assert (∃ l, as_bytes s = x2f :: l) as [l El].
  { unfold starts_with in Hst. apply bool_decide_eq_true in Hst. destruct (as_bytes s) as [|b l]; [done|].
    cbn in Hst. injection Hst as ->. by exists l. }
  assert (1 < length (str_split x2f s))%nat as Hl.
  { unfold str_split. rewrite El. cbn [split_bytes]. rewrite decide_True by done. rewrite length_fmap. cbn [length].
    pose proof (split_bytes_ne x2f l). destruct (split_bytes x2f l); [done|cbn; lia]. }
  pose proof (parse_loop_inv (length (str_split x2f s)) (str_split x2f s) 1 [] (str_split_ok x2f s ltac:(done) Hs)
    ltac:(constructor) ltac:(lia) ltac:(lia)) as H.
  destruct (parse_loop _ _ _ _) as [ps|e|]; cbn; [|done..]. destruct H as [H1 H2]. split; [|done]. apply H2. by right.
Qed.


Lemma peer_addr_from_display a : peer_addr_ok a → Forall printable (protocols (pa_transport a)) → pid_printable (pa_peer_id a) →
  peer_addr_from_str (to_string a) = Ok a.
Proof.
  intros Ha Ht Hp. unfold peer_addr_from_str. unfold to_string at 1, PeerAddr_display. rewrite parse_display.
  - cbn [map_err mbind res_bind]. by apply from_to_multiaddr.
  - unfold to_multiaddr. cbn. by destruct (protocols (pa_transport a)).
  - unfold to_multiaddr. cbn [protocols]. apply Forall_app. split; [done|]. apply Forall_singleton.
    split; [|done]. split; [|done]. by apply pid_printable_ok.
Qed.

Lemma peer_addr_from_str_inv s : name_ok s →
  match peer_addr_from_str s with
  | Ok a => peer_addr_ok a ∧ Forall parsed_ok (protocols (pa_transport a)) ∧ pid_ok (pa_peer_id a)
  | Err _ => True
  | Panic => False
  end.
Proof.
  intros Hs. unfold peer_addr_from_str. pose proof (parse_multiaddr_inv s Hs) as Hm.
  destruct (parse_multiaddr s) as [m|e|]; cbn [map_err mbind res_bind]; [|done..]. destruct Hm as [_ Hm].
  pose proof (from_multiaddr_cases m) as Hc. destruct (from_multiaddr m) as [a|e|]; [|done..].
  destruct Hc as [Ha <-]. split; [done|]. unfold to_multiaddr in Hm. cbn [protocols] in Hm.
  apply Forall_app in Hm as [Ht Hp]. split; [done|]. by apply Forall_cons in Hp as [[Hp _] _].
Qed.

(** C39. The text of addresses: a multiaddr made of well-formed components, with host
    names the parser allows and peer ids of the identity or SHA-256 hash
    ([pid_printable]: those whose base58 text is read back), is read back from its text.
    Whatever text is given, the parser returns an error or a non-empty multiaddr of
    well-formed components; and if all its peer ids are of these hashes, its own text is
    its normal form: it is read as the same multiaddr.  (A peer id of another hash is
    accepted as a CID, but the text it prints is not: [other_hash_text_refused].) *)
Theorem multiaddr_text (m : Multiaddr P) (s : string) :
  (protocols m ≠ [] → Forall printable (protocols m) → parse_multiaddr (to_string m) = Ok m) ∧
  (name_ok s →
   match parse_multiaddr s with
   | Ok m' =>
       protocols m' ≠ [] ∧ Forall parsed_ok (protocols m') ∧
       ((∀ p, P2p p ∈ protocols m' → pid_printable p) → parse_multiaddr (to_string m') = Ok m')
   | Err _ => True
   | Panic => False
   end).
Proof.
  split; [apply parse_display|]. intros Hs. pose proof (parse_multiaddr_inv s Hs) as H.
  destruct (parse_multiaddr s) as [m'|e|]; [|done..]. destruct H as [Hne Hp]. split_and!; [done..|].
  intros Hpeers. apply parse_display; [done|]. rewrite Forall_forall in *. intros p Hin. split; [by apply Hp|].
  destruct p; try done. by apply Hpeers.
Qed.

End text.

(** ** Peer ids *)

Lemma base58_char_slash d : base58_char d ≠ x2f.
Proof.
  assert (Forall (λ b, b ≠ x2f) BASE58_ALPHABET) as H by (apply (bool_decide_unpack _); by vm_compute).
  unfold base58_char. destruct (decide (Z.to_nat d < length BASE58_ALPHABET)%nat) as [Hd|Hd].
  - rewrite Forall_forall in H. apply H, list_elem_of_In. by apply nth_In.
  - by rewrite nth_overflow by lia.
Qed.

Lemma encode_base58_slash l : x2f ∉ as_bytes (encode_base58 l).
Proof.
  assert (∀ n, x2f ∉ repeat x31 n) as Hz.
  { induction n; cbn; [apply not_elem_of_nil|]. by apply not_elem_of_cons. }
  unfold encode_base58. case_decide; [apply not_elem_of_nil|]. case_decide; rewrite as_from_bytes; [apply Hz|].
  apply not_elem_of_app. split; [apply Hz|]. intros (d & Hd & _)%list_elem_of_fmap. by apply (base58_char_slash d).
Qed.

Lemma decode_base58_no_panic s : decode_base58 s ≠ Panic.
Proof.
  assert (∀ l i b, decode_base58_loop l i b ≠ Panic) as H.
  { induction l as [|c l IH]; intros i b; cbn [decode_base58_loop]; [done|]. by destruct (base58_value c); cbn. }
  unfold decode_base58. case_decide; [done|]. apply bind_no_panic; auto.
Qed.

Lemma decode_base32_no_panic s : decode_base32_nopad s ≠ Panic.
Proof.
  assert (∀ l i buf bits o, decode_base32_loop l i buf bits o ≠ Panic) as H.
  { induction l as [|c l IH]; intros; cbn [decode_base32_loop]; [done|].
    destruct (base32_value c); cbn [ok_or mbind res_bind]; [|done]. by destruct (base32_undrain _ _ _ _). }
  unfold decode_base32_nopad. case_decide; [done|]. apply bind_no_panic; auto.
Qed.

Section peer_text.
Context {MH : Type} `{MA : !MultihashApi MH} `{ML : !MultihashLaws MH}.

Lemma from_cid_no_panic s : from_cid (MH:=MH) s ≠ Panic.
Proof.
  unfold from_cid. case_decide; [done|]. apply bind_no_panic; [apply ok_or_no_panic|]. intros prefix _.
  apply bind_no_panic; [repeat case_match; try done; auto using decode_base32_no_panic, decode_base58_no_panic|].
  intros cid _. apply bind_no_panic; [apply map_err_no_panic, read_uvarint_no_panic|]. intros [v vl] _. case_match; [done|].
  apply bind_no_panic; [apply map_err_no_panic, read_uvarint_no_panic|]. intros [c cl] _. case_match; [done|].
  apply peer_from_bytes_no_panic.
Qed.

Lemma from_str_ok s p : peer_from_str (MH:=MH) s = Ok p → peer_ok p.
Proof.
  unfold peer_from_str, from_base58, from_cid. case_match.
  - intros (b & _ & Hb)%bind_Ok. by apply peer_from_bytes_ok in Hb.
  - case_decide; [done|]. intros (prefix & _ & H1)%bind_Ok. apply bind_Ok in H1 as (cid & _ & H2).
    apply bind_Ok in H2 as ([v vl] & _ & H3). case_match; [done|]. apply bind_Ok in H3 as ([c cl] & _ & H4).
    case_match; [done|]. by apply peer_from_bytes_ok in H4.
Qed.

#[export, refine] Instance PeerId_text : PeerIdText (PeerId MH) := {
  pid_from_str := peer_from_str;
  pid_printable p :=
    peer_ok p ∧ (mh_code (multihash p) = IDENTITY_MULTIHASH_CODE ∨ mh_code (multihash p) = SHA256_MULTIHASH_CODE);
}.
Proof.
  - by intros p [Hp _].
  - intros p [Hp Hc]. unfold peer_from_str, to_string, PeerId_display. rewrite to_base58_prefix by done. by apply from_to_base58.
  - intros p. apply encode_base58_slash.
  - apply from_str_ok.
  - done.
  - intros s. unfold peer_from_str. case_match; [|apply from_cid_no_panic]. unfold from_base58.
    apply bind_no_panic; [apply decode_base58_no_panic|]. intros b _. apply peer_from_bytes_no_panic.
Defined.
End peer_text.

(** ** Concrete addresses *)

Lemma multiaddr_text_witness :
  ∃ m : Multiaddr (PeerId PlainMultihash), parse_multiaddr (to_string m) = Ok m ∧
    protocols m = [Ip6 ([x20; x01; x0d; xb8] ++ replicate 11 x00 ++ [x05]); Udp 4001; QuicV1] ∧
    parse_multiaddr (P:=PeerId PlainMultihash) "/ip4/127.0.0.1/udp/4001" ≠ Panic.
Proof.
  pose (m := {| protocols := [Ip6 ([x20; x01; x0d; xb8] ++ replicate 11 x00 ++ [x05]); Udp 4001; QuicV1] |} : Multiaddr (PeerId PlainMultihash)).
  destruct (multiaddr_text m "/ip4/127.0.0.1/udp/4001") as [H1 H2]. exists m. split; [|split; [reflexivity|]].
  - apply H1; [done|]. repeat constructor; cbn; lia.
  - intros E. rewrite E in H2. apply H2. split; [reflexivity|]. split; vm_compute; done.
Defined.

(** A peer id of another hash is read from its CID; the text of the address has its base58
    form, which is taken for a CID with an unknown prefix. *)
Example other_hash_text_refused :
  let p : PeerId PlainMultihash :=
    {| multihash := {| plain_code := 0x16; plain_digest := repeat x5a 32; plain_ok := I |} |} in
  let m := {| protocols := [P2p p] |} in
  parse_multiaddr ("/p2p/" ++ to_cid_base32 p) = Ok m ∧
  parse_multiaddr (P:=PeerId PlainMultihash) (to_string m) = Err (InvalidPeerId (to_string p) (UnsupportedMultibase 0x57)).
Proof. split; vm_compute; reflexivity. Qed.

(** The binary form allows any text as a host name, the text form does not: an address
    received in binary form can print as one with more components, here one with a
    port the binary form does not have. *)
Example binary_name_prints_as_components :
  let m := {| protocols := [Dns "a/udp/1"] |} : Multiaddr (PeerId PlainMultihash) in
  Multiaddr.from_bytes (λ _, EmptyString) (to_bytes m) = Ok m ∧
  parse_multiaddr (to_string m) = Ok ({| protocols := [Dns "a"; Udp 1] |} : Multiaddr (PeerId PlainMultihash)).
Proof. split; vm_compute; reflexivity. Qed.

(** Numbers may have leading zeros and a plus sign in [/ip4] and [/udp], unlike in the
    addresses the standard library reads. *)
Example lenient_numbers :
  parse_multiaddr "/ip4/+127.0.0.010/udp/+04001"
  = Ok ({| protocols := [Ip4 [x7f; x00; x00; x0a]; Udp 4001] |} : Multiaddr (PeerId PlainMultihash)).
Proof. vm_compute. reflexivity. Qed.

Example malformed_texts :
  let parse := parse_multiaddr (P:=PeerId PlainMultihash) in
  parse EmptyString = Err EmptyMultiaddr ∧ parse "ip4/127.0.0.1" = Err MissingLeadingSlash ∧ parse "/" = Err EmptyProtocol ∧
  parse "/ip4" = Err (MissingValue "ip4") ∧ parse "/dns/" = Err (MissingValue "dns") ∧ parse "/tcp/1" = Err (UnknownProtocol "tcp") ∧
  parse "/udp/65536" = Err (InvalidPort "65536") ∧ parse "/quic-v1/" = Err EmptyProtocol ∧ parse "/dns/a b" = Err (InvalidDnsName "a b").
Proof. split_and!; vm_compute; reflexivity. Qed.
