(* ===== verification/Multistream.v ===== *)
(** * Protocol negotiation ([crates/multistream-select/src/lib.rs])

    The [/multistream/1.0.0] handshake: a dialer proposes one protocol, a listener
    accepts it or answers [na].  Messages are varint-length-prefixed lines.  The
    record [MultistreamSelect] is the machine's state, [receive] its reaction to
    received bytes, and [Multistream_sansio] the trait implementation.

    The receive loop consumes at least one byte per iteration, so its fuel is one
    more than the number of buffered bytes ([receive_loop_fuel] shows that
    more would not change the result). *)
From S2P Require Import Prelude.
From S2P Require Import Utf8.
From S2P Require Import SansIo.
From S2P Require Import Varint.
From Stdlib Require Import ZArith Strings.Byte Strings.String.
From stdpp Require Import base numbers list gmap strings.

#[local] Open Scope Z_scope.

(** ** Definitions *)

Definition MULTISTREAM_PROTOCOL_ID : string := "/multistream/1.0.0".
Definition NOT_AVAILABLE : string := "na".
Definition MAX_MESSAGE_LEN : Z := 1024.

Inductive MultistreamOutput : Type :=
  | OutboundData (bytes : list byte)
  | Negotiated (protocol : string)
  | NotAvailable
  | ProtocolError (reason : string).

Inductive MultistreamInput : Type :=
  | Start
  | Data (data : list byte).

Inductive MultistreamError : Type :=
  | MessageTooLong (len : Z)
  | InvalidVarint (e : VarintError)
  | NonUtf8
  | MissingNewline
  | EmptyProtocol
  | UnexpectedHeader (actual : string)
  | UnexpectedProtocolResponse (actual : string).

#[export] Instance MultistreamError_display : Display MultistreamError := λ e,
  match e with
  | MessageTooLong len =>
      "message exceeds maximum length (" +:+ to_string len +:+ " > "
        +:+ to_string MAX_MESSAGE_LEN +:+ ")"
  | InvalidVarint e => "invalid varint in message frame: " +:+ to_string e
  | NonUtf8 => "non-utf8 message payload"
  | MissingNewline => "message missing trailing newline"
  | EmptyProtocol => "empty protocol line"
  | UnexpectedHeader actual => "unexpected multistream header: " +:+ actual
  | UnexpectedProtocolResponse actual => "unexpected protocol response: " +:+ actual
  end%string.

Inductive Role : Type := Dialer | Listener.

Inductive State : Type :=
  | WaitingForRemoteHeader
  | WaitingForProtocolRequest
  | WaitingForProtocolResponse
  | Done.

#[export] Instance Role_eq_dec : EqDecision Role.
Proof. solve_decision. Defined.
#[export] Instance State_eq_dec : EqDecision State.
Proof. solve_decision. Defined.
#[export] Instance MultistreamOutput_eq_dec : EqDecision MultistreamOutput.
Proof. solve_decision. Defined.

Record MultistreamSelect : Type := {
  role : Role;
  state : State;
  desired_protocol : option string;
  supported_protocols : gset string;
  recv_buf : list byte;
  started : bool;
  pending_outputs : list MultistreamOutput;
}.

(** Assignments to the fields the machine mutates. *)
Definition set_state (m : MultistreamSelect) (s : State) : MultistreamSelect :=
  {| role := role m; state := s; desired_protocol := desired_protocol m;
     supported_protocols := supported_protocols m; recv_buf := recv_buf m;
     started := started m; pending_outputs := pending_outputs m |}.
Definition set_recv_buf (m : MultistreamSelect) (b : list byte) : MultistreamSelect :=
  {| role := role m; state := state m; desired_protocol := desired_protocol m;
     supported_protocols := supported_protocols m; recv_buf := b;
     started := started m; pending_outputs := pending_outputs m |}.
Definition set_started (m : MultistreamSelect) (b : bool) : MultistreamSelect :=
  {| role := role m; state := state m; desired_protocol := desired_protocol m;
     supported_protocols := supported_protocols m; recv_buf := recv_buf m;
     started := b; pending_outputs := pending_outputs m |}.
Definition set_pending_outputs (m : MultistreamSelect) (os : list MultistreamOutput)
    : MultistreamSelect :=
  {| role := role m; state := state m; desired_protocol := desired_protocol m;
     supported_protocols := supported_protocols m; recv_buf := recv_buf m;
     started := started m; pending_outputs := os |}.

Definition dialer (desired : string) : MultistreamSelect :=
  {| role := Dialer; state := WaitingForRemoteHeader; desired_protocol := Some desired;
     supported_protocols := ∅; recv_buf := []; started := false; pending_outputs := [] |}.

Definition listener (protocols : list string) : MultistreamSelect :=
  {| role := Listener; state := WaitingForRemoteHeader; desired_protocol := None;
     supported_protocols := list_to_set protocols; recv_buf := []; started := false;
     pending_outputs := [] |}.

Definition encode_message (protocol : string) : list byte :=
  let payload_len := Z.of_nat (length (as_bytes protocol)) + 1 in
  write_uvarint payload_len [] ++ as_bytes protocol ++ [newline].

Inductive DecodeResult : Type :=
  | Complete (payload : string) (consumed : nat)
  | Incomplete
  | DecodeError (e : MultistreamError).

Definition decode_message (buf : list byte) : DecodeResult :=
  match buf with
  | [] => Incomplete
  | _ =>
      match read_uvarint buf with
      | Err BufferTooShort => Incomplete
      | Err e => DecodeError (InvalidVarint e)
      | Panic => Incomplete (* [read_uvarint] has no panicking path *)
      | Ok (msg_len, varint_bytes) =>
          if MAX_MESSAGE_LEN <? msg_len then DecodeError (MessageTooLong msg_len)
          else
            let total := (varint_bytes + Z.to_nat msg_len)%nat in
            if (length buf <? total)%nat then Incomplete
            else
              let msg_bytes := take (total - varint_bytes) (drop varint_bytes buf) in
              if decide (last msg_bytes = Some newline) then
                let payload_bytes := take (length msg_bytes - 1) msg_bytes in
                match from_utf8 payload_bytes with
                | Ok payload =>
                    if decide (payload_bytes = []) then DecodeError EmptyProtocol
                    else Complete payload total
                | _ => DecodeError NonUtf8
                end
              else DecodeError MissingNewline
      end
  end.

Definition protocol_error (error : MultistreamError) : State * list MultistreamOutput :=
  (Done, [ProtocolError (to_string error)]).

Definition handle_message (role : Role) (state : State) (desired_protocol : option string)
    (supported_protocols : gset string) (line : string)
    : res Empty_set (State * list MultistreamOutput) :=
  match state with
  | WaitingForRemoteHeader =>
      if decide (line = MULTISTREAM_PROTOCOL_ID) then
        match role with
        | Dialer =>
            desired ← expect desired_protocol;
            Ok (WaitingForProtocolResponse, [OutboundData (encode_message desired)])
        | Listener => Ok (WaitingForProtocolRequest, [])
        end
      else Ok (protocol_error (UnexpectedHeader line))
  | WaitingForProtocolRequest =>
      if decide (line ∈ supported_protocols)
      then Ok (Done, [OutboundData (encode_message line); Negotiated line])
      else Ok (Done, [OutboundData (encode_message NOT_AVAILABLE); NotAvailable])
  | WaitingForProtocolResponse =>
      desired ← expect desired_protocol;
      if decide (line = desired) then Ok (Done, [Negotiated desired])
      else if decide (line = NOT_AVAILABLE) then Ok (Done, [NotAvailable])
      else Ok (protocol_error (UnexpectedProtocolResponse line))
  | Done => Ok (Done, [])
  end.

Fixpoint receive_loop (fuel : nat) (m : MultistreamSelect) (outputs : list MultistreamOutput)
    : res Empty_set (MultistreamSelect * list MultistreamOutput) :=
  match fuel with
  | O => Ok (m, outputs)
  | S fuel =>
      if decide (state m = Done) then Ok (m, outputs)
      else
        match decode_message (recv_buf m) with
        | Complete payload consumed =>
            '(next_state, produced) ← handle_message (role m) (state m)
                (desired_protocol m) (supported_protocols m) payload;
            let m := set_recv_buf m (drop consumed (recv_buf m)) in
            let m := set_state m next_state in
            receive_loop fuel m (outputs ++ produced)
        | Incomplete => Ok (m, outputs)
        | DecodeError err =>
            Ok (set_state m Done, outputs ++ [ProtocolError (to_string err)])
        end
  end.

Definition receive (m : MultistreamSelect) (bytes : list byte)
    : res Empty_set (MultistreamSelect * list MultistreamOutput) :=
  if decide (state m = Done) then Ok (m, [])
  else
    let m := set_recv_buf m (recv_buf m ++ bytes) in
    receive_loop (S (length (recv_buf m))) m [].

Definition start (m : MultistreamSelect) : MultistreamSelect * list MultistreamOutput :=
  if started m then (m, [])
  else (set_started m true, [OutboundData (encode_message MULTISTREAM_PROTOCOL_ID)]).

Definition is_done (m : MultistreamSelect) : bool := bool_decide (state m = Done).

Definition take_remaining_buffer (m : MultistreamSelect) : list byte * MultistreamSelect :=
  (recv_buf m, set_recv_buf m []).

Definition ms_handle_input (m : MultistreamSelect) (input : MultistreamInput)
    : MultistreamSelect * res MultistreamError unit :=
  match input with
  | Start =>
      let '(m, outputs) := start m in
      (set_pending_outputs m (pending_outputs m ++ outputs), Ok ())
  | Data data =>
      match receive m data with
      | Ok (m, outputs) => (set_pending_outputs m (pending_outputs m ++ outputs), Ok ())
      | _ => (m, Panic)
      end
  end.

Definition ms_poll_output (m : MultistreamSelect) : option MultistreamOutput * MultistreamSelect :=
  match pending_outputs m with
  | [] => (None, m)
  | o :: os => (Some o, set_pending_outputs m os)
  end.

Definition ms_is_idle (m : MultistreamSelect) : bool :=
  bool_decide (pending_outputs m = []).

#[export] Instance Multistream_sansio :
    SansIoProtocol MultistreamSelect MultistreamInput MultistreamOutput MultistreamError := {
  handle_input := ms_handle_input;
  poll_output := ms_poll_output;
  is_idle := ms_is_idle;
}.

#[global] Arguments encode_message : simpl never.
#[global] Arguments decode_message : simpl never.

(** ** Framing *)

(** Protocol names the framing can carry: text, not empty, at most 1023 bytes. *)
Definition line_ok (p : string) : Prop :=
  str_ok p ∧ as_bytes p ≠ [] ∧ (length (as_bytes p) <= 1023)%nat.

Lemma line_len_u64 p : line_ok p → is_u64 (Z.of_nat (length (as_bytes p)) + 1).
Proof. intros (_ & _ & ?). u64_tac. Qed.

Lemma length_encode_message p :
  line_ok p →
  length (encode_message p)
    = (uvarint_len (Z.of_nat (length (as_bytes p)) + 1) + (length (as_bytes p) + 1))%nat.
Proof.
  intros Hp. unfold encode_message.
  rewrite !length_app, length_write_uvarint by by apply line_len_u64. simpl. lia.
Qed.

Lemma decode_message_read buf msg_len varint_bytes :
  read_uvarint buf = Ok (msg_len, varint_bytes) →
  decode_message buf =
    if MAX_MESSAGE_LEN <? msg_len then DecodeError (MessageTooLong msg_len)
    else if (length buf <? varint_bytes + Z.to_nat msg_len)%nat then Incomplete
    else
      let msg_bytes := take (Z.to_nat msg_len) (drop varint_bytes buf) in
      if decide (last msg_bytes = Some newline) then
        let payload_bytes := take (length msg_bytes - 1) msg_bytes in
        match from_utf8 payload_bytes with
        | Ok payload =>
            if decide (payload_bytes = []) then DecodeError EmptyProtocol
            else Complete payload (varint_bytes + Z.to_nat msg_len)
        | _ => DecodeError NonUtf8
        end
      else DecodeError MissingNewline.
Proof.
  intros Hr. unfold decode_message. destruct buf; [done|]. rewrite Hr.
  by replace (varint_bytes + Z.to_nat msg_len - varint_bytes)%nat
    with (Z.to_nat msg_len) by lia.
Qed.

(** A decoded frame is read back whatever bytes follow it. *)
Lemma decode_encode_message p rest :
  line_ok p →
  decode_message (encode_message p ++ rest) = Complete p (length (encode_message p)).
Proof.
  intros Hp. pose proof (length_encode_message p Hp) as Hlen.
  pose proof (line_len_u64 p Hp) as Hu. destruct Hp as (Hs & Hne & Hle).
  set (n := Z.of_nat (length (as_bytes p)) + 1) in *.
  assert (Z.to_nat n = (length (as_bytes p) + 1)%nat) as Hn by lia.
  assert (read_uvarint (encode_message p ++ rest) = Ok (n, uvarint_len n)) as Hr.
  { unfold encode_message. rewrite <- !app_assoc. by apply read_uvarint_write. }
  rewrite (decode_message_read _ _ _ Hr), Hn.
  rewrite (proj2 (Z.ltb_ge _ _)) by (unfold MAX_MESSAGE_LEN; lia).
  rewrite (proj2 (Nat.ltb_ge _ _)) by (rewrite length_app; lia).
  assert (drop (uvarint_len n) (encode_message p ++ rest) = (as_bytes p ++ [newline]) ++ rest) as ->.
  { unfold encode_message. fold n. rewrite <- !app_assoc.
    rewrite drop_app_length' by by rewrite length_write_uvarint. done. }
  cbv zeta. rewrite take_app_length' by (rewrite length_app; simpl; lia).
  rewrite last_snoc, decide_True by done.
  rewrite length_app, Nat.add_sub, take_app_length.
  rewrite from_utf8_as_bytes, decide_False by done. f_equal. lia.
Qed.

Lemma decode_complete_bounds buf p n :
  decode_message buf = Complete p n → (0 < n <= length buf)%nat.
Proof.
  destruct buf as [|b buf]; [done|]. intros Hd.
  destruct (read_uvarint (b :: buf)) as [[len used]|[]|] eqn:Hr;
    [|unfold decode_message in Hd; rewrite Hr in Hd; done..].
  rewrite (decode_message_read _ _ _ Hr) in Hd.
  destruct (read_uvarint_inv _ _ _ Hr) as (_ & -> & _ & _).
  pose proof (uvarint_len_pos len). case_match; [done|].
  destruct (Nat.ltb_spec (length (b :: buf)) (uvarint_len len + Z.to_nat len)); [done|].
  cbv zeta in Hd. repeat (case_decide || case_match); simplify_eq/=. lia.
Qed.

(** Decoding decisions are final: more bytes do not change them. *)
Lemma decode_message_app buf more :
  decode_message buf ≠ Incomplete → decode_message (buf ++ more) = decode_message buf.
Proof.
  destruct buf as [|b buf]; [done|]. intros Hd.
  destruct (read_uvarint (b :: buf)) as [[len used]|e|] eqn:Hr.
  - pose proof (read_uvarint_app _ more _ Hr ltac:(done)) as Hr'.
    destruct (read_uvarint_inv _ _ _ Hr) as (_ & _ & Hle & _).
    rewrite (decode_message_read _ _ _ Hr) in Hd |- *.
    rewrite (decode_message_read _ _ _ Hr').
    case_match; [done|]. rewrite length_app.
    destruct (Nat.ltb_spec (length (b :: buf)) (used + Z.to_nat len)); [done|].
    rewrite (proj2 (Nat.ltb_ge _ _)) by lia.
    rewrite drop_app_le by done. rewrite take_app_le by (rewrite length_drop; lia). done.
  - unfold decode_message in Hd |- *. rewrite Hr in Hd |- *. cbn [app].
    change (b :: buf ++ more) with ((b :: buf) ++ more).
    destruct e; [done|rewrite (read_uvarint_app _ more _ Hr); done..].
  - by apply read_uvarint_no_panic in Hr.
Qed.

(** ** The receive loop *)

Definition settled (m : MultistreamSelect) : Prop :=
  state m = Done ∨ decode_message (recv_buf m) = Incomplete.

(** A machine built by [dialer] or [listener] never reaches the [expect]s. *)
Definition ms_ok (m : MultistreamSelect) : Prop :=
  is_Some (desired_protocol m) ∨ (role m = Listener ∧ state m ≠ WaitingForProtocolResponse).

Lemma handle_message_ok m line :
  ms_ok m → ∃ s os,
    handle_message (role m) (state m) (desired_protocol m) (supported_protocols m) line = Ok (s, os)
    ∧ ms_ok (set_state m s).
Proof.
  unfold ms_ok, handle_message. simpl. intros [[d ->]|[-> Hs]].
  - destruct (state m), (role m); simpl; repeat case_decide; eauto 6.
  - destruct (state m); simpl; repeat case_decide; try done;
      eexists _, _; (split; [done|]); by right.
Qed.

Lemma receive_loop_acc fuel m outs :
  receive_loop fuel m outs = '(m', os) ← receive_loop fuel m []; Ok (m', outs ++ os).
Proof.
  revert m outs. induction fuel as [|fuel IH]; intros m outs; simpl.
  - by rewrite app_nil_r.
  - case_decide; simpl; [by rewrite app_nil_r|].
    destruct (decode_message (recv_buf m)) as [p n| |e]; simpl; [|by rewrite app_nil_r|done].
    destruct (handle_message _ _ _ _ _) as [[s os]| |]; simpl; [|done..].
    rewrite IH, (IH _ os). destruct (receive_loop fuel _ []) as [[m' os']| |]; simpl; [|done..].
    by rewrite app_assoc.
Qed.

Lemma receive_loop_fuel fuel1 fuel2 m :
  (length (recv_buf m) < fuel1)%nat → (fuel1 <= fuel2)%nat →
  receive_loop fuel1 m [] = receive_loop fuel2 m [].
Proof.
  revert fuel2 m. induction fuel1 as [|fuel1 IH]; intros [|fuel2] m H1 H2; try lia.
  simpl. case_decide; [done|].
  destruct (decode_message (recv_buf m)) as [p n| |e] eqn:E; [|done..].
  apply decode_complete_bounds in E.
  destruct (handle_message _ _ _ _ _) as [[s os]| |]; simpl; [|done..].
  rewrite receive_loop_acc, (receive_loop_acc fuel2).
  rewrite (IH fuel2); [done|simpl; rewrite length_drop; lia|lia].
Qed.

Definition process (m : MultistreamSelect) := receive_loop (S (length (recv_buf m))) m [].

#[global] Arguments process : simpl never.

Definition consume (m : MultistreamSelect) (n : nat) (s : State) : MultistreamSelect :=
  set_state (set_recv_buf m (drop n (recv_buf m))) s.

(** The loop, one iteration at a time. *)
Lemma process_eq m :
  process m =
    if decide (state m = Done) then Ok (m, [])
    else match decode_message (recv_buf m) with
    | Complete payload n =>
        '(s, os) ← handle_message (role m) (state m) (desired_protocol m)
                     (supported_protocols m) payload;
        '(m', os') ← process (consume m n s); Ok (m', os ++ os')
    | Incomplete => Ok (m, [])
    | DecodeError e => Ok (set_state m Done, [ProtocolError (to_string e)])
    end.
Proof.
  unfold process at 1. cbn [receive_loop]. case_decide; [done|].
  destruct (decode_message (recv_buf m)) as [p n| |e] eqn:E; [|done..].
  apply decode_complete_bounds in E.
  destruct (handle_message _ _ _ _ _) as [[s os]| |]; simpl; [|done..].
  rewrite receive_loop_acc. unfold process, consume.
  rewrite (receive_loop_fuel (S (length (recv_buf (set_state (set_recv_buf m (drop n (recv_buf m))) s))))
    (length (recv_buf m))); [done|..]; simpl; rewrite ?length_drop; lia.
Qed.

Lemma set_recv_buf_twice m a b : set_recv_buf (set_recv_buf m a) b = set_recv_buf m b.
Proof. done. Qed.

Lemma set_recv_buf_id m : set_recv_buf m (recv_buf m) = m.
Proof. by destruct m. Qed.

Lemma receive_process m bytes :
  receive m bytes =
    if decide (state m = Done) then Ok (m, [])
    else process (set_recv_buf m (recv_buf m ++ bytes)).
Proof. done. Qed.

(** Induction principle for the loop: it shrinks the buffer. *)
Lemma process_ind (P : MultistreamSelect → Prop) :
  (∀ m, (∀ n s, (0 < n <= length (recv_buf m))%nat → P (consume m n s)) → P m) → ∀ m, P m.
Proof.
  intros Hstep m. remember (length (recv_buf m)) as k eqn:Hk. revert m Hk.
  induction (lt_wf k) as [k _ IH]; intros m ->. apply Hstep. intros n s Hn.
  eapply IH; [|done]. simpl. rewrite length_drop. lia.
Qed.

Lemma process_ok m :
  ms_ok m → ∃ m' os, process m = Ok (m', os) ∧ ms_ok m' ∧ settled m'.
Proof.
  induction m as [m IH] using process_ind; intros Hok. rewrite process_eq.
  case_decide; [unfold settled; eauto 6|].
  destruct (decode_message (recv_buf m)) as [p n| |e] eqn:E.
  - destruct (handle_message_ok m p Hok) as (s & os & -> & Hok'). simpl.
    destruct (IH n s) as (m' & os' & -> & ? & ?); [by eapply decode_complete_bounds|done|].
    simpl. eauto 6.
  - unfold settled. eauto 6.
  - exists (set_state m Done). eexists. split_and!; [done| |by left].
    destruct Hok as [?|[? ?]]; [by left|by right].
Qed.

(** Splitting the bytes: what the loop does on [a ++ b] is what it does on [a],
    then on the rest. *)
Lemma process_app m more :
  process (set_recv_buf m (recv_buf m ++ more)) =
    '(m1, os1) ← process m;
    if decide (state m1 = Done) then Ok (set_recv_buf m1 (recv_buf m1 ++ more), os1)
    else '(m2, os2) ← process (set_recv_buf m1 (recv_buf m1 ++ more)); Ok (m2, os1 ++ os2).
Proof.
  induction m as [m IH] using process_ind. rewrite (process_eq m).
  destruct (decide (state m = Done)) as [HD|HD].
  { rewrite process_eq. simpl. by rewrite !decide_True. }
  destruct (decode_message (recv_buf m)) as [p n| |e] eqn:E.
  - rewrite process_eq. simpl. rewrite decide_False by done.
    rewrite decode_message_app by by rewrite E. rewrite E.
    destruct (handle_message _ _ _ _ _) as [[s os]| |]; simpl; [|done..].
    pose proof (decode_complete_bounds _ _ _ E) as Hn.
    assert (consume (set_recv_buf m (recv_buf m ++ more)) n s
      = set_recv_buf (consume m n s) (recv_buf (consume m n s) ++ more)) as ->.
    { unfold consume. simpl. rewrite drop_app_le by lia. done. }
    rewrite (IH n s Hn). destruct (process (consume m n s)) as [[m1 os1]| |]; simpl; [|done..].
    case_decide; [done|].
    destruct (process (set_recv_buf m1 _)) as [[m2 os2]| |]; simpl; [|done..].
    by rewrite app_assoc.
  - simpl. rewrite decide_False by done.
    destruct (process (set_recv_buf m _)) as [[m2 os2]| |]; done.
  - simpl. rewrite process_eq. simpl. rewrite decide_False by done.
    rewrite decode_message_app by by rewrite E. by rewrite E.
Qed.

(** ** Chunking *)

(** Feeding chunks one at a time. *)
Fixpoint feed (m : MultistreamSelect) (chunks : list (list byte))
    : res Empty_set (MultistreamSelect * list MultistreamOutput) :=
  match chunks with
  | [] => Ok (m, [])
  | c :: cs => '(m1, os1) ← receive m c; '(m2, os2) ← feed m1 cs; Ok (m2, os1 ++ os2)
  end.

(** Equal up to the bytes buffered after the end of the handshake: once it is
    done, [receive] drops further bytes, so these depend on the packets. *)
Definition agree (m1 m2 : MultistreamSelect) : Prop :=
  set_recv_buf m1 [] = set_recv_buf m2 [] ∧ (state m1 ≠ Done → m1 = m2).

Lemma process_settled m : settled m → process m = Ok (m, []).
Proof. intros [H|H]; rewrite process_eq; case_decide; [done..|by rewrite H]. Qed.

Lemma receive_nil m : settled m → receive m [] = Ok (m, []).
Proof.
  intros Hs. rewrite receive_process. case_decide; [done|].
  rewrite app_nil_r, set_recv_buf_id. by apply process_settled.
Qed.

Lemma receive_ok m bytes :
  ms_ok m → ∃ m' os, receive m bytes = Ok (m', os) ∧ ms_ok m' ∧ settled m'.
Proof.
  intros Hok. rewrite receive_process. case_decide; [|by apply process_ok].
  exists m, []. split_and!; [done..|by left].
Qed.

Lemma receive_done m bytes : state m = Done → receive m bytes = Ok (m, []).
Proof. intros. unfold receive. by rewrite decide_True. Qed.

(** Receiving [a ++ b] at once or in two packets. *)
Lemma receive_app m a b m1 os1 m2 os2 :
  receive m a = Ok (m1, os1) → receive m1 b = Ok (m2, os2) →
  ∃ m', receive m (a ++ b) = Ok (m', os1 ++ os2) ∧ agree m2 m'.
Proof.
  rewrite !receive_process. destruct (decide (state m = Done)) as [HD|HD].
  { intros [= <- <-]. rewrite decide_True by done. intros [= <- <-]. by exists m. }
  intros H1 H2. assert (process (set_recv_buf m (recv_buf m ++ a ++ b)) =
    if decide (state m1 = Done) then Ok (set_recv_buf m1 (recv_buf m1 ++ b), os1)
    else '(m2, os2) ← process (set_recv_buf m1 (recv_buf m1 ++ b)); Ok (m2, os1 ++ os2)) as ->.
  { pose proof (process_app (set_recv_buf m (recv_buf m ++ a)) b) as Happ.
    rewrite H1 in Happ. simpl in Happ. by rewrite app_assoc. }
  case_decide; simplify_eq.
  - eexists. rewrite app_nil_r. split; [done|]. by split.
  - rewrite H2. simpl. by eexists.
Qed.

Lemma agree_refl m : agree m m.
Proof. by split. Qed.

Lemma agree_state m1 m2 : agree m1 m2 → state m1 = state m2.
Proof. intros [H _]. by apply (f_equal state) in H. Qed.

Lemma agree_trans m1 m2 m3 : agree m1 m2 → agree m2 m3 → agree m1 m3.
Proof.
  intros [H1 H1'] [H2 H2']. split; [congruence|]. intros Hs.
  rewrite H1' by done. apply H2'. by rewrite <- H1'.
Qed.

(** Machines that agree react alike. *)
Lemma agree_receive m1 m2 bytes m1' os :
  agree m1 m2 → receive m1 bytes = Ok (m1', os) →
  ∃ m2', receive m2 bytes = Ok (m2', os) ∧ agree m1' m2'.
Proof.
  intros Ha Hr. destruct (decide (state m1 = Done)) as [HD|HD].
  - rewrite receive_done in Hr by done. simplify_eq.
    exists m2. split; [|done]. apply receive_done. by rewrite <- (agree_state _ _ Ha).
  - destruct Ha as [_ Heq]. rewrite <- Heq by done. eauto using agree_refl.
Qed.

Lemma feed_app m cs1 cs2 :
  feed m (cs1 ++ cs2) = '(m1, os1) ← feed m cs1; '(m2, os2) ← feed m1 cs2; Ok (m2, os1 ++ os2).
Proof.
  revert m. induction cs1 as [|c cs1 IH]; intros m; simpl.
  - by destruct (feed m cs2) as [[]| |].
  - destruct (receive m c) as [[m1 os1]| |]; simpl; [|done..].
    rewrite IH. destruct (feed m1 cs1) as [[m2 os2]| |]; simpl; [|done..].
    destruct (feed m2 cs2) as [[m3 os3]| |]; simpl; [|done..]. by rewrite app_assoc.
Qed.

Lemma feed_ok m chunks :
  ms_ok m → settled m → ∃ m' os, feed m chunks = Ok (m', os) ∧ ms_ok m' ∧ settled m'.
Proof.
  revert m. induction chunks as [|c cs IH]; intros m Hok Hs; simpl; [eauto 6|].
  destruct (receive_ok m c Hok) as (m1 & os1 & -> & Hok1 & Hs1). simpl.
  destruct (IH m1 Hok1 Hs1) as (m2 & os2 & -> & ? & ?). simpl. eauto 6.
Qed.

Lemma feed_concat m chunks m1 os1 :
  settled m → feed m chunks = Ok (m1, os1) →
  ∃ m2, receive m (concat chunks) = Ok (m2, os1) ∧ agree m1 m2.
Proof.
  intros Hs. revert m1 os1. induction chunks as [|c cs IH] using rev_ind; intros m1 os1 Hf.
  - simpl in Hf. simplify_eq. exists m1. split; [by apply receive_nil|apply agree_refl].
  - rewrite feed_app in Hf. destruct (feed m cs) as [[m3 os3]| |] eqn:E; simpl in Hf; [|done..].
    destruct (receive m3 c) as [[m4 os4]| |] eqn:E4; simpl in Hf; [|done..].
    simplify_eq. rewrite app_nil_r.
    destruct (IH _ _ eq_refl) as (m2 & Hr & Ha).
    destruct (agree_receive _ _ _ _ _ Ha E4) as (m2' & Hr' & Ha').
    destruct (receive_app _ _ _ _ _ _ _ Hr Hr') as (m5 & Hr5 & Ha5).
    exists m5. rewrite concat_app. simpl. rewrite app_nil_r.
    split; [done|by eapply agree_trans].
Qed.

(** ** Verdicts *)

Definition is_outbound (o : MultistreamOutput) : Prop :=
  match o with OutboundData _ => True | _ => False end.

(** The verdicts a machine may announce: it negotiates only what it was built
    for. *)
Definition verdict_ok (m : MultistreamSelect) (o : MultistreamOutput) : Prop :=
  match o with
  | OutboundData _ => False
  | Negotiated p => desired_protocol m = Some p ∨ p ∈ supported_protocols m
  | NotAvailable | ProtocolError _ => True
  end.

(** A run is still open and has only sent data, or it has ended with one verdict. *)
Definition run_ok (m m' : MultistreamSelect) (os : list MultistreamOutput) : Prop :=
  ∃ sent, Forall is_outbound sent ∧
    ((state m' ≠ Done ∧ os = sent) ∨
     (state m' = Done ∧ ∃ v, os = sent ++ [v] ∧ verdict_ok m v)).

Definition same_config (m m' : MultistreamSelect) : Prop :=
  role m' = role m ∧ desired_protocol m' = desired_protocol m ∧
  supported_protocols m' = supported_protocols m.

Lemma handle_message_run m line s os :
  handle_message (role m) (state m) (desired_protocol m) (supported_protocols m) line = Ok (s, os) →
  state m ≠ Done → run_ok m (set_state m s) os.
Proof.
  unfold handle_message, run_ok. intros Hh Hs.
  destruct (state m) eqn:Est; [| |simpl|done]; simpl in Hh.
  - case_decide; [|simplify_eq; exists []; naive_solver].
    destruct (role m); [destruct (desired_protocol m)|]; simplify_eq/=.
    + exists [OutboundData (encode_message s0)]. split; [by repeat constructor|]. by left.
    + exists []. split; [done|]. by left.
  - case_decide; simplify_eq.
    + exists [OutboundData (encode_message line)]. split; [by repeat constructor|]. right.
      split; [done|]. exists (Negotiated line). simpl. auto.
    + exists [OutboundData (encode_message NOT_AVAILABLE)]. split; [by repeat constructor|]. right.
      split; [done|]. by exists NotAvailable.
  - destruct (desired_protocol m) eqn:Ed; simplify_eq/=.
    repeat case_decide; simplify_eq; exists []; (split; [done|]); right; (split; [done|]);
      eexists; (split; [done|]); simpl; eauto.
Qed.

Lemma run_ok_app m m1 m2 os1 os2 :
  same_config m m1 → state m1 ≠ Done → run_ok m m1 os1 → run_ok m1 m2 os2 →
  run_ok m m2 (os1 ++ os2).
Proof.
  intros (_ & Hd & Hp) Hs (s1 & F1 & [[_ ->]|[? _]]) (s2 & F2 & H2); [|done].
  exists (s1 ++ s2). split; [by apply Forall_app|].
  destruct H2 as [[? ->]|(? & v & -> & Hv)]; [by left|right].
  split; [done|]. exists v. rewrite app_assoc. split; [done|].
  destruct v; simpl in *; [done|by rewrite <- Hd, <- Hp|done..].
Qed.

Lemma process_run m m' os :
  process m = Ok (m', os) →
  same_config m m' ∧ (state m ≠ Done → run_ok m m' os).
Proof.
  revert m' os. induction m as [m IH] using process_ind; intros m' os. rewrite process_eq.
  destruct (decide (state m = Done)) as [HD|HD]; [by intros [= <- <-]|].
  destruct (decode_message (recv_buf m)) as [p n| |e] eqn:E.
  - destruct (handle_message _ _ _ _ _) as [[s os1]| |] eqn:Eh; simpl; [|done..].
    destruct (process (consume m n s)) as [[m2 os2]| |] eqn:Ep; simpl; [|done..].
    intros [= <- <-]. destruct (IH _ _ (decode_complete_bounds _ _ _ E) _ _ Ep) as [Hc Hr].
    split; [done|]. intros _. pose proof (handle_message_run _ _ _ _ Eh HD) as Hrun.
    destruct (decide (s = Done)) as [->|Hs].
    + rewrite process_eq in Ep. simpl in Ep. simplify_eq. by rewrite app_nil_r.
    + apply (run_ok_app m (consume m n s)); [done..|by apply Hr].
  - intros [= <- <-]. split; [done|]. intros _. exists []. split; [done|]. by left.
  - intros [= <- <-]. split; [done|]. intros _. exists []. split; [done|]. right.
    split; [done|]. by eexists.
Qed.

Lemma receive_run m bytes m' os :
  receive m bytes = Ok (m', os) → same_config m m' ∧ (state m ≠ Done → run_ok m m' os).
Proof.
  rewrite receive_process. case_decide as HD; [by intros [= <- <-]|].
  intros [Hc Hr]%process_run. split; [done|by auto].
Qed.

Lemma feed_done m chunks : state m = Done → feed m chunks = Ok (m, []).
Proof.
  intros HD. induction chunks as [|c cs IH]; simpl; [done|]. rewrite receive_done by done.
  simpl. by rewrite IH.
Qed.

Lemma feed_run m chunks m' os :
  feed m chunks = Ok (m', os) → state m ≠ Done → run_ok m m' os.
Proof.
  revert m m' os. induction chunks as [|c cs IH]; intros m m' os Hf HD; simpl in Hf.
  - simplify_eq. exists []. split; [done|]. by left.
  - destruct (receive m c) as [[m1 os1]| |] eqn:E1; simpl in Hf; [|done..].
    destruct (feed m1 cs) as [[m2 os2]| |] eqn:E2; simpl in Hf; [|done..]. simplify_eq.
    destruct (receive_run _ _ _ _ E1) as [Hc Hr]. destruct (decide (state m1 = Done)) as [HD1|HD1].
    + rewrite feed_done in E2 by done. simplify_eq. rewrite app_nil_r. by apply Hr.
    + apply (run_ok_app m m1); [done..|by apply Hr|by apply IH].
Qed.

(** ** The trait contract *)

#[export, refine] Instance Multistream_laws : SansIoLaws Multistream_sansio := {
  pending m := length (pending_outputs m)
}.
Proof.
  - intros m. simpl. unfold ms_is_idle, ms_poll_output. rewrite bool_decide_eq_true.
    by destruct (pending_outputs m).
  - intros m m'. simpl. unfold ms_is_idle, ms_poll_output.
    destruct (pending_outputs m) eqn:E; intros [=]; subst. by rewrite bool_decide_eq_true.
  - intros m o m'. simpl. unfold ms_poll_output.
    destruct (pending_outputs m) eqn:E; intros [=]; subst. simpl. lia.
Qed.

(** ** Two endpoints on a reliable byte stream

    A dialer and a listener connected by two FIFO byte channels.  A step delivers
    a non-empty prefix of one channel to its reader, whose outbound data is
    appended to the other channel: the packets' boundaries and the interleaving of
    the two directions are arbitrary. *)

Fixpoint wire (os : list MultistreamOutput) : list byte :=
  match os with
  | [] => []
  | OutboundData b :: os => b ++ wire os
  | _ :: os => wire os
  end.

Lemma wire_app os1 os2 : wire (os1 ++ os2) = wire os1 ++ wire os2.
Proof. induction os1 as [|[] os1 IH]; simpl; rewrite ?IH, ?app_assoc; done. Qed.

Record Net : Type := {
  net_d : MultistreamSelect;
  net_l : MultistreamSelect;
  d2l : list byte;
  l2d : list byte;
  d_log : list MultistreamOutput;
  l_log : list MultistreamOutput;
}.

Inductive net_step : Net → Net → Prop :=
  | deliver_to_listener n a b l' os :
      d2l n = a ++ b → a ≠ [] → receive (net_l n) a = Ok (l', os) →
      net_step n {| net_d := net_d n; net_l := l'; d2l := b; l2d := l2d n ++ wire os;
                    d_log := d_log n; l_log := l_log n ++ os |}
  | deliver_to_dialer n a b d' os :
      l2d n = a ++ b → a ≠ [] → receive (net_d n) a = Ok (d', os) →
      net_step n {| net_d := d'; net_l := net_l n; d2l := d2l n ++ wire os; l2d := b;
                    d_log := d_log n ++ os; l_log := l_log n |}.

Definition quiescent (n : Net) : Prop := d2l n = [] ∧ l2d n = [].

(** Both sides have called [start]. *)
Definition net_init (p : string) (protocols : list string) : Net :=
  let '(d, dos) := start (dialer p) in
  let '(l, los) := start (listener protocols) in
  {| net_d := d; net_l := l; d2l := wire dos; l2d := wire los; d_log := dos; l_log := los |}.

Definition answer (p : string) (protocols : list string) : string :=
  if decide (p ∈ protocols) then p else NOT_AVAILABLE.
Definition verdict (p : string) (protocols : list string) : MultistreamOutput :=
  if decide (p ∈ protocols) then Negotiated p else NotAvailable.

Section negotiation.
Context (p : string) (protocols : list string).
Context (Hline : line_ok p) (Hna : p ∉ protocols → p ≠ NOT_AVAILABLE).

#[local] Abbreviation hdr := (encode_message MULTISTREAM_PROTOCOL_ID).
#[local] Abbreviation d0 := (start (dialer p)).1.
#[local] Abbreviation l0 := (start (listener protocols)).1.
#[local] Abbreviation ans := (answer p protocols).
#[local] Abbreviation verd := (verdict p protocols).

Lemma header_ok : line_ok MULTISTREAM_PROTOCOL_ID.
Proof using. split_and!; [done..|]. vm_compute. lia. Qed.

Lemma answer_ok : line_ok ans.
Proof using Hline.
  unfold answer. case_decide; [done|]. split_and!; [done..|]. vm_compute. lia.
Qed.

(** One iteration of the loop on a message that has arrived completely. *)
Lemma process_line m q rest s os :
  line_ok q → state m ≠ Done →
  handle_message (role m) (state m) (desired_protocol m) (supported_protocols m) q
    = Ok (s, os) →
  process (set_recv_buf m (encode_message q ++ rest)) =
    '(m', os') ← process (set_recv_buf (set_state m s) rest); Ok (m', os ++ os').
Proof using.
  intros Hq Hs Hh. rewrite process_eq. cbn [state recv_buf set_recv_buf].
  rewrite decide_False, decode_encode_message by done.
  cbn [role desired_protocol supported_protocols set_recv_buf]. rewrite Hh.
  unfold consume. cbn [recv_buf set_recv_buf mbind res_bind].
  by rewrite drop_app_length.
Qed.

Lemma process_done m : state m = Done → process m = Ok (m, []).
Proof using. intros. rewrite process_eq. by rewrite decide_True. Qed.

Lemma dialer_start_receive bytes :
  receive d0 bytes = process (set_recv_buf d0 bytes).
Proof using. rewrite receive_process. by rewrite decide_False. Qed.

Lemma listener_start_receive bytes :
  receive l0 bytes = process (set_recv_buf l0 bytes).
Proof using. rewrite receive_process. by rewrite decide_False. Qed.

Lemma dialer_header_step y :
  process (set_recv_buf d0 (hdr ++ y)) =
    '(m, os) ← process (set_recv_buf (set_state d0 WaitingForProtocolResponse) y);
    Ok (m, OutboundData (encode_message p) :: os).
Proof using.
  rewrite (process_line _ _ _ WaitingForProtocolResponse [OutboundData (encode_message p)]);
    [done|apply header_ok|done..].
Qed.

Lemma dialer_header y :
  ∃ m os, receive d0 (hdr ++ y) = Ok (m, OutboundData (encode_message p) :: os).
Proof using.
  rewrite dialer_start_receive, dialer_header_step.
  destruct (process_ok (set_recv_buf (set_state d0 WaitingForProtocolResponse) y))
    as (m & os & -> & _); [by left; eexists|]. by exists m, os.
Qed.

Lemma dialer_answer z :
  ∃ m, receive d0 (hdr ++ encode_message ans ++ z)
         = Ok (m, [OutboundData (encode_message p); verd]) ∧ state m = Done.
Proof using Hline Hna.
  rewrite dialer_start_receive, dialer_header_step.
  rewrite (process_line _ _ _ Done [verd]); [|by apply answer_ok|done|].
  - rewrite process_done by done. by eexists.
  - cbn -[verdict answer]. unfold answer, verdict.
    destruct (decide (p ∈ protocols)); [by rewrite decide_True|].
    rewrite decide_False by (intros <-; by apply Hna). by rewrite decide_True.
Qed.

Lemma listener_answer z :
  ∃ m, receive l0 (hdr ++ encode_message p ++ z)
         = Ok (m, [OutboundData (encode_message ans); verd]) ∧ state m = Done.
Proof using Hline.
  clear Hna. rewrite listener_start_receive.
  rewrite (process_line _ _ _ WaitingForProtocolRequest []); [|apply header_ok|done..].
  rewrite (process_line _ _ _ Done [OutboundData (encode_message ans); verd]); [|done..|].
  - rewrite process_done by done. by eexists.
  - cbn -[verdict answer]. unfold answer, verdict. do 2 case_decide; set_solver.
Qed.

(** Outputs only grow with the input. *)
Lemma receive_prefix m x y m1 os1 m2 os2 :
  ms_ok m → x `prefix_of` y → receive m x = Ok (m1, os1) → receive m y = Ok (m2, os2) →
  os1 `prefix_of` os2.
Proof using.
  intros Hok [z ->] H1 H2.
  destruct (receive_ok m x Hok) as (m1' & os1' & H1' & Hok1 & _).
  rewrite H1 in H1'. simplify_eq.
  destruct (receive_ok m1' z Hok1) as (m3 & os3 & H3 & _).
  destruct (receive_app _ _ _ _ _ _ _ H1 H3) as (m4 & H4 & _).
  rewrite H2 in H4. simplify_eq. by eexists.
Qed.

Lemma dialer_ms_ok : ms_ok d0.
Proof using. left. by eexists. Qed.
Lemma listener_ms_ok : ms_ok l0.
Proof using. by right. Qed.

(** What one side has written is a prefix of its part of the conversation. *)
Lemma dialer_writes x m os :
  x `prefix_of` hdr ++ encode_message ans → receive d0 x = Ok (m, os) →
  os `prefix_of` [OutboundData (encode_message p); verd].
Proof using Hline Hna.
  intros Hx Hr. destruct (dialer_answer []) as (m' & Hr' & _). rewrite app_nil_r in Hr'.
  by eapply receive_prefix; [apply dialer_ms_ok|..].
Qed.

Lemma listener_writes x m os :
  x `prefix_of` hdr ++ encode_message p → receive l0 x = Ok (m, os) →
  os `prefix_of` [OutboundData (encode_message ans); verd].
Proof using Hline.
  intros Hx Hr. destruct (listener_answer []) as (m' & Hr' & _). rewrite app_nil_r in Hr'.
  by eapply receive_prefix; [apply listener_ms_ok|..].
Qed.

Lemma wire_verdict : wire [verd] = [].
Proof using. unfold verdict. by case_decide. Qed.

Lemma wire_prefix b os : os `prefix_of` [OutboundData b; verd] → wire os `prefix_of` b.
Proof using.
  intros [k Hk]. apply (f_equal wire) in Hk. rewrite wire_app in Hk.
  change (wire [OutboundData b; verd]) with (b ++ wire [verd]) in Hk.
  rewrite wire_verdict, app_nil_r in Hk. by eexists.
Qed.

(** [X] and [Y] are the bytes the dialer and the listener have read so far. *)
Record net_inv (n : Net) (X Y : list byte) : Prop := {
  inv_d : ∃ md od, receive d0 X = Ok (md, od) ∧ agree (net_d n) md ∧
            d_log n = OutboundData hdr :: od ∧ hdr ++ wire od = Y ++ d2l n;
  inv_l : ∃ ml ol, receive l0 Y = Ok (ml, ol) ∧ agree (net_l n) ml ∧
            l_log n = OutboundData hdr :: ol ∧ hdr ++ wire ol = X ++ l2d n;
  inv_d_ok : ms_ok (net_d n);
  inv_l_ok : ms_ok (net_l n);
  inv_X : X `prefix_of` hdr ++ encode_message ans;
  inv_Y : Y `prefix_of` hdr ++ encode_message p;
}.

Lemma net_inv_init : net_inv (net_init p protocols) [] [].
Proof using.
  split; cbn [net_init net_d net_l d2l l2d d_log l_log start fst snd wire];
    rewrite ?app_nil_r; try apply prefix_nil.
  - exists d0, []. split_and!; [apply receive_nil; by right|apply agree_refl|done..].
  - exists l0, []. split_and!; [apply receive_nil; by right|apply agree_refl|done..].
  - apply dialer_ms_ok.
  - apply listener_ms_ok.
Qed.

Lemma receive_extends m0 m md x a m' od os :
  receive m0 x = Ok (md, od) → agree m md → receive m a = Ok (m', os) →
  ∃ md', receive m0 (x ++ a) = Ok (md', od ++ os) ∧ agree m' md'.
Proof using.
  intros H0 Ha Hr. destruct (agree_receive _ _ _ _ _ Ha Hr) as (m2 & Hr2 & Ha2).
  destruct (receive_app _ _ _ _ _ _ _ H0 Hr2) as (m3 & Hr3 & Ha3).
  exists m3. split; [done|by eapply agree_trans].
Qed.

Lemma net_inv_step n n' X Y :
  net_inv n X Y → net_step n n' →
  ∃ X' Y', net_inv n' X' Y' ∧ (length X + length Y < length X' + length Y')%nat.
Proof using Hline Hna.
  intros [(md & od & Hd & Hda & Hdl & Hdw) (ml & ol & Hl & Hla & Hll & Hlw) Hdo Hlo HX HY].
  destruct 1 as [n a b l' os Hab Hne Hr|n a b d' os Hab Hne Hr].
  - destruct (receive_extends _ _ _ _ _ _ _ _ Hl Hla Hr) as (ml' & Hl' & Hla').
    exists X, (Y ++ a). rewrite Hab in Hdw. split.
    + split; cbn [net_d net_l d2l l2d d_log l_log]; [| |done| |done|].
      * exists md, od. by rewrite <- app_assoc.
      * exists ml', (ol ++ os). rewrite wire_app, Hll, app_assoc, Hlw, app_assoc.
        split_and!; done.
      * destruct (receive_ok _ a Hlo) as (? & ? & Hr' & ? & _).
        rewrite Hr in Hr'. by simplify_eq.
      * pose proof (wire_prefix _ _ (dialer_writes _ _ _ HX Hd)) as [w ->].
        exists (b ++ w). rewrite app_assoc, Hdw. by rewrite !app_assoc.
    + rewrite length_app. destruct a; [done|simpl; lia].
  - destruct (receive_extends _ _ _ _ _ _ _ _ Hd Hda Hr) as (md' & Hd' & Hda').
    exists (X ++ a), Y. rewrite Hab in Hlw. split.
    + split; cbn [net_d net_l d2l l2d d_log l_log]; [| | |done| |done].
      * exists md', (od ++ os). rewrite wire_app, Hdl, app_assoc, Hdw, app_assoc.
        split_and!; done.
      * exists ml, ol. by rewrite <- app_assoc.
      * destruct (receive_ok _ a Hdo) as (? & ? & Hr' & ? & _).
        rewrite Hr in Hr'. by simplify_eq.
      * pose proof (wire_prefix _ _ (listener_writes _ _ _ HY Hl)) as [w ->].
        exists (b ++ w). rewrite app_assoc, Hlw. by rewrite !app_assoc.
    + rewrite length_app. destruct a; [done|simpl; lia].
Qed.

Lemma net_inv_nsteps k n :
  nsteps net_step k (net_init p protocols) n →
  ∃ X Y, net_inv n X Y ∧ (k ≤ length X + length Y)%nat.
Proof using Hline Hna.
  revert n. induction k as [|k IH]; intros n Hk.
  - inversion Hk; subst. exists [], []. split; [apply net_inv_init|simpl; lia].
  - apply nsteps_inv_r in Hk as (n1 & Hk & Hs). destruct (IH _ Hk) as (X & Y & HI & Hle).
    destruct (net_inv_step _ _ _ _ HI Hs) as (X' & Y' & HI' & Hlt).
    exists X', Y'. split; [done|lia].
Qed.

(** A dialer that has read at least the header has sent its request. *)
Lemma dialer_requested y m os :
  hdr ++ y `prefix_of` hdr ++ encode_message ans → receive d0 (hdr ++ y) = Ok (m, os) →
  wire os = encode_message p.
Proof using Hline Hna.
  intros Hy Hr. pose proof (dialer_writes _ _ _ Hy Hr) as Hp.
  destruct (dialer_header y) as (m' & os' & Hr'). rewrite Hr' in Hr. simplify_eq.
  change (OutboundData (encode_message p) :: os')
    with ([OutboundData (encode_message p)] ++ os').
  rewrite wire_app. assert (wire os' = []) as ->.
  { apply prefix_cons_inv_2 in Hp as [k Hk]. pose proof wire_verdict as Hw.
    rewrite Hk, wire_app in Hw. by apply app_eq_nil in Hw as [-> _]. }
  cbn [wire]. by rewrite !app_nil_r.
Qed.

Lemma net_inv_quiescent n X Y :
  net_inv n X Y → quiescent n →
  state (net_d n) = Done ∧ state (net_l n) = Done ∧
  d_log n = [OutboundData hdr; OutboundData (encode_message p); verd] ∧
  l_log n = [OutboundData hdr; OutboundData (encode_message ans); verd].
Proof using Hline Hna.
  intros [(md & od & Hd & Hda & Hdl & Hdw) (ml & ol & Hl & Hla & Hll & Hlw) _ _ HX HY] [Q1 Q2].
  rewrite Q1, app_nil_r in Hdw. rewrite Q2, app_nil_r in Hlw. subst X Y.
  rewrite (dialer_requested _ _ _ HX Hd) in Hl.
  destruct (listener_answer []) as (ml' & Hl' & HlD). rewrite app_nil_r in Hl'.
  rewrite Hl' in Hl. simplify_eq.
  change (wire [?o; verd]) with (wire ([o] ++ [verd])) in Hd.
  rewrite wire_app, wire_verdict, app_nil_r in Hd. cbn [wire] in Hd. rewrite app_nil_r in Hd.
  destruct (dialer_answer []) as (md' & Hd' & HdD). rewrite app_nil_r in Hd'.
  rewrite Hd' in Hd. simplify_eq.
  rewrite (agree_state _ _ Hda), (agree_state _ _ Hla), Hdl, Hll. done.
Qed.

Lemma net_inv_progress n X Y :
  net_inv n X Y → ~ quiescent n → ∃ n', net_step n n'.
Proof using.
  intros [_ _ Hdo Hlo _ _] Hq. destruct (d2l n) as [|b bs] eqn:E1.
  - destruct (l2d n) as [|b bs] eqn:E2; [by destruct Hq|].
    destruct (receive_ok (net_d n) (b :: bs) Hdo) as (d' & os & Hr & _).
    eexists. eapply (deliver_to_dialer n (b :: bs) []); [by rewrite app_nil_r|done..].
  - destruct (receive_ok (net_l n) (b :: bs) Hlo) as (d' & os & Hr & _).
    eexists. eapply (deliver_to_listener n (b :: bs) []); [by rewrite app_nil_r|done..].
Qed.
End negotiation.

(** A machine as the constructors and [start] leave it. *)
Definition fresh (m : MultistreamSelect) : Prop :=
  ∃ m0, ((∃ desired, m0 = dialer desired) ∨ (∃ protocols, m0 = listener protocols)) ∧
        m = (start m0).1.

Lemma fresh_ok m : fresh m → ms_ok m ∧ settled m ∧ state m ≠ Done.
Proof.
  intros (m0 & [[d ->]|[ps ->]] & ->); (split_and!; [|by right|done]).
  - left. by eexists.
  - by right.
Qed.

(** An incomplete frame is short. *)
Lemma decode_incomplete_length buf :
  decode_message buf = Incomplete → (length buf < 1034)%nat.
Proof.
  destruct buf as [|b buf]; [simpl; lia|]. intros Hd.
  destruct (read_uvarint (b :: buf)) as [[len used]|e|] eqn:Hr.
  - rewrite (decode_message_read _ _ _ Hr) in Hd.
    destruct (read_uvarint_inv _ _ _ Hr) as (Hl & Hu & _). pose proof (uvarint_len_le len Hl).
    unfold MAX_MESSAGE_LEN in Hd. destruct (Z.ltb_spec 1024 len); [done|].
    destruct (Nat.ltb_spec (length (b :: buf)) (used + Z.to_nat len)); [lia|].
    cbv zeta in Hd. repeat (case_decide || case_match); simplify_eq/=.
  - unfold decode_message in Hd. rewrite Hr in Hd. destruct e; [|done..].
    apply read_uvarint_short_length in Hr. lia.
  - by apply read_uvarint_no_panic in Hr.
Qed.

(** One schedule: everything in flight towards the listener, then everything
    towards the dialer, and so on. *)
Fixpoint run_net (fuel : nat) (n : Net) : Net :=
  match fuel with
  | O => n
  | S fuel =>
      match d2l n, l2d n with
      | [], [] => n
      | [], a =>
          match receive (net_d n) a with
          | Ok (d', os) => run_net fuel {| net_d := d'; net_l := net_l n; d2l := d2l n ++ wire os;
              l2d := []; d_log := d_log n ++ os; l_log := l_log n |}
          | _ => n
          end
      | a, _ =>
          match receive (net_l n) a with
          | Ok (l', os) => run_net fuel {| net_d := net_d n; net_l := l'; d2l := [];
              l2d := l2d n ++ wire os; d_log := d_log n; l_log := l_log n ++ os |}
          | _ => n
          end
      end
  end.

Lemma run_net_steps fuel n : rtc net_step n (run_net fuel n).
Proof.
  revert n. induction fuel as [|fuel IH]; intros n; [done|]. simpl.
  destruct (d2l n) as [|x xs] eqn:E1; [destruct (l2d n) as [|y ys] eqn:E2; [done|]|].
  - destruct (receive (net_d n) (y :: ys)) as [[d' os]| |] eqn:Hr; [|done..].
    eapply rtc_l; [|apply IH]. pose proof (deliver_to_dialer n (y :: ys) [] d' os) as Hs.
    rewrite E1, E2, app_nil_r in Hs. by apply Hs.
  - destruct (receive (net_l n) (x :: xs)) as [[l' os]| |] eqn:Hr; [|done..].
    eapply rtc_l; [|apply IH]. pose proof (deliver_to_listener n (x :: xs) [] l' os) as Hs.
    rewrite E1, app_nil_r in Hs. by apply Hs.
Qed.

(** ** Properties *)

(** Fragmentation: a machine never panics, and splitting the remote's bytes
    into packets in any way gives the same outputs, in the same order, and the same
    state (up to the bytes behind a finished handshake) as one packet with all of
    them.  While the handshake is open fewer than 1034 bytes are buffered. *)
Theorem multistream_fragmentation m chunks :
  fresh m →
  ∃ m1 m2 os, feed m chunks = Ok (m1, os) ∧ receive m (concat chunks) = Ok (m2, os) ∧
    agree m1 m2 ∧ (state m1 ≠ Done → (length (recv_buf m1) < 1034)%nat).
Proof.
  intros (Hok & Hs & _)%fresh_ok.
  destruct (feed_ok m chunks Hok Hs) as (m1 & os & Hf & _ & Hs1).
  destruct (feed_concat _ _ _ _ Hs Hf) as (m2 & Hr & Ha).
  exists m1, m2, os. split_and!; [done..|]. intros HD. destruct Hs1 as [?|?]; [done|].
  by apply decode_incomplete_length.
Qed.

Lemma multistream_fragmentation_witness :
  ∃ m1 m2 os,
    feed (start (dialer "/a")).1 [[x13; x2f]; [x6d]] = Ok (m1, os) ∧
    receive (start (dialer "/a")).1 [x13; x2f; x6d] = Ok (m2, os) ∧
    agree m1 m2 ∧ (state m1 ≠ Done → (length (recv_buf m1) < 1034)%nat).
Proof.
  apply (multistream_fragmentation (start (dialer "/a")).1 [[x13; x2f]; [x6d]]).
  exists (dialer "/a"). split; [left; by eexists|reflexivity].
Defined.

(** Verdicts: whatever the remote sends, a machine sends data and announces at
    most one verdict, as its last output and exactly when it is done; a positive
    verdict names the protocol the dialer asked for or one the listener
    supports. *)
Theorem multistream_one_verdict m chunks :
  fresh m → ∃ m' os, feed m chunks = Ok (m', os) ∧ run_ok m m' os.
Proof.
  intros (Hok & Hs & HD)%fresh_ok.
  destruct (feed_ok m chunks Hok Hs) as (m' & os & Hf & _).
  exists m', os. split; [done|]. by eapply feed_run.
Qed.

Lemma multistream_one_verdict_witness :
  ∃ m' os, feed (start (listener ["/a"])).1 [[x01; x00]] = Ok (m', os) ∧
           run_ok (start (listener ["/a"])).1 m' os.
Proof.
  apply (multistream_one_verdict (start (listener ["/a"])).1 [[x01; x00]]).
  exists (listener ["/a"]). split; [right; by eexists|reflexivity].
Defined.

(** C1. Agreement: connect a dialer for [p] and a listener over a reliable stream
    that may fragment and interleave both directions arbitrarily.  Whenever
    nothing is in flight any more, both sides are done and have exchanged header,
    request and answer, and both announce the same verdict: [p] is negotiated when
    the listener supports it, else it is not available. *)
Theorem multistream_agreement p protocols n :
  line_ok p → (p ∉ protocols → p ≠ NOT_AVAILABLE) →
  rtc net_step (net_init p protocols) n → quiescent n →
  state (net_d n) = Done ∧ state (net_l n) = Done ∧
  d_log n = [OutboundData (encode_message MULTISTREAM_PROTOCOL_ID);
             OutboundData (encode_message p); verdict p protocols] ∧
  l_log n = [OutboundData (encode_message MULTISTREAM_PROTOCOL_ID);
             OutboundData (encode_message (answer p protocols)); verdict p protocols].
Proof.
  intros Hl Hna [k Hk]%rtc_nsteps_1 Hq.
  destruct (net_inv_nsteps _ _ Hl Hna _ _ Hk) as (X & Y & HI & _).
  by eapply net_inv_quiescent.
Qed.

Lemma multistream_agreement_witness :
  quiescent (run_net 9 (net_init "/a" ["/b"; "/a"])) ∧
  d_log (run_net 9 (net_init "/a" ["/b"; "/a"])) =
    [OutboundData (encode_message MULTISTREAM_PROTOCOL_ID);
     OutboundData (encode_message "/a"); Negotiated "/a"].
Proof.
  assert (quiescent (run_net 9 (net_init "/a" ["/b"; "/a"]))) as Hq by (vm_compute; done).
  split; [exact Hq|].
  apply (multistream_agreement "/a" ["/b"; "/a"] (run_net 9 (net_init "/a" ["/b"; "/a"])));
    [split_and!; [done..|vm_compute; lia]|done|apply run_net_steps|exact Hq].
Defined.

(** C33. Termination: such a handshake has no infinite run.  Every run has at most as
    many deliveries as the conversation has bytes, and as long as bytes are in
    flight a delivery is possible, so every run can be continued until nothing is in
    flight and no further. *)
Theorem multistream_terminates p protocols k n :
  line_ok p → (p ∉ protocols → p ≠ NOT_AVAILABLE) →
  nsteps net_step k (net_init p protocols) n →
  (k ≤ 2 * length (encode_message MULTISTREAM_PROTOCOL_ID)
       + length (encode_message p) + length (encode_message (answer p protocols)))%nat ∧
  (~ quiescent n → ∃ n', net_step n n').
Proof.
  intros Hl Hna Hk. destruct (net_inv_nsteps _ _ Hl Hna _ _ Hk) as (X & Y & HI & Hle). split.
  - pose proof (prefix_length _ _ (inv_X _ _ _ _ _ HI)) as H1.
    pose proof (prefix_length _ _ (inv_Y _ _ _ _ _ HI)) as H2.
    rewrite length_app in H1, H2. lia.
  - by eapply net_inv_progress.
Qed.

Lemma multistream_terminates_witness :
  nsteps net_step 0 (net_init "/a" []) (net_init "/a" []) ∧
  ∃ n', net_step (net_init "/a" []) n'.
Proof.
  split; [constructor|].
  apply (multistream_terminates "/a" [] 0 (net_init "/a" []));
    [split_and!; [done..|vm_compute; lia]|done|constructor|by intros [? _]].
Defined.

(** A dialer that asks for a protocol whose id is the reserved word [na] takes the
    listener's refusal for an acceptance: the hypothesis of the agreement theorem
    is needed. *)
Example multistream_na_ambiguous :
  d_log (run_net 9 (net_init NOT_AVAILABLE [])) =
    [OutboundData (encode_message MULTISTREAM_PROTOCOL_ID);
     OutboundData (encode_message NOT_AVAILABLE); Negotiated NOT_AVAILABLE] ∧
  l_log (run_net 9 (net_init NOT_AVAILABLE [])) =
    [OutboundData (encode_message MULTISTREAM_PROTOCOL_ID);
     OutboundData (encode_message NOT_AVAILABLE); NotAvailable].
Proof. split; vm_compute; reflexivity. Qed.
