(* ===== verification/Ping.v ===== *)
(** * The ping protocol ([crates/ping/src/lib.rs])

    [PingProtocol] keeps, per peer, one outbound stream with at most one ping in
    flight, at most two inbound streams whose payloads it echoes, and a receive
    buffer per stream.  Peer ids are abstract: their type has decidable equality
    and the total order [peer_le] the maps are iterated in. *)
From S2P Require Import Prelude SansIo.
From Stdlib Require Import ZArith Strings.Byte Strings.String.
From stdpp Require Import base numbers list gmap strings.

#[local] Open Scope Z_scope.

Definition PING_PROTOCOL_ID : string := "/ipfs/ping/1.0.0"%string.
Definition PING_PAYLOAD_LEN : nat := 32.

Record PingConfig : Type := { request_timeout_ms : Z }.
Definition PingConfig_default : PingConfig := {| request_timeout_ms := 10000 |}.

Section ping.
Context {PeerId : Type} `{PeerEq : EqDecision PeerId} `{PeerCount : !Countable PeerId}.
Context (peer_le : relation PeerId) `{!RelDecision peer_le}.

(** ** Data *)

Inductive PingAction : Type :=
  | Send (peer_id : PeerId) (stream_id : StreamId) (data : list byte)
  | CloseStreamWrite (peer_id : PeerId) (stream_id : StreamId)
  | ResetStream (peer_id : PeerId) (stream_id : StreamId).

Inductive PingEvent : Type :=
  | OutboundStreamRegistered (peer_id : PeerId) (stream_id : StreamId)
  | InboundStreamAccepted (peer_id : PeerId) (stream_id : StreamId)
  | RttMeasured (peer_id : PeerId) (stream_id : StreamId) (rtt_ms : Z)
  | Timeout (peer_id : PeerId) (stream_id : StreamId) (timeout_ms : Z)
  | OutboundStreamClosed (peer_id : PeerId) (stream_id : StreamId)
  | StreamLimitExceeded (peer_id : PeerId) (stream_id : StreamId) (limit : nat)
  | ProtocolViolation (peer_id : PeerId) (stream_id : StreamId) (reason : string).

Inductive PingInput : Type :=
  | RegisterOutboundStream (peer_id : PeerId) (stream_id : StreamId)
  | RegisterInboundStream (peer_id : PeerId) (stream_id : StreamId)
  | SendPing (peer_id : PeerId) (payload : list byte) (now_ms : Z)
  | CloseOutboundStreamWrite (peer_id : PeerId)
  | StreamData (peer_id : PeerId) (stream_id : StreamId) (data : list byte) (now_ms : Z)
  | StreamRemoteWriteClosed (peer_id : PeerId) (stream_id : StreamId)
  | StreamClosed (peer_id : PeerId) (stream_id : StreamId)
  | RemovePeer (peer_id : PeerId)
  | MigratePeer (old_peer_id new_peer_id : PeerId)
  | Tick (now_ms : Z).

Inductive PingOutput : Type :=
  | Action (a : PingAction)
  | Event (e : PingEvent).

Inductive PingError : Type :=
  | OutboundStreamExists (peer_id : PeerId) (existing_stream : StreamId)
  | OutboundStreamMissing (peer_id : PeerId)
  | PingAlreadyInFlight (peer_id : PeerId) (stream_id : StreamId)
  | InvalidPayloadLength (actual : nat).

Record PendingPing : Type := { payload : list byte; sent_at_ms : Z }.

Record PeerPingState : Type := {
  outbound_stream : option StreamId;
  inbound_streams : gset StreamId;
  pending_ping : option PendingPing;
  recv_bufs : gmap StreamId (list byte);
}.

Definition PeerPingState_default : PeerPingState :=
  {| outbound_stream := None; inbound_streams := ∅; pending_ping := None; recv_bufs := ∅ |}.

Record PingProtocol : Type := {
  peers : gmap PeerId PeerPingState;
  pending_events : list PingEvent;
  pending_actions : list PingAction;
  config : PingConfig;
}.

Definition set_outbound (p : PeerPingState) (o : option StreamId) : PeerPingState :=
  {| outbound_stream := o; inbound_streams := inbound_streams p;
     pending_ping := pending_ping p; recv_bufs := recv_bufs p |}.
Definition set_inbound (p : PeerPingState) (i : gset StreamId) : PeerPingState :=
  {| outbound_stream := outbound_stream p; inbound_streams := i;
     pending_ping := pending_ping p; recv_bufs := recv_bufs p |}.
Definition set_pending (p : PeerPingState) (o : option PendingPing) : PeerPingState :=
  {| outbound_stream := outbound_stream p; inbound_streams := inbound_streams p;
     pending_ping := o; recv_bufs := recv_bufs p |}.
Definition set_bufs (p : PeerPingState) (b : gmap StreamId (list byte)) : PeerPingState :=
  {| outbound_stream := outbound_stream p; inbound_streams := inbound_streams p;
     pending_ping := pending_ping p; recv_bufs := b |}.

Definition set_peers (m : PingProtocol) (ps : gmap PeerId PeerPingState) : PingProtocol :=
  {| peers := ps; pending_events := pending_events m;
     pending_actions := pending_actions m; config := config m |}.
Definition put_peer (m : PingProtocol) (peer_id : PeerId) (p : PeerPingState) : PingProtocol :=
  set_peers m (<[peer_id := p]> (peers m)).
Definition push_event (m : PingProtocol) (e : PingEvent) : PingProtocol :=
  {| peers := peers m; pending_events := (pending_events m ++ [e]);
     pending_actions := pending_actions m; config := config m |}.
Definition extend_actions (m : PingProtocol) (acts : list PingAction) : PingProtocol :=
  {| peers := peers m; pending_events := pending_events m;
     pending_actions := (pending_actions m ++ acts); config := config m |}.

(** ** Operations *)

Definition ping_new (cfg : PingConfig) : PingProtocol :=
  {| peers := ∅; pending_events := []; pending_actions := []; config := cfg |}.

Definition register_outbound_stream (m : PingProtocol) (peer_id : PeerId) (stream_id : StreamId)
    : PingProtocol * res PingError unit :=
  let peer := default PeerPingState_default (peers m !! peer_id) in
  let m := put_peer m peer_id peer in
  match outbound_stream peer with
  | Some existing =>
      if decide (existing ≠ stream_id)
      then (m, Err (OutboundStreamExists peer_id existing))
      else (m, Ok ())
  | None =>
      let m := put_peer m peer_id (set_outbound peer (Some stream_id)) in
      (push_event m (OutboundStreamRegistered peer_id stream_id), Ok ())
  end.

Definition get_outbound_stream (m : PingProtocol) (peer_id : PeerId) : option StreamId :=
  peers m !! peer_id ≫= outbound_stream.

Definition register_inbound_stream (m : PingProtocol) (peer_id : PeerId) (stream_id : StreamId)
    : PingProtocol * list PingAction :=
  let peer := default PeerPingState_default (peers m !! peer_id) in
  let m := put_peer m peer_id peer in
  if decide (stream_id ∈ inbound_streams peer) then (m, [])
  else if decide (2 <= size (inbound_streams peer))%nat then
    (push_event m (StreamLimitExceeded peer_id stream_id 2), [ResetStream peer_id stream_id])
  else
    let m := put_peer m peer_id (set_inbound peer ({[stream_id]} ∪ inbound_streams peer)) in
    (push_event m (InboundStreamAccepted peer_id stream_id), []).

Definition send_ping (m : PingProtocol) (peer_id : PeerId) (data : list byte) (now_ms : Z)
    : PingProtocol * res PingError PingAction :=
  if decide (length data ≠ PING_PAYLOAD_LEN) then (m, Err (InvalidPayloadLength (length data)))
  else
    match peers m !! peer_id with
    | None => (m, Err (OutboundStreamMissing peer_id))
    | Some peer =>
        match outbound_stream peer with
        | None => (m, Err (OutboundStreamMissing peer_id))
        | Some stream_id =>
            match pending_ping peer with
            | Some _ => (m, Err (PingAlreadyInFlight peer_id stream_id))
            | None =>
                let pending := {| payload := data; sent_at_ms := now_ms |} in
                (put_peer m peer_id (set_pending peer (Some pending)),
                 Ok (Send peer_id stream_id data))
            end
        end
    end.

Definition close_outbound_stream_write (m : PingProtocol) (peer_id : PeerId)
    : res PingError PingAction :=
  peer ← ok_or (peers m !! peer_id) (OutboundStreamMissing peer_id);
  stream_id ← ok_or (outbound_stream peer) (OutboundStreamMissing peer_id);
  match pending_ping peer with
  | Some _ => Err (PingAlreadyInFlight peer_id stream_id)
  | None => Ok (CloseStreamWrite peer_id stream_id)
  end.

Definition protocol_violation (m : PingProtocol) (peer_id : PeerId) (stream_id : StreamId)
    (reason : string) : PingProtocol * list PingAction :=
  (push_event m (ProtocolViolation peer_id stream_id reason), [ResetStream peer_id stream_id]).

Definition process_complete_payload (m : PingProtocol) (peer_id : PeerId) (stream_id : StreamId)
    (data : list byte) (now_ms : Z) : res Empty_set (PingProtocol * list PingAction) :=
  peer ← expect (peers m !! peer_id);
  if decide (outbound_stream peer = Some stream_id) then
    let m := put_peer m peer_id (set_pending peer None) in
    match pending_ping peer with
    | None =>
        Ok (protocol_violation m peer_id stream_id
              "received ping response with no in-flight request"%string)
    | Some pending =>
        if decide (payload pending ≠ data) then
          Ok (protocol_violation m peer_id stream_id "ping response payload mismatch"%string)
        else
          let rtt_ms := saturating_sub now_ms (sent_at_ms pending) in
          Ok (push_event m (RttMeasured peer_id stream_id rtt_ms), [])
    end
  else if decide (stream_id ∈ inbound_streams peer) then
    Ok (m, [Send peer_id stream_id data])
  else Ok (m, []).

(** The stream is one of the peer's. *)
Definition is_known (p : PeerPingState) (stream_id : StreamId) : bool :=
  bool_decide (outbound_stream p = Some stream_id) || bool_decide (stream_id ∈ inbound_streams p).

Definition on_stream_data (m : PingProtocol) (peer_id : PeerId) (stream_id : StreamId)
    (data : list byte) (now_ms : Z) : res Empty_set (PingProtocol * list PingAction) :=
  let known := match peers m !! peer_id with Some p => is_known p stream_id | None => false end in
  if negb known then
    Ok (protocol_violation m peer_id stream_id "ping data on unknown stream"%string)
  else
    peer ← expect (peers m !! peer_id);
    let buf := (default [] (recv_bufs peer !! stream_id) ++ data) in
    let peer := set_bufs peer (<[stream_id := buf]> (recv_bufs peer)) in
    let m := put_peer m peer_id peer in
    peer ← expect (peers m !! peer_id);
    buf ← expect (recv_bufs peer !! stream_id);
    let buf_len := length buf in
    if decide (PING_PAYLOAD_LEN < buf_len)%nat then
      let m := match peers m !! peer_id with
               | Some p => put_peer m peer_id (set_bufs p (delete stream_id (recv_bufs p)))
               | None => m
               end in
      Ok (protocol_violation m peer_id stream_id
            ("recv buffer " ++ to_string buf_len ++ " bytes exceeds payload size "
              ++ to_string PING_PAYLOAD_LEN)%string)
    else if decide (buf_len < PING_PAYLOAD_LEN)%nat then Ok (m, [])
    else
      peer ← expect (peers m !! peer_id);
      buf ← expect (recv_bufs peer !! stream_id);
      (* [copy_from_slice] unwinds unless the lengths agree *)
      payload ← (if decide (length buf = PING_PAYLOAD_LEN) then Ok buf else Panic);
      let m := put_peer m peer_id (set_bufs peer (delete stream_id (recv_bufs peer))) in
      process_complete_payload m peer_id stream_id payload now_ms.

Definition on_stream_remote_write_closed (m : PingProtocol) (peer_id : PeerId)
    (stream_id : StreamId) : PingProtocol * list PingAction :=
  match peers m !! peer_id with
  | None => (m, [])
  | Some peer =>
      if decide (stream_id ∈ inbound_streams peer) then
        let peer := set_inbound peer (inbound_streams peer ∖ {[stream_id]}) in
        let peer := set_bufs peer (delete stream_id (recv_bufs peer)) in
        (put_peer m peer_id peer, [])
      else if decide (outbound_stream peer = Some stream_id) then
        match pending_ping peer with
        | Some _ =>
            let peer := set_outbound (set_pending peer None) None in
            let peer := set_bufs peer (delete stream_id (recv_bufs peer)) in
            protocol_violation (put_peer m peer_id peer) peer_id stream_id
              "outbound stream closed before ping response"%string
        | None =>
            let peer := set_outbound peer None in
            let peer := set_bufs peer (delete stream_id (recv_bufs peer)) in
            (push_event (put_peer m peer_id peer) (OutboundStreamClosed peer_id stream_id), [])
        end
      else (m, [])
  end.

Definition on_stream_closed (m : PingProtocol) (peer_id : PeerId) (stream_id : StreamId)
    : PingProtocol :=
  match peers m !! peer_id with
  | None => m
  | Some peer =>
      let peer := set_inbound peer (inbound_streams peer ∖ {[stream_id]}) in
      let peer := set_bufs peer (delete stream_id (recv_bufs peer)) in
      if decide (outbound_stream peer = Some stream_id)
      then put_peer m peer_id (set_pending (set_outbound peer None) None)
      else put_peer m peer_id peer
  end.

Definition remove_peer (m : PingProtocol) (peer_id : PeerId) : PingProtocol :=
  set_peers m (delete peer_id (peers m)).

Definition rekey (old new p : PeerId) : PeerId := if decide (p = old) then new else p.

Definition rekey_event (old new : PeerId) (e : PingEvent) : PingEvent :=
  match e with
  | OutboundStreamRegistered p s => OutboundStreamRegistered (rekey old new p) s
  | InboundStreamAccepted p s => InboundStreamAccepted (rekey old new p) s
  | RttMeasured p s r => RttMeasured (rekey old new p) s r
  | Timeout p s t => Timeout (rekey old new p) s t
  | OutboundStreamClosed p s => OutboundStreamClosed (rekey old new p) s
  | StreamLimitExceeded p s l => StreamLimitExceeded (rekey old new p) s l
  | ProtocolViolation p s r => ProtocolViolation (rekey old new p) s r
  end.

Definition migrate_peer (m : PingProtocol) (old_peer_id new_peer_id : PeerId) : PingProtocol :=
  if decide (old_peer_id = new_peer_id) then m
  else
    let m := match peers m !! old_peer_id with
             | Some state => set_peers m (<[new_peer_id := state]> (delete old_peer_id (peers m)))
             | None => m
             end in
    {| peers := peers m; pending_events := rekey_event old_peer_id new_peer_id <$> pending_events m;
       pending_actions := pending_actions m; config := config m |}.

(** The body of [for (peer_id, peer) in self.peers.iter_mut()]. *)
Fixpoint tick_loop (now_ms : Z) (entries : list (PeerId * PeerPingState)) (m : PingProtocol)
    (actions : list PingAction) : PingProtocol * list PingAction :=
  match entries with
  | [] => (m, actions)
  | (peer_id, peer) :: entries =>
      match outbound_stream peer, pending_ping peer with
      | Some stream_id, Some pending =>
          let elapsed := saturating_sub now_ms (sent_at_ms pending) in
          if request_timeout_ms (config m) <? elapsed then
            let peer := set_outbound (set_pending peer None) None in
            let peer := set_bufs peer (delete stream_id (recv_bufs peer)) in
            let m := put_peer m peer_id peer in
            let m := push_event m (Timeout peer_id stream_id (request_timeout_ms (config m))) in
            let m := push_event m (OutboundStreamClosed peer_id stream_id) in
            tick_loop now_ms entries m (actions ++ [ResetStream peer_id stream_id])
          else tick_loop now_ms entries m actions
      | _, _ => tick_loop now_ms entries m actions
      end
  end.

Definition on_tick (m : PingProtocol) (now_ms : Z) : PingProtocol * list PingAction :=
  tick_loop now_ms (btree_iter peer_le (peers m)) m [].

(** ** The trait implementation *)

Definition ping_handle_input (m : PingProtocol) (input : PingInput)
    : PingProtocol * res PingError unit :=
  match input with
  | RegisterOutboundStream peer_id stream_id => register_outbound_stream m peer_id stream_id
  | RegisterInboundStream peer_id stream_id =>
      let '(m, actions) := register_inbound_stream m peer_id stream_id in
      (extend_actions m actions, Ok ())
  | SendPing peer_id data now_ms =>
      match send_ping m peer_id data now_ms with
      | (m, Ok action) => (extend_actions m [action], Ok ())
      | (m, Err e) => (m, Err e)
      | (m, Panic) => (m, Panic)
      end
  | CloseOutboundStreamWrite peer_id =>
      match close_outbound_stream_write m peer_id with
      | Ok action => (extend_actions m [action], Ok ())
      | Err e => (m, Err e)
      | Panic => (m, Panic)
      end
  | StreamData peer_id stream_id data now_ms =>
      match on_stream_data m peer_id stream_id data now_ms with
      | Ok (m, actions) => (extend_actions m actions, Ok ())
      | _ => (m, Panic)
      end
  | StreamRemoteWriteClosed peer_id stream_id =>
      let '(m, actions) := on_stream_remote_write_closed m peer_id stream_id in
      (extend_actions m actions, Ok ())
  | StreamClosed peer_id stream_id => (on_stream_closed m peer_id stream_id, Ok ())
  | RemovePeer peer_id => (remove_peer m peer_id, Ok ())
  | MigratePeer old new => (migrate_peer m old new, Ok ())
  | Tick now_ms =>
      let '(m, actions) := on_tick m now_ms in (extend_actions m actions, Ok ())
  end.

Definition ping_poll_output (m : PingProtocol) : option PingOutput * PingProtocol :=
  match pending_actions m with
  | action :: actions =>
      (Some (Action action),
       {| peers := peers m; pending_events := pending_events m;
          pending_actions := actions; config := config m |})
  | [] =>
      match pending_events m with
      | [] => (None, m)
      | event :: events =>
          (Some (Event event),
           {| peers := peers m; pending_events := events;
              pending_actions := []; config := config m |})
      end
  end.

Definition ping_is_idle (m : PingProtocol) : bool :=
  bool_decide (pending_actions m = []) && bool_decide (pending_events m = []).

#[export] Instance Ping_sansio : SansIoProtocol PingProtocol PingInput PingOutput PingError := {
  handle_input := ping_handle_input;
  poll_output := ping_poll_output;
  is_idle := ping_is_idle;
}.

#[export, refine] Instance Ping_laws : SansIoLaws Ping_sansio := {
  pending m := (length (pending_actions m) + length (pending_events m))%nat
}.
Proof.
  - intros m. simpl. unfold ping_is_idle, ping_poll_output.
    rewrite andb_true_iff, !bool_decide_eq_true.
    destruct (pending_actions m), (pending_events m); simpl; naive_solver.
  - intros m m'. simpl. unfold ping_is_idle, ping_poll_output.
    rewrite andb_true_iff, !bool_decide_eq_true.
    destruct (pending_actions m) eqn:E1, (pending_events m) eqn:E2; naive_solver.
  - intros m o m'. simpl. unfold ping_poll_output.
    destruct (pending_actions m) eqn:E1, (pending_events m) eqn:E2; intros [=]; subst; simpl; lia.
Qed.

(** ** The invariant *)

Record peer_ok (p : PeerPingState) : Prop := {
  ok_inbound : (size (inbound_streams p) <= 2)%nat;
  ok_pending pp : pending_ping p = Some pp →
    is_Some (outbound_stream p) ∧ length (payload pp) = PING_PAYLOAD_LEN;
  ok_bufs s b : recv_bufs p !! s = Some b →
    (length b < PING_PAYLOAD_LEN)%nat ∧ is_known p s = true;
}.

Definition ping_inv (m : PingProtocol) : Prop := map_Forall (λ _, peer_ok) (peers m).

Lemma is_known_true p s :
  is_known p s = true ↔ outbound_stream p = Some s ∨ s ∈ inbound_streams p.
Proof. unfold is_known. by rewrite orb_true_iff, !bool_decide_eq_true. Qed.

Lemma peer_ok_default : peer_ok PeerPingState_default.
Proof. split; [vm_compute; lia|done|intros s b; simpl; by rewrite lookup_empty]. Qed.

Lemma ping_inv_get m pid p : ping_inv m → peers m !! pid = Some p → peer_ok p.
Proof. intros Hi Hp. exact (Hi _ _ Hp). Qed.

Lemma ping_inv_get_default m pid :
  ping_inv m → peer_ok (default PeerPingState_default (peers m !! pid)).
Proof.
  intros Hi. destruct (peers m !! pid) eqn:E; [by eapply ping_inv_get|apply peer_ok_default].
Qed.

Lemma ping_inv_put m pid p : ping_inv m → peer_ok p → ping_inv (put_peer m pid p).
Proof. intros Hi Hp. by apply map_Forall_insert_2. Qed.

(** Dropping a stream's buffer, with the stream itself or without. *)
Lemma peer_ok_drop_buf p s :
  peer_ok p → peer_ok (set_bufs p (delete s (recv_bufs p))).
Proof. intros [Hi Hp Hb]. split; [done..|]. simpl. intros s' b [_ Hl]%lookup_delete_Some. eauto. Qed.

Lemma peer_ok_drop_outbound p s :
  peer_ok p → outbound_stream p = Some s →
  peer_ok (set_bufs (set_outbound (set_pending p None) None) (delete s (recv_bufs p))).
Proof.
  intros [Hi Hp Hb] Ho. split; simpl; [done..|].
  intros s' b [Hne Hl]%lookup_delete_Some. destruct (Hb _ _ Hl) as [? Hk]. split; [done|].
  apply is_known_true in Hk. apply is_known_true. simpl. right.
  destruct Hk as [Hk|Hk]; [congruence|done].
Qed.

Lemma peer_ok_drop_inbound p s :
  peer_ok p →
  peer_ok (set_bufs (set_inbound p (inbound_streams p ∖ {[s]})) (delete s (recv_bufs p))).
Proof.
  intros [Hi Hp Hb]. split; simpl; [|done|].
  - etrans; [|exact Hi]. apply subseteq_size. set_solver.
  - intros s' b [Hne Hl]%lookup_delete_Some. destruct (Hb _ _ Hl) as [? Hk]. split; [done|].
    apply is_known_true in Hk. apply is_known_true. simpl. destruct Hk; [by left|right].
    set_solver.
Qed.

Lemma peer_ok_no_pending p : peer_ok p → peer_ok (set_pending p None).
Proof. intros [Hi Hp Hb]. by split. Qed.

(** ** [on_stream_data] without its repeated lookups *)

Lemma on_stream_data_eq m pid s data now :
  on_stream_data m pid s data now =
    match peers m !! pid with
    | Some p =>
        if is_known p s then
          let buf := default [] (recv_bufs p !! s) ++ data in
          let cleared := put_peer m pid (set_bufs p (delete s (recv_bufs p))) in
          if decide (PING_PAYLOAD_LEN < length buf)%nat then
            Ok (protocol_violation cleared pid s
                  ("recv buffer " ++ to_string (length buf) ++ " bytes exceeds payload size "
                    ++ to_string PING_PAYLOAD_LEN)%string)
          else if decide (length buf < PING_PAYLOAD_LEN)%nat then
            Ok (put_peer m pid (set_bufs p (<[s := buf]> (recv_bufs p))), [])
          else process_complete_payload cleared pid s buf now
        else Ok (protocol_violation m pid s "ping data on unknown stream"%string)
    | None => Ok (protocol_violation m pid s "ping data on unknown stream"%string)
    end.
Proof.
  unfold on_stream_data. destruct (peers m !! pid) as [p|] eqn:Ep; [|done].
  destruct (is_known p s); [|done].
  unfold put_peer. cbn [negb expect mbind res_bind peers set_peers].
  rewrite !lookup_insert_eq. cbn [expect mbind res_bind recv_bufs set_bufs].
  rewrite !lookup_insert_eq. cbn [expect mbind res_bind recv_bufs set_bufs].
  rewrite !insert_insert_eq, !delete_insert_eq.
  set (buf := default [] (recv_bufs p !! s) ++ data).
  destruct (decide (PING_PAYLOAD_LEN < length buf)%nat) as [|H1]; [done|].
  destruct (decide (length buf < PING_PAYLOAD_LEN)%nat) as [|H2]; [done|].
  rewrite decide_True by lia. done.
Qed.

(** ** Every operation preserves the invariant *)

Create HintDb ping discriminated.
#[local] Hint Resolve ping_inv_put ping_inv_get ping_inv_get_default peer_ok_drop_buf
  peer_ok_drop_outbound peer_ok_drop_inbound peer_ok_no_pending : ping.

Lemma register_outbound_inv m pid s :
  ping_inv m → ping_inv (register_outbound_stream m pid s).1.
Proof.
  intros Hi. unfold register_outbound_stream.
  pose proof (ping_inv_get_default m pid Hi) as Hp.
  destruct (outbound_stream _) eqn:Eo; [case_decide; by apply ping_inv_put|].
  apply (ping_inv_put (put_peer m pid _)); [by apply ping_inv_put|].
  destruct Hp as [H1 H2 H3]. split; simpl; [done| |].
  - intros pp [Ho ?]%H2. split; [by eexists|done].
  - intros s' b [? Hk]%H3. split; [done|]. apply is_known_true in Hk. apply is_known_true. simpl.
    destruct Hk; [congruence|by right].
Qed.

Lemma register_inbound_inv m pid s :
  ping_inv m → ping_inv (register_inbound_stream m pid s).1.
Proof.
  intros Hi. unfold register_inbound_stream.
  pose proof (ping_inv_get_default m pid Hi) as Hp.
  case_decide; [by apply ping_inv_put|]. case_decide; [by apply ping_inv_put|].
  apply (ping_inv_put (put_peer m pid _)); [by apply ping_inv_put|].
  destruct Hp as [H1 H2 H3]. split; simpl; [|done|].
  - rewrite size_union_alt, size_singleton.
    etrans; [apply Nat.add_le_mono_l, subseteq_size, subseteq_difference_l; reflexivity|]. lia.
  - intros s' b [? Hk]%H3. split; [done|]. apply is_known_true in Hk. apply is_known_true. simpl.
    set_solver.
Qed.

Lemma send_ping_inv m pid data now : ping_inv m → ping_inv (send_ping m pid data now).1.
Proof.
  intros Hi. unfold send_ping. case_decide as Hlen; [done|].
  destruct (peers m !! pid) as [p|] eqn:Ep; [|done].
  destruct (outbound_stream p) eqn:Eo; [|done]. destruct (pending_ping p); [done|].
  apply ping_inv_put; [done|]. destruct (ping_inv_get _ _ _ Hi Ep) as [H1 H2 H3].
  split; simpl; [done| |done]. intros pp [= <-]. split; [by eexists|]. simpl. lia.
Qed.

Lemma process_complete_payload_ok m pid p s data now :
  ping_inv m → peers m !! pid = Some p →
  ∃ m' acts, process_complete_payload m pid s data now = Ok (m', acts) ∧ ping_inv m'.
Proof.
  intros Hi Hp. unfold process_complete_payload. rewrite Hp. cbn [expect mbind res_bind].
  case_decide; [|case_decide; eauto]. 
  assert (ping_inv (put_peer m pid (set_pending p None))) by eauto with ping.
  destruct (pending_ping p); [case_decide|]; eexists _, _; (split; [reflexivity|done]).
Qed.

Lemma on_stream_data_ok m pid s data now :
  ping_inv m → ∃ m' acts, on_stream_data m pid s data now = Ok (m', acts) ∧ ping_inv m'.
Proof.
  intros Hi. rewrite on_stream_data_eq. destruct (peers m !! pid) as [p|] eqn:Ep; [|eauto].
  pose proof (ping_inv_get _ _ _ Hi Ep) as Hp.
  destruct (is_known p s) eqn:Ek; [|eauto]. cbv zeta. case_decide.
  { eexists _, _. split; [reflexivity|]. apply (ping_inv_put m); by eauto with ping. }
  case_decide.
  - eexists _, _. split; [reflexivity|]. apply ping_inv_put; [done|].
    destruct Hp as [H1 H2 H3]. split; simpl; [done..|]. intros s' b.
    rewrite lookup_insert_Some. intros [[<- <-]|[_ Hl]]; [done|by apply H3].
  - eapply process_complete_payload_ok; [by eauto with ping|].
    unfold put_peer. simpl. apply lookup_insert_eq.
Qed.

Lemma on_stream_remote_write_closed_inv m pid s :
  ping_inv m → ping_inv (on_stream_remote_write_closed m pid s).1.
Proof.
  intros Hi. unfold on_stream_remote_write_closed.
  destruct (peers m !! pid) as [p|] eqn:Ep; [|done]. pose proof (ping_inv_get _ _ _ Hi Ep) as Hp.
  case_decide; [apply ping_inv_put; [done|exact (peer_ok_drop_inbound p s Hp)]|]. case_decide; [|done].
  pose proof (peer_ok_drop_outbound _ _ Hp ltac:(eassumption)) as Hd.
  destruct (pending_ping p) eqn:Epp; simpl; apply ping_inv_put; try done.
  by destruct Hd as [H1 H2 H3]; split; simpl in *; rewrite ?Epp.
Qed.

Lemma on_stream_closed_inv m pid s : ping_inv m → ping_inv (on_stream_closed m pid s).
Proof.
  intros Hi. unfold on_stream_closed.
  destruct (peers m !! pid) as [p|] eqn:Ep; [|done]. pose proof (ping_inv_get _ _ _ Hi Ep) as Hp.
  pose proof (peer_ok_drop_inbound p s Hp) as Hd.
  case_decide as Ho; apply ping_inv_put; try done.
  pose proof (peer_ok_drop_outbound _ _ Hd Ho) as Hd'.
  cbn [recv_bufs set_bufs set_inbound] in Hd'. by rewrite delete_delete_eq in Hd'.
Qed.

Lemma migrate_peer_inv m old new : ping_inv m → ping_inv (migrate_peer m old new).
Proof.
  intros Hi. unfold migrate_peer. case_decide; [done|].
  destruct (peers m !! old) eqn:E; [|done]. apply map_Forall_insert_2; [by eapply ping_inv_get|].
  by apply map_Forall_delete.
Qed.

(** ** The clock *)

(** The stream of a peer whose ping is overdue at [now]. *)
Definition overdue (timeout now : Z) (p : PeerPingState) : option StreamId :=
  match outbound_stream p, pending_ping p with
  | Some s, Some pp => if timeout <? saturating_sub now (sent_at_ms pp) then Some s else None
  | _, _ => None
  end.

Definition expire (timeout now : Z) (p : PeerPingState) : PeerPingState :=
  match overdue timeout now p with
  | Some s => set_bufs (set_outbound (set_pending p None) None) (delete s (recv_bufs p))
  | None => p
  end.

Definition overdue_entry (timeout now : Z) (kp : PeerId * PeerPingState)
    : option (PeerId * StreamId) :=
  (λ s, (kp.1, s)) <$> overdue timeout now kp.2.

Definition timeout_events (timeout : Z) (ks : PeerId * StreamId) : list PingEvent :=
  [Timeout ks.1 ks.2 timeout; OutboundStreamClosed ks.1 ks.2].

Lemma tick_loop_cons now k p entries m acts :
  tick_loop now ((k, p) :: entries) m acts =
    match overdue (request_timeout_ms (config m)) now p with
    | Some s =>
        let t := request_timeout_ms (config m) in
        tick_loop now entries
          (push_event (push_event (put_peer m k (expire t now p)) (Timeout k s t))
             (OutboundStreamClosed k s))
          (acts ++ [ResetStream k s])
    | None => tick_loop now entries m acts
    end.
Proof.
  cbn [tick_loop]. unfold expire. destruct (overdue _ now p) eqn:E; unfold overdue in E;
    destruct (outbound_stream p), (pending_ping p); try done; by case_match; simplify_eq.
Qed.

Lemma tick_loop_outputs now entries m acts :
  let t := request_timeout_ms (config m) in
  let due := omap (overdue_entry t now) entries in
  let '(m', acts') := tick_loop now entries m acts in
  config m' = config m ∧ pending_actions m' = pending_actions m ∧
  acts' = acts ++ ((λ ks, ResetStream ks.1 ks.2) <$> due) ∧
  pending_events m' = pending_events m ++ (due ≫= timeout_events t).
Proof.
  cbv zeta. revert m acts. induction entries as [|[k p] entries IH]; intros m acts.
  { simpl. by rewrite !app_nil_r. }
  rewrite tick_loop_cons. cbn [omap list_omap].
  assert (overdue_entry (request_timeout_ms (config m)) now (k, p) =
    (λ s, (k, s)) <$> overdue (request_timeout_ms (config m)) now p) as -> by done.
  destruct (overdue _ now p) as [s|]; cbn [fmap option_fmap option_map]; [|apply IH].
  cbv zeta. match goal with |- context [tick_loop now entries ?m1 ?a1] => specialize (IH m1 a1) end.
  destruct (tick_loop now entries _ _) as [m' acts']. destruct IH as (-> & -> & -> & ->).
  cbn [config pending_actions pending_events push_event put_peer set_peers].
  split_and!; [done..| |]; by rewrite <- ?app_assoc.
Qed.

Lemma tick_loop_peers now entries m acts k :
  NoDup entries.*1 → (∀ k p, (k, p) ∈ entries → peers m !! k = Some p) →
  peers (tick_loop now entries m acts).1 !! k =
    if decide (k ∈ entries.*1) then expire (request_timeout_ms (config m)) now <$> peers m !! k
    else peers m !! k.
Proof.
  revert m acts. induction entries as [|[k0 p] entries IH]; intros m acts Hnd Hin.
  { rewrite decide_False by set_solver. done. }
  rewrite tick_loop_cons. apply NoDup_cons in Hnd as [Hk0 Hnd]. cbn [fst] in *.
  pose proof (Hin k0 p ltac:(set_solver)) as Hp.
  assert (∀ m1, config m1 = config m → peers m1 = <[k0 := expire (request_timeout_ms (config m)) now p]> (peers m) →
    ∀ acts1, peers (tick_loop now entries m1 acts1).1 !! k =
    if decide (k ∈ k0 :: entries.*1) then expire (request_timeout_ms (config m)) now <$> peers m !! k
    else peers m !! k) as Hstep.
  { intros m1 Hc Hp1 acts1. rewrite IH, Hc, Hp1; [|done|].
    - destruct (decide (k = k0)) as [->|Hne].
      + rewrite decide_False, decide_True, lookup_insert_eq, Hp by set_solver. done.
      + rewrite lookup_insert_ne by done. repeat case_decide; set_solver.
    - intros k1 p1 H1. rewrite Hp1, lookup_insert_ne; [apply Hin; set_solver|].
      intros <-. apply Hk0. apply list_elem_of_fmap. by exists (k0, p1). }
  destruct (overdue _ now p) as [s|] eqn:E; apply Hstep; try done.
  unfold expire. rewrite E. by rewrite insert_id.
Qed.

Lemma on_tick_spec m now :
  let t := request_timeout_ms (config m) in
  let due := omap (overdue_entry t now) (btree_iter peer_le (peers m)) in
  let '(m', acts) := on_tick m now in
  peers m' = expire t now <$> peers m ∧ config m' = config m ∧
  pending_actions m' = pending_actions m ∧
  acts = (λ ks, ResetStream ks.1 ks.2) <$> due ∧
  pending_events m' = pending_events m ++ (due ≫= timeout_events t).
Proof.
  cbv zeta. unfold on_tick.
  pose proof (tick_loop_outputs now (btree_iter peer_le (peers m)) m []) as Ho.
  pose proof (λ k, tick_loop_peers now (btree_iter peer_le (peers m)) m [] k
    (NoDup_btree_iter _ _) (λ k p, proj1 (elem_of_btree_iter _ _ _ _))) as Hp.
  cbv zeta in Ho. destruct (tick_loop _ _ _ _) as [m' acts]. destruct Ho as (-> & -> & -> & ->).
  split; [|done]. apply map_eq. intros k. specialize (Hp k). cbn [fst] in Hp.
  rewrite Hp, lookup_fmap. case_decide as Hk; [done|].
  destruct (peers m !! k) as [p|] eqn:E; [|done]. destruct Hk.
  apply list_elem_of_fmap. exists (k, p). split; [done|]. by apply elem_of_btree_iter.
Qed.

Lemma peer_ok_expire t now p : peer_ok p → peer_ok (expire t now p).
Proof.
  intros Hp. unfold expire. destruct (overdue t now p) eqn:E; [|done].
  apply peer_ok_drop_outbound; [done|]. unfold overdue in E. by repeat case_match; simplify_eq.
Qed.

Lemma on_tick_inv m now : ping_inv m → ping_inv (on_tick m now).1.
Proof.
  intros Hi. pose proof (on_tick_spec m now) as Hs. cbv zeta in Hs.
  destruct (on_tick m now) as [m' acts]. destruct Hs as (Hp & _). simpl. unfold ping_inv. rewrite Hp.
  intros k p' (p & <- & Hl)%lookup_fmap_Some. apply peer_ok_expire. exact (Hi _ _ Hl).
Qed.

(** ** Runs *)

(** States the application can produce: inputs and polls in any order. *)
Inductive ping_reach (cfg : PingConfig) : PingProtocol → Prop :=
  | reach_new : ping_reach cfg (ping_new cfg)
  | reach_input m i : ping_reach cfg m → ping_reach cfg (ping_handle_input m i).1
  | reach_poll m : ping_reach cfg m → ping_reach cfg (ping_poll_output m).2.

Lemma ping_handle_input_inv m i :
  ping_inv m → ping_inv (ping_handle_input m i).1 ∧ (ping_handle_input m i).2 ≠ Panic.
Proof.
  intros Hi. destruct i as [p s|p s|p d t|p|p s d t|p s|p s|p|o n|t]; cbn [ping_handle_input].
  - split; [by apply register_outbound_inv|]. unfold register_outbound_stream.
    by repeat (case_match || case_decide).
  - pose proof (register_inbound_inv m p s Hi). by destruct (register_inbound_stream m p s).
  - pose proof (send_ping_inv m p d t Hi) as Hs.
    destruct (send_ping m p d t) as [m' [a|e|]] eqn:E; simpl in *; [done..|].
    unfold send_ping in E. by repeat (case_match || case_decide).
  - destruct (close_outbound_stream_write m p) eqn:E; [done..|].
    unfold close_outbound_stream_write in E.
    destruct (peers m !! p) as [st|]; [|done]. cbn [ok_or mbind res_bind] in E.
    destruct (outbound_stream st); [|done]. cbn [ok_or mbind res_bind] in E. by case_match.
  - destruct (on_stream_data_ok m p s d t Hi) as (m' & acts & -> & ?). done.
  - pose proof (on_stream_remote_write_closed_inv m p s Hi).
    by destruct (on_stream_remote_write_closed m p s).
  - split; [by apply on_stream_closed_inv|done].
  - split; [by apply map_Forall_delete|done].
  - split; [by apply migrate_peer_inv|done].
  - pose proof (on_tick_inv m t Hi). by destruct (on_tick m t).
Qed.

Lemma ping_reach_inv cfg m : ping_reach cfg m → ping_inv m.
Proof.
  induction 1 as [|m i _ IH|m _ IH].
  - intros k p. simpl. by rewrite lookup_empty.
  - by apply ping_handle_input_inv.
  - unfold ping_poll_output. by repeat case_match.
Qed.

(** Data arriving on one stream in pieces, each with its arrival time. *)
Fixpoint feed_stream (m : PingProtocol) (peer_id : PeerId) (stream_id : StreamId)
    (frags : list (list byte * Z)) : res Empty_set (PingProtocol * list PingAction) :=
  match frags with
  | [] => Ok (m, [])
  | (data, now_ms) :: frags =>
      '(m, acts) ← on_stream_data m peer_id stream_id data now_ms;
      '(m, acts') ← feed_stream m peer_id stream_id frags;
      Ok (m, acts ++ acts')
  end.

Lemma put_peer_twice m pid p p' : put_peer (put_peer m pid p) pid p' = put_peer m pid p'.
Proof. unfold put_peer, set_peers. simpl. by rewrite insert_insert_eq. Qed.

Lemma lookup_put_peer m pid p : peers (put_peer m pid p) !! pid = Some p.
Proof. apply lookup_insert_eq. Qed.

(** Pieces that end in exactly one payload act like the payload in one piece. *)
Lemma feed_stream_payload m pid s p frags d now :
  peers m !! pid = Some p → is_known p s = true → d ≠ [] →
  length (default [] (recv_bufs p !! s) ++ concat frags.*1 ++ d) = PING_PAYLOAD_LEN →
  feed_stream m pid s (frags ++ [(d, now)]) =
    process_complete_payload (put_peer m pid (set_bufs p (delete s (recv_bufs p)))) pid s
      (default [] (recv_bufs p !! s) ++ concat frags.*1 ++ d) now.
Proof.
  intros Hp Hk Hd. revert m p Hp Hk.
  induction frags as [|[d1 t1] frags IH]; intros m p Hp Hk Hlen; simpl feed_stream;
    rewrite on_stream_data_eq, Hp, Hk; cbv zeta; cbn [concat fmap list_fmap fst] in *.
  - rewrite app_nil_l in *. rewrite !decide_False by lia.
    destruct (process_complete_payload _ _ _ _ _) as [[m' acts]| |]; simpl; [|done..].
    by rewrite app_nil_r.
  - assert (0 < length d)%nat by (destruct d; [done|simpl; lia]).
    rewrite !length_app in Hlen. rewrite decide_False, decide_True by (rewrite length_app; lia).
    cbn [mbind res_bind]. rewrite (IH _ (set_bufs p
      (<[s := default [] (recv_bufs p !! s) ++ d1]> (recv_bufs p)))).
    + cbn [recv_bufs set_bufs]. rewrite put_peer_twice, delete_insert_eq, lookup_insert_eq.
      cbn [default from_option id]. unfold id. rewrite <- !app_assoc.
      change (set_bufs (set_bufs p ?b) ?c) with (set_bufs p c).
      by destruct (process_complete_payload _ _ _ _ _) as [[m' acts]| |].
    + simpl. apply lookup_insert_eq.
    + done.
    + cbn [recv_bufs set_bufs]. rewrite lookup_insert_eq. cbn [default from_option].
      unfold id in *. rewrite !length_app. lia.
Qed.

(** ** Properties *)

(** C34. Invariant: in every state inputs and polls can produce, no peer has more
    than two inbound streams, a ping is in flight only on a registered outbound
    stream and has 32 bytes, and every receive buffer belongs to a registered
    stream and holds fewer than 32 bytes; and no input makes the machine panic. *)
Theorem ping_invariant cfg m :
  ping_reach cfg m →
  (∀ k p, peers m !! k = Some p →
     (size (inbound_streams p) <= 2)%nat ∧
     (∀ pp, pending_ping p = Some pp →
        is_Some (outbound_stream p) ∧ length (payload pp) = PING_PAYLOAD_LEN) ∧
     (∀ s b, recv_bufs p !! s = Some b → (length b < PING_PAYLOAD_LEN)%nat ∧
        (outbound_stream p = Some s ∨ s ∈ inbound_streams p))) ∧
  (∀ i, (ping_handle_input m i).2 ≠ Panic).
Proof.
  intros Hi%ping_reach_inv. split; [|intros i; by apply ping_handle_input_inv].
  intros k p Hp. destruct (Hi k p Hp) as [H1 H2 H3]. split_and!; [done..|].
  intros s b Hb. rewrite <- is_known_true. by apply H3.
Qed.

(** C20. A ping end to end, whatever the fragmentation: when [a] pings over an idle
    outbound stream, a peer [b] that has accepted the stream answers with exactly
    the payload, and when [a] has received that answer it reports the time between
    sending and the last piece of the answer, is ready for the next ping, and
    neither side has touched anything else. *)
Theorem ping_end_to_end a b pa pb sta stb sa sb data t0 frags1 d1 t1 frags2 d2 t2 :
  length data = PING_PAYLOAD_LEN →
  peers a !! pb = Some sta → outbound_stream sta = Some sa →
  pending_ping sta = None → recv_bufs sta !! sa = None →
  peers b !! pa = Some stb → sb ∈ inbound_streams stb →
  outbound_stream stb ≠ Some sb → recv_bufs stb !! sb = None →
  d1 ≠ [] → concat frags1.*1 ++ d1 = data →
  d2 ≠ [] → concat frags2.*1 ++ d2 = data →
  ∃ a1 a2, send_ping a pb data t0 = (a1, Ok (Send pb sa data)) ∧
    feed_stream b pa sb (frags1 ++ [(d1, t1)]) = Ok (b, [Send pa sb data]) ∧
    feed_stream a1 pb sa (frags2 ++ [(d2, t2)]) = Ok (a2, []) ∧
    a2 = push_event a (RttMeasured pb sa (saturating_sub t2 t0)).
Proof.
  intros Hlen Ha Hao Hap Har Hb Hbi Hbo Hbr Hd1 H1 Hd2 H2. unfold send_ping.
  rewrite decide_False, Ha, Hao, Hap by lia.
  eexists _, _. split; [reflexivity|]. split_and!; [| |reflexivity].
  - rewrite (feed_stream_payload _ _ _ stb);
      [|done|apply is_known_true; by right|done|by rewrite Hbr, app_nil_l, H1].
    rewrite Hbr, H1. unfold process_complete_payload. rewrite delete_id by done.
    assert (put_peer b pa (set_bufs stb (recv_bufs stb)) = b) as ->.
    { unfold put_peer, set_peers. destruct stb. simpl. rewrite insert_id by done. by destruct b. }
    rewrite Hb. cbn [expect mbind res_bind]. by rewrite decide_False, decide_True.
  - rewrite (feed_stream_payload _ _ _ (set_pending sta (Some {| payload := data; sent_at_ms := t0 |})));
      [|apply lookup_put_peer|apply is_known_true; by left|done|].
    2: { cbn [recv_bufs set_pending]. by rewrite Har, app_nil_l, H2. }
    cbn [recv_bufs set_pending]. rewrite Har, H2. unfold process_complete_payload.
    rewrite put_peer_twice, lookup_put_peer. cbn [expect mbind res_bind outbound_stream set_bufs set_pending].
    rewrite decide_True by done. cbn [pending_ping set_bufs set_pending payload sent_at_ms].
    rewrite decide_False by naive_solver. rewrite delete_id, put_peer_twice by done.
    do 2 f_equal. unfold put_peer, set_peers, push_event. simpl. f_equal.
    apply insert_id. rewrite Ha. f_equal. destruct sta. simpl in *. by subst.
Qed.

(** Timeouts: a tick closes exactly the outbound streams whose ping has been in
    flight for longer than the configured timeout, in peer order: each gives one
    reset and the events [Timeout] and [OutboundStreamClosed]; every other peer is
    untouched, and no overdue ping is left. *)
Theorem ping_tick_exact m now :
  let t := request_timeout_ms (config m) in
  let due := omap (overdue_entry t now) (btree_iter peer_le (peers m)) in
  let '(m', acts) := on_tick m now in
  peers m' = expire t now <$> peers m ∧
  acts = (λ ks, ResetStream ks.1 ks.2) <$> due ∧
  pending_events m' = pending_events m ++ (due ≫= timeout_events t) ∧
  map_Forall (λ _ p, overdue t now p = None) (peers m').
Proof.
  pose proof (on_tick_spec m now) as Hs. cbv zeta in *.
  destruct (on_tick m now) as [m' acts]. destruct Hs as (Hp & _ & _ & -> & ->).
  split_and!; [done..|]. rewrite Hp. intros k p' (p & <- & _)%lookup_fmap_Some.
  unfold expire. destruct (overdue _ now p) eqn:E; [|done]. done.
Qed.

(** Migration: moving a peer to its verified identity moves its whole state,
    leaves no state and no buffered event under the old id, and changes nothing
    about third peers. *)
Lemma ping_migrate m old new :
  old ≠ new →
  let m' := migrate_peer m old new in
  peers m' !! old = None ∧
  peers m' !! new = match peers m !! old with Some p => Some p | None => peers m !! new end ∧
  (∀ k, k ≠ old → k ≠ new → peers m' !! k = peers m !! k) ∧
  length (pending_events m') = length (pending_events m) ∧
  (∀ e, e ∈ pending_events m' → rekey_event old new e = e).
Proof.
  intros Hne. unfold migrate_peer. rewrite decide_False by done. cbv zeta.
  split_and!.
  - destruct (peers m !! old) eqn:E; simpl; [|done].
    by rewrite lookup_insert_ne, lookup_delete_eq by done.
  - destruct (peers m !! old) eqn:E; simpl; [|done]. by rewrite lookup_insert_eq.
  - intros k H1 H2. destruct (peers m !! old) eqn:E; simpl; [|done].
    by rewrite lookup_insert_ne, lookup_delete_ne by done.
  - simpl. rewrite length_fmap. by destruct (peers m !! old).
  - simpl. intros e (e0 & -> & _)%list_elem_of_fmap.
    destruct e0; simpl; f_equal; unfold rekey; repeat case_decide; congruence.
Qed.

End ping.

(** ** Witnesses *)

(** Peer ids are integers here. *)
Definition ping_demo (reqs : list (PingInput (PeerId:=Z))) : PingProtocol (PeerId:=Z) :=
  fold_left (λ m i, (ping_handle_input Z.le m i).1) reqs (ping_new (PeerId:=Z) PingConfig_default).

Lemma ping_invariant_witness :
  ping_reach Z.le PingConfig_default (ping_demo [RegisterOutboundStream 7 4]) ∧
  (ping_handle_input Z.le (ping_demo [RegisterOutboundStream 7 4])
     (SendPing 7 (repeat x41 32) 0)).2 ≠ Panic.
Proof.
  assert (ping_reach Z.le PingConfig_default (ping_demo [RegisterOutboundStream 7 4])) as Hr
    by apply (reach_input Z.le _ _ (RegisterOutboundStream 7 4)), reach_new.
  split; [exact Hr|]. exact (proj2 (ping_invariant Z.le _ _ Hr) _).
Defined.

Lemma ping_end_to_end_witness :
  let a := ping_demo [RegisterOutboundStream 7 4] in
  let b := ping_demo [RegisterInboundStream 3 9] in
  ∃ a1 a2, send_ping a 7 (repeat x41 32) 100 = (a1, Ok (Send 7 4 (repeat x41 32))) ∧
    feed_stream b 3 9 ([(repeat x41 20, 0)] ++ [(repeat x41 12, 0)])
      = Ok (b, [Send 3 9 (repeat x41 32)]) ∧
    feed_stream a1 7 4 ([(repeat x41 1, 130)] ++ [(repeat x41 31, 142)]) = Ok (a2, []) ∧
    a2 = push_event a (RttMeasured 7 4 42).
Proof.
  intros a b.
  apply (ping_end_to_end a b 3 7
    {| outbound_stream := Some 4; inbound_streams := ∅; pending_ping := None; recv_bufs := ∅ |}
    {| outbound_stream := None; inbound_streams := {[9]}; pending_ping := None; recv_bufs := ∅ |}
    4 9 (repeat x41 32) 100 [(repeat x41 20, 0)] (repeat x41 12) 0
    [(repeat x41 1, 130)] (repeat x41 31) 142); try done.
  all: vm_compute; reflexivity.
Defined.

Lemma ping_migrate_witness :
  peers (migrate_peer (ping_demo [RegisterOutboundStream 7 4]) 7 8) !! 7 = None.
Proof. apply (ping_migrate (ping_demo [RegisterOutboundStream 7 4]) 7 8). lia. Defined.
