(* ===== verification/Protobuf.v ===== *)
(** * Protobuf fields and length-prefixed frames

    The message modules of identify, relay, DCUtR and AutoNAT each carry the same
    small protobuf reader and writer: [read_tag], [read_len_delimited],
    [read_varint_value], [skip_unknown_field], [encode_varint_field],
    [encode_bytes_field], and a varint-length-prefixed frame codec.  They differ in
    the error type only, so they are defined once, over the class [ProtoError] of
    error types; the definitions follow [crates/relay/src/message.rs], and every
    message file instantiates them at its own error type.

    A decoder is a loop that reads a tag and dispatches on field number and wire
    type.  [while_tag] is that loop; a field is at least one byte, so
    [S (length input)] iterations are enough ([while_tag_no_panic]: running out of
    fuel would be a [Panic]).  [consumes] describes what one encoded field does to
    the message under construction, and [while_tag_fields] composes fields: the
    round-trip theorems of the four message modules are instances of it. *)
From S2P Require Import Prelude Varint.
From Stdlib Require Import ZArith Strings.Byte.
From stdpp Require Import base numbers list.

#[local] Open Scope Z_scope.

Definition WIRE_VARINT : Z := 0.
Definition WIRE_I64 : Z := 1.
Definition WIRE_LEN : Z := 2.
Definition WIRE_I32 : Z := 5.

(** What the four error enums have in common. *)
Class ProtoError (E : Type) := {
  varint_error : VarintError → E;
  field_overflow (offset : nat) (length : Z) (remaining : nat) : E;
  unsupported_wire_type (wire_type : Z) (offset : nat) : E;
}.
#[global] Hint Mode ProtoError ! : typeclass_instances.

(** ** Writing *)

Definition tag_byte (field wire_type : Z) : byte :=
  Z_byte (Z.lor (Z.shiftl field 3) wire_type).

Definition encode_varint_field (out : list byte) (tag : byte) (value : Z) : list byte :=
  write_uvarint value (out ++ [tag]).

Definition encode_bytes_field (out : list byte) (tag : byte) (data : list byte) : list byte :=
  write_uvarint (Z.of_nat (length data)) (out ++ [tag]) ++ data.

(** ** Reading *)

(** [&input[idx..]]. *)
Definition slice_from {E A} (l : list A) (idx : nat) : res E (list A) :=
  if decide (idx <= length l)%nat then Ok (drop idx l) else Panic.

Section reader.
Context {E : Type} `{!ProtoError E}.

Definition read_varint_value (input : list byte) (idx : nat) : res E (Z * nat) :=
  rest ← slice_from input idx;
  '(value, used) ← map_err varint_error (read_uvarint rest);
  Ok (value, (idx + used)%nat).

Definition read_tag (input : list byte) (idx : nat) : res E (option (Z * Z) * nat) :=
  if decide (length input <= idx)%nat then Ok (None, idx)
  else
    rest ← slice_from input idx;
    '(tag_value, used) ← map_err varint_error (read_uvarint rest);
    let idx := (idx + used)%nat in
    let wire_type := Z.land tag_value 7 in
    let field_number := Z.shiftr tag_value 3 in
    Ok (Some (field_number, wire_type), idx).

Definition read_len_delimited (input : list byte) (idx : nat) : res E (list byte * nat) :=
  rest ← slice_from input idx;
  '(len, used) ← map_err varint_error (read_uvarint rest);
  let idx := (idx + used)%nat in
  let remaining := (length input - idx)%nat in
  if Z.of_nat remaining <? len then Err (field_overflow idx len remaining)
  else
    value ← slice input (Z.of_nat idx) (Z.of_nat idx + len);
    Ok (value, (idx + Z.to_nat len)%nat).

Definition skip_fixed (input : list byte) (idx n : nat) : res E nat :=
  if decide (length input < idx + n)%nat
  then Err (field_overflow idx (Z.of_nat n) (length input - idx)%nat)
  else Ok (idx + n)%nat.

Definition skip_unknown_field (input : list byte) (idx : nat) (wire_type : Z) : res E nat :=
  if decide (wire_type = WIRE_VARINT) then
    rest ← slice_from input idx;
    '(_, used) ← map_err varint_error (read_uvarint rest);
    Ok (idx + used)%nat
  else if decide (wire_type = WIRE_LEN) then
    rest ← slice_from input idx;
    '(len, used) ← map_err varint_error (read_uvarint rest);
    let idx := (idx + used)%nat in
    let remaining := (length input - idx)%nat in
    if Z.of_nat remaining <? len then Err (field_overflow idx len remaining)
    else Ok (idx + Z.to_nat len)%nat
  else if decide (wire_type = WIRE_I32) then skip_fixed input idx 4
  else if decide (wire_type = WIRE_I64) then skip_fixed input idx 8
  else Err (unsupported_wire_type wire_type idx).

(** [_ => skip_unknown_field(input, &mut idx, wire_type)?] *)
Definition skip {M} (input : list byte) (wire_type : Z) (msg : M) (idx : nat) : res E (M * nat) :=
  idx ← skip_unknown_field input idx wire_type; Ok (msg, idx).

(** [while let Some((field, wire_type)) = read_tag(input, &mut idx)? { .. }] *)
Fixpoint while_tag {M} (next : nat → res E (option (Z * Z) * nat))
    (step : Z → Z → M → nat → res E (M * nat)) (fuel : nat) (msg : M) (idx : nat) : res E M :=
  match fuel with
  | O => Panic
  | S fuel =>
      '(tag, idx) ← next idx;
      match tag with
      | None => Ok msg
      | Some (field, wire_type) =>
          '(msg, idx) ← step field wire_type msg idx;
          while_tag next step fuel msg idx
      end
  end.

(** ** Frames *)

Inductive FrameDecode : Type :=
  | Complete (payload : list byte) (consumed : Z)
  | Incomplete
  | FrameError (e : VarintError).

Definition decode_frame (overflow_checks : bool) (input : list byte) : res Empty_set FrameDecode :=
  match input with
  | [] => Ok Incomplete
  | _ =>
      match read_uvarint input with
      | Err BufferTooShort => Ok Incomplete
      | Err e => Ok (FrameError e)
      | Panic => Panic
      | Ok (length_, used) =>
          total ← usize_add overflow_checks (Z.of_nat used) length_;
          if Z.of_nat (length input) <? total then Ok Incomplete
          else
            payload ← slice input (Z.of_nat used) total;
            Ok (Complete payload total)
      end
  end.

Definition encode_frame (payload : list byte) : list byte :=
  write_uvarint (Z.of_nat (length payload)) [] ++ payload.

(** ** Tags *)

Lemma tag_value_split n wt : 0 <= wt < 8 →
  Z.land (n * 8 + wt) 7 = wt ∧ Z.shiftr (n * 8 + wt) 3 = n.
Proof.
  intros Hw. split.
  - change 7 with (Z.ones 3). rewrite Z.land_ones by done. change (2 ^ 3) with 8.
    rewrite Z.add_comm, Z.mod_add by done. by apply Z.mod_small.
  - rewrite Z.shiftr_div_pow2 by done. change (2 ^ 3) with 8.
    rewrite Z.add_comm, Z.div_add by done. rewrite Z.div_small by done. lia.
Qed.

Lemma write_uvarint_small v : 0 <= v < 128 → write_uvarint v [] = [Z_byte v].
Proof.
  intros Hv. unfold write_uvarint. cbn [write_uvarint_loop app].
  rewrite land_127, shiftr_7, Z.div_small, Z.mod_small by done. done.
Qed.

(** The single-byte tag is the varint of the tag value. *)
Lemma tag_byte_varint n wt :
  0 <= n < 16 → 0 <= wt < 8 → [tag_byte n wt] = write_uvarint (n * 8 + wt) [].
Proof.
  intros Hn Hw. rewrite write_uvarint_small by lia. unfold tag_byte. do 2 f_equal.
  rewrite Z.lor_comm, lor_shiftl_disjoint by lia. lia.
Qed.

(** ** Positions

    A reader at position [length pre] of [pre ++ x] sees [x]. *)

Lemma slice_from_app {F A} (pre x : list A) : slice_from (E:=F) (pre ++ x) (length pre) = Ok x.
Proof.
  unfold slice_from. rewrite decide_True by (rewrite length_app; lia). by rewrite drop_app_length.
Qed.

Lemma read_varint_value_app pre v post :
  is_u64 v →
  read_varint_value (pre ++ write_uvarint v [] ++ post) (length pre)
    = Ok (v, length (pre ++ write_uvarint v [])).
Proof.
  intros Hv. unfold read_varint_value. rewrite slice_from_app. cbn [mbind res_bind].
  rewrite read_uvarint_write by done. cbn [map_err mbind res_bind].
  by rewrite length_app, length_write_uvarint.
Qed.

Lemma read_len_delimited_app pre data post :
  is_u64 (Z.of_nat (length data)) →
  read_len_delimited (pre ++ (write_uvarint (Z.of_nat (length data)) [] ++ data) ++ post) (length pre)
    = Ok (data, length (pre ++ write_uvarint (Z.of_nat (length data)) [] ++ data)).
Proof.
  intros Hv. unfold read_len_delimited. rewrite slice_from_app. cbn [mbind res_bind].
  rewrite <- app_assoc, read_uvarint_write by done. cbn [map_err mbind res_bind].
  pose proof (length_uvarint (Z.of_nat (length data)) Hv) as Hl.
  rewrite <- Hl. set (w := write_uvarint (Z.of_nat (length data)) []) in *.
  rewrite (proj2 (Z.ltb_ge _ _)) by (rewrite !length_app; lia).
  replace (pre ++ w ++ data ++ post) with ((pre ++ w) ++ data ++ post) by by rewrite <- app_assoc.
  rewrite <- length_app, slice_app. cbn [mbind res_bind].
  rewrite !length_app. do 2 f_equal. lia.
Qed.

Lemma read_tag_app pre n wt post :
  0 <= wt < 8 → is_u64 (n * 8 + wt) →
  read_tag (pre ++ write_uvarint (n * 8 + wt) [] ++ post) (length pre)
    = Ok (Some (n, wt), length (pre ++ write_uvarint (n * 8 + wt) [])).
Proof.
  intros Hw Hv. unfold read_tag. pose proof (length_uvarint _ Hv) as Hl.
  pose proof (uvarint_len_pos (n * 8 + wt)).
  rewrite decide_False by (rewrite !length_app; lia).
  rewrite slice_from_app. cbn [mbind res_bind].
  rewrite read_uvarint_write by done. cbn [map_err mbind res_bind]. cbv zeta.
  destruct (tag_value_split n wt Hw) as [-> ->]. by rewrite length_app, Hl.
Qed.

Lemma read_tag_end input : read_tag input (length input) = Ok (None, length input).
Proof. unfold read_tag. by rewrite decide_True. Qed.

(** ** Positions stay inside the input, and nothing unwinds *)

Definition pos_ok {A} (input : list byte) (idx : nat) (r : res E (A * nat)) : Prop :=
  match r with Ok (_, idx') => (idx <= idx' <= length input)%nat | Err _ => True | Panic => False end.

Lemma read_uvarint_rest input idx :
  (idx <= length input)%nat →
  match read_uvarint (drop idx input) with
  | Ok (_, used) => (0 < used)%nat ∧ (idx + used <= length input)%nat
  | Err _ => True | Panic => False
  end.
Proof.
  intros Hi. destruct (read_uvarint (drop idx input)) as [[v used]| |] eqn:E1; [|done|].
  - apply read_uvarint_inv in E1 as (_ & -> & Hl & _). rewrite length_drop in Hl.
    pose proof (uvarint_len_pos v). lia.
  - by apply read_uvarint_no_panic in E1.
Qed.

Lemma read_varint_value_pos input idx :
  (idx <= length input)%nat → pos_ok input idx (read_varint_value input idx).
Proof.
  intros Hi. unfold read_varint_value, slice_from. rewrite decide_True by done.
  cbn [mbind res_bind]. pose proof (read_uvarint_rest input idx Hi).
  destruct (read_uvarint (drop idx input)) as [[v used]| |]; simpl; lia || done.
Qed.

Lemma read_len_delimited_pos input idx :
  (idx <= length input)%nat → pos_ok input idx (read_len_delimited input idx).
Proof.
  intros Hi. unfold read_len_delimited, slice_from. rewrite decide_True by done.
  cbn [mbind res_bind]. pose proof (read_uvarint_rest input idx Hi) as Hr.
  destruct (read_uvarint (drop idx input)) as [[v used]| |] eqn:Er; simpl; [|done..].
  apply read_uvarint_inv in Er as ([Hv _] & _).
  destruct (Z.ltb_spec (Z.of_nat (length input - (idx + used))) v); simpl; [done|].
  unfold slice. rewrite (proj2 (Z.leb_le _ _)), (proj2 (Z.leb_le _ _)) by lia. simpl. lia.
Qed.

Lemma skip_unknown_field_pos input idx wt :
  (idx <= length input)%nat →
  match skip_unknown_field input idx wt with
  | Ok idx' => (idx <= idx' <= length input)%nat | Err _ => True | Panic => False
  end.
Proof.
  intros Hi. unfold skip_unknown_field, skip_fixed, slice_from.
  pose proof (read_uvarint_rest input idx Hi) as Hr. rewrite (decide_True _ _ Hi).
  cbn [mbind res_bind].
  destruct (read_uvarint (drop idx input)) as [[v used]| |] eqn:Er; [|simpl..];
    repeat case_decide; simpl; try done; try lia.
  apply read_uvarint_inv in Er as ([Hv _] & _).
  destruct (Z.ltb_spec (Z.of_nat (length input - (idx + used))) v); simpl; [done|lia].
Qed.

(** A tag is at least one byte. *)
Definition tag_ok (input : list byte) (next : nat → res E (option (Z * Z) * nat)) : Prop :=
  ∀ idx, (idx <= length input)%nat →
    match next idx with
    | Ok (Some _, idx') => (idx < idx' <= length input)%nat
    | Panic => False
    | _ => True
    end.

Lemma read_tag_ok input : tag_ok input (read_tag input).
Proof.
  intros idx Hi. unfold read_tag, slice_from. case_decide; [done|].
  rewrite decide_True by done. cbn [mbind res_bind].
  pose proof (read_uvarint_rest input idx Hi).
  destruct (read_uvarint (drop idx input)) as [[v used]| |]; simpl; lia || done.
Qed.

Definition step_ok {M} (input : list byte) (step : Z → Z → M → nat → res E (M * nat)) : Prop :=
  ∀ field wt msg idx, (idx <= length input)%nat → pos_ok input idx (step field wt msg idx).

(** The loop ends: the fuel is enough, whatever the input. *)
Lemma while_tag_no_panic {M} input next step fuel (msg : M) idx :
  tag_ok input next → step_ok input step → (idx <= length input)%nat →
  (length input - idx < fuel)%nat → while_tag next step fuel msg idx ≠ Panic.
Proof.
  intros Ht Hs. revert msg idx. induction fuel as [|fuel IH]; intros msg idx Hi Hf; [lia|].
  cbn [while_tag]. specialize (Ht idx Hi).
  destruct (next idx) as [[[[field wt]|] idx1]| |]; [|done..]. cbn [mbind res_bind].
  specialize (Hs field wt msg idx1 ltac:(lia)).
  destruct (step field wt msg idx1) as [[msg' idx2]| |]; cbn [mbind res_bind];
    [apply IH; simpl in Hs; lia|done|by destruct Hs].
Qed.

Lemma skip_pos {M} input wt (msg : M) idx :
  (idx <= length input)%nat → pos_ok input idx (skip input wt msg idx).
Proof.
  intros Hi. unfold skip.
  pose proof (skip_unknown_field_pos input idx wt Hi) as Hs.
  by destruct (skip_unknown_field input idx wt).
Qed.

Lemma len_pos {M} input idx (k : list byte → nat → res E (M * nat)) :
  (idx <= length input)%nat →
  (∀ v i, (idx <= i <= length input)%nat → pos_ok input idx (k v i)) →
  pos_ok input idx ('(v, i) ← read_len_delimited input idx; k v i).
Proof.
  intros Hi Hk. pose proof (read_len_delimited_pos input idx Hi) as Hl.
  destruct (read_len_delimited input idx) as [[v i]| |]; [by apply Hk|done..].
Qed.

Lemma varint_pos {M} input idx (k : Z → nat → res E (M * nat)) :
  (idx <= length input)%nat →
  (∀ v i, (idx <= i <= length input)%nat → pos_ok input idx (k v i)) →
  pos_ok input idx ('(v, i) ← read_varint_value input idx; k v i).
Proof.
  intros Hi Hk. pose proof (read_varint_value_pos input idx Hi) as Hl.
  destruct (read_varint_value input idx) as [[v i]| |]; [by apply Hk|done..].
Qed.

Lemma nested_pos {A M} input idx i (r : res E A) (f : A → M) :
  r ≠ Panic → (idx <= i <= length input)%nat → pos_ok input idx (a ← r; Ok (f a, i)).
Proof. intros Hr Hi. by destruct r. Qed.

Lemma while_read_total {M} input step (msg : M) :
  step_ok input step → while_tag (read_tag input) step (S (length input)) msg 0 ≠ Panic.
Proof. intros Hs. apply (while_tag_no_panic input); [apply read_tag_ok|done|lia..]. Qed.

(** ** Field by field *)

(** The bytes [x] are one field; reading it applies [f] to the message and ends just
    behind it, wherever in the input it stands. *)
Definition consumes {M} (next : list byte → nat → res E (option (Z * Z) * nat))
    (step : list byte → Z → Z → M → nat → res E (M * nat)) (x : list byte) (f : M → M) : Prop :=
  x ≠ [] ∧ ∀ pre post msg, ∃ field wt idx,
    next (pre ++ x ++ post) (length pre) = Ok (Some (field, wt), idx) ∧
    step (pre ++ x ++ post) field wt msg idx = Ok (f msg, length (pre ++ x)).

Lemma while_tag_fields_at {M} next step (xs : list (list byte)) (fs : list (M → M)) pre fuel msg :
  (∀ input, next input (length input) = Ok (None, length input)) →
  Forall2 (consumes next step) xs fs → (length xs < fuel)%nat →
  while_tag (next (pre ++ concat xs)) (step (pre ++ concat xs)) fuel msg (length pre)
    = Ok (foldl (λ m f, f m) msg fs).
Proof.
  intros Hend Hall. revert pre fuel msg.
  induction Hall as [|x f xs fs [Hne Hx] Hall IH]; intros pre fuel msg Hf;
    (destruct fuel as [|fuel]; [lia|]); cbn [while_tag concat foldl length] in *.
  - rewrite app_nil_r, Hend. done.
  - destruct (Hx pre (concat xs) msg) as (field & wt & idx & -> & Hs). cbn [mbind res_bind].
    rewrite Hs. cbn [mbind res_bind]. rewrite app_assoc. apply IH. lia.
Qed.

Lemma while_tag_fields {M} next step (xs : list (list byte)) (fs : list (M → M)) msg :
  (∀ input, next input (length input) = Ok (None, length input)) →
  Forall2 (consumes next step) xs fs →
  while_tag (next (concat xs)) (step (concat xs)) (S (length (concat xs))) msg 0
    = Ok (foldl (λ m f, f m) msg fs).
Proof.
  intros Hend Hall. apply (while_tag_fields_at next step xs fs []); [done..|].
  enough (length xs <= length (concat xs))%nat by lia. apply length_concat_ne.
  eapply Forall2_Forall_l; [exact Hall|]. apply Forall_true. intros f x Hx. apply Hx.
Qed.

(** [next] reads the tag of field [n], wire type [wt], wherever it stands. *)
Definition reads_tag (next : list byte → nat → res E (option (Z * Z) * nat)) (n wt : Z) : Prop :=
  ∀ pre post, next (pre ++ write_uvarint (n * 8 + wt) [] ++ post) (length pre)
    = Ok (Some (n, wt), length (pre ++ write_uvarint (n * 8 + wt) [])).

Lemma read_tag_reads n wt : 0 <= wt < 8 → is_u64 (n * 8 + wt) → reads_tag read_tag n wt.
Proof. intros Hw Hv pre post. by apply read_tag_app. Qed.

Lemma consumes_len_at {M} next step n data (g : list byte → M → M) :
  reads_tag next n WIRE_LEN → is_u64 (n * 8 + WIRE_LEN) → is_u64 (Z.of_nat (length data)) →
  (∀ input msg idx v idx', read_len_delimited input idx = Ok (v, idx') → v = data →
    step input n WIRE_LEN msg idx = Ok (g v msg, idx')) →
  consumes next step
    (write_uvarint (n * 8 + WIRE_LEN) [] ++ write_uvarint (Z.of_nat (length data)) [] ++ data)
    (g data).
Proof.
  intros Hn Ht Hd Hs. split.
  { intros [E1 _]%app_eq_nil. pose proof (length_uvarint _ Ht).
    pose proof (uvarint_len_pos (n * 8 + WIRE_LEN)). rewrite E1 in *. cbn [length] in *. lia. }
  intros pre post msg. exists n, WIRE_LEN. eexists. split.
  - rewrite <- !app_assoc. by apply Hn.
  - set (t := write_uvarint (n * 8 + WIRE_LEN) []).
    replace (pre ++ (t ++ write_uvarint (Z.of_nat (length data)) [] ++ data) ++ post)
      with ((pre ++ t) ++ (write_uvarint (Z.of_nat (length data)) [] ++ data) ++ post)
      by by rewrite <- !app_assoc.
    rewrite (Hs _ _ _ _ _ (read_len_delimited_app (pre ++ t) data post Hd) eq_refl).
    do 2 f_equal. by rewrite <- !app_assoc.
Qed.

Lemma consumes_varint_at {M} next step n v (g : Z → M → M) :
  reads_tag next n WIRE_VARINT → is_u64 (n * 8 + WIRE_VARINT) → is_u64 v →
  (∀ input msg idx w idx', read_varint_value input idx = Ok (w, idx') → w = v →
    step input n WIRE_VARINT msg idx = Ok (g w msg, idx')) →
  consumes next step (write_uvarint (n * 8 + WIRE_VARINT) [] ++ write_uvarint v []) (g v).
Proof.
  intros Hn Ht Hv Hs. split.
  { intros [E1 _]%app_eq_nil. pose proof (length_uvarint _ Ht).
    pose proof (uvarint_len_pos (n * 8 + WIRE_VARINT)). rewrite E1 in *. cbn [length] in *. lia. }
  intros pre post msg. exists n, WIRE_VARINT. eexists. split.
  - rewrite <- !app_assoc. by apply Hn.
  - set (t := write_uvarint (n * 8 + WIRE_VARINT) []). rewrite <- !app_assoc.
    rewrite (app_assoc pre t).
    rewrite (Hs _ _ _ _ _ (read_varint_value_app (pre ++ t) v post Hv) eq_refl).
    by rewrite <- !app_assoc.
Qed.

Lemma consumes_len {M} step n data (g : list byte → M → M) :
  0 <= n → is_u64 (n * 8 + WIRE_LEN) → is_u64 (Z.of_nat (length data)) →
  (∀ input msg idx v idx', read_len_delimited input idx = Ok (v, idx') → v = data →
    step input n WIRE_LEN msg idx = Ok (g v msg, idx')) →
  consumes read_tag step
    (write_uvarint (n * 8 + WIRE_LEN) [] ++ write_uvarint (Z.of_nat (length data)) [] ++ data)
    (g data).
Proof. intros _ Ht. by apply consumes_len_at; [apply read_tag_reads|]. Qed.

Lemma consumes_varint {M} step n v (g : Z → M → M) :
  0 <= n → is_u64 (n * 8 + WIRE_VARINT) → is_u64 v →
  (∀ input msg idx w idx', read_varint_value input idx = Ok (w, idx') → w = v →
    step input n WIRE_VARINT msg idx = Ok (g w msg, idx')) →
  consumes read_tag step (write_uvarint (n * 8 + WIRE_VARINT) [] ++ write_uvarint v []) (g v).
Proof. intros _ Ht. by apply consumes_varint_at; [apply read_tag_reads|]. Qed.

End reader.

(** Helpers for encoders: a field appended to [out]. *)
Definition varint_field (n v : Z) : list byte :=
  write_uvarint (n * 8 + WIRE_VARINT) [] ++ write_uvarint v [].
Definition bytes_field (n : Z) (data : list byte) : list byte :=
  write_uvarint (n * 8 + WIRE_LEN) [] ++ write_uvarint (Z.of_nat (length data)) [] ++ data.

Lemma encode_varint_field_eq out n v :
  0 <= n < 16 → encode_varint_field out (tag_byte n WIRE_VARINT) v = out ++ varint_field n v.
Proof.
  intros Hn. unfold encode_varint_field, varint_field. rewrite write_uvarint_app.
  rewrite (tag_byte_varint n WIRE_VARINT) by done. by rewrite <- app_assoc.
Qed.

Lemma encode_bytes_field_eq out n data :
  0 <= n < 16 → encode_bytes_field out (tag_byte n WIRE_LEN) data = out ++ bytes_field n data.
Proof.
  intros Hn. unfold encode_bytes_field, bytes_field. rewrite write_uvarint_app.
  rewrite (tag_byte_varint n WIRE_LEN) by done. by rewrite <- !app_assoc.
Qed.

(** [for x in xs { encode_bytes_field(&mut out, tag, f(x)) }] *)
Lemma encode_bytes_fields_eq {A} (f : A → list byte) n (xs : list A) out :
  0 <= n < 16 →
  fold_left (λ out x, encode_bytes_field out (tag_byte n WIRE_LEN) (f x)) xs out
    = out ++ concat (bytes_field n <$> (f <$> xs)).
Proof.
  intros Hn. revert out. induction xs as [|x xs IH]; intros out;
    cbn [fold_left fmap list_fmap concat]; [by rewrite app_nil_r|].
  by rewrite IH, encode_bytes_field_eq, <- app_assoc.
Qed.

(** An optional field as a list of fields. *)
Definition opt_list {A B} (f : A → B) (o : option A) : list B :=
  match o with Some a => [f a] | None => [] end.

Lemma encode_opt_field {A} (f : A → list byte) n (o : option A) out :
  0 <= n < 16 →
  match o with
  | Some a => encode_bytes_field out (tag_byte n WIRE_LEN) (f a)
  | None => out
  end = out ++ concat (opt_list (λ a, bytes_field n (f a)) o).
Proof.
  intros Hn. destruct o; cbn [opt_list concat]; rewrite app_nil_r; [|done].
  by apply encode_bytes_field_eq.
Qed.

Lemma encode_opt_varint {A} (f : A → Z) n (o : option A) out :
  0 <= n < 16 →
  match o with
  | Some a => encode_varint_field out (tag_byte n WIRE_VARINT) (f a)
  | None => out
  end = out ++ concat (opt_list (λ a, varint_field n (f a)) o).
Proof.
  intros Hn. destruct o; cbn [opt_list concat]; rewrite app_nil_r; [|done].
  by apply encode_varint_field_eq.
Qed.

(** The bytes fit the address space. *)
Definition bytes_ok (b : list byte) : Prop := is_u64 (Z.of_nat (length b)).

Lemma bytes_ok_le a b : (length a <= length b)%nat → bytes_ok b → bytes_ok a.
Proof. unfold bytes_ok. u64_tac. Qed.

Lemma length_encode_bytes_field out tag data :
  (length out + length data <= length (encode_bytes_field out tag data))%nat.
Proof. unfold encode_bytes_field. rewrite write_uvarint_app, !length_app. lia. Qed.

(** Decoding a message given as a list of fields with their effects. *)
Lemma while_tag_pairs_at {E} `{!ProtoError E} {M} next
    (step : list byte → Z → Z → M → nat → res E (M * nat)) (fs : list (list byte * (M → M))) msg :
  (∀ input, next input (length input) = Ok (None, length input)) →
  Forall (λ xf, consumes next step xf.1 xf.2) fs →
  while_tag (next (concat fs.*1)) (step (concat fs.*1)) (S (length (concat fs.*1))) msg 0
    = Ok (foldl (λ m f, f m) msg fs.*2).
Proof.
  intros Hend Hfs. apply while_tag_fields; [done|].
  apply Forall2_fmap, Forall_Forall2_diag. done.
Qed.

Lemma while_tag_pairs {E} `{!ProtoError E} {M} (step : list byte → Z → Z → M → nat → res E (M * nat))
    (fs : list (list byte * (M → M))) msg :
  Forall (λ xf, consumes read_tag step xf.1 xf.2) fs →
  while_tag (read_tag (concat fs.*1)) (step (concat fs.*1)) (S (length (concat fs.*1))) msg 0
    = Ok (foldl (λ m f, f m) msg fs.*2).
Proof. apply while_tag_pairs_at, read_tag_end. Qed.

Lemma fst_opt_list {A B C} (f : A → B) (g : A → C) (o : option A) :
  (opt_list (λ a, (f a, g a)) o).*1 = opt_list f o.
Proof. by destruct o. Qed.

(** Resolve the dispatch on a known field number and wire type. *)
Ltac pick_field :=
  repeat (rewrite decide_True by done || rewrite decide_False by (intros [? ?]; done)).

(** A length-delimited or varint field handled by a step function. *)
Ltac len_field step :=
  apply (consumes_len step _ _ (λ _, _)); [lia|split; vm_compute; done|assumption|];
  intros input msg idx v idx' Hr ->; unfold step; pick_field; rewrite Hr; cbn [mbind res_bind].
Ltac varint_field step :=
  apply (consumes_varint step _ _ (λ _, _)); [lia|split; vm_compute; done|assumption|];
  intros input msg idx v idx' Hr ->; unfold step; pick_field; rewrite Hr; cbn [mbind res_bind].

(** Each branch of a step is a reader followed by an update, or a skip. *)
Ltac step_total :=
  intros field wt msg idx Hi;
  repeat (case_decide; [first [apply len_pos|apply varint_pos]; [done|intros v i Hv]; cbv beta; try done|]);
  try by apply skip_pos.

#[global] Arguments tag_byte : simpl never.
#[global] Arguments encode_varint_field : simpl never.
#[global] Arguments encode_bytes_field : simpl never.
#[global] Arguments read_tag : simpl never.
#[global] Arguments read_len_delimited : simpl never.
#[global] Arguments read_varint_value : simpl never.
#[global] Arguments skip_unknown_field : simpl never.
#[global] Arguments varint_field : simpl never.
#[global] Arguments bytes_field : simpl never.
#[global] Arguments encode_frame : simpl never.

(** ** Frames: lemmas *)

Lemma length_encode_frame p :
  is_u64 (Z.of_nat (length p)) →
  length (encode_frame p) = (uvarint_len (Z.of_nat (length p)) + length p)%nat.
Proof. intros Hp. unfold encode_frame. by rewrite length_app, length_uvarint. Qed.

Lemma decode_frame_read oc input v used :
  read_uvarint input = Ok (v, used) →
  decode_frame oc input =
    total ← usize_add oc (Z.of_nat used) v;
    if Z.of_nat (length input) <? total then Ok Incomplete
    else payload ← slice input (Z.of_nat used) total; Ok (Complete payload total).
Proof. intros Hr. unfold decode_frame. rewrite Hr. by destruct input. Qed.

Lemma decode_encode_frame oc p rest :
  Z.of_nat (length p) + 10 < u64_mod →
  decode_frame oc (encode_frame p ++ rest) = Ok (Complete p (Z.of_nat (length (encode_frame p)))).
Proof.
  intros Hp. assert (is_u64 (Z.of_nat (length p))) as Hu by u64_tac.
  pose proof (uvarint_len_le _ Hu) as Hle. rewrite length_encode_frame by done.
  unfold encode_frame. rewrite <- app_assoc.
  rewrite (decode_frame_read _ _ _ _ (read_uvarint_write _ _ Hu)).
  rewrite <- (length_uvarint _ Hu) in *. set (w := write_uvarint _ _) in *.
  unfold usize_add. rewrite (proj2 (Z.ltb_lt _ _)) by lia. cbn [mbind res_bind].
  rewrite (proj2 (Z.ltb_ge _ _)) by (rewrite !length_app; lia).
  rewrite slice_app. cbn [mbind res_bind]. do 2 f_equal. lia.
Qed.

(** A frame whose end has not arrived is incomplete. *)
Lemma decode_frame_prefix oc p buf :
  Z.of_nat (length p) + 10 < u64_mod → buf `prefix_of` encode_frame p → buf ≠ encode_frame p →
  decode_frame oc buf = Ok Incomplete.
Proof.
  intros Hp [k Hk] Hne. assert (is_u64 (Z.of_nat (length p))) as Hu by u64_tac.
  pose proof (uvarint_len_le _ Hu) as Hle. pose proof (length_encode_frame p Hu) as Hl.
  assert (0 < length k)%nat as Hk0.
  { destruct k; [|simpl; lia]. rewrite app_nil_r in Hk. congruence. }
  assert (length buf < length (encode_frame p))%nat as Hlt by (rewrite Hk, length_app; lia).
  destruct (read_uvarint buf) as [[v used]|e|] eqn:Hr.
  - pose proof (read_uvarint_app _ k _ Hr ltac:(done)) as Hr'. rewrite <- Hk in Hr'.
    unfold encode_frame in Hr'. rewrite read_uvarint_write in Hr' by done. simplify_eq.
    rewrite (decode_frame_read _ _ _ _ Hr). unfold usize_add.
    rewrite (proj2 (Z.ltb_lt _ _)) by lia. cbn [mbind res_bind].
    by rewrite (proj2 (Z.ltb_lt _ _)) by lia.
  - destruct (decide (e = BufferTooShort)) as [->|Hne'].
    + unfold decode_frame. rewrite Hr. by destruct buf.
    + pose proof (read_uvarint_app _ k _ Hr ltac:(congruence)) as Hr'. rewrite <- Hk in Hr'.
      unfold encode_frame in Hr'. by rewrite read_uvarint_write in Hr'.
  - by apply read_uvarint_no_panic in Hr.
Qed.

(** ** When a frame unwinds the decoder *)

(** The frame decoder unwinds exactly on declared lengths that overflow [usize]
    together with the prefix, whether or not overflow checks are compiled in: with
    them the addition unwinds, without them the sum wraps below the prefix length and
    the slice [used..total] unwinds.  Ten bytes from the remote suffice. *)
Lemma decode_frame_panic oc input :
  decode_frame oc input = Panic ↔
    ∃ v used, read_uvarint input = Ok (v, used) ∧ u64_mod <= Z.of_nat used + v.
Proof.
  destruct (read_uvarint input) as [[v used]|e|] eqn:Hr.
  - rewrite (decode_frame_read _ _ _ _ Hr).
    destruct (read_uvarint_inv _ _ _ Hr) as (Hv & Hu & Hle & _).
    pose proof (uvarint_len_le v Hv) as H10. unfold usize_add.
    destruct (Z.ltb_spec (Z.of_nat used + v) u64_mod) as [Hlt|Hge]; cbn [mbind res_bind].
    + split; [|intros (? & ? & [= <- <-] & ?); lia].
      destruct (Z.ltb_spec (Z.of_nat (length input)) (Z.of_nat used + v)); [done|].
      unfold slice. rewrite (proj2 (Z.leb_le _ _)), (proj2 (Z.leb_le _ _)) by u64_tac. done.
    + split; [intros _; eauto|intros _]. destruct oc; [done|]. cbn [mbind res_bind].
      assert (wrap_u64 (Z.of_nat used + v) = Z.of_nat used + v - u64_mod) as ->.
      { unfold wrap_u64. symmetry. apply (Z.mod_unique _ _ 1); u64_tac. }
      rewrite (proj2 (Z.ltb_ge _ _)) by u64_tac. unfold slice.
      by rewrite (proj2 (Z.leb_gt _ _)) by u64_tac.
  - split; [|by intros (? & ? & ? & _)]. unfold decode_frame. rewrite Hr. destruct input, e; done.
  - by apply read_uvarint_no_panic in Hr.
Qed.

Example frame_decode_panics oc : decode_frame oc (repeat xff 9 ++ [x01]) = Panic.
Proof. by destruct oc; vm_compute. Qed.
