(* ===== verification/Framing.v ===== *)
(** * Waiting for one framed message

    The relay, DCUtR and AutoNAT machines wait for a message in the same way: a chunk is
    appended to the receive buffer, and either the frame is still incomplete or it is
    decoded and the machine moves on with the bytes that follow it.  [MessageReader]
    states what the machine's reader does with the frame at hand, and [feed_awaited]
    that the fragmentation does not matter; each protocol instantiates both. *)
From S2P Require Import Prelude SansIo Varint Protobuf.
From Stdlib Require Import ZArith Strings.Byte.
From stdpp Require Import base numbers list.

#[local] Open Scope Z_scope.

(** Pending bytes and a pending notification count one output each. *)
Definition some_bytes (b : list byte) : nat := if decide (b = []) then 0 else 1.
Definition unsent {A} (emitted : bool) (o : option A) : nat :=
  match emitted, o with false, Some _ => 1 | _, _ => 0 end.

(** [frame] is the framed encoding of [msg] for the decoder at hand. *)
Definition framed {E M} (decode : list byte → res E M) (msg : M) (frame : list byte) : Prop :=
  ∃ p, frame = encode_frame p ∧ decode p = Ok msg ∧ Z.of_nat (length p) + 10 < u64_mod.

Lemma framed_payload {E M} (decode : list byte → res E M) msg p max :
  decode p = Ok msg → Z.of_nat (length (encode_frame p)) <= max → max + 10 < u64_mod →
  framed decode msg (encode_frame p).
Proof.
  intros Hd Hl Hm. exists p. split_and!; [done..|]. unfold encode_frame in Hl.
  rewrite length_app in Hl. lia.
Qed.

Lemma encode_frame_ne p : encode_frame p ≠ [].
Proof. done. Qed.

(** What one more chunk does to the buffer of a machine that waits for [frame]. *)
Lemma chunk_cases (buf c rest frame tail : list byte) :
  (buf ++ c) ++ rest = frame ++ tail →
  (∃ t, buf ++ c = frame ++ t ∧ tail = t ++ rest) ∨
  (∃ k, frame = (buf ++ c) ++ k ∧ k ≠ [] ∧ rest = k ++ tail).
Proof.
  intros [(t & ? & ?)|(k & ? & ?)]%app_eq_inv; [by left; eauto|].
  destruct k as [|b k]; [left; exists []|right; exists (b :: k)]; naive_solver (by rewrite ?app_nil_r in *).
Qed.

(** Every chunk fits the receive buffer, of [max] bytes, next to an incomplete frame. *)
Definition chunks_fit (max : Z) (frame : list byte) (cs : list (list byte)) : Prop :=
  Forall (λ c, Z.of_nat (length frame + length c) <= max) cs.

(** While the frame is incomplete, the buffer, which held [b] first, stays within its
    bound. *)
Definition buffer_fits (max : Z) (frame b : list byte) (cs : list (list byte)) : Prop :=
  ∀ pre c post, cs = pre ++ c :: post → (length (b ++ concat pre) < length frame)%nat →
    Z.of_nat (length (b ++ concat pre ++ c)) <= max.

Lemma buffer_fits_cons max frame b c cs :
  (length b < length frame)%nat → buffer_fits max frame b (c :: cs) →
  Z.of_nat (length (b ++ c)) <= max ∧ buffer_fits max frame (b ++ c) cs.
Proof.
  intros Hb Hf. split.
  - apply (Hf [] c cs); [done|]. by rewrite app_nil_r.
  - intros pre c' post -> Hl. rewrite <- app_assoc in *. rewrite app_assoc in Hl |- *.
    rewrite <- app_assoc. specialize (Hf (c :: pre) c' post). cbn [concat app] in Hf.
    rewrite <- !app_assoc in *. by apply Hf.
Qed.

Lemma chunks_fit_buffer max frame b cs : chunks_fit max frame cs → buffer_fits max frame b cs.
Proof.
  intros Hf pre c post -> Hl. apply Forall_app in Hf as [_ [Hc _]%Forall_cons].
  rewrite app_assoc, length_app. lia.
Qed.

Lemma total_fits max frame b cs :
  Z.of_nat (length (b ++ concat cs)) <= max → buffer_fits max frame b cs.
Proof.
  intros Ht pre c post -> _. rewrite concat_app in Ht. cbn [concat] in Ht.
  rewrite !length_app in *. lia.
Qed.

Lemma frame_fits max frame b cs :
  buffer_fits max frame b cs → (length b < length frame)%nat → (length frame <= length (b ++ concat cs))%nat →
  Z.of_nat (length frame) <= max.
Proof.
  revert b. induction cs as [|c cs IH]; intros b Hf Hb Hl; cbn [concat] in Hl; [rewrite app_nil_r in Hl; lia|].
  apply buffer_fits_cons in Hf as [Hc Hf]; [|done]. destruct (decide (length (b ++ c) < length frame)%nat); [|lia].
  apply (IH (b ++ c)); [done..|]. by rewrite <- app_assoc.
Qed.

Lemma first_chunk_fits max frame tail cs :
  frame ≠ [] → chunks_fit max frame cs → concat cs = frame ++ tail →
  Z.of_nat (length frame) <= max.
Proof.
  intros Hne [|c cs' Hc _] Heq; [|lia]. by destruct frame.
Qed.

(** What a reader of buffered bytes does with [frame], and with a part of it.  [None]
    means that more bytes are needed. *)
Class MessageReader {E M} (read : list byte → res E (option (M * list byte))) (max : Z)
    (msg : M) (frame : list byte) : Prop := {
  read_complete tail : Z.of_nat (length (frame ++ tail)) <= max →
    read (frame ++ tail) = Ok (Some (msg, tail));
  read_incomplete buf k : frame = buf ++ k → k ≠ [] → Z.of_nat (length buf) <= max →
    read buf = Ok None;
}.

(** The chunks may carry more than bytes, a timestamp for instance: [bytes c] is what
    the chunk [c] appends to the buffer. *)
Section await.
Context {St In Out E M C : Type} {P : SansIoProtocol St In Out E}.
Context (data : C → In) (bytes : C → list byte).
Context (read : list byte → res E (option (M * list byte))) (max : Z)
  (waiting : St → Prop) (buf : St → list byte) (set_buf : St → list byte → St)
  (finish : St → C → list byte → St * res E unit).
Context (msg : M) (frame : list byte).
Hypothesis set_buf_waiting : ∀ m b, waiting m → waiting (set_buf m b) ∧ buf (set_buf m b) = b.
Hypothesis finish_set_buf : ∀ m b c rest, finish (set_buf m b) c rest = finish m c rest.
Hypothesis data_incomplete : ∀ m c, waiting m → read (buf m ++ bytes c) = Ok None →
  handle_input m (data c) = (set_buf m (buf m ++ bytes c), Ok ()).
Hypothesis data_complete : ∀ m c rest, waiting m →
  read (buf m ++ bytes c) = Ok (Some (msg, rest)) → handle_input m (data c) = finish m c rest.
Context {reader : MessageReader read max msg frame}.

(** Whatever the fragmentation, the machine finishes at the chunk [c] in which the frame
    ends, with the first bytes [t] that follow the frame, and goes on with the chunks
    [cs'] that hold the others. *)
Lemma feed_awaited_at m tail cs k :
  waiting m → buffer_fits max frame (buf m) (bytes <$> cs) →
  buf m ++ concat (bytes <$> cs) = frame ++ tail → frame = buf m ++ k → k ≠ [] →
  ∃ pre c t cs', cs = pre ++ c :: cs' ∧ tail = t ++ concat (bytes <$> cs') ∧
    feed_inputs m (data <$> cs) =
      match finish m c t with
      | (s, Ok _) => feed_inputs s (data <$> cs')
      | r => r
      end.
Proof using All.
  revert m k. induction cs as [|c cs IH]; intros m k Hw Hfit Hcat Hpre Hne.
  { exfalso. cbn in Hcat. rewrite app_nil_r in Hcat. apply (f_equal length) in Hcat, Hpre.
    rewrite !length_app in *. destruct k; [done|]. simpl in *. lia. }
  cbn [fmap list_fmap concat] in Hcat. rewrite app_assoc in Hcat. cbn [fmap list_fmap feed_inputs].
  apply buffer_fits_cons in Hfit as [Hlen Hfit]; [|rewrite Hpre, length_app; destruct k; [done|simpl; lia]].
  destruct (chunk_cases _ _ _ _ _ Hcat) as [(t & Ht & ->)|(k' & Hf & Hne' & Hr)].
  - exists [], c, t, cs. split_and!; [done..|]. rewrite (data_complete m c t Hw); [by destruct (finish m c t) as [? []]|].
    rewrite Ht.
    apply read_complete. by rewrite <- Ht.
  - rewrite data_incomplete; [|done|by apply (read_incomplete _ k')].
    destruct (set_buf_waiting m (buf m ++ bytes c) Hw) as [Hw' Hb].
    destruct (IH (set_buf m (buf m ++ bytes c)) k') as (pre & c' & t & cs' & -> & -> & ->);
      rewrite ?Hb; [done..| |done|done|].
    + by rewrite Hr, app_assoc, <- Hf.
    + exists (c :: pre), c', t, cs'. by rewrite finish_set_buf.
Qed.
End await.

(** The common case: chunks are bytes, and what follows the frame cannot fail. *)
Section await_bytes.
Context {St In Out E M : Type} {P : SansIoProtocol St In Out E}.
Context (data : list byte → In) (read : list byte → res E (option (M * list byte))) (max : Z)
  (waiting : St → Prop) (buf : St → list byte) (set_buf : St → list byte → St)
  (finish : St → M → list byte → St).
Context (msg : M) (frame : list byte).
Hypothesis set_buf_waiting : ∀ m b, waiting m → waiting (set_buf m b) ∧ buf (set_buf m b) = b.
Hypothesis finish_set_buf : ∀ m b rest, finish (set_buf m b) msg rest = finish m msg rest.
Hypothesis data_incomplete : ∀ m c, waiting m → read (buf m ++ c) = Ok None →
  handle_input m (data c) = (set_buf m (buf m ++ c), Ok ()).
Hypothesis data_complete : ∀ m c rest, waiting m → read (buf m ++ c) = Ok (Some (msg, rest)) →
  handle_input m (data c) = (finish m msg rest, Ok ()).
Context {reader : MessageReader read max msg frame}.

Lemma feed_awaited m tail cs k :
  waiting m → buffer_fits max frame (buf m) cs → buf m ++ concat cs = frame ++ tail →
  frame = buf m ++ k → k ≠ [] →
  ∃ t cs', feed_inputs m (data <$> cs) = feed_inputs (finish m msg t) (data <$> cs') ∧
           tail = t ++ concat cs'.
Proof using All.
  intros Hw Hfit Hcat Hpre Hne. rewrite <- (list_fmap_id cs) in Hfit, Hcat.
  destruct (feed_awaited_at data id read max waiting buf set_buf
    (λ m _ rest, (finish m msg rest, Ok ())) msg frame) with m tail cs k
    as (pre & c & t & cs' & _ & -> & ->); [auto|intros; by rewrite finish_set_buf|auto..|].
  exists t, cs'. by rewrite list_fmap_id.
Qed.
End await_bytes.
