(* ===== verification/IdentifyMessage.v ===== *)
(** * The identify message ([crates/identify/src/message.rs])

    The protobuf codec of the six-field [Identify] message.  The decoder takes
    fields in any order, keeps the last occurrence of an optional field, appends
    repeated ones and skips unknown fields, which is protobuf's merge semantics:
    [merge] states it and the round-trip theorem is proved for it. *)
From S2P Require Import Prelude Utf8 Varint Protobuf.
From Stdlib Require Import ZArith Strings.Byte Strings.String.
From stdpp Require Import base numbers list strings.

#[local] Open Scope Z_scope.

Definition FIELD_PUBLIC_KEY : Z := 1.
Definition FIELD_LISTEN_ADDRS : Z := 2.
Definition FIELD_PROTOCOLS : Z := 3.
Definition FIELD_OBSERVED_ADDR : Z := 4.
Definition FIELD_PROTOCOL_VERSION : Z := 5.
Definition FIELD_AGENT_VERSION : Z := 6.

Definition TAG_PUBLIC_KEY : byte := tag_byte FIELD_PUBLIC_KEY WIRE_LEN.
Definition TAG_LISTEN_ADDRS : byte := tag_byte FIELD_LISTEN_ADDRS WIRE_LEN.
Definition TAG_PROTOCOLS : byte := tag_byte FIELD_PROTOCOLS WIRE_LEN.
Definition TAG_OBSERVED_ADDR : byte := tag_byte FIELD_OBSERVED_ADDR WIRE_LEN.
Definition TAG_PROTOCOL_VERSION : byte := tag_byte FIELD_PROTOCOL_VERSION WIRE_LEN.
Definition TAG_AGENT_VERSION : byte := tag_byte FIELD_AGENT_VERSION WIRE_LEN.

Record IdentifyMessage : Type := {
  public_key : option (list byte);
  listen_addrs : list (list byte);
  protocols : list string;
  observed_addr : option (list byte);
  protocol_version : option string;
  agent_version : option string;
}.

Definition IdentifyMessage_default : IdentifyMessage :=
  {| public_key := None; listen_addrs := []; protocols := []; observed_addr := None;
     protocol_version := None; agent_version := None |}.

Inductive IdentifyMessageError : Type :=
  | Varint (e : VarintError)
  | FieldOverflow (offset : nat) (length : Z) (remaining : nat)
  | InvalidUtf8 (field_number : Z)
  | UnsupportedWireType (wire_type : Z) (offset : nat).

#[export] Instance IdentifyMessageError_proto : ProtoError IdentifyMessageError := {
  varint_error := Varint;
  field_overflow := FieldOverflow;
  unsupported_wire_type := UnsupportedWireType;
}.

#[export] Instance IdentifyMessageError_display : Display IdentifyMessageError := λ e,
  match e with
  | Varint e => "varint error: " ++ to_string e
  | FieldOverflow offset length remaining =>
      "field at offset " ++ to_string offset ++ " has length " ++ to_string length
        ++ " but only " ++ to_string remaining ++ " bytes remain"
  | InvalidUtf8 field_number => "invalid UTF-8 in field " ++ to_string field_number
  | UnsupportedWireType wire_type offset =>
      "unsupported wire type " ++ to_string wire_type ++ " at offset " ++ to_string offset
  end%string.

Definition set_public_key (v : list byte) (m : IdentifyMessage) : IdentifyMessage :=
  {| public_key := Some v; listen_addrs := listen_addrs m; protocols := protocols m;
     observed_addr := observed_addr m; protocol_version := protocol_version m;
     agent_version := agent_version m |}.
Definition push_listen_addr (v : list byte) (m : IdentifyMessage) : IdentifyMessage :=
  {| public_key := public_key m; listen_addrs := listen_addrs m ++ [v]; protocols := protocols m;
     observed_addr := observed_addr m; protocol_version := protocol_version m;
     agent_version := agent_version m |}.
Definition push_protocol (s : string) (m : IdentifyMessage) : IdentifyMessage :=
  {| public_key := public_key m; listen_addrs := listen_addrs m; protocols := protocols m ++ [s];
     observed_addr := observed_addr m; protocol_version := protocol_version m;
     agent_version := agent_version m |}.
Definition set_observed_addr (v : list byte) (m : IdentifyMessage) : IdentifyMessage :=
  {| public_key := public_key m; listen_addrs := listen_addrs m; protocols := protocols m;
     observed_addr := Some v; protocol_version := protocol_version m;
     agent_version := agent_version m |}.
Definition set_protocol_version (s : string) (m : IdentifyMessage) : IdentifyMessage :=
  {| public_key := public_key m; listen_addrs := listen_addrs m; protocols := protocols m;
     observed_addr := observed_addr m; protocol_version := Some s;
     agent_version := agent_version m |}.
Definition set_agent_version (s : string) (m : IdentifyMessage) : IdentifyMessage :=
  {| public_key := public_key m; listen_addrs := listen_addrs m; protocols := protocols m;
     observed_addr := observed_addr m; protocol_version := protocol_version m;
     agent_version := Some s |}.

(** ** Encoding *)

Definition encode (m : IdentifyMessage) : list byte :=
  let out := [] in
  let out := match public_key m with
             | Some key => encode_bytes_field out TAG_PUBLIC_KEY key
             | None => out end in
  let out := fold_left (λ out addr, encode_bytes_field out TAG_LISTEN_ADDRS addr)
               (listen_addrs m) out in
  let out := fold_left (λ out proto, encode_bytes_field out TAG_PROTOCOLS (as_bytes proto))
               (protocols m) out in
  let out := match observed_addr m with
             | Some addr => encode_bytes_field out TAG_OBSERVED_ADDR addr
             | None => out end in
  let out := match protocol_version m with
             | Some ver => encode_bytes_field out TAG_PROTOCOL_VERSION (as_bytes ver)
             | None => out end in
  let out := match agent_version m with
             | Some ver => encode_bytes_field out TAG_AGENT_VERSION (as_bytes ver)
             | None => out end in
  out.

(** ** Decoding *)

(** [core::str::from_utf8(value).map_err(|_| InvalidUtf8 { field_number })]. *)
Definition utf8_field (field_number : Z) (value : list byte) : res IdentifyMessageError string :=
  map_err (λ _, InvalidUtf8 field_number) (from_utf8 value).

(** [match field_number { .. }] on the value of a length-delimited field. *)
Definition assign_field (field_number : Z) (value : list byte) (msg : IdentifyMessage)
    : res IdentifyMessageError IdentifyMessage :=
  if decide (field_number = FIELD_PUBLIC_KEY) then Ok (set_public_key value msg)
  else if decide (field_number = FIELD_LISTEN_ADDRS) then Ok (push_listen_addr value msg)
  else if decide (field_number = FIELD_PROTOCOLS) then
    s ← utf8_field field_number value; Ok (push_protocol s msg)
  else if decide (field_number = FIELD_OBSERVED_ADDR) then Ok (set_observed_addr value msg)
  else if decide (field_number = FIELD_PROTOCOL_VERSION) then
    s ← utf8_field field_number value; Ok (set_protocol_version s msg)
  else if decide (field_number = FIELD_AGENT_VERSION) then
    s ← utf8_field field_number value; Ok (set_agent_version s msg)
  else Ok msg.

(** The body of the loop behind the tag. *)
Definition decode_field (input : list byte) (field_number wire_type : Z) (msg : IdentifyMessage)
    (idx : nat) : res IdentifyMessageError (IdentifyMessage * nat) :=
  if decide (wire_type = WIRE_LEN) then
    '(value, idx) ← read_len_delimited input idx;
    msg ← assign_field field_number value msg;
    Ok (msg, idx)
  else if decide (wire_type = WIRE_VARINT) then
    '(_, idx) ← read_varint_value input idx; Ok (msg, idx)
  else if decide (wire_type = WIRE_I32) then
    idx ← skip_fixed input idx 4; Ok (msg, idx)
  else if decide (wire_type = WIRE_I64) then
    idx ← skip_fixed input idx 8; Ok (msg, idx)
  else Err (UnsupportedWireType wire_type idx).

Definition decode (input : list byte) : res IdentifyMessageError IdentifyMessage :=
  while_tag (read_tag input) (decode_field input) (S (length input)) IdentifyMessage_default 0.

(** ** Lemmas *)

Definition text_ok (s : string) : Prop := str_ok s ∧ bytes_ok (as_bytes s).

(** What Rust's types guarantee of a message value. *)
Record msg_ok (m : IdentifyMessage) : Prop := {
  ok_public_key : from_option bytes_ok True (public_key m);
  ok_listen_addrs : Forall bytes_ok (listen_addrs m);
  ok_protocols : Forall text_ok (protocols m);
  ok_observed_addr : from_option bytes_ok True (observed_addr m);
  ok_protocol_version : from_option text_ok True (protocol_version m);
  ok_agent_version : from_option text_ok True (agent_version m);
}.

(** Protobuf's merge of two messages. *)
Definition merge (m1 m2 : IdentifyMessage) : IdentifyMessage :=
  {| public_key := match public_key m2 with Some v => Some v | None => public_key m1 end;
     listen_addrs := listen_addrs m1 ++ listen_addrs m2;
     protocols := protocols m1 ++ protocols m2;
     observed_addr := match observed_addr m2 with Some v => Some v | None => observed_addr m1 end;
     protocol_version :=
       match protocol_version m2 with Some v => Some v | None => protocol_version m1 end;
     agent_version :=
       match agent_version m2 with Some v => Some v | None => agent_version m1 end |}.

Lemma merge_default_l m : merge IdentifyMessage_default m = m.
Proof. destruct m as [[] ? ? [] [] []]; done. Qed.

Lemma merge_default_r m : merge m IdentifyMessage_default = m.
Proof. destruct m; unfold merge; simpl. by rewrite !app_nil_r. Qed.

(** The fields of a message, as bytes and as effects on the message. *)
Definition field_bytes (m : IdentifyMessage) : list (list byte) :=
  opt_list (bytes_field 1) (public_key m) ++ (bytes_field 2 <$> listen_addrs m)
  ++ (bytes_field 3 <$> (as_bytes <$> protocols m)) ++ opt_list (bytes_field 4) (observed_addr m)
  ++ opt_list (λ s, bytes_field 5 (as_bytes s)) (protocol_version m)
  ++ opt_list (λ s, bytes_field 6 (as_bytes s)) (agent_version m).

Definition field_effects (m : IdentifyMessage) : list (IdentifyMessage → IdentifyMessage) :=
  opt_list set_public_key (public_key m) ++ (push_listen_addr <$> listen_addrs m)
  ++ (push_protocol <$> protocols m) ++ opt_list set_observed_addr (observed_addr m)
  ++ opt_list set_protocol_version (protocol_version m)
  ++ opt_list set_agent_version (agent_version m).

Lemma encode_fields m : encode m = concat (field_bytes m).
Proof.
  unfold encode, field_bytes, TAG_PUBLIC_KEY, TAG_LISTEN_ADDRS, TAG_PROTOCOLS, TAG_OBSERVED_ADDR,
    TAG_PROTOCOL_VERSION, TAG_AGENT_VERSION. cbv zeta.
  rewrite (encode_opt_field as_bytes 6), (encode_opt_field as_bytes 5), (encode_opt_field id 4) by done.
  rewrite (encode_bytes_fields_eq as_bytes 3), (encode_bytes_fields_eq id 2) by done.
  rewrite (encode_opt_field id 1) by done. unfold id.
  rewrite list_fmap_id, !concat_app, <- !app_assoc. done.
Qed.

#[local] Abbreviation consumes_field := (consumes read_tag decode_field).

Lemma utf8_field_ok n s : str_ok s → utf8_field n (as_bytes s) = Ok s.
Proof. intros Hs. unfold utf8_field. by rewrite from_utf8_as_bytes. Qed.

(** Each kind of field does what it should. *)
Lemma consumes_bytes_field n data g :
  1 <= n < 16 → bytes_ok data →
  (∀ msg, assign_field n data msg = Ok (g msg)) →
  consumes_field (bytes_field n data) g.
Proof.
  intros Hn Hd Hg.
  apply (consumes_len decode_field n data (λ _, g)); [lia|unfold WIRE_LEN; u64_tac|done|].
  intros input msg idx v idx' Hr ->. unfold decode_field. rewrite decide_True by done.
  rewrite Hr. cbn [mbind res_bind]. by rewrite Hg.
Qed.

Lemma assign_text n s msg :
  str_ok s → n = 3 ∨ n = 5 ∨ n = 6 →
  assign_field n (as_bytes s) msg =
    Ok ((if decide (n = 3) then push_protocol
         else if decide (n = 5) then set_protocol_version else set_agent_version) s msg).
Proof.
  intros Hs Hn. unfold assign_field. rewrite utf8_field_ok by done. by destruct Hn as [->|[->| ->]].
Qed.

Lemma consumes_fields m :
  msg_ok m → Forall2 consumes_field (field_bytes m) (field_effects m).
Proof.
  intros [H1 H2 H3 H4 H5 H6]. unfold field_bytes, field_effects.
  repeat apply Forall2_app.
  - destruct (public_key m); cbn [opt_list from_option] in *;
      [|constructor]. constructor; [|constructor].
    by apply consumes_bytes_field; [lia|..].
  - apply Forall2_fmap, Forall_Forall2_diag. eapply Forall_impl; [exact H2|].
    intros a Ha. by apply consumes_bytes_field.
  - rewrite <- list_fmap_compose. apply Forall2_fmap, Forall_Forall2_diag.
    eapply Forall_impl; [exact H3|]. intros s [Hs Hl].
    apply consumes_bytes_field; [lia|done|]. intros. rewrite assign_text; [done..|lia].
  - destruct (observed_addr m); cbn [opt_list from_option] in *;
      [|constructor]. constructor; [|constructor].
    by apply consumes_bytes_field; [lia|..].
  - destruct (protocol_version m) as [s|]; cbn [opt_list from_option] in *;
      [|constructor]. constructor; [|constructor].
    destruct H5. apply consumes_bytes_field; [lia|done|]. intros. rewrite assign_text; [done..|lia].
  - destruct (agent_version m) as [s|]; cbn [opt_list from_option] in *;
      [|constructor]. constructor; [|constructor].
    destruct H6. apply consumes_bytes_field; [lia|done|]. intros. rewrite assign_text; [done..|lia].
Qed.

#[local] Abbreviation apply_all fs m := (foldl (λ m f, f m) m fs).

Lemma foldl_push_addr l m :
  apply_all (push_listen_addr <$> l) m
    = {| public_key := public_key m; listen_addrs := listen_addrs m ++ l;
         protocols := protocols m; observed_addr := observed_addr m;
         protocol_version := protocol_version m; agent_version := agent_version m |}.
Proof.
  revert m. induction l as [|a l IH]; intros m; simpl; [rewrite app_nil_r; by destruct m|].
  rewrite IH. simpl. by rewrite <- app_assoc.
Qed.

Lemma foldl_push_protocol l m :
  apply_all (push_protocol <$> l) m
    = {| public_key := public_key m; listen_addrs := listen_addrs m;
         protocols := protocols m ++ l; observed_addr := observed_addr m;
         protocol_version := protocol_version m; agent_version := agent_version m |}.
Proof.
  revert m. induction l as [|a l IH]; intros m; simpl; [rewrite app_nil_r; by destruct m|].
  rewrite IH. simpl. by rewrite <- app_assoc.
Qed.

Lemma apply_field_effects m0 m : apply_all (field_effects m) m0 = merge m0 m.
Proof.
  unfold field_effects. rewrite !foldl_app, foldl_push_addr, foldl_push_protocol.
  destruct m as [[] ? ? [] [] []]; done.
Qed.

(** ** Unknown fields *)

(** A complete field the decoder does not know: a length-delimited field with an
    unassigned number, or a varint, 32-bit or 64-bit field of any number. *)
Inductive unknown_field : list byte → Prop :=
  | unknown_len n data :
      (n = 0 ∨ 7 <= n) → is_u64 (n * 8 + WIRE_LEN) → bytes_ok data →
      unknown_field (bytes_field n data)
  | unknown_varint n v : 0 <= n → is_u64 (n * 8 + WIRE_VARINT) → is_u64 v →
      unknown_field (varint_field n v)
  | unknown_i32 n data : 0 <= n → is_u64 (n * 8 + WIRE_I32) → length data = 4%nat →
      unknown_field (write_uvarint (n * 8 + WIRE_I32) [] ++ data)
  | unknown_i64 n data : 0 <= n → is_u64 (n * 8 + WIRE_I64) → length data = 8%nat →
      unknown_field (write_uvarint (n * 8 + WIRE_I64) [] ++ data).

Definition keep (m : IdentifyMessage) : IdentifyMessage := m.

Lemma skip_fixed_app (pre x post : list byte) :
  skip_fixed (E:=IdentifyMessageError) (pre ++ x ++ post) (length pre) (length x)
    = Ok (length (pre ++ x)).
Proof.
  unfold skip_fixed. rewrite decide_False by (rewrite !length_app; lia). by rewrite length_app.
Qed.

Lemma consumes_fixed n wt data :
  (wt = WIRE_I32 ∧ length data = 4%nat ∨ wt = WIRE_I64 ∧ length data = 8%nat) →
  0 <= n → is_u64 (n * 8 + wt) →
  consumes_field (write_uvarint (n * 8 + wt) [] ++ data) keep.
Proof.
  intros Hw Hn Ht. split.
  { intros [_ ->]%app_eq_nil. simpl in Hw. lia. }
  intros pre post msg. exists n, wt. eexists. rewrite <- !app_assoc. split.
  { apply read_tag_app; [|done]. unfold WIRE_I32, WIRE_I64 in Hw. lia. }
  rewrite !(app_assoc pre). unfold decode_field.
  destruct Hw as [[-> Hl]|[-> Hl]]; cbn [decide]; rewrite !decide_False by done;
    rewrite ?decide_True by done; rewrite ?decide_False by done; rewrite ?decide_True by done;
    rewrite <- Hl, skip_fixed_app; done.
Qed.

Lemma consumes_unknown x : unknown_field x → consumes_field x keep.
Proof.
  intros [n data Hn Ht Hd|n v Hn Ht Hv|n data Hn Ht Hl|n data Hn Ht Hl].
  - apply (consumes_len decode_field n data (λ _, keep)); [lia|done..|].
    intros input msg idx v idx' Hr ->. unfold decode_field. rewrite decide_True by done.
    rewrite Hr. cbn [mbind res_bind]. unfold assign_field. by rewrite !decide_False by
      (unfold FIELD_PUBLIC_KEY, FIELD_LISTEN_ADDRS, FIELD_PROTOCOLS, FIELD_OBSERVED_ADDR,
        FIELD_PROTOCOL_VERSION, FIELD_AGENT_VERSION; lia).
  - apply (consumes_varint decode_field n v (λ _, keep)); [done..|].
    intros input msg idx w idx' Hr ->. unfold decode_field.
    rewrite decide_False, decide_True by done. by rewrite Hr.
  - apply consumes_fixed; [by left|done..].
  - apply consumes_fixed; [by right|done..].
Qed.

Lemma apply_ids (us : list (list byte)) (m : IdentifyMessage) : apply_all ((λ _, keep) <$> us) m = m.
Proof. induction us; done. Qed.

Lemma decode_merge m1 m2 us :
  msg_ok m1 → msg_ok m2 → Forall unknown_field us →
  decode (encode m1 ++ concat us ++ encode m2) = Ok (merge m1 m2).
Proof.
  intros H1 H2 Hu. rewrite !encode_fields, <- !concat_app. unfold decode.
  rewrite (while_tag_fields read_tag decode_field _
    (field_effects m1 ++ ((λ _, keep) <$> us) ++ field_effects m2)).
  - by rewrite !foldl_app, !apply_field_effects, apply_ids, merge_default_l.
  - apply read_tag_end.
  - apply Forall2_app; [by apply consumes_fields|].
    apply Forall2_app; [|by apply consumes_fields].
    apply Forall2_fmap_r, Forall_Forall2_diag. eapply Forall_impl; [exact Hu|].
    apply consumes_unknown.
Qed.

Lemma assign_field_no_panic n v msg : assign_field n v msg ≠ Panic.
Proof.
  unfold assign_field, utf8_field. pose proof (from_utf8_no_panic v).
  destruct (from_utf8 v); repeat case_decide; done.
Qed.

Lemma decode_field_ok input : step_ok input (decode_field input).
Proof.
  intros n wt msg idx Hi. unfold decode_field, skip_fixed.
  case_decide; [|case_decide; [|repeat case_decide; simpl; lia || done]].
  - pose proof (read_len_delimited_pos (E:=IdentifyMessageError) input idx Hi) as Hl.
    destruct (read_len_delimited input idx) as [[v i]| |]; cbn [mbind res_bind]; [|done..].
    pose proof (assign_field_no_panic n v msg). by destruct (assign_field n v msg).
  - pose proof (read_varint_value_pos (E:=IdentifyMessageError) input idx Hi) as Hv.
    by destruct (read_varint_value input idx) as [[v i]| |].
Qed.

Lemma decode_no_panic input : decode input ≠ Panic.
Proof.
  apply (while_tag_no_panic input); [apply read_tag_ok|apply decode_field_ok|lia..].
Qed.

(** ** Properties *)

(** Round trip and forward compatibility: two encoded messages with any
    sequence of unknown fields between them decode to their protobuf merge; in
    particular an encoded message decodes to itself. *)
Theorem identify_decode_merge m1 m2 us :
  msg_ok m1 → msg_ok m2 → Forall unknown_field us →
  decode (encode m1 ++ concat us ++ encode m2) = Ok (merge m1 m2) ∧
  decode (encode m1) = Ok m1.
Proof.
  intros H1 H2 Hu. split; [by apply decode_merge|].
  assert (msg_ok IdentifyMessage_default) as H0 by by split; simpl.
  pose proof (decode_merge m1 IdentifyMessage_default [] H1 H0 (Forall_nil_2 _)) as Hd.
  rewrite merge_default_r in Hd. simpl in Hd. by rewrite app_nil_r in Hd.
Qed.

Definition demo_message : IdentifyMessage :=
  {| public_key := Some [x08; x01]; listen_addrs := [[x04; x7f; x00; x00; x01]];
     protocols := ["/ipfs/ping/1.0.0"; "/ipfs/id/1.0.0"]%string; observed_addr := None;
     protocol_version := Some "ipfs/0.1.0"%string; agent_version := None |}.

Lemma identify_decode_merge_witness :
  decode (encode demo_message ++ concat [bytes_field 33 [x61]] ++ encode demo_message)
    = Ok (merge demo_message demo_message).
Proof.
  assert (msg_ok demo_message) as Hm
    by (split; cbn [demo_message from_option public_key listen_addrs protocols observed_addr
          protocol_version agent_version]; repeat constructor; vm_compute; done).
  apply (identify_decode_merge demo_message demo_message [bytes_field 33 [x61]] Hm Hm).
  constructor; [|constructor]. apply unknown_len; [lia|vm_compute; done|vm_compute; done].
Defined.
