(* ===== verification/Identify.v ===== *)
(** * The identify protocol ([crates/identify/src/lib.rs])

    One side of a connection sends its [IdentifyMessage] on a stream and closes it,
    the other buffers the stream's bytes and decodes them when the remote closes its
    write side. *)
From S2P Require Import Prelude Utf8 SansIo Varint Protobuf IdentifyMessage Multibase PeerId Multiaddr.
From Stdlib Require Import ZArith Strings.Byte Strings.Ascii Strings.String.
From stdpp Require Import base numbers list gmap strings.

#[local] Open Scope Z_scope.

Definition IDENTIFY_PROTOCOL_ID : string := "/ipfs/id/1.0.0"%string.
Definition MAX_MESSAGE_SIZE : nat := Z.to_nat 8192.

Record IdentifyConfig : Type := {
  cfg_protocol_version : string;
  cfg_agent_version : string;
  cfg_protocols : list string;
  cfg_public_key : list byte;
}.

(** ** Framing *)

Definition encode_length_prefixed (payload : list byte) : list byte :=
  write_uvarint (Z.of_nat (length payload)) [] ++ payload.

Definition decode_length_prefixed (buf : list byte) : res IdentifyMessageError (list byte) :=
  '(len, consumed) ← map_err Varint (read_uvarint buf);
  let remaining := (length buf - consumed)%nat in
  if Z.of_nat remaining <? len then Err (FieldOverflow consumed len remaining)
  else slice buf (Z.of_nat consumed) (Z.of_nat consumed + len).

Section identify.
Context {P : Type} `{PeerEq : EqDecision P} `{PeerCount : !Countable P} `{!PeerIdBytes P}.

(** ** Data *)

Inductive IdentifyAction : Type :=
  | Send (peer_id : P) (stream_id : StreamId) (data : list byte)
  | CloseStreamWrite (peer_id : P) (stream_id : StreamId).

Inductive IdentifyEvent : Type :=
  | Received (peer_id : P) (info : IdentifyMessage)
  | IdentifyErrorEvent (peer_id : P) (stream_id : StreamId) (error : string).

Inductive IdentifyInput : Type :=
  | RegisterOutboundStream (peer_id : P) (stream_id : StreamId)
      (observed_addr : option (Multiaddr P)) (listen_addrs : list (Multiaddr P))
  | RegisterInboundStream (peer_id : P) (stream_id : StreamId)
  | StreamData (peer_id : P) (stream_id : StreamId) (data : list byte)
  | StreamRemoteWriteClosed (peer_id : P) (stream_id : StreamId)
  | StreamClosed (peer_id : P) (stream_id : StreamId)
  | RemovePeer (peer_id : P)
  | MigratePeer (old_peer_id new_peer_id : P).

Inductive IdentifyOutput : Type :=
  | Action (a : IdentifyAction)
  | Event (e : IdentifyEvent).

Inductive IdentifyError : Type :=
  | StreamAlreadyRegistered (peer_id : P)
  | NoOutboundStream (peer_id : P).

Record PeerIdentifyState : Type := {
  outbound_stream : option StreamId;
  inbound_streams : gmap StreamId (list byte);
}.

Definition PeerIdentifyState_default : PeerIdentifyState :=
  {| outbound_stream := None; inbound_streams := ∅ |}.

Record IdentifyProtocol : Type := {
  peers : gmap P PeerIdentifyState;
  events : list IdentifyEvent;
  actions : list IdentifyAction;
  config : IdentifyConfig;
}.

Definition set_peers (m : IdentifyProtocol) (ps : gmap P PeerIdentifyState) : IdentifyProtocol :=
  {| peers := ps; events := events m; actions := actions m; config := config m |}.
Definition put_peer (m : IdentifyProtocol) (p : P) (st : PeerIdentifyState) : IdentifyProtocol :=
  set_peers m (<[p := st]> (peers m)).
Definition push_event (m : IdentifyProtocol) (e : IdentifyEvent) : IdentifyProtocol :=
  {| peers := peers m; events := events m ++ [e]; actions := actions m; config := config m |}.
Definition extend_actions (m : IdentifyProtocol) (acts : list IdentifyAction) : IdentifyProtocol :=
  {| peers := peers m; events := events m; actions := actions m ++ acts; config := config m |}.
Definition set_inbound (st : PeerIdentifyState) (i : gmap StreamId (list byte)) : PeerIdentifyState :=
  {| outbound_stream := outbound_stream st; inbound_streams := i |}.

(** ** Operations *)

Definition identify_new (cfg : IdentifyConfig) : IdentifyProtocol :=
  {| peers := ∅; events := []; actions := []; config := cfg |}.

Definition add_protocol (m : IdentifyProtocol) (id : string) : IdentifyProtocol :=
  let cfg := config m in
  if decide (id ∈ cfg_protocols cfg) then m
  else {| peers := peers m; events := events m; actions := actions m;
          config := {| cfg_protocol_version := cfg_protocol_version cfg;
                       cfg_agent_version := cfg_agent_version cfg;
                       cfg_protocols := cfg_protocols cfg ++ [id];
                       cfg_public_key := cfg_public_key cfg |} |}.

(** The message a responder sends. *)
Definition identify_message (cfg : IdentifyConfig) (observed : option (Multiaddr P))
    (listen : list (Multiaddr P)) : IdentifyMessage :=
  {| public_key := Some (cfg_public_key cfg);
     listen_addrs := Multiaddr.to_bytes <$> listen;
     IdentifyMessage.protocols := cfg_protocols cfg;
     observed_addr := Multiaddr.to_bytes <$> observed;
     protocol_version := Some (cfg_protocol_version cfg);
     agent_version := Some (cfg_agent_version cfg) |}.

Definition register_outbound_stream (m : IdentifyProtocol) (peer_id : P) (stream_id : StreamId)
    (observed : option (Multiaddr P)) (listen : list (Multiaddr P))
    : IdentifyProtocol * res IdentifyError (list IdentifyAction) :=
  let state := default PeerIdentifyState_default (peers m !! peer_id) in
  let m := put_peer m peer_id state in
  match outbound_stream state with
  | Some _ => (m, Err (StreamAlreadyRegistered peer_id))
  | None =>
      let m := put_peer m peer_id {| outbound_stream := Some stream_id;
                                     inbound_streams := inbound_streams state |} in
      let msg := identify_message (config m) observed listen in
      let encoded := IdentifyMessage.encode msg in
      let data := encode_length_prefixed encoded in
      (m, Ok [Send peer_id stream_id data; CloseStreamWrite peer_id stream_id])
  end.

Definition register_inbound_stream (m : IdentifyProtocol) (peer_id : P) (stream_id : StreamId)
    : IdentifyProtocol :=
  let state := default PeerIdentifyState_default (peers m !! peer_id) in
  put_peer m peer_id
    (set_inbound state
       (<[stream_id := default [] (inbound_streams state !! stream_id)]> (inbound_streams state))).

Definition on_stream_data (m : IdentifyProtocol) (peer_id : P) (stream_id : StreamId)
    (data : list byte) : IdentifyProtocol * list IdentifyAction :=
  match peers m !! peer_id with
  | None => (m, [])
  | Some state =>
      match inbound_streams state !! stream_id with
      | None => (m, [])
      | Some buf =>
          let buf := buf ++ data in
          if decide (MAX_MESSAGE_SIZE < length buf)%nat then
            let m := push_event m (IdentifyErrorEvent peer_id stream_id
              ("identify message exceeds maximum size (" ++ to_string (length buf) ++ " > "
                 ++ to_string MAX_MESSAGE_SIZE ++ ")")%string) in
            (put_peer m peer_id (set_inbound state (delete stream_id (inbound_streams state))), [])
          else
            (put_peer m peer_id (set_inbound state (<[stream_id := buf]> (inbound_streams state))), [])
      end
  end.

Definition on_stream_remote_write_closed (m : IdentifyProtocol) (peer_id : P) (stream_id : StreamId)
    : res Empty_set (IdentifyProtocol * list IdentifyAction) :=
  match peers m !! peer_id with
  | None => Ok (m, [])
  | Some state =>
      match inbound_streams state !! stream_id with
      | None => Ok (m, [])
      | Some buf =>
          let m := put_peer m peer_id (set_inbound state (delete stream_id (inbound_streams state))) in
          match decode_length_prefixed buf ≫= IdentifyMessage.decode with
          | Ok info =>
              Ok (push_event m (Received peer_id info), [CloseStreamWrite peer_id stream_id])
          | Err e =>
              Ok (push_event m (IdentifyErrorEvent peer_id stream_id
                    ("failed to decode identify message: " ++ to_string e)%string),
                  [CloseStreamWrite peer_id stream_id])
          | Panic => Panic
          end
      end
  end.

Definition on_stream_closed (m : IdentifyProtocol) (peer_id : P) (stream_id : StreamId)
    : IdentifyProtocol :=
  match peers m !! peer_id with
  | None => m
  | Some state =>
      let outbound := if decide (outbound_stream state = Some stream_id) then None
                      else outbound_stream state in
      let inbound := delete stream_id (inbound_streams state) in
      let m := put_peer m peer_id {| outbound_stream := outbound; inbound_streams := inbound |} in
      if decide (outbound = None ∧ inbound = ∅) then set_peers m (delete peer_id (peers m)) else m
  end.

Definition remove_peer (m : IdentifyProtocol) (peer_id : P) : IdentifyProtocol :=
  set_peers m (delete peer_id (peers m)).

Definition rekey (old new p : P) : P := if decide (p = old) then new else p.
Definition rekey_event (old new : P) (e : IdentifyEvent) : IdentifyEvent :=
  match e with
  | Received p i => Received (rekey old new p) i
  | IdentifyErrorEvent p s x => IdentifyErrorEvent (rekey old new p) s x
  end.

Definition migrate_peer (m : IdentifyProtocol) (old_peer_id new_peer_id : P) : IdentifyProtocol :=
  if decide (old_peer_id = new_peer_id) then m
  else
    let m := match peers m !! old_peer_id with
             | Some state => set_peers m (<[new_peer_id := state]> (delete old_peer_id (peers m)))
             | None => m
             end in
    {| peers := peers m; events := rekey_event old_peer_id new_peer_id <$> events m;
       actions := actions m; config := config m |}.

Definition identify_handle_input (m : IdentifyProtocol) (input : IdentifyInput)
    : IdentifyProtocol * res IdentifyError unit :=
  match input with
  | RegisterOutboundStream peer_id stream_id observed listen =>
      match register_outbound_stream m peer_id stream_id observed listen with
      | (m, Ok acts) => (extend_actions m acts, Ok ())
      | (m, Err e) => (m, Err e)
      | (m, Panic) => (m, Panic)
      end
  | RegisterInboundStream peer_id stream_id => (register_inbound_stream m peer_id stream_id, Ok ())
  | StreamData peer_id stream_id data =>
      let '(m, acts) := on_stream_data m peer_id stream_id data in (extend_actions m acts, Ok ())
  | StreamRemoteWriteClosed peer_id stream_id =>
      match on_stream_remote_write_closed m peer_id stream_id with
      | Ok (m, acts) => (extend_actions m acts, Ok ())
      | _ => (m, Panic)
      end
  | StreamClosed peer_id stream_id => (on_stream_closed m peer_id stream_id, Ok ())
  | RemovePeer peer_id => (remove_peer m peer_id, Ok ())
  | MigratePeer old new => (migrate_peer m old new, Ok ())
  end.

Definition identify_poll_output (m : IdentifyProtocol) : option IdentifyOutput * IdentifyProtocol :=
  match actions m with
  | action :: rest =>
      (Some (Action action),
       {| peers := peers m; events := events m; actions := rest; config := config m |})
  | [] =>
      match events m with
      | [] => (None, m)
      | event :: rest =>
          (Some (Event event),
           {| peers := peers m; events := rest; actions := []; config := config m |})
      end
  end.

Definition identify_is_idle (m : IdentifyProtocol) : bool :=
  bool_decide (actions m = []) && bool_decide (events m = []).

#[export] Instance Identify_sansio :
    SansIoProtocol IdentifyProtocol IdentifyInput IdentifyOutput IdentifyError := {
  handle_input := identify_handle_input;
  poll_output := identify_poll_output;
  is_idle := identify_is_idle;
}.

#[export, refine] Instance Identify_laws : SansIoLaws Identify_sansio := {
  pending m := (length (actions m) + length (events m))%nat
}.
Proof.
  - intros m. simpl. unfold identify_is_idle, identify_poll_output.
    rewrite andb_true_iff, !bool_decide_eq_true.
    destruct (actions m), (events m); simpl; naive_solver.
  - intros m m'. simpl. unfold identify_is_idle, identify_poll_output.
    rewrite andb_true_iff, !bool_decide_eq_true.
    destruct (actions m) eqn:E1, (events m) eqn:E2; naive_solver.
  - intros m o m'. simpl. unfold identify_poll_output.
    destruct (actions m) eqn:E1, (events m) eqn:E2; intros [=]; subst; simpl; lia.
Qed.

(** ** Framing lemmas *)

Lemma decode_encode_length_prefixed payload :
  is_u64 (Z.of_nat (length payload)) →
  decode_length_prefixed (encode_length_prefixed payload) = Ok payload.
Proof.
  intros Hl. unfold decode_length_prefixed, encode_length_prefixed.
  rewrite read_uvarint_write by done. cbn [map_err mbind res_bind]. cbv zeta.
  rewrite <- (length_uvarint _ Hl). set (w := write_uvarint _ []).
  rewrite (proj2 (Z.ltb_ge _ _)) by (rewrite !length_app; lia).
  rewrite <- (app_nil_r payload) at 1. apply slice_app.
Qed.

Lemma decode_length_prefixed_no_panic buf : decode_length_prefixed buf ≠ Panic.
Proof.
  unfold decode_length_prefixed. destruct (read_uvarint buf) as [[len used]| |] eqn:E;
    cbn [map_err mbind res_bind]; [|done|by apply read_uvarint_no_panic in E].
  apply read_uvarint_inv in E as ([Hl _] & _ & Hle & _). cbv zeta.
  destruct (Z.ltb_spec (Z.of_nat (length buf - used)) len); [done|].
  unfold slice. by rewrite (proj2 (Z.leb_le _ _)), (proj2 (Z.leb_le _ _)) by lia.
Qed.

Lemma decode_message_no_panic buf : decode_length_prefixed buf ≫= IdentifyMessage.decode ≠ Panic.
Proof.
  apply bind_no_panic; [apply decode_length_prefixed_no_panic|]. intros a _. apply decode_no_panic.
Qed.

(** ** The invariant *)

Definition state_ok (st : PeerIdentifyState) : Prop :=
  map_Forall (λ _ buf, (length buf <= MAX_MESSAGE_SIZE)%nat) (inbound_streams st).
Definition identify_inv (m : IdentifyProtocol) : Prop := map_Forall (λ _, state_ok) (peers m).

Lemma state_ok_default : state_ok PeerIdentifyState_default.
Proof. intros s b. simpl. by rewrite lookup_empty. Qed.

Lemma inv_get_default m p :
  identify_inv m → state_ok (default PeerIdentifyState_default (peers m !! p)).
Proof. intros Hi. destruct (peers m !! p) eqn:E; [exact (Hi _ _ E)|apply state_ok_default]. Qed.

Lemma inv_put m p st : identify_inv m → state_ok st → identify_inv (put_peer m p st).
Proof. intros Hi Hs. by apply map_Forall_insert_2. Qed.

Lemma state_ok_delete st s :
  state_ok st → state_ok (set_inbound st (delete s (inbound_streams st))).
Proof. intros Hs. by apply map_Forall_delete. Qed.

Lemma id_register_inbound_inv m p s : identify_inv m → identify_inv (register_inbound_stream m p s).
Proof.
  intros Hi. pose proof (inv_get_default m p Hi) as Hd. apply inv_put; [done|].
  apply map_Forall_insert_2; [|done].
  destruct (inbound_streams _ !! s) eqn:E; [exact (Hd _ _ E)|simpl; lia].
Qed.

Lemma on_stream_data_inv m p s d : identify_inv m → identify_inv (on_stream_data m p s d).1.
Proof.
  intros Hi. unfold on_stream_data. destruct (peers m !! p) as [st|] eqn:Ep; [|done].
  destruct (inbound_streams st !! s) as [buf|] eqn:Es; [|done]. cbv zeta. case_decide.
  - apply (inv_put (push_event m _)); [done|]. apply state_ok_delete. exact (Hi _ _ Ep).
  - apply inv_put; [done|]. apply map_Forall_insert_2; [lia|exact (Hi _ _ Ep)].
Qed.

Lemma id_on_stream_remote_write_closed_inv m p s :
  identify_inv m →
  ∃ m' acts, on_stream_remote_write_closed m p s = Ok (m', acts) ∧ identify_inv m'.
Proof.
  intros Hi. unfold on_stream_remote_write_closed. destruct (peers m !! p) as [st|] eqn:Ep; [|eauto].
  destruct (inbound_streams st !! s) as [buf|] eqn:Es; [|eauto]. cbv zeta.
  assert (identify_inv (put_peer m p (set_inbound st (delete s (inbound_streams st))))) as Hi'.
  { apply inv_put; [done|]. apply state_ok_delete. exact (Hi _ _ Ep). }
  pose proof (decode_message_no_panic buf).
  destruct (decode_length_prefixed buf ≫= IdentifyMessage.decode); [eexists _, _; by split..|done].
Qed.

Lemma id_on_stream_closed_inv m p s : identify_inv m → identify_inv (on_stream_closed m p s).
Proof.
  intros Hi. unfold on_stream_closed. destruct (peers m !! p) as [st|] eqn:Ep; [|done]. cbv zeta.
  match goal with |- context [put_peer m p ?st'] => assert (identify_inv (put_peer m p st')) as Hp end.
  { apply inv_put; [done|]. apply (state_ok_delete st s). exact (Hi _ _ Ep). }
  destruct (decide (_ ∧ _)); [|done]. by apply map_Forall_delete.
Qed.

Lemma id_migrate_peer_inv m old new : identify_inv m → identify_inv (migrate_peer m old new).
Proof.
  intros Hi. unfold migrate_peer. case_decide; [done|].
  destruct (peers m !! old) eqn:E; [|done]. apply map_Forall_insert_2; [exact (Hi _ _ E)|].
  by apply map_Forall_delete.
Qed.

Lemma handle_input_inv m i :
  identify_inv m → identify_inv (identify_handle_input m i).1 ∧ (identify_handle_input m i).2 ≠ Panic.
Proof.
  intros Hi. destruct i as [p s o l|p s|p s d|p s|p s|p|o n]; cbn [identify_handle_input].
  - unfold register_outbound_stream. pose proof (inv_get_default m p Hi) as Hd.
    destruct (outbound_stream _); simpl; (split; [|done]); [by apply inv_put|].
    apply (inv_put (put_peer m p _)); [by apply inv_put|done].
  - split; [by apply id_register_inbound_inv|done].
  - pose proof (on_stream_data_inv m p s d Hi). by destruct (on_stream_data m p s d).
  - destruct (id_on_stream_remote_write_closed_inv m p s Hi) as (m' & acts & -> & ?). done.
  - split; [by apply id_on_stream_closed_inv|done].
  - split; [by apply map_Forall_delete|done].
  - split; [by apply id_migrate_peer_inv|done].
Qed.

Inductive identify_reach (cfg : IdentifyConfig) : IdentifyProtocol → Prop :=
  | reach_new : identify_reach cfg (identify_new cfg)
  | reach_input m i : identify_reach cfg m → identify_reach cfg (identify_handle_input m i).1
  | reach_add m id : identify_reach cfg m → identify_reach cfg (add_protocol m id)
  | reach_poll m : identify_reach cfg m → identify_reach cfg (identify_poll_output m).2.

Lemma reach_inv cfg m : identify_reach cfg m → identify_inv m.
Proof.
  induction 1 as [|m i _ IH|m id _ IH|m _ IH].
  - intros k st. simpl. by rewrite lookup_empty.
  - by apply handle_input_inv.
  - unfold add_protocol. by case_decide.
  - unfold identify_poll_output. by repeat case_match.
Qed.

(** ** A stream in pieces *)

Fixpoint feed_stream (m : IdentifyProtocol) (peer_id : P) (stream_id : StreamId)
    (frags : list (list byte)) : IdentifyProtocol * list IdentifyAction :=
  match frags with
  | [] => (m, [])
  | data :: frags =>
      let '(m, acts) := on_stream_data m peer_id stream_id data in
      let '(m, acts') := feed_stream m peer_id stream_id frags in
      (m, acts ++ acts')
  end.

Lemma id_put_peer_twice m p st st' : put_peer (put_peer m p st) p st' = put_peer m p st'.
Proof. unfold put_peer, set_peers. simpl. by rewrite insert_insert_eq. Qed.

Lemma feed_stream_spec m p s st buf frags :
  peers m !! p = Some st → inbound_streams st !! s = Some buf →
  (length (buf ++ concat frags) <= MAX_MESSAGE_SIZE)%nat →
  feed_stream m p s frags =
    (put_peer m p (set_inbound st (<[s := buf ++ concat frags]> (inbound_streams st))), []).
Proof.
  revert m st buf. induction frags as [|d frags IH]; intros m st buf Hp Hs Hl.
  - cbn [feed_stream concat]. rewrite app_nil_r, insert_id by done. unfold put_peer, set_peers.
    destruct st. simpl. rewrite insert_id by done. by destruct m.
  - cbn [feed_stream concat] in *. unfold on_stream_data. rewrite Hp, Hs. cbv zeta.
    rewrite decide_False by (rewrite !length_app in *; lia).
    rewrite app_assoc in Hl.
    rewrite (IH _ (set_inbound st (<[s := buf ++ d]> (inbound_streams st))) (buf ++ d)).
    + cbn [set_inbound inbound_streams outbound_stream].
      rewrite id_put_peer_twice, insert_insert_eq, <- app_assoc. done.
    + apply lookup_insert_eq.
    + apply lookup_insert_eq.
    + done.
Qed.

(** ** Properties *)

(** C35. Resource bound: in every reachable state no receive buffer holds more than
    8 KiB, and no input makes the machine panic. *)
Theorem identify_bounded cfg m :
  identify_reach cfg m →
  (∀ p st s buf, peers m !! p = Some st → inbound_streams st !! s = Some buf →
     (length buf <= MAX_MESSAGE_SIZE)%nat) ∧
  (∀ i, (identify_handle_input m i).2 ≠ Panic).
Proof.
  intros Hi%reach_inv. split; [|intros i; by apply handle_input_inv].
  intros p st s buf Hp Hs. exact (Hi p st Hp s buf Hs).
Qed.

(** C22. An identify exchange end to end: the responder's bytes, delivered to the
    initiator in any fragmentation and followed by the close of the stream, give
    exactly one event, which carries the responder's key, protocols, versions and
    the binary forms of its addresses; the stream's state is gone and the initiator
    closes its side.  (The message has to fit 8 KiB with its length prefix.) *)
Theorem identify_exchange a b pa pb sa sb obs listen stb a' data frags :
  register_outbound_stream a pb sa obs listen
    = (a', Ok [Send pb sa data; CloseStreamWrite pb sa]) →
  msg_ok (identify_message (config a) obs listen) →
  (length data <= MAX_MESSAGE_SIZE)%nat →
  peers b !! pa = Some stb → inbound_streams stb !! sb = Some [] → concat frags = data →
  ∃ b1, feed_stream b pa sb frags = (b1, []) ∧
    on_stream_remote_write_closed b1 pa sb =
      Ok (push_event (put_peer b pa (set_inbound stb (delete sb (inbound_streams stb))))
            (Received pa (identify_message (config a) obs listen)),
          [CloseStreamWrite pa sb]).
Proof.
  intros Hreg Hmsg Hlen Hb Hs Hfr. unfold register_outbound_stream in Hreg.
  destruct (outbound_stream _); [done|]. injection Hreg as _ Hdata.
  rewrite (feed_stream_spec b pa sb stb [] frags); [|done..|by rewrite app_nil_l, Hfr].
  eexists. split; [reflexivity|]. unfold on_stream_remote_write_closed.
  unfold put_peer at 1. cbn [peers set_peers]. rewrite lookup_insert_eq.
  cbn [inbound_streams set_inbound]. rewrite lookup_insert_eq, app_nil_l, Hfr, <- Hdata.
  assert (is_u64 (Z.of_nat (length (IdentifyMessage.encode (identify_message (config a) obs listen))))) as Hu.
  { rewrite <- Hdata in Hlen. unfold encode_length_prefixed in Hlen. rewrite length_app in Hlen.
    unfold MAX_MESSAGE_SIZE in Hlen. u64_tac. }
  rewrite decode_encode_length_prefixed by done. cbn [mbind res_bind].
  pose proof (decode_merge (identify_message (config a) obs listen) IdentifyMessage_default []
    Hmsg ltac:(by split; simpl) (Forall_nil_2 _)) as Hd.
  rewrite merge_default_r in Hd. cbn [concat app] in Hd.
  change (IdentifyMessage.encode IdentifyMessage_default) with (@nil byte) in Hd. rewrite app_nil_r in Hd.
  rewrite Hd. rewrite id_put_peer_twice, delete_insert_eq. done.
Qed.

End identify.

(** ** Witnesses *)

Definition demo_config : IdentifyConfig :=
  {| cfg_protocol_version := "ipfs/0.1.0"%string; cfg_agent_version := "minip2p/0.1.0"%string;
     cfg_protocols := ["/ipfs/ping/1.0.0"%string]; cfg_public_key := [x08; x01] |}.

#[local] Abbreviation Pid := (PeerId PlainMultihash).

Definition demo_peer : Pid := {| multihash := demo_mh |}.
Definition demo_responder : IdentifyProtocol (P:=Pid) := identify_new demo_config.
Definition demo_initiator : IdentifyProtocol (P:=Pid) :=
  register_inbound_stream (identify_new demo_config) demo_peer 8.
Definition demo_data : list byte :=
  encode_length_prefixed (IdentifyMessage.encode (identify_message demo_config (Some demo_addr) [demo_addr])).

Lemma identify_bounded_witness :
  identify_reach demo_config demo_initiator ∧
  (identify_handle_input demo_initiator (StreamData demo_peer 8 [x00])).2 ≠ Panic.
Proof.
  assert (identify_reach demo_config demo_initiator) as Hr
    by apply (reach_input _ _ (RegisterInboundStream demo_peer 8)), reach_new.
  split; [exact Hr|]. exact (proj2 (identify_bounded demo_config demo_initiator Hr) _).
Defined.

Definition demo_stream_state : PeerIdentifyState :=
  {| outbound_stream := None; inbound_streams := {[8 := []]} |}.

Lemma identify_exchange_witness :
  ∃ b1, feed_stream demo_initiator demo_peer 8 [take 7 demo_data; drop 7 demo_data] = (b1, []) ∧
    on_stream_remote_write_closed b1 demo_peer 8 =
      Ok (push_event (put_peer demo_initiator demo_peer
            (set_inbound demo_stream_state (delete 8 (inbound_streams demo_stream_state))))
            (Received demo_peer
               (identify_message (config demo_responder) (Some demo_addr) [demo_addr])),
          [CloseStreamWrite demo_peer 8]).
Proof.
  eapply (identify_exchange demo_responder demo_initiator demo_peer demo_peer 4 8
    (Some demo_addr) [demo_addr] demo_stream_state _ demo_data).
  - unfold register_outbound_stream. reflexivity.
  - split; simpl; repeat constructor; vm_compute; done.
  - apply Nat.leb_le. vm_compute. reflexivity.
  - vm_compute. reflexivity.
  - vm_compute. reflexivity.
  - vm_compute. reflexivity.
Defined.
