(* ===== verification/RelayMessage.v ===== *)
(** * Circuit Relay v2 messages ([crates/relay/src/message.rs])

    [HopMessage] and [StopMessage] with their nested [Peer], [Reservation] and
    [Limit] messages, on top of the field readers of [Protobuf]. *)
From S2P Require Import Prelude Varint Protobuf.
From Stdlib Require Import ZArith Strings.Byte Strings.String.
From stdpp Require Import base numbers list strings.

#[local] Open Scope Z_scope.

(** ** Data *)

Inductive HopMessageType : Type := HopReserve | HopConnectType | HopStatus.
Inductive StopMessageType : Type := StopConnectType | StopStatus.

#[export] Instance HopMessageType_eq_dec : EqDecision HopMessageType.
Proof. solve_decision. Defined.
#[export] Instance StopMessageType_eq_dec : EqDecision StopMessageType.
Proof. solve_decision. Defined.

(** The discriminants, [kind as u64]. *)
Definition hop_type_u64 (t : HopMessageType) : Z :=
  match t with HopReserve => 0 | HopConnectType => 1 | HopStatus => 2 end.
Definition stop_type_u64 (t : StopMessageType) : Z :=
  match t with StopConnectType => 0 | StopStatus => 1 end.

Definition hop_type_from_u64 (value : Z) : option HopMessageType :=
  if value =? 0 then Some HopReserve
  else if value =? 1 then Some HopConnectType
  else if value =? 2 then Some HopStatus
  else None.
Definition stop_type_from_u64 (value : Z) : option StopMessageType :=
  if value =? 0 then Some StopConnectType
  else if value =? 1 then Some StopStatus
  else None.

Inductive Status : Type :=
  | Unused
  | StatusOk
  | ReservationRefused
  | ResourceLimitExceeded
  | PermissionDenied
  | ConnectionFailed
  | NoReservation
  | MalformedMessage
  | UnexpectedMessageStatus.

#[export] Instance Status_eq_dec : EqDecision Status.
Proof. solve_decision. Defined.

Definition status_u64 (s : Status) : Z :=
  match s with
  | Unused => 0
  | StatusOk => 100
  | ReservationRefused => 200
  | ResourceLimitExceeded => 201
  | PermissionDenied => 202
  | ConnectionFailed => 203
  | NoReservation => 204
  | MalformedMessage => 400
  | UnexpectedMessageStatus => 401
  end.

Definition status_from_u64 (value : Z) : Status :=
  if value =? 100 then StatusOk
  else if value =? 200 then ReservationRefused
  else if value =? 201 then ResourceLimitExceeded
  else if value =? 202 then PermissionDenied
  else if value =? 203 then ConnectionFailed
  else if value =? 204 then NoReservation
  else if value =? 400 then MalformedMessage
  else if value =? 401 then UnexpectedMessageStatus
  else Unused.

Record Peer : Type := { p_id : list byte; p_addrs : list (list byte) }.
Record Reservation : Type := {
  r_expire : option Z; r_addrs : list (list byte); r_voucher : option (list byte) }.
Record Limit : Type := { l_duration : option Z; l_data : option Z }.

Record HopMessage : Type := {
  hop_kind : HopMessageType;
  hop_peer : option Peer;
  hop_reservation : option Reservation;
  hop_limit : option Limit;
  hop_status : option Status;
}.
Record StopMessage : Type := {
  stop_kind : StopMessageType;
  stop_peer : option Peer;
  stop_limit : option Limit;
  stop_status : option Status;
}.

Inductive RelayMessageError : Type :=
  | Varint (e : VarintError)
  | FieldOverflow (offset : nat) (length : Z) (remaining : nat)
  | UnsupportedWireType (wire_type : Z) (offset : nat)
  | MissingType
  | InvalidMessageType (value : Z).

#[export] Instance RelayMessageError_proto : ProtoError RelayMessageError := {
  varint_error := Varint;
  field_overflow := FieldOverflow;
  unsupported_wire_type := UnsupportedWireType;
}.

(** ** Peer *)

Definition peer_encode (p : Peer) : list byte :=
  let out := [] in
  let out := if decide (p_id p = []) then out
             else encode_bytes_field out (tag_byte 1 WIRE_LEN) (p_id p) in
  fold_left (λ out addr, encode_bytes_field out (tag_byte 2 WIRE_LEN) addr) (p_addrs p) out.

Definition peer_step (input : list byte) (field wire_type : Z) (msg : Peer) (idx : nat)
    : res RelayMessageError (Peer * nat) :=
  if decide (field = 1 ∧ wire_type = WIRE_LEN) then
    '(v, idx) ← read_len_delimited input idx;
    Ok ({| p_id := v; p_addrs := p_addrs msg |}, idx)
  else if decide (field = 2 ∧ wire_type = WIRE_LEN) then
    '(v, idx) ← read_len_delimited input idx;
    Ok ({| p_id := p_id msg; p_addrs := p_addrs msg ++ [v] |}, idx)
  else skip input wire_type msg idx.

Definition peer_decode (input : list byte) : res RelayMessageError Peer :=
  while_tag (read_tag input) (peer_step input) (S (length input)) {| p_id := []; p_addrs := [] |} 0.

(** ** Reservation *)

Definition reservation_encode (r : Reservation) : list byte :=
  let out := [] in
  let out := match r_expire r with
             | Some expire => encode_varint_field out (tag_byte 1 WIRE_VARINT) expire
             | None => out end in
  let out := fold_left (λ out addr, encode_bytes_field out (tag_byte 2 WIRE_LEN) addr)
               (r_addrs r) out in
  match r_voucher r with
  | Some voucher => encode_bytes_field out (tag_byte 3 WIRE_LEN) voucher
  | None => out
  end.

Definition reservation_step (input : list byte) (field wire_type : Z) (msg : Reservation) (idx : nat)
    : res RelayMessageError (Reservation * nat) :=
  if decide (field = 1 ∧ wire_type = WIRE_VARINT) then
    '(v, idx) ← read_varint_value input idx;
    Ok ({| r_expire := Some v; r_addrs := r_addrs msg; r_voucher := r_voucher msg |}, idx)
  else if decide (field = 2 ∧ wire_type = WIRE_LEN) then
    '(v, idx) ← read_len_delimited input idx;
    Ok ({| r_expire := r_expire msg; r_addrs := r_addrs msg ++ [v]; r_voucher := r_voucher msg |}, idx)
  else if decide (field = 3 ∧ wire_type = WIRE_LEN) then
    '(v, idx) ← read_len_delimited input idx;
    Ok ({| r_expire := r_expire msg; r_addrs := r_addrs msg; r_voucher := Some v |}, idx)
  else skip input wire_type msg idx.

Definition reservation_decode (input : list byte) : res RelayMessageError Reservation :=
  while_tag (read_tag input) (reservation_step input) (S (length input))
    {| r_expire := None; r_addrs := []; r_voucher := None |} 0.

(** ** Limit *)

(** [value as u32]. *)
Definition as_u32 (v : Z) : Z := v mod 2 ^ 32.

Definition limit_encode (l : Limit) : list byte :=
  let out := [] in
  let out := match l_duration l with
             | Some duration => encode_varint_field out (tag_byte 1 WIRE_VARINT) duration
             | None => out end in
  match l_data l with
  | Some data => encode_varint_field out (tag_byte 2 WIRE_VARINT) data
  | None => out
  end.

Definition limit_step (input : list byte) (field wire_type : Z) (msg : Limit) (idx : nat)
    : res RelayMessageError (Limit * nat) :=
  if decide (field = 1 ∧ wire_type = WIRE_VARINT) then
    '(v, idx) ← read_varint_value input idx;
    Ok ({| l_duration := Some (as_u32 v); l_data := l_data msg |}, idx)
  else if decide (field = 2 ∧ wire_type = WIRE_VARINT) then
    '(v, idx) ← read_varint_value input idx;
    Ok ({| l_duration := l_duration msg; l_data := Some v |}, idx)
  else skip input wire_type msg idx.

Definition limit_decode (input : list byte) : res RelayMessageError Limit :=
  while_tag (read_tag input) (limit_step input) (S (length input))
    {| l_duration := None; l_data := None |} 0.

(** ** HopMessage *)

Definition hop_encode (m : HopMessage) : list byte :=
  let out := [] in
  let out := encode_varint_field out (tag_byte 1 WIRE_VARINT) (hop_type_u64 (hop_kind m)) in
  let out := match hop_peer m with
             | Some peer => encode_bytes_field out (tag_byte 2 WIRE_LEN) (peer_encode peer)
             | None => out end in
  let out := match hop_reservation m with
             | Some r => encode_bytes_field out (tag_byte 3 WIRE_LEN) (reservation_encode r)
             | None => out end in
  let out := match hop_limit m with
             | Some l => encode_bytes_field out (tag_byte 4 WIRE_LEN) (limit_encode l)
             | None => out end in
  match hop_status m with
  | Some s => encode_varint_field out (tag_byte 5 WIRE_VARINT) (status_u64 s)
  | None => out
  end.

(** The decoder's local variables. *)
Record HopParts : Type := {
  hp_kind : option HopMessageType;
  hp_peer : option Peer;
  hp_reservation : option Reservation;
  hp_limit : option Limit;
  hp_status : option Status;
}.

Definition hop_step (input : list byte) (field wire_type : Z) (msg : HopParts) (idx : nat)
    : res RelayMessageError (HopParts * nat) :=
  if decide (field = 1 ∧ wire_type = WIRE_VARINT) then
    '(value, idx) ← read_varint_value input idx;
    kind ← ok_or (hop_type_from_u64 value) (InvalidMessageType value);
    Ok ({| hp_kind := Some kind; hp_peer := hp_peer msg; hp_reservation := hp_reservation msg;
           hp_limit := hp_limit msg; hp_status := hp_status msg |}, idx)
  else if decide (field = 2 ∧ wire_type = WIRE_LEN) then
    '(body, idx) ← read_len_delimited input idx;
    peer ← peer_decode body;
    Ok ({| hp_kind := hp_kind msg; hp_peer := Some peer; hp_reservation := hp_reservation msg;
           hp_limit := hp_limit msg; hp_status := hp_status msg |}, idx)
  else if decide (field = 3 ∧ wire_type = WIRE_LEN) then
    '(body, idx) ← read_len_delimited input idx;
    reservation ← reservation_decode body;
    Ok ({| hp_kind := hp_kind msg; hp_peer := hp_peer msg; hp_reservation := Some reservation;
           hp_limit := hp_limit msg; hp_status := hp_status msg |}, idx)
  else if decide (field = 4 ∧ wire_type = WIRE_LEN) then
    '(body, idx) ← read_len_delimited input idx;
    limit ← limit_decode body;
    Ok ({| hp_kind := hp_kind msg; hp_peer := hp_peer msg; hp_reservation := hp_reservation msg;
           hp_limit := Some limit; hp_status := hp_status msg |}, idx)
  else if decide (field = 5 ∧ wire_type = WIRE_VARINT) then
    '(value, idx) ← read_varint_value input idx;
    Ok ({| hp_kind := hp_kind msg; hp_peer := hp_peer msg; hp_reservation := hp_reservation msg;
           hp_limit := hp_limit msg; hp_status := Some (status_from_u64 value) |}, idx)
  else skip input wire_type msg idx.

Definition hop_decode (input : list byte) : res RelayMessageError HopMessage :=
  parts ← while_tag (read_tag input) (hop_step input) (S (length input))
            {| hp_kind := None; hp_peer := None; hp_reservation := None; hp_limit := None;
               hp_status := None |} 0;
  kind ← ok_or (hp_kind parts) MissingType;
  Ok {| hop_kind := kind; hop_peer := hp_peer parts; hop_reservation := hp_reservation parts;
        hop_limit := hp_limit parts; hop_status := hp_status parts |}.

(** ** StopMessage *)

Definition stop_encode (m : StopMessage) : list byte :=
  let out := [] in
  let out := encode_varint_field out (tag_byte 1 WIRE_VARINT) (stop_type_u64 (stop_kind m)) in
  let out := match stop_peer m with
             | Some peer => encode_bytes_field out (tag_byte 2 WIRE_LEN) (peer_encode peer)
             | None => out end in
  let out := match stop_limit m with
             | Some l => encode_bytes_field out (tag_byte 3 WIRE_LEN) (limit_encode l)
             | None => out end in
  match stop_status m with
  | Some s => encode_varint_field out (tag_byte 4 WIRE_VARINT) (status_u64 s)
  | None => out
  end.

Record StopParts : Type := {
  sp_kind : option StopMessageType;
  sp_peer : option Peer;
  sp_limit : option Limit;
  sp_status : option Status;
}.

Definition stop_step (input : list byte) (field wire_type : Z) (msg : StopParts) (idx : nat)
    : res RelayMessageError (StopParts * nat) :=
  if decide (field = 1 ∧ wire_type = WIRE_VARINT) then
    '(value, idx) ← read_varint_value input idx;
    kind ← ok_or (stop_type_from_u64 value) (InvalidMessageType value);
    Ok ({| sp_kind := Some kind; sp_peer := sp_peer msg; sp_limit := sp_limit msg;
           sp_status := sp_status msg |}, idx)
  else if decide (field = 2 ∧ wire_type = WIRE_LEN) then
    '(body, idx) ← read_len_delimited input idx;
    peer ← peer_decode body;
    Ok ({| sp_kind := sp_kind msg; sp_peer := Some peer; sp_limit := sp_limit msg;
           sp_status := sp_status msg |}, idx)
  else if decide (field = 3 ∧ wire_type = WIRE_LEN) then
    '(body, idx) ← read_len_delimited input idx;
    limit ← limit_decode body;
    Ok ({| sp_kind := sp_kind msg; sp_peer := sp_peer msg; sp_limit := Some limit;
           sp_status := sp_status msg |}, idx)
  else if decide (field = 4 ∧ wire_type = WIRE_VARINT) then
    '(value, idx) ← read_varint_value input idx;
    Ok ({| sp_kind := sp_kind msg; sp_peer := sp_peer msg; sp_limit := sp_limit msg;
           sp_status := Some (status_from_u64 value) |}, idx)
  else skip input wire_type msg idx.

Definition stop_decode (input : list byte) : res RelayMessageError StopMessage :=
  parts ← while_tag (read_tag input) (stop_step input) (S (length input))
            {| sp_kind := None; sp_peer := None; sp_limit := None; sp_status := None |} 0;
  kind ← ok_or (sp_kind parts) MissingType;
  Ok {| stop_kind := kind; stop_peer := sp_peer parts; stop_limit := sp_limit parts;
        stop_status := sp_status parts |}.

(** ** Lemmas: what each field does *)

(** *** Peer *)

Definition peer_ok (p : Peer) : Prop := bytes_ok (p_id p) ∧ Forall bytes_ok (p_addrs p).

Definition peer_set_id (v : list byte) (m : Peer) : Peer := {| p_id := v; p_addrs := p_addrs m |}.
Definition peer_push (v : list byte) (m : Peer) : Peer :=
  {| p_id := p_id m; p_addrs := p_addrs m ++ [v] |}.

Definition peer_fields (p : Peer) : list (list byte * (Peer → Peer)) :=
  (if decide (p_id p = []) then [] else [(bytes_field 1 (p_id p), peer_set_id (p_id p))])
  ++ ((λ a, (bytes_field 2 a, peer_push a)) <$> p_addrs p).

Lemma peer_encode_fields p : peer_encode p = concat (peer_fields p).*1.
Proof.
  unfold peer_encode, peer_fields. cbv zeta.
  rewrite (encode_bytes_fields_eq id 2) by done. unfold id. rewrite list_fmap_id.
  rewrite fmap_app, concat_app, <- list_fmap_compose.
  case_decide; [done|]. rewrite encode_bytes_field_eq by done. cbn [fmap list_fmap concat fst].
  by rewrite app_nil_l, app_nil_r.
Qed.

Lemma peer_fields_consume p :
  peer_ok p → Forall (λ xf, consumes read_tag peer_step xf.1 xf.2) (peer_fields p).
Proof.
  intros [H1 H2]. apply Forall_app. split.
  - case_decide; [constructor|]. apply Forall_singleton. cbn [fst snd]. by len_field peer_step.
  - apply Forall_fmap. eapply Forall_impl; [exact H2|]. intros a Ha. unfold compose. cbn [fst snd].
    by len_field peer_step.
Qed.

Lemma foldl_peer_push l m :
  foldl (λ m (f : Peer → Peer), f m) m (peer_push <$> l)
    = {| p_id := p_id m; p_addrs := p_addrs m ++ l |}.
Proof.
  revert m. induction l as [|a l IH]; intros m; [simpl; rewrite app_nil_r; by destruct m|].
  cbn [fmap list_fmap foldl]. rewrite IH. simpl. by rewrite <- app_assoc.
Qed.

Lemma peer_decode_encode p : peer_ok p → peer_decode (peer_encode p) = Ok p.
Proof.
  intros Hp. rewrite peer_encode_fields. unfold peer_decode.
  rewrite while_tag_pairs by by apply peer_fields_consume. f_equal.
  unfold peer_fields. rewrite fmap_app, foldl_app, <- list_fmap_compose.
  change (snd ∘ λ a, (bytes_field 2 a, peer_push a)) with peer_push. rewrite foldl_peer_push.
  destruct p as [i l]. simpl. case_decide; by subst.
Qed.

(** *** Reservation *)

Definition reservation_ok (r : Reservation) : Prop :=
  from_option is_u64 True (r_expire r) ∧ Forall bytes_ok (r_addrs r) ∧
  from_option bytes_ok True (r_voucher r).

Definition res_set_expire (v : Z) (m : Reservation) : Reservation :=
  {| r_expire := Some v; r_addrs := r_addrs m; r_voucher := r_voucher m |}.
Definition res_push (v : list byte) (m : Reservation) : Reservation :=
  {| r_expire := r_expire m; r_addrs := r_addrs m ++ [v]; r_voucher := r_voucher m |}.
Definition res_set_voucher (v : list byte) (m : Reservation) : Reservation :=
  {| r_expire := r_expire m; r_addrs := r_addrs m; r_voucher := Some v |}.

Definition reservation_fields (r : Reservation) : list (list byte * (Reservation → Reservation)) :=
  opt_list (λ v, (varint_field 1 v, res_set_expire v)) (r_expire r)
  ++ ((λ a, (bytes_field 2 a, res_push a)) <$> r_addrs r)
  ++ opt_list (λ v, (bytes_field 3 v, res_set_voucher v)) (r_voucher r).

Lemma reservation_encode_fields r : reservation_encode r = concat (reservation_fields r).*1.
Proof.
  unfold reservation_encode, reservation_fields. cbv zeta.
  rewrite (encode_opt_varint id 1), (encode_bytes_fields_eq id 2), (encode_opt_field id 3) by done.
  rewrite list_fmap_id, !fmap_app, !concat_app, <- list_fmap_compose, !fst_opt_list.
  by rewrite <- !app_assoc.
Qed.

Lemma reservation_fields_consume r :
  reservation_ok r → Forall (λ xf, consumes read_tag reservation_step xf.1 xf.2) (reservation_fields r).
Proof.
  intros (H1 & H2 & H3). unfold reservation_fields. rewrite !Forall_app. split_and!.
  - destruct (r_expire r); [|constructor]. apply Forall_singleton. cbn [fst snd].
    by varint_field reservation_step.
  - apply Forall_fmap. eapply Forall_impl; [exact H2|]. intros a Ha. unfold compose. cbn [fst snd].
    by len_field reservation_step.
  - destruct (r_voucher r); [|constructor]. apply Forall_singleton. cbn [fst snd].
    by len_field reservation_step.
Qed.

Lemma foldl_res_push l m :
  foldl (λ m (f : Reservation → Reservation), f m) m (res_push <$> l)
    = {| r_expire := r_expire m; r_addrs := r_addrs m ++ l; r_voucher := r_voucher m |}.
Proof.
  revert m. induction l as [|a l IH]; intros m; [simpl; rewrite app_nil_r; by destruct m|].
  cbn [fmap list_fmap foldl]. rewrite IH. simpl. by rewrite <- app_assoc.
Qed.

Lemma reservation_decode_encode r :
  reservation_ok r → reservation_decode (reservation_encode r) = Ok r.
Proof.
  intros Hr. rewrite reservation_encode_fields. unfold reservation_decode.
  rewrite while_tag_pairs by by apply reservation_fields_consume. f_equal.
  unfold reservation_fields. rewrite !fmap_app, !foldl_app, <- list_fmap_compose.
  change (snd ∘ λ a, (bytes_field 2 a, res_push a)) with res_push. rewrite foldl_res_push.
  by destruct r as [[] ? []].
Qed.

(** *** Limit *)

Definition limit_ok (l : Limit) : Prop :=
  from_option (λ d, 0 <= d < 2 ^ 32) True (l_duration l) ∧ from_option is_u64 True (l_data l).

Definition lim_set_duration (v : Z) (m : Limit) : Limit :=
  {| l_duration := Some v; l_data := l_data m |}.
Definition lim_set_data (v : Z) (m : Limit) : Limit :=
  {| l_duration := l_duration m; l_data := Some v |}.

Definition limit_fields (l : Limit) : list (list byte * (Limit → Limit)) :=
  opt_list (λ v, (varint_field 1 v, lim_set_duration v)) (l_duration l)
  ++ opt_list (λ v, (varint_field 2 v, lim_set_data v)) (l_data l).

Lemma limit_encode_fields l : limit_encode l = concat (limit_fields l).*1.
Proof.
  unfold limit_encode, limit_fields. cbv zeta.
  rewrite (encode_opt_varint id 1), (encode_opt_varint id 2) by done.
  by rewrite fmap_app, concat_app, !fst_opt_list.
Qed.

Lemma limit_decode_encode l : limit_ok l → limit_decode (limit_encode l) = Ok l.
Proof.
  intros [H1 H2]. rewrite limit_encode_fields. unfold limit_decode.
  rewrite while_tag_pairs; [by destruct l as [[] []]|].
  unfold limit_fields. rewrite Forall_app. split.
  - destruct (l_duration l) as [d|]; [|constructor]. cbn [from_option] in H1.
    assert (is_u64 d) by u64_tac. apply Forall_singleton. cbn [fst snd].
    varint_field limit_step. unfold as_u32. by rewrite Z.mod_small.
  - destruct (l_data l); [|constructor]. apply Forall_singleton. cbn [fst snd].
    by varint_field limit_step.
Qed.

(** *** HopMessage and StopMessage *)

Lemma hop_type_roundtrip t : hop_type_from_u64 (hop_type_u64 t) = Some t.
Proof. by destruct t. Qed.
Lemma stop_type_roundtrip t : stop_type_from_u64 (stop_type_u64 t) = Some t.
Proof. by destruct t. Qed.
Lemma status_roundtrip s : status_from_u64 (status_u64 s) = s.
Proof. by destruct s. Qed.
Lemma status_is_u64 s : is_u64 (status_u64 s).
Proof. destruct s; split; vm_compute; done. Qed.
Lemma hop_type_is_u64 t : is_u64 (hop_type_u64 t).
Proof. destruct t; split; vm_compute; done. Qed.
Lemma stop_type_is_u64 t : is_u64 (stop_type_u64 t).
Proof. destruct t; split; vm_compute; done. Qed.

(** Nested messages fit the address space too. *)
Definition nested_ok {A} (ok : A → Prop) (enc : A → list byte) (o : option A) : Prop :=
  from_option (λ a, ok a ∧ bytes_ok (enc a)) True o.

Definition hop_ok (m : HopMessage) : Prop :=
  nested_ok peer_ok peer_encode (hop_peer m) ∧
  nested_ok reservation_ok reservation_encode (hop_reservation m) ∧
  nested_ok limit_ok limit_encode (hop_limit m).
Definition stop_ok (m : StopMessage) : Prop :=
  nested_ok peer_ok peer_encode (stop_peer m) ∧ nested_ok limit_ok limit_encode (stop_limit m).

Definition hop_fields (m : HopMessage) : list (list byte * (HopParts → HopParts)) :=
  [(varint_field 1 (hop_type_u64 (hop_kind m)), λ h,
    {| hp_kind := Some (hop_kind m); hp_peer := hp_peer h; hp_reservation := hp_reservation h;
       hp_limit := hp_limit h; hp_status := hp_status h |})]
  ++ opt_list (λ p, (bytes_field 2 (peer_encode p), λ h,
    {| hp_kind := hp_kind h; hp_peer := Some p; hp_reservation := hp_reservation h;
       hp_limit := hp_limit h; hp_status := hp_status h |})) (hop_peer m)
  ++ opt_list (λ r, (bytes_field 3 (reservation_encode r), λ h,
    {| hp_kind := hp_kind h; hp_peer := hp_peer h; hp_reservation := Some r;
       hp_limit := hp_limit h; hp_status := hp_status h |})) (hop_reservation m)
  ++ opt_list (λ l, (bytes_field 4 (limit_encode l), λ h,
    {| hp_kind := hp_kind h; hp_peer := hp_peer h; hp_reservation := hp_reservation h;
       hp_limit := Some l; hp_status := hp_status h |})) (hop_limit m)
  ++ opt_list (λ s, (varint_field 5 (status_u64 s), λ h,
    {| hp_kind := hp_kind h; hp_peer := hp_peer h; hp_reservation := hp_reservation h;
       hp_limit := hp_limit h; hp_status := Some s |})) (hop_status m).

Lemma hop_encode_fields m : hop_encode m = concat (hop_fields m).*1.
Proof.
  unfold hop_encode, hop_fields. cbv zeta.
  rewrite encode_varint_field_eq, (encode_opt_field peer_encode 2),
    (encode_opt_field reservation_encode 3), (encode_opt_field limit_encode 4),
    (encode_opt_varint status_u64 5) by done.
  rewrite !fmap_app, !concat_app, !fst_opt_list. cbn [fmap list_fmap fst concat].
  by rewrite app_nil_l, app_nil_r, <- !app_assoc.
Qed.

Lemma hop_fields_consume m :
  hop_ok m → Forall (λ xf, consumes read_tag hop_step xf.1 xf.2) (hop_fields m).
Proof.
  intros (H1 & H2 & H3). unfold hop_fields. rewrite !Forall_app. split_and!.
  - pose proof (hop_type_is_u64 (hop_kind m)). apply Forall_singleton. cbn [fst snd].
    varint_field hop_step. by rewrite hop_type_roundtrip.
  - destruct (hop_peer m); [|constructor]. destruct H1 as [Hp Hb].
    apply Forall_singleton. cbn [fst snd]. len_field hop_step. by rewrite peer_decode_encode.
  - destruct (hop_reservation m); [|constructor]. destruct H2 as [Hp Hb].
    apply Forall_singleton. cbn [fst snd]. len_field hop_step. by rewrite reservation_decode_encode.
  - destruct (hop_limit m); [|constructor]. destruct H3 as [Hp Hb].
    apply Forall_singleton. cbn [fst snd]. len_field hop_step. by rewrite limit_decode_encode.
  - destruct (hop_status m) as [s|]; [|constructor]. pose proof (status_is_u64 s).
    apply Forall_singleton. cbn [fst snd]. varint_field hop_step. by rewrite status_roundtrip.
Qed.

Lemma hop_decode_encode m : hop_ok m → hop_decode (hop_encode m) = Ok m.
Proof.
  intros Hm. rewrite hop_encode_fields. unfold hop_decode.
  rewrite while_tag_pairs by by apply hop_fields_consume. by destruct m as [? [] [] [] []].
Qed.

Definition stop_fields (m : StopMessage) : list (list byte * (StopParts → StopParts)) :=
  [(varint_field 1 (stop_type_u64 (stop_kind m)), λ h,
    {| sp_kind := Some (stop_kind m); sp_peer := sp_peer h; sp_limit := sp_limit h;
       sp_status := sp_status h |})]
  ++ opt_list (λ p, (bytes_field 2 (peer_encode p), λ h,
    {| sp_kind := sp_kind h; sp_peer := Some p; sp_limit := sp_limit h;
       sp_status := sp_status h |})) (stop_peer m)
  ++ opt_list (λ l, (bytes_field 3 (limit_encode l), λ h,
    {| sp_kind := sp_kind h; sp_peer := sp_peer h; sp_limit := Some l;
       sp_status := sp_status h |})) (stop_limit m)
  ++ opt_list (λ s, (varint_field 4 (status_u64 s), λ h,
    {| sp_kind := sp_kind h; sp_peer := sp_peer h; sp_limit := sp_limit h;
       sp_status := Some s |})) (stop_status m).

Lemma stop_encode_fields m : stop_encode m = concat (stop_fields m).*1.
Proof.
  unfold stop_encode, stop_fields. cbv zeta.
  rewrite encode_varint_field_eq, (encode_opt_field peer_encode 2),
    (encode_opt_field limit_encode 3), (encode_opt_varint status_u64 4) by done.
  rewrite !fmap_app, !concat_app, !fst_opt_list. cbn [fmap list_fmap fst concat].
  by rewrite app_nil_l, app_nil_r, <- !app_assoc.
Qed.

Lemma stop_fields_consume m :
  stop_ok m → Forall (λ xf, consumes read_tag stop_step xf.1 xf.2) (stop_fields m).
Proof.
  intros (H1 & H2). unfold stop_fields. rewrite !Forall_app. split_and!.
  - pose proof (stop_type_is_u64 (stop_kind m)). apply Forall_singleton. cbn [fst snd].
    varint_field stop_step. by rewrite stop_type_roundtrip.
  - destruct (stop_peer m); [|constructor]. destruct H1 as [Hp Hb].
    apply Forall_singleton. cbn [fst snd]. len_field stop_step. by rewrite peer_decode_encode.
  - destruct (stop_limit m); [|constructor]. destruct H2 as [Hp Hb].
    apply Forall_singleton. cbn [fst snd]. len_field stop_step. by rewrite limit_decode_encode.
  - destruct (stop_status m) as [s|]; [|constructor]. pose proof (status_is_u64 s).
    apply Forall_singleton. cbn [fst snd]. varint_field stop_step. by rewrite status_roundtrip.
Qed.

Lemma stop_decode_encode m : stop_ok m → stop_decode (stop_encode m) = Ok m.
Proof.
  intros Hm. rewrite stop_encode_fields. unfold stop_decode.
  rewrite while_tag_pairs by by apply stop_fields_consume. by destruct m as [? [] [] []].
Qed.

(** ** The decoders are total *)

Lemma peer_decode_total input : peer_decode input ≠ Panic.
Proof. apply while_read_total. unfold peer_step. step_total. Qed.
Lemma reservation_decode_total input : reservation_decode input ≠ Panic.
Proof. apply while_read_total. unfold reservation_step. step_total. Qed.
Lemma limit_decode_total input : limit_decode input ≠ Panic.
Proof. apply while_read_total. unfold limit_step. step_total. Qed.

#[local] Hint Resolve peer_decode_total reservation_decode_total limit_decode_total
  ok_or_no_panic : rust.

Lemma hop_decode_total input : hop_decode input ≠ Panic.
Proof.
  unfold hop_decode. apply bind_no_panic.
  - apply while_read_total. unfold hop_step. step_total; apply nested_pos; auto with rust.
  - intros parts _. by destruct (hp_kind parts).
Qed.

Lemma stop_decode_total input : stop_decode input ≠ Panic.
Proof.
  unfold stop_decode. apply bind_no_panic.
  - apply while_read_total. unfold stop_step. step_total; apply nested_pos; auto with rust.
  - intros parts _. by destruct (sp_kind parts).
Qed.

(** ** Properties *)

(** Relay messages round trip: every HOP and every STOP message, nested peer,
    reservation and limit included, decodes from its encoding to itself. *)
Theorem relay_message_roundtrip h s :
  hop_ok h → stop_ok s → hop_decode (hop_encode h) = Ok h ∧ stop_decode (stop_encode s) = Ok s.
Proof. intros. split; [by apply hop_decode_encode|by apply stop_decode_encode]. Qed.

Definition demo_hop : HopMessage :=
  {| hop_kind := HopStatus; hop_peer := None;
     hop_reservation := Some {| r_expire := Some 2000000000; r_addrs := [[x04; x01]]; r_voucher := None |};
     hop_limit := Some {| l_duration := Some 900; l_data := None |}; hop_status := Some StatusOk |}.
Definition demo_stop : StopMessage :=
  {| stop_kind := StopConnectType; stop_peer := Some {| p_id := [x00; x01]; p_addrs := [] |};
     stop_limit := None; stop_status := None |}.

Lemma relay_message_roundtrip_witness :
  hop_decode (hop_encode demo_hop) = Ok demo_hop ∧ stop_decode (stop_encode demo_stop) = Ok demo_stop.
Proof.
  apply (relay_message_roundtrip demo_hop demo_stop);
    repeat split; repeat constructor; vm_compute; done.
Defined.

(** A limit of 2^32 seconds decodes as 0, which the format defines as unlimited: the
    decoder truncates the varint to [u32]. *)
Example limit_duration_truncates :
  limit_decode (varint_field 1 (2 ^ 32)) = Ok {| l_duration := Some 0; l_data := None |}.
Proof. vm_compute. reflexivity. Qed.
