(* ===== verification/Relay.v ===== *)
(** * Circuit Relay v2 flows ([crates/relay/src/lib.rs])

    The three client-side state machines: reserving a slot on a relay
    ([HopReservation]), asking a relay for a circuit ([HopConnect]) and answering a
    relayed connection request ([StopResponder]).  [overflow_checks] says whether the
    crate is built with overflow checks, which [decode_frame] depends on. *)
From S2P Require Import Prelude SansIo Varint Protobuf Framing RelayMessage.
From Stdlib Require Import ZArith Strings.Byte Strings.String.
From stdpp Require Import base numbers list strings.

#[local] Open Scope Z_scope.

Definition HOP_PROTOCOL_ID : string := "/libp2p/circuit/relay/0.2.0/hop"%string.
Definition STOP_PROTOCOL_ID : string := "/libp2p/circuit/relay/0.2.0/stop"%string.
Definition MAX_MESSAGE_SIZE : Z := 8192.

Inductive RelayError : Type :=
  | MessageTooLarge (len : nat)
  | Malformed (e : RelayMessageError)
  | UnexpectedMessage (reason : string).

Definition status_as_name (s : Status) : string :=
  match s with
  | Unused => "UNUSED"
  | StatusOk => "OK"
  | ReservationRefused => "RESERVATION_REFUSED"
  | ResourceLimitExceeded => "RESOURCE_LIMIT_EXCEEDED"
  | PermissionDenied => "PERMISSION_DENIED"
  | ConnectionFailed => "CONNECTION_FAILED"
  | NoReservation => "NO_RESERVATION"
  | MalformedMessage => "MALFORMED_MESSAGE"
  | UnexpectedMessageStatus => "UNEXPECTED_MESSAGE"
  end%string.

Definition describe_status (s : Status) : string :=
  match s with
  | StatusOk => "OK"
  | other => status_as_name other ++ " (" ++ to_string (status_u64 other) ++ ")"
  end%string.

(** [{:?}] of the message types. *)
Definition hop_type_debug (t : HopMessageType) : string :=
  match t with HopReserve => "Reserve" | HopConnectType => "Connect" | HopStatus => "Status" end%string.
Definition stop_type_debug (t : StopMessageType) : string :=
  match t with StopConnectType => "Connect" | StopStatus => "Status" end%string.

Definition unexpected_hop_reason (actual : HopMessageType) (expected : string) : string :=
  ("expected HOP message of type " ++ expected ++ " but got " ++ hop_type_debug actual)%string.
Definition unexpected_stop_reason (actual : StopMessageType) (expected : string) : string :=
  ("expected STOP message of type " ++ expected ++ " but got " ++ stop_type_debug actual)%string.

Definition enforce_max_size (buf : list byte) : res RelayError unit :=
  if MAX_MESSAGE_SIZE <? Z.of_nat (length buf) then Err (MessageTooLarge (length buf)) else Ok ().

Inductive FlowState : Type := Pending | AwaitingResponse | Done.
#[export] Instance FlowState_eq_dec : EqDecision FlowState.
Proof. solve_decision. Defined.

Section relay.
Context (overflow_checks : bool).

(** The common first half of the three [try_decode_*]: size check, framing, decoding,
    and draining the frame.  [None] means that more bytes are needed. *)
Definition read_message {M} (decode : list byte → res RelayMessageError M) (recv_buf : list byte)
    : res RelayError (option (M * list byte)) :=
  _ ← enforce_max_size recv_buf;
  match decode_frame overflow_checks recv_buf with
  | Ok (Complete payload consumed) =>
      msg ← map_err Malformed (decode payload);
      Ok (Some (msg, drop (Z.to_nat consumed) recv_buf))
  | Ok Incomplete => Ok None
  | Ok (FrameError e) => Err (Malformed (Varint e))
  | _ => Panic
  end.

(** ** HopReservation *)

Inductive ReservationOutcome : Type :=
  | Accepted (reservation : option Reservation) (limit : option Limit)
  | ReservationRefusedWith (status : Status) (reason : string).

Inductive HopReservationInput : Type :=
  | HrFlush
  | HrData (data : list byte)
  | HrRemoteWriteClosed.

Inductive HopReservationOutput : Type :=
  | HrOutbound (data : list byte)
  | HrOutcome (o : ReservationOutcome).

Record HopReservation : Type := {
  hr_outbound : list byte;
  hr_recv_buf : list byte;
  hr_state : FlowState;
  hr_outcome : option ReservationOutcome;
  hr_emitted : bool;
}.

Definition hr_set_state (m : HopReservation) (s : FlowState) : HopReservation :=
  {| hr_outbound := hr_outbound m; hr_recv_buf := hr_recv_buf m; hr_state := s;
     hr_outcome := hr_outcome m; hr_emitted := hr_emitted m |}.
Definition hr_set_buf (m : HopReservation) (b : list byte) : HopReservation :=
  {| hr_outbound := hr_outbound m; hr_recv_buf := b; hr_state := hr_state m;
     hr_outcome := hr_outcome m; hr_emitted := hr_emitted m |}.

Definition reserve_request : HopMessage :=
  {| hop_kind := HopReserve; hop_peer := None; hop_reservation := None; hop_limit := None;
     hop_status := None |}.

Definition hr_new : HopReservation :=
  {| hr_outbound := encode_frame (hop_encode reserve_request); hr_recv_buf := [];
     hr_state := Pending; hr_outcome := None; hr_emitted := false |}.

Definition hr_take_outbound (m : HopReservation) : list byte * HopReservation :=
  let m := if decide (hr_state m = Pending) then hr_set_state m AwaitingResponse else m in
  (hr_outbound m,
   {| hr_outbound := []; hr_recv_buf := hr_recv_buf m; hr_state := hr_state m;
      hr_outcome := hr_outcome m; hr_emitted := hr_emitted m |}).

(** The outcome of a STATUS response. *)
Definition reservation_outcome (msg : HopMessage) : ReservationOutcome :=
  let status := default Unused (hop_status msg) in
  if decide (status = StatusOk) then Accepted (hop_reservation msg) (hop_limit msg)
  else ReservationRefusedWith status (describe_status status).

Definition hr_try_decode_response (m : HopReservation) : HopReservation * res RelayError unit :=
  if decide (hr_state m = Done) then (m, Ok ())
  else
    match read_message hop_decode (hr_recv_buf m) with
    | Err e => (hr_set_state m Done, Err e)
    | Panic => (m, Panic)
    | Ok None => (m, Ok ())
    | Ok (Some (msg, rest)) =>
        let m := hr_set_state (hr_set_buf m rest) Done in
        if decide (hop_kind msg ≠ HopStatus)
        then (m, Err (UnexpectedMessage (unexpected_hop_reason (hop_kind msg) "STATUS")))
        else
          ({| hr_outbound := hr_outbound m; hr_recv_buf := hr_recv_buf m; hr_state := hr_state m;
              hr_outcome := Some (reservation_outcome msg); hr_emitted := false |}, Ok ())
    end.

Definition hr_on_data (m : HopReservation) (data : list byte) : HopReservation * res RelayError unit :=
  if decide (hr_state m = Done) then (m, Ok ())
  else hr_try_decode_response (hr_set_buf m (hr_recv_buf m ++ data)).

(** The end of the remote's data is not an error by itself: what is buffered is looked at. *)
Definition hr_on_remote_write_closed (m : HopReservation) : HopReservation * res RelayError unit :=
  hr_try_decode_response m.

Definition hr_handle_input (m : HopReservation) (input : HopReservationInput)
    : HopReservation * res RelayError unit :=
  match input with
  | HrFlush => (m, Ok ())
  | HrData data => hr_on_data m data
  | HrRemoteWriteClosed => hr_on_remote_write_closed m
  end.

Definition hr_poll_output (m : HopReservation) : option HopReservationOutput * HopReservation :=
  let '(outbound, m) := hr_take_outbound m in
  if decide (outbound ≠ []) then (Some (HrOutbound outbound), m)
  else
    match hr_emitted m, hr_outcome m with
    | false, Some outcome =>
        (Some (HrOutcome outcome),
         {| hr_outbound := hr_outbound m; hr_recv_buf := hr_recv_buf m; hr_state := hr_state m;
            hr_outcome := hr_outcome m; hr_emitted := true |})
    | _, _ => (None, m)
    end.

Definition hr_is_idle (m : HopReservation) : bool :=
  bool_decide (hr_outbound m = []) && (hr_emitted m || bool_decide (hr_outcome m = None)).

(** ** HopConnect *)

Inductive ConnectOutcome : Type :=
  | Bridged (limit : option Limit)
  | ConnectRefused (status : Status) (reason : string).

Inductive HopConnectInput : Type :=
  | HcFlush
  | HcData (data : list byte)
  | HcRemoteWriteClosed.

Inductive HopConnectOutput : Type :=
  | HcOutbound (data : list byte)
  | HcOutcome (o : ConnectOutcome)
  | HcBridgeData (data : list byte).

Record HopConnect : Type := {
  hc_outbound : list byte;
  hc_recv_buf : list byte;
  hc_state : FlowState;
  hc_outcome : option ConnectOutcome;
  hc_emitted : bool;
  hc_bridge : list byte;
}.

Definition hc_set_state (m : HopConnect) (s : FlowState) : HopConnect :=
  {| hc_outbound := hc_outbound m; hc_recv_buf := hc_recv_buf m; hc_state := s;
     hc_outcome := hc_outcome m; hc_emitted := hc_emitted m; hc_bridge := hc_bridge m |}.
Definition hc_set_buf (m : HopConnect) (b : list byte) : HopConnect :=
  {| hc_outbound := hc_outbound m; hc_recv_buf := b; hc_state := hc_state m;
     hc_outcome := hc_outcome m; hc_emitted := hc_emitted m; hc_bridge := hc_bridge m |}.
Definition hc_set_bridge (m : HopConnect) (b : list byte) : HopConnect :=
  {| hc_outbound := hc_outbound m; hc_recv_buf := hc_recv_buf m; hc_state := hc_state m;
     hc_outcome := hc_outcome m; hc_emitted := hc_emitted m; hc_bridge := b |}.
Definition hc_set_outcome (m : HopConnect) (o : ConnectOutcome) : HopConnect :=
  {| hc_outbound := hc_outbound m; hc_recv_buf := hc_recv_buf m; hc_state := hc_state m;
     hc_outcome := Some o; hc_emitted := false; hc_bridge := hc_bridge m |}.

Definition connect_request (target_peer_id : list byte) : HopMessage :=
  {| hop_kind := HopConnectType; hop_peer := Some {| p_id := target_peer_id; p_addrs := [] |};
     hop_reservation := None; hop_limit := None; hop_status := None |}.

Definition hc_new (target_peer_id : list byte) : HopConnect :=
  {| hc_outbound := encode_frame (hop_encode (connect_request target_peer_id)); hc_recv_buf := [];
     hc_state := Pending; hc_outcome := None; hc_emitted := false; hc_bridge := [] |}.

Definition hc_take_outbound (m : HopConnect) : list byte * HopConnect :=
  let m := if decide (hc_state m = Pending) then hc_set_state m AwaitingResponse else m in
  (hc_outbound m,
   {| hc_outbound := []; hc_recv_buf := hc_recv_buf m; hc_state := hc_state m;
      hc_outcome := hc_outcome m; hc_emitted := hc_emitted m; hc_bridge := hc_bridge m |}).

Definition hc_try_decode_response (m : HopConnect) : HopConnect * res RelayError unit :=
  if decide (hc_state m = Done) then (m, Ok ())
  else
    match read_message hop_decode (hc_recv_buf m) with
    | Err e => (hc_set_state m Done, Err e)
    | Panic => (m, Panic)
    | Ok None => (m, Ok ())
    | Ok (Some (msg, rest)) =>
        let m := hc_set_state (hc_set_buf m rest) Done in
        if decide (hop_kind msg ≠ HopStatus)
        then (m, Err (UnexpectedMessage (unexpected_hop_reason (hop_kind msg) "STATUS")))
        else
          let status := default Unused (hop_status msg) in
          if decide (status = StatusOk) then
            let m := hc_set_buf (hc_set_bridge m (hc_bridge m ++ hc_recv_buf m)) [] in
            (hc_set_outcome m (Bridged (hop_limit msg)), Ok ())
          else (hc_set_outcome m (ConnectRefused status (describe_status status)), Ok ())
    end.

Definition hc_on_data (m : HopConnect) (data : list byte) : HopConnect * res RelayError unit :=
  if decide (hc_state m = Done) then
    match hc_outcome m with
    | Some (Bridged _) => (hc_set_bridge m (hc_bridge m ++ data), Ok ())
    | _ => (m, Ok ())
    end
  else hc_try_decode_response (hc_set_buf m (hc_recv_buf m ++ data)).

Definition hc_handle_input (m : HopConnect) (input : HopConnectInput)
    : HopConnect * res RelayError unit :=
  match input with
  | HcFlush => (m, Ok ())
  | HcData data => hc_on_data m data
  | HcRemoteWriteClosed => hc_try_decode_response m
  end.

Definition hc_poll_output (m : HopConnect) : option HopConnectOutput * HopConnect :=
  let '(outbound, m) := hc_take_outbound m in
  if decide (outbound ≠ []) then (Some (HcOutbound outbound), m)
  else
    match hc_emitted m, hc_outcome m with
    | false, Some outcome =>
        (Some (HcOutcome outcome),
         {| hc_outbound := hc_outbound m; hc_recv_buf := hc_recv_buf m; hc_state := hc_state m;
            hc_outcome := hc_outcome m; hc_emitted := true; hc_bridge := hc_bridge m |})
    | _, _ =>
        let bridge_bytes := hc_bridge m in
        let m := hc_set_bridge m [] in
        if decide (bridge_bytes ≠ []) then (Some (HcBridgeData bridge_bytes), m) else (None, m)
    end.

Definition hc_is_idle (m : HopConnect) : bool :=
  bool_decide (hc_outbound m = []) && bool_decide (hc_bridge m = [])
  && (hc_emitted m || bool_decide (hc_outcome m = None)).

(** ** StopResponder *)

Record StopConnectRequest : Type := { source_peer_id : list byte; request_limit : option Limit }.

Inductive StopResponderInput : Type :=
  | SrFlush
  | SrData (data : list byte)
  | SrRemoteWriteClosed
  | SrAccept
  | SrReject (status : Status).

Inductive StopResponderOutput : Type :=
  | SrRequest (r : StopConnectRequest)
  | SrOutbound (data : list byte)
  | SrBridgeData (data : list byte).

Inductive StopState : Type := AwaitingConnect | AwaitingDecision | StopDone | StopBridged.
#[export] Instance StopState_eq_dec : EqDecision StopState.
Proof. solve_decision. Defined.

Definition stop_state_debug (s : StopState) : string :=
  match s with
  | AwaitingConnect => "AwaitingConnect"
  | AwaitingDecision => "AwaitingDecision"
  | StopDone => "Done"
  | StopBridged => "Bridged"
  end%string.

Record StopResponder : Type := {
  sr_outbound : list byte;
  sr_recv_buf : list byte;
  sr_state : StopState;
  sr_request : option StopConnectRequest;
  sr_emitted : bool;
  sr_bridge : list byte;
}.

Definition sr_set_state (m : StopResponder) (s : StopState) : StopResponder :=
  {| sr_outbound := sr_outbound m; sr_recv_buf := sr_recv_buf m; sr_state := s;
     sr_request := sr_request m; sr_emitted := sr_emitted m; sr_bridge := sr_bridge m |}.
Definition sr_set_buf (m : StopResponder) (b : list byte) : StopResponder :=
  {| sr_outbound := sr_outbound m; sr_recv_buf := b; sr_state := sr_state m;
     sr_request := sr_request m; sr_emitted := sr_emitted m; sr_bridge := sr_bridge m |}.
Definition sr_set_bridge (m : StopResponder) (b : list byte) : StopResponder :=
  {| sr_outbound := sr_outbound m; sr_recv_buf := sr_recv_buf m; sr_state := sr_state m;
     sr_request := sr_request m; sr_emitted := sr_emitted m; sr_bridge := b |}.

Definition sr_new : StopResponder :=
  {| sr_outbound := []; sr_recv_buf := []; sr_state := AwaitingConnect; sr_request := None;
     sr_emitted := false; sr_bridge := [] |}.

Definition sr_try_decode_connect (m : StopResponder) : StopResponder * res RelayError unit :=
  if decide (sr_state m ≠ AwaitingConnect) then (m, Ok ())
  else
    match read_message stop_decode (sr_recv_buf m) with
    | Err e => (sr_set_state m StopDone, Err e)
    | Panic => (m, Panic)
    | Ok None => (m, Ok ())
    | Ok (Some (msg, rest)) =>
        let m := sr_set_buf m rest in
        if decide (stop_kind msg ≠ StopConnectType)
        then (sr_set_state m StopDone,
              Err (UnexpectedMessage (unexpected_stop_reason (stop_kind msg) "CONNECT")))
        else
          match stop_peer msg with
          | None => (sr_set_state m StopDone,
                     Err (UnexpectedMessage "STOP CONNECT missing peer field"))
          | Some peer =>
              ({| sr_outbound := sr_outbound m; sr_recv_buf := sr_recv_buf m;
                  sr_state := AwaitingDecision;
                  sr_request := Some {| source_peer_id := p_id peer; request_limit := stop_limit msg |};
                  sr_emitted := false; sr_bridge := sr_bridge m |}, Ok ())
          end
    end.

Definition sr_on_data (m : StopResponder) (data : list byte) : StopResponder * res RelayError unit :=
  if decide (sr_state m = StopBridged) then (sr_set_bridge m (sr_bridge m ++ data), Ok ())
  else if decide (sr_state m = StopDone) then (m, Ok ())
  else sr_try_decode_connect (sr_set_buf m (sr_recv_buf m ++ data)).

Definition status_response (status : Status) : StopMessage :=
  {| stop_kind := StopStatus; stop_peer := None; stop_limit := None; stop_status := Some status |}.

Definition sr_send_status (m : StopResponder) (status : Status) (next_state : StopState)
    : StopResponder * res RelayError unit :=
  if decide (sr_state m ≠ AwaitingDecision)
  then (m, Err (UnexpectedMessage ("cannot respond from state " ++ stop_state_debug (sr_state m))%string))
  else
    ({| sr_outbound := sr_outbound m ++ encode_frame (stop_encode (status_response status));
        sr_recv_buf := sr_recv_buf m; sr_state := next_state; sr_request := sr_request m;
        sr_emitted := sr_emitted m; sr_bridge := sr_bridge m |}, Ok ()).

Definition sr_accept (m : StopResponder) : StopResponder * res RelayError unit :=
  match sr_send_status m StatusOk StopBridged with
  | (m, Ok _) => (sr_set_buf (sr_set_bridge m (sr_bridge m ++ sr_recv_buf m)) [], Ok ())
  | (m, r) => (m, r)
  end.

Definition sr_reject (m : StopResponder) (status : Status) : StopResponder * res RelayError unit :=
  sr_send_status m status StopDone.

Definition sr_handle_input (m : StopResponder) (input : StopResponderInput)
    : StopResponder * res RelayError unit :=
  match input with
  | SrFlush => (m, Ok ())
  | SrData data => sr_on_data m data
  | SrRemoteWriteClosed => sr_try_decode_connect m
  | SrAccept => sr_accept m
  | SrReject status => sr_reject m status
  end.

Definition sr_poll_output (m : StopResponder) : option StopResponderOutput * StopResponder :=
  match sr_emitted m, sr_request m with
  | false, Some request =>
      (Some (SrRequest request),
       {| sr_outbound := sr_outbound m; sr_recv_buf := sr_recv_buf m; sr_state := sr_state m;
          sr_request := sr_request m; sr_emitted := true; sr_bridge := sr_bridge m |})
  | _, _ =>
      let outbound := sr_outbound m in
      let m := {| sr_outbound := []; sr_recv_buf := sr_recv_buf m; sr_state := sr_state m;
                  sr_request := sr_request m; sr_emitted := sr_emitted m; sr_bridge := sr_bridge m |} in
      if decide (outbound ≠ []) then (Some (SrOutbound outbound), m)
      else
        let bridge_bytes := sr_bridge m in
        let m := sr_set_bridge m [] in
        if decide (bridge_bytes ≠ []) then (Some (SrBridgeData bridge_bytes), m) else (None, m)
  end.

Definition sr_is_idle (m : StopResponder) : bool :=
  bool_decide (sr_outbound m = []) && bool_decide (sr_bridge m = [])
  && (sr_emitted m || bool_decide (sr_request m = None)).

(** ** The trait *)

#[export] Instance Hr_sansio :
    SansIoProtocol HopReservation HopReservationInput HopReservationOutput RelayError := {
  handle_input := hr_handle_input; poll_output := hr_poll_output; is_idle := hr_is_idle }.
#[export] Instance Hc_sansio :
    SansIoProtocol HopConnect HopConnectInput HopConnectOutput RelayError := {
  handle_input := hc_handle_input; poll_output := hc_poll_output; is_idle := hc_is_idle }.
#[export] Instance Sr_sansio :
    SansIoProtocol StopResponder StopResponderInput StopResponderOutput RelayError := {
  handle_input := sr_handle_input; poll_output := sr_poll_output; is_idle := sr_is_idle }.

#[local] Ltac law_case := cbn; intros; simplify_eq/=; first [done | lia | naive_solver].

#[export, refine] Instance Hr_laws : SansIoLaws Hr_sansio := {
  pending m := (some_bytes (hr_outbound m) + unsent (hr_emitted m) (hr_outcome m))%nat }.
Proof.
  - intros [o b s oc e]; cbn -[decide]. unfold hr_is_idle, hr_poll_output, hr_take_outbound.
    cbn -[decide]. destruct o, s, oc, e; law_case.
  - intros [o b s oc e] m'; cbn -[decide]. unfold hr_is_idle, hr_poll_output, hr_take_outbound.
    cbn -[decide]. destruct o, s, oc, e; law_case.
  - intros [o b s oc e] x m'; cbn -[decide]. unfold hr_poll_output, hr_take_outbound.
    destruct o, s, oc, e; law_case.
Defined.

#[export, refine] Instance Hc_laws : SansIoLaws Hc_sansio := {
  pending m := (some_bytes (hc_outbound m) + unsent (hc_emitted m) (hc_outcome m)
                + some_bytes (hc_bridge m))%nat }.
Proof.
  - intros [o b s oc e g]; cbn -[decide]. unfold hc_is_idle, hc_poll_output, hc_take_outbound.
    cbn -[decide]. destruct o, s, oc, e, g; law_case.
  - intros [o b s oc e g] m'; cbn -[decide]. unfold hc_is_idle, hc_poll_output, hc_take_outbound.
    cbn -[decide]. destruct o, s, oc, e, g; law_case.
  - intros [o b s oc e g] x m'; cbn -[decide]. unfold hc_poll_output, hc_take_outbound.
    destruct o, s, oc, e, g; law_case.
Defined.

#[export, refine] Instance Sr_laws : SansIoLaws Sr_sansio := {
  pending m := (some_bytes (sr_outbound m) + unsent (sr_emitted m) (sr_request m)
                + some_bytes (sr_bridge m))%nat }.
Proof.
  - intros [o b s oc e g]; cbn -[decide]. unfold sr_is_idle, sr_poll_output.
    cbn -[decide]. destruct o, oc, e, g; law_case.
  - intros [o b s oc e g] m'; cbn -[decide]. unfold sr_is_idle, sr_poll_output.
    cbn -[decide]. destruct o, oc, e, g; law_case.
  - intros [o b s oc e g] x m'; cbn -[decide]. unfold sr_poll_output.
    destruct o, oc, e, g; law_case.
Defined.

(** ** Reading a framed message from a growing buffer *)

Lemma enforce_max_size_ok buf : Z.of_nat (length buf) <= MAX_MESSAGE_SIZE → enforce_max_size buf = Ok ().
Proof. intros. unfold enforce_max_size. by rewrite (proj2 (Z.ltb_ge _ _)) by done. Qed.

Lemma read_message_complete {M} decode (msg : M) frame tail :
  framed decode msg frame → Z.of_nat (length (frame ++ tail)) <= MAX_MESSAGE_SIZE →
  read_message decode (frame ++ tail) = Ok (Some (msg, tail)).
Proof.
  intros (p & -> & Hd & Hp) Hm. unfold read_message. rewrite enforce_max_size_ok by done.
  cbn [mbind res_bind]. rewrite decode_encode_frame, Hd by done. cbn [mbind res_bind map_err].
  by rewrite Nat2Z.id, drop_app_length.
Qed.

Lemma read_message_incomplete {M} decode (msg : M) frame buf k :
  framed decode msg frame → frame = buf ++ k → k ≠ [] → Z.of_nat (length buf) <= MAX_MESSAGE_SIZE →
  read_message decode buf = Ok None.
Proof.
  intros (p & -> & Hd & Hp) Hk Hne Hm. unfold read_message. rewrite enforce_max_size_ok by done.
  cbn [mbind res_bind]. rewrite (decode_frame_prefix _ p); [done|done|by exists k|].
  intros ->. apply Hne. by apply (app_inv_head (encode_frame p)); rewrite app_nil_r.
Qed.

Lemma relay_reader {M} (decode : list byte → res RelayMessageError M) msg frame :
  framed decode msg frame → MessageReader (read_message decode) MAX_MESSAGE_SIZE msg frame.
Proof. split; intros; [by apply read_message_complete|by eapply read_message_incomplete]. Qed.

Lemma hop_framed msg :
  hop_ok msg → Z.of_nat (length (encode_frame (hop_encode msg))) <= MAX_MESSAGE_SIZE →
  framed hop_decode msg (encode_frame (hop_encode msg)).
Proof. intros. by eapply framed_payload; [apply hop_decode_encode|..]. Qed.
Lemma stop_framed msg :
  stop_ok msg → Z.of_nat (length (encode_frame (stop_encode msg))) <= MAX_MESSAGE_SIZE →
  framed stop_decode msg (encode_frame (stop_encode msg)).
Proof. intros. by eapply framed_payload; [apply stop_decode_encode|..]. Qed.

(** ** Reservation *)

Lemma reservation_accepted msg :
  reservation_outcome msg = Accepted (hop_reservation msg) (hop_limit msg) ↔ hop_status msg = Some StatusOk.
Proof.
  unfold reservation_outcome. cbv zeta. split; [|by intros ->].
  destruct (decide _) as [H|]; [intros _|discriminate]. by destruct (hop_status msg) as [[]|].
Qed.

Definition hr_finish (m : HopReservation) (msg : HopMessage) (rest : list byte) : HopReservation :=
  {| hr_outbound := hr_outbound m; hr_recv_buf := rest; hr_state := Done;
     hr_outcome := Some (reservation_outcome msg); hr_emitted := false |}.

Lemma hr_feed_done m cs : hr_state m = Done → feed_inputs m (HrData <$> cs) = (m, Ok ()).
Proof.
  intros Hd. induction cs as [|c cs IH]; [done|]. cbn [fmap list_fmap feed_inputs handle_input Hr_sansio].
  cbn [hr_handle_input]. unfold hr_on_data. by rewrite decide_True by done.
Qed.

Lemma hr_feed_response msg m tail cs k :
  framed hop_decode msg (encode_frame (hop_encode msg)) → hop_kind msg = HopStatus →
  chunks_fit MAX_MESSAGE_SIZE (encode_frame (hop_encode msg)) cs → hr_state m ≠ Done →
  hr_recv_buf m ++ concat cs = encode_frame (hop_encode msg) ++ tail →
  encode_frame (hop_encode msg) = hr_recv_buf m ++ k → k ≠ [] →
  ∃ rest, feed_inputs m (HrData <$> cs) = (hr_finish m msg rest, Ok ()).
Proof.
  intros Hf Hk Hfit Hs Hcat Hpre Hne.
  pose proof (relay_reader _ _ _ Hf). apply (chunks_fit_buffer _ _ (hr_recv_buf m)) in Hfit.
  destruct (feed_awaited HrData (read_message hop_decode) MAX_MESSAGE_SIZE
    (λ m, hr_state m ≠ Done) hr_recv_buf hr_set_buf hr_finish msg (encode_frame (hop_encode msg)))
    with m tail cs k as (t & cs' & -> & _); try done.
  - intros m' c Hw Hr. cbn. unfold hr_on_data. rewrite decide_False by done.
    unfold hr_try_decode_response. rewrite decide_False by done. cbn [hr_recv_buf hr_set_buf]. by rewrite Hr.
  - intros m' c rest Hw Hr. cbn. unfold hr_on_data. rewrite decide_False by done.
    unfold hr_try_decode_response. rewrite decide_False by done. cbn [hr_recv_buf hr_set_buf]. rewrite Hr.
    by rewrite decide_False by tauto.
  - rewrite hr_feed_done by done. by eexists.
Qed.

(** ** Circuit request *)

Definition connect_outcome (msg : HopMessage) : ConnectOutcome :=
  let status := default Unused (hop_status msg) in
  if decide (status = StatusOk) then Bridged (hop_limit msg)
  else ConnectRefused status (describe_status status).

Definition hc_finish (m : HopConnect) (msg : HopMessage) (rest : list byte) : HopConnect :=
  let bridged := bool_decide (default Unused (hop_status msg) = StatusOk) in
  {| hc_outbound := hc_outbound m; hc_recv_buf := if bridged then [] else rest; hc_state := Done;
     hc_outcome := Some (connect_outcome msg); hc_emitted := false;
     hc_bridge := if bridged then hc_bridge m ++ rest else hc_bridge m |}.

Lemma hc_feed_bridged m limit cs :
  hc_state m = Done → hc_outcome m = Some (Bridged limit) →
  feed_inputs m (HcData <$> cs) = (hc_set_bridge m (hc_bridge m ++ concat cs), Ok ()).
Proof.
  revert m. induction cs as [|c cs IH]; intros m Hd Ho.
  { cbn. rewrite app_nil_r. by destruct m. }
  cbn [fmap list_fmap feed_inputs handle_input Hc_sansio hc_handle_input]. unfold hc_on_data.
  rewrite decide_True, Ho by done. rewrite IH by done. cbn. by rewrite app_assoc.
Qed.

Lemma hc_feed_refused m status reason cs :
  hc_state m = Done → hc_outcome m = Some (ConnectRefused status reason) →
  feed_inputs m (HcData <$> cs) = (m, Ok ()).
Proof.
  intros Hd Ho. induction cs as [|c cs IH]; [done|].
  cbn [fmap list_fmap feed_inputs handle_input Hc_sansio hc_handle_input]. unfold hc_on_data.
  by rewrite decide_True, Ho by done.
Qed.

Lemma hc_on_complete m msg c rest :
  hc_state m ≠ Done → hop_kind msg = HopStatus →
  read_message hop_decode (hc_recv_buf m ++ c) = Ok (Some (msg, rest)) →
  hc_on_data m c = (hc_finish m msg rest, Ok ()).
Proof.
  intros Hw Hk Hr. unfold hc_on_data. rewrite decide_False by done.
  unfold hc_try_decode_response. rewrite decide_False by done. cbn [hc_recv_buf hc_set_buf]. rewrite Hr.
  rewrite decide_False by tauto. unfold hc_finish, connect_outcome. cbv zeta.
  destruct (decide _) as [He|He];
    [rewrite bool_decide_true by done|rewrite bool_decide_false by done]; done.
Qed.

Lemma frame_nonempty payload : (length (@nil byte) < length (encode_frame payload))%nat.
Proof. pose proof (encode_frame_ne payload). destruct (encode_frame payload); [done|cbn; lia]. Qed.

Lemma hc_feed_response msg m tail cs k :
  framed hop_decode msg (encode_frame (hop_encode msg)) → hop_kind msg = HopStatus →
  buffer_fits MAX_MESSAGE_SIZE (encode_frame (hop_encode msg)) (hc_recv_buf m) cs → hc_state m ≠ Done →
  hc_recv_buf m ++ concat cs = encode_frame (hop_encode msg) ++ tail →
  encode_frame (hop_encode msg) = hc_recv_buf m ++ k → k ≠ [] →
  ∃ rest, feed_inputs m (HcData <$> cs) = (hc_finish m msg rest, Ok ()) ∧
    (default Unused (hop_status msg) = StatusOk → rest = tail).
Proof.
  intros Hf Hk Hfit Hs Hcat Hpre Hne.
  pose proof (relay_reader _ _ _ Hf).
  destruct (feed_awaited HcData (read_message hop_decode) MAX_MESSAGE_SIZE
    (λ m, hc_state m ≠ Done) hc_recv_buf hc_set_buf hc_finish msg (encode_frame (hop_encode msg)))
    with m tail cs k as (t & cs' & -> & ->); try done.
  - intros m' c Hw Hr. cbn. unfold hc_on_data. rewrite decide_False by done.
    unfold hc_try_decode_response. rewrite decide_False by done. cbn [hc_recv_buf hc_set_buf]. by rewrite Hr.
  - intros m' c rest Hw Hr. by apply hc_on_complete.
  - destruct (decide (default Unused (hop_status msg) = StatusOk)) as [Hok|Hno].
    + exists (t ++ concat cs'). split; [|done].
      rewrite (hc_feed_bridged _ (hop_limit msg)); [|done|].
      * unfold hc_finish. rewrite bool_decide_true by done. cbn. by rewrite app_assoc.
      * cbn. unfold connect_outcome. by rewrite decide_True.
    + exists t. split; [|done]. eapply hc_feed_refused; [done|]. cbn. unfold connect_outcome.
      by rewrite decide_False.
Qed.

(** ** Answering a circuit *)

Definition sr_finish (m : StopResponder) (msg : StopMessage) (rest : list byte) : StopResponder :=
  {| sr_outbound := sr_outbound m; sr_recv_buf := rest; sr_state := AwaitingDecision;
     sr_request := Some {| source_peer_id := from_option p_id [] (stop_peer msg);
                           request_limit := stop_limit msg |};
     sr_emitted := false; sr_bridge := sr_bridge m |}.

Lemma sr_feed_waiting m cs :
  sr_state m = AwaitingDecision →
  feed_inputs m (SrData <$> cs) = (sr_set_buf m (sr_recv_buf m ++ concat cs), Ok ()).
Proof.
  revert m. induction cs as [|c cs IH]; intros m Hs.
  { cbn. rewrite app_nil_r. by destruct m. }
  cbn [fmap list_fmap feed_inputs handle_input Sr_sansio sr_handle_input]. unfold sr_on_data.
  rewrite !decide_False by (by rewrite Hs). unfold sr_try_decode_connect. cbn [sr_state sr_set_buf].
  rewrite decide_True by (by rewrite Hs). rewrite IH by done. cbn. by rewrite app_assoc.
Qed.

Lemma sr_feed_bridged m cs :
  sr_state m = StopBridged →
  feed_inputs m (SrData <$> cs) = (sr_set_bridge m (sr_bridge m ++ concat cs), Ok ()).
Proof.
  revert m. induction cs as [|c cs IH]; intros m Hs.
  { cbn. rewrite app_nil_r. by destruct m. }
  cbn [fmap list_fmap feed_inputs handle_input Sr_sansio sr_handle_input]. unfold sr_on_data.
  rewrite decide_True by done. rewrite IH by done. cbn. by rewrite app_assoc.
Qed.

Lemma sr_feed_done m cs : sr_state m = StopDone → feed_inputs m (SrData <$> cs) = (m, Ok ()).
Proof.
  intros Hs. induction cs as [|c cs IH]; [done|].
  cbn [fmap list_fmap feed_inputs handle_input Sr_sansio sr_handle_input]. unfold sr_on_data.
  by rewrite decide_False, decide_True by (by rewrite Hs).
Qed.

Lemma sr_accept_finish m msg tail :
  sr_bridge m = [] →
  sr_accept (sr_finish m msg tail) =
    ({| sr_outbound := sr_outbound m ++ encode_frame (stop_encode (status_response StatusOk));
        sr_recv_buf := []; sr_state := StopBridged; sr_request := sr_request (sr_finish m msg tail);
        sr_emitted := false; sr_bridge := tail |}, Ok ()).
Proof.
  intros Hb. unfold sr_accept, sr_send_status. rewrite decide_False by tauto. cbn. by rewrite Hb.
Qed.

Lemma sr_feed_request msg peer m tail cs k :
  framed stop_decode msg (encode_frame (stop_encode msg)) → stop_kind msg = StopConnectType →
  stop_peer msg = Some peer → chunks_fit MAX_MESSAGE_SIZE (encode_frame (stop_encode msg)) cs →
  sr_state m = AwaitingConnect → sr_recv_buf m ++ concat cs = encode_frame (stop_encode msg) ++ tail →
  encode_frame (stop_encode msg) = sr_recv_buf m ++ k → k ≠ [] →
  feed_inputs m (SrData <$> cs) = (sr_finish m msg tail, Ok ()).
Proof.
  intros Hf Hk Hp Hfit Hs Hcat Hpre Hne.
  pose proof (relay_reader _ _ _ Hf). apply (chunks_fit_buffer _ _ (sr_recv_buf m)) in Hfit.
  destruct (feed_awaited SrData (read_message stop_decode) MAX_MESSAGE_SIZE
    (λ m, sr_state m = AwaitingConnect) sr_recv_buf sr_set_buf sr_finish msg (encode_frame (stop_encode msg)))
    with m tail cs k as (t & cs' & -> & ->); try done.
  - intros m' c Hw Hr. cbn. unfold sr_on_data. rewrite !decide_False by (by rewrite Hw).
    unfold sr_try_decode_connect. cbn [sr_state sr_recv_buf sr_set_buf].
    rewrite decide_False by tauto. by rewrite Hr.
  - intros m' c rest Hw Hr. cbn. unfold sr_on_data. rewrite !decide_False by (by rewrite Hw).
    unfold sr_try_decode_connect. cbn [sr_state sr_recv_buf sr_set_buf].
    rewrite decide_False by tauto. rewrite Hr, decide_False by tauto. rewrite Hp.
    unfold sr_finish. by rewrite Hp.
  - by rewrite sr_feed_waiting.
Qed.

(** ** Any interleaving of inputs and polls *)

(** What a peer has been sent, and how often a notification was given. *)
Definition hc_sent (o : HopConnectOutput) : list byte := match o with HcOutbound d => d | _ => [] end.
Definition hc_notified (o : HopConnectOutput) : nat := match o with HcOutcome _ => 1 | _ => 0 end.
Definition sr_sent (o : StopResponderOutput) : list byte := match o with SrOutbound d => d | _ => [] end.
Definition sr_notified (o : StopResponderOutput) : nat := match o with SrRequest _ => 1 | _ => 0 end.

Definition hc_inv (request : list byte) (os : list HopConnectOutput) (m : HopConnect) : Prop :=
  concat (hc_sent <$> os) ++ hc_outbound m = request ∧
  (sum_list_with hc_notified os + unsent (hc_emitted m) (hc_outcome m) ≤ 1)%nat ∧
  (hc_state m ≠ Done → hc_outcome m = None ∧ hc_emitted m = false ∧ sum_list_with hc_notified os = 0%nat).

(** The three ways a data input changes the circuit machine. *)
Lemma hc_handle_cases m i :
  let m' := (hc_handle_input m i).1 in
  hc_outbound m' = hc_outbound m ∧
  ((hc_state m' = hc_state m ∧ hc_outcome m' = hc_outcome m ∧ hc_emitted m' = hc_emitted m) ∨
   (hc_state m ≠ Done ∧ hc_state m' = Done ∧ hc_emitted m' = false) ∨
   (hc_state m ≠ Done ∧ hc_state m' = Done ∧ hc_outcome m' = hc_outcome m ∧ hc_emitted m' = hc_emitted m)).
Proof.
  destruct m as [ob rb st oc em br], i as [|d|];
    cbn [hc_handle_input]; unfold hc_on_data, hc_try_decode_response;
    cbn [hc_set_state hc_set_buf hc_set_bridge hc_set_outcome hc_state hc_outcome hc_emitted hc_outbound
         hc_recv_buf hc_bridge];
    repeat (case_decide || case_match); simplify_eq/=; auto 8.
Qed.

Lemma hc_inv_input request os m i : hc_inv request os m → hc_inv request os (hc_handle_input m i).1.
Proof.
  intros (Hs & Hn & Hd). destruct (hc_handle_cases m i) as [Ho Hc]. unfold hc_inv. rewrite Ho.
  split; [done|]. destruct Hc as [(-> & -> & ->)|[(Hp & -> & ->)|(Hp & -> & -> & ->)]].
  - done.
  - destruct (Hd Hp) as (_ & _ & ->). split; [|done].
    destruct (hc_outcome (hc_handle_input m i).1); cbn; lia.
  - done.
Qed.

(** [take_outbound] only moves a fresh machine to [AwaitingResponse]. *)
Lemma hc_take_outbound_eq m :
  ∃ s, (s = Done ↔ hc_state m = Done) ∧
  hc_take_outbound m = (hc_outbound m,
    {| hc_outbound := []; hc_recv_buf := hc_recv_buf m; hc_state := s; hc_outcome := hc_outcome m;
       hc_emitted := hc_emitted m; hc_bridge := hc_bridge m |}).
Proof.
  unfold hc_take_outbound. case_decide as E; [exists AwaitingResponse|by exists (hc_state m)].
  split; [by rewrite E|done].
Qed.

Lemma hc_inv_poll request os m :
  hc_inv request os m →
  hc_inv request (os ++ option_list (hc_poll_output m).1) (hc_poll_output m).2.
Proof.
  unfold hc_inv. rewrite fmap_app, concat_app, sum_list_with_app.
  intros (Hs & Hn & Hd). unfold hc_poll_output. destruct (hc_take_outbound_eq m) as (st & Hst & ->).
  rewrite <- Hst in Hd. destruct (decide (hc_outbound m = [])) as [Ho|Ho].
  - rewrite Ho, app_nil_r in *. rewrite decide_False by tauto. cbn [hc_emitted hc_outcome hc_bridge].
    destruct (hc_emitted m), (hc_outcome m), (decide (hc_bridge m ≠ []));
      cbn in *; rewrite ?app_nil_r, ?Nat.add_0_r; (split; [done|]); (split; [lia|]); intros Hx;
      destruct (Hd Hx) as (? & ? & ?); done.
  - rewrite decide_True by done. cbn in *. by rewrite !app_nil_r, Nat.add_0_r.
Qed.

(** Nothing is sent before the decision, and afterwards exactly one STATUS frame. *)
Definition sr_inv (os : list StopResponderOutput) (m : StopResponder) : Prop :=
  let sent := concat (sr_sent <$> os) ++ sr_outbound m in
  (sr_state m = AwaitingConnect ∨ sr_state m = AwaitingDecision → sent = []) ∧
  (sent = [] ∨ ∃ s, sent = encode_frame (stop_encode (status_response s))) ∧
  (sum_list_with sr_notified os + unsent (sr_emitted m) (sr_request m) ≤ 1)%nat ∧
  (sr_state m = AwaitingConnect → sum_list_with sr_notified os = 0%nat ∧ sr_request m = None).

Lemma sr_inv_decode os m :
  sr_inv os m → sr_inv os (sr_try_decode_connect m).1.
Proof.
  intros (Hs & Ha & Hn & Hd). unfold sr_try_decode_connect. case_decide as Hst; [done|].
  specialize (Hs (or_introl Hst)). destruct (Hd Hst) as [Hd0 Hd1].
  destruct (read_message _ _) as [[[msg rest]|]| |]; cbn; try (by split_and!; auto).
  case_decide; [by split_and!; auto|]. destruct (stop_peer msg); split_and!; cbn; auto with lia; by rewrite Hd0.
Qed.

Lemma sr_inv_reply os m status next :
  sr_inv os m → next = StopDone ∨ next = StopBridged → sr_inv os (sr_send_status m status next).1.
Proof.
  intros (Hs & Ha & Hn & Hd) Hnext. unfold sr_send_status. case_decide as Hst; [done|].
  specialize (Hs (or_intror Hst)).
  unfold sr_inv. cbn -[encode_frame stop_encode]. rewrite app_assoc, Hs.
  split_and!; [by intros [->| ->]; destruct Hnext|right; by eexists|done|by intros ->; destruct Hnext].
Qed.

(** [sr_inv] reads neither buffer. *)
Lemma sr_inv_buffers os m b g : sr_inv os m → sr_inv os (sr_set_buf (sr_set_bridge m g) b).
Proof. done. Qed.

Lemma sr_inv_input os m i : sr_inv os m → sr_inv os (sr_handle_input m i).1.
Proof.
  intros H. destruct i as [|d| | |s]; cbn [sr_handle_input]; [done|..|by apply sr_inv_reply; auto].
  - unfold sr_on_data. do 2 (case_decide; [done|]). by apply sr_inv_decode.
  - by apply sr_inv_decode.
  - pose proof (sr_inv_reply os m StatusOk StopBridged H (or_intror eq_refl)) as Hr. unfold sr_accept.
    destruct (sr_send_status m StatusOk StopBridged) as [m' []]; done.
Qed.

Lemma sr_inv_poll os m :
  sr_inv os m → sr_inv (os ++ option_list (sr_poll_output m).1) (sr_poll_output m).2.
Proof.
  unfold sr_inv. rewrite fmap_app, concat_app, sum_list_with_app. unfold sr_poll_output.
  intros (Hs & Ha & Hn & Hd). destruct (decide (sr_outbound m = [])) as [Ho|Ho].
  - rewrite Ho in *. rewrite (decide_False (P:=([] ≠ []))) by tauto.
    destruct (sr_emitted m), (sr_request m); 
    cbn [sr_set_bridge sr_bridge]; try (destruct (decide (sr_bridge m ≠ [])));
      cbn in *; rewrite ?app_nil_r, ?Nat.add_0_r in *; (split_and!; [done..|lia|naive_solver]).
  - rewrite !(decide_True (P:=(sr_outbound m ≠ []))) by done. cbn [sr_outbound].
    destruct (sr_emitted m), (sr_request m); cbn in *; rewrite ?app_nil_r, ?Nat.add_0_r in *;
      (split_and!; [done..|lia|naive_solver]).
Qed.

(** ** Properties *)

(** The machines once their first output, the request, was polled. *)
Definition hr_started : HopReservation := (hr_poll_output hr_new).2.
Definition hc_started (target : list byte) : HopConnect := (hc_poll_output (hc_new target)).2.

Lemma hr_drain_new : hr_poll_output hr_new = (Some (HrOutbound (encode_frame (hop_encode reserve_request))), hr_started).
Proof. unfold hr_started, hr_poll_output. cbn -[decide]. by rewrite decide_True by apply encode_frame_ne. Qed.
Lemma hc_drain_new t :
  hc_poll_output (hc_new t) = (Some (HcOutbound (encode_frame (hop_encode (connect_request t)))), hc_started t).
Proof. unfold hc_started, hc_poll_output. cbn -[decide]. by rewrite decide_True by apply encode_frame_ne. Qed.

(** Reserving a slot: the machine first sends the RESERVE request; whatever the
    fragmentation of the relay's STATUS response, and whatever follows it, no input
    fails and the only output is the outcome, [Accepted] with the response's
    reservation and limit exactly when the status is OK; later data changes nothing. *)
Theorem reservation_exchange msg cs tail later :
  hop_ok msg → hop_kind msg = HopStatus → chunks_fit MAX_MESSAGE_SIZE (encode_frame (hop_encode msg)) cs →
  concat cs = encode_frame (hop_encode msg) ++ tail →
  hr_poll_output hr_new = (Some (HrOutbound (encode_frame (hop_encode reserve_request))), hr_started) ∧
  ∃ m, feed_inputs hr_started (HrData <$> cs) = (m, Ok ()) ∧
    (drain_all m).1 = [HrOutcome (reservation_outcome msg)] ∧
    feed_inputs m (HrData <$> later) = (m, Ok ()) ∧
    (reservation_outcome msg = Accepted (hop_reservation msg) (hop_limit msg) ↔
     hop_status msg = Some StatusOk).
Proof.
  intros Hok Hk Hfit Hcat. split; [apply hr_drain_new|].
  assert (framed hop_decode msg (encode_frame (hop_encode msg))) as Hf
    by (apply hop_framed; [done|eapply first_chunk_fits; [apply encode_frame_ne|done..]]).
  assert (hr_started = hr_set_state {| hr_outbound := []; hr_recv_buf := []; hr_state := Pending;
     hr_outcome := None; hr_emitted := false |} AwaitingResponse) as ->.
  { unfold hr_started, hr_poll_output. cbn -[decide]. by rewrite decide_True by apply encode_frame_ne. }
  edestruct hr_feed_response as [rest ->]; [done..|cbn; reflexivity|apply encode_frame_ne|].
  eexists. split_and!; [done|done|by apply hr_feed_done|].
  apply reservation_accepted.
Qed.

(** C21. A bridged circuit is transparent: after an OK response the machine reports
    [Bridged] and then hands out exactly the bytes that follow the response frame, in
    order and without loss or duplication; after a refusal it reports the status and
    hands out nothing.  The stream may be cut into chunks in any way in which the chunks
    up to the one that completes the response frame fit, together, the receive buffer of
    [MAX_MESSAGE_SIZE] (8 KiB); the chunks after that one may have any size.  (A chunk
    that completes the frame and overflows the buffer is refused:
    [connect_large_first_chunk].) *)
Theorem connect_bridge target msg cs tail :
  hop_ok msg → hop_kind msg = HopStatus → buffer_fits MAX_MESSAGE_SIZE (encode_frame (hop_encode msg)) [] cs →
  concat cs = encode_frame (hop_encode msg) ++ tail →
  hc_poll_output (hc_new target) =
    (Some (HcOutbound (encode_frame (hop_encode (connect_request target)))), hc_started target) ∧
  ∃ m, feed_inputs (hc_started target) (HcData <$> cs) = (m, Ok ()) ∧
    (drain_all m).1 = HcOutcome (connect_outcome msg) ::
      (if decide (hop_status msg = Some StatusOk ∧ tail ≠ []) then [HcBridgeData tail] else []).
Proof.
  intros Hok Hk Hfit Hcat. split; [apply hc_drain_new|].
  assert (framed hop_decode msg (encode_frame (hop_encode msg))) as Hf
    by (apply hop_framed; [done|apply (frame_fits _ _ [] cs Hfit); [apply frame_nonempty|cbn [app]; rewrite Hcat, length_app; lia]]).
  assert (hc_started target = hc_set_state {| hc_outbound := []; hc_recv_buf := []; hc_state := Pending;
     hc_outcome := None; hc_emitted := false; hc_bridge := [] |} AwaitingResponse) as ->.
  { unfold hc_started, hc_poll_output. cbn -[decide]. by rewrite decide_True by apply encode_frame_ne. }
  edestruct hc_feed_response as (rest & -> & Hrest); [done..|cbn; reflexivity|apply encode_frame_ne|].
  eexists. split; [done|]. unfold hc_finish, connect_outcome. cbv zeta.
  destruct (decide (hop_status msg = Some StatusOk)) as [Hst|Hst].
  - rewrite Hst in *. rewrite Hrest by done. destruct tail; [done|]. by rewrite decide_True.
  - rewrite (decide_False (P:=_ ∧ _)) by tauto.
    rewrite bool_decide_false, decide_False by (by destruct (hop_status msg) as [[]|]). done.
Qed.

(** C23. Answering a circuit: the request, of any fragmentation whose chunks fit the
    receive buffer of [MAX_MESSAGE_SIZE] next to it, is reported once; on
    [Accept] the answer is one STATUS OK frame and the bytes after the request,
    buffered before or received after the decision, come out as bridge data in order;
    on [Reject] the answer is one STATUS frame with that status and no byte is bridged. *)
Theorem stop_exchange msg peer cs tail cs' :
  stop_ok msg → stop_kind msg = StopConnectType → stop_peer msg = Some peer →
  chunks_fit MAX_MESSAGE_SIZE (encode_frame (stop_encode msg)) cs → concat cs = encode_frame (stop_encode msg) ++ tail →
  let request := SrRequest {| source_peer_id := p_id peer; request_limit := stop_limit msg |} in
  let reply s := SrOutbound (encode_frame (stop_encode (status_response s))) in
  (∃ m, feed_inputs sr_new ((SrData <$> cs) ++ SrAccept :: (SrData <$> cs')) = (m, Ok ()) ∧
    (drain_all m).1 = [request; reply StatusOk] ++
      (if decide (tail ++ concat cs' = []) then [] else [SrBridgeData (tail ++ concat cs')])) ∧
  (∀ status, ∃ m, feed_inputs sr_new ((SrData <$> cs) ++ SrReject status :: (SrData <$> cs')) = (m, Ok ()) ∧
    (drain_all m).1 = [request; reply status]).
Proof.
  intros Hok Hk Hp Hfit Hcat request reply.
  assert (framed stop_decode msg (encode_frame (stop_encode msg))) as Hf
    by (apply stop_framed; [done|eapply first_chunk_fits; [apply encode_frame_ne|done..]]).
  assert (feed_inputs sr_new (SrData <$> cs) = (sr_finish sr_new msg tail, Ok ())) as Hfeed.
  { eapply sr_feed_request; [done..|cbn; reflexivity|apply encode_frame_ne]. }
  split; [|intros status]; rewrite (feed_inputs_app _ _ _ _ Hfeed);
    cbn [feed_inputs handle_input Sr_sansio sr_handle_input].
  - rewrite (sr_accept_finish sr_new) by done. rewrite sr_feed_bridged by done.
    eexists. split; [done|]. unfold drain_all, sr_finish; cbn -[decide encode_frame stop_encode].
    rewrite Hp. by destruct (tail ++ concat cs').
  - unfold sr_reject, sr_send_status. rewrite decide_False by tauto.
    rewrite sr_feed_done by done. eexists. split; [done|].
    unfold drain_all, sr_finish; cbn -[decide encode_frame stop_encode]. rewrite Hp. by cbn.
Qed.

(** Whatever the order of inputs and polls, errors included, a circuit request is
    sent exactly once and its outcome is reported at most once; a responder sends
    nothing or exactly one STATUS frame and reports at most one request. *)
Theorem relay_at_most_once target hsteps ssteps :
  let '(hos, h) := drive (hc_new target) hsteps in
  let '(sos, r) := drive sr_new ssteps in
  concat (hc_sent <$> hos) ++ hc_outbound h = encode_frame (hop_encode (connect_request target)) ∧
  (sum_list_with hc_notified hos ≤ 1)%nat ∧
  (concat (sr_sent <$> sos) ++ sr_outbound r = [] ∨
   ∃ s, concat (sr_sent <$> sos) ++ sr_outbound r = encode_frame (stop_encode (status_response s))) ∧
  (sum_list_with sr_notified sos ≤ 1)%nat.
Proof.
  pose proof (drive_invariant (hc_inv (encode_frame (hop_encode (connect_request target))))
    (hc_new target) hsteps) as Hh.
  pose proof (drive_invariant sr_inv sr_new ssteps) as Hr.
  destruct (drive _ hsteps) as [hos h], (drive _ ssteps) as [sos r].
  destruct Hh as (? & ? & ?); [|apply hc_inv_input|apply hc_inv_poll|].
  { unfold hc_inv. cbn. auto with lia. }
  destruct Hr as (? & ? & ? & ?); [|apply sr_inv_input|apply sr_inv_poll|].
  { unfold sr_inv. cbn. auto with lia. }
  cbn [fst snd] in *. split_and!; [done|lia|done|lia].
Qed.

Lemma read_message_panic {M} decode buf :
  (∀ p, decode p ≠ Panic) →
  read_message (M:=M) decode buf = Panic ↔
    Z.of_nat (length buf) <= MAX_MESSAGE_SIZE ∧ decode_frame overflow_checks buf = Panic.
Proof.
  intros Hd. unfold read_message, enforce_max_size.
  destruct (Z.ltb_spec MAX_MESSAGE_SIZE (Z.of_nat (length buf))); cbn [mbind res_bind]; [split; [done|lia]|].
  destruct (decode_frame overflow_checks buf) as [[p n| |e]|[]|] eqn:E; split; try done;
    try (by intros [? ?]).
  - specialize (Hd p). by destruct (decode p).
Qed.

(** The only way data from the peer can unwind one of the three machines is a
    length prefix so large that adding the prefix length overflows [usize], while the
    machine still waits for a message of at most 8192 buffered bytes. *)
Theorem relay_data_panics_iff h c r data :
  let overflows buf := Z.of_nat (length buf) <= MAX_MESSAGE_SIZE ∧
    ∃ v used, read_uvarint buf = Ok (v, used) ∧ u64_mod <= Z.of_nat used + v in
  ((hr_handle_input h (HrData data)).2 = Panic ↔ hr_state h ≠ Done ∧ overflows (hr_recv_buf h ++ data)) ∧
  ((hc_handle_input c (HcData data)).2 = Panic ↔ hc_state c ≠ Done ∧ overflows (hc_recv_buf c ++ data)) ∧
  ((sr_handle_input r (SrData data)).2 = Panic ↔
    sr_state r = AwaitingConnect ∧ overflows (sr_recv_buf r ++ data)).
Proof.
  intros overflows.
  assert (∀ buf, read_message hop_decode buf = Panic ↔ overflows buf) as Hhop
    by (intros; unfold overflows; rewrite <- decode_frame_panic; apply read_message_panic, hop_decode_total).
  assert (∀ buf, read_message stop_decode buf = Panic ↔ overflows buf) as Hstop
    by (intros; unfold overflows; rewrite <- decode_frame_panic; apply read_message_panic, stop_decode_total).
  clearbody overflows. rewrite <- (Hhop (hr_recv_buf h ++ data)), <- Hhop, <- Hstop.
  clear. split_and!; cbn [hr_handle_input hc_handle_input sr_handle_input].
  - unfold hr_on_data, hr_try_decode_response. cbn [hr_state hr_set_buf hr_recv_buf].
    destruct (decide (hr_state h = Done)) as [E|E]; [naive_solver|].
    destruct (read_message _ _) as [[[]|]| |]; cbn; try case_decide; naive_solver.
  - unfold hc_on_data, hc_try_decode_response. cbn [hc_state hc_set_buf hc_recv_buf].
    destruct (decide (hc_state c = Done)) as [E|E]; [destruct (hc_outcome c) as [[]|]; naive_solver|].
    destruct (read_message _ _) as [[[]|]| |]; cbn; repeat case_decide; naive_solver.
  - unfold sr_on_data, sr_try_decode_connect. cbn [sr_state sr_set_buf sr_recv_buf].
    destruct (sr_state r) eqn:E; repeat (rewrite decide_False by naive_solver || rewrite decide_True by naive_solver);
     try naive_solver.
    destruct (read_message _ _) as [[[]|]| |]; cbn; try case_decide; try case_match; naive_solver.
Qed.

End relay.

(** ** Concrete runs *)

Definition demo_frame : list byte := encode_frame (hop_encode demo_hop).
Definition demo_chunks : list (list byte) := [take 3 demo_frame; drop 3 demo_frame ++ [x61]; [x62]].
Definition demo_stop_frame : list byte := encode_frame (stop_encode demo_stop).
Definition demo_stop_chunks : list (list byte) := [take 1 demo_stop_frame; drop 1 demo_stop_frame ++ [x61]].

Lemma reservation_exchange_witness :
  ∃ m, feed_inputs (P:=Hr_sansio false) hr_started (HrData <$> demo_chunks) = (m, Ok ()) ∧
    (drain_all (L:=Hr_laws false) m).1 = [HrOutcome (Accepted (hop_reservation demo_hop) (hop_limit demo_hop))].
Proof.
  destruct (reservation_exchange false demo_hop demo_chunks [x61; x62] []) as (_ & m & H1 & H2 & _).
  - repeat split; repeat constructor; vm_compute; done.
  - reflexivity.
  - repeat constructor; vm_compute; done.
  - vm_compute. reflexivity.
  - exists m. split; [exact H1|exact H2].
Defined.

Lemma connect_bridge_witness :
  ∃ m, feed_inputs (P:=Hc_sansio false) (hc_started [x00; x01]) (HcData <$> demo_chunks) = (m, Ok ()) ∧
    (drain_all (L:=Hc_laws false) m).1 = [HcOutcome (Bridged (hop_limit demo_hop)); HcBridgeData [x61; x62]].
Proof.
  destruct (connect_bridge false [x00; x01] demo_hop demo_chunks [x61; x62]) as (_ & m & H1 & H2).
  - repeat split; repeat constructor; vm_compute; done.
  - reflexivity.
  - apply chunks_fit_buffer. repeat constructor; vm_compute; done.
  - vm_compute. reflexivity.
  - exists m. split; [exact H1|exact H2].
Defined.

Lemma stop_exchange_witness :
  ∃ m, feed_inputs (P:=Sr_sansio false) sr_new
      ((SrData <$> demo_stop_chunks) ++ [SrAccept; SrData [x62]]) = (m, Ok ()) ∧
    (drain_all (L:=Sr_laws false) m).1 = [SrRequest {| source_peer_id := [x00; x01]; request_limit := None |};
      SrOutbound (encode_frame (stop_encode (status_response StatusOk))); SrBridgeData [x61; x62]].
Proof.
  destruct (stop_exchange false demo_stop {| p_id := [x00; x01]; p_addrs := [] |} demo_stop_chunks
    [x61] [[x62]]) as [(m & H1 & H2) _].
  - repeat split; repeat constructor; vm_compute; done.
  - reflexivity.
  - reflexivity.
  - repeat constructor; vm_compute; done.
  - vm_compute. reflexivity.
  - exists m. split; [exact H1|exact H2].
Defined.

(** Ten bytes from the relay unwind a waiting reservation, with or without overflow
    checks. *)
Example relay_remote_panic oc :
  (hr_handle_input oc hr_started (HrData (repeat xff 9 ++ [x01]))).2 = Panic.
Proof. by destruct oc; vm_compute. Qed.

(** The size check bounds the receive buffer, not the message: a valid response
    followed by more than 8 KiB of relayed bytes in the same chunk is refused. *)
Example connect_large_first_chunk :
  (hc_handle_input false (hc_started [x00; x01])
     (HcData (demo_frame ++ repeat x61 (Z.to_nat 8192)))).2 =
    Err (MessageTooLarge (length demo_frame + Z.to_nat 8192)).
Proof. vm_compute. reflexivity. Qed.
