(* ===== verification/DcutrMessage.v ===== *)
(** * The hole-punch message ([crates/dcutr/src/message.rs])

    [HolePunch], the one message type of DCUtR, on top of the field readers of
    [Protobuf]. *)
From S2P Require Import Prelude Varint Protobuf.
From Stdlib Require Import ZArith Strings.Byte Strings.String.
From stdpp Require Import base numbers list strings.

#[local] Open Scope Z_scope.

Definition FIELD_TYPE : Z := 1.
Definition FIELD_OBS_ADDRS : Z := 2.

Inductive HolePunchType : Type := PunchConnect | PunchSync.
#[export] Instance HolePunchType_eq_dec : EqDecision HolePunchType.
Proof. solve_decision. Defined.

(** The discriminants, [kind as u64]. *)
Definition punch_type_u64 (t : HolePunchType) : Z :=
  match t with PunchConnect => 100 | PunchSync => 300 end.

Definition punch_type_from_u64 (value : Z) : option HolePunchType :=
  if value =? 100 then Some PunchConnect
  else if value =? 300 then Some PunchSync
  else None.

Record HolePunch : Type := {
  punch_kind : HolePunchType;
  obs_addrs : list (list byte);
}.

Inductive DcutrMessageError : Type :=
  | Varint (e : VarintError)
  | FieldOverflow (offset : nat) (length : Z) (remaining : nat)
  | UnsupportedWireType (wire_type : Z) (offset : nat)
  | MissingType
  | InvalidType (value : Z).

#[export] Instance DcutrMessageError_proto : ProtoError DcutrMessageError := {
  varint_error := Varint;
  field_overflow := FieldOverflow;
  unsupported_wire_type := UnsupportedWireType;
}.

Definition punch_encode (m : HolePunch) : list byte :=
  let out := encode_varint_field [] (tag_byte FIELD_TYPE WIRE_VARINT) (punch_type_u64 (punch_kind m)) in
  fold_left (λ out addr, encode_bytes_field out (tag_byte FIELD_OBS_ADDRS WIRE_LEN) addr)
    (obs_addrs m) out.

(** The decoder's local variables. *)
Record PunchParts : Type := {
  pp_kind : option HolePunchType;
  pp_addrs : list (list byte);
}.

Definition punch_step (input : list byte) (field wire_type : Z) (msg : PunchParts) (idx : nat)
    : res DcutrMessageError (PunchParts * nat) :=
  if decide (field = FIELD_TYPE ∧ wire_type = WIRE_VARINT) then
    '(value, idx) ← read_varint_value input idx;
    kind ← ok_or (punch_type_from_u64 value) (InvalidType value);
    Ok ({| pp_kind := Some kind; pp_addrs := pp_addrs msg |}, idx)
  else if decide (field = FIELD_OBS_ADDRS ∧ wire_type = WIRE_LEN) then
    '(value, idx) ← read_len_delimited input idx;
    Ok ({| pp_kind := pp_kind msg; pp_addrs := pp_addrs msg ++ [value] |}, idx)
  else skip input wire_type msg idx.

Definition punch_decode (input : list byte) : res DcutrMessageError HolePunch :=
  parts ← while_tag (read_tag input) (punch_step input) (S (length input))
            {| pp_kind := None; pp_addrs := [] |} 0;
  kind ← ok_or (pp_kind parts) MissingType;
  Ok {| punch_kind := kind; obs_addrs := pp_addrs parts |}.

(** ** Lemmas *)

Definition punch_ok (m : HolePunch) : Prop := Forall bytes_ok (obs_addrs m).

Definition pp_set_kind (t : HolePunchType) (m : PunchParts) : PunchParts :=
  {| pp_kind := Some t; pp_addrs := pp_addrs m |}.
Definition pp_push (v : list byte) (m : PunchParts) : PunchParts :=
  {| pp_kind := pp_kind m; pp_addrs := pp_addrs m ++ [v] |}.

Definition punch_fields (m : HolePunch) : list (list byte * (PunchParts → PunchParts)) :=
  (varint_field 1 (punch_type_u64 (punch_kind m)), pp_set_kind (punch_kind m))
  :: ((λ a, (bytes_field 2 a, pp_push a)) <$> obs_addrs m).

Lemma punch_encode_fields m : punch_encode m = concat (punch_fields m).*1.
Proof.
  unfold punch_encode, punch_fields, FIELD_TYPE, FIELD_OBS_ADDRS. cbv zeta.
  rewrite (encode_bytes_fields_eq id 2), encode_varint_field_eq by done.
  rewrite list_fmap_id, fmap_cons, <- list_fmap_compose. done.
Qed.

Lemma punch_type_roundtrip t : punch_type_from_u64 (punch_type_u64 t) = Some t.
Proof. by destruct t. Qed.

Lemma punch_fields_consume m :
  punch_ok m → Forall (λ xf, consumes read_tag punch_step xf.1 xf.2) (punch_fields m).
Proof.
  intros Hm. apply Forall_cons. cbn [fst snd]. split.
  - assert (is_u64 (punch_type_u64 (punch_kind m))) by (destruct (punch_kind m); done).
    varint_field punch_step. by rewrite punch_type_roundtrip.
  - apply Forall_fmap. eapply Forall_impl; [exact Hm|]. intros a Ha. unfold compose. cbn [fst snd].
    by len_field punch_step.
Qed.

Lemma foldl_pp_push l m :
  foldl (λ m (f : PunchParts → PunchParts), f m) m (pp_push <$> l)
    = {| pp_kind := pp_kind m; pp_addrs := pp_addrs m ++ l |}.
Proof.
  revert m. induction l as [|a l IH]; intros m; [simpl; rewrite app_nil_r; by destruct m|].
  cbn [fmap list_fmap foldl]. rewrite IH. simpl. by rewrite <- app_assoc.
Qed.

Lemma punch_decode_encode m : punch_ok m → punch_decode (punch_encode m) = Ok m.
Proof.
  intros Hm. rewrite punch_encode_fields. unfold punch_decode.
  rewrite while_tag_pairs by by apply punch_fields_consume. cbn [mbind res_bind].
  unfold punch_fields. rewrite fmap_cons, <- list_fmap_compose. cbn [foldl snd].
  change (snd ∘ λ a, (bytes_field 2 a, pp_push a)) with pp_push. rewrite foldl_pp_push.
  by destruct m.
Qed.

Lemma punch_decode_total input : punch_decode input ≠ Panic.
Proof.
  unfold punch_decode. apply bind_no_panic.
  - apply while_read_total. unfold punch_step. step_total. by apply nested_pos; [apply ok_or_no_panic|].
  - intros parts _. by destruct (pp_kind parts).
Qed.
