(* ===== verification/Dcutr.v ===== *)
(** * Direct connection upgrade ([crates/dcutr/src/lib.rs])

    Two peers that talk through a relay exchange their observed addresses and then a
    synchronisation signal: [DcutrInitiator] sends CONNECT, waits for the reply, and
    sends SYNC when its caller has started dialing; [DcutrResponder] answers CONNECT
    and waits for SYNC.  [overflow_checks] says whether the crate is built with overflow
    checks, which [decode_frame] depends on. *)
From S2P Require Import Prelude SansIo Varint Protobuf Framing PeerId Multiaddr DcutrMessage.
From Stdlib Require Import ZArith Strings.Byte Strings.String.
From stdpp Require Import base numbers list strings.

#[local] Open Scope Z_scope.

Definition DCUTR_PROTOCOL_ID : string := "/libp2p/dcutr"%string.
Definition MAX_MESSAGE_SIZE : Z := 4096.

Inductive DcutrError : Type :=
  | MessageTooLarge (len : nat)
  | Malformed (e : DcutrMessageError)
  | UnexpectedMessage (reason : string).

Inductive InitiatorState : Type :=
  | Pending | AwaitingConnectReply | ReadyToSync | SyncPending | InitiatorDone.
#[export] Instance InitiatorState_eq_dec : EqDecision InitiatorState.
Proof. solve_decision. Defined.

Inductive ResponderState : Type := AwaitingConnect | AwaitingSync | ResponderDone.
#[export] Instance ResponderState_eq_dec : EqDecision ResponderState.
Proof. solve_decision. Defined.

(** [{:?}]. *)
Definition punch_type_debug (t : HolePunchType) : string :=
  match t with PunchConnect => "Connect" | PunchSync => "Sync" end%string.
Definition initiator_state_debug (s : InitiatorState) : string :=
  match s with
  | Pending => "Pending" | AwaitingConnectReply => "AwaitingConnectReply"
  | ReadyToSync => "ReadyToSync" | SyncPending => "SyncPending" | InitiatorDone => "Done"
  end%string.
Definition responder_state_debug (s : ResponderState) : string :=
  match s with
  | AwaitingConnect => "AwaitingConnect" | AwaitingSync => "AwaitingSync"
  | ResponderDone => "Done"
  end%string.

Definition enforce_max_size (buf : list byte) : res DcutrError unit :=
  if MAX_MESSAGE_SIZE <? Z.of_nat (length buf) then Err (MessageTooLarge (length buf)) else Ok ().

Section dcutr.
Context {P : Type} `{PidEq : EqDecision P} `{!PeerIdBytes P}.
Context (utf8_error_text : list byte → string) (overflow_checks : bool).
#[local] Abbreviation Multiaddr := (Multiaddr P).

Definition encode_multiaddr (addr : Multiaddr) : list byte := to_bytes addr.

(** [.filter_map(|bytes| Multiaddr::from_bytes(bytes).ok())] *)
Definition decode_remote_addrs (raw : list (list byte)) : list Multiaddr :=
  omap (λ bytes, match from_bytes utf8_error_text bytes with Ok a => Some a | _ => None end) raw.

(** The common first half of the two decoders: size check, framing, decoding, and
    draining the frame.  [None] means that more bytes are needed. *)
Definition read_message (recv_buf : list byte) : res DcutrError (option (HolePunch * list byte)) :=
  _ ← enforce_max_size recv_buf;
  match decode_frame overflow_checks recv_buf with
  | Ok (Complete payload consumed) =>
      msg ← map_err Malformed (punch_decode payload);
      Ok (Some (msg, drop (Z.to_nat consumed) recv_buf))
  | Ok Incomplete => Ok None
  | Ok (FrameError e) => Err (Malformed (DcutrMessage.Varint e))
  | _ => Panic
  end.

Definition connect_message (addrs : list (list byte)) : HolePunch :=
  {| punch_kind := PunchConnect; obs_addrs := addrs |}.
Definition sync_message : HolePunch := {| punch_kind := PunchSync; obs_addrs := [] |}.

(** ** DcutrInitiator *)

Inductive InitiatorOutcome : Type :=
  | DialNow (remote_addrs : list Multiaddr) (remote_addr_bytes : list (list byte)) (rtt_ms : Z).

Inductive DcutrInitiatorInput : Type :=
  | DiFlush
  | DiData (bytes : list byte) (rtt_ms : Z)
  | DiRemoteWriteClosed
  | DiSendSync.

Inductive DcutrInitiatorOutput : Type :=
  | DiOutbound (data : list byte)
  | DiOutcome (o : InitiatorOutcome).

Record DcutrInitiator : Type := {
  di_outbound : list byte;
  di_recv_buf : list byte;
  di_state : InitiatorState;
  di_outcome : option InitiatorOutcome;
  di_emitted : bool;
}.

Definition di_set_state (m : DcutrInitiator) (s : InitiatorState) : DcutrInitiator :=
  {| di_outbound := di_outbound m; di_recv_buf := di_recv_buf m; di_state := s;
     di_outcome := di_outcome m; di_emitted := di_emitted m |}.
Definition di_set_buf (m : DcutrInitiator) (b : list byte) : DcutrInitiator :=
  {| di_outbound := di_outbound m; di_recv_buf := b; di_state := di_state m;
     di_outcome := di_outcome m; di_emitted := di_emitted m |}.
Definition di_set_outbound (m : DcutrInitiator) (b : list byte) : DcutrInitiator :=
  {| di_outbound := b; di_recv_buf := di_recv_buf m; di_state := di_state m;
     di_outcome := di_outcome m; di_emitted := di_emitted m |}.

Definition di_new (own_addrs : list Multiaddr) : DcutrInitiator :=
  {| di_outbound := encode_frame (punch_encode (connect_message (encode_multiaddr <$> own_addrs)));
     di_recv_buf := []; di_state := Pending; di_outcome := None; di_emitted := false |}.

Definition di_take_outbound (m : DcutrInitiator) : list byte * DcutrInitiator :=
  let bytes := di_outbound m in
  let m := di_set_outbound m [] in
  let m := di_set_state m (match di_state m with
                           | Pending => AwaitingConnectReply
                           | SyncPending => InitiatorDone
                           | other => other
                           end) in
  (bytes, m).

Definition di_is_done (m : DcutrInitiator) : bool := bool_decide (di_state m = InitiatorDone).

Definition di_send_sync (m : DcutrInitiator) : DcutrInitiator * res DcutrError unit :=
  if decide (di_state m ≠ ReadyToSync)
  then (m, Err (UnexpectedMessage
                  ("cannot send SYNC from state " ++ initiator_state_debug (di_state m))%string))
  else
    let m := di_set_outbound m (di_outbound m ++ encode_frame (punch_encode sync_message)) in
    (di_set_state m SyncPending, Ok ()).

Definition di_try_decode_reply (m : DcutrInitiator) (rtt_ms : Z) : DcutrInitiator * res DcutrError unit :=
  if decide (di_state m ≠ AwaitingConnectReply) then (m, Ok ())
  else
    match read_message (di_recv_buf m) with
    | Err e => (di_set_state m InitiatorDone, Err e)
    | Panic => (m, Panic)
    | Ok None => (m, Ok ())
    | Ok (Some (reply, rest)) =>
        let m := di_set_buf m rest in
        if decide (punch_kind reply ≠ PunchConnect)
        then (di_set_state m InitiatorDone,
              Err (UnexpectedMessage ("expected HolePunch CONNECT but got "
                                        ++ punch_type_debug (punch_kind reply))%string))
        else
          let m := di_set_state m ReadyToSync in
          let remote_addrs := decode_remote_addrs (obs_addrs reply) in
          ({| di_outbound := di_outbound m; di_recv_buf := di_recv_buf m; di_state := di_state m;
              di_outcome := Some (DialNow remote_addrs (obs_addrs reply) rtt_ms);
              di_emitted := false |}, Ok ())
    end.

Definition di_on_data (m : DcutrInitiator) (data : list byte) (rtt_ms : Z)
    : DcutrInitiator * res DcutrError unit :=
  if decide (di_state m = InitiatorDone ∨ di_state m = SyncPending) then (m, Ok ())
  else di_try_decode_reply (di_set_buf m (di_recv_buf m ++ data)) rtt_ms.

Definition di_on_remote_write_closed (m : DcutrInitiator) : DcutrInitiator * res DcutrError unit :=
  (m, Ok ()).

Definition di_handle_input (m : DcutrInitiator) (input : DcutrInitiatorInput)
    : DcutrInitiator * res DcutrError unit :=
  match input with
  | DiFlush => (m, Ok ())
  | DiData bytes rtt_ms => di_on_data m bytes rtt_ms
  | DiRemoteWriteClosed => di_on_remote_write_closed m
  | DiSendSync => di_send_sync m
  end.

Definition di_poll_output (m : DcutrInitiator) : option DcutrInitiatorOutput * DcutrInitiator :=
  let '(outbound, m) := di_take_outbound m in
  if decide (outbound ≠ []) then (Some (DiOutbound outbound), m)
  else
    match di_emitted m, di_outcome m with
    | false, Some outcome =>
        (Some (DiOutcome outcome),
         {| di_outbound := di_outbound m; di_recv_buf := di_recv_buf m; di_state := di_state m;
            di_outcome := di_outcome m; di_emitted := true |})
    | _, _ => (None, m)
    end.

Definition di_is_idle (m : DcutrInitiator) : bool :=
  bool_decide (di_outbound m = []) && (di_emitted m || bool_decide (di_outcome m = None)).

(** ** DcutrResponder *)

Inductive ResponderEvent : Type :=
  | ConnectReceived (remote_addrs : list Multiaddr) (remote_addr_bytes : list (list byte))
  | SyncReceived.

Inductive DcutrResponderInput : Type :=
  | DrFlush
  | DrData (data : list byte)
  | DrRemoteWriteClosed.

Inductive DcutrResponderOutput : Type :=
  | DrOutbound (data : list byte)
  | DrEvent (e : ResponderEvent).

Record DcutrResponder : Type := {
  dr_own_addrs : list (list byte);
  dr_outbound : list byte;
  dr_recv_buf : list byte;
  dr_state : ResponderState;
  dr_events : list ResponderEvent;
}.

Definition dr_set_state (m : DcutrResponder) (s : ResponderState) : DcutrResponder :=
  {| dr_own_addrs := dr_own_addrs m; dr_outbound := dr_outbound m; dr_recv_buf := dr_recv_buf m;
     dr_state := s; dr_events := dr_events m |}.
Definition dr_set_buf (m : DcutrResponder) (b : list byte) : DcutrResponder :=
  {| dr_own_addrs := dr_own_addrs m; dr_outbound := dr_outbound m; dr_recv_buf := b;
     dr_state := dr_state m; dr_events := dr_events m |}.
Definition dr_set_outbound (m : DcutrResponder) (b : list byte) : DcutrResponder :=
  {| dr_own_addrs := dr_own_addrs m; dr_outbound := b; dr_recv_buf := dr_recv_buf m;
     dr_state := dr_state m; dr_events := dr_events m |}.
Definition dr_set_events (m : DcutrResponder) (es : list ResponderEvent) : DcutrResponder :=
  {| dr_own_addrs := dr_own_addrs m; dr_outbound := dr_outbound m; dr_recv_buf := dr_recv_buf m;
     dr_state := dr_state m; dr_events := es |}.

Definition dr_new (own_addrs : list Multiaddr) : DcutrResponder :=
  {| dr_own_addrs := encode_multiaddr <$> own_addrs; dr_outbound := []; dr_recv_buf := [];
     dr_state := AwaitingConnect; dr_events := [] |}.

Definition dr_take_outbound (m : DcutrResponder) : list byte * DcutrResponder :=
  (dr_outbound m, dr_set_outbound m []).

Definition dr_is_done (m : DcutrResponder) : bool := bool_decide (dr_state m = ResponderDone).

(** The [match (self.state, msg.kind)] of [try_decode]. *)
Definition dr_on_message (m : DcutrResponder) (msg : HolePunch) : DcutrResponder * res DcutrError unit :=
  match dr_state m, punch_kind msg with
  | AwaitingConnect, PunchConnect =>
      let reply := connect_message (dr_own_addrs m) in
      let m := dr_set_outbound m (dr_outbound m ++ encode_frame (punch_encode reply)) in
      let remote_addr_bytes := obs_addrs msg in
      let remote_addrs := decode_remote_addrs remote_addr_bytes in
      let m := dr_set_events m (dr_events m ++ [ConnectReceived remote_addrs remote_addr_bytes]) in
      (dr_set_state m AwaitingSync, Ok ())
  | AwaitingSync, PunchSync =>
      let m := dr_set_events m (dr_events m ++ [SyncReceived]) in
      (dr_set_state m ResponderDone, Ok ())
  | current_state, actual_kind =>
      (dr_set_state m ResponderDone,
       Err (UnexpectedMessage ("unexpected " ++ punch_type_debug actual_kind ++ " in state "
                                 ++ responder_state_debug current_state)%string))
  end.

(** The [loop] of [try_decode]. *)
Fixpoint dr_try_decode_loop (fuel : nat) (m : DcutrResponder) : DcutrResponder * res DcutrError unit :=
  match fuel with
  | O => (m, Panic)
  | S fuel =>
      if decide (dr_state m = ResponderDone) then (m, Ok ())
      else
        match read_message (dr_recv_buf m) with
        | Err e => (dr_set_state m ResponderDone, Err e)
        | Panic => (m, Panic)
        | Ok None => (m, Ok ())
        | Ok (Some (msg, rest)) =>
            match dr_on_message (dr_set_buf m rest) msg with
            | (m, Ok _) => dr_try_decode_loop fuel m
            | r => r
            end
        end
  end.

(** Every message the loop accepts advances the state, and there are three. *)
Definition dr_try_decode (m : DcutrResponder) : DcutrResponder * res DcutrError unit :=
  dr_try_decode_loop 3 m.

Definition dr_on_data (m : DcutrResponder) (data : list byte) : DcutrResponder * res DcutrError unit :=
  if decide (dr_state m = ResponderDone) then (m, Ok ())
  else dr_try_decode (dr_set_buf m (dr_recv_buf m ++ data)).

Definition dr_on_remote_write_closed (m : DcutrResponder) : DcutrResponder * res DcutrError unit :=
  dr_try_decode m.

Definition dr_handle_input (m : DcutrResponder) (input : DcutrResponderInput)
    : DcutrResponder * res DcutrError unit :=
  match input with
  | DrFlush => (m, Ok ())
  | DrData data => dr_on_data m data
  | DrRemoteWriteClosed => dr_on_remote_write_closed m
  end.

Definition dr_poll_output (m : DcutrResponder) : option DcutrResponderOutput * DcutrResponder :=
  let '(outbound, m) := dr_take_outbound m in
  if decide (outbound ≠ []) then (Some (DrOutbound outbound), m)
  else
    match dr_events m with
    | [] => (None, m)
    | e :: es => (Some (DrEvent e), dr_set_events m es)
    end.

Definition dr_is_idle (m : DcutrResponder) : bool :=
  bool_decide (dr_outbound m = []) && bool_decide (dr_events m = []).

(** ** The trait *)

#[export] Instance Di_sansio :
    SansIoProtocol DcutrInitiator DcutrInitiatorInput DcutrInitiatorOutput DcutrError := {
  handle_input := di_handle_input; poll_output := di_poll_output; is_idle := di_is_idle }.
#[export] Instance Dr_sansio :
    SansIoProtocol DcutrResponder DcutrResponderInput DcutrResponderOutput DcutrError := {
  handle_input := dr_handle_input; poll_output := dr_poll_output; is_idle := dr_is_idle }.

#[local] Ltac law_case := cbn; intros; simplify_eq/=; first [done | lia | naive_solver].

#[export, refine] Instance Di_laws : SansIoLaws Di_sansio := {
  pending m := (some_bytes (di_outbound m) + unsent (di_emitted m) (di_outcome m))%nat }.
Proof.
  - intros [o b s oc e]; cbn -[decide]. unfold di_is_idle, di_poll_output, di_take_outbound.
    cbn -[decide]. destruct o, s, oc, e; law_case.
  - intros [o b s oc e] m'; cbn -[decide]. unfold di_is_idle, di_poll_output, di_take_outbound.
    cbn -[decide]. destruct o, s, oc, e; law_case.
  - intros [o b s oc e] x m'; cbn -[decide]. unfold di_poll_output, di_take_outbound.
    destruct o, s, oc, e; law_case.
Defined.

#[export, refine] Instance Dr_laws : SansIoLaws Dr_sansio := {
  pending m := (some_bytes (dr_outbound m) + length (dr_events m))%nat }.
Proof.
  - intros [a o b s es]; cbn -[decide]. unfold dr_is_idle, dr_poll_output, dr_take_outbound.
    destruct o, es; law_case.
  - intros [a o b s es] m'; cbn -[decide]. unfold dr_is_idle, dr_poll_output, dr_take_outbound.
    destruct o, es; law_case.
  - intros [a o b s es] x m'; cbn -[decide]. unfold dr_poll_output, dr_take_outbound.
    destruct o, es; law_case.
Defined.

(** ** Reading a framed message from a growing buffer *)

Lemma dcutr_size_ok buf : Z.of_nat (length buf) <= MAX_MESSAGE_SIZE → enforce_max_size buf = Ok ().
Proof. intros. unfold enforce_max_size. by rewrite (proj2 (Z.ltb_ge _ _)) by done. Qed.

Lemma dcutr_reader msg frame :
  framed punch_decode msg frame → MessageReader read_message MAX_MESSAGE_SIZE msg frame.
Proof.
  intros (p & -> & Hd & Hp). split.
  - intros tail Hm. unfold read_message. rewrite dcutr_size_ok by done.
    cbn [mbind res_bind]. rewrite decode_encode_frame, Hd by done. cbn [mbind res_bind map_err].
    by rewrite Nat2Z.id, drop_app_length.
  - intros buf k Hk Hne Hm. unfold read_message. rewrite dcutr_size_ok by done.
    cbn [mbind res_bind]. rewrite (decode_frame_prefix _ p); [done|done|by exists k|].
    intros ->. apply Hne. by apply (app_inv_head (encode_frame p)); rewrite app_nil_r.
Qed.

Lemma read_message_nil : read_message [] = Ok None.
Proof. done. Qed.

(** The frame of a message that fits. *)
Definition punch_frame (m : HolePunch) : list byte := encode_frame (punch_encode m).

Lemma punch_reader m :
  punch_ok m → Z.of_nat (length (punch_frame m)) <= MAX_MESSAGE_SIZE →
  MessageReader read_message MAX_MESSAGE_SIZE m (punch_frame m).
Proof.
  intros Hm Hl. apply dcutr_reader.
  exact (framed_payload _ _ _ _ (punch_decode_encode m Hm) Hl eq_refl).
Qed.

(** Addresses survive the trip. *)
Lemma decode_encode_addrs addrs : addrs_ok addrs → decode_remote_addrs (encode_multiaddr <$> addrs) = addrs.
Proof. apply omap_from_to_bytes. Qed.

Lemma connect_ok addrs : addrs_ok addrs → punch_ok (connect_message (encode_multiaddr <$> addrs)).
Proof. apply addrs_bytes_ok. Qed.

(** ** The initiator *)

(** The initiator after the reply [msg], measured at [rtt], with [rest] behind it. *)
Definition di_finish (m : DcutrInitiator) (msg : HolePunch) (rtt : Z) (rest : list byte) : DcutrInitiator :=
  {| di_outbound := di_outbound m; di_recv_buf := rest; di_state := ReadyToSync;
     di_outcome := Some (DialNow (decode_remote_addrs (obs_addrs msg)) (obs_addrs msg) rtt);
     di_emitted := false |}.

Definition di_data (c : list byte * Z) : DcutrInitiatorInput := DiData c.1 c.2.

Lemma di_on_data_waiting m data rtt :
  di_state m = AwaitingConnectReply →
  di_on_data m data rtt =
    let m := di_set_buf m (di_recv_buf m ++ data) in
    match read_message (di_recv_buf m) with
    | Err e => (di_set_state m InitiatorDone, Err e)
    | Panic => (m, Panic)
    | Ok None => (m, Ok ())
    | Ok (Some (reply, rest)) =>
        if decide (punch_kind reply ≠ PunchConnect)
        then (di_set_state (di_set_buf m rest) InitiatorDone,
              Err (UnexpectedMessage ("expected HolePunch CONNECT but got "
                                        ++ punch_type_debug (punch_kind reply))%string))
        else (di_finish m reply rtt rest, Ok ())
    end.
Proof.
  intros Hs. unfold di_on_data. rewrite decide_False by (rewrite Hs; by intros [?|?]).
  unfold di_try_decode_reply. by rewrite decide_False by (cbn; by intros ?).
Qed.

(** The reply is processed at the chunk that completes it: its round trip time counts. *)
Lemma di_feed_reply msg m cs c rtt :
  punch_ok msg → punch_kind msg = PunchConnect →
  Z.of_nat (length (punch_frame msg)) <= MAX_MESSAGE_SIZE →
  di_state m = AwaitingConnectReply → di_recv_buf m = [] →
  concat cs.*1 ++ c = punch_frame msg → c ≠ [] →
  feed_inputs m (di_data <$> cs ++ [(c, rtt)]) = (di_finish m msg rtt [], Ok ()).
Proof.
  intros Hm Hk Hl Hs Hb Hcat Hc. pose proof (punch_reader msg Hm Hl).
  assert (concat (cs ++ [(c, rtt)]).*1 = punch_frame msg) as Hall.
  { rewrite fmap_app, concat_app. cbn. by rewrite app_nil_r. }
  destruct (feed_awaited_at di_data fst read_message MAX_MESSAGE_SIZE
    (λ m, di_state m = AwaitingConnectReply) di_recv_buf di_set_buf
    (λ m c rest, (di_finish m msg c.2 rest, Ok ())) msg (punch_frame msg))
    with m (@nil byte) (cs ++ [(c, rtt)]) (punch_frame msg) as (pre & c' & t & cs' & Hcs & Ht & ->); try done.
  - intros m' c' Hw Hr. cbn. rewrite di_on_data_waiting by done.
    cbn [di_recv_buf di_set_buf]. by rewrite Hr.
  - intros m' c' rest Hw Hr. cbn. rewrite di_on_data_waiting by done.
    cbn [di_recv_buf di_set_buf]. rewrite Hr. by rewrite decide_False by (by intros ?).
  - apply total_fits. by rewrite Hb, Hall.
  - by rewrite Hb, Hall, app_nil_r.
  - by rewrite Hb.
  - apply eq_sym, app_eq_nil in Ht as [-> Ht]. destruct cs' as [|x cs' _] using rev_ind.
    + apply app_inj_tail in Hcs as [_ <-]. done.
    + exfalso. rewrite app_comm_cons, app_assoc in Hcs. apply app_inj_tail in Hcs as [_ <-].
      rewrite fmap_app, concat_app in Ht. apply app_eq_nil in Ht as [_ Ht]. cbn in Ht.
      by rewrite app_nil_r in Ht.
Qed.

(** ** The responder *)

(** The responder after the initiator's CONNECT, and after its SYNC. *)
Definition dr_connected (m : DcutrResponder) (msg : HolePunch) : DcutrResponder :=
  {| dr_own_addrs := dr_own_addrs m;
     dr_outbound := dr_outbound m ++ punch_frame (connect_message (dr_own_addrs m));
     dr_recv_buf := []; dr_state := AwaitingSync;
     dr_events := dr_events m ++ [ConnectReceived (decode_remote_addrs (obs_addrs msg)) (obs_addrs msg)] |}.
Definition dr_synced (m : DcutrResponder) : DcutrResponder :=
  {| dr_own_addrs := dr_own_addrs m; dr_outbound := dr_outbound m; dr_recv_buf := [];
     dr_state := ResponderDone; dr_events := dr_events m ++ [SyncReceived] |}.

Lemma dr_loop_empty fuel m :
  dr_recv_buf m = [] → dr_try_decode_loop (S fuel) m = (m, Ok ()).
Proof. intros Hb. cbn [dr_try_decode_loop]. case_decide; [done|]. by rewrite Hb, read_message_nil. Qed.

Lemma dr_set_buf_same m b : dr_recv_buf m = b → dr_set_buf m b = m.
Proof. intros <-. by destruct m. Qed.

Lemma dr_feed_empty m cs :
  dr_recv_buf m = [] → concat cs = [] → feed_inputs m (DrData <$> cs) = (m, Ok ()).
Proof.
  intros Hb. induction cs as [|c cs IH]; [done|]. cbn [concat]. intros [-> Hc]%app_eq_nil.
  cbn [fmap list_fmap feed_inputs handle_input Dr_sansio dr_handle_input]. unfold dr_on_data.
  case_decide; [by apply IH|]. rewrite app_nil_r, dr_set_buf_same by done.
  unfold dr_try_decode. rewrite dr_loop_empty by done. by apply IH.
Qed.

(** Waiting in a state: the message of that state is accepted, and the loop goes on. *)
Lemma dr_feed_message msg m cs m' :
  punch_ok msg → Z.of_nat (length (punch_frame msg)) <= MAX_MESSAGE_SIZE →
  dr_state m ≠ ResponderDone → dr_recv_buf m = [] → concat cs = punch_frame msg →
  dr_on_message (dr_set_buf m []) msg = (m', Ok ()) → dr_recv_buf m' = [] →
  feed_inputs m (DrData <$> cs) = (m', Ok ()).
Proof.
  intros Hm Hl Hs Hb Hcat Hon Hb'. pose proof (punch_reader msg Hm Hl).
  destruct (feed_awaited_at DrData id read_message MAX_MESSAGE_SIZE
    (λ m, dr_state m ≠ ResponderDone) dr_recv_buf dr_set_buf
    (λ m _ rest, match dr_on_message (dr_set_buf m rest) msg with
                 | (m, Ok _) => dr_try_decode_loop 2 m
                 | r => r
                 end) msg (punch_frame msg))
    with m (@nil byte) cs (punch_frame msg) as (pre & c' & t & cs' & Hcs & Ht & ->); try done.
  - intros m1 c1 Hw Hr. unfold id in *. cbn [handle_input Dr_sansio dr_handle_input]. unfold dr_on_data, dr_try_decode. rewrite decide_False by done.
    cbn [dr_try_decode_loop]. rewrite decide_False by done. cbn [dr_recv_buf dr_set_buf]. by rewrite Hr.
  - intros m1 c1 rest Hw Hr. unfold id in *. cbn [handle_input Dr_sansio dr_handle_input].
    unfold dr_on_data, dr_try_decode. rewrite decide_False by done.
    cbn [dr_try_decode_loop]. rewrite decide_False by done. cbn [dr_recv_buf dr_set_buf]. by rewrite Hr.
  - apply total_fits. by rewrite Hb, list_fmap_id, Hcat.
  - by rewrite Hb, list_fmap_id, Hcat, app_nil_r.
  - by rewrite Hb.
  - apply eq_sym, app_eq_nil in Ht as [-> Ht]. rewrite list_fmap_id in Ht.
    rewrite Hon, dr_loop_empty by done. by apply dr_feed_empty.
Qed.

(** ** Properties *)

(** The machines once their first output was polled. *)
Definition di_started (own_addrs : list Multiaddr) : DcutrInitiator :=
  (di_poll_output (di_new own_addrs)).2.

(** The frames of an exchange. *)
Definition connect_frame (addrs : list Multiaddr) : list byte :=
  punch_frame (connect_message (encode_multiaddr <$> addrs)).
Definition sync_frame : list byte := punch_frame sync_message.

(** C24. Hole punching end to end: the initiator sends its addresses; the responder,
    whatever the fragmentation, reports exactly them, once, and answers with its own;
    the initiator then tells its caller to dial exactly those, with the round trip time
    of the chunk that completed the reply; and when the caller asks for it SYNC goes
    out, is reported to the responder's caller, and both sides are done. *)
Theorem dcutr_exchange a b cs1 cs2 c rtt cs3 :
  addrs_ok a → addrs_ok b →
  Z.of_nat (length (connect_frame a)) <= MAX_MESSAGE_SIZE →
  Z.of_nat (length (connect_frame b)) <= MAX_MESSAGE_SIZE →
  concat cs1 = connect_frame a → concat cs2.*1 ++ c = connect_frame b → c ≠ [] →
  concat cs3 = sync_frame →
  di_poll_output (di_new a) = (Some (DiOutbound (connect_frame a)), di_started a) ∧
  ∃ r1 r2 r3 r4 i2 i3 i4 i5,
    feed_inputs (dr_new b) (DrData <$> cs1) = (r1, Ok ()) ∧
    drain_all r1 = ([DrOutbound (connect_frame b); DrEvent (ConnectReceived a (encode_multiaddr <$> a))], r2) ∧
    feed_inputs (di_started a) (di_data <$> cs2 ++ [(c, rtt)]) = (i2, Ok ()) ∧
    drain_all i2 = ([DiOutcome (DialNow b (encode_multiaddr <$> b) rtt)], i3) ∧
    di_handle_input i3 DiSendSync = (i4, Ok ()) ∧
    drain_all i4 = ([DiOutbound sync_frame], i5) ∧
    feed_inputs r2 (DrData <$> cs3) = (r3, Ok ()) ∧
    drain_all r3 = ([DrEvent SyncReceived], r4) ∧
    di_is_done i5 = true ∧ dr_is_done r4 = true.
Proof.
  intros Ha Hb Hla Hlb H1 H2 Hc H3. split.
  { unfold di_started, di_poll_output. cbn -[decide]. by rewrite decide_True by apply encode_frame_ne. }
  pose proof (dr_feed_message (connect_message (encode_multiaddr <$> a)) (dr_new b) cs1 _
    (connect_ok a Ha) Hla ltac:(done) eq_refl H1 eq_refl eq_refl) as Hr1.
  pose proof (di_feed_reply (connect_message (encode_multiaddr <$> b)) (di_started a) cs2 c rtt
    (connect_ok b Hb) eq_refl Hlb eq_refl eq_refl H2 Hc) as Hi2.
  eexists _, _, _, _, _, _, _, _. split; [exact Hr1|]. split.
  { unfold drain_all. cbn. by rewrite decode_encode_addrs. }
  split; [exact Hi2|]. split.
  { unfold drain_all. cbn. by rewrite decode_encode_addrs. }
  split; [done|]. split; [done|]. split.
  { apply (dr_feed_message sync_message); [constructor|done..]. }
  done.
Qed.

(** ** Any order of inputs and polls *)

Definition di_out (o : DcutrInitiatorOutput) : option (list byte) :=
  match o with DiOutbound d => Some d | _ => None end.
Definition di_told (o : DcutrInitiatorOutput) : option InitiatorOutcome :=
  match o with DiOutcome x => Some x | _ => None end.
Definition dr_out (o : DcutrResponderOutput) : option (list byte) :=
  match o with DrOutbound d => Some d | _ => None end.
Definition dr_told (o : DcutrResponderOutput) : option ResponderEvent :=
  match o with DrEvent e => Some e | _ => None end.

(** What the initiator has sent and told its caller, per state. *)
Definition di_inv (connect : list byte) (os : list DcutrInitiatorOutput) (m : DcutrInitiator) : Prop :=
  let told := omap di_told os ++ (if di_emitted m then [] else option_list (di_outcome m)) in
  let progress (sent : list (list byte)) := omap di_out os = sent ∧ (length told ≤ 1)%nat in
  match di_state m with
  | Pending => progress [] ∧ di_outbound m = connect ∧ di_outcome m = None ∧ told = []
  | AwaitingConnectReply => progress [connect] ∧ di_outbound m = [] ∧ di_outcome m = None ∧ told = []
  | ReadyToSync => progress [connect] ∧ di_outbound m = [] ∧ di_outcome m ≠ None
  | SyncPending => progress [connect] ∧ di_outbound m = sync_frame ∧ di_outcome m ≠ None
  | InitiatorDone => di_outbound m = [] ∧
      (progress [connect] ∨ progress [connect; sync_frame] ∧ di_outcome m ≠ None)
  end.

Lemma di_on_data_other m data rtt :
  di_state m ≠ AwaitingConnectReply → ∃ b, (di_on_data m data rtt).1 = di_set_buf m b.
Proof.
  intros Hs. unfold di_on_data, di_try_decode_reply. case_decide.
  - exists (di_recv_buf m). by destruct m.
  - rewrite decide_True by done. by eexists.
Qed.

Lemma di_inv_input connect os m i : di_inv connect os m → di_inv connect os (di_handle_input m i).1.
Proof.
  destruct i as [|data rtt| |]; try done; cbn [di_handle_input].
  - destruct (decide (di_state m = AwaitingConnectReply)) as [Hs|Hs].
    + rewrite di_on_data_waiting by done. unfold di_inv. rewrite Hs. cbv zeta.
      cbn [di_recv_buf di_set_buf]. intros ((Ho & _) & Hb & Hn & Ht). rewrite Hn in *.
      assert (omap di_told os = []) as Hz by (by apply app_eq_nil in Ht as [? _]).
      destruct (read_message _) as [[[msg rest]|]| |]; [case_decide| | |];
        cbn; rewrite ?Hs, ?Hn, ?Hz, ?Ho, ?Hb; cbn; destruct (di_emitted m); cbn;
        split_and!; auto; left; split; auto.
    + destruct (di_on_data_other m data rtt Hs) as [b ->]. done.
  - unfold di_send_sync.
    destruct (decide (di_state m = ReadyToSync)) as [Hs|Hs]; [|by rewrite decide_True by done].
    rewrite decide_False by (by intros ?). unfold di_inv. rewrite Hs. cbn. intros (? & -> & ?). done.
Qed.

Lemma di_inv_poll connect os m :
  connect ≠ [] → di_inv connect os m →
  di_inv connect (os ++ option_list (di_poll_output m).1) (di_poll_output m).2.
Proof.
  intros Hc. destruct m as [o b s oc e]. unfold di_inv, di_poll_output, di_take_outbound.
  cbn -[decide]. assert (sync_frame ≠ []) by done.
  destruct s; cbn -[decide]; intros Hi; destruct_and?; subst;
    repeat first [rewrite decide_True by done | rewrite decide_False by (by intros ?)];
    destruct e; try destruct oc as [oc|]; try done; cbn; rewrite ?omap_app, ?app_nil_r in *; cbn;
    rewrite ?app_nil_r in *; repeat match goal with H : omap _ _ = _ |- _ => rewrite H in * end;
    cbn in *; try naive_solver.
Qed.

(** What the responder has sent and told its caller, per state. *)
Definition dr_inv (own : list (list byte)) (os : list DcutrResponderOutput) (m : DcutrResponder) : Prop :=
  let reply := punch_frame (connect_message own) in
  let told := omap dr_told os ++ dr_events m in
  let quiet := omap dr_out os = [] ∧ dr_outbound m = [] ∧ told = [] in
  let replied := omap dr_out os = [] ∧ dr_outbound m = reply ∨ omap dr_out os = [reply] ∧ dr_outbound m = [] in
  let connected := replied ∧ ∃ x y, told = [ConnectReceived x y] in
  dr_own_addrs m = own ∧
  match dr_state m with
  | AwaitingConnect => quiet
  | AwaitingSync => connected
  | ResponderDone => quiet ∨ connected ∨ replied ∧ ∃ x y, told = [ConnectReceived x y; SyncReceived]
  end.

Lemma dr_inv_done own os m : dr_inv own os m → dr_inv own os (dr_set_state m ResponderDone).
Proof. unfold dr_inv. cbn. destruct (dr_state m); tauto. Qed.

Lemma dr_inv_message own os m msg :
  dr_state m ≠ ResponderDone → dr_inv own os m → dr_inv own os (dr_on_message m msg).1.
Proof.
  intros Hs Hi. unfold dr_on_message.
  destruct (dr_state m) eqn:E, (punch_kind msg); cbn [fst]; try done; try by apply dr_inv_done.
  - unfold dr_inv in *. rewrite E in Hi. cbn. destruct Hi as (<- & Ho & -> & [Ht ->]%app_eq_nil).
    rewrite Ht. cbn. split_and!; [done|by left|by eexists _, _].
  - unfold dr_inv in *. rewrite E in Hi. cbn. destruct Hi as (<- & Hr & x & y & Ht).
    split; [done|]. right. right. split; [done|]. exists x, y. by rewrite app_assoc, Ht.
Qed.

Lemma dr_inv_loop own os fuel m : dr_inv own os m → dr_inv own os (dr_try_decode_loop fuel m).1.
Proof.
  revert m. induction fuel as [|fuel IH]; intros m Hi; [done|]. cbn [dr_try_decode_loop].
  case_decide as Hs; [done|]. destruct (read_message _) as [[[msg rest]|]| |]; try done; [|by apply dr_inv_done].
  pose proof (dr_inv_message own os (dr_set_buf m rest) msg Hs Hi) as Hm.
  destruct (dr_on_message _ _) as [m' [| |]]; [by apply IH|done..].
Qed.

Lemma dr_inv_input own os m i : dr_inv own os m → dr_inv own os (dr_handle_input m i).1.
Proof.
  intros Hi. destruct i; cbn [dr_handle_input]; [done| |by apply dr_inv_loop].
  unfold dr_on_data. case_decide; [done|]. by apply dr_inv_loop.
Qed.

Lemma dr_inv_poll own os m :
  dr_inv own os m → dr_inv own (os ++ option_list (dr_poll_output m).1) (dr_poll_output m).2.
Proof.
  destruct m as [a o b s es]. unfold dr_inv, dr_poll_output, dr_take_outbound. cbn -[decide].
  intros [-> Hi]. split; [by repeat case_match|].
  destruct (decide (o ≠ [])) as [Ho|Ho].
  - cbn. rewrite !omap_app. cbn. rewrite !app_nil_r.
    destruct s; naive_solver (by rewrite ?H).
  - assert (o = []) as -> by (by destruct o; [|destruct Ho]).
    destruct es as [|e es]; cbn; rewrite !omap_app; cbn; rewrite ?app_nil_r, <- ?app_assoc in *; done.
Qed.

(** What the invariants say about the outputs alone. *)
Lemma di_inv_summary connect os m :
  di_inv connect os m →
  omap di_out os `prefix_of` [connect; sync_frame] ∧
  ((1 < length (omap di_out os))%nat → di_outcome m ≠ None) ∧
  (length (omap di_told os) ≤ 1)%nat.
Proof.
  assert (∀ sent : list (list byte), sent = [] ∨ sent = [connect] ∨ sent = [connect; sync_frame] →
    sent `prefix_of` [connect; sync_frame]) as Hp.
  { intros sent [->|[->| ->]]; [by eexists|by exists [sync_frame]|by exists []]. }
  unfold di_inv. rewrite length_app. intros Hi. split_and!.
  - apply Hp. destruct (di_state m); tauto.
  - intros Hl. destruct (di_state m); try (by destruct Hi as (_ & _ & ?)).
    1,2: destruct Hi as ((Ho & _) & _); rewrite Ho in Hl; cbn in Hl; lia.
    destruct Hi as (_ & [(Ho & _)|[_ ?]]); [rewrite Ho in Hl; cbn in Hl; lia|done].
  - destruct (di_state m); naive_solver lia.
Qed.

Lemma dr_inv_summary own os m :
  dr_inv own os m →
  omap dr_out os `prefix_of` [punch_frame (connect_message own)] ∧
  (∃ x y, omap dr_told os `prefix_of` [ConnectReceived x y; SyncReceived]) ∧
  (omap dr_out os ≠ [] → ∃ x y es, omap dr_told os ++ dr_events m = ConnectReceived x y :: es).
Proof.
  intros [_ Hi].
  assert (∃ x y es, es `prefix_of` [ConnectReceived x y; SyncReceived] ∧ omap dr_told os ++ dr_events m = es ∧
    (omap dr_out os = [] ∨ omap dr_out os = [punch_frame (connect_message own)] ∧ es ≠ []))
    as (x & y & es & Hes & Ht & Ho).
  { destruct (dr_state m); [|destruct Hi as (? & x & y & ?)|
      destruct Hi as [?|[(? & x & y & ?)|(? & x & y & ?)]]].
    1,3: exists [], [], []; split; [by eexists|tauto].
    1,2: exists x, y, [ConnectReceived x y]; split; [by exists [SyncReceived]|naive_solver].
    exists x, y, [ConnectReceived x y; SyncReceived]. split; [done|naive_solver]. }
  split_and!.
  - destruct Ho as [->|[-> _]]; [by eexists|done].
  - exists x, y. etrans; [|exact Hes]. by exists (dr_events m).
  - intros Hne. destruct Ho as [?|[_ Hes']]; [done|]. destruct es as [|e es]; [done|].
    apply prefix_cons_inv_1 in Hes as ->. by eexists _, _, _.
Qed.

(** Whatever the order of inputs and polls, errors included: an initiator sends
    CONNECT first, then at most one SYNC, and SYNC only when the remote's CONNECT has
    arrived; it tells its caller to dial at most once.  A responder answers at most
    once, and only a CONNECT; it reports at most that CONNECT and then one SYNC. *)
Theorem dcutr_order a b isteps rsteps :
  let '(ios, i) := drive (di_new a) isteps in
  let '(ros, r) := drive (dr_new b) rsteps in
  omap di_out ios `prefix_of` [connect_frame a; sync_frame] ∧
  ((1 < length (omap di_out ios))%nat → di_outcome i ≠ None) ∧
  (length (omap di_told ios) ≤ 1)%nat ∧
  omap dr_out ros `prefix_of` [connect_frame b] ∧
  (∃ x y, omap dr_told ros `prefix_of` [ConnectReceived x y; SyncReceived]) ∧
  (omap dr_out ros ≠ [] → ∃ x y es, omap dr_told ros ++ dr_events r = ConnectReceived x y :: es).
Proof.
  pose proof (drive_invariant (di_inv (connect_frame a)) (di_new a) isteps) as Hi.
  pose proof (drive_invariant (dr_inv (encode_multiaddr <$> b)) (dr_new b) rsteps) as Hr.
  destruct (drive _ isteps) as [ios i], (drive _ rsteps) as [ros r]. cbn [fst snd] in *.
  specialize (Hi ltac:(unfold di_inv; cbn; auto with lia) (di_inv_input _)
    (λ os m, di_inv_poll _ os m (encode_frame_ne _))).
  specialize (Hr ltac:(unfold dr_inv; cbn; auto) (dr_inv_input _) (dr_inv_poll _)).
  destruct (di_inv_summary _ _ _ Hi) as (? & ? & ?), (dr_inv_summary _ _ _ Hr) as (? & ? & ?).
  by split_and!.
Qed.

(** Three rounds are enough: every accepted message advances the state. *)
Lemma dr_loop_fuel n m : dr_try_decode_loop (3 + n) m = dr_try_decode m.
Proof.
  assert (∀ n m, dr_state m ≠ AwaitingConnect → dr_try_decode_loop (2 + n) m = dr_try_decode_loop 2 m) as H2.
  { intros k x Hx. cbn [dr_try_decode_loop Nat.add]. case_decide; [done|].
    destruct (read_message _) as [[[msg rest]|]| |]; try done. unfold dr_on_message.
    cbn [dr_state dr_set_buf]. destruct (dr_state x), (punch_kind msg); done. }
  unfold dr_try_decode. cbn [dr_try_decode_loop Nat.add]. case_decide; [done|].
  destruct (read_message _) as [[[msg rest]|]| |]; try done. unfold dr_on_message.
  cbn [dr_state dr_set_buf]. destruct (dr_state m), (punch_kind msg); try done.
  by apply (H2 n).
Qed.

End dcutr.

(** ** Concrete runs *)

(** Two chunks per message; the second reply chunk took 17 ms. *)
Definition demo_connect : list byte := connect_frame [demo_addr].
Definition demo_reply : list byte := connect_frame [demo_addr; encapsulate demo_addr demo_p2p].

Lemma demo_addrs_ok : addrs_ok [demo_addr] ∧ addrs_ok [demo_addr; encapsulate demo_addr demo_p2p].
Proof. repeat constructor; simpl; try lia; by vm_compute. Qed.

Lemma dcutr_exchange_witness :
  ∃ r1 r2 i2 i3,
    feed_inputs (P:=Dr_sansio (λ _, EmptyString) true)
      (dr_new [demo_addr; encapsulate demo_addr demo_p2p]) (DrData <$> [take 3 demo_connect; drop 3 demo_connect])
      = (r1, Ok ()) ∧
    drain_all (L:=Dr_laws (λ _, EmptyString) true) r1
      = ([DrOutbound demo_reply; DrEvent (ConnectReceived [demo_addr] [to_bytes demo_addr])], r2) ∧
    feed_inputs (P:=Di_sansio (λ _, EmptyString) true) (di_started [demo_addr])
      (di_data <$> [(take 5 demo_reply, 9); (drop 5 demo_reply, 17)]) = (i2, Ok ()) ∧
    drain_all (L:=Di_laws (λ _, EmptyString) true) i2
      = ([DiOutcome (DialNow [demo_addr; encapsulate demo_addr demo_p2p]
                       (to_bytes <$> [demo_addr; encapsulate demo_addr demo_p2p]) 17)], i3).
Proof.
  destruct (dcutr_exchange (λ _, EmptyString) true [demo_addr] [demo_addr; encapsulate demo_addr demo_p2p]
    [take 3 demo_connect; drop 3 demo_connect] [(take 5 demo_reply, 9)] (drop 5 demo_reply) 17 [sync_frame])
    as (_ & r1 & r2 & r3 & r4 & i2 & i3 & i4 & i5 & H1 & H2 & H3 & H4 & _);
    [apply demo_addrs_ok|apply demo_addrs_ok|vm_compute; done..|].
  exists r1, r2, i2, i3. split_and!; [exact H1|exact H2|exact H3|exact H4].
Defined.

(** After the reply the initiator keeps buffering what the remote sends, without the
    size check. *)
Example initiator_unbounded_buffer :
  let m := (feed_inputs (P:=Di_sansio (λ _, EmptyString) true) (di_started [demo_addr])
              [DiData demo_reply 9; DiData (repeat x00 5000) 10]) in
  m.2 = Ok () ∧ length (di_recv_buf m.1) = 5000%nat.
Proof. by vm_compute. Qed.

(** Ten bytes of the remote unwind either machine. *)
Example dcutr_remote_panic oc :
  (di_handle_input (λ _, EmptyString) oc (di_started [demo_addr]) (DiData (repeat xff 9 ++ [x01]) 0)).2 = Panic ∧
  (dr_handle_input (λ _, EmptyString) oc (dr_new [demo_addr]) (DrData (repeat xff 9 ++ [x01]))).2 = Panic.
Proof. by destruct oc; vm_compute. Qed.
