(* ===== verification/AutonatMessage.v ===== *)
(** * AutoNAT messages ([crates/autonat/src/lib.rs], second half)

    The four nested messages of AutoNAT v1 and the frame codec, which, unlike the one
    of relay and DCUtR, bounds the declared length before it computes with it.  The tag
    reader rejects field number 0 and unknown fields must be varints or
    length-delimited. *)
From S2P Require Import Prelude Utf8 Varint Protobuf.
From Stdlib Require Import ZArith Strings.Byte Strings.String.
From stdpp Require Import base numbers list strings.

#[local] Open Scope Z_scope.

Definition MAX_MESSAGE_SIZE : Z := 8192.

Inductive MessageType : Type := TypeDial | TypeDialResponse.
#[export] Instance MessageType_eq_dec : EqDecision MessageType.
Proof. solve_decision. Defined.

Definition message_type_u64 (t : MessageType) : Z :=
  match t with TypeDial => 0 | TypeDialResponse => 1 end.
Definition message_type_from_u64 (value : Z) : option MessageType :=
  if value =? 0 then Some TypeDial else if value =? 1 then Some TypeDialResponse else None.

Inductive ResponseStatus : Type :=
  | DialOk | DialError | DialRefused | BadRequest | InternalError.
#[export] Instance ResponseStatus_eq_dec : EqDecision ResponseStatus.
Proof. solve_decision. Defined.

Definition response_status_u64 (s : ResponseStatus) : Z :=
  match s with
  | DialOk => 0 | DialError => 100 | DialRefused => 101 | BadRequest => 200 | InternalError => 300
  end.
Definition response_status_from_u64 (value : Z) : ResponseStatus :=
  if value =? 0 then DialOk
  else if value =? 100 then DialError
  else if value =? 101 then DialRefused
  else if value =? 200 then BadRequest
  else if value =? 300 then InternalError
  else InternalError.

Record PeerInfo : Type := { pi_id : list byte; pi_addrs : list (list byte) }.
Record Dial : Type := { dial_peer : option PeerInfo }.
Record DialResponse : Type := {
  resp_status : ResponseStatus;
  resp_text : option string;
  resp_addrs : list (list byte);
}.
Record Message : Type := {
  msg_kind : MessageType;
  msg_dial : option Dial;
  msg_response : option DialResponse;
}.

Inductive AutoNatError : Type :=
  | MessageTooLarge (len : nat)
  | FrameTooLarge (len : Z)
  | Varint (e : VarintError)
  | FieldOverflow (offset : nat) (length : Z) (remaining : nat)
  | UnsupportedWireType (wire_type : Z) (offset : nat)
  | MissingType
  | InvalidMessageType (value : Z)
  | MissingField (name : string)
  | UnexpectedMessage (reason : string)
  | InvalidPeerId (reason : string).

#[export] Instance AutoNatError_proto : ProtoError AutoNatError := {
  varint_error := Varint;
  field_overflow := FieldOverflow;
  unsupported_wire_type := UnsupportedWireType;
}.

(** ** Fields *)

Definition autonat_read_tag (input : list byte) (idx : nat)
    : res AutoNatError (option (Z * Z) * nat) :=
  let offset := idx in
  '(tag, idx) ← read_tag input idx;
  match tag with
  | Some (field_number, wire_type) =>
      if field_number =? 0 then Err (UnsupportedWireType wire_type offset)
      else Ok (Some (field_number, wire_type), idx)
  | None => Ok (None, idx)
  end.

(** The last three arms of every [match (field, wire)]. *)
Definition skip_field {M} (input : list byte) (wire : Z) (msg : M) (idx : nat)
    : res AutoNatError (M * nat) :=
  if decide (wire = WIRE_LEN) then '(_, idx) ← read_len_delimited input idx; Ok (msg, idx)
  else if decide (wire = WIRE_VARINT) then '(_, idx) ← read_varint_value input idx; Ok (msg, idx)
  else Err (UnsupportedWireType wire idx).

(** ** PeerInfo *)

Definition peer_info_encode (p : PeerInfo) : list byte :=
  let out := encode_bytes_field [] (tag_byte 1 WIRE_LEN) (pi_id p) in
  fold_left (λ out addr, encode_bytes_field out (tag_byte 2 WIRE_LEN) addr) (pi_addrs p) out.

Definition peer_info_step (input : list byte) (field wire : Z) (msg : PeerInfo) (idx : nat)
    : res AutoNatError (PeerInfo * nat) :=
  if decide (field = 1 ∧ wire = WIRE_LEN) then
    '(v, idx) ← read_len_delimited input idx;
    Ok ({| pi_id := v; pi_addrs := pi_addrs msg |}, idx)
  else if decide (field = 2 ∧ wire = WIRE_LEN) then
    '(v, idx) ← read_len_delimited input idx;
    Ok ({| pi_id := pi_id msg; pi_addrs := pi_addrs msg ++ [v] |}, idx)
  else skip_field input wire msg idx.

Definition peer_info_decode (input : list byte) : res AutoNatError PeerInfo :=
  while_tag (autonat_read_tag input) (peer_info_step input) (S (length input))
    {| pi_id := []; pi_addrs := [] |} 0.

(** ** Dial *)

Definition dial_encode (d : Dial) : list byte :=
  match dial_peer d with
  | Some peer => encode_bytes_field [] (tag_byte 1 WIRE_LEN) (peer_info_encode peer)
  | None => []
  end.

Definition dial_step (input : list byte) (field wire : Z) (msg : Dial) (idx : nat)
    : res AutoNatError (Dial * nat) :=
  if decide (field = 1 ∧ wire = WIRE_LEN) then
    '(body, idx) ← read_len_delimited input idx;
    peer ← peer_info_decode body;
    Ok ({| dial_peer := Some peer |}, idx)
  else skip_field input wire msg idx.

Definition dial_decode (input : list byte) : res AutoNatError Dial :=
  while_tag (autonat_read_tag input) (dial_step input) (S (length input)) {| dial_peer := None |} 0.

(** ** DialResponse *)

Definition response_encode (r : DialResponse) : list byte :=
  let out := encode_varint_field [] (tag_byte 1 WIRE_VARINT) (response_status_u64 (resp_status r)) in
  let out := match resp_text r with
             | Some text => encode_bytes_field out (tag_byte 2 WIRE_LEN) (as_bytes text)
             | None => out end in
  fold_left (λ out addr, encode_bytes_field out (tag_byte 3 WIRE_LEN) addr) (resp_addrs r) out.

Definition response_step (input : list byte) (field wire : Z) (msg : DialResponse) (idx : nat)
    : res AutoNatError (DialResponse * nat) :=
  if decide (field = 1 ∧ wire = WIRE_VARINT) then
    '(value, idx) ← read_varint_value input idx;
    Ok ({| resp_status := response_status_from_u64 value; resp_text := resp_text msg;
           resp_addrs := resp_addrs msg |}, idx)
  else if decide (field = 2 ∧ wire = WIRE_LEN) then
    '(text, idx) ← read_len_delimited input idx;
    Ok ({| resp_status := resp_status msg; resp_text := Some (from_utf8_lossy text);
           resp_addrs := resp_addrs msg |}, idx)
  else if decide (field = 3 ∧ wire = WIRE_LEN) then
    '(v, idx) ← read_len_delimited input idx;
    Ok ({| resp_status := resp_status msg; resp_text := resp_text msg;
           resp_addrs := resp_addrs msg ++ [v] |}, idx)
  else skip_field input wire msg idx.

Definition response_decode (input : list byte) : res AutoNatError DialResponse :=
  while_tag (autonat_read_tag input) (response_step input) (S (length input))
    {| resp_status := InternalError; resp_text := None; resp_addrs := [] |} 0.

(** ** Message *)

Definition message_encode (m : Message) : list byte :=
  let out := encode_varint_field [] (tag_byte 1 WIRE_VARINT) (message_type_u64 (msg_kind m)) in
  let out := match msg_dial m with
             | Some dial => encode_bytes_field out (tag_byte 2 WIRE_LEN) (dial_encode dial)
             | None => out end in
  match msg_response m with
  | Some response => encode_bytes_field out (tag_byte 3 WIRE_LEN) (response_encode response)
  | None => out
  end.

(** The decoder's local variables. *)
Record MessageParts : Type := {
  mp_kind : option MessageType;
  mp_dial : option Dial;
  mp_response : option DialResponse;
}.

Definition message_step (input : list byte) (field wire : Z) (msg : MessageParts) (idx : nat)
    : res AutoNatError (MessageParts * nat) :=
  if decide (field = 1 ∧ wire = WIRE_VARINT) then
    '(value, idx) ← read_varint_value input idx;
    kind ← ok_or (message_type_from_u64 value) (InvalidMessageType value);
    Ok ({| mp_kind := Some kind; mp_dial := mp_dial msg; mp_response := mp_response msg |}, idx)
  else if decide (field = 2 ∧ wire = WIRE_LEN) then
    '(body, idx) ← read_len_delimited input idx;
    dial ← dial_decode body;
    Ok ({| mp_kind := mp_kind msg; mp_dial := Some dial; mp_response := mp_response msg |}, idx)
  else if decide (field = 3 ∧ wire = WIRE_LEN) then
    '(body, idx) ← read_len_delimited input idx;
    response ← response_decode body;
    Ok ({| mp_kind := mp_kind msg; mp_dial := mp_dial msg; mp_response := Some response |}, idx)
  else skip_field input wire msg idx.

Definition message_decode (input : list byte) : res AutoNatError Message :=
  parts ← while_tag (autonat_read_tag input) (message_step input) (S (length input))
            {| mp_kind := None; mp_dial := None; mp_response := None |} 0;
  kind ← ok_or (mp_kind parts) MissingType;
  Ok {| msg_kind := kind; msg_dial := mp_dial parts; msg_response := mp_response parts |}.

(** ** Frames *)

Inductive FrameDecode : Type :=
  | Complete (payload : list byte) (consumed : Z)
  | Incomplete
  | TooLarge (len : Z)
  | FrameError (e : VarintError).

(** [usize::saturating_add]. *)
Definition saturating_add (a b : Z) : Z := Z.min (u64_mod - 1) (a + b).

Definition autonat_decode_frame (input : list byte) : res Empty_set FrameDecode :=
  match read_uvarint input with
  | Err BufferTooShort => Ok Incomplete
  | Err e => Ok (FrameError e)
  | Panic => Panic
  | Ok (len, used) =>
      if MAX_MESSAGE_SIZE <? len then Ok (TooLarge len)
      else
        let end_ := saturating_add (Z.of_nat used) len in
        if Z.of_nat (length input) <? end_ then Ok Incomplete
        else
          payload ← slice input (Z.of_nat used) end_;
          Ok (Complete payload end_)
  end.

(** ** Lemmas: what each field does *)

Lemma autonat_reads_tag n wt :
  0 < n → 0 <= wt < 8 → is_u64 (n * 8 + wt) → reads_tag autonat_read_tag n wt.
Proof.
  intros Hn Hw Hv pre post. unfold autonat_read_tag. rewrite read_tag_app by done. cbn [mbind res_bind].
  by rewrite (proj2 (Z.eqb_neq _ _)) by lia.
Qed.

Lemma autonat_read_tag_end input : autonat_read_tag input (length input) = Ok (None, length input).
Proof. unfold autonat_read_tag. by rewrite read_tag_end. Qed.

(** A field of a known number and wire type, handled by a step function. *)
Ltac autonat_len step :=
  apply (consumes_len_at autonat_read_tag step _ _ (λ _, _));
    [by apply autonat_reads_tag; [lia|done|split; vm_compute]|split; vm_compute; done|assumption|];
  intros input msg idx v idx' Hr ->; unfold step; pick_field; rewrite Hr; cbn [mbind res_bind].
Ltac autonat_varint step :=
  apply (consumes_varint_at autonat_read_tag step _ _ (λ _, _));
    [by apply autonat_reads_tag; [lia|done|split; vm_compute]|split; vm_compute; done|assumption|];
  intros input msg idx v idx' Hr ->; unfold step; pick_field; rewrite Hr; cbn [mbind res_bind].

(** *** PeerInfo *)

Definition peer_info_ok (p : PeerInfo) : Prop := bytes_ok (pi_id p) ∧ Forall bytes_ok (pi_addrs p).

Definition pi_set_id (v : list byte) (m : PeerInfo) : PeerInfo := {| pi_id := v; pi_addrs := pi_addrs m |}.
Definition pi_push (v : list byte) (m : PeerInfo) : PeerInfo :=
  {| pi_id := pi_id m; pi_addrs := pi_addrs m ++ [v] |}.

Definition peer_info_fields (p : PeerInfo) : list (list byte * (PeerInfo → PeerInfo)) :=
  (bytes_field 1 (pi_id p), pi_set_id (pi_id p)) :: ((λ a, (bytes_field 2 a, pi_push a)) <$> pi_addrs p).

Lemma peer_info_encode_fields p : peer_info_encode p = concat (peer_info_fields p).*1.
Proof.
  unfold peer_info_encode, peer_info_fields. cbv zeta.
  rewrite (encode_bytes_fields_eq id 2), encode_bytes_field_eq by done.
  by rewrite list_fmap_id, fmap_cons, <- list_fmap_compose.
Qed.

Lemma peer_info_fields_consume p :
  peer_info_ok p → Forall (λ xf, consumes autonat_read_tag peer_info_step xf.1 xf.2) (peer_info_fields p).
Proof.
  intros [H1 H2]. apply Forall_cons. cbn [fst snd]. split.
  - by autonat_len peer_info_step.
  - apply Forall_fmap. eapply Forall_impl; [exact H2|]. intros a Ha. unfold compose. cbn [fst snd].
    by autonat_len peer_info_step.
Qed.

Lemma foldl_pi_push l m :
  foldl (λ m (f : PeerInfo → PeerInfo), f m) m (pi_push <$> l)
    = {| pi_id := pi_id m; pi_addrs := pi_addrs m ++ l |}.
Proof.
  revert m. induction l as [|a l IH]; intros m; [simpl; rewrite app_nil_r; by destruct m|].
  cbn [fmap list_fmap foldl]. rewrite IH. simpl. by rewrite <- app_assoc.
Qed.

Lemma peer_info_decode_encode p : peer_info_ok p → peer_info_decode (peer_info_encode p) = Ok p.
Proof.
  intros Hp. rewrite peer_info_encode_fields. unfold peer_info_decode.
  rewrite while_tag_pairs_at; [|apply autonat_read_tag_end|by apply peer_info_fields_consume].
  unfold peer_info_fields. rewrite fmap_cons, <- list_fmap_compose. cbn [foldl snd].
  change (snd ∘ λ a, (bytes_field 2 a, pi_push a)) with pi_push. rewrite foldl_pi_push. by destruct p.
Qed.

(** *** Dial *)

Definition dial_ok (d : Dial) : Prop :=
  from_option (λ p, peer_info_ok p ∧ bytes_ok (peer_info_encode p)) True (dial_peer d).

Lemma dial_decode_encode d : dial_ok d → dial_decode (dial_encode d) = Ok d.
Proof.
  intros Hd. destruct d as [[p|]]; [|done]. destruct Hd as [Hp Hb]. unfold dial_encode. cbn [dial_peer].
  rewrite encode_bytes_field_eq by done. cbn [app].
  pose proof (while_tag_pairs_at autonat_read_tag dial_step
    [(bytes_field 1 (peer_info_encode p), λ _, {| dial_peer := Some p |})] {| dial_peer := None |}
    autonat_read_tag_end) as Hw.
  cbn [fmap list_fmap concat fst snd foldl] in Hw. rewrite app_nil_r in Hw. apply Hw.
  apply Forall_singleton. cbn [fst snd]. autonat_len dial_step. by rewrite peer_info_decode_encode.
Qed.

(** *** DialResponse *)

Definition response_ok (r : DialResponse) : Prop :=
  from_option (λ t, str_ok t ∧ bytes_ok (as_bytes t)) True (resp_text r) ∧ Forall bytes_ok (resp_addrs r).

Definition resp_set_status (s : ResponseStatus) (m : DialResponse) : DialResponse :=
  {| resp_status := s; resp_text := resp_text m; resp_addrs := resp_addrs m |}.
Definition resp_set_text (t : string) (m : DialResponse) : DialResponse :=
  {| resp_status := resp_status m; resp_text := Some t; resp_addrs := resp_addrs m |}.
Definition resp_push (v : list byte) (m : DialResponse) : DialResponse :=
  {| resp_status := resp_status m; resp_text := resp_text m; resp_addrs := resp_addrs m ++ [v] |}.

Definition response_fields (r : DialResponse) : list (list byte * (DialResponse → DialResponse)) :=
  (varint_field 1 (response_status_u64 (resp_status r)), resp_set_status (resp_status r))
  :: opt_list (λ t, (bytes_field 2 (as_bytes t), resp_set_text t)) (resp_text r)
  ++ ((λ a, (bytes_field 3 a, resp_push a)) <$> resp_addrs r).

Lemma response_encode_fields r : response_encode r = concat (response_fields r).*1.
Proof.
  unfold response_encode, response_fields. cbv zeta.
  rewrite (encode_bytes_fields_eq id 3), (encode_opt_field as_bytes 2), encode_varint_field_eq by done.
  rewrite list_fmap_id, fmap_cons, fmap_app, <- list_fmap_compose, fst_opt_list.
  cbn [concat fst]. by rewrite concat_app, <- app_assoc.
Qed.

Lemma response_status_roundtrip s : response_status_from_u64 (response_status_u64 s) = s.
Proof. by destruct s. Qed.

Lemma response_fields_consume r :
  response_ok r → Forall (λ xf, consumes autonat_read_tag response_step xf.1 xf.2) (response_fields r).
Proof.
  intros [H1 H2]. apply Forall_cons. cbn [fst snd]. split; [|apply Forall_app; split].
  - assert (is_u64 (response_status_u64 (resp_status r))) by (destruct (resp_status r); done).
    autonat_varint response_step. by rewrite response_status_roundtrip.
  - destruct (resp_text r) as [t|]; [|constructor]. destruct H1 as [Ht Hb]. apply Forall_singleton.
    cbn [fst snd]. autonat_len response_step. by rewrite from_utf8_lossy_id.
  - apply Forall_fmap. eapply Forall_impl; [exact H2|]. intros a Ha. unfold compose. cbn [fst snd].
    by autonat_len response_step.
Qed.

Lemma foldl_resp_push l m :
  foldl (λ m (f : DialResponse → DialResponse), f m) m (resp_push <$> l)
    = {| resp_status := resp_status m; resp_text := resp_text m; resp_addrs := resp_addrs m ++ l |}.
Proof.
  revert m. induction l as [|a l IH]; intros m; [simpl; rewrite app_nil_r; by destruct m|].
  cbn [fmap list_fmap foldl]. rewrite IH. simpl. by rewrite <- app_assoc.
Qed.

Lemma response_decode_encode r : response_ok r → response_decode (response_encode r) = Ok r.
Proof.
  intros Hr. rewrite response_encode_fields. unfold response_decode.
  rewrite while_tag_pairs_at; [|apply autonat_read_tag_end|by apply response_fields_consume].
  unfold response_fields. rewrite fmap_cons, fmap_app, <- list_fmap_compose. cbn [foldl snd].
  rewrite foldl_app. change (snd ∘ λ a, (bytes_field 3 a, resp_push a)) with resp_push.
  rewrite foldl_resp_push. by destruct r as [s [t|] l].
Qed.

(** *** Message *)

Definition message_ok (m : Message) : Prop :=
  from_option (λ d, dial_ok d ∧ bytes_ok (dial_encode d)) True (msg_dial m) ∧
  from_option (λ r, response_ok r ∧ bytes_ok (response_encode r)) True (msg_response m).

Definition message_fields (m : Message) : list (list byte * (MessageParts → MessageParts)) :=
  (varint_field 1 (message_type_u64 (msg_kind m)),
   λ p, {| mp_kind := Some (msg_kind m); mp_dial := mp_dial p; mp_response := mp_response p |})
  :: opt_list (λ d, (bytes_field 2 (dial_encode d),
       λ p, {| mp_kind := mp_kind p; mp_dial := Some d; mp_response := mp_response p |})) (msg_dial m)
  ++ opt_list (λ r, (bytes_field 3 (response_encode r),
       λ p, {| mp_kind := mp_kind p; mp_dial := mp_dial p; mp_response := Some r |})) (msg_response m).

Lemma message_encode_fields m : message_encode m = concat (message_fields m).*1.
Proof.
  unfold message_encode, message_fields. cbv zeta.
  rewrite (encode_opt_field response_encode 3), (encode_opt_field dial_encode 2),
    encode_varint_field_eq by done.
  rewrite fmap_cons, fmap_app, !fst_opt_list. cbn [concat fst]. by rewrite concat_app, <- app_assoc.
Qed.

Lemma message_type_roundtrip t : message_type_from_u64 (message_type_u64 t) = Some t.
Proof. by destruct t. Qed.

Lemma message_fields_consume m :
  message_ok m → Forall (λ xf, consumes autonat_read_tag message_step xf.1 xf.2) (message_fields m).
Proof.
  intros [H1 H2]. apply Forall_cons. cbn [fst snd]. split; [|apply Forall_app; split].
  - assert (is_u64 (message_type_u64 (msg_kind m))) by (destruct (msg_kind m); done).
    autonat_varint message_step. by rewrite message_type_roundtrip.
  - destruct (msg_dial m) as [d|]; [|constructor]. destruct H1 as [Hd Hb]. apply Forall_singleton.
    cbn [fst snd]. autonat_len message_step. by rewrite dial_decode_encode.
  - destruct (msg_response m) as [r|]; [|constructor]. destruct H2 as [Hr' Hb]. apply Forall_singleton.
    cbn [fst snd]. autonat_len message_step. by rewrite response_decode_encode.
Qed.

Lemma message_decode_encode m : message_ok m → message_decode (message_encode m) = Ok m.
Proof.
  intros Hm. rewrite message_encode_fields. unfold message_decode.
  rewrite while_tag_pairs_at; [|apply autonat_read_tag_end|by apply message_fields_consume].
  by destruct m as [k [d|] [r|]].
Qed.

(** ** The decoders are total *)

Lemma autonat_read_tag_ok input : tag_ok input (autonat_read_tag input).
Proof.
  intros idx Hi. pose proof (read_tag_ok (E:=AutoNatError) input idx Hi) as Ht. unfold autonat_read_tag.
  destruct (read_tag input idx) as [[[[f w]|] i]| |]; [|done..]. cbn [mbind res_bind]. by destruct (f =? 0).
Qed.

Lemma skip_field_pos {M} input wt (msg : M) idx :
  (idx <= length input)%nat → pos_ok input idx (skip_field input wt msg idx).
Proof.
  intros Hi. unfold skip_field.
  case_decide; [by apply len_pos|]. case_decide; [by apply varint_pos|done].
Qed.

Lemma autonat_while_total {M} input step (msg : M) :
  step_ok input step → while_tag (autonat_read_tag input) step (S (length input)) msg 0 ≠ Panic.
Proof. intros Hs. apply (while_tag_no_panic input); [apply autonat_read_tag_ok|done|lia..]. Qed.

(** Each branch of a step is a reader followed by an update, or a skip. *)
#[local] Ltac autonat_total :=
  intros field wt msg idx Hi;
  repeat (case_decide; [first [apply len_pos|apply varint_pos]; [done|intros v i Hv]; cbv beta; try done|]);
  try by apply skip_field_pos.

Lemma peer_info_decode_total input : peer_info_decode input ≠ Panic.
Proof. apply autonat_while_total. unfold peer_info_step. autonat_total. Qed.
Lemma dial_decode_total input : dial_decode input ≠ Panic.
Proof.
  apply autonat_while_total. unfold dial_step. autonat_total.
  by apply (nested_pos _ _ _ _ (λ p, {| dial_peer := Some p |})); [apply peer_info_decode_total|].
Qed.
Lemma response_decode_total input : response_decode input ≠ Panic.
Proof. apply autonat_while_total. unfold response_step. autonat_total. Qed.
Lemma message_decode_total input : message_decode input ≠ Panic.
Proof.
  unfold message_decode. apply bind_no_panic.
  - apply autonat_while_total. unfold message_step. autonat_total.
    + by apply nested_pos; [apply ok_or_no_panic|].
    + by apply nested_pos; [apply dial_decode_total|].
    + by apply nested_pos; [apply response_decode_total|].
  - intros parts _. by destruct (mp_kind parts).
Qed.

(** ** Frames *)

(** Unlike the frames of relay and DCUtR, no input unwinds the decoder. *)
Lemma autonat_decode_frame_total input : autonat_decode_frame input ≠ Panic.
Proof.
  unfold autonat_decode_frame. destruct (read_uvarint input) as [[len used]|e|] eqn:Hr.
  - destruct (read_uvarint_inv _ _ _ Hr) as (Hv & -> & Hle & _). pose proof (uvarint_len_le len Hv).
    destruct (Z.ltb_spec MAX_MESSAGE_SIZE len); [done|]. unfold saturating_add.
    rewrite Z.min_r by (unfold MAX_MESSAGE_SIZE, u64_mod in *; lia).
    destruct (Z.ltb_spec (Z.of_nat (length input)) (Z.of_nat (uvarint_len len) + len)); [done|].
    unfold slice. by rewrite (proj2 (Z.leb_le _ _)), (proj2 (Z.leb_le _ _)) by u64_tac.
  - by destruct e.
  - by apply read_uvarint_no_panic in Hr.
Qed.

Lemma autonat_decode_encode_frame p rest :
  Z.of_nat (length p) <= MAX_MESSAGE_SIZE →
  autonat_decode_frame (encode_frame p ++ rest) = Ok (Complete p (Z.of_nat (length (encode_frame p)))).
Proof.
  intros Hp. assert (is_u64 (Z.of_nat (length p))) as Hu by (unfold MAX_MESSAGE_SIZE in *; u64_tac).
  pose proof (uvarint_len_le _ Hu) as Hle. rewrite length_encode_frame by done.
  unfold autonat_decode_frame, encode_frame. rewrite <- app_assoc, read_uvarint_write by done.
  rewrite (proj2 (Z.ltb_ge _ _)) by done. unfold saturating_add.
  rewrite Z.min_r by (unfold MAX_MESSAGE_SIZE, u64_mod in *; lia).
  rewrite <- (length_uvarint _ Hu) in *. set (w := write_uvarint _ _) in *.
  rewrite (proj2 (Z.ltb_ge _ _)) by (rewrite !length_app; lia).
  rewrite slice_app. cbn [mbind res_bind]. do 2 f_equal. lia.
Qed.

Lemma autonat_decode_frame_prefix p buf k :
  Z.of_nat (length p) <= MAX_MESSAGE_SIZE → encode_frame p = buf ++ k → k ≠ [] →
  autonat_decode_frame buf = Ok Incomplete.
Proof.
  intros Hp Hk Hne. assert (is_u64 (Z.of_nat (length p))) as Hu by (unfold MAX_MESSAGE_SIZE in *; u64_tac).
  pose proof (uvarint_len_le _ Hu) as Hle. pose proof (length_encode_frame p Hu) as Hl.
  assert (length buf < length (encode_frame p))%nat as Hlt
    by (rewrite Hk, length_app; destruct k; [done|simpl; lia]).
  unfold autonat_decode_frame. destruct (read_uvarint buf) as [[v used]|e|] eqn:Hr.
  - pose proof (read_uvarint_app _ k _ Hr ltac:(done)) as Hr'. rewrite <- Hk in Hr'.
    unfold encode_frame in Hr'. rewrite read_uvarint_write in Hr' by done. simplify_eq.
    rewrite (proj2 (Z.ltb_ge _ _)) by done. unfold saturating_add.
    rewrite Z.min_r by (unfold MAX_MESSAGE_SIZE, u64_mod in *; lia).
    by rewrite (proj2 (Z.ltb_lt _ _)) by lia.
  - destruct (decide (e = BufferTooShort)) as [->|Hne']; [done|].
    pose proof (read_uvarint_app _ k _ Hr ltac:(congruence)) as Hr'. rewrite <- Hk in Hr'.
    unfold encode_frame in Hr'. by rewrite read_uvarint_write in Hr'.
  - by apply read_uvarint_no_panic in Hr.
Qed.
