(* ===== verification/Autonat.v ===== *)
(** * AutoNAT ([crates/autonat/src/lib.rs], first half)

    A client asks a service to dial it back and learns whether it is reachable:
    [AutoNatClient] sends one DIAL request and maps the response to a [Reachability];
    [AutoNatServer] hands the request to its caller, which dials, and sends the
    caller's verdict. *)
From S2P Require Import Prelude Utf8 SansIo Varint Protobuf Framing Multibase PeerId Multiaddr AutonatMessage.
From Stdlib Require Import ZArith Strings.Byte Strings.String.
From stdpp Require Import base numbers list strings.

#[local] Open Scope Z_scope.

Definition AUTONAT_PROTOCOL_ID : string := "/libp2p/autonat/1.0.0"%string.

Inductive FlowState : Type := Pending | AwaitingResponse | FlowDone.
#[export] Instance AutonatFlowState_eq_dec : EqDecision FlowState.
Proof. solve_decision. Defined.

Inductive ServerState : Type := AwaitingRequest | RequestReady | ServerDone.
#[export] Instance ServerState_eq_dec : EqDecision ServerState.
Proof. solve_decision. Defined.

Definition enforce_max_size (buf : list byte) : res AutoNatError unit :=
  if MAX_MESSAGE_SIZE <? Z.of_nat (length buf) then Err (MessageTooLarge (length buf)) else Ok ().

(** The first half of both decoders: size check, framing and draining the frame; the
    payload is decoded before it is drained, and its error reported after.  [None]
    means that more bytes are needed. *)
Definition read_frame (recv_buf : list byte)
    : res AutoNatError (option (res AutoNatError Message * list byte)) :=
  _ ← enforce_max_size recv_buf;
  match autonat_decode_frame recv_buf with
  | Ok (Complete payload consumed) =>
      Ok (Some (message_decode payload, drop (Z.to_nat consumed) recv_buf))
  | Ok Incomplete => Ok None
  | Ok (TooLarge len) => Err (FrameTooLarge len)
  | Ok (FrameError e) => Err (Varint e)
  | _ => Panic
  end.

Section autonat.
Context {P : Type} `{PidEq : EqDecision P} `{!PeerIdBytes P}.
Context (utf8_error_text : list byte → string).
#[local] Abbreviation Multiaddr := (Multiaddr P).

Definition decode_addrs (raw : list (list byte)) : list Multiaddr :=
  omap (λ bytes, match from_bytes utf8_error_text bytes with Ok a => Some a | _ => None end) raw.

Inductive Reachability : Type :=
  | Public (addrs : list Multiaddr) (raw_addrs : list (list byte))
  | Private (status : ResponseStatus) (reason : string)
  | Unknown (status : ResponseStatus) (reason : string).

Record AutoNatRequest : Type := {
  req_peer_id : P;
  req_addrs : list Multiaddr;
  req_raw_addrs : list (list byte);
}.

(** ** Client *)

Inductive AutoNatClientInput : Type := ClFlush | ClData (data : list byte).
Inductive AutoNatClientOutput : Type := ClOutbound (data : list byte) | ClOutcome (r : Reachability).

Record AutoNatClient : Type := {
  cl_outbound : list byte;
  cl_recv_buf : list byte;
  cl_state : FlowState;
  cl_outcome : option Reachability;
  cl_emitted : bool;
}.

Definition cl_set_state (m : AutoNatClient) (s : FlowState) : AutoNatClient :=
  {| cl_outbound := cl_outbound m; cl_recv_buf := cl_recv_buf m; cl_state := s;
     cl_outcome := cl_outcome m; cl_emitted := cl_emitted m |}.
Definition cl_set_buf (m : AutoNatClient) (b : list byte) : AutoNatClient :=
  {| cl_outbound := cl_outbound m; cl_recv_buf := b; cl_state := cl_state m;
     cl_outcome := cl_outcome m; cl_emitted := cl_emitted m |}.

Definition dial_message (peer_id : P) (addrs : list Multiaddr) : Message :=
  {| msg_kind := TypeDial;
     msg_dial := Some {| dial_peer := Some {| pi_id := pid_to_bytes peer_id; pi_addrs := to_bytes <$> addrs |} |};
     msg_response := None |}.

Definition cl_new (peer_id : P) (addrs : list Multiaddr) : AutoNatClient :=
  {| cl_outbound := encode_frame (message_encode (dial_message peer_id addrs)); cl_recv_buf := [];
     cl_state := Pending; cl_outcome := None; cl_emitted := false |}.

Definition cl_take_outbound (m : AutoNatClient) : list byte * AutoNatClient :=
  let m := if decide (cl_state m = Pending) then cl_set_state m AwaitingResponse else m in
  (cl_outbound m,
   {| cl_outbound := []; cl_recv_buf := cl_recv_buf m; cl_state := cl_state m;
      cl_outcome := cl_outcome m; cl_emitted := cl_emitted m |}).

(** The outcome of a response. *)
Definition reachability (response : DialResponse) : Reachability :=
  let reason := default EmptyString (resp_text response) in
  let raw_addrs := resp_addrs response in
  match resp_status response with
  | DialOk => Public (decode_addrs raw_addrs) raw_addrs
  | DialError | DialRefused => Private (resp_status response) reason
  | BadRequest | InternalError => Unknown (resp_status response) reason
  end.

Definition cl_try_decode_response (m : AutoNatClient) : AutoNatClient * res AutoNatError unit :=
  match read_frame (cl_recv_buf m) with
  | Err e => (m, Err e)
  | Panic => (m, Panic)
  | Ok None => (m, Ok ())
  | Ok (Some (decoded, rest)) =>
      let m := cl_set_buf m rest in
      match decoded with
      | Err e => (m, Err e)
      | Panic => (m, Panic)
      | Ok msg =>
          if decide (msg_kind msg ≠ TypeDialResponse)
          then (cl_set_state m FlowDone, Err (UnexpectedMessage "expected DIAL_RESPONSE"))
          else
            match msg_response msg with
            | None => (m, Err (MissingField "dial_response"))
            | Some response =>
                ({| cl_outbound := cl_outbound m; cl_recv_buf := cl_recv_buf m; cl_state := FlowDone;
                    cl_outcome := Some (reachability response); cl_emitted := cl_emitted m |}, Ok ())
            end
      end
  end.

Definition cl_on_data (m : AutoNatClient) (data : list byte) : AutoNatClient * res AutoNatError unit :=
  if decide (cl_state m = FlowDone) then (m, Ok ())
  else cl_try_decode_response (cl_set_buf m (cl_recv_buf m ++ data)).

Definition cl_handle_input (m : AutoNatClient) (input : AutoNatClientInput)
    : AutoNatClient * res AutoNatError unit :=
  match input with
  | ClFlush => (m, Ok ())
  | ClData data => cl_on_data m data
  end.

Definition cl_poll_output (m : AutoNatClient) : option AutoNatClientOutput * AutoNatClient :=
  let '(outbound, m) := cl_take_outbound m in
  if decide (outbound ≠ []) then (Some (ClOutbound outbound), m)
  else
    match cl_emitted m, cl_outcome m with
    | false, Some outcome =>
        (Some (ClOutcome outcome),
         {| cl_outbound := cl_outbound m; cl_recv_buf := cl_recv_buf m; cl_state := cl_state m;
            cl_outcome := cl_outcome m; cl_emitted := true |})
    | _, _ => (None, m)
    end.

Definition cl_is_idle (m : AutoNatClient) : bool :=
  bool_decide (cl_outbound m = []) && (cl_emitted m || bool_decide (cl_outcome m = None)).

(** ** Server *)

Inductive AutoNatServerInput : Type :=
  | SvData (data : list byte)
  | SvRespondPublic (addrs : list Multiaddr)
  | SvRespondError (status : ResponseStatus) (reason : string)
  | SvFlush.
Inductive AutoNatServerOutput : Type := SvRequest (r : AutoNatRequest) | SvOutbound (data : list byte).

Record AutoNatServer : Type := {
  sv_outbound : list byte;
  sv_recv_buf : list byte;
  sv_request : option AutoNatRequest;
  sv_emitted : bool;
  sv_state : ServerState;
}.

Definition sv_set_state (m : AutoNatServer) (s : ServerState) : AutoNatServer :=
  {| sv_outbound := sv_outbound m; sv_recv_buf := sv_recv_buf m; sv_request := sv_request m;
     sv_emitted := sv_emitted m; sv_state := s |}.
Definition sv_set_buf (m : AutoNatServer) (b : list byte) : AutoNatServer :=
  {| sv_outbound := sv_outbound m; sv_recv_buf := b; sv_request := sv_request m;
     sv_emitted := sv_emitted m; sv_state := sv_state m |}.
Definition sv_set_outbound (m : AutoNatServer) (b : list byte) : AutoNatServer :=
  {| sv_outbound := b; sv_recv_buf := sv_recv_buf m; sv_request := sv_request m;
     sv_emitted := sv_emitted m; sv_state := sv_state m |}.

Definition sv_new : AutoNatServer :=
  {| sv_outbound := []; sv_recv_buf := []; sv_request := None; sv_emitted := false;
     sv_state := AwaitingRequest |}.

Definition response_message (status : ResponseStatus) (status_text : option string)
    (addrs : list Multiaddr) : Message :=
  {| msg_kind := TypeDialResponse; msg_dial := None;
     msg_response := Some {| resp_status := status; resp_text := status_text;
                             resp_addrs := to_bytes <$> addrs |} |}.

Definition sv_respond (m : AutoNatServer) (status : ResponseStatus) (status_text : option string)
    (addrs : list Multiaddr) : AutoNatServer :=
  let msg := response_message status status_text addrs in
  sv_set_state (sv_set_outbound m (encode_frame (message_encode msg))) ServerDone.

Definition sv_respond_public (m : AutoNatServer) (addrs : list Multiaddr) : AutoNatServer :=
  sv_respond m DialOk None addrs.
Definition sv_respond_error (m : AutoNatServer) (status : ResponseStatus) (reason : string) : AutoNatServer :=
  sv_respond m status (Some reason) [].

Definition sv_take_outbound (m : AutoNatServer) : list byte * AutoNatServer :=
  (sv_outbound m, sv_set_outbound m []).

(** From the nested messages to a request. *)
Definition request_of (msg : Message) : res AutoNatError AutoNatRequest :=
  dial ← ok_or (msg_dial msg) (MissingField "dial");
  peer ← ok_or (dial_peer dial) (MissingField "dial.peer");
  peer_id ← map_err (λ e, InvalidPeerId (to_string e)) (pid_from_bytes (pi_id peer));
  Ok {| req_peer_id := peer_id; req_addrs := decode_addrs (pi_addrs peer);
        req_raw_addrs := pi_addrs peer |}.

Definition sv_try_decode_request (m : AutoNatServer) : AutoNatServer * res AutoNatError unit :=
  match read_frame (sv_recv_buf m) with
  | Err e => (m, Err e)
  | Panic => (m, Panic)
  | Ok None => (m, Ok ())
  | Ok (Some (decoded, rest)) =>
      let m := sv_set_buf m rest in
      match decoded with
      | Err e => (m, Err e)
      | Panic => (m, Panic)
      | Ok msg =>
          if decide (msg_kind msg ≠ TypeDial)
          then (sv_set_state m ServerDone, Err (UnexpectedMessage "expected DIAL"))
          else
            match request_of msg with
            | Err e => (m, Err e)
            | Panic => (m, Panic)
            | Ok request =>
                ({| sv_outbound := sv_outbound m; sv_recv_buf := sv_recv_buf m;
                    sv_request := Some request; sv_emitted := false; sv_state := RequestReady |}, Ok ())
            end
      end
  end.

Definition sv_on_data (m : AutoNatServer) (data : list byte) : AutoNatServer * res AutoNatError unit :=
  if decide (sv_state m ≠ AwaitingRequest) then (m, Ok ())
  else sv_try_decode_request (sv_set_buf m (sv_recv_buf m ++ data)).

Definition sv_handle_input (m : AutoNatServer) (input : AutoNatServerInput)
    : AutoNatServer * res AutoNatError unit :=
  match input with
  | SvData data => sv_on_data m data
  | SvRespondPublic addrs => (sv_respond_public m addrs, Ok ())
  | SvRespondError status reason => (sv_respond_error m status reason, Ok ())
  | SvFlush => (m, Ok ())
  end.

Definition sv_poll_output (m : AutoNatServer) : option AutoNatServerOutput * AutoNatServer :=
  match sv_emitted m, sv_request m with
  | false, Some request =>
      (Some (SvRequest request),
       {| sv_outbound := sv_outbound m; sv_recv_buf := sv_recv_buf m; sv_request := sv_request m;
          sv_emitted := true; sv_state := sv_state m |})
  | _, _ =>
      let '(outbound, m) := sv_take_outbound m in
      if decide (outbound ≠ []) then (Some (SvOutbound outbound), m) else (None, m)
  end.

Definition sv_is_idle (m : AutoNatServer) : bool :=
  bool_decide (sv_outbound m = []) && (sv_emitted m || bool_decide (sv_request m = None)).

(** ** The trait *)

#[export] Instance Cl_sansio :
    SansIoProtocol AutoNatClient AutoNatClientInput AutoNatClientOutput AutoNatError := {
  handle_input := cl_handle_input; poll_output := cl_poll_output; is_idle := cl_is_idle }.
#[export] Instance Sv_sansio :
    SansIoProtocol AutoNatServer AutoNatServerInput AutoNatServerOutput AutoNatError := {
  handle_input := sv_handle_input; poll_output := sv_poll_output; is_idle := sv_is_idle }.

#[local] Ltac law_case := cbn; intros; simplify_eq/=; first [done | lia | naive_solver].

#[export, refine] Instance Cl_laws : SansIoLaws Cl_sansio := {
  pending m := (some_bytes (cl_outbound m) + unsent (cl_emitted m) (cl_outcome m))%nat }.
Proof.
  - intros [o b s oc e]; cbn -[decide]. unfold cl_is_idle, cl_poll_output, cl_take_outbound.
    cbn -[decide]. destruct o, s, oc, e; law_case.
  - intros [o b s oc e] m'; cbn -[decide]. unfold cl_is_idle, cl_poll_output, cl_take_outbound.
    cbn -[decide]. destruct o, s, oc, e; law_case.
  - intros [o b s oc e] x m'; cbn -[decide]. unfold cl_poll_output, cl_take_outbound.
    destruct o, s, oc, e; law_case.
Defined.

#[export, refine] Instance Sv_laws : SansIoLaws Sv_sansio := {
  pending m := (some_bytes (sv_outbound m) + unsent (sv_emitted m) (sv_request m))%nat }.
Proof.
  - intros [o b r e s]; cbn -[decide]. unfold sv_is_idle, sv_poll_output, sv_take_outbound.
    cbn -[decide]. destruct o, r, e; law_case.
  - intros [o b r e s] m'; cbn -[decide]. unfold sv_is_idle, sv_poll_output, sv_take_outbound.
    cbn -[decide]. destruct o, r, e; law_case.
  - intros [o b r e s] x m'; cbn -[decide]. unfold sv_poll_output, sv_take_outbound.
    destruct o, r, e; law_case.
Defined.

(** ** Reading a framed message from a growing buffer *)

Lemma autonat_reader m :
  message_ok m → Z.of_nat (length (encode_frame (message_encode m))) <= MAX_MESSAGE_SIZE →
  MessageReader read_frame MAX_MESSAGE_SIZE (Ok m) (encode_frame (message_encode m)).
Proof.
  intros Hm Hl.
  assert (∀ buf, Z.of_nat (length buf) <= MAX_MESSAGE_SIZE → enforce_max_size buf = Ok ()) as He
    by (intros; unfold enforce_max_size; by rewrite (proj2 (Z.ltb_ge _ _)) by done).
  assert (Z.of_nat (length (message_encode m)) <= MAX_MESSAGE_SIZE) as Hp
    by (unfold encode_frame in Hl; rewrite length_app in Hl; lia).
  split.
  - intros tail Ht. unfold read_frame. rewrite He by done. cbn [mbind res_bind].
    rewrite autonat_decode_encode_frame, message_decode_encode by done.
    by rewrite Nat2Z.id, drop_app_length.
  - intros buf k Hk Hne Hb. unfold read_frame. rewrite He by done. cbn [mbind res_bind].
    by rewrite (autonat_decode_frame_prefix _ _ _ Hp Hk).
Qed.

(** ** Client *)

Definition cl_finish (m : AutoNatClient) (response : DialResponse) (rest : list byte) : AutoNatClient :=
  {| cl_outbound := cl_outbound m; cl_recv_buf := rest; cl_state := FlowDone;
     cl_outcome := Some (reachability response); cl_emitted := cl_emitted m |}.

Lemma cl_feed_done m cs : cl_state m = FlowDone → feed_inputs m (ClData <$> cs) = (m, Ok ()).
Proof.
  intros Hd. induction cs as [|c cs IH]; [done|].
  cbn [fmap list_fmap feed_inputs handle_input Cl_sansio cl_handle_input]. unfold cl_on_data.
  by rewrite decide_True by done.
Qed.

Lemma cl_feed_response msg response m cs :
  message_ok msg → Z.of_nat (length (encode_frame (message_encode msg))) <= MAX_MESSAGE_SIZE →
  msg_kind msg = TypeDialResponse → msg_response msg = Some response →
  cl_state m ≠ FlowDone → cl_recv_buf m = [] → concat cs = encode_frame (message_encode msg) →
  feed_inputs m (ClData <$> cs) = (cl_finish m response [], Ok ()).
Proof.
  intros Hm Hl Hk Hr Hs Hb Hcat. pose proof (autonat_reader msg Hm Hl).
  destruct (feed_awaited ClData read_frame MAX_MESSAGE_SIZE (λ m, cl_state m ≠ FlowDone)
    cl_recv_buf cl_set_buf (λ m _ rest, cl_finish m response rest) (Ok msg)
    (encode_frame (message_encode msg))) with m (@nil byte) cs (encode_frame (message_encode msg))
    as (t & cs' & -> & Ht); try done.
  - intros m1 c Hw Hrd. cbn [handle_input Cl_sansio cl_handle_input]. unfold cl_on_data, cl_try_decode_response.
    rewrite decide_False by done. cbn [cl_recv_buf cl_set_buf]. by rewrite Hrd.
  - intros m1 c rest Hw Hrd. cbn [handle_input Cl_sansio cl_handle_input].
    unfold cl_on_data, cl_try_decode_response.
    rewrite decide_False by done. cbn [cl_recv_buf cl_set_buf]. rewrite Hrd.
    rewrite decide_False by (by intros ?). by rewrite Hr.
  - apply total_fits. by rewrite Hb, Hcat.
  - by rewrite Hb, Hcat, app_nil_r.
  - by rewrite Hb.
  - apply eq_sym, app_eq_nil in Ht as [-> _]. by apply cl_feed_done.
Qed.

(** ** Server *)

Definition sv_finish (m : AutoNatServer) (request : AutoNatRequest) (rest : list byte) : AutoNatServer :=
  {| sv_outbound := sv_outbound m; sv_recv_buf := rest; sv_request := Some request;
     sv_emitted := false; sv_state := RequestReady |}.

Lemma sv_feed_busy m cs : sv_state m ≠ AwaitingRequest → feed_inputs m (SvData <$> cs) = (m, Ok ()).
Proof.
  intros Hd. induction cs as [|c cs IH]; [done|].
  cbn [fmap list_fmap feed_inputs handle_input Sv_sansio sv_handle_input]. unfold sv_on_data.
  by rewrite decide_True by done.
Qed.

Lemma sv_feed_request msg request m cs :
  message_ok msg → Z.of_nat (length (encode_frame (message_encode msg))) <= MAX_MESSAGE_SIZE →
  msg_kind msg = TypeDial → request_of msg = Ok request →
  sv_state m = AwaitingRequest → sv_recv_buf m = [] → concat cs = encode_frame (message_encode msg) →
  feed_inputs m (SvData <$> cs) = (sv_finish m request [], Ok ()).
Proof.
  intros Hm Hl Hk Hr Hs Hb Hcat. pose proof (autonat_reader msg Hm Hl).
  destruct (feed_awaited SvData read_frame MAX_MESSAGE_SIZE (λ m, sv_state m = AwaitingRequest)
    sv_recv_buf sv_set_buf (λ m _ rest, sv_finish m request rest) (Ok msg)
    (encode_frame (message_encode msg))) with m (@nil byte) cs (encode_frame (message_encode msg))
    as (t & cs' & -> & Ht); try done.
  - intros m1 c Hw Hrd. cbn [handle_input Sv_sansio sv_handle_input]. unfold sv_on_data, sv_try_decode_request.
    rewrite decide_False by (by intros ?). cbn [sv_recv_buf sv_set_buf]. by rewrite Hrd.
  - intros m1 c rest Hw Hrd. cbn [handle_input Sv_sansio sv_handle_input].
    unfold sv_on_data, sv_try_decode_request.
    rewrite decide_False by (by intros ?). cbn [sv_recv_buf sv_set_buf]. rewrite Hrd.
    rewrite decide_False by (by intros ?). by rewrite Hr.
  - apply total_fits. by rewrite Hb, Hcat.
  - by rewrite Hb, Hcat, app_nil_r.
  - by rewrite Hb.
  - apply eq_sym, app_eq_nil in Ht as [-> _]. by apply sv_feed_busy.
Qed.

(** ** Properties *)

Definition frame_of (m : Message) : list byte := encode_frame (message_encode m).
Definition fits (m : Message) : Prop := Z.of_nat (length (frame_of m)) <= MAX_MESSAGE_SIZE.

Lemma fits_bytes m b : fits m → (length b <= length (message_encode m))%nat → bytes_ok b.
Proof.
  unfold fits, frame_of, encode_frame, bytes_ok, MAX_MESSAGE_SIZE. rewrite length_app. u64_tac.
Qed.

Lemma dial_message_ok peer_id addrs :
  addrs_ok addrs → fits (dial_message peer_id addrs) → message_ok (dial_message peer_id addrs).
Proof.
  intros Ha Hf. split; [|done]. cbn.
  assert (bytes_ok (dial_encode {| dial_peer := Some {| pi_id := pid_to_bytes peer_id; pi_addrs := to_bytes <$> addrs |} |}))
    as Hd.
  { eapply fits_bytes; [exact Hf|]. cbn. etrans; [|apply length_encode_bytes_field]. lia. }
  split; [|exact Hd]. split.
  - split; [|by apply addrs_bytes_ok]. cbn. pose proof (pid_length peer_id). unfold bytes_ok. u64_tac.
  - eapply bytes_ok_le; [|exact Hd]. cbn. etrans; [|apply length_encode_bytes_field]. lia.
Qed.

(** What the caller of the server can decide, as inputs and outcomes. *)
Inductive Verdict : Type := Reachable (addrs : list Multiaddr) | NotReachable (s : ResponseStatus) (reason : string).

Definition verdict_input (v : Verdict) : AutoNatServerInput :=
  match v with Reachable addrs => SvRespondPublic addrs | NotReachable s reason => SvRespondError s reason end.
Definition verdict_message (v : Verdict) : Message :=
  match v with
  | Reachable addrs => response_message DialOk None addrs
  | NotReachable s reason => response_message s (Some reason) []
  end.
Definition verdict_ok (v : Verdict) : Prop :=
  match v with Reachable addrs => addrs_ok addrs | NotReachable s reason => s ≠ DialOk ∧ str_ok reason end.
Definition verdict_outcome (v : Verdict) : Reachability :=
  match v with
  | Reachable addrs => Public addrs (to_bytes <$> addrs)
  | NotReachable s reason =>
      if decide (s = DialError ∨ s = DialRefused) then Private s reason else Unknown s reason
  end.

Lemma verdict_message_ok v : verdict_ok v → fits (verdict_message v) → message_ok (verdict_message v).
Proof.
  intros Hv Hf. split; [by destruct v|].
  assert (∃ r, msg_response (verdict_message v) = Some r ∧ response_ok r ∧
    (length (response_encode r) <= length (message_encode (verdict_message v)))%nat) as (r & -> & Hr & Hl).
  { destruct v as [addrs|s reason]; (eexists; split; [done|]); cbn; split;
      try (etrans; [|apply length_encode_bytes_field]; lia).
    - split; [done|by apply addrs_bytes_ok].
    - split; [|constructor]. split; [apply Hv|]. eapply fits_bytes; [exact Hf|]. cbn.
      etrans; [|apply length_encode_bytes_field]. unfold response_encode. cbn.
      etrans; [|apply Nat.le_add_l]. etrans; [|apply length_encode_bytes_field]. lia. }
  cbn. split; [done|]. by eapply fits_bytes.
Qed.

Lemma decode_addrs_roundtrip addrs : addrs_ok addrs → decode_addrs (to_bytes <$> addrs) = addrs.
Proof. apply omap_from_to_bytes. Qed.

Lemma verdict_reachability v r :
  verdict_ok v → msg_response (verdict_message v) = Some r → reachability r = verdict_outcome v.
Proof.
  intros Hv Hr. destruct v as [addrs|s reason]; injection Hr as <-; unfold reachability;
    cbn [resp_status resp_addrs resp_text default from_option].
  - by rewrite decode_addrs_roundtrip.
  - destruct Hv as [Hs _]. destruct s; cbn; try done;
      (rewrite decide_True by auto || rewrite decide_False by (by intros [?|?])); done.
Qed.

(** The client once its request was polled. *)
Definition cl_started (peer_id : P) (addrs : list Multiaddr) : AutoNatClient :=
  (cl_poll_output (cl_new peer_id addrs)).2.

(** C25. A reachability probe end to end: the client sends its identity and addresses;
    whatever the fragmentation, the server's caller is asked to dial exactly these,
    once; and the verdict the caller gives, encoded, split in any way and decoded,
    becomes exactly one outcome on the client: public with the addresses the caller
    confirmed, private when the dial failed or was refused, unknown otherwise, with the
    caller's reason. *)
Theorem autonat_exchange peer_id addrs cs1 v cs2 :
  pid_ok peer_id → addrs_ok addrs → fits (dial_message peer_id addrs) →
  concat cs1 = frame_of (dial_message peer_id addrs) →
  verdict_ok v → fits (verdict_message v) → concat cs2 = frame_of (verdict_message v) →
  cl_poll_output (cl_new peer_id addrs)
    = (Some (ClOutbound (frame_of (dial_message peer_id addrs))), cl_started peer_id addrs) ∧
  ∃ s1 s2 s3 s4 c1 c2,
    feed_inputs sv_new (SvData <$> cs1) = (s1, Ok ()) ∧
    drain_all s1 = ([SvRequest {| req_peer_id := peer_id; req_addrs := addrs;
                                  req_raw_addrs := to_bytes <$> addrs |}], s2) ∧
    sv_handle_input s2 (verdict_input v) = (s3, Ok ()) ∧
    drain_all s3 = ([SvOutbound (frame_of (verdict_message v))], s4) ∧
    feed_inputs (cl_started peer_id addrs) (ClData <$> cs2) = (c1, Ok ()) ∧
    drain_all c1 = ([ClOutcome (verdict_outcome v)], c2).
Proof.
  intros Hp Ha Hf H1 Hv Hfv H2. split.
  { unfold cl_started, cl_poll_output. cbn -[decide]. by rewrite decide_True by apply encode_frame_ne. }
  assert (request_of (dial_message peer_id addrs)
    = Ok {| req_peer_id := peer_id; req_addrs := addrs; req_raw_addrs := to_bytes <$> addrs |}) as Hr.
  { unfold request_of. cbn. rewrite pid_roundtrip by done. cbn -[fmap]. by rewrite decode_addrs_roundtrip. }
  pose proof (sv_feed_request _ _ sv_new cs1 (dial_message_ok _ _ Ha Hf) Hf eq_refl Hr eq_refl eq_refl H1) as Hs1.
  assert (∃ r, msg_response (verdict_message v) = Some r) as [r Hmr] by (destruct v; by eexists).
  pose proof (cl_feed_response _ r (cl_started peer_id addrs) cs2 (verdict_message_ok v Hv Hfv) Hfv
    ltac:(by destruct v) Hmr ltac:(done) eq_refl H2) as Hc1.
  unfold cl_finish in Hc1. rewrite (verdict_reachability v r Hv Hmr) in Hc1.
  by destruct v; eexists _, _, _, _, _, _; split_and!.
Qed.

(** ** Any order of inputs and polls *)

Definition cl_told (o : AutoNatClientOutput) : option Reachability :=
  match o with ClOutcome r => Some r | _ => None end.
Definition cl_sent (o : AutoNatClientOutput) : option (list byte) :=
  match o with ClOutbound d => Some d | _ => None end.
Definition sv_told (o : AutoNatServerOutput) : option AutoNatRequest :=
  match o with SvRequest r => Some r | _ => None end.

Lemma read_frame_no_panic buf : read_frame buf ≠ Panic.
Proof.
  unfold read_frame, enforce_max_size. destruct (_ <? _); [done|]. cbn [mbind res_bind].
  pose proof (autonat_decode_frame_total buf). by destruct (autonat_decode_frame buf) as [[]|[]|].
Qed.

Lemma read_frame_message buf d rest : read_frame buf = Ok (Some (d, rest)) → d ≠ Panic.
Proof.
  unfold read_frame, enforce_max_size. destruct (_ <? _); [done|]. cbn [mbind res_bind].
  destruct (autonat_decode_frame buf) as [[]|[]|]; try done. intros [= <- _]. apply message_decode_total.
Qed.

Definition cl_inv (request : list byte) (os : list AutoNatClientOutput) (m : AutoNatClient) : Prop :=
  (omap cl_sent os = [] ∧ cl_outbound m = request ∨ omap cl_sent os = [request] ∧ cl_outbound m = []) ∧
  (length (omap cl_told os) + unsent (cl_emitted m) (cl_outcome m) ≤ 1)%nat ∧
  (cl_state m ≠ FlowDone → cl_outcome m = None ∧ omap cl_told os = []).

Lemma cl_input_no_panic m i : (cl_handle_input m i).2 ≠ Panic.
Proof.
  destruct i as [|data]; [done|]. cbn [cl_handle_input]. unfold cl_on_data, cl_try_decode_response.
  case_decide; [done|]. pose proof (read_frame_no_panic (cl_recv_buf (cl_set_buf m (cl_recv_buf m ++ data)))).
  destruct (read_frame _) as [[[d rest]|]| |] eqn:Hr; try done.
  apply read_frame_message in Hr. destruct d as [msg| |]; try done.
  by case_decide; [|destruct (msg_response msg)].
Qed.

Lemma sv_input_no_panic m i : (sv_handle_input m i).2 ≠ Panic.
Proof.
  destruct i as [data| | |]; try done. cbn [sv_handle_input]. unfold sv_on_data, sv_try_decode_request.
  case_decide; [done|]. pose proof (read_frame_no_panic (sv_recv_buf (sv_set_buf m (sv_recv_buf m ++ data)))).
  destruct (read_frame _) as [[[d rest]|]| |] eqn:Hr; try done.
  apply read_frame_message in Hr. destruct d as [msg| |]; try done. case_decide; [done|].
  assert (request_of msg ≠ Panic) as Hq; [|by destruct (request_of msg)].
  unfold request_of. apply bind_no_panic; [apply ok_or_no_panic|intros d _].
  apply bind_no_panic; [apply ok_or_no_panic|intros p _].
  apply bind_no_panic; [apply map_err_no_panic, pid_no_panic|done].
Qed.

Lemma cl_inv_input request os m i : cl_inv request os m → cl_inv request os (cl_handle_input m i).1.
Proof.
  intros Hi. destruct i as [|data]; [done|]. cbn [cl_handle_input]. unfold cl_on_data, cl_try_decode_response.
  case_decide as Hs; [done|]. cbn [cl_recv_buf cl_set_buf].
  destruct (read_frame _) as [[[[msg| |] rest]|]| |]; try done.
  destruct Hi as (Ho & Ht & Hq). destruct (Hq Hs) as [Hn1 Hn2].
  case_decide; [|destruct (msg_response msg); [|done]]; split_and!; cbn; try done.
  rewrite Hn2. by destruct (cl_emitted m); cbn; lia.
Qed.

Lemma cl_inv_poll request os m :
  request ≠ [] → cl_inv request os m →
  cl_inv request (os ++ option_list (cl_poll_output m).1) (cl_poll_output m).2.
Proof.
  intros Hne. destruct m as [o b s oc e]. unfold cl_inv, cl_poll_output, cl_take_outbound. cbn -[decide].
  intros (Ho & Ht & Hq). destruct (decide (o ≠ [])) as [Hd|Hd].
  - destruct (decide (s = Pending)) as [->|Hs]; cbn; rewrite decide_True by done; cbn;
      rewrite !omap_app; cbn; rewrite !app_nil_r; (split_and!; [right|done|naive_solver]).
    all: destruct Ho as [[-> ->]|[_ ->]]; done.
  - assert (o = []) as -> by (by destruct o; [|destruct Hd]).
    destruct Ho as [[_ <-]|[Ho _]]; [done|].
    destruct (decide (s = Pending)) as [->|Hs]; cbn; rewrite decide_False by done; cbn;
      destruct e, oc as [oc|]; cbn in *; rewrite ?omap_app, ?app_nil_r; cbn; rewrite ?app_nil_r, ?length_app; cbn;
      (split_and!; [by right|lia|naive_solver]).
Qed.

Definition sv_inv (os : list AutoNatServerOutput) (m : AutoNatServer) : Prop :=
  (length (omap sv_told os) + unsent (sv_emitted m) (sv_request m) ≤ 1)%nat ∧
  (sv_state m = AwaitingRequest → sv_request m = None ∧ omap sv_told os = []).

Lemma sv_inv_input os m i : sv_inv os m → sv_inv os (sv_handle_input m i).1.
Proof.
  intros Hi. destruct i as [data|addrs|s reason|]; cbn [sv_handle_input fst]; [|by destruct Hi..|done].
  unfold sv_on_data, sv_try_decode_request.
  destruct (decide (sv_state m = AwaitingRequest)) as [Hs|Hs]; [|by rewrite decide_True].
  rewrite decide_False by (by intros ?). cbn [sv_recv_buf sv_set_buf].
  destruct (read_frame _) as [[[[msg| |] rest]|]| |]; try done.
  destruct Hi as [Ht Hq]. destruct (Hq Hs) as [Hn1 Hn2].
  case_decide; [by split|]. destruct (request_of msg); [|done..]. split; cbn; [by rewrite Hn2; cbn; lia|done].
Qed.

Lemma sv_inv_poll os m : sv_inv os m → sv_inv (os ++ option_list (sv_poll_output m).1) (sv_poll_output m).2.
Proof.
  destruct m as [o b r e s]. unfold sv_inv, sv_poll_output, sv_take_outbound. cbn -[decide].
  intros [Ht Hq]. destruct e, r as [r|], (decide (o ≠ [])); cbn in *; rewrite ?omap_app, ?app_nil_r; cbn;
    rewrite ?app_nil_r, ?length_app; cbn; split; first [lia|naive_solver].
Qed.

(** Nothing the remote or the caller does unwinds an AutoNAT machine, in any state;
    and whatever the order of inputs and polls, errors included, the client sends
    exactly its one request and reports at most one outcome, and the server reports at
    most one request. *)
Theorem autonat_safe c s ci si peer_id addrs csteps ssteps :
  (cl_handle_input c ci).2 ≠ Panic ∧ (sv_handle_input s si).2 ≠ Panic ∧
  let cos := (drive (cl_new peer_id addrs) csteps).1 in
  let sos := (drive sv_new ssteps).1 in
  omap cl_sent cos `prefix_of` [frame_of (dial_message peer_id addrs)] ∧
  (length (omap cl_told cos) ≤ 1)%nat ∧ (length (omap sv_told sos) ≤ 1)%nat.
Proof.
  split; [apply cl_input_no_panic|]. split; [apply sv_input_no_panic|]. cbv zeta.
  destruct (drive_invariant (cl_inv (frame_of (dial_message peer_id addrs))) (cl_new peer_id addrs) csteps)
    as (Ho & Ht & _).
  { split_and!; [by left|cbn; lia|done]. }
  { intros. by apply cl_inv_input. }
  { intros. apply cl_inv_poll; [apply encode_frame_ne|done]. }
  destruct (drive_invariant sv_inv sv_new ssteps) as [Hr _].
  { split; [cbn; lia|done]. }
  { intros. by apply sv_inv_input. }
  { intros. by apply sv_inv_poll. }
  split_and!; [|lia..]. destruct Ho as [[-> _]|[-> _]]; [by eexists|done].
Qed.

End autonat.

(** ** Concrete runs *)

Definition demo_request : list byte := frame_of (dial_message {| multihash := demo_mh |} [demo_addr]).
Definition demo_verdict : Verdict (P:=PeerId PlainMultihash) := NotReachable DialRefused "too busy"%string.
Definition demo_response : list byte := frame_of (verdict_message demo_verdict).

Lemma autonat_exchange_witness :
  ∃ s1 s2 c1 c2,
    feed_inputs (P:=Sv_sansio (λ _, EmptyString)) sv_new (SvData <$> [take 2 demo_request; drop 2 demo_request])
      = (s1, Ok ()) ∧
    drain_all (L:=Sv_laws (λ _, EmptyString)) s1
      = ([SvRequest {| req_peer_id := {| multihash := demo_mh |}; req_addrs := [demo_addr];
                       req_raw_addrs := [to_bytes demo_addr] |}], s2) ∧
    feed_inputs (P:=Cl_sansio (λ _, EmptyString)) (cl_started {| multihash := demo_mh |} [demo_addr])
      (ClData <$> [take 1 demo_response; drop 1 demo_response]) = (c1, Ok ()) ∧
    drain_all (L:=Cl_laws (λ _, EmptyString)) c1
      = ([ClOutcome (Private DialRefused "too busy"%string)], c2).
Proof.
  destruct (autonat_exchange (λ _, EmptyString) {| multihash := demo_mh |} [demo_addr]
    [take 2 demo_request; drop 2 demo_request] demo_verdict
    [take 1 demo_response; drop 1 demo_response])
    as (_ & s1 & s2 & s3 & s4 & c1 & c2 & H1 & H2 & _ & _ & H5 & H6).
  - repeat constructor.
  - repeat constructor; simpl; try lia; by vm_compute.
  - by vm_compute.
  - by vm_compute.
  - by split.
  - by vm_compute.
  - by vm_compute.
  - exists s1, s2, c1, c2. split_and!; [exact H1|exact H2|exact H5|exact H6].
Defined.

(** An oversized buffer is refused again and again, but it is neither dropped nor does
    the flow end: it grows with everything the remote sends. *)
Example client_oversized_buffer_grows :
  let m := (cl_handle_input (λ _, EmptyString) (cl_new {| multihash := demo_mh |} [demo_addr])
              (ClData (repeat x80 9000))).1 in
  let r := cl_handle_input (λ _, EmptyString) m (ClData (repeat x80 9000)) in
  r.2 = Err (MessageTooLarge 18000) ∧ length (cl_recv_buf r.1) = 18000%nat.
Proof. by vm_compute. Qed.
