(* ===== verification/FieldReaders.v ===== *)
(** * The crates' own copies of the field readers

    [crates/dcutr/src/message.rs] and [crates/identify/src/message.rs] do not share the
    helpers of [crates/relay/src/message.rs] that [Protobuf] models: each has its own.  They
    are transcribed here as they are written, and shown to be the shared ones, so what is
    proved of the messages with the shared helpers holds of the code of those crates. *)
From S2P Require Import Prelude Varint Protobuf IdentifyMessage DcutrMessage.
From Stdlib Require Import ZArith Strings.Byte.
From stdpp Require Import base numbers list.

#[local] Open Scope Z_scope.

(** [usize::try_from(u64)] where [usize] has 64 bits. *)
Definition usize_try_from (v : Z) : option Z := if v <? u64_mod then Some v else None.

(** ** DCUtR *)

Definition dcutr_read_len_delimited (input : list byte) (idx : nat)
    : res DcutrMessageError (list byte * nat) :=
  rest ← slice_from input idx;
  '(length_u64, len_used) ← map_err DcutrMessage.Varint (read_uvarint rest);
  let idx := (idx + len_used)%nat in
  let remaining := (length input - idx)%nat in
  len ← ok_or (usize_try_from length_u64) (DcutrMessage.FieldOverflow idx (u64_mod - 1) remaining);
  if Z.of_nat remaining <? len then Err (DcutrMessage.FieldOverflow idx len remaining)
  else
    value ← slice input (Z.of_nat idx) (Z.of_nat idx + len);
    Ok (value, (idx + Z.to_nat len)%nat).

Definition dcutr_decode_frame (overflow_checks : bool) (input : list byte) : res Empty_set FrameDecode :=
  if decide (input = []) then Ok Incomplete
  else
    match read_uvarint input with
    | Ok (v, used) =>
        let length_ := wrap_u64 v in
        total ← usize_add overflow_checks (Z.of_nat used) length_;
        if Z.of_nat (length input) <? total then Ok Incomplete
        else
          payload ← slice input (Z.of_nat used) total;
          Ok (Complete payload total)
    | Err BufferTooShort => Ok Incomplete
    | Err e => Ok (FrameError e)
    | Panic => Panic
    end.

Definition dcutr_encode_frame (payload : list byte) : list byte :=
  let out := write_uvarint (Z.of_nat (length payload)) [] in
  out ++ payload.

(** ** Identify *)

Definition identify_encode_bytes_field (out : list byte) (tag : byte) (data : list byte) : list byte :=
  let out := out ++ [tag] in
  let out := write_uvarint (Z.of_nat (length data)) out in
  out ++ data.

Definition identify_read_len_delimited (input : list byte) (idx : nat)
    : res IdentifyMessageError (list byte * nat) :=
  rest ← slice_from input idx;
  '(length_u64, len_used) ← map_err IdentifyMessage.Varint (read_uvarint rest);
  let idx := (idx + len_used)%nat in
  let remaining := (length input - idx)%nat in
  len ← ok_or (usize_try_from length_u64) (IdentifyMessage.FieldOverflow idx length_u64 remaining);
  if Z.of_nat remaining <? len then Err (IdentifyMessage.FieldOverflow idx length_u64 remaining)
  else
    value ← slice input (Z.of_nat idx) (Z.of_nat idx + len);
    Ok (value, (idx + Z.to_nat len)%nat).

(** ** They are the shared ones *)

Lemma usize_try_from_u64 v : is_u64 v → usize_try_from v = Some v.
Proof. intros [_ Hv]. unfold usize_try_from. by rewrite (proj2 (Z.ltb_lt _ _)). Qed.

(** Reading a length first: the conversion of the length never fails. *)
Lemma read_length_ext {E A} (f g : Z → nat → res E A) (err : VarintError → E) input idx :
  (∀ v used, is_u64 v → f v used = g v used) →
  (rest ← slice_from input idx; '(v, used) ← map_err err (read_uvarint rest); f v used) =
  (rest ← slice_from input idx; '(v, used) ← map_err err (read_uvarint rest); g v used).
Proof.
  intros Hfg. destruct (slice_from (E:=E) input idx) as [rest| |]; cbn [mbind res_bind]; [|done..].
  destruct (read_uvarint rest) as [[v used]| |] eqn:Hr; cbn [map_err mbind res_bind]; [|done..].
  apply Hfg. by apply (read_uvarint_inv rest v used).
Qed.

Lemma dcutr_reads_shared input idx : dcutr_read_len_delimited input idx = read_len_delimited input idx.
Proof.
  apply (read_length_ext _ (λ len used, _)). intros v used Hv.
  by rewrite (usize_try_from_u64 v Hv).
Qed.
Lemma identify_reads_shared input idx : identify_read_len_delimited input idx = read_len_delimited input idx.
Proof.
  apply (read_length_ext _ (λ len used, _)). intros v used Hv.
  by rewrite (usize_try_from_u64 v Hv).
Qed.

Lemma dcutr_frames_shared oc input : dcutr_decode_frame oc input = decode_frame oc input.
Proof.
  unfold dcutr_decode_frame, decode_frame. destruct input as [|b input]; [done|].
  rewrite decide_False by done. destruct (read_uvarint (b :: input)) as [[v used]|e|] eqn:Hr; [|by destruct e|done].
  cbv zeta. unfold wrap_u64. rewrite Z.mod_small; [done|]. by apply (read_uvarint_inv (b :: input) v used).
Qed.

(** So a frame written by one crate is read by another: what the peers of one protocol
    write is read whichever copy of the helpers reads it. *)
Lemma frame_copies_interoperate oc p rest :
  Z.of_nat (length p) + 10 < u64_mod →
  dcutr_decode_frame oc (dcutr_encode_frame p ++ rest) =
    Ok (Complete p (Z.of_nat (length (dcutr_encode_frame p)))).
Proof. intros Hp. rewrite dcutr_frames_shared. by apply (decode_encode_frame oc p rest). Qed.
