(* ===== verification/Decoders.v ===== *)
(** * Bytes from the network

    The decoders that run on what a remote sends, of all crates together. *)
From S2P Require Import Prelude Varint Multibase PeerId Keys Multiaddr Multistream Protobuf.
From S2P Require Import IdentifyMessage RelayMessage DcutrMessage AutonatMessage FieldReaders.
From Stdlib Require Import ZArith Strings.Byte Strings.String.
From stdpp Require Import base numbers list strings.

#[local] Open Scope Z_scope.

(** The call ends with a value or an error: the decoders of this development show an
    unwinding call, and one that runs out of fuel, as [Panic]. *)
Definition settles {E A} (r : res E A) : Prop := r ≠ Panic.

(** A frame whose length prefix overflows [usize] when the length of the prefix itself is
    added to it. *)
Definition frame_length_overflows (input : list byte) : Prop :=
  ∃ v used, read_uvarint input = Ok (v, used) ∧ u64_mod <= Z.of_nat used + v.

(** C37. Which bytes from a remote make a decoder unwind.  For identify, relay, DCUtR and
    AutoNAT messages, AutoNAT frames, multiaddrs and peer ids there are none: the
    decoders answer every input with a value or an error.  The frame decoder of the relay
    and of DCUtR unwinds, with and without overflow checks, on exactly the inputs whose
    length prefix overflows when its own length is added; and the decoder of public keys
    unwinds, with overflow checks only, on exactly the inputs whose key length overflows
    in that way. *)
Theorem decoders_total {P} `{!PeerIdBytes P} {MH} `{MultihashLaws MH} utf8_error_text overflow_checks input :
  settles (IdentifyMessage.decode input) ∧
  settles (hop_decode input) ∧ settles (stop_decode input) ∧
  settles (punch_decode input) ∧
  settles (message_decode input) ∧ settles (autonat_decode_frame input) ∧
  settles (Multiaddr.from_bytes (P:=P) utf8_error_text input) ∧
  settles (peer_from_bytes (MH:=MH) input) ∧
  (settles (decode_frame overflow_checks input) ↔ ¬ frame_length_overflows input) ∧
  (settles (dcutr_decode_frame overflow_checks input) ↔ ¬ frame_length_overflows input) ∧
  (settles (decode_protobuf overflow_checks input) ↔ ¬ (overflow_checks = true ∧ key_length_overflows input)).
Proof.
  split_and!.
  - apply IdentifyMessage.decode_no_panic.
  - apply hop_decode_total.
  - apply stop_decode_total.
  - apply punch_decode_total.
  - apply message_decode_total.
  - apply autonat_decode_frame_total.
  - apply from_bytes_no_panic.
  - apply peer_from_bytes_no_panic.
  - unfold settles. by rewrite decode_frame_panic.
  - unfold settles. by rewrite dcutr_frames_shared, decode_frame_panic.
  - unfold settles. by rewrite decode_protobuf_panic.
Qed.

(** Ten bytes are enough. *)
Example ten_bytes_overflow : frame_length_overflows (repeat xff 9 ++ [x01]).
Proof. exists (u64_mod - 1), 10%nat. split; [by vm_compute|]. unfold u64_mod. lia. Qed.

Lemma decoders_total_witness :
  settles (Multiaddr.from_bytes (P:=PeerId PlainMultihash) (λ _, EmptyString) [x04; x7f]) ∧ settles (hop_decode [x04; x7f]).
Proof.
  destruct (decoders_total (P:=PeerId PlainMultihash) (MH:=PlainMultihash) (λ _, EmptyString) false [x04; x7f])
    as (_ & H1 & _ & _ & _ & _ & H2 & _). split; [exact H2|exact H1].
Defined.
