(* ===== verification/SwarmEvents.v ===== *)
(** * The vocabulary of the swarm ([crates/swarm/src/events.rs],
      [crates/transport/src/event.rs], [connection_endpoint.rs])

    What the transport tells the swarm, what the swarm asks of its driver, and what it
    tells the application. *)
From S2P Require Import Prelude IdentifyMessage Multibase PeerId Multiaddr.
From Stdlib Require Import ZArith Strings.Byte Strings.String.
From stdpp Require Import base numbers list strings.

#[local] Open Scope Z_scope.

(** [OpenStreamToken(u64)]. *)
Definition OpenStreamToken : Type := Z.

Inductive SwarmErrorKind : Type :=
  | KTransport
  | KMultistream
  | KIdentify
  | KPing
  | KUserProtocol (protocol_id : string)
  | KIdentifyStreamRejected
  | KOpenStreamFailed
  | KUnsupportedProtocol
  | KDriver.

Section events.
Context {P : Type} `{!Display P}.

(** ** The transport *)

Record ConnectionEndpoint : Type := {
  transport : Multiaddr P;
  endpoint_peer_id : option P;
}.

Inductive TransportEvent : Type :=
  | TConnected (id : ConnectionId) (endpoint : ConnectionEndpoint)
  | TStreamOpened (id : ConnectionId) (stream_id : StreamId)
  | TIncomingStream (id : ConnectionId) (stream_id : StreamId)
  | TStreamData (id : ConnectionId) (stream_id : StreamId) (data : list byte)
  | TStreamRemoteWriteClosed (id : ConnectionId) (stream_id : StreamId)
  | TStreamClosed (id : ConnectionId) (stream_id : StreamId)
  | TClosed (id : ConnectionId)
  | TError (id : ConnectionId) (message : string)
  | TIncomingConnection (id : ConnectionId) (endpoint : ConnectionEndpoint)
  | TPeerIdentityVerified (id : ConnectionId) (endpoint : ConnectionEndpoint)
      (previous_peer_id : option P)
  | TListening (addr : Multiaddr P).

(** ** The application *)

Record SwarmRuntimeError : Type := {
  err_kind : SwarmErrorKind;
  err_peer_id : option P;
  err_conn_id : option ConnectionId;
  err_detail : string;
}.

Inductive SwarmEvent : Type :=
  | ConnectionEstablished (peer_id : P)
  | ConnectionClosed (peer_id : P)
  | IdentifyReceived (peer_id : P) (info : IdentifyMessage)
  | PeerReady (peer_id : P) (protocols : list string)
  | PingRttMeasured (peer_id : P) (rtt_ms : Z)
  | PingTimeout (peer_id : P)
  | UserStreamReady (peer_id : P) (stream_id : StreamId) (protocol_id : string)
      (initiated_locally : bool)
  | UserStreamData (peer_id : P) (stream_id : StreamId) (data : list byte)
  | UserStreamRemoteWriteClosed (peer_id : P) (stream_id : StreamId)
  | UserStreamClosed (peer_id : P) (stream_id : StreamId)
  | SwarmErrorEvent (error : SwarmRuntimeError).

(** ** The driver *)

Inductive SwarmAction : Type :=
  | OpenStream (conn_id : ConnectionId) (token : OpenStreamToken)
  | SendStream (conn_id : ConnectionId) (stream_id : StreamId) (data : list byte)
  | SwCloseStreamWrite (conn_id : ConnectionId) (stream_id : StreamId)
  | SwResetStream (conn_id : ConnectionId) (stream_id : StreamId)
  | CloseConnection (conn_id : ConnectionId).

Inductive SwarmInput : Type :=
  | SwTransport (event : TransportEvent) (now_ms : Z)
  | SwTick (now_ms : Z)
  | SwStreamOpened (conn_id : ConnectionId) (stream_id : StreamId) (token : OpenStreamToken)
      (now_ms : Z)
  | SwOpenStreamFailed (token : OpenStreamToken) (reason : string) (now_ms : Z)
  | SwRuntimeError (error : SwarmRuntimeError).

Inductive SwarmOutput : Type :=
  | SwAction (a : SwarmAction)
  | SwEvent (e : SwarmEvent).

Inductive SwarmError : Type :=
  | NotConnected (peer_id : P)
  | ProtocolNotRegistered (protocol_id : string)
  | RemoteDoesNotSupport (peer_id : P) (protocol_id : string)
  | UserStreamNotFound (peer_id : P) (stream_id : StreamId)
  | SwPingError (reason : string)
  | SwIdentifyError (reason : string).

#[export] Instance SwarmError_display : Display SwarmError := λ e,
  match e with
  | NotConnected p => "peer " ++ to_string p ++ " is not connected"
  | ProtocolNotRegistered id => "user protocol '" ++ id ++ "' is not registered"
  | RemoteDoesNotSupport p id =>
      "peer " ++ to_string p ++ " does not support user protocol '" ++ id ++ "'"
  | UserStreamNotFound p s =>
      "user stream " ++ to_string (A:=Z) s ++ " for peer " ++ to_string p ++ " is not active"
  | SwPingError reason => "ping error: " ++ reason
  | SwIdentifyError reason => "identify error: " ++ reason
  end%string.

(** [migrate_buffered_events] on one event: the peer it names. *)
Definition event_peer (e : SwarmEvent) : option P :=
  match e with
  | ConnectionEstablished p | ConnectionClosed p | IdentifyReceived p _ | PeerReady p _
  | PingRttMeasured p _ | PingTimeout p | UserStreamReady p _ _ _ | UserStreamData p _ _
  | UserStreamRemoteWriteClosed p _ | UserStreamClosed p _ => Some p
  | SwarmErrorEvent err => err_peer_id err
  end.
End events.
