(* ===== verification/Transport.v ===== *)
(** * The transport interface ([crates/transport/src/transport.rs], [error.rs],
      [connection_endpoint.rs], [connection_state.rs])

    The trait [Transport] as a type class over the state of an adapter, with the parts
    of its documented contract the swarm relies on as laws, and the operations on
    connection endpoints. *)
From S2P Require Import Prelude Multibase PeerId Multiaddr PeerAddr IdentifyMessage SwarmEvents.
From Stdlib Require Import ZArith Strings.Byte Strings.String.
From stdpp Require Import base numbers list strings.

#[local] Open Scope Z_scope.

(** ** Errors *)

Inductive ConnectionState : Type := Connecting | Connected | Closing | Closed.
#[export] Instance ConnectionState_eq_dec : EqDecision ConnectionState.
Proof. solve_decision. Defined.
#[export] Instance ConnectionState_display : Display ConnectionState := λ s,
  match s with
  | Connecting => "connecting" | Connected => "connected" | Closing => "closing" | Closed => "closed"
  end%string.

Inductive TransportError : Type :=
  | InvalidAddress (context reason : string)
  | InvalidConfig (reason : string)
  | ResourceExhausted (resource : string)
  | ConnectionNotFound (id : ConnectionId)
  | InvalidState (id : ConnectionId) (state expected : ConnectionState)
  | NotListening
  | ListenFailed (reason : string)
  | DialFailed (id : ConnectionId) (reason : string)
  | StreamNotFound (id : ConnectionId) (stream_id : StreamId)
  | StreamExists (id : ConnectionId) (stream_id : StreamId)
  | TOpenStreamFailed (id : ConnectionId) (reason : string)
  | StreamSendFailed (id : ConnectionId) (stream_id : StreamId) (reason : string)
  | StreamCloseWriteFailed (id : ConnectionId) (stream_id : StreamId) (reason : string)
  | StreamResetFailed (id : ConnectionId) (stream_id : StreamId) (reason : string)
  | CloseFailed (id : ConnectionId) (reason : string)
  | PollError (reason : string).
#[export] Instance TransportError_eq_dec : EqDecision TransportError.
Proof. unfold ConnectionId, StreamId. solve_decision. Defined.

#[export] Instance TransportError_display : Display TransportError := λ e,
  let n := to_string (A:=Z) in
  match e with
  | InvalidAddress context reason => "invalid address for " ++ context ++ ": " ++ reason
  | InvalidConfig reason => "invalid transport configuration: " ++ reason
  | ResourceExhausted resource => "resource exhausted: " ++ resource
  | ConnectionNotFound id => "connection " ++ n id ++ " not found"
  | InvalidState id state expected =>
      "connection " ++ n id ++ " is " ++ to_string state ++ ", expected " ++ to_string expected
  | NotListening => "not listening on any address"
  | ListenFailed reason => "listen failed: " ++ reason
  | DialFailed id reason => "dial failed for " ++ n id ++ ": " ++ reason
  | StreamNotFound id st => "stream " ++ n st ++ " not found on connection " ++ n id
  | StreamExists id st => "stream " ++ n st ++ " already exists on connection " ++ n id
  | TOpenStreamFailed id reason => "failed to open stream on " ++ n id ++ ": " ++ reason
  | StreamSendFailed id st reason => "stream send failed for " ++ n id ++ "/" ++ n st ++ ": " ++ reason
  | StreamCloseWriteFailed id st reason =>
      "stream close write failed for " ++ n id ++ "/" ++ n st ++ ": " ++ reason
  | StreamResetFailed id st reason => "stream reset failed for " ++ n id ++ "/" ++ n st ++ ": " ++ reason
  | CloseFailed id reason => "close failed for " ++ n id ++ ": " ++ reason
  | PollError reason => "poll error: " ++ reason
  end%string.

(** ** The trait *)

Class Transport (T P : Type) := {
  t_dial : T → PeerAddr P → T * res TransportError ConnectionId;
  t_listen : T → Multiaddr P → T * res TransportError (Multiaddr P);
  t_open_stream : T → ConnectionId → T * res TransportError StreamId;
  t_send_stream : T → ConnectionId → StreamId → list byte → T * res TransportError unit;
  t_close_stream_write : T → ConnectionId → StreamId → T * res TransportError unit;
  t_reset_stream : T → ConnectionId → StreamId → T * res TransportError unit;
  t_close : T → ConnectionId → T * res TransportError unit;
  t_poll : T → T * res TransportError (list (TransportEvent (P:=P)));
  t_local_addresses : T → list (Multiaddr P);
}.
#[global] Hint Mode Transport ! - : typeclass_instances.

Section contract.
Context {P : Type}.

(** The connection an event is about, for the events that may only follow [Connected]. *)
Definition event_conn (e : TransportEvent (P:=P)) : option ConnectionId :=
  match e with
  | TStreamOpened c _ | TIncomingStream c _ | TStreamData c _ _ | TStreamRemoteWriteClosed c _
  | TStreamClosed c _ | TPeerIdentityVerified c _ _ => Some c
  | _ => None
  end.

(** "A dialed connection emits [Connected] exactly once after the handshake completes.
    No stream events may precede [Connected]", along a list of events, where [up] holds
    of the connections that have been reported before. *)
Fixpoint events_in_order (up : ConnectionId → Prop) (events : list (TransportEvent (P:=P))) : Prop :=
  match events with
  | [] => True
  | TConnected c _ :: events => ¬ up c ∧ events_in_order (λ c', c' = c ∨ up c') events
  | e :: events => (∀ c, event_conn e = Some c → up c) ∧ events_in_order up events
  end.

(** The connection that an event may make known to the swarm: it gives every connection
    that has delivered something a name. *)
Definition mentions (e : TransportEvent (P:=P)) : option ConnectionId :=
  match e with
  | TConnected c _ | TStreamData c _ _ | TStreamRemoteWriteClosed c _ | TPeerIdentityVerified c _ _ => Some c
  | _ => None
  end.
Definition mentioned_in (events : list (TransportEvent (P:=P))) (c : ConnectionId) : Prop :=
  ∃ e, e ∈ events ∧ mentions e = Some c.

(** What the swarm relies on, which is less: a connection is not reported as [Connected]
    when it has been before, or has delivered something before.  That things happen on a
    connection that is never reported as [Connected] does not matter. *)
Fixpoint connects_first (up : ConnectionId → Prop) (events : list (TransportEvent (P:=P))) : Prop :=
  match events with
  | [] => True
  | e :: events =>
      match e with TConnected c _ => ¬ up c | _ => True end ∧
      connects_first (λ c, mentions e = Some c ∨ up c) events
  end.

Lemma in_order_connects_first up up' events :
  (∀ c, up' c → up c) → events_in_order up events → connects_first up' events.
Proof.
  revert up up'. induction events as [|e events IH]; intros up up' Hsub; [done|].
  destruct e; cbn; intros [He Ho]; (split; [by auto|]); (eapply IH; [|exact Ho]); cbn; intros c' [Hc|Hc]; simplify_eq; auto.
Qed.
End contract.

(** A call that returns, and forgets nothing of what was reported. *)
Definition keeps {T A} (reported : T → ConnectionId → Prop) (t : T) (x : T * res TransportError A) : Prop :=
  x.2 ≠ Panic ∧ ∀ c, reported t c → reported x.1 c.

(** What is asked of an adapter: its methods do not unwind, and it does not report a
    connection as [Connected] twice, or after it has delivered data of it, which is less
    than the trait documents ([in_order_connects_first]).  [reported] holds of the
    connections that an adapter has so far reported as connected or delivered data of. *)
Class TransportContract (T P : Type) `{Transport T P} := {
  reported : T → ConnectionId → Prop;
  dial_keeps t a : keeps reported t (t_dial t a);
  listen_keeps t a : keeps reported t (t_listen t a);
  open_stream_keeps t c : keeps reported t (t_open_stream t c);
  send_stream_keeps t c s d : keeps reported t (t_send_stream t c s d);
  close_stream_write_keeps t c s : keeps reported t (t_close_stream_write t c s);
  reset_stream_keeps t c s : keeps reported t (t_reset_stream t c s);
  close_keeps t c : keeps reported t (t_close t c);
  poll_keeps t : keeps reported t (t_poll t);
  poll_in_order t events : (t_poll t).2 = Ok events →
    connects_first (reported t) events ∧ ∀ c, mentioned_in events c → reported (t_poll t).1 c;
}.
#[global] Hint Mode TransportContract ! - - : typeclass_instances.

(** ** Endpoints *)

Section endpoint.
Context {P : Type} `{PidEq : EqDecision P}.

Definition endpoint_new (t : Multiaddr P) : ConnectionEndpoint := {| transport := t; endpoint_peer_id := None |}.
Definition endpoint_with_peer_id (t : Multiaddr P) (p : P) : ConnectionEndpoint :=
  {| transport := t; endpoint_peer_id := Some p |}.
Definition from_peer_addr (a : PeerAddr P) : ConnectionEndpoint :=
  endpoint_with_peer_id (pa_transport a) (pa_peer_id a).
Definition set_peer_id (e : ConnectionEndpoint) (p : P) : ConnectionEndpoint :=
  {| transport := transport e; endpoint_peer_id := Some p |}.
Definition clear_peer_id (e : ConnectionEndpoint (P:=P)) : ConnectionEndpoint :=
  {| transport := transport e; endpoint_peer_id := None |}.

Definition to_peer_addr (e : ConnectionEndpoint (P:=P)) : option (PeerAddr P) :=
  match endpoint_peer_id e with
  | None => None
  | Some peer_id => match pa_new (transport e) peer_id with Ok a => Some a | _ => None end
  end.

Lemma to_from_peer_addr a : peer_addr_ok a → to_peer_addr (from_peer_addr a) = Some a.
Proof.
  destruct a as [[ps] p]. intros [Hne Hf]. unfold to_peer_addr, pa_new. cbn in *.
  apply existsb_p2p in Hf. by rewrite Hf, decide_False.
Qed.
End endpoint.

