(* ===== verification/QuicConnection.v ===== *)
(** * A QUIC connection ([transports/quic/src/connection.rs])

    The state the adapter keeps beside a [quiche] connection: its lifecycle, the
    streams with their queues of writes, and the identity of the peer.

    [quiche] is third-party code and the socket belongs to the operating system.
    [Quiche] names the methods of [quiche::Connection] the adapter calls, [World] what
    it asks of the system; [QuicheLaws] and [WorldLaws] state their documented
    behaviour. *)
From S2P Require Import Prelude NetAddr Effects Multibase PeerId Keys Tls Multiaddr PeerAddr IdentifyMessage SwarmEvents Transport.
From Stdlib Require Import ZArith Strings.Byte Strings.String.
From stdpp Require Import base numbers list gmap strings.

#[local] Open Scope Z_scope.

(** ** What the adapter is built on *)

(** [quiche::Error]: [Done], or another error by its text. *)
Inductive QuicheError : Type := Done | QuicheFailed (text : string).
Inductive Shutdown : Type := ShutdownRead | ShutdownWrite.

Class Quiche (Q : Type) := {
  q_is_server : Q → bool;
  q_is_established : Q → bool;
  q_is_closed : Q → bool;
  q_source_id : Q → list byte;
  q_peer_cert : Q → option (list byte);
  q_recv : Q → list byte → SocketAddr → SocketAddr → Q * (QuicheError + nat);
  (** [send(&mut out)], with the size of the buffer: the packet and its destination *)
  q_send : Q → nat → Q * (QuicheError + (list byte * SocketAddr));
  q_stream_send : Q → Z → list byte → bool → Q * (QuicheError + Z);
  (** [stream_recv(id, &mut buf)], with the size of the buffer: what was read, and fin *)
  q_stream_recv : Q → Z → nat → Q * (QuicheError + (list byte * bool));
  q_stream_shutdown : Q → Z → Shutdown → Z → Q * (QuicheError + unit);
  q_close : Q → bool → Z → list byte → Q * (QuicheError + unit);
  q_readable : Q → list Z;
  (** the text of [Done] *)
  q_done_text : string;
  (** how many packets [send] would still produce, and how many reads a stream has *)
  q_packets : Q → nat;
  q_reads : Q → Z → nat;
}.
#[global] Hint Mode Quiche ! : typeclass_instances.

(** [std::io::Error]. *)
Inductive IoError : Type := WouldBlock (text : string) | IoFailed (text : string).
#[export] Instance IoError_display : Display IoError := λ e,
  match e with WouldBlock text | IoFailed text => text end.

(** The operating system: sockets, name resolution and randomness, which also seeds
    the order in which hash maps are visited. *)
Class World (W Sock : Type) := {
  udp_bind : W → string → W * (IoError + Sock);
  set_nonblocking : W → Sock → W * (IoError + unit);
  sock_local_addr : W → Sock → IoError + SocketAddr;
  send_to : W → Sock → list byte → SocketAddr → W * (IoError + unit);
  recv_from : W → Sock → nat → W * (IoError + (list byte * SocketAddr));
  to_socket_addrs : W → string → W * (IoError + list SocketAddr);
  getrandom_fill : W → nat → W * (string + list byte);
  hash_order : ∀ {K : Type}, W → list K → W * list K;
  (** how many datagrams [recv_from] would still deliver *)
  inbox : W → Sock → nat;
}.
#[global] Hint Mode World ! - : typeclass_instances.

(** [minip2p_tls::verify_libp2p_certificate]. *)
Class CertVerifier (P : Type) := verify_certificate : list byte → res TlsError P.
#[global] Hint Mode CertVerifier ! : typeclass_instances.

(** ** State *)

Definition SEND_BUF_SIZE : nat := 1350.
Definition RECV_BUF_SIZE : nat := Z.to_nat 65535.
#[global] Arguments RECV_BUF_SIZE : simpl never.

Record PendingStreamWrite : Type := { pw_bytes : list byte; pw_offset : Z; pw_fin : bool }.

Definition data_write (bytes : list byte) : PendingStreamWrite :=
  {| pw_bytes := bytes; pw_offset := 0; pw_fin := false |}.
Definition fin_write : PendingStreamWrite := {| pw_bytes := []; pw_offset := 0; pw_fin := true |}.

Record StreamRuntimeState : Type := {
  pending_writes : list PendingStreamWrite;
  local_write_closed : bool;
  remote_write_closed : bool;
  incoming_notified : bool;
  closed_notified : bool;
}.

(** [StreamRuntimeState::default()]. *)
Definition fresh_stream : StreamRuntimeState := {|
  pending_writes := []; local_write_closed := false; remote_write_closed := false;
  incoming_notified := false; closed_notified := false;
|}.

Definition set_pending (ws : list PendingStreamWrite) (s : StreamRuntimeState) : StreamRuntimeState := {|
  pending_writes := ws; local_write_closed := local_write_closed s;
  remote_write_closed := remote_write_closed s; incoming_notified := incoming_notified s;
  closed_notified := closed_notified s;
|}.
Definition on_local_write_closed (s : StreamRuntimeState) : StreamRuntimeState := {|
  pending_writes := pending_writes s; local_write_closed := true;
  remote_write_closed := remote_write_closed s; incoming_notified := incoming_notified s;
  closed_notified := closed_notified s;
|}.
Definition on_remote_write_closed (s : StreamRuntimeState) : StreamRuntimeState := {|
  pending_writes := pending_writes s; local_write_closed := local_write_closed s;
  remote_write_closed := true; incoming_notified := incoming_notified s;
  closed_notified := closed_notified s;
|}.
Definition set_incoming_notified (s : StreamRuntimeState) : StreamRuntimeState := {|
  pending_writes := pending_writes s; local_write_closed := local_write_closed s;
  remote_write_closed := remote_write_closed s; incoming_notified := true;
  closed_notified := closed_notified s;
|}.
Definition set_closed_notified (s : StreamRuntimeState) : StreamRuntimeState := {|
  pending_writes := pending_writes s; local_write_closed := local_write_closed s;
  remote_write_closed := remote_write_closed s; incoming_notified := incoming_notified s;
  closed_notified := true;
|}.
Definition is_fully_closed (s : StreamRuntimeState) : bool := local_write_closed s && remote_write_closed s.

(** [usize::saturating_add]. *)
Definition saturating_add (a b : Z) : Z := Z.min (u64_mod - 1) (a + b).

Section connection.
Context {P : Type} `{PidEq : EqDecision P} `{PD : !Display P} `{CV : !CertVerifier P}.
Context {Q : Type} `{QA : !Quiche Q}.
Context {W Sock : Type} `{WA : !World W Sock}.

Record QuicConnection : Type := {
  qc_id : ConnectionId;
  qc_conn : Q;
  qc_peer_addr : SocketAddr;
  qc_endpoint : ConnectionEndpoint (P:=P);
  qc_state : ConnectionState;
  stream_states : gmap Z StreamRuntimeState;
  next_local_bidi_stream_id : Z;
}.

Definition set_conn (q : Q) (c : QuicConnection) : QuicConnection := {|
  qc_id := qc_id c; qc_conn := q; qc_peer_addr := qc_peer_addr c; qc_endpoint := qc_endpoint c;
  qc_state := qc_state c; stream_states := stream_states c;
  next_local_bidi_stream_id := next_local_bidi_stream_id c;
|}.
Definition set_endpoint (e : ConnectionEndpoint) (c : QuicConnection) : QuicConnection := {|
  qc_id := qc_id c; qc_conn := qc_conn c; qc_peer_addr := qc_peer_addr c; qc_endpoint := e;
  qc_state := qc_state c; stream_states := stream_states c;
  next_local_bidi_stream_id := next_local_bidi_stream_id c;
|}.
Definition set_state (st : ConnectionState) (c : QuicConnection) : QuicConnection := {|
  qc_id := qc_id c; qc_conn := qc_conn c; qc_peer_addr := qc_peer_addr c; qc_endpoint := qc_endpoint c;
  qc_state := st; stream_states := stream_states c;
  next_local_bidi_stream_id := next_local_bidi_stream_id c;
|}.
Definition set_streams (m : gmap Z StreamRuntimeState) (c : QuicConnection) : QuicConnection := {|
  qc_id := qc_id c; qc_conn := qc_conn c; qc_peer_addr := qc_peer_addr c; qc_endpoint := qc_endpoint c;
  qc_state := qc_state c; stream_states := m;
  next_local_bidi_stream_id := next_local_bidi_stream_id c;
|}.
Definition set_next_stream (n : Z) (c : QuicConnection) : QuicConnection := {|
  qc_id := qc_id c; qc_conn := qc_conn c; qc_peer_addr := qc_peer_addr c; qc_endpoint := qc_endpoint c;
  qc_state := qc_state c; stream_states := stream_states c; next_local_bidi_stream_id := n;
|}.

Definition conn_new (id : ConnectionId) (conn : Q) (peer_addr : SocketAddr) (endpoint : ConnectionEndpoint)
    : QuicConnection := {|
  qc_id := id; qc_conn := conn; qc_peer_addr := peer_addr; qc_endpoint := endpoint;
  qc_state := Connecting; stream_states := ∅;
  next_local_bidi_stream_id := if q_is_server conn then 1 else 0;
|}.

Definition source_cid_bytes (c : QuicConnection) : list byte := q_source_id (qc_conn c).
Definition is_server (c : QuicConnection) : bool := q_is_server (qc_conn c).
Definition conn_set_peer_id (p : P) (c : QuicConnection) : QuicConnection :=
  set_endpoint (set_peer_id (qc_endpoint c) p) c.
Definition is_closed (c : QuicConnection) : bool := q_is_closed (qc_conn c).
Definition matches_peer (c : QuicConnection) (addr : SocketAddr) : bool := bool_decide (qc_peer_addr c = addr).

(** What a method borrows mutably: the system, the connection and the event vector. *)
Record ConnState : Type := {
  cs_world : W;
  cs_conn : QuicConnection;
  cs_events : list (TransportEvent (P:=P));
}.

Definition meth (A : Type) : Type := eff ConnState TransportError A.

Definition upd_conn (f : QuicConnection → QuicConnection) : meth unit :=
  modify (λ s, {| cs_world := cs_world s; cs_conn := f (cs_conn s); cs_events := cs_events s |}).
Definition push_event (f : ConnectionId → TransportEvent) : meth unit :=
  modify (λ s, {| cs_world := cs_world s; cs_conn := cs_conn s;
                  cs_events := cs_events s ++ [f (qc_id (cs_conn s))] |}).
Definition fail {A} (f : ConnectionId → TransportError) : meth A :=
  id ← gets (qc_id ∘ cs_conn); throw (f id).
Definition on_quiche {A} (f : Q → Q * A) : meth A :=
  state (λ s, let '(q, a) := f (qc_conn (cs_conn s)) in
    ({| cs_world := cs_world s; cs_conn := set_conn q (cs_conn s); cs_events := cs_events s |}, a)).
Definition on_world {A} (f : W → W * A) : meth A :=
  state (λ s, let '(w, a) := f (cs_world s) in
    ({| cs_world := w; cs_conn := cs_conn s; cs_events := cs_events s |}, a)).
Definition get_stream (raw : Z) : meth (option StreamRuntimeState) :=
  gets (λ s, stream_states (cs_conn s) !! raw).
Definition put_stream (raw : Z) (st : StreamRuntimeState) : meth unit :=
  upd_conn (λ c, set_streams (<[raw := st]> (stream_states c)) c).

(** ** Streams *)

Definition is_local_initiated_stream (c : QuicConnection) (stream_id : Z) : bool :=
  let local_initiator_bit := if q_is_server (qc_conn c) then 1 else 0 in
  Z.land stream_id 1 =? local_initiator_bit.
Definition is_remote_initiated_stream (c : QuicConnection) (stream_id : Z) : bool :=
  negb (is_local_initiated_stream c stream_id).

Definition note_stream_closed_if_finished (stream_id : Z) : meth unit :=
  st ← get_stream stream_id;
  match st with
  | Some st =>
      if is_fully_closed st && negb (closed_notified st) then
        _ ← put_stream stream_id (set_closed_notified st);
        push_event (λ id, TStreamClosed id stream_id)
      else mret ()
  | None => mret ()
  end.

Definition ensure_stream_discovered (stream_id : Z) : meth unit :=
  is_remote ← gets (λ s, is_remote_initiated_stream (cs_conn s) stream_id);
  st ← get_stream stream_id;
  let st := default fresh_stream st in
  _ ← put_stream stream_id st;
  if is_remote && negb (incoming_notified st) then
    _ ← put_stream stream_id (set_incoming_notified st);
    push_event (λ id, TIncomingStream id stream_id)
  else mret ().

Definition get_or_create_local_stream_state (stream_id : Z) : meth StreamRuntimeState :=
  st ← get_stream stream_id;
  match st with
  | Some st => mret st
  | None =>
      is_local ← gets (λ s, is_local_initiated_stream (cs_conn s) stream_id);
      if negb is_local then fail (λ id, StreamNotFound id stream_id)
      else
        _ ← put_stream stream_id fresh_stream;
        mret fresh_stream
  end.

Definition gc_closed_streams : meth unit :=
  upd_conn (λ c, set_streams
    (filter (λ '(_, st), ¬ (closed_notified st = true ∧ pending_writes st = [])) (stream_states c)) c).

(** ** Output *)

(** [q_packets] bounds the iterations of the loop. *)
Fixpoint flush_loop (fuel : nat) (socket : Sock) : meth unit :=
  match fuel with
  | O => panic
  | S fuel =>
      r ← on_quiche (λ q, q_send q SEND_BUF_SIZE);
      match r with
      | inl Done => mret ()
      | inl (QuicheFailed e) => fail (λ id, CloseFailed id ("quiche send error: " ++ e))
      | inr (out, to) =>
          r ← on_world (λ w, send_to w socket out to);
          match r with
          | inl e => fail (λ id, CloseFailed id ("udp send error: " ++ to_string e))
          | inr _ => flush_loop fuel socket
          end
      end
  end.
Definition flush (socket : Sock) : meth unit :=
  n ← gets (λ s, q_packets (qc_conn (cs_conn s)));
  flush_loop (S n) socket.

(** The loop for one stream.  Every iteration that does not leave it takes bytes or a
    whole write from the queue, so [queue_size] bounds the iterations. *)
Definition queue_size (ws : list PendingStreamWrite) : nat :=
  sum_list ((λ w, S (length (pw_bytes w) - Z.to_nat (pw_offset w))) <$> ws).

Fixpoint drain_stream (fuel : nat) (raw : Z) : meth unit :=
  match fuel with
  | O => panic
  | S fuel =>
      st ← get_stream raw;
      match st ≫= (head ∘ pending_writes) with
      | None => mret ()
      | Some pending =>
          payload ← lift (slice (pw_bytes pending) (pw_offset pending) (Z.of_nat (length (pw_bytes pending))));
          let fin := pw_fin pending && bool_decide (payload = []) in
          r ← on_quiche (λ q, q_stream_send q raw payload fin);
          match r with
          | inl Done => mret ()
          | inl (QuicheFailed e) => fail (λ id, StreamSendFailed id raw ("stream_send error: " ++ e))
          | inr written =>
              st ← get_stream raw;
              match st with
              | Some st =>
                  match pending_writes st with
                  | front :: rest =>
                      if pw_fin front && bool_decide (pw_bytes front = []) then
                        _ ← put_stream raw (set_pending rest st);
                        _ ← note_stream_closed_if_finished raw;
                        drain_stream fuel raw
                      else if written =? 0 then mret ()
                      else
                        let offset := saturating_add (pw_offset front) written in
                        _ ← put_stream raw (set_pending
                              (if Z.of_nat (length (pw_bytes front)) <=? offset then rest
                               else {| pw_bytes := pw_bytes front; pw_offset := offset; pw_fin := pw_fin front |} :: rest) st);
                        _ ← note_stream_closed_if_finished raw;
                        drain_stream fuel raw
                  | [] =>
                      _ ← note_stream_closed_if_finished raw;
                      drain_stream fuel raw
                  end
              | None =>
                  _ ← note_stream_closed_if_finished raw;
                  drain_stream fuel raw
              end
          end
      end
  end.

Definition drain_send_queue : meth unit :=
  keys ← gets (λ s, (map_to_list (stream_states (cs_conn s))).*1);
  stream_ids ← on_world (λ w, hash_order w keys);
  for_each stream_ids (λ raw,
    st ← get_stream raw;
    drain_stream (S (queue_size (default [] (pending_writes <$> st)))) raw).

(** ** Methods *)

(** Closing a connection whose peer did not prove its identity. *)
Definition reject (socket : Sock) (message : string) (code : Z) (reason : list byte) : meth unit :=
  _ ← push_event (λ id, TError id message);
  _ ← on_quiche (λ q, q_close q true code reason);
  _ ← upd_conn (set_state Closing);
  flush socket.

(** The identity the certificate of the peer proves, unless the connection is rejected
    for the lack of one or because another was expected. *)
Definition verified_peer (socket : Sock) : meth (option P) :=
  cert ← gets (λ s, q_peer_cert (qc_conn (cs_conn s)));
  match cert with
  | None =>
      _ ← reject socket "peer TLS certificate missing" 0x03 (as_bytes "peer certificate missing");
      mret None
  | Some peer_cert_der =>
      match verify_certificate peer_cert_der with
      | Ok verified_peer_id =>
          expected ← gets (λ s, endpoint_peer_id (qc_endpoint (cs_conn s)));
          match expected with
          | Some expected =>
              if decide (expected ≠ verified_peer_id) then
                _ ← reject socket ("peer id mismatch: dialed " ++ to_string expected
                                   ++ " but server certificate proves " ++ to_string verified_peer_id)
                      0x01 (as_bytes "peer id mismatch");
                mret None
              else mret (Some verified_peer_id)
          | None => mret (Some verified_peer_id)
          end
      | Err e =>
          _ ← reject socket ("peer TLS certificate verification failed: " ++ to_string e)
                0x02 (as_bytes "certificate verification failed");
          mret None
      | Panic => panic
      end
  end.

(** What follows a packet: the first time the handshake is complete, the identity of
    the peer is verified and the connection reported. *)
Definition after_recv (socket : Sock) : meth unit :=
  c ← gets cs_conn;
  if bool_decide (qc_state c = Connecting) && q_is_established (qc_conn c) then
    _ ← upd_conn (set_state Connected);
    _ ← drain_send_queue;
    _ ← flush socket;
    verified ← verified_peer socket;
    match verified with
    | None => mret ()
    | Some verified_peer_id =>
        _ ← upd_conn (conn_set_peer_id verified_peer_id);
        e ← gets (qc_endpoint ∘ cs_conn);
        push_event (λ id, TConnected id e)
    end
  else
    _ ← drain_send_queue;
    flush socket.

Definition recv_packet (buf : list byte) (from local : SocketAddr) (socket : Sock) : meth unit :=
  r ← on_quiche (λ q, q_recv q buf from local);
  match r with
  | inl (QuicheFailed e) => push_event (λ id, TError id ("recv error: " ++ e))
  | inl Done | inr _ => after_recv socket
  end.

Definition open_stream : meth StreamId :=
  c ← gets cs_conn;
  if decide (qc_state c ≠ Connected) then throw (InvalidState (qc_id c) (qc_state c) Connected)
  else
    let raw_stream_id := next_local_bidi_stream_id c in
    _ ← upd_conn (set_next_stream (wrap_u64 (raw_stream_id + 4)));
    st ← get_stream raw_stream_id;
    match st with
    | Some _ => throw (StreamExists (qc_id c) raw_stream_id)
    | None =>
        _ ← put_stream raw_stream_id fresh_stream;
        mret raw_stream_id
    end.

Definition send_stream (stream_id : StreamId) (data : list byte) (socket : Sock) : meth unit :=
  if decide (data = []) then mret ()
  else
    st ← get_or_create_local_stream_state stream_id;
    if local_write_closed st then
      fail (λ id, StreamSendFailed id stream_id "local stream write side is already closed")
    else
      _ ← put_stream stream_id (set_pending (pending_writes st ++ [data_write data]) st);
      _ ← drain_send_queue;
      flush socket.

Definition close_stream_write (stream_id : StreamId) (socket : Sock) : meth unit :=
  st ← get_or_create_local_stream_state stream_id;
  if local_write_closed st then
    fail (λ id, StreamCloseWriteFailed id stream_id "local stream write side is already closed")
  else
    let st := on_local_write_closed st in
    _ ← put_stream stream_id (set_pending (pending_writes st ++ [fin_write]) st);
    _ ← drain_send_queue;
    flush socket.

(** [self.conn.stream_shutdown(..).map_err(..)?] *)
Definition shutdown_stream (stream_id : StreamId) (direction : Shutdown) (side : string) : meth unit :=
  r ← on_quiche (λ q, q_stream_shutdown q stream_id direction 0x00);
  match r with
  | inr _ => mret ()
  | inl e =>
      let text := match e with Done => q_done_text (Q:=Q) | QuicheFailed e => e end in
      fail (λ id, StreamResetFailed id stream_id ("failed to shutdown stream " ++ side ++ " side: " ++ text))
  end.

Definition reset_stream (stream_id : StreamId) : meth unit :=
  st ← get_stream stream_id;
  match st with
  | None => fail (λ id, StreamNotFound id stream_id)
  | Some st =>
      _ ← shutdown_stream stream_id ShutdownWrite "write";
      _ ← shutdown_stream stream_id ShutdownRead "read";
      let st := on_remote_write_closed (on_local_write_closed st) in
      if closed_notified st then put_stream stream_id st
      else
        _ ← put_stream stream_id (set_closed_notified st);
        push_event (λ id, TStreamClosed id stream_id)
  end.

(** The events of the last drain go to a local vector, which is dropped. *)
Definition close (socket : Sock) : meth unit :=
  r ← on_quiche (λ q, q_close q true 0x00 (as_bytes "bye"));
  match r with
  | inl (QuicheFailed e) => fail (λ id, CloseFailed id ("close error: " ++ e))
  | _ =>
      _ ← upd_conn (set_state Closing);
      events ← gets cs_events;
      _ ← zoom id (λ t _, {| cs_world := cs_world t; cs_conn := cs_conn t; cs_events := events |}) drain_send_queue;
      flush socket
  end.

(** The loop on one readable stream; [q_reads] bounds its iterations. *)
Fixpoint recv_stream (fuel : nat) (raw : Z) : meth unit :=
  match fuel with
  | O => panic
  | S fuel =>
      r ← on_quiche (λ q, q_stream_recv q raw RECV_BUF_SIZE);
      match r with
      | inr (data, fin) =>
          _ ← (if decide (data = []) then mret () else push_event (λ id, TStreamData id raw data));
          if (fin : bool) then
            st ← get_stream raw;
            _ ← match st with
                | Some st => put_stream raw (on_remote_write_closed st)
                | None => mret ()
                end;
            _ ← push_event (λ id, TStreamRemoteWriteClosed id raw);
            note_stream_closed_if_finished raw
          else recv_stream fuel raw
      | inl Done => mret ()
      | inl (QuicheFailed e) =>
          push_event (λ id, TError id ("stream_recv error on " ++ to_string (A:=Z) raw ++ ": " ++ e))
      end
  end.

Definition poll_streams (socket : Sock) : meth unit :=
  established ← gets (λ s, q_is_established (qc_conn (cs_conn s)));
  if negb established then mret ()
  else
    readable ← gets (λ s, q_readable (qc_conn (cs_conn s)));
    _ ← for_each readable (λ raw,
          _ ← ensure_stream_discovered raw;
          n ← gets (λ s, q_reads (qc_conn (cs_conn s)) raw);
          recv_stream (S n) raw);
    _ ← drain_send_queue;
    _ ← flush socket;
    gc_closed_streams.

End connection.
