(* ===== verification/QuicGuarantees.v ===== *)
(** * What a QUIC connection guarantees ([transports/quic/src/connection.rs])

    The documented behaviour of [quiche] and of the system as laws, and what follows
    for a connection: bytes reach each stream in the order they were written, a peer is
    reported once and only with a proven identity, and every method returns. *)
From S2P Require Import Prelude NetAddr Effects Multibase PeerId Keys Tls Multiaddr PeerAddr IdentifyMessage SwarmEvents Transport QuicConnection.
From Stdlib Require Import ZArith Strings.Byte Strings.String.
From stdpp Require Import base numbers list gmap strings.

#[local] Open Scope Z_scope.

(** ** Laws *)

(** The methods of a connection other than [stream_send]. *)
Inductive q_step `{Quiche Q} : Q → Q → Prop :=
  | step_recv q b f l : q_step q (q_recv q b f l).1
  | step_send q n : q_step q (q_send q n).1
  | step_stream_recv q s n : q_step q (q_stream_recv q s n).1
  | step_shutdown q s d c : q_step q (q_stream_shutdown q s d c).1
  | step_close q a c r : q_step q (q_close q a c r).1.

(** Any number of calls of methods. *)
Definition q_runs `{Quiche Q} : Q → Q → Prop :=
  rtc (λ q q', q_step q q' ∨ ∃ s p fin, q' = (q_stream_send q s p fin).1).

(** [q_log q s] is what the connection has accepted on stream [s]: bytes, and [None]
    for the end of the stream.  Only [stream_send] accepts: a prefix of the bytes it is
    given, and the end of the stream when it takes them all. *)
Class QuicheLaws (Q : Type) `{Quiche Q} := {
  q_log : Q → Z → list (option byte);
  q_log_step (q q' : Q) : q_step q q' → q_log q' = q_log q;
  q_log_refused (q : Q) s p fin q' e : q_stream_send q s p fin = (q', inl e) → q_log q' = q_log q;
  q_log_accepted (q : Q) s p fin q' n : q_stream_send q s p fin = (q', inr n) →
    0 <= n <= Z.of_nat (length p) ∧
    q_log q' s = q_log q s ++ (Some <$> take (Z.to_nat n) p)
                 ++ (if fin && (n =? Z.of_nat (length p)) then [None] else []) ∧
    ∀ s', s' ≠ s → q_log q' s' = q_log q s';
  q_server_step (q q' : Q) : q_step q q' → q_is_server q' = q_is_server q;
  q_server_stream_send (q : Q) s p fin : q_is_server (q_stream_send q s p fin).1 = q_is_server q;
  (** [send] reports [Done] after finitely many packets, [stream_recv] [Done] or the end
      of the stream after finitely many reads *)
  q_packets_send (q : Q) n q' x : q_send q n = (q', inr x) → (q_packets q' < q_packets q)%nat;
  q_reads_recv (q : Q) s n q' d : q_stream_recv q s n = (q', inr (d, false)) → (q_reads q' s < q_reads q s)%nat;
}.
#[global] Hint Mode QuicheLaws ! - : typeclass_instances.

(** Hash maps are visited in some order; datagrams do not arrive while others are
    being handled. *)
Class WorldLaws (W Sock : Type) `{World W Sock} := {
  hash_order_perm {K} (w : W) (l : list K) : (hash_order w l).2 ≡ₚ l;
  inbox_recv (w : W) (s : Sock) n w' x : recv_from w s n = (w', inr x) → (inbox w' s < inbox w s)%nat;
  inbox_recv_any (w : W) (s s' : Sock) n : (inbox (recv_from w s' n).1 s <= inbox w s)%nat;
  inbox_send (w : W) (s s' : Sock) b a : (inbox (send_to w s' b a).1 s <= inbox w s)%nat;
  inbox_dns (w : W) (s : Sock) q : (inbox (to_socket_addrs w q).1 s <= inbox w s)%nat;
  inbox_random (w : W) (s : Sock) n : (inbox (getrandom_fill w n).1 s <= inbox w s)%nat;
  inbox_hash {K} (w : W) (s : Sock) (l : list K) : (inbox (hash_order w l).1 s <= inbox w s)%nat;
}.
#[global] Hint Mode WorldLaws ! - - : typeclass_instances.

Section guarantees.
Context {P : Type} `{PidEq : EqDecision P} `{PD : !Display P} `{CV : !CertVerifier P}.
Context {Q : Type} `{QA : !Quiche Q} `{QL : !QuicheLaws Q}.
Context {W Sock : Type} `{WA : !World W Sock} `{WL : !WorldLaws W Sock}.

Implicit Types (c : QuicConnection (P:=P) (Q:=Q)) (s : ConnState (P:=P) (Q:=Q) (W:=W)).

(** ** What has been written to a stream *)

Definition items (w : PendingStreamWrite) : list (option byte) :=
  (Some <$> drop (Z.to_nat (pw_offset w)) (pw_bytes w)) ++ (if pw_fin w then [None] else []).
Definition queued (st : option StreamRuntimeState) : list (option byte) :=
  match st with Some st => concat (items <$> pending_writes st) | None => [] end.

(** Accepted by [quiche], or waiting in the queue. *)
Definition written c (raw : Z) : list (option byte) := q_log (qc_conn c) raw ++ queued (stream_states c !! raw).

(** A queued write has bytes left or is an end of stream. *)
Definition write_ok (w : PendingStreamWrite) : Prop :=
  (0 <= pw_offset w < Z.of_nat (length (pw_bytes w)) ∧ Z.of_nat (length (pw_bytes w)) < u64_mod ∧ pw_fin w = false)
  ∨ w = fin_write.
Definition conn_ok c : Prop := map_Forall (λ _ st, Forall write_ok (pending_writes st)) (stream_states c).

(** ** How a method may change a connection *)

Definition is_connected (e : TransportEvent (P:=P)) : bool := match e with TConnected _ _ => true | _ => false end.
Definition connected_events (events : list (TransportEvent (P:=P))) : nat := length (List.filter is_connected events).

Definition pending_connect c : nat := if decide (qc_state c = Connecting) then 1 else 0.

(** Between [q] and [q'], the handshake was complete, and then the certificate the peer
    presented proved the identity of the endpoint. *)
Definition proven (q q' : Q) (e : ConnectionEndpoint (P:=P)) : Prop :=
  ∃ q1 q2 der p, q_runs q q1 ∧ q_is_established q1 = true ∧ q_runs q1 q2 ∧ q_peer_cert q2 = Some der ∧
    q_runs q2 q' ∧ verify_certificate der = Ok p ∧ endpoint_peer_id e = Some p.

Lemma q_runs_refl (q : Q) : q_runs q q.
Proof. apply rtc_refl. Qed.
Lemma q_runs_trans (q1 q2 q3 : Q) : q_runs q1 q2 → q_runs q2 q3 → q_runs q1 q3.
Proof. unfold q_runs. intros H1 H2. by etrans. Qed.
Lemma q_runs_step (q q' : Q) : q_step q q' → q_runs q q'.
Proof. intros H. apply rtc_once. by left. Qed.
Lemma q_runs_send (q : Q) raw p fin q' r : q_stream_send q raw p fin = (q', r) → q_runs q q'.
Proof. intros H. apply rtc_once. right. exists raw, p, fin. by rewrite H. Qed.
Lemma proven_mono q0 q q' q'' e : q_runs q0 q → q_runs q' q'' → proven q q' e → proven q0 q'' e.
Proof.
  intros H1 H2 (q1 & q2 & der & p & ? & ? & ? & ? & ? & ? & ?). exists q1, q2, der, p.
  split_and!; try done; by eapply q_runs_trans.
Qed.
#[local] Hint Resolve q_runs_refl : core.

Record evolves s s' : Prop := {
  ev_id : qc_id (cs_conn s') = qc_id (cs_conn s);
  ev_addr : qc_peer_addr (cs_conn s') = qc_peer_addr (cs_conn s);
  ev_transport : transport (qc_endpoint (cs_conn s')) = transport (qc_endpoint (cs_conn s));
  (** an expected or verified identity is never replaced *)
  ev_peer p : endpoint_peer_id (qc_endpoint (cs_conn s)) = Some p → endpoint_peer_id (qc_endpoint (cs_conn s')) = Some p;
  ev_server : q_is_server (qc_conn (cs_conn s')) = q_is_server (qc_conn (cs_conn s));
  ev_runs : q_runs (qc_conn (cs_conn s)) (qc_conn (cs_conn s'));
  (** and no datagram is waiting that was not before *)
  ev_inbox (k : Sock) : (inbox (cs_world s') k <= inbox (cs_world s) k)%nat;
  ev_events : cs_events s `prefix_of` cs_events s';
  (** a connection is reported at most once *)
  ev_connects : (connected_events (cs_events s') + pending_connect (cs_conn s')
                 <= connected_events (cs_events s) + pending_connect (cs_conn s))%nat;
  (** and only with a proven identity, the expected one if there is one *)
  ev_proven i e : TConnected i e ∈ cs_events s' → TConnected i e ∈ cs_events s ∨
    i = qc_id (cs_conn s) ∧ transport e = transport (qc_endpoint (cs_conn s)) ∧
    proven (qc_conn (cs_conn s)) (qc_conn (cs_conn s')) e ∧
    ∀ p, endpoint_peer_id (qc_endpoint (cs_conn s)) = Some p → endpoint_peer_id e = Some p;
}.

Definition inv s : Prop := conn_ok (cs_conn s).

#[export] Instance evolves_preorder : PreOrder evolves.
Proof.
  split.
  - intros s. split; auto.
  - intros s1 s2 s3 H12 H23. destruct H12, H23. split; try congruence; try lia; auto.
    + by eapply q_runs_trans.
    + intros k. specialize (ev_inbox0 k). specialize (ev_inbox1 k). lia.
    + by etrans.
    + intros i e [[?|(-> & Ht & Hp & He)]%ev_proven0|(-> & Ht & Hp & He)]%ev_proven1; [by left|..]; right.
      * split_and!; [done..| |done]. eapply proven_mono; [..|exact Hp]; done.
      * split_and!; [congruence..|eapply proven_mono; [..|exact Hp]; done|]. intros p Hp'. by apply He, ev_peer0.
Qed.

(** [evolves], and the streams have been written nothing. *)
Definition reads s s' : Prop := evolves s s' ∧ ∀ raw, written (cs_conn s') raw = written (cs_conn s) raw.

(** [reads], and the endpoint is the same. *)
Definition quiet s s' : Prop := reads s s' ∧ qc_endpoint (cs_conn s') = qc_endpoint (cs_conn s).

#[export] Instance reads_preorder : PreOrder reads.
Proof.
  split; [by split|]. intros s1 s2 s3 [H12 E12] [H23 E23]. split; [by etrans|]. intros raw. by rewrite E23, E12.
Qed.
#[export] Instance quiet_preorder : PreOrder quiet.
Proof. split; [by split|]. intros s1 s2 s3 [H12 E12] [H23 E23]. split; [by etrans|congruence]. Qed.

(** ** Rules for the primitives *)

Definition with_conn c s : ConnState :=
  {| cs_world := cs_world s; cs_conn := c; cs_events := cs_events s |}.
Definition with_world (w : W) s : ConnState :=
  {| cs_world := w; cs_conn := cs_conn s; cs_events := cs_events s |}.
Definition with_event (e : TransportEvent) s : ConnState :=
  {| cs_world := cs_world s; cs_conn := cs_conn s; cs_events := cs_events s ++ [e] |}.
Definition with_stream (raw : Z) (st : StreamRuntimeState) s : ConnState :=
  with_conn (set_streams (<[raw := st]> (stream_states (cs_conn s))) (cs_conn s)) s.

Section rules.
Context (R : ConnState (P:=P) (Q:=Q) (W:=W) → ConnState (P:=P) (Q:=Q) (W:=W) → Prop).

Lemma ok_upd_bind {B} f (k : unit → meth B) s0 s :
  run_ok inv R s0 (k ()) (with_conn (f (cs_conn s)) s) → run_ok inv R s0 (upd_conn f ≫= k) s.
Proof. done. Qed.
Lemma ok_put_bind {B} raw st (k : unit → meth B) s0 s :
  run_ok inv R s0 (k ()) (with_stream raw st s) → run_ok inv R s0 (put_stream raw st ≫= k) s.
Proof. done. Qed.
Lemma ok_push_bind {B} f (k : unit → meth B) s0 s :
  run_ok inv R s0 (k ()) (with_event (f (qc_id (cs_conn s))) s) → run_ok inv R s0 (push_event f ≫= k) s.
Proof. done. Qed.
Lemma ok_get_stream_bind {B} raw (k : option StreamRuntimeState → meth B) s0 s :
  run_ok inv R s0 (k (stream_states (cs_conn s) !! raw)) s → run_ok inv R s0 (get_stream raw ≫= k) s.
Proof. done. Qed.
Lemma ok_quiche_bind {A B} (f : Q → Q * A) (k : A → meth B) s0 s :
  (∀ q a, f (qc_conn (cs_conn s)) = (q, a) → run_ok inv R s0 (k a) (with_conn (set_conn q (cs_conn s)) s)) →
  run_ok inv R s0 (on_quiche f ≫= k) s.
Proof.
  intros H. apply ok_state_bind. specialize (H (f (qc_conn (cs_conn s))).1 (f (qc_conn (cs_conn s))).2).
  destruct (f _). by apply H.
Qed.
Lemma ok_world_bind {A B} (f : W → W * A) (k : A → meth B) s0 s :
  (∀ w a, f (cs_world s) = (w, a) → run_ok inv R s0 (k a) (with_world w s)) → run_ok inv R s0 (on_world f ≫= k) s.
Proof.
  intros H. apply ok_state_bind. specialize (H (f (cs_world s)).1 (f (cs_world s)).2).
  destruct (f _). by apply H.
Qed.
Lemma ok_fail {A} f s0 s : inv s → R s0 s → run_ok inv R s0 (fail (A:=A) f) s.
Proof. intros. unfold fail. apply ok_gets_bind. by apply ok_throw. Qed.
Lemma ok_push f s0 s : inv s → R s0 (with_event (f (qc_id (cs_conn s))) s) → run_ok inv R s0 (push_event f) s.
Proof. intros. by apply ok_modify. Qed.
Lemma ok_put raw st s0 s : inv (with_stream raw st s) → R s0 (with_stream raw st s) → run_ok inv R s0 (put_stream raw st) s.
Proof. intros. by apply ok_modify. Qed.
Lemma ok_upd f s0 s : inv (with_conn (f (cs_conn s)) s) → R s0 (with_conn (f (cs_conn s)) s) → run_ok inv R s0 (upd_conn f) s.
Proof. intros. by apply ok_modify. Qed.
End rules.

(** One step of a method. *)
Ltac step :=
  lazymatch goal with
  | |- run_ok _ _ _ (upd_conn _ ≫= _) _ => apply ok_upd_bind
  | |- run_ok _ _ _ (put_stream _ _ ≫= _) _ => apply ok_put_bind
  | |- run_ok _ _ _ (push_event _ ≫= _) _ => apply ok_push_bind
  | |- run_ok _ _ _ (get_stream _ ≫= _) _ => apply ok_get_stream_bind
  | |- run_ok _ _ _ (gets _ ≫= _) _ => apply ok_gets_bind
  | |- run_ok _ _ _ (mret _ ≫= _) _ => apply ok_ret_bind
  | |- run_ok _ _ _ (on_quiche _ ≫= _) _ => apply ok_quiche_bind; let H := fresh "H" in intros ? ? H; cbv beta in H
  | |- run_ok _ _ _ (on_world _ ≫= _) _ => apply ok_world_bind; let H := fresh "H" in intros ? ? H; cbv beta in H
  | |- run_ok _ _ _ (mret _) _ => apply ok_ret
  | |- run_ok _ _ _ (throw _) _ => apply ok_throw
  | |- run_ok _ _ _ (fail _) _ => apply ok_fail
  | |- run_ok _ _ _ (push_event _) _ => apply ok_push
  | |- run_ok _ _ _ (put_stream _ _) _ => apply ok_put
  | |- run_ok _ _ _ (upd_conn _) _ => apply ok_upd
  end; cbv beta.

(** ** Changes that a connection may always make *)

Lemma evolves_intro s s' new :
  qc_id (cs_conn s') = qc_id (cs_conn s) → qc_peer_addr (cs_conn s') = qc_peer_addr (cs_conn s) →
  qc_endpoint (cs_conn s') = qc_endpoint (cs_conn s) →
  q_is_server (qc_conn (cs_conn s')) = q_is_server (qc_conn (cs_conn s)) →
  q_runs (qc_conn (cs_conn s)) (qc_conn (cs_conn s')) →
  (∀ k : Sock, (inbox (cs_world s') k <= inbox (cs_world s) k)%nat) →
  qc_state (cs_conn s') = qc_state (cs_conn s) ∨ qc_state (cs_conn s') ≠ Connecting →
  cs_events s' = cs_events s ++ new → Forall (λ e, is_connected e = false) new → evolves s s'.
Proof.
  intros Hid Haddr He Hsrv Hruns Hbox Hst Hev Hnew. split; try congruence.
  - exact Hbox.
  - rewrite Hev. by apply prefix_app_r.
  - rewrite Hev. unfold connected_events. rewrite List.filter_app, length_app.
    assert (List.filter is_connected new = []) as ->.
    { clear Hev. induction Hnew as [|e new He' _ IH]; [done|]. cbn. by rewrite He'. }
    unfold pending_connect. cbn. destruct Hst as [->|Hst]; [lia|]. rewrite (decide_False (P:=qc_state (cs_conn s') = _)) by done. lia.
  - intros i e. rewrite Hev. intros [?|Hin]%elem_of_app; [by left|]. exfalso.
    rewrite Forall_forall in Hnew. apply Hnew in Hin. done.
Qed.

Lemma quiet_intro s s' :
  evolves s s' → qc_endpoint (cs_conn s') = qc_endpoint (cs_conn s) →
  (∀ raw, written (cs_conn s') raw = written (cs_conn s) raw) → quiet s s'.
Proof. done. Qed.

Lemma quiet_event e s : is_connected e = false → quiet s (with_event e s).
Proof. intros He. apply quiet_intro; [|done..]. apply (evolves_intro _ _ [e]); auto. Qed.

Lemma quiet_world w s : (∀ k : Sock, (inbox w k <= inbox (cs_world s) k)%nat) → quiet s (with_world w s).
Proof. intros Hbox. apply quiet_intro; [|done..]. apply (evolves_intro _ _ []); auto. by rewrite app_nil_r. Qed.

Lemma quiet_state st s : st ≠ Connecting → quiet s (with_conn (set_state st (cs_conn s)) s).
Proof. intros Hst. apply quiet_intro; [|done..]. apply (evolves_intro _ _ []); auto. by rewrite app_nil_r. Qed.

Lemma quiet_quiche q s : q_step (qc_conn (cs_conn s)) q → quiet s (with_conn (set_conn q (cs_conn s)) s).
Proof.
  intros Hq. apply quiet_intro; [|done|].
  - apply (evolves_intro _ _ []); auto; [by apply q_server_step|by apply q_runs_step|by rewrite app_nil_r].
  - intros raw. unfold written. cbn. by rewrite (q_log_step _ _ Hq).
Qed.

(** A stream whose queue is as before. *)
Lemma quiet_stream raw st s :
  queued (Some st) = queued (stream_states (cs_conn s) !! raw) → quiet s (with_stream raw st s).
Proof.
  intros Hq. apply quiet_intro; [apply (evolves_intro _ _ []); auto; by rewrite app_nil_r|done|].
  intros raw'. unfold written. cbn [cs_conn with_stream with_conn set_streams qc_conn stream_states]. f_equal.
  destruct (decide (raw' = raw)) as [->|Hne]; [by rewrite lookup_insert_eq|by rewrite lookup_insert_ne].
Qed.

Lemma inv_stream raw st s : inv s → Forall write_ok (pending_writes st) → inv (with_stream raw st s).
Proof. intros Hs Hst. by apply map_Forall_insert_2. Qed.

Lemma inv_lookup raw st s : inv s → stream_states (cs_conn s) !! raw = Some st → Forall write_ok (pending_writes st).
Proof. intros Hs Hl. by apply (Hs raw st). Qed.

(** ** The helpers are quiet *)

#[local] Hint Resolve quiet_event quiet_world quiet_state quiet_quiche quiet_stream inv_stream : core.

Lemma note_quiet raw : respects inv quiet (note_stream_closed_if_finished raw).
Proof.
  intros s Hs. unfold note_stream_closed_if_finished. step.
  destruct (stream_states (cs_conn s) !! raw) as [st|] eqn:E; [|by step].
  case_match; [|by step]. step. step.
  - apply inv_stream; [done|]. exact (inv_lookup _ _ _ Hs E).
  - etrans; [|by apply quiet_event]. apply quiet_stream. by rewrite E.
Qed.

Lemma discover_quiet raw : respects inv quiet (ensure_stream_discovered raw).
Proof.
  intros s Hs. unfold ensure_stream_discovered. step. step. set (st := default _ _).
  assert (Forall write_ok (pending_writes st)) as Hok.
  { subst st. destruct (stream_states (cs_conn s) !! raw) eqn:E; [exact (inv_lookup _ _ _ Hs E)|constructor]. }
  assert (queued (Some st) = queued (stream_states (cs_conn s) !! raw)) as Hq
    by by subst st; destruct (stream_states (cs_conn s) !! raw).
  step. case_match.
  - step. step; [by repeat apply inv_stream|]. etrans; [by apply quiet_stream|].
    etrans; [|by apply quiet_event]. apply quiet_stream. cbn. by rewrite lookup_insert_eq.
  - step; [by apply inv_stream|by apply quiet_stream].
Qed.

Lemma flush_loop_quiet fuel socket s0 s :
  inv s → quiet s0 s → (q_packets (qc_conn (cs_conn s)) < fuel)%nat → run_ok inv quiet s0 (flush_loop fuel socket) s.
Proof.
  revert s. induction fuel as [|fuel IH]; intros s Hs HR Hf; [lia|]. cbn [flush_loop]. step.
  assert (quiet s0 (with_conn (set_conn q (cs_conn s)) s)) as HR'.
  { etrans; [done|]. apply quiet_quiche. replace q with (q_send (qc_conn (cs_conn s)) SEND_BUF_SIZE).1 by (by rewrite H).
    constructor. }
  destruct a as [[|e]|[out to]]; [by step..|]. step.
  assert (quiet s0 (with_world w (with_conn (set_conn q (cs_conn s)) s))) as HR''.
  { etrans; [done|]. apply quiet_world. intros k. cbn.
    replace w with (send_to (cs_world (with_conn (set_conn q (cs_conn s)) s)) socket out to).1 by (by rewrite H0).
    apply inbox_send. }
  destruct a as [e|u]; [by step|]. apply IH; [done..|]. cbn. apply q_packets_send in H. lia.
Qed.

Lemma flush_quiet socket : respects inv quiet (flush socket).
Proof. intros s Hs. unfold flush. step. apply flush_loop_quiet; [done..|lia]. Qed.

(** *** Draining a queue *)

Lemma queue_size_cons w ws :
  queue_size (w :: ws) = (S (length (pw_bytes w) - Z.to_nat (pw_offset w)) + queue_size ws)%nat.
Proof. done. Qed.

(** What is queued after the front of the queue has been accepted up to [n] bytes. *)
Definition advance (front : PendingStreamWrite) (rest : list PendingStreamWrite) (n : Z) : list PendingStreamWrite :=
  let offset := saturating_add (pw_offset front) n in
  if Z.of_nat (length (pw_bytes front)) <=? offset then rest
  else {| pw_bytes := pw_bytes front; pw_offset := offset; pw_fin := pw_fin front |} :: rest.

Definition payload (w : PendingStreamWrite) : list byte := drop (Z.to_nat (pw_offset w)) (pw_bytes w).

Lemma slice_payload w : write_ok w →
  slice (E:=TransportError) (pw_bytes w) (pw_offset w) (Z.of_nat (length (pw_bytes w))) = Ok (payload w).
Proof.
  intros Hw. unfold slice, payload.
  assert (0 <= pw_offset w <= Z.of_nat (length (pw_bytes w))) as Ho by (destruct Hw as [(? & ? & ?)| ->]; cbn; lia).
  rewrite (proj2 (Z.leb_le _ _)), (proj2 (Z.leb_le _ _)) by lia. cbn. f_equal. apply take_ge. rewrite length_drop. lia.
Qed.

Lemma advance_spec front rest n :
  write_ok front → pw_fin front = false → 0 < n <= Z.of_nat (length (payload front)) → Forall write_ok rest →
  Forall write_ok (advance front rest n) ∧
  concat (items <$> front :: rest) = (Some <$> take (Z.to_nat n) (payload front)) ++ concat (items <$> advance front rest n) ∧
  (queue_size (advance front rest n) < queue_size (front :: rest))%nat.
Proof.
  intros [(Ho & Hl & Hf)| ->] Hfin Hn Hrest; [|done]. unfold payload in *. rewrite length_drop in Hn.
  unfold advance, saturating_add. rewrite Z.min_r by u64_tac.
  destruct (Z.leb_spec (Z.of_nat (length (pw_bytes front))) (pw_offset front + n)) as [Hle|Hgt].
  - split_and!; [done| |rewrite queue_size_cons; lia]. cbn. unfold items at 1. rewrite Hf, app_nil_r. f_equal.
    rewrite take_ge; [done|]. rewrite length_drop. lia.
  - split_and!; [constructor; [|done]; left; cbn; by split_and!; [lia..|]| |rewrite !queue_size_cons; cbn [pw_bytes pw_offset]; lia].
    cbn. unfold items at 1 3. cbn. rewrite Hf, !app_nil_r, app_assoc. f_equal. rewrite <- fmap_app. f_equal.
    rewrite Z2Nat.inj_add, <- drop_drop by lia. symmetry. apply take_drop.
Qed.

Lemma q_server_send_eq (q : Q) raw p fin q' r :
  q_stream_send q raw p fin = (q', r) → q_is_server q' = q_is_server q.
Proof. intros H. pose proof (q_server_stream_send q raw p fin) as Hs. by rewrite H in Hs. Qed.

Lemma quiet_refused raw p fin q e s :
  q_stream_send (qc_conn (cs_conn s)) raw p fin = (q, inl e) → quiet s (with_conn (set_conn q (cs_conn s)) s).
Proof.
  intros Hq. apply quiet_intro; [|done|].
  - apply (evolves_intro _ _ []); auto; [by eapply q_server_send_eq|by eapply q_runs_send|by rewrite app_nil_r].
  - intros raw'. unfold written. cbn. by rewrite (q_log_refused _ _ _ _ _ _ Hq).
Qed.

(** What [quiche] accepts leaves the queue. *)
Lemma quiet_accepted raw p fin q n st ws s :
  q_stream_send (qc_conn (cs_conn s)) raw p fin = (q, inr n) → stream_states (cs_conn s) !! raw = Some st →
  concat (items <$> pending_writes st) =
    ((Some <$> take (Z.to_nat n) p) ++ (if fin && (n =? Z.of_nat (length p)) then [None] else []))
    ++ concat (items <$> ws) →
  quiet s (with_stream raw (set_pending ws st) (with_conn (set_conn q (cs_conn s)) s)).
Proof.
  intros Hq Hst Hws. destruct (q_log_accepted _ _ _ _ _ _ Hq) as (_ & Hl & Hl').
  apply quiet_intro; [apply (evolves_intro _ _ []); auto; [by eapply q_server_send_eq|by eapply q_runs_send|by rewrite app_nil_r]|done|].
  intros raw'. unfold written. cbn [cs_conn with_stream with_conn set_streams set_conn qc_conn stream_states].
  destruct (decide (raw' = raw)) as [->|Hne].
  - rewrite lookup_insert_eq, Hl, Hst. cbn [queued set_pending pending_writes]. rewrite Hws. by rewrite <- !app_assoc.
  - by rewrite lookup_insert_ne, Hl' by done.
Qed.

Lemma quiet_accepted_none raw p fin q s :
  q_stream_send (qc_conn (cs_conn s)) raw p fin = (q, inr 0) → fin = false →
  quiet s (with_conn (set_conn q (cs_conn s)) s).
Proof.
  intros Hq ->. destruct (q_log_accepted _ _ _ _ _ _ Hq) as (_ & Hl & Hl').
  apply quiet_intro; [apply (evolves_intro _ _ []); auto; [by eapply q_server_send_eq|by eapply q_runs_send|by rewrite app_nil_r]|done|].
  intros raw'. unfold written. cbn. f_equal.
  destruct (decide (raw' = raw)) as [->|Hne]; [|by apply Hl']. rewrite Hl. cbn. by rewrite app_nil_r.
Qed.

Lemma note_pending raw s :
  pending_writes <$> stream_states (cs_conn (note_stream_closed_if_finished raw s).1) !! raw =
  pending_writes <$> stream_states (cs_conn s) !! raw.
Proof.
  unfold note_stream_closed_if_finished, mbind, eff_bind, get_stream, gets. cbn.
  destruct (stream_states (cs_conn s) !! raw) as [st|] eqn:E; cbn; [|by rewrite E].
  case_match; cbn; [by rewrite lookup_insert_eq|by rewrite E].
Qed.

Lemma drain_stream_quiet fuel raw s0 s :
  inv s → quiet s0 s → (queue_size (default [] (pending_writes <$> stream_states (cs_conn s) !! raw)) < fuel)%nat →
  run_ok inv quiet s0 (drain_stream fuel raw) s.
Proof.
  revert s. induction fuel as [|fuel IH]; intros s Hs HR Hf; [lia|]. cbn [drain_stream]. step.
  destruct (stream_states (cs_conn s) !! raw) as [st|] eqn:Est; cbn [mbind option_bind]; [|by step].
  pose proof (inv_lookup _ _ _ Hs Est) as Hws. unfold compose.
  assert (queue_size (pending_writes st) < S fuel)%nat as Hf' by exact Hf. clear Hf.
  destruct (pending_writes st) as [|front rest] eqn:Ews; cbn [head]; [by step|].
  apply Forall_cons in Hws as [Hfront Hrest]. rewrite slice_payload by done. apply ok_lift_bind.
  step. destruct a as [[|e]|n]; [step; [done|]; etrans; [done|]; by eapply quiet_refused..|].
  step. cbn [cs_conn with_conn set_conn stream_states]. rewrite Est, Ews.
  destruct (q_log_accepted _ _ _ _ _ _ H) as (Hn & _).
  assert (∀ ws, Forall write_ok ws → (queue_size ws < queue_size (front :: rest))%nat →
    quiet s (with_stream raw (set_pending ws st) (with_conn (set_conn q (cs_conn s)) s)) →
    run_ok inv quiet s0 (put_stream raw (set_pending ws st) ≫= λ _, note_stream_closed_if_finished raw ≫= λ _, drain_stream fuel raw)
      (with_conn (set_conn q (cs_conn s)) s)) as Hgo.
  { intros ws Hws' Hsz Hq. step. apply ok_call_bind; [apply _|apply note_quiet|by apply inv_stream|by etrans|].
    intros [] s' E0 Hs' Hq' HR'. apply IH; [done..|].
    pose proof (note_pending raw (with_stream raw (set_pending ws st) (with_conn (set_conn q (cs_conn s)) s))) as Hp.
    rewrite E0 in Hp. cbn in Hp. rewrite lookup_insert_eq in Hp. cbn in Hp. rewrite Hp. cbn [default from_option id]. lia. }
  destruct Hfront as [Hdata| ->].
  - assert (pw_fin front = false) as Hfin by by destruct Hdata as (_ & _ & ?). rewrite Hfin in H. cbn [andb] in H.
    assert (pw_fin front && bool_decide (pw_bytes front = []) = false) as -> by by rewrite Hfin.
    destruct (Z.eqb_spec n 0) as [->|Hn0].
    + step; [done|]. etrans; [done|]. by eapply quiet_accepted_none.
    + destruct (advance_spec front rest n) as (A1 & A2 & A3); [by left|done|lia|done|].
      apply (Hgo (advance front rest n)); [done..|]. eapply quiet_accepted; [done..|]. rewrite Ews, A2. cbn [andb]. by rewrite app_nil_r.
  - cbn [pw_fin pw_bytes fin_write andb]. rewrite bool_decide_true by done.
    apply Hgo; [done|rewrite queue_size_cons; cbn; lia|]. eapply quiet_accepted; [done..|].
    rewrite Ews. assert (n = 0) as -> by (change (payload fin_write) with (@nil byte) in Hn; cbn in Hn; lia). done.
Qed.

Lemma drain_quiet : respects inv quiet drain_send_queue.
Proof.
  intros s Hs. unfold drain_send_queue. step. step.
  apply ok_call; [apply _| |done|].
  2: { apply quiet_world. intros k. replace w with (hash_order (cs_world s) (map_to_list (stream_states (cs_conn s))).*1).1
         by (by rewrite H). apply inbox_hash. }
  apply respects_for_each; [apply _|]. intros raw s' Hs'. step. apply drain_stream_quiet; [done..|lia].
Qed.

(** ** The methods are quiet *)

Lemma recv_stream_quiet fuel raw s0 s :
  inv s → quiet s0 s → (q_reads (qc_conn (cs_conn s)) raw < fuel)%nat → run_ok inv quiet s0 (recv_stream fuel raw) s.
Proof.
  revert s. induction fuel as [|fuel IH]; intros s Hs HR Hf; [lia|]. cbn [recv_stream]. step.
  assert (quiet s0 (with_conn (set_conn q (cs_conn s)) s)) as HR'.
  { etrans; [done|]. apply quiet_quiche. replace q with (q_stream_recv (qc_conn (cs_conn s)) raw RECV_BUF_SIZE).1 by by rewrite H.
    constructor. }
  destruct a as [[|e]|[data fin]]; [by step|step; [done|]; etrans; [done|]; by apply quiet_event|].
  assert (respects inv quiet (if decide (data = []) then mret () else push_event (λ id, TStreamData id raw data))) as Hd.
  { intros s1 Hs1. case_decide; step; auto. done. }
  destruct fin.
  - apply ok_call_bind; [apply _|done..|]. intros [] s1 E1 Hs1 _ HR1. step.
    destruct (stream_states (cs_conn s1) !! raw) as [st|] eqn:Est.
    + step. step. apply ok_call; [apply _|apply note_quiet| |].
      * apply inv_stream; [done|]. exact (inv_lookup _ _ _ Hs1 Est).
      * etrans; [done|]. etrans; [|by apply quiet_event]. apply quiet_stream. by rewrite Est.
    + step. step. apply ok_call; [apply _|apply note_quiet|done|]. etrans; [done|]. by apply quiet_event.
  - assert (qc_conn (cs_conn ((if decide (data = []) then mret () else push_event (λ id, TStreamData id raw data))
      (with_conn (set_conn q (cs_conn s)) s)).1) = q) as Hconn by by case_decide.
    apply ok_call_bind; [apply _|done..|]. intros [] s1 E1 Hs1 _ HR1. rewrite E1 in Hconn. cbn in Hconn.
    apply IH; [done..|]. rewrite Hconn. apply q_reads_recv in H. lia.
Qed.

Lemma gc_quiet : respects inv quiet gc_closed_streams.
Proof.
  intros s Hs. unfold gc_closed_streams. step.
  - intros raw st Hl. cbn in Hl. apply map_lookup_filter_Some in Hl as [Hl _]. exact (inv_lookup _ _ _ Hs Hl).
  - apply quiet_intro; [apply (evolves_intro _ _ []); auto; by rewrite app_nil_r|done|]. intros raw. unfold written. cbn. f_equal.
    destruct (stream_states (cs_conn s) !! raw) as [st|] eqn:E.
    + destruct (decide (closed_notified st = true ∧ pending_writes st = [])) as [Hd|Hd].
      * assert (filter (λ '(_, st), ¬ (closed_notified st = true ∧ pending_writes st = [])) (stream_states (cs_conn s)) !! raw = None) as ->.
        { apply map_lookup_filter_None. right. intros st' Hst' Hn. simplify_eq. done. }
        cbn. by destruct Hd as [_ ->].
      * assert (filter (λ '(_, st), ¬ (closed_notified st = true ∧ pending_writes st = [])) (stream_states (cs_conn s)) !! raw = Some st) as ->; [|done].
        by apply map_lookup_filter_Some.
    + assert (filter (λ '(_, st), ¬ (closed_notified st = true ∧ pending_writes st = [])) (stream_states (cs_conn s)) !! raw = None) as ->; [|done].
      apply map_lookup_filter_None. by left.
Qed.

(** Two quiet calls in a row. *)
Lemma drain_flush_quiet socket : respects inv quiet (drain_send_queue ≫= λ _, flush socket).
Proof. apply respects_bind; [apply _|apply drain_quiet|]. intros []. apply flush_quiet. Qed.

Lemma poll_streams_quiet socket : respects inv quiet (poll_streams socket).
Proof.
  intros s Hs. unfold poll_streams. step. case_match; [by step|]. step.
  apply ok_call_bind; [apply _| |done..|].
  - apply respects_for_each; [apply _|]. intros raw s1 Hs1.
    apply ok_call_bind; [apply _|apply discover_quiet|done..|]. intros [] s2 _ Hs2 _ HR2. step.
    apply recv_stream_quiet; [done..|lia].
  - intros [] s1 _ Hs1 _ HR1. apply ok_call_bind; [apply _|apply drain_quiet|done..|]. intros [] s2 _ Hs2 _ HR2.
    apply ok_call_bind; [apply _|apply flush_quiet|done..|]. intros [] s3 _ Hs3 _ HR3.
    by apply ok_call; [apply _|apply gc_quiet|..].
Qed.

(** The events of a call are dropped. *)
Lemma quiet_drop_events s s' :
  quiet s s' → quiet s {| cs_world := cs_world s'; cs_conn := cs_conn s'; cs_events := cs_events s |}.
Proof.
  intros [[He Hw] Hend]. apply quiet_intro; [|done..]. destruct He. split; cbn; auto.
  destruct ev_events0 as [new Hnew]. rewrite Hnew in ev_connects0. unfold connected_events in *.
  rewrite List.filter_app, length_app in ev_connects0. lia.
Qed.

Lemma ok_local_events {B} (m : meth unit) (k : unit → meth B) s0 s :
  respects inv quiet m → inv s → quiet s0 s →
  (∀ s', inv s' → quiet s0 s' → run_ok inv quiet s0 (k ()) s') →
  run_ok inv quiet s0
    (zoom id (λ t _, {| cs_world := cs_world t; cs_conn := cs_conn t; cs_events := cs_events s |}) m ≫= k) s.
Proof.
  intros Hm Hs HR Hk. destruct (Hm s Hs) as (Hp & Hi & Hq). unfold run_ok, mbind, eff_bind, zoom, id.
  destruct (m s) as [s' [[]|e|]]; cbn in *; [|split_and!; [done..|]; etrans; [done|]; by apply quiet_drop_events|done].
  apply Hk; [done|]. etrans; [done|]. by apply quiet_drop_events.
Qed.

Lemma close_quiet socket : respects inv quiet (close socket).
Proof.
  intros s Hs. unfold close. step.
  assert (quiet s (with_conn (set_conn q (cs_conn s)) s)) as HR.
  { apply quiet_quiche. replace q with (q_close (qc_conn (cs_conn s)) true 0 (as_bytes "bye")).1 by by rewrite H. constructor. }
  assert (∀ k, k = (upd_conn (set_state Closing) ≫= λ _, gets cs_events ≫= λ events,
     zoom id (λ t _, {| cs_world := cs_world t; cs_conn := cs_conn t; cs_events := events |}) drain_send_queue ≫= λ _, flush socket) →
     run_ok inv quiet s k (with_conn (set_conn q (cs_conn s)) s)) as Hgo.
  { intros k ->. step. step. apply ok_local_events; [apply drain_quiet|done| |].
    - etrans; [done|]. by apply quiet_state.
    - intros s' Hs' HR'. by apply ok_call; [apply _|apply flush_quiet|..]. }
  destruct a as [[|e]|u]; [by apply Hgo|by step|by apply Hgo].
Qed.

Lemma open_stream_quiet : respects inv quiet open_stream.
Proof.
  intros s Hs. unfold open_stream. step. case_decide; [by step|]. step. step.
  assert (quiet s (with_conn (set_next_stream (wrap_u64 (next_local_bidi_stream_id (cs_conn s) + 4)) (cs_conn s)) s)) as HR.
  { apply quiet_intro; [|done..]. apply (evolves_intro _ _ []); auto. by rewrite app_nil_r. }
  cbn [cs_conn with_conn set_next_stream stream_states]. destruct (_ !! _) eqn:E; [by step|]. step. step.
  - apply inv_stream; [done|constructor].
  - etrans; [done|]. apply quiet_stream. cbn. by rewrite E.
Qed.

Lemma shutdown_quiet (raw : Z) d what : respects inv quiet (shutdown_stream raw d what).
Proof.
  intros s Hs. unfold shutdown_stream. step.
  assert (quiet s (with_conn (set_conn q (cs_conn s)) s)) as HR.
  { apply quiet_quiche. replace q with (q_stream_shutdown (qc_conn (cs_conn s)) raw d 0).1 by by rewrite H. constructor. }
  by destruct a; step.
Qed.

Lemma shutdown_streams (raw : Z) d what s : stream_states (cs_conn (shutdown_stream raw d what s).1) = stream_states (cs_conn s).
Proof.
  unfold shutdown_stream, mbind, eff_bind, on_quiche, state. destruct (q_stream_shutdown _ _ _ _) as [q [e|u]]; done.
Qed.

Lemma reset_stream_quiet (raw : Z) : respects inv quiet (reset_stream raw).
Proof.
  intros s Hs. unfold reset_stream. step. destruct (stream_states (cs_conn s) !! raw) as [st|] eqn:E; cbv iota zeta; [|by step].
  pose proof (shutdown_streams raw ShutdownWrite "write" s) as H1.
  apply ok_call_bind; [apply _|apply shutdown_quiet|done..|]. intros [] s1 E1 Hs1 _ HR1. rewrite E1 in H1. cbn in H1.
  pose proof (shutdown_streams raw ShutdownRead "read" s1) as H2.
  apply ok_call_bind; [apply _|apply shutdown_quiet|done..|]. intros [] s2 E2 Hs2 _ HR2. rewrite E2 in H2. cbn in H2.
  rewrite <- H1, <- H2 in E. pose proof (inv_lookup _ _ _ Hs2 E) as Hok.
  case_match; [step; [by apply inv_stream|]|step; step; [by apply inv_stream|]; etrans; [|by apply quiet_event]].
  all: etrans; [done|]; apply quiet_stream; by rewrite E.
Qed.

(** ** Identity *)

Context (verify_returns : ∀ der, verify_certificate (P:=P) der ≠ Panic).

(** Reporting a verified peer, after the connection has left [Connecting]. *)
Lemma reads_connected s0 s der p :
  qc_state (cs_conn s0) = Connecting → q_is_established (qc_conn (cs_conn s0)) = true →
  quiet (with_conn (set_state Connected (cs_conn s0)) s0) s → q_peer_cert (qc_conn (cs_conn s)) = Some der →
  verify_certificate der = Ok p → (∀ p0, endpoint_peer_id (qc_endpoint (cs_conn s)) = Some p0 → p0 = p) →
  reads s0 (with_event (TConnected (qc_id (cs_conn s)) (set_peer_id (qc_endpoint (cs_conn s)) p))
              (with_conn (conn_set_peer_id p (cs_conn s)) s)).
Proof.
  intros Hst Hest [[He Hw] _] Hder Hv Hexp. split; [|exact Hw]. destruct He. cbn in *.
  split; cbn [cs_conn cs_events with_event with_conn conn_set_peer_id set_endpoint qc_id qc_peer_addr qc_endpoint qc_conn
    transport endpoint_peer_id set_peer_id]; auto.
  - intros p0 Hp0. f_equal. symmetry. by apply Hexp, ev_peer0.
  - by apply prefix_app_r.
  - unfold connected_events in *. rewrite List.filter_app, length_app.
    change (pending_connect (set_state Connected (cs_conn s0))) with 0%nat in ev_connects0.
    change (pending_connect (conn_set_peer_id p (cs_conn s))) with (pending_connect (cs_conn s)).
    unfold pending_connect at 2. rewrite decide_True by done. cbn. lia.
  - intros i e [Hin|[= -> ->]%list_elem_of_singleton]%elem_of_app; [by apply ev_proven0|].
    right. cbn. split_and!; [done..| |].
    + exists (qc_conn (cs_conn s0)), (qc_conn (cs_conn s)), der, p. by split_and!.
    + intros p0 Hp0. f_equal. symmetry. by apply Hexp, ev_peer0.
Qed.

Lemma reject_quiet socket message code reason : respects inv quiet (reject socket message code reason).
Proof.
  intros s Hs. unfold reject. step. step. step. apply ok_call; [apply _|apply flush_quiet|done|].
  etrans; [|by apply quiet_state]. etrans; [by apply (quiet_event (TError (qc_id (cs_conn s)) message))|].
  apply quiet_quiche.
  match goal with Hq : q_close ?c ?a ?b ?r = _ |- _ => replace q with (q_close c a b r).1 by (by rewrite Hq) end. constructor.
Qed.

Lemma verified_peer_quiet socket : respects inv quiet (verified_peer socket).
Proof.
  assert (∀ message code reason, respects inv quiet (reject socket message code reason ≫= λ _, mret (@None P))) as Hno.
  { intros message code reason. apply respects_bind; [apply _|apply reject_quiet|]. intros [] s Hs. by step. }
  intros s Hs. unfold verified_peer. step. destruct (q_peer_cert _) as [der|]; [|by apply Hno].
  destruct (verify_certificate der) as [p|e|] eqn:Ev; [|by apply Hno|by apply verify_returns in Ev].
  step. destruct (endpoint_peer_id _) as [p0|]; [|by step]. case_decide; [by apply Hno|by step].
Qed.

(** A verified peer is the one that was expected. *)
Lemma verified_peer_Some socket s s' p :
  verified_peer socket s = (s', Ok (Some p)) →
  (∃ der, q_peer_cert (qc_conn (cs_conn s')) = Some der ∧ verify_certificate der = Ok p) ∧
  ∀ p0, endpoint_peer_id (qc_endpoint (cs_conn s)) = Some p0 → p0 = p.
Proof.
  assert (∀ (m : meth unit), (m ≫= λ _, mret None) s ≠ (s', Ok (Some p))) as Hno.
  { intros m. unfold mbind, eff_bind. by destruct (m s) as [? [| |]]. }
  unfold verified_peer. change ((gets ?f ≫= ?k) s) with (k (f s) s). cbv beta.
  destruct (q_peer_cert _) as [der|] eqn:Ec; [|by intros ?%Hno].
  destruct (verify_certificate der) as [p'|e|] eqn:Ev; [|by intros ?%Hno|done].
  change ((gets ?f ≫= ?k) s) with (k (f s) s). cbv beta. destruct (endpoint_peer_id _) as [p0|] eqn:Ep; [case_decide; [by intros ?%Hno|]|];
    intros [= -> ->]; (split; [by exists der|]); naive_solver.
Qed.

(** Sending what is queued, then verifying the peer. *)
Definition handshake (socket : Sock) : meth (P:=P) (Q:=Q) (W:=W) (option P) :=
  (drain_send_queue ≫= λ _, flush socket) ≫= λ _, verified_peer socket.

Lemma handshake_assoc socket {B} (h : option P → meth B) s :
  (drain_send_queue ≫= λ _, flush socket ≫= λ _, verified_peer socket ≫= h) s = (handshake socket ≫= h) s.
Proof.
  unfold handshake, mbind, eff_bind. destruct (drain_send_queue s) as [s1 [[]| |]]; [|done..].
  by destruct (flush socket s1) as [s2 [[]| |]].
Qed.

Lemma handshake_quiet socket : respects inv quiet (handshake socket).
Proof. apply respects_bind; [apply _|apply drain_flush_quiet|]. intros []. apply verified_peer_quiet. Qed.

Lemma handshake_Some socket s s' p : inv s → handshake socket s = (s', Ok (Some p)) →
  (∃ der, q_peer_cert (qc_conn (cs_conn s')) = Some der ∧ verify_certificate der = Ok p) ∧
  ∀ p0, endpoint_peer_id (qc_endpoint (cs_conn s')) = Some p0 → p0 = p.
Proof.
  intros Hs H. pose proof (handshake_quiet socket s Hs) as (_ & _ & [_ He]). rewrite H in He. cbn in He. rewrite He.
  revert H. unfold handshake. pose proof (drain_flush_quiet socket s Hs) as (_ & _ & [_ He1]).
  unfold mbind at 1, eff_bind at 1. destruct ((drain_send_queue ≫= λ _, flush socket) s) as [s1 [[]| |]]; [|done..].
  cbn in He1. rewrite <- He1. apply verified_peer_Some.
Qed.

(** After a packet, either nothing is written and the endpoint stays, or the connection
    has been reported with a verified peer. *)
Lemma after_recv_cases socket s : inv s →
  (after_recv socket s).2 ≠ Panic ∧ inv (after_recv socket s).1 ∧ reads s (after_recv socket s).1 ∧
  ((after_recv socket s).2 ≠ Ok () → qc_endpoint (cs_conn (after_recv socket s).1) = qc_endpoint (cs_conn s)).
Proof.
  intros Hs. unfold after_recv. change ((gets ?f ≫= ?k) s) with (k (f s) s). cbv beta.
  case_match eqn:Hc; cycle 1.
  { pose proof (drain_flush_quiet socket s Hs) as (? & ? & [? ?]). by split_and!. }
  apply andb_true_iff in Hc as [Hst%bool_decide_eq_true Hest].
  change ((upd_conn ?f ≫= ?k) s) with (k () (with_conn (f (cs_conn s)) s)). cbv beta.
  set (s1 := with_conn _ _). rewrite handshake_assoc.
  assert (quiet s s1) as HR1 by (by apply quiet_state). assert (inv s1) as Hs1 by done.
  pose proof (handshake_quiet socket s1 Hs1) as (Hp & Hi & HR2). unfold mbind, eff_bind.
  destruct (handshake socket s1) as [s2 [[p|]|e|]] eqn:Eh; cbn in *; [|by destruct (transitivity HR1 HR2)..|done].
  destruct (handshake_Some _ _ _ _ Hs1 Eh) as [(der & Hder & Hv) Hexp].
  split_and!; [done..| |done]. by apply (reads_connected s s2 der p).
Qed.

Lemma on_quiche_bind {A B} (f : Q → Q * A) (k : A → meth (P:=P) (Q:=Q) (W:=W) B) s :
  (on_quiche f ≫= k) s = k (f (qc_conn (cs_conn s))).2 (with_conn (set_conn (f (qc_conn (cs_conn s))).1 (cs_conn s)) s).
Proof. unfold mbind, eff_bind, on_quiche, state. by destruct (f _). Qed.

Lemma recv_packet_cases buf from local socket s : inv s →
  (recv_packet buf from local socket s).2 ≠ Panic ∧ inv (recv_packet buf from local socket s).1 ∧
  reads s (recv_packet buf from local socket s).1 ∧
  ((recv_packet buf from local socket s).2 ≠ Ok () →
   qc_endpoint (cs_conn (recv_packet buf from local socket s).1) = qc_endpoint (cs_conn s)).
Proof.
  intros Hs. unfold recv_packet.
  rewrite on_quiche_bind. set (s1 := with_conn _ _).
  assert (quiet s s1) as HR1 by (apply quiet_quiche; constructor). assert (inv s1) as Hs1 by done.
  destruct (after_recv_cases socket s1 Hs1) as (Hp & Hi & HR & Hend). destruct HR1 as [HR1 He1].
  destruct (q_recv _ _ _ _).2 as [[|e]|n]; cbv iota.
  2: { split_and!; [done|done| |done]. etrans; [exact HR1|]. by apply quiet_event. }
  all: split_and!; [done..|by etrans|]; intros H; by rewrite Hend.
Qed.

(** ** Writing to a stream *)

(** Whether a stream takes writes: it exists and its write side is open, or it does not
    exist and this side may open it. *)
Definition sendable c (raw : Z) : bool :=
  match stream_states c !! raw with
  | Some st => negb (local_write_closed st)
  | None => is_local_initiated_stream c raw
  end.

Definition wrote (raw : Z) (its : list (option byte)) s s' : Prop :=
  evolves s s' ∧ qc_endpoint (cs_conn s') = qc_endpoint (cs_conn s) ∧
  ∀ r, written (cs_conn s') r = written (cs_conn s) r ++ (if decide (r = raw) then its else []).

Lemma wrote_nil raw s s' : quiet s s' → wrote raw [] s s'.
Proof. intros [[He Hw] Hend]. split_and!; [done..|]. intros r. rewrite Hw. case_decide; by rewrite app_nil_r. Qed.

Lemma wrote_quiet raw its s s1 s2 : wrote raw its s s1 → quiet s1 s2 → wrote raw its s s2.
Proof. intros (He & Hend & Hw) [[He' Hw'] Hend']. split_and!; [by etrans|congruence|]. intros r. by rewrite Hw'. Qed.

(** [st] is the state of a stream that takes writes, [st'] differs from it in its flags. *)
Lemma wrote_enqueue raw w st st' s :
  queued (Some st) = queued (stream_states (cs_conn s) !! raw) → pending_writes st' = pending_writes st →
  wrote raw (items w) s (with_stream raw (set_pending (pending_writes st' ++ [w]) st') s).
Proof.
  intros Hq Hst'. split_and!; [apply (evolves_intro _ _ []); auto; by rewrite app_nil_r|done|].
  intros r. unfold written. cbn [cs_conn with_stream with_conn set_streams qc_conn stream_states].
  case_decide as Hr; [subst r|by rewrite lookup_insert_ne, app_nil_r by done].
  rewrite lookup_insert_eq, <- Hq, Hst'. cbn. rewrite fmap_app, concat_app. cbn. by rewrite app_nil_r, <- app_assoc.
Qed.

Lemma get_or_create_ok {B} raw (k : StreamRuntimeState → meth B) R s0 s :
  inv s →
  (sendable (cs_conn s) raw = false → R s0 s) →
  (∀ st s', inv s' → quiet s s' → stream_states (cs_conn s') !! raw = Some st → queued (Some st) = queued (stream_states (cs_conn s) !! raw) →
     Forall write_ok (pending_writes st) → local_write_closed st = negb (sendable (cs_conn s) raw) →
     run_ok inv R s0 (k st) s') →
  run_ok inv R s0 (get_or_create_local_stream_state raw ≫= k) s.
Proof.
  intros Hs Hno Hk. unfold get_or_create_local_stream_state, sendable in *.
  unfold run_ok, mbind, eff_bind, get_stream, gets. cbn.
  destruct (stream_states (cs_conn s) !! raw) as [st|] eqn:E; cbn.
  - apply (Hk st s); try done; [exact (inv_lookup _ _ _ Hs E)|by rewrite negb_involutive].
  - destruct (is_local_initiated_stream (cs_conn s) raw); cbn.
    + apply (Hk fresh_stream (with_stream raw fresh_stream s)); try done.
      * by apply inv_stream.
      * apply quiet_stream. by rewrite E.
      * cbn. by rewrite lookup_insert_eq.
    + split_and!; [done..|]. by apply Hno.
Qed.

(** Both ways of writing: check, enqueue, drain and flush. *)
Lemma enqueue_ok raw w (f : StreamRuntimeState → StreamRuntimeState) (err : ConnectionId → TransportError) socket s :
  inv s → write_ok w → (∀ st, pending_writes (f st) = pending_writes st) →
  run_ok inv (wrote raw (if sendable (cs_conn s) raw then items w else [])) s
    (get_or_create_local_stream_state raw ≫= λ st,
     if local_write_closed st then fail err
     else put_stream raw (set_pending (pending_writes (f st) ++ [w]) (f st)) ≫= λ _, drain_send_queue ≫= λ _, flush socket) s.
Proof.
  intros Hs Hw Hf. apply get_or_create_ok; [done|intros ->; by apply wrote_nil|].
  intros st s' Hs' HR Est Hq Hok Hcl. rewrite Hcl. destruct (sendable (cs_conn s) raw) eqn:Esend; cbn [negb].
  - step. set (s1 := with_stream _ _ _). assert (inv s1) as Hs1.
    { apply inv_stream; [done|]. cbn. rewrite Hf. by apply Forall_app; split; [|constructor]. }
    assert (wrote raw (items w) s s1) as HR1.
    { pose proof (wrote_enqueue raw w st (f st) s') as (He & Hend & Hw'); [by rewrite Est|by apply Hf|]. destruct HR as [[He0 Hw0] Hend0].
      split_and!; [by etrans|by rewrite <- Hend0|]. intros r. by rewrite Hw', Hw0. }
    eapply run_ok_weaken; [|by apply drain_flush_quiet]. intros s2. by apply wrote_quiet.
  - step; [done|]. by apply wrote_nil.
Qed.

Lemma send_stream_wrote (raw : Z) data socket s :
  inv s → Z.of_nat (length data) < u64_mod →
  run_ok inv (wrote raw (if sendable (cs_conn s) raw then Some <$> data else [])) s (send_stream raw data socket) s.
Proof.
  intros Hs Hl. unfold send_stream. case_decide as Hd; [subst data; apply ok_ret; [done|]|].
  { cbn. case_match; by apply wrote_nil. }
  assert (items (data_write data) = Some <$> data) as <- by (unfold items; cbn; by rewrite app_nil_r).
  eapply (enqueue_ok raw (data_write data) (λ st, st)); [done| |done]. left. cbn. split_and!; try done.
  destruct data; [done|]. cbn. lia.
Qed.

Lemma close_stream_write_wrote (raw : Z) socket s :
  inv s → run_ok inv (wrote raw (if sendable (cs_conn s) raw then [None] else [])) s (close_stream_write raw socket) s.
Proof.
  intros Hs. change [None] with (items fin_write). eapply (enqueue_ok raw fin_write on_local_write_closed); [done| |done]. by right.
Qed.

(** ** Sequences of calls *)

Inductive ConnCall : Type :=
  | CallRecv (buf : list byte) (from local : SocketAddr)
  | CallOpen
  | CallSend (stream_id : Z) (data : list byte)
  | CallCloseWrite (stream_id : Z)
  | CallReset (stream_id : Z)
  | CallClose
  | CallPoll.

Definition do_call (socket : Sock) (call : ConnCall) : meth (P:=P) (Q:=Q) (W:=W) unit :=
  match call with
  | CallRecv buf from local => recv_packet buf from local socket
  | CallOpen => _ ← open_stream; mret ()
  | CallSend raw data => send_stream raw data socket
  | CallCloseWrite raw => close_stream_write raw socket
  | CallReset raw => reset_stream raw
  | CallClose => close socket
  | CallPoll => poll_streams socket
  end.

(** Buffers are shorter than the address space. *)
Definition call_ok (call : ConnCall) : Prop :=
  match call with CallSend _ data => Z.of_nat (length data) < u64_mod | _ => True end.

(** The connection lives on after a call that returned an error. *)
Fixpoint run_calls (socket : Sock) (calls : list ConnCall) s : ConnState (P:=P) (Q:=Q) (W:=W) :=
  match calls with [] => s | call :: calls => run_calls socket calls (do_call socket call s).1 end.

(** What a call asks to be written to a stream that takes writes. *)
Definition asked (call : ConnCall) c (raw : Z) : list (option byte) :=
  match call with
  | CallSend raw' data => if decide (raw = raw') then if sendable c raw' then Some <$> data else [] else []
  | CallCloseWrite raw' => if decide (raw = raw') then if sendable c raw' then [None] else [] else []
  | _ => []
  end.
Fixpoint asked_in (socket : Sock) (calls : list ConnCall) s (raw : Z) : list (option byte) :=
  match calls with
  | [] => []
  | call :: calls => asked call (cs_conn s) raw ++ asked_in socket calls (do_call socket call s).1 raw
  end.

Lemma do_call_ok socket call s : inv s → call_ok call →
  (do_call socket call s).2 ≠ Panic ∧ inv (do_call socket call s).1 ∧ evolves s (do_call socket call s).1 ∧
  ∀ raw, written (cs_conn (do_call socket call s).1) raw = written (cs_conn s) raw ++ asked call (cs_conn s) raw.
Proof.
  intros Hs Hcall.
  assert (∀ m : meth (P:=P) (Q:=Q) (W:=W) unit, respects inv quiet m → (∀ raw, asked call (cs_conn s) raw = []) →
    (m s).2 ≠ Panic ∧ inv (m s).1 ∧ evolves s (m s).1 ∧
    ∀ raw, written (cs_conn (m s).1) raw = written (cs_conn s) raw ++ asked call (cs_conn s) raw) as Hquiet.
  { intros m Hm Ha. destruct (Hm s Hs) as (? & ? & [[? Hw] _]). split_and!; try done. intros raw. by rewrite Hw, Ha, app_nil_r. }
  assert (∀ raw its (m : meth (P:=P) (Q:=Q) (W:=W) unit), run_ok inv (wrote raw its) s m s →
    (∀ r, asked call (cs_conn s) r = if decide (r = raw) then its else []) →
    (m s).2 ≠ Panic ∧ inv (m s).1 ∧ evolves s (m s).1 ∧
    ∀ r, written (cs_conn (m s).1) r = written (cs_conn s) r ++ asked call (cs_conn s) r) as Hwrite.
  { intros raw its m (? & ? & (? & ? & Hw)) Ha. split_and!; try done. intros r. by rewrite Hw, Ha. }
  destruct call as [buf from local| |raw data|raw|raw| |]; cbn [do_call].
  - destruct (recv_packet_cases buf from local socket s Hs) as (? & ? & [? Hw] & _). split_and!; try done.
    intros raw. by rewrite Hw, app_nil_r.
  - apply Hquiet; [|done]. apply respects_bind; [apply _|apply open_stream_quiet|]. intros ? s' Hs'. by apply ok_ret.
  - eapply Hwrite; [by apply send_stream_wrote|done].
  - eapply Hwrite; [by apply close_stream_write_wrote|done].
  - apply Hquiet; [apply reset_stream_quiet|done].
  - apply Hquiet; [apply close_quiet|done].
  - apply Hquiet; [apply poll_streams_quiet|done].
Qed.

Lemma run_conn_calls_ok socket calls s : inv s → Forall call_ok calls →
  inv (run_calls socket calls s) ∧ evolves s (run_calls socket calls s) ∧
  ∀ raw, written (cs_conn (run_calls socket calls s)) raw = written (cs_conn s) raw ++ asked_in socket calls s raw.
Proof.
  intros Hs Hcalls. revert s Hs. induction Hcalls as [|call calls Hcall _ IH]; intros s Hs; cbn.
  { split_and!; [done..|]. intros raw. by rewrite app_nil_r. }
  destruct (do_call_ok socket call s Hs Hcall) as (_ & Hs' & He & Hw). destruct (IH _ Hs') as (Hs2 & He2 & Hw2).
  split_and!; [done|by etrans|]. intros raw. by rewrite Hw2, Hw, app_assoc.
Qed.

Lemma inv_new id q addr e w evs : inv {| cs_world := w; cs_conn := conn_new id q addr e; cs_events := evs |}.
Proof. apply map_Forall_empty. Qed.

(** ** Properties *)

(** C7. Streams are first-in first-out: after any sequence of calls on a new connection,
    failed ones included, what [quiche] has accepted on a stream, followed by what is
    still queued for it, is exactly what the calls asked to be written to it, in their
    order, with the end of the stream after the bytes written before it: nothing is
    lost, repeated, reordered or mixed between streams. *)
Theorem quic_streams_fifo socket calls w id q addr e raw :
  q_log q raw = [] → Forall call_ok calls →
  let s := {| cs_world := w; cs_conn := conn_new id q addr e; cs_events := [] |} in
  let c := cs_conn (run_calls socket calls s) in
  q_log (qc_conn c) raw ++ queued (stream_states c !! raw) = asked_in socket calls s raw.
Proof.
  intros Hlog Hcalls s c. destruct (run_conn_calls_ok socket calls s) as (_ & _ & Hw); [apply inv_new|done|].
  specialize (Hw raw). unfold written at 2 in Hw. cbn in Hw. by rewrite Hlog in Hw.
Qed.

(** A peer is reported with a proven identity, once: whatever packets arrive and
    whatever is called on a new connection, at most one [Connected] event is emitted; it
    names this connection and its transport address, the certificate the peer presented
    in the handshake proves the peer id it carries, and that is the peer id the connection was dialed for, if there was one.
    No call unwinds. *)
Theorem quic_identity socket calls w id q addr e0 :
  Forall call_ok calls →
  let s := {| cs_world := w; cs_conn := conn_new id q addr e0; cs_events := [] |} in
  let s' := run_calls socket calls s in
  (connected_events (cs_events s') <= 1)%nat ∧
  (∀ i e, TConnected i e ∈ cs_events s' →
     i = id ∧ transport e = transport e0 ∧ proven q (qc_conn (cs_conn s')) e ∧
     ∀ p, endpoint_peer_id e0 = Some p → endpoint_peer_id e = Some p) ∧
  (∀ call, call_ok call → (do_call socket call s').2 ≠ Panic).
Proof.
  intros Hcalls s s'. destruct (run_conn_calls_ok socket calls s) as (Hs' & He & _); [apply inv_new|done|].
  destruct He. split_and!.
  - change (connected_events (cs_events s)) with 0%nat in ev_connects0.
    change (pending_connect (cs_conn s)) with 1%nat in ev_connects0. fold s' in ev_connects0. lia.
  - intros i e [[]%elem_of_nil|H]%ev_proven0. exact H.
  - intros call Hcall. by apply do_call_ok.
Qed.

End guarantees.

(** ** A concrete instance

    A connection that is established by its first packet and takes at most two bytes at
    a time; a packet [STOP s] makes the peer refuse stream [s], a packet [DATA s b ..]
    delivers bytes on it.  The system delivers the datagrams of a list, and sends fail
    as a list of outcomes says. *)

Record ToyQ : Type := {
  tq_server : bool; tq_established : bool; tq_closed : bool; tq_cert : option (list byte);
  tq_log : list (Z * option byte); tq_stopped : list Z; tq_in : list (Z * list byte); tq_out : nat;
}.

Definition toy_recv (q : ToyQ) (buf : list byte) : ToyQ :=
  let q := {| tq_server := tq_server q; tq_established := true; tq_closed := tq_closed q; tq_cert := tq_cert q;
              tq_log := tq_log q; tq_stopped := tq_stopped q; tq_in := tq_in q; tq_out := S (tq_out q) |} in
  match buf with
  | [x53; s] => {| tq_server := tq_server q; tq_established := true; tq_closed := tq_closed q; tq_cert := tq_cert q;
                   tq_log := tq_log q; tq_stopped := byte_Z s :: tq_stopped q; tq_in := tq_in q; tq_out := tq_out q |}
  | x44 :: s :: data => {| tq_server := tq_server q; tq_established := true; tq_closed := tq_closed q; tq_cert := tq_cert q;
                   tq_log := tq_log q; tq_stopped := tq_stopped q; tq_in := tq_in q ++ [(byte_Z s, data)]; tq_out := tq_out q |}
  | _ => q
  end.

Definition toy_addr : SocketAddr := {| sa_ip := V4 [x7f; x00; x00; x01]; sa_port := 4001 |}.
Definition toy_addr6 : SocketAddr := {| sa_ip := V6 (repeat x00 15 ++ [x01]); sa_port := 4001 |}.

Definition toy_stream_send (q : ToyQ) (s : Z) (p : list byte) (fin : bool) : ToyQ * (QuicheError + Z) :=
  if decide (s ∈ tq_stopped q) then (q, inl (QuicheFailed "StreamStopped(0)"))
  else
    let n := Z.min 2 (Z.of_nat (length p)) in
    let its := (Some <$> take (Z.to_nat n) p) ++ (if fin && (n =? Z.of_nat (length p)) then [None] else []) in
    ({| tq_server := tq_server q; tq_established := tq_established q; tq_closed := tq_closed q; tq_cert := tq_cert q;
        tq_log := tq_log q ++ (pair s <$> its); tq_stopped := tq_stopped q; tq_in := tq_in q; tq_out := tq_out q |}, inr n).

Definition toy_set_in (l : list (Z * list byte)) (q : ToyQ) : ToyQ :=
  {| tq_server := tq_server q; tq_established := tq_established q; tq_closed := tq_closed q; tq_cert := tq_cert q;
     tq_log := tq_log q; tq_stopped := tq_stopped q; tq_in := l; tq_out := tq_out q |}.

#[export] Instance ToyQuiche : Quiche ToyQ := {
  q_is_server := tq_server;
  q_is_established := tq_established;
  q_is_closed := tq_closed;
  q_source_id q := if tq_server q then [x01] else [x00];
  q_peer_cert := tq_cert;
  q_recv q buf _ _ := (toy_recv q buf, inr (length buf));
  q_send q _ :=
    match tq_out q with
    | O => (q, inl Done)
    | S n => ({| tq_server := tq_server q; tq_established := tq_established q; tq_closed := tq_closed q;
                 tq_cert := tq_cert q; tq_log := tq_log q; tq_stopped := tq_stopped q; tq_in := tq_in q; tq_out := n |},
              inr ([x50], toy_addr))
    end;
  q_stream_send := toy_stream_send;
  q_stream_recv q s _ :=
    match tq_in q with
    | (s', data) :: rest => if decide (s' = s) then (toy_set_in rest q, inr (data, false)) else (q, inl Done)
    | [] => (q, inl Done)
    end;
  q_stream_shutdown q _ _ _ := (q, inr ());
  q_close q _ _ _ :=
    ({| tq_server := tq_server q; tq_established := tq_established q; tq_closed := true; tq_cert := tq_cert q;
        tq_log := tq_log q; tq_stopped := tq_stopped q; tq_in := tq_in q; tq_out := tq_out q |}, inr ());
  q_readable q := (tq_in q).*1;
  q_done_text := "Done";
  q_packets := tq_out;
  q_reads q _ := length (tq_in q);
}.

Definition toy_q_log (q : ToyQ) (s : Z) : list (option byte) := (filter (λ x, x.1 = s) (tq_log q)).*2.

Lemma toy_recv_log q b : tq_log (toy_recv q b) = tq_log q ∧ tq_server (toy_recv q b) = tq_server q.
Proof. unfold toy_recv. destruct b as [|[] [|? [|? ?]]]; done. Qed.

Lemma toy_step q q' : q_step q q' → tq_log q' = tq_log q ∧ tq_server q' = tq_server q.
Proof.
  destruct 1 as [q b f l|q n|q s n|q s d c|q a c r]; cbn; try done.
  - apply toy_recv_log.
  - by destruct (tq_out q).
  - destruct (tq_in q) as [|[s' d] rest]; [done|]. by case_decide.
Qed.

#[export] Instance ToyQuiche_laws : QuicheLaws ToyQ.
Proof.
  refine {| q_log := toy_q_log |}.
  - intros q q' [Hl _]%toy_step. unfold toy_q_log. by rewrite Hl.
  - cbn. unfold toy_stream_send. intros q s p fin q' e. case_decide; [by intros [= <- <-]|done].
  - cbn. unfold toy_stream_send. intros q s p fin q' n. case_decide; [done|]. intros [= <- <-]. split; [lia|].
    set (its := (Some <$> _) ++ _). unfold toy_q_log. cbn [tq_log]. split.
    + rewrite list.filter_app, fmap_app. f_equal. induction its as [|i its IH]; [done|]. cbn [fmap list_fmap].
      rewrite filter_cons_True by done. cbn. by rewrite IH.
    + intros s' Hs'. rewrite list.filter_app, fmap_app. replace (filter (λ x, x.1 = s') (pair s <$> its)) with (@nil (Z * option byte));
        [by rewrite app_nil_r|]. induction its as [|i its IH]; [done|]. cbn [fmap list_fmap]. rewrite filter_cons_False by (cbn; congruence). done.
  - by intros q q' [_ Hs]%toy_step.
  - cbn. unfold toy_stream_send. intros q s p fin. by case_decide.
  - cbn. intros q n q' x. destruct (tq_out q) as [|k]; [done|]. intros [= <- <-]. cbn. lia.
  - cbn. intros q s n q' d. destruct (tq_in q) as [|[s' d'] rest]; [done|]. case_decide; [|done]. intros [= <- <-]. cbn. lia.
Defined.

Record ToyW : Type := { tw_inbox : list (list byte * SocketAddr); tw_sends : list bool }.

Definition unreachable : IoError := IoFailed "Network is unreachable (os error 101)".

#[export] Instance ToyWorld : World ToyW unit := {
  udp_bind w _ := (w, inr ());
  set_nonblocking w _ := (w, inr ());
  sock_local_addr _ _ := inr toy_addr;
  send_to w _ _ _ :=
    match tw_sends w with
    | [] => (w, inr ())
    | ok :: rest => ({| tw_inbox := tw_inbox w; tw_sends := rest |}, if ok then inr () else inl unreachable)
    end;
  recv_from w _ _ :=
    match tw_inbox w with
    | [] => (w, inl (WouldBlock "Resource temporarily unavailable (os error 11)"))
    | d :: rest => ({| tw_inbox := rest; tw_sends := tw_sends w |}, inr d)
    end;
  to_socket_addrs w _ := (w, inr [toy_addr; toy_addr6]);
  getrandom_fill w n := (w, inr (repeat x07 n));
  hash_order K w l := (w, l);
  inbox w _ := length (tw_inbox w);
}.

#[export] Instance ToyWorld_laws : WorldLaws ToyW unit.
Proof.
  split; cbn; try done.
  - intros w s n w' x. destruct (tw_inbox w) as [|d rest]; [done|]. intros [= <- <-]. cbn. lia.
  - intros [[|d rest] sends] _ _ _; cbn; lia.
  - intros w _ _ _ _. destruct (tw_sends w); cbn; lia.
Qed.

Definition ToyPeer : Type := string.
#[export] Instance toy_verifier : CertVerifier ToyPeer := λ der,
  if decide (der = []) then Err MissingExtension else Ok (Prelude.from_bytes der).

Definition toy_q (cert : option (list byte)) : ToyQ := {|
  tq_server := false; tq_established := false; tq_closed := false; tq_cert := cert;
  tq_log := []; tq_stopped := []; tq_in := []; tq_out := 0;
|}.
Definition toy_endpoint (expected : option ToyPeer) : ConnectionEndpoint :=
  {| transport := {| Multiaddr.protocols := [Ip4 [x7f; x00; x00; x01]; Udp 4001; QuicV1] |}; endpoint_peer_id := expected |}.
Definition toy_conn (cert : option (list byte)) (expected : option ToyPeer) (sends : list bool) : ConnState :=
  {| cs_world := {| tw_inbox := []; tw_sends := sends |};
     cs_conn := conn_new 1 (toy_q cert) toy_addr (toy_endpoint expected); cs_events := [] |}.

Lemma toy_verifier_returns der : toy_verifier der ≠ Panic.
Proof. unfold toy_verifier. by case_decide. Qed.

Definition alice : list byte := as_bytes "alice".
Definition hello : ConnCall := CallRecv [x01] toy_addr toy_addr.

Lemma quic_streams_fifo_witness :
  let calls := [hello; CallOpen; CallSend 0 [x61; x62; x63]; CallCloseWrite 0; CallSend 0 [x64]] in
  let s := toy_conn (Some alice) None [] in
  q_log (qc_conn (cs_conn (run_calls () calls s))) 0 ++ queued (stream_states (cs_conn (run_calls () calls s)) !! 0)
    = [Some x61; Some x62; Some x63; None].
Proof.
  intros calls s. unfold s, toy_conn.
  rewrite (quic_streams_fifo toy_verifier_returns () calls {| tw_inbox := []; tw_sends := [] |} 1 (toy_q (Some alice)) toy_addr (toy_endpoint None) 0).
  - reflexivity.
  - reflexivity.
  - repeat constructor.
Defined.

Lemma quic_identity_witness :
  let s' := run_calls () [hello; CallPoll] (toy_conn (Some alice) (Some "alice"%string) []) in
  cs_events s' = [TConnected 1 (toy_endpoint (Some "alice"%string))] ∧
  proven (toy_q (Some alice)) (qc_conn (cs_conn s')) (toy_endpoint (Some "alice"%string)).
Proof.
  intros s'. assert (cs_events s' = [TConnected 1 (toy_endpoint (Some "alice"%string))]) as E by reflexivity.
  split; [exact E|].
  destruct (quic_identity toy_verifier_returns () [hello; CallPoll] {| tw_inbox := []; tw_sends := [] |} 1 (toy_q (Some alice)) toy_addr
    (toy_endpoint (Some "alice"%string))) as (_ & H & _); [repeat constructor|].
  apply (H 1 (toy_endpoint (Some "alice"%string))). unfold toy_conn in s'. fold s'. rewrite E. by left.
Defined.

(** The state becomes [Connected] before the identity is verified, and the flush in
    between may fail: then the call returns its error, the peer is never verified nor
    reported, and the connection opens streams and delivers data all the same, here for
    a peer that proves to be someone else than the one that was dialed. *)
Example connected_unverified :
  let s := run_calls () [hello; hello; CallRecv [x44; x01; x68] toy_addr toy_addr; CallPoll]
             (toy_conn (Some alice) (Some "bob"%string) [false]) in
  qc_state (cs_conn s) = Connected ∧ (open_stream s).2 = Ok 0 ∧
  cs_events s = [TIncomingStream 1 1; TStreamData 1 1 [x68]].
Proof. split_and!; reflexivity. Qed.

(** A stream the peer refuses keeps its write at the head of its queue, and every later
    call that drains fails with it: writes to other streams are reported as failed,
    though they have been queued and are sent. *)
Example refused_stream_blocks :
  let s := run_calls () [hello; CallOpen; CallOpen; CallRecv [x53; x00] toy_addr toy_addr; CallSend 0 [x61]]
             (toy_conn (Some alice) None []) in
  (send_stream 4 [x62] () s).2 = Err (StreamSendFailed 1 0 "stream_send error: StreamStopped(0)") ∧
  (poll_streams () s).2 = Err (StreamSendFailed 1 0 "stream_send error: StreamStopped(0)") ∧
  (poll_streams () (poll_streams () s).1).2 = Err (StreamSendFailed 1 0 "stream_send error: StreamStopped(0)") ∧
  written (cs_conn (send_stream 4 [x62] () s).1) 4 = [Some x62].
Proof. split_and!; reflexivity. Qed.

(** A closed stream is forgotten, and the next write to it makes a new one of it: bytes
    are asked to follow the end of the stream. *)
Example closed_stream_reopens :
  let s := run_calls () [hello; CallOpen; CallReset 0; CallPoll; CallSend 0 [x61]] (toy_conn (Some alice) None []) in
  cs_events s = [TConnected 1 (toy_endpoint (Some "alice"%string)); TStreamClosed 1 0] ∧
  written (cs_conn s) 0 = [Some x61].
Proof. split; reflexivity. Qed.
