(* ===== verification/QuicTransport.v ===== *)
(** * The QUIC transport ([transports/quic/src/lib.rs], [QuicTransport])

    One UDP socket and the connections over it, found by connection id, by the
    connection ids of their packets and by the identity of their peers; the operations
    of the [Transport] trait on them. *)
From S2P Require Import Prelude NetAddr Effects Multibase PeerId Keys Tls Multiaddr PeerAddr IdentifyMessage SwarmEvents Transport QuicConnection.
From Stdlib Require Import ZArith Strings.Byte Strings.String.
From stdpp Require Import base numbers list gmap strings sorting.

#[local] Open Scope Z_scope.

(** ** Addresses *)

Section addresses.
Context {P : Type} `{PidEq : EqDecision P}.
Context {W Sock : Type} `{WA : !World W Sock}.

Definition extract_quic_host_and_port (multiaddr : Multiaddr P) (context : string)
    : res TransportError (Protocol P * Z) :=
  if negb (is_quic_transport multiaddr)
  then Err (InvalidAddress context "expected /<host>/udp/<port>/quic-v1")
  else
    host ← ok_or (head (Multiaddr.protocols multiaddr)) (InvalidAddress context "missing host component");
    port ← match Multiaddr.protocols multiaddr !! 1%nat with
           | Some (Udp port) => Ok port
           | _ => Err (InvalidAddress context "missing udp port")
           end;
    Ok (host, port).

Definition extract_listen_socket_addr (multiaddr : Multiaddr P) (context : string)
    : res TransportError SocketAddr :=
  '(host, port) ← extract_quic_host_and_port multiaddr context;
  ip ← match host with
       | Ip4 bytes => Ok (V4 bytes)
       | Ip6 bytes => Ok (V6 bytes)
       | Dns _ | Dns4 _ | Dns6 _ =>
           Err (InvalidAddress context "listen requires /ip4 or /ip6 host (dns names are dial-only)")
       | _ => Err (InvalidAddress context "missing host component")
       end;
  Ok {| sa_ip := ip; sa_port := port |}.

(** The three branches for names differ in the addresses they keep. *)
Definition resolve_name (host : string) (port : Z) (context : string) (usable : SocketAddr → bool)
    (what : string) : eff W TransportError (list SocketAddr) :=
  let query := (host ++ ":" ++ to_string (A:=Z) port)%string in
  r ← state (λ w, to_socket_addrs w query);
  match r with
  | inl e => throw (InvalidAddress context ("dns resolution failed for " ++ query ++ ": " ++ to_string e))
  | inr addrs =>
      let resolved := List.filter usable addrs in
      if decide (resolved = [])
      then throw (InvalidAddress context ("dns resolution returned no " ++ what ++ " address for " ++ query))
      else mret resolved
  end.

Definition resolve_dial_socket_addrs (multiaddr : Multiaddr P) (context : string)
    : eff W TransportError (list SocketAddr) :=
  '(host, port) ← lift (extract_quic_host_and_port multiaddr context);
  match host with
  | Ip4 bytes => mret [{| sa_ip := V4 bytes; sa_port := port |}]
  | Ip6 bytes => mret [{| sa_ip := V6 bytes; sa_port := port |}]
  | Dns host => resolve_name host port context (λ _, true) "usable"
  | Dns4 host => resolve_name host port context is_ipv4 "ipv4"
  | Dns6 host => resolve_name host port context is_ipv6 "ipv6"
  | _ => throw (InvalidAddress context "missing host component")
  end.

Definition resolve_dial_socket_addr (multiaddr : Multiaddr P) (context : string)
    : eff W TransportError SocketAddr :=
  addrs ← resolve_dial_socket_addrs multiaddr context;
  lift (ok_or (head addrs) (InvalidAddress context "dial target resolved to no usable addresses")).

Definition ensure_listen_matches_bound_socket (requested bound : SocketAddr) : res TransportError unit :=
  if decide (requested = bound) then Ok ()
  else Err (InvalidAddress "listen address"
              ("listen address " ++ to_string requested ++ " does not match bound socket "
               ++ to_string bound ++ "; use the bound local_addr()")).

Definition socket_addr_to_multiaddr (addr : SocketAddr) : Multiaddr P :=
  match sa_ip addr with
  | V4 o => {| Multiaddr.protocols := [Ip4 o; Udp (sa_port addr); QuicV1] |}
  | V6 o => {| Multiaddr.protocols := [Ip6 o; Udp (sa_port addr); QuicV1] |}
  end.
End addresses.

(** ** State *)

Inductive PacketType : Type := Initial | OtherPacket.
#[export] Instance PacketType_eq_dec : EqDecision PacketType.
Proof. solve_decision. Defined.

(** The functions of [quiche] that make connections and read packet headers. *)
Class QuicheEndpoint (Q Cfg : Type) := {
  q_connect : Cfg → list byte → SocketAddr → SocketAddr → Cfg * (string + Q);
  q_accept : Cfg → list byte → SocketAddr → SocketAddr → Cfg * (string + Q);
  q_header : list byte → option (PacketType * list byte);
}.
#[global] Hint Mode QuicheEndpoint ! - : typeclass_instances.

(** [quiche::MAX_CONN_ID_LEN]. *)
Definition MAX_CONN_ID_LEN : nat := 20.

Section transport.
Context {P : Type} `{PidEq : EqDecision P} `{PidCount : !Countable P} `{PD : !Display P} `{CV : !CertVerifier P}.
Context {Q : Type} `{QA : !Quiche Q} {Cfg : Type} `{QE : !QuicheEndpoint Q Cfg}.
Context {W Sock : Type} `{WA : !World W Sock}.

(** [local_peer_id] is [node_config.peer_id()]. *)
Record QuicTransport : Type := {
  qt_socket : Sock;
  quiche_config : Cfg;
  connections : gmap Z (QuicConnection (P:=P) (Q:=Q));
  cid_to_connection : gmap (list byte) Z;
  peer_connections : gmap P (gset Z);
  pending_events : list (TransportEvent (P:=P));
  listen_addr : option SocketAddr;
  next_connection_id : Z;
  local_peer_id : P;
}.

Definition set_config (x : Cfg) (t : QuicTransport) : QuicTransport := {|
  qt_socket := qt_socket t; quiche_config := x; connections := connections t;
  cid_to_connection := cid_to_connection t; peer_connections := peer_connections t;
  pending_events := pending_events t; listen_addr := listen_addr t;
  next_connection_id := next_connection_id t; local_peer_id := local_peer_id t |}.
Definition set_connections (x : gmap Z QuicConnection) (t : QuicTransport) : QuicTransport := {|
  qt_socket := qt_socket t; quiche_config := quiche_config t; connections := x;
  cid_to_connection := cid_to_connection t; peer_connections := peer_connections t;
  pending_events := pending_events t; listen_addr := listen_addr t;
  next_connection_id := next_connection_id t; local_peer_id := local_peer_id t |}.
Definition set_cids (x : gmap (list byte) Z) (t : QuicTransport) : QuicTransport := {|
  qt_socket := qt_socket t; quiche_config := quiche_config t; connections := connections t;
  cid_to_connection := x; peer_connections := peer_connections t;
  pending_events := pending_events t; listen_addr := listen_addr t;
  next_connection_id := next_connection_id t; local_peer_id := local_peer_id t |}.
Definition set_peers (x : gmap P (gset Z)) (t : QuicTransport) : QuicTransport := {|
  qt_socket := qt_socket t; quiche_config := quiche_config t; connections := connections t;
  cid_to_connection := cid_to_connection t; peer_connections := x;
  pending_events := pending_events t; listen_addr := listen_addr t;
  next_connection_id := next_connection_id t; local_peer_id := local_peer_id t |}.
Definition set_events (x : list TransportEvent) (t : QuicTransport) : QuicTransport := {|
  qt_socket := qt_socket t; quiche_config := quiche_config t; connections := connections t;
  cid_to_connection := cid_to_connection t; peer_connections := peer_connections t;
  pending_events := x; listen_addr := listen_addr t;
  next_connection_id := next_connection_id t; local_peer_id := local_peer_id t |}.
Definition set_listen (x : option SocketAddr) (t : QuicTransport) : QuicTransport := {|
  qt_socket := qt_socket t; quiche_config := quiche_config t; connections := connections t;
  cid_to_connection := cid_to_connection t; peer_connections := peer_connections t;
  pending_events := pending_events t; listen_addr := x;
  next_connection_id := next_connection_id t; local_peer_id := local_peer_id t |}.
Definition set_next (x : Z) (t : QuicTransport) : QuicTransport := {|
  qt_socket := qt_socket t; quiche_config := quiche_config t; connections := connections t;
  cid_to_connection := cid_to_connection t; peer_connections := peer_connections t;
  pending_events := pending_events t; listen_addr := listen_addr t;
  next_connection_id := x; local_peer_id := local_peer_id t |}.

(** [Self { .. }] at the end of [QuicTransport::new]. *)
Definition transport_new (socket : Sock) (config : Cfg) (peer : P) : QuicTransport := {|
  qt_socket := socket; quiche_config := config; connections := ∅; cid_to_connection := ∅;
  peer_connections := ∅; pending_events := []; listen_addr := None; next_connection_id := 1;
  local_peer_id := peer |}.

(** What a method of the transport borrows: the system, the transport and, in [poll],
    the vector of events being collected. *)
Record TState : Type := {
  ts_world : W;
  ts_transport : QuicTransport;
  ts_events : list (TransportEvent (P:=P));
}.
Definition tmeth (A : Type) : Type := eff TState TransportError A.

Definition upd_t (f : QuicTransport → QuicTransport) : tmeth unit :=
  modify (λ s, {| ts_world := ts_world s; ts_transport := f (ts_transport s); ts_events := ts_events s |}).
Definition collect (e : TransportEvent) : tmeth unit :=
  modify (λ s, {| ts_world := ts_world s; ts_transport := ts_transport s; ts_events := ts_events s ++ [e] |}).
Definition queue_event (e : TransportEvent) : tmeth unit :=
  upd_t (λ t, set_events (pending_events t ++ [e]) t).
Definition gett {A} (f : QuicTransport → A) : tmeth A := gets (f ∘ ts_transport).
(** A call on the system. *)
Definition in_world {A} (m : eff W TransportError A) : tmeth A :=
  zoom ts_world (λ w s, {| ts_world := w; ts_transport := ts_transport s; ts_events := ts_events s |}) m.
(** A method of connection [id], which is [c], with [self.pending_events] or with the
    events being collected. *)
Definition in_conn {A} (id : Z) (c : QuicConnection) (m : meth (P:=P) (Q:=Q) (W:=W) A) : tmeth A := λ s,
  let '(cs, r) := m {| cs_world := ts_world s; cs_conn := c; cs_events := pending_events (ts_transport s) |} in
  ({| ts_world := cs_world cs;
      ts_transport := set_events (cs_events cs)
                        (set_connections (<[id := cs_conn cs]> (connections (ts_transport s))) (ts_transport s));
      ts_events := ts_events s |}, r).
Definition in_conn_polled {A} (id : Z) (c : QuicConnection) (m : meth (P:=P) (Q:=Q) (W:=W) A) : tmeth A := λ s,
  let '(cs, r) := m {| cs_world := ts_world s; cs_conn := c; cs_events := ts_events s |} in
  ({| ts_world := cs_world cs;
      ts_transport := set_connections (<[id := cs_conn cs]> (connections (ts_transport s))) (ts_transport s);
      ts_events := cs_events cs |}, r).

(** [self.connections.get_mut(&id).ok_or(ConnectionNotFound { id })?] *)
Definition find_conn (id : Z) : tmeth QuicConnection :=
  o ← gett (λ t, connections t !! id);
  lift (ok_or o (ConnectionNotFound id)).

(** ** Identifiers and indexes *)

Definition local_addr : tmeth SocketAddr :=
  r ← gets (λ s, sock_local_addr (ts_world s) (qt_socket (ts_transport s)));
  match r with
  | inl e => throw (PollError ("failed to get local addr: " ++ to_string e))
  | inr a => mret a
  end.

(** Among [n + 1] candidates one is not among [n] connections, so the loop ends early:
    [allocate_connection_id] gives it one more iteration for the number 0. *)
Fixpoint allocate_loop (fuel : nat) (start : Z) : tmeth Z :=
  match fuel with
  | O => panic
  | S fuel =>
      raw ← gett next_connection_id;
      _ ← upd_t (set_next (wrap_u64 (raw + 1)));
      taken ← gett (λ t, bool_decide (is_Some (connections t !! raw)));
      if bool_decide (raw ≠ 0) && negb taken then mret raw
      else
        next ← gett next_connection_id;
        if decide (next = start) then throw (ResourceExhausted "connection ids")
        else allocate_loop fuel start
  end.
Definition allocate_connection_id : tmeth Z :=
  start ← gett next_connection_id;
  n ← gett (λ t, size (connections t));
  allocate_loop (S (S n)) start.

(** [getrandom] of [MAX_CONN_ID_LEN] bytes, with the error the caller reports. *)
Definition generate_scid (err : string → TransportError) : tmeth (list byte) :=
  r ← in_world (state (λ w, getrandom_fill w MAX_CONN_ID_LEN));
  match r with inl e => throw (err e) | inr scid => mret scid end.

Definition index_peer_connection (peer_id : P) (id : Z) (t : QuicTransport) : QuicTransport :=
  set_peers (<[peer_id := default ∅ (peer_connections t !! peer_id) ∪ {[id]}]> (peer_connections t)) t.

Definition remove_peer_connection (peer_id : P) (id : Z) (t : QuicTransport) : QuicTransport :=
  match peer_connections t !! peer_id with
  | Some ids =>
      let ids := ids ∖ {[id]} in
      if decide (ids = ∅) then set_peers (delete peer_id (peer_connections t)) t
      else set_peers (<[peer_id := ids]> (peer_connections t)) t
  | None => t
  end.

Definition unindex_connection (id : Z) (peer_id : option P) (t : QuicTransport) : QuicTransport :=
  let t := set_cids (filter (λ '(_, mapped), mapped ≠ id) (cid_to_connection t)) t in
  match peer_id with Some peer_id => remove_peer_connection peer_id id t | None => t end.

(** ** Methods *)

Definition local_multiaddr : tmeth (Multiaddr P) :=
  a ← local_addr; mret (socket_addr_to_multiaddr a).

Definition local_peer_addr : tmeth (PeerAddr P) :=
  addr ← local_addr;
  peer_id ← gett local_peer_id;
  lift (map_err (λ e, InvalidConfig ("failed to build local PeerAddr: " ++ to_string e))
          (pa_new (socket_addr_to_multiaddr addr) peer_id)).

Definition send_raw_udp (target : Multiaddr P) (payload : list byte) : tmeth unit :=
  addr ← in_world (resolve_dial_socket_addr target "raw udp target");
  socket ← gett qt_socket;
  r ← in_world (state (λ w, send_to w socket payload addr));
  match r with
  | inl e => throw (PollError ("raw udp send to " ++ to_string addr ++ " failed: " ++ to_string e))
  | inr _ => mret ()
  end.

(** The set is visited in increasing order. *)
Definition connection_ids_for_peer (t : QuicTransport) (peer_id : P) : list Z :=
  match peer_connections t !! peer_id with Some ids => merge_sort Z.le (elements ids) | None => [] end.

Definition verify_connection_peer_id (id : Z) (peer_id : P) : tmeth unit :=
  conn ← find_conn id;
  let previous_peer_id := endpoint_peer_id (qc_endpoint conn) in
  if decide (previous_peer_id = Some peer_id) then mret ()
  else
    let conn := conn_set_peer_id peer_id conn in
    _ ← upd_t (λ t, set_connections (<[id := conn]> (connections t)) t);
    _ ← upd_t (λ t, match previous_peer_id with
                    | Some previous => remove_peer_connection previous id t
                    | None => t
                    end);
    _ ← upd_t (index_peer_connection peer_id id);
    queue_event (TPeerIdentityVerified id (qc_endpoint conn) previous_peer_id).

(** [loop { conn.send(&mut out) .. socket.send_to(..) .. }] on a new connection: its
    state when there is nothing left to send. *)
Fixpoint send_all (fuel : nat) (socket : Sock) (quiche_err udp_err : string → TransportError) (q : Q)
    : eff W TransportError Q :=
  match fuel with
  | O => panic
  | S fuel =>
      match q_send q SEND_BUF_SIZE with
      | (q, inl Done) => mret q
      | (_, inl (QuicheFailed e)) => throw (quiche_err e)
      | (q, inr (out, to)) =>
          r ← state (λ w, send_to w socket out to);
          match r with
          | inl e => throw (udp_err (to_string e))
          | inr _ => send_all fuel socket quiche_err udp_err q
          end
      end
  end.

(** [quiche::connect] and [quiche::accept] borrow the configuration. *)
Definition make_conn (make : Cfg → Cfg * (string + Q)) (err : string → TransportError) : tmeth Q :=
  config ← gett quiche_config;
  let '(config, r) := make config in
  _ ← upd_t (set_config config);
  match r with inl e => throw (err e) | inr q => mret q end.

Definition dial (addr : PeerAddr P) : tmeth Z :=
  id ← allocate_connection_id;
  peer_socket ← in_world (resolve_dial_socket_addr (pa_transport addr) "dial target");
  local_socket ← local_addr;
  scid ← generate_scid (λ e, DialFailed id ("failed to generate connection id: " ++ e));
  q ← make_conn (λ cfg, q_connect cfg scid local_socket peer_socket)
        (λ e, DialFailed id ("quiche connect error: " ++ e));
  socket ← gett qt_socket;
  q ← in_world (send_all (S (q_packets q)) socket
        (λ e, DialFailed id ("initial send error: " ++ e)) (λ e, DialFailed id ("udp send error: " ++ e)) q);
  let conn := conn_new id q peer_socket (from_peer_addr addr) in
  _ ← upd_t (λ t, set_connections (<[id := conn]> (connections t)) t);
  _ ← upd_t (λ t, set_cids (<[source_cid_bytes conn := id]> (cid_to_connection t)) t);
  _ ← upd_t (index_peer_connection (pa_peer_id addr) id);
  mret id.

Definition listen (addr : Multiaddr P) : tmeth (Multiaddr P) :=
  socket_addr ← lift (extract_listen_socket_addr addr "listen address");
  local ← local_addr;
  _ ← lift (ensure_listen_matches_bound_socket socket_addr local);
  let listen_addr := socket_addr_to_multiaddr local in
  _ ← upd_t (set_listen (Some local));
  _ ← queue_event (TListening listen_addr);
  mret listen_addr.

Definition listen_on_bound_addr : tmeth (Multiaddr P) :=
  addr ← local_addr;
  listen (socket_addr_to_multiaddr addr).

Definition qt_open_stream (id : Z) : tmeth StreamId :=
  conn ← find_conn id;
  stream_id ← in_conn id conn open_stream;
  _ ← queue_event (TStreamOpened id stream_id);
  mret stream_id.

Definition qt_send_stream (id : Z) (stream_id : StreamId) (data : list byte) : tmeth unit :=
  conn ← find_conn id;
  socket ← gett qt_socket;
  in_conn id conn (send_stream stream_id data socket).

Definition qt_close_stream_write (id : Z) (stream_id : StreamId) : tmeth unit :=
  conn ← find_conn id;
  socket ← gett qt_socket;
  in_conn id conn (close_stream_write stream_id socket).

Definition qt_reset_stream (id : Z) (stream_id : StreamId) : tmeth unit :=
  conn ← find_conn id;
  in_conn id conn (reset_stream stream_id).

Definition qt_close (id : Z) : tmeth unit :=
  conn ← find_conn id;
  socket ← gett qt_socket;
  in_conn id conn (close socket).

Definition local_addresses (s : TState) : list (Multiaddr P) :=
  match (local_multiaddr s).2 with Ok a => [a] | _ => [] end.

Definition active_connection_count (t : QuicTransport) : nat := size (connections t).

(** [values()] visits the map in the order of its hashes. *)
Definition active_connection_sources : tmeth (list (Multiaddr P)) :=
  conns ← gett (λ t, (map_to_list (connections t)).*2);
  conns ← in_world (state (λ w, hash_order w conns));
  mret ((λ c, transport (qc_endpoint c)) <$> conns).
Definition active_inbound_connection_sources : tmeth (list (Multiaddr P)) :=
  conns ← gett (λ t, (map_to_list (connections t)).*2);
  conns ← in_world (state (λ w, hash_order w conns));
  mret ((λ c, transport (qc_endpoint c)) <$> List.filter is_server conns).

(** ** Polling *)

(** A packet that opens a connection. *)
Definition accept_connection (from local : SocketAddr) : tmeth Z :=
  scid ← generate_scid (λ e, PollError ("failed to generate server connection id: " ++ e));
  q ← make_conn (λ cfg, q_accept cfg scid local from) (λ e, PollError ("quiche accept error: " ++ e));
  socket ← gett qt_socket;
  q ← in_world (send_all (S (q_packets q)) socket
        (λ e, PollError ("accept send error: " ++ e)) (λ e, PollError ("udp send error: " ++ e)) q);
  id ← allocate_connection_id;
  let endpoint := endpoint_new (socket_addr_to_multiaddr from) in
  let conn := conn_new id q from endpoint in
  old ← gett (λ t, connections t !! id);
  _ ← upd_t (λ t, set_connections (<[id := conn]> (connections t)) t);
  match old with
  | Some _ => throw (PollError ("connection id collision for incoming connection " ++ to_string (A:=Z) id))
  | None =>
      _ ← upd_t (λ t, set_cids (<[source_cid_bytes conn := id]> (cid_to_connection t)) t);
      _ ← collect (TIncomingConnection id endpoint);
      mret id
  end.

(** The connection a packet is for, if there is one. *)
Definition route_packet (packet : list byte) (from local : SocketAddr) : tmeth (option Z) :=
  let parsed_header := q_header (Q:=Q) (Cfg:=Cfg) packet in
  t ← gets ts_transport;
  match parsed_header ≫= (λ h, cid_to_connection t !! h.2) with
  | Some id => mret (Some id)
  | None =>
      if bool_decide (is_Some (listen_addr t)) && bool_decide (fst <$> parsed_header = Some Initial)
      then
        id ← accept_connection from local;
        mret (Some id)
      else
        conns ← in_world (state (λ w, hash_order w (map_to_list (connections t))));
        mret (fst <$> List.find (λ ic, matches_peer ic.2 from) conns)
  end.

(** Handing a packet to its connection. *)
Definition deliver_packet (id : Z) (packet : list byte) (from local : SocketAddr) : tmeth unit :=
  o ← gett (λ t, connections t !! id);
  match o with
  | None => mret ()
  | Some conn =>
      let previous_peer_id := endpoint_peer_id (qc_endpoint conn) in
      socket ← gett qt_socket;
      _ ← in_conn_polled id conn (recv_packet packet from local socket);
      conn ← gett (λ t, default conn (connections t !! id));
      _ ← upd_t (λ t, set_cids (<[source_cid_bytes conn := id]> (cid_to_connection t)) t);
      let endpoint := qc_endpoint conn in
      if decide (endpoint_peer_id endpoint = previous_peer_id) then mret ()
      else
        _ ← upd_t (λ t, match previous_peer_id with
                        | Some previous => remove_peer_connection previous id t
                        | None => t
                        end);
        _ ← upd_t (λ t, match endpoint_peer_id endpoint with
                        | Some peer_id => index_peer_connection peer_id id t
                        | None => t
                        end);
        collect (TPeerIdentityVerified id endpoint previous_peer_id)
  end.

(** The loop on the socket; [inbox] bounds its iterations. *)
Fixpoint recv_loop (fuel : nat) : tmeth unit :=
  match fuel with
  | O => panic
  | S fuel =>
      socket ← gett qt_socket;
      r ← in_world (state (λ w, recv_from w socket RECV_BUF_SIZE));
      match r with
      | inl (WouldBlock _) => mret ()
      | inl e => throw (PollError ("udp recv error: " ++ to_string e))
      | inr (packet, from) =>
          local ← local_addr;
          target ← route_packet packet from local;
          _ ← match target with
              | Some id => deliver_packet id packet from local
              | None => mret ()
              end;
          recv_loop fuel
      end
  end.

(** [for (&id, conn) in self.connections.iter_mut()]: the connection ids to insert, and
    the connections to remove. *)
Fixpoint poll_connections (ids : list Z) (cid_updates : list (list byte * Z))
    (to_remove : list Z) : tmeth (list (list byte * Z) * list Z) :=
  match ids with
  | [] => mret (cid_updates, to_remove)
  | id :: ids =>
      o ← gett (λ t, connections t !! id);
      match o with
      | None => poll_connections ids cid_updates to_remove
      | Some conn =>
          socket ← gett qt_socket;
          _ ← in_conn_polled id conn (poll_streams socket);
          conn ← gett (λ t, default conn (connections t !! id));
          poll_connections ids (cid_updates ++ [(source_cid_bytes conn, id)])
            (if is_closed conn then to_remove ++ [id] else to_remove)
      end
  end.

Definition remove_closed (id : Z) : tmeth unit :=
  o ← gett (λ t, connections t !! id);
  _ ← match o with
      | Some conn =>
          _ ← upd_t (λ t, set_connections (delete id (connections t)) t);
          upd_t (unindex_connection id (endpoint_peer_id (qc_endpoint conn)))
      | None => mret ()
      end;
  collect (TClosed id).

(** [take(&mut self.pending_events)] starts the collection; an early return drops what
    has been collected. *)
Definition poll : tmeth (list TransportEvent) :=
  _ ← modify (λ s, {| ts_world := ts_world s; ts_transport := set_events [] (ts_transport s);
                      ts_events := pending_events (ts_transport s) |});
  n ← gets (λ s, inbox (ts_world s) (qt_socket (ts_transport s)));
  _ ← recv_loop (S n);
  ids ← gett (λ t, (map_to_list (connections t)).*1);
  ids ← in_world (state (λ w, hash_order w ids));
  '(cid_updates, to_remove) ← poll_connections ids [] [];
  _ ← for_each cid_updates (λ u, upd_t (λ t, set_cids (<[u.1 := u.2]> (cid_to_connection t)) t));
  _ ← for_each to_remove remove_closed;
  gets ts_events.

End transport.
