(* ===== verification/QuicIndexes.v ===== *)
(** * The tables of the QUIC transport ([transports/quic/src/lib.rs])

    The connections, the connection ids of their packets and the identities of their
    peers always agree, whatever is called and whatever fails. *)
From S2P Require Import Prelude NetAddr Effects Multibase PeerId Keys Tls Multiaddr PeerAddr IdentifyMessage SwarmEvents Transport QuicConnection QuicGuarantees QuicTransport.
From Stdlib Require Import ZArith Strings.Byte Strings.String.
From stdpp Require Import base numbers list gmap strings sorting.

#[local] Open Scope Z_scope.

Section indexes.
Context {P : Type} `{PidEq : EqDecision P} `{PidCount : !Countable P} `{PD : !Display P} `{CV : !CertVerifier P}.
Context {Q : Type} `{QA : !Quiche Q} `{QL : !QuicheLaws Q} {Cfg : Type} `{QE : !QuicheEndpoint Q Cfg}.
Context {W Sock : Type} `{WA : !World W Sock} `{WL : !WorldLaws W Sock}.

Implicit Types (t : QuicTransport (P:=P) (Q:=Q) (Cfg:=Cfg) (Sock:=Sock)).
Implicit Types (id : Z) (conns : gmap Z (QuicConnection (P:=P) (Q:=Q))) (cids : gmap (list byte) Z) (peers : gmap P (gset Z)).

(** ** Peers *)

Definition listed peers (p : P) (id : Z) : Prop := id ∈ default ∅ (peers !! p).
Definition add_peer (p : P) (id : Z) peers : gmap P (gset Z) :=
  <[p := default ∅ (peers !! p) ∪ {[id]}]> peers.
Definition del_peer (p : P) (id : Z) peers : gmap P (gset Z) :=
  match peers !! p with
  | Some ids => if decide (ids ∖ {[id]} = ∅) then delete p peers else <[p := ids ∖ {[id]}]> peers
  | None => peers
  end.
Definition no_empty peers : Prop := map_Forall (λ _ ids, ids ≠ ∅) peers.

Lemma listed_add p id peers p' id' : listed (add_peer p id peers) p' id' ↔ (p' = p ∧ id' = id) ∨ listed peers p' id'.
Proof.
  unfold listed, add_peer. destruct (decide (p' = p)) as [->|Hne].
  - rewrite lookup_insert_eq. cbn. set_solver.
  - rewrite lookup_insert_ne by done. naive_solver.
Qed.

Lemma listed_del p id peers p' id' : listed (del_peer p id peers) p' id' ↔ ¬ (p' = p ∧ id' = id) ∧ listed peers p' id'.
Proof.
  unfold listed, del_peer. destruct (peers !! p) as [ids|] eqn:E; cycle 1.
  { split; [|naive_solver]. intros H. split; [|done]. intros [-> ->]. rewrite E in H. cbn in H. set_solver. }
  case_decide as Hd; destruct (decide (p' = p)) as [->|Hne].
  - rewrite lookup_delete_eq, E. cbn. set_solver.
  - rewrite lookup_delete_ne by done. naive_solver.
  - rewrite lookup_insert_eq, E. cbn. set_solver.
  - rewrite lookup_insert_ne by done. naive_solver.
Qed.

Lemma no_empty_add p id peers : no_empty peers → no_empty (add_peer p id peers).
Proof. intros H. apply map_Forall_insert_2; [set_solver|done]. Qed.

Lemma no_empty_del p id peers : no_empty peers → no_empty (del_peer p id peers).
Proof.
  intros H. unfold del_peer. destruct (peers !! p); [|done]. case_decide; [by apply map_Forall_delete|by apply map_Forall_insert_2].
Qed.

Lemma index_peers p id t : peer_connections (index_peer_connection p id t) = add_peer p id (peer_connections t).
Proof. done. Qed.

Lemma remove_peers p id t : peer_connections (remove_peer_connection p id t) = del_peer p id (peer_connections t).
Proof.
  unfold remove_peer_connection, del_peer. destruct (peer_connections t !! p) as [ids|]; [|done]. cbv zeta. by repeat case_decide.
Qed.

(** ** The invariant *)

(** The peer a connection is with, as far as it is known. *)
Definition peer_of conns (id : Z) : option P := conns !! id ≫= (λ c, endpoint_peer_id (qc_endpoint c)).

Record tables conns cids peers : Prop := {
  tb_conn (id : Z) c : conns !! id = Some c → qc_id c = id ∧ conn_ok c ∧ 0 < id < u64_mod;
  tb_cid cid (id : Z) : cids !! cid = Some id → is_Some (conns !! id);
  tb_peer p id : listed peers p id ↔ peer_of conns id = Some p;
  tb_no_empty : no_empty peers;
}.

(** A connection changed by one of its methods. *)
Lemma tables_update conns cids peers id c c' :
  tables conns cids peers → conns !! id = Some c → qc_id c' = id → conn_ok c' →
  endpoint_peer_id (qc_endpoint c') = endpoint_peer_id (qc_endpoint c) →
  tables (<[id := c']> conns) cids peers.
Proof.
  intros [T1 T2 T3 T4] Hc Hid Hok He. split; [| | |done].
  - intros id' c0 [[<- <-]|[Hne Hl]]%lookup_insert_Some; [|by apply T1]. split; [done|]. split; [done|]. by apply (T1 id c).
  - intros cid id' H%T2. apply lookup_insert_is_Some'. by right.
  - intros p id'. rewrite T3. unfold peer_of. destruct (decide (id' = id)) as [->|Hne].
    + rewrite lookup_insert_eq, Hc. cbn. by rewrite He.
    + by rewrite lookup_insert_ne.
Qed.

Lemma tables_cid conns cids peers cid id :
  tables conns cids peers → is_Some (conns !! id) → tables conns (<[cid := id]> cids) peers.
Proof.
  intros [T1 T2 T3 T4] Hid. split; [done| |done..]. intros cid' id' [[<- <-]|[Hne Hl]]%lookup_insert_Some; [done|by eapply T2].
Qed.

Definition del_opt (o : option P) (id : Z) peers : gmap P (gset Z) :=
  match o with Some p => del_peer p id peers | None => peers end.
Definition add_opt (o : option P) (id : Z) peers : gmap P (gset Z) :=
  match o with Some p => add_peer p id peers | None => peers end.

(** A connection that is new or has another peer than before. *)
Lemma tables_repeer conns cids peers id c' :
  tables conns cids peers → qc_id c' = id → conn_ok c' → 0 < id < u64_mod →
  tables (<[id := c']> conns) cids
    (add_opt (endpoint_peer_id (qc_endpoint c')) id (del_opt (peer_of conns id) id peers)).
Proof.
  intros [T1 T2 T3 T4] Hid Hok Hr. split.
  - intros id' c0 [[<- <-]|[Hne Hl]]%lookup_insert_Some; [done|by apply T1].
  - intros cid id' H%T2. apply lookup_insert_is_Some'. by right.
  - intros p id'.
    assert (listed (del_opt (peer_of conns id) id peers) p id' ↔ listed peers p id' ∧ id' ≠ id) as Hdel.
    { unfold del_opt. destruct (peer_of conns id) as [p0|] eqn:E0.
      - rewrite listed_del, T3. split; [|naive_solver]. intros [Hn Hp]. split; [done|]. intros ->. naive_solver.
      - rewrite T3. split; [|naive_solver]. intros Hp. split; [done|]. intros ->. congruence. }
    assert (listed (add_opt (endpoint_peer_id (qc_endpoint c')) id (del_opt (peer_of conns id) id peers)) p id' ↔
      (endpoint_peer_id (qc_endpoint c') = Some p ∧ id' = id) ∨ (listed peers p id' ∧ id' ≠ id)) as Hadd.
    { unfold add_opt at 1. destruct (endpoint_peer_id (qc_endpoint c')) as [p1|]; [|rewrite Hdel; naive_solver].
      rewrite listed_add, Hdel. naive_solver. }
    rewrite Hadd, T3. unfold peer_of. destruct (decide (id' = id)) as [->|Hne].
    + rewrite lookup_insert_eq. cbn. naive_solver.
    + rewrite lookup_insert_ne by done. naive_solver.
  - unfold add_opt, del_opt. destruct (endpoint_peer_id _), (peer_of conns id); auto using no_empty_add, no_empty_del.
Qed.

Lemma tables_remove conns cids peers id :
  tables conns cids peers →
  tables (delete id conns) (filter (λ '(_, mapped), mapped ≠ id) cids) (del_opt (peer_of conns id) id peers).
Proof.
  intros [T1 T2 T3 T4]. split.
  - intros id' c0 [Hne Hl]%lookup_delete_Some. by apply T1.
  - intros cid id' [Hl Hne]%map_lookup_filter_Some. apply T2 in Hl as [c Hc]. exists c. by rewrite lookup_delete_ne.
  - intros p id'. unfold peer_of at 2. destruct (decide (id' = id)) as [->|Hne].
    + rewrite lookup_delete_eq. cbn. split; [|done]. unfold del_opt. destruct (peer_of conns id) as [p0|] eqn:E0.
      * intros [Hn Hp]%listed_del. apply T3 in Hp. naive_solver.
      * intros Hp%T3. congruence.
    + rewrite lookup_delete_ne by done. change (conns !! id' ≫= _) with (peer_of conns id'). rewrite <- T3. unfold del_opt.
      destruct (peer_of conns id) as [p0|]; [|done]. rewrite listed_del. naive_solver.
  - unfold del_opt. destruct (peer_of conns id); auto using no_empty_del.
Qed.

(** ** The invariant of the transport *)


Implicit Types (s : TState (P:=P) (Q:=Q) (Cfg:=Cfg) (W:=W) (Sock:=Sock)).

Definition indexed t : Prop :=
  tables (connections t) (cid_to_connection t) (peer_connections t) ∧ 0 <= next_connection_id t < u64_mod.
Definition tinv s : Prop := indexed (ts_transport s).

(** What every method leaves alone. *)
Definition polls s s' : Prop :=
  qt_socket (ts_transport s') = qt_socket (ts_transport s) ∧
  ∀ k : Sock, (inbox (ts_world s') k <= inbox (ts_world s) k)%nat.
#[export] Instance polls_preorder : PreOrder polls.
Proof.
  split; [by split|]. intros s1 s2 s3 [H1 H2] [H3 H4]. split; [congruence|]. intros k. specialize (H2 k). specialize (H4 k). lia.
Qed.

(** What the methods that only prepare something leave alone, too. *)
Definition steady s s' : Prop :=
  polls s s' ∧ connections (ts_transport s') = connections (ts_transport s) ∧
  cid_to_connection (ts_transport s') = cid_to_connection (ts_transport s) ∧
  peer_connections (ts_transport s') = peer_connections (ts_transport s).
#[export] Instance steady_preorder : PreOrder steady.
Proof. split; [by split|]. intros s1 s2 s3 (? & ? & ? & ?) (? & ? & ? & ?). split_and!; [by etrans|congruence..]. Qed.

Definition with_transport t s : TState :=
  {| ts_world := ts_world s; ts_transport := t; ts_events := ts_events s |}.

Definition with_collected (e : TransportEvent) s : TState :=
  {| ts_world := ts_world s; ts_transport := ts_transport s; ts_events := ts_events s ++ [e] |}.

Section rules.
Context (R : TState (P:=P) (Q:=Q) (Cfg:=Cfg) (W:=W) (Sock:=Sock) → TState (P:=P) (Q:=Q) (Cfg:=Cfg) (W:=W) (Sock:=Sock) → Prop).

Lemma ok_updt_bind {B} f (k : unit → tmeth B) s0 s :
  run_ok tinv R s0 (k ()) (with_transport (f (ts_transport s)) s) → run_ok tinv R s0 (upd_t f ≫= k) s.
Proof. done. Qed.
Lemma ok_updt f s0 s :
  tinv (with_transport (f (ts_transport s)) s) → R s0 (with_transport (f (ts_transport s)) s) → run_ok tinv R s0 (upd_t f) s.
Proof. intros. by apply ok_modify. Qed.
Lemma ok_collect_bind {B} e (k : unit → tmeth B) s0 s :
  run_ok tinv R s0 (k ()) (with_collected e s) → run_ok tinv R s0 (collect e ≫= k) s.
Proof. done. Qed.
Lemma ok_gett_bind {A B} (f : _ → A) (k : A → tmeth B) s0 s :
  run_ok tinv R s0 (k (f (ts_transport s))) s → run_ok tinv R s0 (gett f ≫= k) s.
Proof. done. Qed.
End rules.

Ltac tstep :=
  lazymatch goal with
  | |- run_ok _ _ _ (upd_t _ ≫= _) _ => apply ok_updt_bind
  | |- run_ok _ _ _ (collect _ ≫= _) _ => apply ok_collect_bind
  | |- run_ok _ _ _ (gett _ ≫= _) _ => apply ok_gett_bind
  | |- run_ok _ _ _ (gets _ ≫= _) _ => apply ok_gets_bind
  | |- run_ok _ _ _ (mret _ ≫= _) _ => apply ok_ret_bind
  | |- run_ok _ _ _ (mret _) _ => apply ok_ret
  | |- run_ok _ _ _ (throw _) _ => apply ok_throw
  | |- run_ok _ _ _ (upd_t _) _ => apply ok_updt
  end; cbv beta.

(** A call that only prepares something, inside a method. *)
Lemma ok_steady_bind {A B} (m : tmeth A) (k : A → tmeth B) s0 s :
  respects tinv steady m → tinv s → polls s0 s →
  (∀ a s', m s = (s', Ok a) → steady s s' → tinv s' → polls s0 s' → run_ok tinv polls s0 (k a) s') →
  run_ok tinv polls s0 (m ≫= k) s.
Proof.
  intros Hm Hs HR Hk. pose proof (Hm s Hs) as (Hp & Hi & Hst). unfold run_ok, mbind, eff_bind.
  destruct (m s) as [s' [a|e|]] eqn:E; cbn in *; [|split_and!; [done..|]; etrans; [done|]; apply Hst|done].
  apply Hk; [done..|]. etrans; [done|]. apply Hst.
Qed.

(** *** Calls on the system *)

Definition world_ok {A} (m : eff W TransportError A) : Prop :=
  ∀ w, (m w).2 ≠ Panic ∧ ∀ k : Sock, (inbox (m w).1 k <= inbox w k)%nat.

Lemma in_world_steady {A} (m : eff W TransportError A) : world_ok m → respects tinv steady (in_world m).
Proof.
  intros Hm s Hs. destruct (Hm (ts_world s)) as [Hp Hb]. unfold run_ok, in_world, zoom.
  destruct (m (ts_world s)) as [w r]. cbn in *. by split_and!.
Qed.

Lemma world_state {A} (f : W → W * A) : (∀ w (k : Sock), (inbox (f w).1 k <= inbox w k)%nat) → world_ok (state f).
Proof. intros Hf w. unfold state. specialize (Hf w). by destruct (f w). Qed.

Lemma world_bind {A B} (m : eff W TransportError A) (k : A → eff W TransportError B) :
  world_ok m → (∀ a, world_ok (k a)) → world_ok (m ≫= k).
Proof.
  intros Hm Hk w. destruct (Hm w) as [Hp Hb]. unfold mbind, eff_bind. destruct (m w) as [w' [a|e|]]; [|done..].
  destruct (Hk a w') as [Hp' Hb']. split; [done|]. intros k'. specialize (Hb k'). specialize (Hb' k'). cbn in *. lia.
Qed.

Lemma world_ret {A} (a : A) : world_ok (mret a).
Proof. by intros w. Qed.
Lemma world_throw {A} e : world_ok (throw (A:=A) e).
Proof. by intros w. Qed.
Lemma world_lift {A} (r : res TransportError A) : r ≠ Panic → world_ok (lift r).
Proof. by intros Hr w. Qed.

Lemma resolve_name_ok host port context usable what : world_ok (resolve_name host port context usable what).
Proof.
  apply world_bind; [apply world_state; intros; apply inbox_dns|].
  intros [e|addrs]; [apply world_throw|]. cbv zeta. case_decide; [apply world_throw|apply world_ret].
Qed.

Lemma extract_host_no_panic (m : Multiaddr P) context : extract_quic_host_and_port m context ≠ Panic.
Proof.
  unfold extract_quic_host_and_port. case_match; [done|]. apply bind_no_panic; [apply ok_or_no_panic|].
  intros host _. apply bind_no_panic; [by repeat case_match|done].
Qed.

Lemma resolve_addrs_ok (m : Multiaddr P) context : world_ok (resolve_dial_socket_addrs m context).
Proof.
  apply world_bind; [apply world_lift, extract_host_no_panic|]. intros [host port].
  destruct host; try apply world_ret; try apply world_throw; apply resolve_name_ok.
Qed.

Lemma resolve_addr_ok (m : Multiaddr P) context : world_ok (resolve_dial_socket_addr m context).
Proof. apply world_bind; [apply resolve_addrs_ok|]. intros addrs. apply world_lift, ok_or_no_panic. Qed.

Lemma send_all_ok fuel socket e1 e2 (q : Q) : (q_packets q < fuel)%nat → world_ok (send_all fuel socket e1 e2 q).
Proof.
  revert q. induction fuel as [|fuel IH]; intros q Hf; [lia|]. cbn [send_all].
  destruct (q_send q SEND_BUF_SIZE) as [q' [[|e]|[out to]]] eqn:E; [apply world_ret|apply world_throw|].
  apply world_bind; [apply world_state; intros; apply inbox_send|].
  intros [e|u]; [apply world_throw|]. apply IH. apply q_packets_send in E. lia.
Qed.

(** *** Preparations *)

Lemma local_addr_steady : respects tinv steady local_addr.
Proof. intros s Hs. unfold local_addr. tstep. by destruct (sock_local_addr _ _); tstep. Qed.

Lemma generate_scid_steady err : respects tinv steady (generate_scid err).
Proof.
  apply respects_bind; [apply _| |].
  - apply in_world_steady, world_state. intros. apply inbox_random.
  - intros [e|scid] s Hs; by tstep.
Qed.

Lemma make_conn_steady make err : respects tinv steady (make_conn make err).
Proof.
  intros s Hs. unfold make_conn. tstep. destruct (make _) as [cfg [e|q]]; tstep; by tstep.
Qed.

Lemma find_conn_ok {B} id (k : QuicConnection → tmeth B) s0 s :
  tinv s → polls s0 s →
  (∀ c, connections (ts_transport s) !! id = Some c → run_ok tinv polls s0 (k c) s) →
  run_ok tinv polls s0 (find_conn id ≫= k) s.
Proof.
  intros Hs HR Hk. unfold find_conn, run_ok, mbind, eff_bind, gett, gets, lift, compose. cbn.
  destruct (connections (ts_transport s) !! id) as [c|] eqn:E; cbn; [by apply Hk|by split_and!].
Qed.

(** *** Connection identifiers *)

(** The identifiers that are not free. *)
Definition bad_ids conns : gset Z := {[0]} ∪ dom conns.

Lemma size_bad_ids conns : (size (bad_ids conns) <= S (size conns))%nat.
Proof. unfold bad_ids. rewrite size_union_alt, size_singleton, <- size_dom. pose proof (subseteq_size (dom conns ∖ {[0]}) (dom conns)). set_solver by lia. Qed.

(** The identifiers tried so far: distinct, and taken. *)
Definition tried (start : Z) (k : nat) : list Z := (λ i, wrap_u64 (start + Z.of_nat i)) <$> seq 0 k.

Lemma NoDup_tried start k : Z.of_nat k <= u64_mod → NoDup (tried start k).
Proof.
  intros Hk. unfold tried. apply NoDup_fmap_2_strong; [|apply NoDup_seq].
  intros i j Hi%elem_of_seq Hj%elem_of_seq Heq. unfold wrap_u64 in Heq.
  assert ((start + Z.of_nat i - (start + Z.of_nat j)) mod u64_mod = 0) as Hm.
  { rewrite Zminus_mod, Heq, Z.sub_diag. done. }
  apply Z.mod_divide in Hm as [q Hq]; [|done]. assert (q = 0) as -> by (unfold u64_mod in *; nia). lia.
Qed.

Lemma tried_S start k : tried start (S k) = tried start k ++ [wrap_u64 (start + Z.of_nat k)].
Proof. unfold tried. rewrite seq_S, fmap_app. done. Qed.

(** At most as many identifiers have been tried as are taken. *)
Lemma tried_bound conns start k :
  Z.of_nat k <= u64_mod → Forall (λ i, i ∈ bad_ids conns) (tried start k) → (k <= S (size conns))%nat.
Proof.
  intros Hk Hf. etrans; [|apply size_bad_ids]. rewrite <- (length_seq k 0), <- (length_fmap (λ i, wrap_u64 (start + Z.of_nat i))).
  fold (tried start k). rewrite <- (size_list_to_set (C:=gset Z)) by by apply NoDup_tried.
  apply subseteq_size. intros i Hi%elem_of_list_to_set. by eapply Forall_forall in Hf.
Qed.

Definition allocated s (x : TState (P:=P) (Q:=Q) (Cfg:=Cfg) (W:=W) (Sock:=Sock) * res TransportError Z) : Prop :=
  tinv x.1 ∧ steady s x.1 ∧
  match x.2 with
  | Ok id => connections (ts_transport s) !! id = None ∧ 0 < id < u64_mod
  | Err _ => u64_mod - 1 <= Z.of_nat (size (connections (ts_transport s)))
  | Panic => False
  end.

Lemma allocate_loop_spec fuel start k s :
  tinv s → is_u64 start → Z.of_nat k < u64_mod → next_connection_id (ts_transport s) = wrap_u64 (start + Z.of_nat k) →
  Forall (λ i, i ∈ bad_ids (connections (ts_transport s))) (tried start k) →
  (S (S (size (connections (ts_transport s)))) <= fuel + k)%nat →
  allocated s (allocate_loop fuel start s).
Proof.
  revert s k. induction fuel as [|fuel IH]; intros s k Hs Hstart Hk Hnext Htried Hfuel.
  { exfalso. pose proof (tried_bound _ _ _ (Z.lt_le_incl _ _ Hk) Htried). lia. }
  cbn [allocate_loop]. unfold mbind, eff_bind, gett, gets, upd_t, modify, compose. cbn [ts_transport next_connection_id set_next connections].
  set (raw := next_connection_id (ts_transport s)) in *.
  assert (0 <= wrap_u64 (raw + 1) < u64_mod) as Hw by (unfold wrap_u64; apply Z.mod_pos_bound; done).
  destruct (bool_decide (raw ≠ 0) && negb (bool_decide (is_Some (connections (ts_transport s) !! raw)))) eqn:Hfree.
  { apply andb_true_iff in Hfree as [H0%bool_decide_eq_true H1%negb_true_iff%bool_decide_eq_false].
    apply eq_None_not_Some in H1. destruct Hs as [Ht Hr]. split; [done|]. split; [done|]. split; [done|]. fold raw in Hr. lia. }
  assert (raw ∈ bad_ids (connections (ts_transport s))) as Hbad.
  { unfold bad_ids. apply andb_false_iff in Hfree as [H0%bool_decide_eq_false|H1%negb_false_iff%bool_decide_eq_true].
    - apply dec_stable in H0. set_solver.
    - apply elem_of_union. right. by apply elem_of_dom. }
  assert (wrap_u64 (raw + 1) = wrap_u64 (start + Z.of_nat (S k))) as Hnext'.
  { rewrite Hnext. unfold wrap_u64. rewrite Zplus_mod_idemp_l. f_equal. lia. }
  assert (Forall (λ i, i ∈ bad_ids (connections (ts_transport s))) (tried start (S k))) as Htried'.
  { rewrite tried_S, <- Hnext. apply Forall_app. by split; [|constructor]. }
  match goal with |- context [match ?d with left _ => _ | right _ => _ end] => destruct d as [Hwrap|Hwrap] end.
  - change (wrap_u64 (raw + 1) = start) in Hwrap. unfold throw. destruct Hs as [Ht Hr]. split; [done|]. split; [done|]. cbn.
    assert (Z.of_nat (S k) = u64_mod) as Hfull.
    { rewrite Hnext' in Hwrap. unfold wrap_u64 in Hwrap.
      assert ((start + Z.of_nat (S k) - start) mod u64_mod = 0) as Hm.
      { rewrite Zminus_mod, Hwrap, (Z.mod_small start) by done. by rewrite Z.sub_diag. }
      apply Z.mod_divide in Hm as [q Hq]; [|done]. unfold u64_mod in *. nia. }
    pose proof (tried_bound _ _ (S k) ltac:(lia) Htried'). lia.
  - change (wrap_u64 (raw + 1) ≠ start) in Hwrap. set (s' := Build_TState _ _ _). destruct (IH s' (S k)) as (Hi & Hst & Hr); try done.
    + by destruct Hs.
    + rewrite Hnext' in Hwrap. assert (Z.of_nat (S k) ≠ u64_mod); [|lia]. intros Hf. apply Hwrap. rewrite Hf.
      unfold wrap_u64. rewrite Z.add_mod, Z_mod_same_full, Z.add_0_r, Zmod_mod by done. by apply Z.mod_small.
    + cbn. lia.
Qed.

Lemma allocate_spec s : tinv s → allocated s (allocate_connection_id s).
Proof.
  intros Hs. unfold allocate_connection_id. apply (allocate_loop_spec _ _ 0); try done.
  - by destruct Hs.
  - cbn. rewrite Z.add_0_r. destruct Hs. symmetry. by apply Z.mod_small.
  - cbn. unfold compose. lia.
Qed.

Lemma allocate_steady : respects tinv steady allocate_connection_id.
Proof.
  intros s Hs. destruct (allocate_spec s Hs) as (Hi & Hst & Hr). unfold run_ok. split_and!; try done. by destruct (allocate_connection_id s).2.
Qed.

(** *** Methods of connections *)

(** [m] returns, and keeps to what a connection may change, its endpoint aside. *)
Definition stable {A} (m : meth (P:=P) (Q:=Q) (W:=W) A) (cs : ConnState (P:=P) (Q:=Q) (W:=W)) : Prop :=
  (m cs).2 ≠ Panic ∧ inv (m cs).1 ∧ evolves cs (m cs).1 ∧ qc_endpoint (cs_conn (m cs).1) = qc_endpoint (cs_conn cs).

Lemma quiet_stable {A} (m : meth A) cs : respects inv quiet m → inv cs → stable m cs.
Proof. intros Hm Hcs. destruct (Hm cs Hcs) as (? & ? & [[? _] ?]). by split_and!. Qed.

Lemma wrote_stable raw its (m : meth unit) cs : run_ok inv (wrote raw its) cs m cs → stable m cs.
Proof. intros (? & ? & (? & ? & _)). by split_and!. Qed.

Lemma tinv_conn s id c : tinv s → connections (ts_transport s) !! id = Some c → qc_id c = id ∧ conn_ok c ∧ 0 < id < u64_mod.
Proof. intros [Ht _] Hc. by apply (tb_conn _ _ _ Ht). Qed.

Lemma tinv_update s id c c' :
  tinv s → connections (ts_transport s) !! id = Some c → qc_id c' = qc_id c → conn_ok c' → qc_endpoint c' = qc_endpoint c →
  indexed (set_connections (<[id := c']> (connections (ts_transport s))) (ts_transport s)).
Proof.
  intros Hs Hc Hid Hok He. destruct (tinv_conn _ _ _ Hs Hc) as (Hid' & _ & _). destruct Hs as [Ht Hn]. split; [|done].
  eapply tables_update; [done|exact Hc|by rewrite Hid|done|by rewrite He].
Qed.

Lemma in_conn_ok {A} id c (m : meth A) s :
  tinv s → connections (ts_transport s) !! id = Some c →
  stable m {| cs_world := ts_world s; cs_conn := c; cs_events := pending_events (ts_transport s) |} →
  run_ok tinv polls s (in_conn id c m) s.
Proof.
  intros Hs Hc (Hp & Hi & He & Hend). unfold run_ok, in_conn. destruct (m _) as [cs r]. cbn in *.
  split_and!; [done|exact (tinv_update _ _ _ _ Hs Hc (ev_id _ _ He) Hi Hend)|]. split; [done|]. apply (ev_inbox _ _ He).
Qed.

Lemma in_conn_polled_ok {A} id c (m : meth A) s :
  tinv s → connections (ts_transport s) !! id = Some c →
  stable m {| cs_world := ts_world s; cs_conn := c; cs_events := ts_events s |} →
  run_ok tinv polls s (in_conn_polled id c m) s.
Proof.
  intros Hs Hc (Hp & Hi & He & Hend). unfold run_ok, in_conn_polled. destruct (m _) as [cs r]. cbn in *.
  split_and!; [done|exact (tinv_update _ _ _ _ Hs Hc (ev_id _ _ He) Hi Hend)|]. split; [done|]. apply (ev_inbox _ _ He).
Qed.

Lemma inv_of s id c evs : tinv s → connections (ts_transport s) !! id = Some c →
  inv {| cs_world := ts_world s; cs_conn := c; cs_events := evs |}.
Proof. intros Hs Hc. by apply (tinv_conn _ _ _ Hs Hc). Qed.

Lemma queue_event_ok e s0 s : tinv s → polls s0 s → run_ok tinv polls s0 (queue_event e) s.
Proof. intros Hs HR. by apply ok_updt. Qed.

Lemma open_stream_ok id : respects tinv polls (qt_open_stream id).
Proof.
  intros s Hs. apply find_conn_ok; [done..|]. intros c Hc. unfold run_ok, mbind, eff_bind.
  pose proof (in_conn_ok id c open_stream s Hs Hc (quiet_stable _ _ open_stream_quiet (inv_of _ _ _ _ Hs Hc))) as (Hp & Hi & HR).
  destruct (in_conn id c open_stream s) as [s' [st|e|]]; cbn in *; by split_and!.
Qed.

Lemma send_stream_ok id (st : Z) data : Z.of_nat (length data) < u64_mod → respects tinv polls (qt_send_stream id st data).
Proof.
  intros Hd s Hs. apply find_conn_ok; [done..|]. intros c Hc. tstep. apply in_conn_ok; [done..|].
  eapply wrote_stable, send_stream_wrote; [by eapply inv_of|done].
Qed.

Lemma close_stream_write_ok id (st : Z) : respects tinv polls (qt_close_stream_write id st).
Proof.
  intros s Hs. apply find_conn_ok; [done..|]. intros c Hc. tstep. apply in_conn_ok; [done..|].
  eapply wrote_stable, close_stream_write_wrote. by eapply inv_of.
Qed.

Lemma reset_stream_ok id (st : Z) : respects tinv polls (qt_reset_stream id st).
Proof.
  intros s Hs. apply find_conn_ok; [done..|]. intros c Hc. apply in_conn_ok; [done..|].
  apply quiet_stable; [apply reset_stream_quiet|by eapply inv_of].
Qed.

Lemma close_ok id : respects tinv polls (qt_close id).
Proof.
  intros s Hs. apply find_conn_ok; [done..|]. intros c Hc. tstep. apply in_conn_ok; [done..|].
  apply quiet_stable; [apply close_quiet|by eapply inv_of].
Qed.

(** *** Dialing, listening, verifying *)

Lemma extract_listen_no_panic (m : Multiaddr P) context : extract_listen_socket_addr m context ≠ Panic.
Proof.
  unfold extract_listen_socket_addr. apply bind_no_panic; [apply extract_host_no_panic|]. intros [host port] _.
  apply bind_no_panic; [by destruct host|done].
Qed.

Lemma lift_steady {A} (r : res TransportError A) : r ≠ Panic → respects tinv steady (lift r).
Proof. intros Hr s Hs. by split_and!. Qed.

Lemma qt_listen_ok (m : Multiaddr P) : respects tinv polls (listen m).
Proof.
  intros s Hs. unfold listen. apply ok_steady_bind; [apply lift_steady, extract_listen_no_panic|done..|].
  intros a s1 _ _ Hs1 HR1. apply ok_steady_bind; [apply local_addr_steady|done..|]. intros local s2 _ _ Hs2 HR2.
  apply ok_steady_bind; [|done..|].
  - apply lift_steady. unfold ensure_listen_matches_bound_socket. by case_decide.
  - intros [] s3 _ _ Hs3 HR3. tstep. by split_and!.
Qed.

(** A connection that has just been made. *)
Lemma insert_conn_ok s id (q : Q) addr e :
  tinv s → connections (ts_transport s) !! id = None → 0 < id < u64_mod →
  tables (<[id := conn_new id q addr e]> (connections (ts_transport s)))
    (<[source_cid_bytes (conn_new id q addr e) := id]> (cid_to_connection (ts_transport s)))
    (add_opt (endpoint_peer_id e) id (peer_connections (ts_transport s))).
Proof.
  intros [Ht Hn] Hfree Hr. apply tables_cid; [|by eexists; apply lookup_insert_eq].
  assert (peer_of (connections (ts_transport s)) id = None) as Hp by (unfold peer_of; by rewrite Hfree).
  pose proof (tables_repeer _ _ _ id (conn_new id q addr e) Ht eq_refl (map_Forall_empty _) Hr) as H.
  by rewrite Hp in H.
Qed.

Lemma dial_ok (addr : PeerAddr P) : respects tinv polls (dial addr).
Proof.
  intros s Hs. unfold dial. apply ok_steady_bind; [apply allocate_steady|done..|].
  intros id s1 E1 Hst1 Hs1 HR1.
  assert (connections (ts_transport s1) !! id = None ∧ 0 < id < u64_mod) as [Hfree Hr].
  { pose proof (allocate_spec s Hs) as (_ & _ & Hok). rewrite E1 in Hok. destruct Hst1 as (_ & Hc & _). by rewrite Hc. }
  apply ok_steady_bind; [apply in_world_steady, resolve_addr_ok|done..|]. intros peer_socket s2 _ Hst2 Hs2 HR2.
  apply ok_steady_bind; [apply local_addr_steady|done..|]. intros local s3 _ Hst3 Hs3 HR3.
  apply ok_steady_bind; [apply generate_scid_steady|done..|]. intros scid s4 _ Hst4 Hs4 HR4.
  apply ok_steady_bind; [apply make_conn_steady|done..|]. intros q s5 _ Hst5 Hs5 HR5. tstep.
  apply ok_steady_bind; [apply in_world_steady, send_all_ok; lia|done..|]. intros q' s6 _ Hst6 Hs6 HR6.
  assert (steady s1 s6) as (_ & Hc6 & _) by (do 4 (etrans; [done|]); done). rewrite <- Hc6 in Hfree.
  tstep. tstep. tstep. tstep; [|done]. split; [|apply Hs6].
  exact (insert_conn_ok s6 id q' peer_socket (from_peer_addr addr) Hs6 Hfree Hr).
Qed.

(** The identity of a connection changes. *)
Lemma repeer_ok s id c p :
  tinv s → connections (ts_transport s) !! id = Some c →
  tables (<[id := conn_set_peer_id p c]> (connections (ts_transport s))) (cid_to_connection (ts_transport s))
    (add_peer p id (del_opt (endpoint_peer_id (qc_endpoint c)) id (peer_connections (ts_transport s)))).
Proof.
  intros Hs Hc. destruct (tinv_conn _ _ _ Hs Hc) as (Hid & Hok & Hr). destruct Hs as [Ht _].
  pose proof (tables_repeer _ _ _ id (conn_set_peer_id p c) Ht Hid Hok Hr) as H.
  unfold peer_of in H. by rewrite Hc in H.
Qed.

Lemma remove_eq o id t :
  match o with Some p => remove_peer_connection p id t | None => t end =
  set_peers (del_opt o id (peer_connections t)) t.
Proof.
  destruct t as [so cfg conns cids peers evs la nx lp]. unfold remove_peer_connection, del_opt, del_peer. cbn.
  destruct o as [p|]; [|done]. destruct (peers !! p); [|done]. cbv zeta. by repeat case_decide.
Qed.

Lemma verify_connection_ok id p : respects tinv polls (verify_connection_peer_id id p).
Proof.
  intros s Hs. unfold verify_connection_peer_id. apply find_conn_ok; [done..|]. intros c Hc. cbv zeta.
  case_decide; [by tstep|]. tstep. tstep. rewrite remove_eq. tstep. apply ok_updt; [|done].
  split; [|apply Hs]. exact (repeer_ok s id c p Hs Hc).
Qed.

(** *** What a dial does *)

(** Either nothing but the counter and the configuration has changed, or there is a
    connection under a new identifier. *)
Definition dialed (addr : PeerAddr P) s (x : TState (P:=P) (Q:=Q) (Cfg:=Cfg) (W:=W) (Sock:=Sock) * res TransportError Z) : Prop :=
  match x.2 with
  | Ok id =>
      connections (ts_transport s) !! id = None ∧ 0 < id < u64_mod ∧
      ∃ q sock, connections (ts_transport x.1) =
        <[id := conn_new id q sock (from_peer_addr addr)]> (connections (ts_transport s))
  | Err _ => connections (ts_transport x.1) = connections (ts_transport s)
  | Panic => False
  end.

Lemma dialed_bind {A} addr s (m : tmeth A) (k : A → tmeth Z) s1 :
  respects tinv steady m → tinv s1 → steady s s1 →
  (∀ a s', m s1 = (s', Ok a) → tinv s' → steady s s' → dialed addr s (k a s')) → dialed addr s ((m ≫= k) s1).
Proof.
  intros Hm Hs1 Hst Hok. destruct (Hm s1 Hs1) as (Hp & Hi & HR). unfold mbind, eff_bind.
  destruct (m s1) as [s' [a|e|]] eqn:E; cbn in *; [apply Hok; [done..|]; by etrans| |done].
  assert (steady s s') as (_ & Hc & _) by (by etrans). exact Hc.
Qed.

Lemma dial_spec (addr : PeerAddr P) s : tinv s → dialed addr s (dial addr s).
Proof.
  intros Hs. unfold dial. apply dialed_bind; [apply allocate_steady|done..|]. intros id s1 E1 Hs1 Hst1.
  assert (connections (ts_transport s) !! id = None ∧ 0 < id < u64_mod) as [Hfree Hr].
  { pose proof (allocate_spec s Hs) as (_ & _ & Hok). by rewrite E1 in Hok. }
  apply dialed_bind; [apply in_world_steady, resolve_addr_ok|done..|]. intros peer_socket s2 _ Hs2 Hst2.
  apply dialed_bind; [apply local_addr_steady|done..|]. intros local s3 _ Hs3 Hst3.
  apply dialed_bind; [apply generate_scid_steady|done..|]. intros scid s4 _ Hs4 Hst4.
  apply dialed_bind; [apply make_conn_steady|done..|]. intros q s5 _ Hs5 Hst5.
  change ((gett ?f ≫= ?k) s5) with (k (f (ts_transport s5)) s5). cbv beta.
  apply dialed_bind; [apply in_world_steady, send_all_ok; lia|done..|]. intros q' s6 _ Hs6 (_ & Hc6 & _).
  split; [done|]. split; [done|]. exists q', peer_socket. rewrite <- Hc6. reflexivity.
Qed.

Lemma elem_of_ids_for_peer t p id : id ∈ connection_ids_for_peer t p ↔ listed (peer_connections t) p id.
Proof.
  unfold connection_ids_for_peer, listed. destruct (_ !! _) as [ids|]; cbn; [|set_solver].
  by rewrite merge_sort_Permutation, elem_of_elements.
Qed.

(** Dialing files a new connection under a fresh identifier: if it succeeds, the
    identifier was not in use and is not 0, the connection is in [Connecting] state with
    the address and the expected peer, it is listed for that peer, and every other
    connection is as it was; if it fails, no connection has been added or changed. *)
Theorem quic_dial (addr : PeerAddr P) s :
  tinv s →
  match dial addr s with
  | (s', Ok id) =>
      connections (ts_transport s) !! id = None ∧ id ≠ 0 ∧
      (∃ c, connections (ts_transport s') !! id = Some c ∧ qc_state c = Connecting ∧ qc_endpoint c = from_peer_addr addr) ∧
      id ∈ connection_ids_for_peer (ts_transport s') (pa_peer_id addr) ∧
      (∀ id', id' ≠ id → connections (ts_transport s') !! id' = connections (ts_transport s) !! id')
  | (s', Err _) => connections (ts_transport s') = connections (ts_transport s)
  | (_, Panic) => False
  end.
Proof.
  intros Hs. pose proof (dial_spec addr s Hs) as H. destruct (dial_ok addr s Hs) as (_ & [[_ _ T3 _] _] & _).
  unfold dialed in H. destruct (dial addr s) as [s' [id|e|]]; cbn in *; [|done..].
  destruct H as (Hfree & Hr & q & sock & Hc). split_and!; [done|lia|..].
  - eexists. split; [by rewrite Hc, lookup_insert_eq|]. done.
  - rewrite elem_of_ids_for_peer, T3. unfold peer_of. rewrite Hc, lookup_insert_eq. done.
  - intros id' Hne. by rewrite Hc, lookup_insert_ne.
Qed.

(** *** Polling *)

Lemma collect_ok e s0 s : tinv s → polls s0 s → run_ok tinv polls s0 (collect e) s.
Proof. intros Hs HR. by apply ok_modify. Qed.

Lemma accept_ok from local : respects tinv polls (accept_connection from local).
Proof.
  intros s Hs. unfold accept_connection.
  apply ok_steady_bind; [apply generate_scid_steady|done..|]. intros scid s1 _ Hst1 Hs1 HR1.
  apply ok_steady_bind; [apply make_conn_steady|done..|]. intros q s2 _ Hst2 Hs2 HR2. tstep.
  apply ok_steady_bind; [apply in_world_steady, send_all_ok; lia|done..|]. intros q' s3 _ Hst3 Hs3 HR3.
  apply ok_steady_bind; [apply allocate_steady|done..|]. intros id s4 E4 Hst4 Hs4 HR4.
  assert (connections (ts_transport s4) !! id = None ∧ 0 < id < u64_mod) as [Hfree Hr].
  { pose proof (allocate_spec s3 Hs3) as (_ & _ & Hok). rewrite E4 in Hok. destruct Hst4 as (_ & Hc & _). by rewrite Hc. }
  tstep. tstep. rewrite Hfree. tstep.
  tstep.
  tstep; [|done]. split; [|apply Hs4]. exact (insert_conn_ok s4 id q' from (endpoint_new (socket_addr_to_multiaddr from)) Hs4 Hfree Hr).
Qed.

Lemma route_ok packet from local : respects tinv polls (route_packet packet from local).
Proof.
  intros s Hs. unfold route_packet. cbv zeta. tstep. case_match; [by tstep|]. case_match.
  - apply ok_call_bind; [apply _|apply accept_ok|done..|]. intros id s' _ Hs' _ HR'. by tstep.
  - apply ok_steady_bind; [|done..|].
    + apply in_world_steady, world_state. intros. apply inbox_hash.
    + intros conns s' _ _ Hs' HR'. by tstep.
Qed.

(** The state after a method of connection [id] in [poll]. *)
Definition polled id (cs : ConnState (P:=P) (Q:=Q) (W:=W)) s : TState :=
  {| ts_world := cs_world cs;
     ts_transport := set_connections (<[id := cs_conn cs]> (connections (ts_transport s))) (ts_transport s);
     ts_events := cs_events cs |}.

Lemma in_conn_polled_bind {A B} id c (m : meth A) (k : A → tmeth B) s0 s :
  let x := m {| cs_world := ts_world s; cs_conn := c; cs_events := ts_events s |} in
  x.2 ≠ Panic → (∀ e, x.2 = Err e → tinv (polled id x.1 s) ∧ polls s0 (polled id x.1 s)) →
  (∀ a, x.2 = Ok a → run_ok tinv polls s0 (k a) (polled id x.1 s)) →
  run_ok tinv polls s0 (in_conn_polled id c m ≫= k) s.
Proof.
  intros x Hp He Hok. unfold run_ok, mbind, eff_bind, in_conn_polled. fold x. clearbody x.
  destruct x as [cs [a|e|]]; cbn in *; [by apply Hok| |done]. by destruct (He e eq_refl).
Qed.

Context (verify_returns : ∀ der, verify_certificate (P:=P) der ≠ Panic).

Lemma deliver_ok id packet from local : respects tinv polls (deliver_packet id packet from local).
Proof.
  intros s Hs. unfold deliver_packet. tstep. destruct (connections (ts_transport s) !! id) as [c|] eqn:Hc; [|by tstep].
  cbv zeta. tstep. set (socket := qt_socket _). destruct (tinv_conn _ _ _ Hs Hc) as (Hid & _ & Hr).
  pose proof (recv_packet_cases verify_returns packet from local socket _ (inv_of _ _ _ (ts_events s) Hs Hc)) as (Hp & Hi & [He _] & Hend).
  apply in_conn_polled_bind; [done| |].
  - intros e Hr'. split; [|split; [done|apply (ev_inbox _ _ He)]].
    exact (tinv_update _ _ _ _ Hs Hc (ev_id _ _ He) Hi (Hend ltac:(by rewrite Hr'))).
  - intros [] _. set (cs := (recv_packet _ _ _ _ _).1) in *. clearbody cs. set (s1 := polled id cs s).
    assert (polls s s1) as HR1 by (split; [done|apply (ev_inbox _ _ He)]). pose proof (ev_id _ _ He) as Hid'. cbn in Hid'.
    tstep. rewrite (lookup_insert_eq _ id (cs_conn cs) : connections (ts_transport s1) !! id = _). cbn [default from_option Datatypes.id].
    tstep. destruct Hs as [Ht Hn]. case_decide as Hsame.
    + tstep; [|done]. split; [|done]. apply tables_cid; [|by eexists; apply lookup_insert_eq].
      eapply tables_update; [done|exact Hc|congruence|done..].
    + tstep. rewrite remove_eq. tstep. apply collect_ok.
      * assert (∀ t o, match o with Some p => index_peer_connection p id t | None => t end =
          set_peers (add_opt o id (peer_connections t)) t) as -> by (by intros [] []).
        split; [|done]. cbn. apply tables_cid; [|by eexists; apply lookup_insert_eq].
        pose proof (tables_repeer _ _ _ id (cs_conn cs) Ht ltac:(congruence) Hi Hr) as H.
        unfold peer_of in H. by rewrite Hc in H.
      * destruct (endpoint_peer_id (qc_endpoint (cs_conn cs))); exact HR1.
Qed.

Lemma recv_loop_ok fuel s0 s :
  tinv s → polls s0 s → (inbox (ts_world s) (qt_socket (ts_transport s)) < fuel)%nat → run_ok tinv polls s0 (recv_loop fuel) s.
Proof.
  revert s. induction fuel as [|fuel IH]; intros s Hs HR Hf; [lia|]. cbn [recv_loop]. tstep.
  set (socket := qt_socket (ts_transport s)) in *.
  destruct (recv_from (ts_world s) socket RECV_BUF_SIZE) as [w r] eqn:Er.
  assert (∀ B (k : _ → tmeth B), run_ok tinv polls s0 (k r) {| ts_world := w; ts_transport := ts_transport s; ts_events := ts_events s |} →
    run_ok tinv polls s0 (in_world (state (λ w, recv_from w socket RECV_BUF_SIZE)) ≫= k) s) as Hworld.
  { intros B k Hk. unfold run_ok, mbind, eff_bind, in_world, zoom, state in *. by rewrite Er. }
  apply Hworld. clear Hworld. set (s1 := Build_TState _ _ _).
  assert (polls s s1) as HR01.
  { split; [done|]. intros k. pose proof (inbox_recv_any (ts_world s) k socket RECV_BUF_SIZE) as Hb. by rewrite Er in Hb. }
  assert (polls s0 s1) as HR1 by (by etrans). assert (tinv s1) as Hs1 by done.
  destruct r as [[e|e]|[packet from]]; [by tstep..|].
  assert (inbox (ts_world s1) socket < fuel)%nat as Hf1 by (apply inbox_recv in Er; cbn; lia).
  apply ok_steady_bind; [apply local_addr_steady|done..|]. intros local s2 _ [HR12 _] Hs2 HR2.
  apply ok_call_bind; [apply _|apply route_ok|done..|]. intros target s3 _ Hs3 HR23 HR3.
  assert (respects tinv polls (match target with Some id => deliver_packet id packet from local | None => mret () end)) as Hd.
  { destruct target; [apply deliver_ok|]. intros s' Hs'. by tstep. }
  apply ok_call_bind; [apply _|done..|]. intros [] s4 _ Hs4 HR34 HR4.
  apply IH; [done..|]. assert (polls s1 s4) as [Hsock Hbox] by (etrans; [done|]; by etrans).
  rewrite Hsock. specialize (Hbox socket). cbn [ts_transport s1]. fold socket. lia.
Qed.

Lemma in_conn_polled_eq {A B} id c (m : meth A) (k : A → tmeth B) s :
  (in_conn_polled id c m ≫= k) s =
  match m {| cs_world := ts_world s; cs_conn := c; cs_events := ts_events s |} with
  | (cs, Ok a) => k a (polled id cs s)
  | (cs, Err e) => (polled id cs s, Err e)
  | (cs, Panic) => (polled id cs s, Panic)
  end.
Proof. unfold mbind, eff_bind, in_conn_polled. by destruct (m _) as [cs [| |]]. Qed.

(** The connections stay, so the updates of connection ids are for live ones. *)
Lemma poll_connections_ok ids us rs s :
  tinv s → Forall (λ u, is_Some (connections (ts_transport s) !! u.2)) us →
  let x := poll_connections ids us rs s in
  x.2 ≠ Panic ∧ tinv x.1 ∧ polls s x.1 ∧
  ∀ us' rs', x.2 = Ok (us', rs') → Forall (λ u, is_Some (connections (ts_transport x.1) !! u.2)) us'.
Proof.
  revert us rs s. induction ids as [|id ids IH]; intros us rs s Hs Hus; cbn [poll_connections].
  { cbn. split_and!; try done. by intros us' rs' [= <- <-]. }
  change ((gett ?f ≫= ?k) s) with (k (f (ts_transport s)) s). cbv beta.
  destruct (connections (ts_transport s) !! id) as [c|] eqn:Hc; [|by apply IH].
  change ((gett ?f ≫= ?k) s) with (k (f (ts_transport s)) s). cbv beta. rewrite in_conn_polled_eq.
  set (socket := qt_socket _).
  pose proof (quiet_stable _ _ (poll_streams_quiet socket) (inv_of _ _ _ (ts_events s) Hs Hc)) as (Hp & Hi & He & Hend).
  destruct (poll_streams socket _) as [cs r]. cbn [fst snd cs_conn] in *. set (s1 := polled id cs s).
  assert (tinv s1) as Hs1 by exact (tinv_update _ _ _ _ Hs Hc (ev_id _ _ He) Hi Hend).
  assert (polls s s1) as HR1 by (split; [done|apply (ev_inbox _ _ He)]).
  destruct r as [[]|e|]; [|by cbn; split_and!|done].
  change ((gett ?f ≫= ?k) s1) with (k (f (ts_transport s1)) s1). cbv beta.
  assert (connections (ts_transport s1) !! id = Some (cs_conn cs)) as Hc1 by apply lookup_insert_eq. rewrite Hc1.
  cbn [default from_option Datatypes.id].
  destruct (IH (us ++ [(source_cid_bytes (cs_conn cs), id)]) (if is_closed (cs_conn cs) then rs ++ [id] else rs) s1 Hs1)
    as (IH1 & IH2 & IH3 & IH4).
  { apply Forall_app. split; [|by repeat constructor].
    eapply Forall_impl; [exact Hus|]. intros u Hu. apply lookup_insert_is_Some'. by right. }
  split_and!; [done..|by etrans|done].
Qed.

Lemma remove_closed_ok id : respects tinv polls (remove_closed id).
Proof.
  intros s Hs. unfold remove_closed. tstep. destruct (connections (ts_transport s) !! id) as [c|] eqn:Hc; cycle 1.
  { tstep. by apply collect_ok. }
  assert (unindex_connection id (endpoint_peer_id (qc_endpoint c)) (set_connections (delete id (connections (ts_transport s))) (ts_transport s))
    = set_peers (del_opt (endpoint_peer_id (qc_endpoint c)) id (peer_connections (ts_transport s)))
        (set_cids (filter (λ '(_, mapped), mapped ≠ id) (cid_to_connection (ts_transport s)))
          (set_connections (delete id (connections (ts_transport s))) (ts_transport s)))) as Heq.
  { unfold unindex_connection. cbv zeta. by rewrite remove_eq. }
  match goal with |- run_ok _ _ _ ((_ ≫= _) ≫= ?k) _ => change (run_ok tinv polls s (k ())
    (with_transport (unindex_connection id (endpoint_peer_id (qc_endpoint c)) (set_connections (delete id (connections (ts_transport s))) (ts_transport s))) s)) end.
  rewrite Heq. apply collect_ok; [|done]. split; [|apply Hs]. cbn. destruct Hs as [Ht _].
  pose proof (tables_remove _ _ _ id Ht) as H. unfold peer_of in H. by rewrite Hc in H.
Qed.

Lemma qt_poll_ok : respects tinv polls poll.
Proof.
  intros s Hs. unfold poll. apply ok_modify_bind. set (s1 := Build_TState _ _ _).
  assert (tinv s1) as Hs1 by done. assert (polls s s1) as HR1 by done. tstep.
  apply ok_bind; [apply recv_loop_ok; [done..|lia]|]. intros [] s2 _ Hs2 HR2. tstep.
  apply ok_steady_bind; [|done..|].
  { apply in_world_steady, world_state. intros. apply inbox_hash. }
  intros ids s3 _ _ Hs3 HR3. destruct (poll_connections_ok ids [] [] s3 Hs3) as (Hp & Hi & HR & Hus); [constructor|].
  apply ok_bind; [by unfold run_ok; split_and!; [..|etrans]|]. intros [us rs] s4 E4 Hs4 HR4.
  rewrite E4 in Hus. specialize (Hus us rs eq_refl). cbn in Hus.
  apply ok_bind.
  - clear E4 Hp Hi HR. revert s4 Hs4 HR4 Hus. induction us as [|[cid id] us IH]; intros s4 Hs4 HR4 Hus; cbn [for_each]; [by tstep|].
    apply Forall_cons in Hus as [Hid Hus]. tstep. apply IH; [|done..].
    split; [|apply Hs4]. by apply tables_cid; [apply Hs4|].
  - intros [] s5 _ Hs5 HR5. apply ok_call_bind; [apply _|apply respects_for_each; [apply _|apply remove_closed_ok]|done..|].
    intros [] s6 _ Hs6 _ HR6. by split_and!.
Qed.

(** ** Sequences of calls *)

Inductive TransportCall : Type :=
  | TcDial (addr : PeerAddr P)
  | TcListen (addr : Multiaddr P)
  | TcOpenStream (id : Z)
  | TcSendStream (id stream_id : Z) (data : list byte)
  | TcCloseStreamWrite (id stream_id : Z)
  | TcResetStream (id stream_id : Z)
  | TcClose (id : Z)
  | TcVerifyPeer (id : Z) (peer : P)
  | TcPoll.

(** The methods, for their effect. *)
Definition do_transport (call : TransportCall) : tmeth (P:=P) (Q:=Q) (Cfg:=Cfg) (W:=W) (Sock:=Sock) unit :=
  match call with
  | TcDial addr => _ ← dial addr; mret ()
  | TcListen addr => _ ← listen addr; mret ()
  | TcOpenStream id => _ ← qt_open_stream id; mret ()
  | TcSendStream id st data => qt_send_stream id st data
  | TcCloseStreamWrite id st => qt_close_stream_write id st
  | TcResetStream id st => qt_reset_stream id st
  | TcClose id => qt_close id
  | TcVerifyPeer id p => verify_connection_peer_id id p
  | TcPoll => _ ← poll; mret ()
  end.

Definition tcall_ok (call : TransportCall) : Prop :=
  match call with TcSendStream _ _ data => Z.of_nat (length data) < u64_mod | _ => True end.

Fixpoint run_transport (calls : list TransportCall) s : TState (P:=P) (Q:=Q) (Cfg:=Cfg) (W:=W) (Sock:=Sock) :=
  match calls with [] => s | call :: calls => run_transport calls (do_transport call s).1 end.

Lemma do_transport_ok call : tcall_ok call → respects tinv polls (do_transport call).
Proof.
  assert (∀ A (m : tmeth A), respects tinv polls m → respects tinv polls (m ≫= λ _, mret ())) as Hret.
  { intros A m Hm. apply respects_bind; [apply _|done|]. intros a s Hs. by tstep. }
  destruct call; intros Hok; cbn [do_transport].
  - apply Hret, dial_ok.
  - apply Hret, qt_listen_ok.
  - apply Hret, open_stream_ok.
  - by apply send_stream_ok.
  - apply close_stream_write_ok.
  - apply reset_stream_ok.
  - apply close_ok.
  - apply verify_connection_ok.
  - apply Hret, qt_poll_ok.
Qed.

Lemma run_transport_ok calls s : Forall tcall_ok calls → tinv s → tinv (run_transport calls s).
Proof.
  intros Hcalls. revert s. induction Hcalls as [|call calls Hcall _ IH]; intros s Hs; [done|].
  apply IH. by apply (do_transport_ok call Hcall s Hs).
Qed.

Lemma tinv_new socket cfg peer w evs :
  tinv {| ts_world := w; ts_transport := transport_new socket cfg peer; ts_events := evs |}.
Proof.
  by split; [split|].
Qed.

(** ** Properties *)

(** C8. The tables of the transport agree, whatever is called in whatever order and
    whatever fails: a connection knows the identifier it is filed under, which is never
    0; the connection ids of packets lead to connections that exist; the identifiers
    listed for a peer are exactly those of the connections whose endpoint carries that
    peer, no peer is listed without connections; and no call unwinds. *)
Theorem quic_tables socket cfg peer w calls :
  Forall tcall_ok calls →
  let s := run_transport calls {| ts_world := w; ts_transport := transport_new socket cfg peer; ts_events := [] |} in
  let t := ts_transport s in
  (∀ id c, connections t !! id = Some c → qc_id c = id ∧ 0 < id < u64_mod) ∧
  (∀ cid id, cid_to_connection t !! cid = Some id → is_Some (connections t !! id)) ∧
  (∀ p id, id ∈ connection_ids_for_peer t p ↔
     ∃ c, connections t !! id = Some c ∧ endpoint_peer_id (qc_endpoint c) = Some p) ∧
  (∀ p, is_Some (peer_connections t !! p) → connection_ids_for_peer t p ≠ []) ∧
  (∀ call, tcall_ok call → (do_transport call s).2 ≠ Panic).
Proof.
  intros Hcalls s t. assert (tinv s) as Hs by (apply run_transport_ok; [done|apply tinv_new]).
  pose proof Hs as [[T1 T2 T3 T4] _]. subst t. split_and!.
  - intros id c Hc. destruct (T1 id c Hc) as (? & _ & ?). done.
  - exact T2.
  - intros p id. rewrite elem_of_ids_for_peer, T3. unfold peer_of. rewrite bind_Some. done.
  - intros p [ids Hp]. unfold connection_ids_for_peer. rewrite Hp. specialize (T4 p ids Hp). cbn in T4.
    intros Hn. apply T4, set_eq. intros x. rewrite <- elem_of_elements, <- (merge_sort_Permutation Z.le), Hn. set_solver.
  - intros call Hcall. by apply (do_transport_ok call Hcall s Hs).
Qed.

End indexes.

(** ** A concrete instance *)

#[export] Instance ToyQuicheEndpoint : QuicheEndpoint ToyQ unit := {
  q_connect cfg _ _ _ := (cfg, inr (toy_q (Some alice)));
  q_accept cfg _ _ _ := (cfg, inr {|
    tq_server := true; tq_established := false; tq_closed := false; tq_cert := Some (as_bytes "bob");
    tq_log := []; tq_stopped := []; tq_in := []; tq_out := 1 |});
  q_header packet := match packet with x49 :: _ => Some (Initial, []) | _ => None end;
}.

Definition toy_peer_addr (p : ToyPeer) : PeerAddr ToyPeer :=
  {| pa_transport := transport (toy_endpoint None); pa_peer_id := p |}.
Definition bob_addr : SocketAddr := {| sa_ip := V4 [x7f; x00; x00; x01]; sa_port := 4002 |}.

Definition toy_transport : TState (P:=ToyPeer) (Q:=ToyQ) (Cfg:=unit) (W:=ToyW) (Sock:=unit) :=
  {| ts_world := {| tw_inbox := []; tw_sends := [] |}; ts_transport := transport_new () () "me"%string; ts_events := [] |}.

(** New datagrams arrive. *)
Definition arrive (ds : list (list byte * SocketAddr)) (s : TState (P:=ToyPeer) (Q:=ToyQ) (Cfg:=unit) (W:=ToyW) (Sock:=unit))
    : TState (P:=ToyPeer) (Q:=ToyQ) (Cfg:=unit) (W:=ToyW) (Sock:=unit) :=
  {| ts_world := {| tw_inbox := tw_inbox (ts_world s) ++ ds; tw_sends := tw_sends (ts_world s) |};
     ts_transport := ts_transport s; ts_events := ts_events s |}.

Lemma quic_tables_witness :
  let calls := [TcDial (toy_peer_addr "alice"%string); TcPoll] in
  let s := run_transport calls toy_transport in
  1 ∈ connection_ids_for_peer (ts_transport s) "alice"%string.
Proof.
  intros calls s.
  destruct (quic_tables (Q:=ToyQ) toy_verifier_returns () () "me"%string {| tw_inbox := []; tw_sends := [] |} calls) as (_ & _ & H & _);
    [repeat constructor|].
  apply H. eexists. split; reflexivity.
Defined.

Lemma quic_dial_witness :
  match dial (toy_peer_addr "alice"%string) toy_transport with
  | (s', Ok id) => id = 1 ∧ id ∈ connection_ids_for_peer (ts_transport s') "alice"%string
  | _ => False
  end.
Proof.
  pose proof (quic_dial (toy_peer_addr "alice"%string) toy_transport (tinv_new (Q:=ToyQ) () () "me"%string {| tw_inbox := []; tw_sends := [] |} [])) as H.
  assert ((dial (toy_peer_addr "alice"%string) toy_transport).2 = Ok 1) as E by reflexivity.
  destruct (dial (toy_peer_addr "alice"%string) toy_transport) as [s' r]. cbn in E. subst r.
  destruct H as (_ & _ & _ & H & _). split; [reflexivity|exact H].
Defined.

(** One refused stream stops the whole transport.  Alice, whom this node dialed, refuses
    a stream this node has written to: from then on every [poll] fails, and what Bob
    sends on his own connection is read from the socket and dropped. *)
Definition alice_refuses : TState (P:=ToyPeer) (Q:=ToyQ) (Cfg:=unit) (W:=ToyW) (Sock:=unit) :=
  let s := run_transport [TcListen (transport (toy_endpoint None)); TcDial (toy_peer_addr "alice"%string); TcPoll] toy_transport in
  let s := run_transport [TcPoll; TcOpenStream 1] (arrive [([x01], toy_addr); ([x49], bob_addr)] s) in
  let s := run_transport [TcPoll] (arrive [([x53; x00], toy_addr)] s) in
  run_transport [TcSendStream 1 0 [x61]] s.

Example refused_stream_stops_transport :
  let s := arrive [([x44; x00; x68], bob_addr)] alice_refuses in
  let err := Err (StreamSendFailed 1 0 "stream_send error: StreamStopped(0)") in
  (poll s).2 = err ∧ tw_inbox (ts_world (poll s).1) = [] ∧
  (poll (poll s).1).2 = err ∧ (poll (poll (poll s).1).1).2 = err ∧
  pending_events (ts_transport (poll (poll s).1).1) = [].
Proof. split_and!; vm_compute; reflexivity. Qed.
