(* ===== verification/QuicEndpoint.v ===== *)
(** * Dual-stack QUIC and the QUIC endpoint ([transports/quic/src/lib.rs],
      [DualQuicTransport], [QuicEndpoint])

    A pair of transports, one per address family, whose connection identifiers are
    interleaved, and the endpoint that is one transport or such a pair. *)
From S2P Require Import Prelude NetAddr Effects Multibase PeerId Keys Tls Multiaddr PeerAddr IdentifyMessage SwarmEvents Transport QuicConnection QuicGuarantees QuicTransport QuicIndexes.
From Stdlib Require Import ZArith Strings.Byte Strings.String.
From stdpp Require Import base numbers list gmap strings.

#[local] Open Scope Z_scope.

(** ** Address families *)

Inductive AddressFamily : Type := Ipv4 | Ipv6.
#[export] Instance AddressFamily_eq_dec : EqDecision AddressFamily.
Proof. solve_decision. Defined.

Definition family_name (f : AddressFamily) : string := match f with Ipv4 => "ipv4" | Ipv6 => "ipv6" end.

Definition family_for_socket_addr (addr : SocketAddr) : AddressFamily := if is_ipv6 addr then Ipv6 else Ipv4.

(** [u64::saturating_mul]. *)
Definition saturating_mul (a b : Z) : Z := Z.min (u64_mod - 1) (a * b).

Definition external_id (f : AddressFamily) (raw : Z) : Z :=
  match f with
  | Ipv4 => saturating_sub (saturating_mul raw 2) 1
  | Ipv6 => saturating_mul raw 2
  end.
Definition internal_id (raw : Z) : AddressFamily * Z :=
  if raw mod 2 =? 0 then (Ipv6, raw / 2) else (Ipv4, (raw + 1) / 2).

Section endpoint.
Context {P : Type} `{PidEq : EqDecision P} `{PidCount : !Countable P} `{PD : !Display P} `{CV : !CertVerifier P}.
Context {Q : Type} `{QA : !Quiche Q} {Cfg : Type} `{QE : !QuicheEndpoint Q Cfg}.
Context {W Sock : Type} `{WA : !World W Sock}.

Definition map_event (f : AddressFamily) (event : TransportEvent (P:=P)) : TransportEvent :=
  let map := external_id f in
  match event with
  | TConnected id e => TConnected (map id) e
  | TStreamOpened id st => TStreamOpened (map id) st
  | TIncomingStream id st => TIncomingStream (map id) st
  | TStreamData id st data => TStreamData (map id) st data
  | TStreamRemoteWriteClosed id st => TStreamRemoteWriteClosed (map id) st
  | TStreamClosed id st => TStreamClosed (map id) st
  | TClosed id => TClosed (map id)
  | TError id message => TError (map id) message
  | TIncomingConnection id e => TIncomingConnection (map id) e
  | TPeerIdentityVerified id e previous => TPeerIdentityVerified (map id) e previous
  | TListening addr => TListening addr
  end.

Definition family_for_addr (addr : Multiaddr P) : AddressFamily :=
  match head (Multiaddr.protocols addr) with Some (Ip6 _ | Dns6 _) => Ipv6 | _ => Ipv4 end.

(** The address of a peer by a resolved socket address. *)
Definition resolved_peer_addr (socket_addr : SocketAddr) (peer : P) : res TransportError (PeerAddr P) :=
  map_err (λ e, InvalidAddress "dial target" ("resolved address was not a peer addr: " ++ to_string e))
    (pa_new (socket_addr_to_multiaddr socket_addr) peer).

Definition no_target (f : AddressFamily) : TransportError :=
  InvalidAddress "dial target" ("no " ++ family_name f ++ " target resolved").

Definition peer_addr_for_family (addr : PeerAddr P) (f : AddressFamily) : eff W TransportError (PeerAddr P) :=
  socket_addrs ← resolve_dial_socket_addrs (pa_transport addr) "dial target";
  match List.find (λ a, bool_decide (family_for_socket_addr a = f)) socket_addrs with
  | None => throw (no_target f)
  | Some socket_addr => lift (resolved_peer_addr socket_addr (pa_peer_id addr))
  end.

(** ** The dual-stack transport *)

(** The system is shared by the two transports. *)
Record DualState : Type := {
  ds_world : W;
  ds_ipv4 : QuicTransport (P:=P) (Q:=Q) (Cfg:=Cfg) (Sock:=Sock);
  ds_ipv6 : QuicTransport (P:=P) (Q:=Q) (Cfg:=Cfg) (Sock:=Sock);
}.
Definition dmeth (A : Type) : Type := eff DualState TransportError A.

Definition family_transport (f : AddressFamily) (s : DualState) : QuicTransport :=
  match f with Ipv4 => ds_ipv4 s | Ipv6 => ds_ipv6 s end.
Definition family_state (f : AddressFamily) (s : DualState) : TState :=
  {| ts_world := ds_world s; ts_transport := family_transport f s; ts_events := [] |}.
Definition put_family (f : AddressFamily) (t : TState) (s : DualState) : DualState :=
  match f with
  | Ipv4 => {| ds_world := ts_world t; ds_ipv4 := ts_transport t; ds_ipv6 := ds_ipv6 s |}
  | Ipv6 => {| ds_world := ts_world t; ds_ipv4 := ds_ipv4 s; ds_ipv6 := ts_transport t |}
  end.
(** [self.transport_mut(family).method(..)] *)
Definition on_family {A} (f : AddressFamily) (m : tmeth (P:=P) (Q:=Q) (Cfg:=Cfg) (W:=W) (Sock:=Sock) A) : dmeth A := zoom (family_state f) (put_family f) m.
Definition in_dual_world {A} (m : eff W TransportError A) : dmeth A :=
  zoom ds_world (λ w s, {| ds_world := w; ds_ipv4 := ds_ipv4 s; ds_ipv6 := ds_ipv6 s |}) m.

(** The first address of each family, in the order of resolution. *)
Fixpoint family_targets (peer : P) (seen : list AddressFamily) (addrs : list SocketAddr)
    : res TransportError (list (AddressFamily * PeerAddr P)) :=
  match addrs with
  | [] => Ok []
  | a :: addrs =>
      let f := family_for_socket_addr a in
      if bool_decide (f ∈ seen) then family_targets peer seen addrs
      else
        addr ← resolved_peer_addr a peer;
        targets ← family_targets peer (f :: seen) addrs;
        Ok ((f, addr) :: targets)
  end.
Definition dial_targets (addr : PeerAddr P) : dmeth (list (AddressFamily * PeerAddr P)) :=
  socket_addrs ← in_dual_world (resolve_dial_socket_addrs (pa_transport addr) "dial target");
  lift (family_targets (pa_peer_id addr) [] socket_addrs).

Definition no_usable_target : TransportError :=
  InvalidAddress "dial target" "no usable ipv4 or ipv6 dial target".

(** The loop of [dial_all]: the identifiers, and the last error. *)
Fixpoint dial_each (targets : list (AddressFamily * PeerAddr P)) (ids : list Z) (last_err : option TransportError)
    : dmeth (list Z * option TransportError) :=
  match targets with
  | [] => mret (ids, last_err)
  | (f, addr) :: targets => λ s,
      match on_family f (dial addr) s with
      | (s, Ok id) => dial_each targets (ids ++ [external_id f id]) last_err s
      | (s, Err e) => dial_each targets ids (Some e) s
      | (s, Panic) => (s, Panic)
      end
  end.
Definition dial_all (addr : PeerAddr P) : dmeth (list Z) :=
  targets ← dial_targets addr;
  '(ids, last_err) ← dial_each targets [] None;
  if decide (ids = []) then throw (default no_usable_target last_err) else mret ids.

Definition dial_family (addr : PeerAddr P) (f : AddressFamily) : dmeth Z :=
  targets ← dial_targets addr;
  match List.find (λ t, bool_decide (t.1 = f)) targets with
  | None => throw (no_target f)
  | Some (_, addr) =>
      id ← on_family f (dial addr);
      mret (external_id f id)
  end.

Definition dual_send_raw_udp (target : Multiaddr P) (payload : list byte) : dmeth unit :=
  target ← in_dual_world (resolve_dial_socket_addr target "raw udp target");
  on_family (family_for_socket_addr target) (send_raw_udp (socket_addr_to_multiaddr target) payload).

Definition dual_dial (addr : PeerAddr P) : dmeth Z :=
  targets ← dial_targets addr;
  '(f, addr) ← lift (ok_or (head targets) no_usable_target);
  id ← on_family f (dial addr);
  mret (external_id f id).

Definition dual_listen (addr : Multiaddr P) : dmeth (Multiaddr P) := on_family (family_for_addr addr) (listen addr).

(** The transport and the identifier an external identifier stands for. *)
Definition route {A} (id : Z) (m : Z → tmeth (P:=P) (Q:=Q) (Cfg:=Cfg) (W:=W) (Sock:=Sock) A) : dmeth A :=
  let '(f, id) := internal_id id in on_family f (m id).
Definition dual_open_stream (id : Z) : dmeth StreamId := route id qt_open_stream.
Definition dual_send_stream (id : Z) (stream_id : StreamId) (data : list byte) : dmeth unit :=
  route id (λ id, qt_send_stream id stream_id data).
Definition dual_close_stream_write (id : Z) (stream_id : StreamId) : dmeth unit :=
  route id (λ id, qt_close_stream_write id stream_id).
Definition dual_reset_stream (id : Z) (stream_id : StreamId) : dmeth unit :=
  route id (λ id, qt_reset_stream id stream_id).
Definition dual_close (id : Z) : dmeth unit := route id qt_close.

Definition dual_poll : dmeth (list TransportEvent) :=
  events4 ← on_family Ipv4 poll;
  events6 ← on_family Ipv6 poll;
  mret ((map_event Ipv4 <$> events4) ++ (map_event Ipv6 <$> events6)).

Definition dual_local_addresses (s : DualState) : list (Multiaddr P) :=
  local_addresses (family_state Ipv4 s) ++ local_addresses (family_state Ipv6 s).
Definition dual_active_connection_count (s : DualState) : nat :=
  active_connection_count (ds_ipv4 s) + active_connection_count (ds_ipv6 s).
Definition dual_active_connection_sources : dmeth (list (Multiaddr P)) :=
  addrs4 ← on_family Ipv4 active_connection_sources;
  addrs6 ← on_family Ipv6 active_connection_sources;
  mret (addrs4 ++ addrs6).
Definition dual_active_inbound_connection_sources : dmeth (list (Multiaddr P)) :=
  addrs4 ← on_family Ipv4 active_inbound_connection_sources;
  addrs6 ← on_family Ipv6 active_inbound_connection_sources;
  mret (addrs4 ++ addrs6).

(** ** The endpoint *)

Inductive QuicEndpoint : Type :=
  | Single (s : TState (P:=P) (Q:=Q) (Cfg:=Cfg) (W:=W) (Sock:=Sock))
  | Dual (s : DualState).
Definition emeth (A : Type) : Type := eff QuicEndpoint TransportError A.

(** [match self { Self::Single(t) => .., Self::Dual(t) => .. }] *)
Definition either {A} (single : tmeth (P:=P) (Q:=Q) (Cfg:=Cfg) (W:=W) (Sock:=Sock) A) (dual : dmeth A) : emeth A := λ e,
  match e with
  | Single s => let '(s, r) := single s in (Single s, r)
  | Dual s => let '(s, r) := dual s in (Dual s, r)
  end.

Definition single_dial_family (addr : PeerAddr P) (f : AddressFamily) : tmeth (P:=P) (Q:=Q) (Cfg:=Cfg) (W:=W) (Sock:=Sock) Z :=
  local ← local_addr;
  let local_family := family_for_socket_addr local in
  if decide (local_family ≠ f) then
    throw (InvalidAddress "dial target"
             ("endpoint is bound to " ++ family_name local_family ++ ", cannot dial " ++ family_name f ++ " target"))
  else
    addr ← in_world (peer_addr_for_family addr f);
    dial addr.

Definition endpoint_dial_all (addr : PeerAddr P) : emeth (list Z) :=
  either (id ← dial addr; mret [id]) (dial_all addr).
Definition endpoint_dial_ip4 (addr : PeerAddr P) : emeth Z :=
  either (single_dial_family addr Ipv4) (dial_family addr Ipv4).
Definition endpoint_dial_ip6 (addr : PeerAddr P) : emeth Z :=
  either (single_dial_family addr Ipv6) (dial_family addr Ipv6).
Definition endpoint_send_raw_udp (target : Multiaddr P) (payload : list byte) : emeth unit :=
  either (send_raw_udp target payload) (dual_send_raw_udp target payload).

#[export] Instance QuicEndpoint_transport : Transport QuicEndpoint P := {
  t_dial e addr := either (dial addr) (dual_dial addr) e;
  t_listen e addr := either (listen addr) (dual_listen addr) e;
  t_open_stream e id := either (qt_open_stream id) (dual_open_stream id) e;
  t_send_stream e id st data := either (qt_send_stream id st data) (dual_send_stream id st data) e;
  t_close_stream_write e id st := either (qt_close_stream_write id st) (dual_close_stream_write id st) e;
  t_reset_stream e id st := either (qt_reset_stream id st) (dual_reset_stream id st) e;
  t_close e id := either (qt_close id) (dual_close id) e;
  t_poll e := either poll dual_poll e;
  t_local_addresses e := match e with Single s => local_addresses s | Dual s => dual_local_addresses s end;
}.
Definition endpoint_active_connection_count (e : QuicEndpoint) : nat :=
  match e with
  | Single s => active_connection_count (ts_transport s)
  | Dual s => dual_active_connection_count s
  end.
Definition endpoint_active_connection_sources : emeth (list (Multiaddr P)) :=
  either active_connection_sources dual_active_connection_sources.
Definition endpoint_active_inbound_connection_sources : emeth (list (Multiaddr P)) :=
  either active_inbound_connection_sources dual_active_inbound_connection_sources.

(** ** Identifiers *)

Lemma external_v4 id : 0 < id < 2 ^ 63 → external_id Ipv4 id = 2 * id - 1.
Proof. unfold external_id, saturating_sub, saturating_mul. u64_tac. Qed.
Lemma external_v6 id : 0 < id < 2 ^ 63 → external_id Ipv6 id = 2 * id.
Proof. unfold external_id, saturating_mul. u64_tac. Qed.

Lemma internal_external f id : 0 < id < 2 ^ 63 → internal_id (external_id f id) = (f, id).
Proof.
  intros Hid. unfold internal_id. destruct f.
  - rewrite external_v4 by done. replace (2 * id - 1) with (1 + (id - 1) * 2) by lia.
    rewrite Z_mod_plus_full. change (1 mod 2 =? 0) with false. cbv iota. f_equal.
    replace (1 + (id - 1) * 2 + 1) with (id * 2) by lia. by rewrite Z.div_mul.
  - rewrite external_v6 by done. rewrite Z.mul_comm, Z_mod_mult. cbv iota. f_equal. by rewrite Z.div_mul.
Qed.

Lemma external_internal raw : 0 < raw < u64_mod - 1 →
  let '(f, id) := internal_id raw in 0 < id < 2 ^ 63 ∧ external_id f id = raw.
Proof.
  intros Hr. unfold internal_id. destruct (Z.eqb_spec (raw mod 2) 0) as [H|H].
  - assert (0 < raw / 2 < 2 ^ 63) as Hid by (unfold u64_mod in *; Z.to_euclidean_division_equations; lia).
    split; [done|]. rewrite external_v6 by done. Z.to_euclidean_division_equations. lia.
  - assert (0 < (raw + 1) / 2 < 2 ^ 63) as Hid by (unfold u64_mod in *; Z.to_euclidean_division_equations; lia).
    split; [done|]. rewrite external_v4 by done. Z.to_euclidean_division_equations. lia.
Qed.


(** ** Dialing both families *)

Section laws.
Context `{QL : !QuicheLaws Q} `{WL : !WorldLaws W Sock}.

Implicit Types (s : DualState).

Definition dinv s : Prop := ∀ f, indexed (family_transport f s).

(** The connections of a family. *)
Definition conns f s : gmap Z QuicConnection := connections (family_transport f s).

Lemma put_family_same f t s : family_transport f (put_family f t s) = ts_transport t.
Proof. by destruct f. Qed.
Lemma put_family_other f f' t s : f' ≠ f → family_transport f' (put_family f t s) = family_transport f' s.
Proof. by destruct f, f'. Qed.

Lemma resolved_peer_addr_ok a (peer : P) :
  resolved_peer_addr a peer = Ok {| pa_transport := socket_addr_to_multiaddr a; pa_peer_id := peer |}.
Proof. unfold resolved_peer_addr, socket_addr_to_multiaddr, pa_new. by destruct (sa_ip a). Qed.

(** What is dialed for a resolved address. *)
Definition peer_at (peer : P) (a : SocketAddr) : PeerAddr P :=
  {| pa_transport := socket_addr_to_multiaddr a; pa_peer_id := peer |}.

Definition of_family (f : AddressFamily) (a : SocketAddr) : bool := bool_decide (family_for_socket_addr a = f).

(** Every family that has an address among [addrs], once, with its first address; in the
    order of [addrs]. *)
Record first_of_each (addrs : list SocketAddr) (ts : list (AddressFamily * SocketAddr)) : Prop := {
  each_once : NoDup ts.*1;
  each_first f a : (f, a) ∈ ts ↔ List.find (of_family f) addrs = Some a;
  each_in_order : ts.*2 `sublist_of` addrs;
}.

Lemma family_targets_spec peer seen addrs :
  ∃ ts, family_targets peer seen addrs = Ok ((λ t, (t.1, peer_at peer t.2)) <$> ts) ∧ NoDup ts.*1 ∧
    (∀ f a, (f, a) ∈ ts ↔ f ∉ seen ∧ List.find (of_family f) addrs = Some a) ∧ ts.*2 `sublist_of` addrs.
Proof.
  revert seen. induction addrs as [|a addrs IH]; intros seen; cbn [family_targets List.find].
  { exists []. split_and!; [done|constructor| |constructor]. intros f a. split; [by intros []%elem_of_nil|by intros [_ ?]]. }
  cbv zeta. unfold of_family at 1. case_bool_decide as Hs.
  { destruct (IH seen) as (ts & -> & Hn & Hf & Hsub). exists ts. split_and!; [done..| |by apply sublist_cons].
    intros f a'. rewrite Hf. case_bool_decide as Ha; [subst f; tauto|done]. }
  rewrite resolved_peer_addr_ok. cbn [mbind res_bind].
  destruct (IH (family_for_socket_addr a :: seen)) as (ts & -> & Hn & Hf & Hsub). cbn [mbind res_bind].
  exists ((family_for_socket_addr a, a) :: ts). cbn. split_and!; [done| | |by constructor].
  - constructor; [|done]. intros ([f a'] & Hfa & Hin)%list_elem_of_fmap. cbn in Hfa. subst f. apply Hf in Hin as [Hin _].
    apply Hin. by left.
  - intros f a'. rewrite elem_of_cons, Hf, not_elem_of_cons. case_bool_decide as Ha.
    + subst f. split; [intros [?|[[? _] _]]; [by simplify_eq|done]|]. intros [_ [= ->]]. by left.
    + split; [intros [?|[[_ ?] ?]]; [by simplify_eq|done]|]. intros [? ?]. right. by split_and!.
Qed.

Lemma family_targets_first peer addrs :
  ∃ ts, family_targets peer [] addrs = Ok ((λ t, (t.1, peer_at peer t.2)) <$> ts) ∧ first_of_each addrs ts.
Proof.
  destruct (family_targets_spec peer [] addrs) as (ts & E & Hn & Hf & Hs). exists ts. split; [done|]. split; [done| |done].
  intros f a. rewrite Hf. split; [by intros [_ ?]|]. split; [apply not_elem_of_nil|done].
Qed.

(** One dial per target, each in the state the one before left. *)
Fixpoint dials (peer : P) (ts : list (AddressFamily * SocketAddr)) s : DualState * list (AddressFamily * res TransportError Z) :=
  match ts with
  | [] => (s, [])
  | (f, a) :: ts =>
      let '(s, r) := on_family f (dial (peer_at peer a)) s in
      let '(s, outcomes) := dials peer ts s in
      (s, (f, r) :: outcomes)
  end.

(** The identifiers of the connections, and the last error. *)
Definition dialed_ids (outcomes : list (AddressFamily * res TransportError Z)) : list Z :=
  omap (λ o, match o.2 with Ok id => Some (external_id o.1 id) | _ => None end) outcomes.
Definition last_error (err : option TransportError) (outcomes : list (AddressFamily * res TransportError Z)) : option TransportError :=
  foldl (λ err o, match o.2 with Err e => Some e | _ => err end) err outcomes.

(** The outcome of a dial: a new connection to the peer at the address, or an error and
    no connection. *)
Definition outcome_of (peer : P) s s' (t : AddressFamily * SocketAddr) (o : AddressFamily * res TransportError Z) : Prop :=
  o.1 = t.1 ∧
  match o.2 with
  | Ok id => conns t.1 s !! id = None ∧
      ∃ c, conns t.1 s' !! id = Some c ∧ qc_endpoint c = endpoint_with_peer_id (socket_addr_to_multiaddr t.2) peer
  | Err _ => conns t.1 s' = conns t.1 s
  | Panic => False
  end.

Lemma on_family_dial f addr s : dinv s →
  let x := on_family f (dial addr) s in
  dinv x.1 ∧ (∀ f', f' ≠ f → conns f' x.1 = conns f' s) ∧
  match x.2 with
  | Ok id => conns f s !! id = None ∧ ∃ c, conns f x.1 !! id = Some c ∧ qc_endpoint c = from_peer_addr addr
  | Err _ => conns f x.1 = conns f s
  | Panic => False
  end.
Proof.
  intros Hs. unfold on_family, zoom.
  pose proof (dial_spec addr (family_state f s) (Hs f)) as Hd. destruct (dial_ok addr (family_state f s) (Hs f)) as (_ & Hi & _).
  unfold dialed in Hd. destruct (dial addr (family_state f s)) as [t r]. cbn in *. split_and!.
  - intros f'. destruct (decide (f' = f)) as [->|Hne]; [by rewrite put_family_same|by rewrite put_family_other].
  - intros f' Hne. unfold conns. by rewrite put_family_other.
  - unfold conns. rewrite put_family_same. destruct r as [id|e|]; [|done..].
    destruct Hd as (Hfree & _ & q & sock & Hc). split; [done|]. rewrite Hc. eexists. by rewrite lookup_insert_eq.
Qed.

Lemma dials_spec peer ts s :
  dinv s → NoDup ts.*1 →
  let '(s', outcomes) := dials peer ts s in
  Forall2 (outcome_of peer s s') ts outcomes ∧ (∀ f, f ∉ ts.*1 → conns f s' = conns f s) ∧
  ∀ ids err, dial_each ((λ t, (t.1, peer_at peer t.2)) <$> ts) ids err s
    = (s', Ok (ids ++ dialed_ids outcomes, last_error err outcomes)).
Proof.
  revert s. induction ts as [|[f a] ts IH]; intros s Hs Hn; cbn [dials fmap list_fmap dial_each fst snd].
  { split_and!; [constructor|done|]. intros ids err. cbn. by rewrite app_nil_r. }
  apply NoDup_cons in Hn as [Hnf Hn]. destruct (on_family_dial f (peer_at peer a) s Hs) as (Hs1 & Hother & Hres).
  destruct (on_family f (dial (peer_at peer a)) s) as [s1 r]. cbn [fst snd] in *. specialize (IH s1 Hs1 Hn).
  destruct (dials peer ts s1) as [s' outcomes]. destruct IH as (Hall & Hrest & Heach). split_and!.
  - constructor.
    + split; [done|]. cbn [fst snd]. rewrite (Hrest f) by done. by destruct r.
    + apply Forall2_same_length_lookup_2; [by eapply Forall2_length|]. intros i [f' a'] o Ht Ho.
      pose proof (Forall2_lookup_lr _ _ _ _ _ _ Hall Ht Ho) as [E H]. split; [done|]. cbn [fst snd] in *.
      rewrite <- (Hother f'); [done|]. intros ->. apply Hnf. apply list_elem_of_fmap. exists (f, a').
      split; [done|]. by eapply list_elem_of_lookup_2.
  - intros f' [Hne Hf']%not_elem_of_cons. rewrite Hrest by done. by apply Hother.
  - intros ids err. destruct r as [id|e|]; [..|done]; rewrite Heach; cbn; by rewrite <- ?app_assoc.
Qed.

(** ** Properties *)

(** C16. Interleaving keeps the two families apart: every identifier handed out (below
    half of the range) is recognised as what it stands for, no two connections share
    one, and each operation on it is that operation of the right transport, on the
    right connection, and leaves the other transport alone. *)
Theorem dual_routing f id :
  0 < id < 2 ^ 63 →
  (∀ f' id', 0 < id' < 2 ^ 63 → external_id f' id' = external_id f id → f' = f ∧ id' = id) ∧
  (∀ s, dual_open_stream (external_id f id) s = on_family f (qt_open_stream id) s) ∧
  (∀ st data s, dual_send_stream (external_id f id) st data s = on_family f (qt_send_stream id st data) s) ∧
  (∀ st s, dual_close_stream_write (external_id f id) st s = on_family f (qt_close_stream_write id st) s) ∧
  (∀ st s, dual_reset_stream (external_id f id) st s = on_family f (qt_reset_stream id st) s) ∧
  (∀ s, dual_close (external_id f id) s = on_family f (qt_close id) s) ∧
  (∀ A (m : tmeth (P:=P) (Q:=Q) (Cfg:=Cfg) (W:=W) (Sock:=Sock) A) s f', f' ≠ f →
     family_transport f' (on_family f m s).1 = family_transport f' s).
Proof.
  intros Hid.
  assert (∀ A (m : Z → tmeth A), route (external_id f id) m = on_family f (m id)) as Hroute.
  { intros A m. unfold route. by rewrite internal_external. }
  split_and!.
  - intros f' id' Hid' Heq. pose proof (internal_external f' id' Hid') as H. rewrite Heq, internal_external in H by done. by simplify_eq.
  - intros s. unfold dual_open_stream. by rewrite Hroute.
  - intros st data s. unfold dual_send_stream. by rewrite Hroute.
  - intros st s. unfold dual_close_stream_write. by rewrite Hroute.
  - intros st s. unfold dual_reset_stream. by rewrite Hroute.
  - intros s. unfold dual_close. by rewrite Hroute.
  - intros A m s f' Hne. unfold on_family, zoom. destruct (m _) as [t r]. by apply put_family_other.
Qed.

(** C15. Dialing both families: if the name resolves, [dial_all] dials every family that
    has a resolved address, once, at its first address and in the order of resolution,
    whatever became of the dials before.  It succeeds exactly when one of them did, and
    returns the identifiers of all that did, in that order: each stands for a new
    connection of its family to that address, expecting the peer.  Otherwise it returns
    the last error; a family whose dial failed, or that was not dialed, keeps its
    connections as they were.  If the name does not resolve, nothing happens to any
    connection.  It never unwinds. *)
Theorem quic_dial_all (addr : PeerAddr P) s :
  dinv s →
  let in_world w := {| ds_world := w; ds_ipv4 := ds_ipv4 s; ds_ipv6 := ds_ipv6 s |} in
  match resolve_dial_socket_addrs (pa_transport addr) "dial target" (ds_world s) with
  | (w, Ok addrs) =>
      ∃ ts, first_of_each addrs ts ∧
        let '(s', outcomes) := dials (pa_peer_id addr) ts (in_world w) in
        dial_all addr s =
          (s', if decide (dialed_ids outcomes = []) then Err (default no_usable_target (last_error None outcomes))
               else Ok (dialed_ids outcomes)) ∧
        Forall2 (outcome_of (pa_peer_id addr) s s') ts outcomes ∧ ∀ f, f ∉ ts.*1 → conns f s' = conns f s
  | (w, Err e) => dial_all addr s = (in_world w, Err e)
  | (_, Panic) => False
  end.
Proof.
  intros Hs in_world. unfold dial_all, dial_targets, in_dual_world, zoom. unfold mbind, eff_bind.
  pose proof (resolve_addrs_ok (pa_transport addr) "dial target" (ds_world s)) as [Hp _].
  destruct (resolve_dial_socket_addrs _ _ _) as [w [addrs|e|]]; cbn [fst snd] in *; [|done|done].
  fold (in_world w). assert (∀ f, family_transport f (in_world w) = family_transport f s) as Hw by by intros [].
  destruct (family_targets_first (pa_peer_id addr) addrs) as (ts & -> & Hts). exists ts. split; [done|].
  pose proof (dials_spec (pa_peer_id addr) ts (in_world w) ltac:(intros f; rewrite Hw; apply Hs) (each_once _ _ Hts)) as H.
  destruct (dials _ ts (in_world w)) as [s' outcomes]. destruct H as (Hall & Hrest & Heach).
  cbn [lift]. rewrite Heach. cbn [app]. split_and!; [by case_decide| |].
  - eapply Forall2_impl; [exact Hall|]. intros [f a] o [E H]. split; [done|]. revert H. unfold conns. by rewrite Hw.
  - intros f Hf. rewrite Hrest by done. unfold conns. by rewrite Hw.
Qed.
End laws.

End endpoint.

(** ** Concrete runs *)

Definition toy_dual : DualState (P:=ToyPeer) (Q:=ToyQ) (Cfg:=unit) (W:=ToyW) (Sock:=unit) :=
  {| ds_world := {| tw_inbox := []; tw_sends := [] |};
     ds_ipv4 := transport_new () () "me"%string; ds_ipv6 := transport_new () () "me"%string |}.

Lemma toy_dual_inv : dinv toy_dual.
Proof. intros []; apply (tinv_new () () "me"%string {| tw_inbox := []; tw_sends := [] |} []). Qed.

Lemma dual_routing_witness :
  internal_id (external_id Ipv6 7) = (Ipv6, 7) ∧
  dual_close (external_id Ipv6 7) toy_dual = on_family Ipv6 (qt_close 7) toy_dual.
Proof.
  split; [reflexivity|].
  destruct (dual_routing (P:=ToyPeer) (Q:=ToyQ) (Cfg:=unit) (W:=ToyW) (Sock:=unit) Ipv6 7) as (_ & _ & _ & _ & _ & H & _); [lia|].
  apply H.
Defined.

(** A name that resolves to an address of each family. *)
Definition toy_name (p : ToyPeer) : PeerAddr ToyPeer :=
  {| pa_transport := {| Multiaddr.protocols := [Dns "localhost"%string; Udp 4001; QuicV1] |}; pa_peer_id := p |}.

Lemma quic_dial_all_witness :
  ∃ s', dial_all (toy_name "alice"%string) toy_dual = (s', Ok [1; 2]) ∧
  ∃ ts outcomes, first_of_each [toy_addr; toy_addr6] ts ∧ Forall2 (outcome_of "alice"%string toy_dual s') ts outcomes.
Proof.
  pose proof (quic_dial_all (toy_name "alice"%string) toy_dual toy_dual_inv) as H. cbv zeta in H.
  assert ((dial_all (toy_name "alice"%string) toy_dual).2 = Ok [1; 2]) as E by reflexivity.
  assert (resolve_dial_socket_addrs (pa_transport (toy_name "alice"%string)) "dial target" (ds_world toy_dual)
    = (ds_world toy_dual, Ok [toy_addr; toy_addr6])) as Er by reflexivity.
  rewrite Er in H. destruct H as (ts & Hts & H). destruct (dials _ ts _) as [s' outcomes].
  destruct H as (Hd & Hall & _). rewrite Hd in E. cbn [snd] in E. rewrite E in Hd.
  exists s'. split; [exact Hd|]. exists ts, outcomes. split; [exact Hts|exact Hall].
Defined.

(** The adapter does not keep to the order of events its trait documents: when the flush
    that ends a handshake fails, the first poll reports the error, and the next ones
    report streams and data of a connection that was never reported as connected.  The
    swarm does not rely on that order: what it needs ([connects_first]) holds of these
    events. *)
Example endpoint_breaks_event_order :
  let e0 := Single (arrive [([x01], toy_addr)]
    {| ts_world := {| tw_inbox := []; tw_sends := [false] |};
       ts_transport := ts_transport (run_transport [TcDial (toy_peer_addr "bob"%string)] toy_transport); ts_events := [] |}) in
  let e1 := (t_poll e0).1 in
  let e2 := match e1 with Single s => Single (arrive [([x44; x01; x68], toy_addr)] s) | e => e end in
  (t_poll e0).2 = Err (CloseFailed 1 "udp send error: Network is unreachable (os error 101)") ∧
  (t_poll e2).2 = Ok [TIncomingStream 1 1; TStreamData 1 1 [x68]] ∧
  ¬ events_in_order (λ _, False) [TIncomingStream (P:=ToyPeer) 1 1; TStreamData 1 1 [x68]] ∧
  connects_first (λ _, False) [TIncomingStream (P:=ToyPeer) 1 1; TStreamData 1 1 [x68]].
Proof.
  split_and!; [reflexivity|reflexivity| |done]. cbn. intros [H _]. exact (H 1 eq_refl).
Qed.
