(* ===== verification/QuicConfig.v ===== *)
(** * Configuring QUIC ([transports/quic/src/config.rs], and [build_quiche_config] and
      the constructors of [transports/quic/src/lib.rs])

    The identity of a node becomes the certificate its transports present, and the
    identity its peers prove is the one they are reported with. *)
From S2P Require Import Prelude NetAddr Effects Varint Multibase PeerId Keys Tls Multiaddr PeerAddr IdentifyMessage SwarmEvents Transport QuicConnection QuicGuarantees QuicTransport QuicIndexes QuicEndpoint.
From Stdlib Require Import ZArith Strings.Byte Strings.String.
From stdpp Require Import base numbers list gmap strings.

#[local] Open Scope Z_scope.

(** The TLS context of the third-party crate [boring] and the configuration of
    [quiche]. *)
Class TlsStack (Ctx X509 PKey Cfg : Type) := {
  ctx_new : string + Ctx;
  (** [set_verify_callback(PEER | FAIL_IF_NO_PEER_CERT, |_, _| true)] *)
  set_verify_any_peer_cert : Ctx → Ctx;
  x509_from_der : list byte → string + X509;
  set_certificate : Ctx → X509 → string + Ctx;
  private_key_from_der : list byte → string + PKey;
  set_private_key : Ctx → PKey → string + Ctx;
  check_private_key : Ctx → string + unit;
  config_with_ctx : Ctx → string + Cfg;
  set_application_protos : Cfg → list (list byte) → string + Cfg;
  set_initial_max_data : Z → Cfg → Cfg;
  set_initial_max_stream_data_bidi_local : Z → Cfg → Cfg;
  set_initial_max_stream_data_bidi_remote : Z → Cfg → Cfg;
  set_initial_max_streams_bidi : Z → Cfg → Cfg;
  set_max_recv_udp_payload_size : Z → Cfg → Cfg;
  set_max_send_udp_payload_size : Z → Cfg → Cfg;
}.

(** The clock and the random generator of the system. *)
Class SysRandom (W Validity RNG : Type) := {
  validity_from_now : W → Z → string + Validity;
  sys_rng : W → RNG;
  put_rng : RNG → W → W;
}.

Definition DEFAULT_IPV4_BIND : string := "0.0.0.0:0".
Definition DEFAULT_IPV6_BIND : string := "[::]:0".

Section config.
Context {MH : Type} `{MHeq : EqDecision MH} `{MHcount : !Countable MH} `{MA : !MultihashApi MH} (sha256 : list byte → list byte).
Context {VK : Type} `{EA : !Ed25519Api VK}.
Context {Cert Validity Bld PK SG SK RNG : Type} `{XA : !X509Api Cert Validity Bld PK SG SK RNG}.
Context {Q : Type} `{QA : !Quiche Q} {Cfg : Type} `{QE : !QuicheEndpoint Q Cfg}.
Context {Ctx X509 PKey : Type} `{TS : !TlsStack Ctx X509 PKey Cfg}.
Context {W Sock : Type} `{WA : !World W Sock} `{SR : !SysRandom W Validity RNG}.
(** Overflow checks are on in debug builds. *)
Context (overflow_checks : bool).

Definition tls_verifier : CertVerifier (PeerId MH) := verify_libp2p_certificate sha256 overflow_checks.

Record QuicNodeConfig : Type := { node_keypair : Ed25519Keypair }.
Definition node_config_new (keypair : Ed25519Keypair) : QuicNodeConfig := {| node_keypair := keypair |}.
Definition node_peer_id (c : QuicNodeConfig) : res Empty_set (PeerId MH) := keypair_peer_id sha256 (node_keypair c).

(** [generate_certificate]: 100 years from now, with the randomness of the system. *)
Definition generate_certificate (keypair : Ed25519Keypair) : eff W TlsError (list byte * list byte) := λ w,
  match validity_from_now w (100 * 365 * 24 * 60 * 60) with
  | inl e => (w, Err (CertificateGeneration e))
  | inr validity =>
      let '(rng, r) := generate_certificate_with_rng keypair validity (sys_rng w) in
      (put_rng rng w, r)
  end.

Definition invalid_config {A} (what : string) (r : string + A) : res TransportError A :=
  map_err (λ e, InvalidConfig (what ++ e)) (call r).
Definition listen_failed {A} (what : string) (r : string + A) : res TransportError A :=
  map_err (λ e, ListenFailed (what ++ e)) (call r).

Definition build_quiche_config (node_config : QuicNodeConfig) : eff W TransportError Cfg :=
  tls_builder ← lift (listen_failed "failed to create BoringSSL context: " ctx_new);
  let tls_builder := set_verify_any_peer_cert tls_builder in
  '(cert_der, key_der) ← (λ w, let '(w, r) := generate_certificate (node_keypair node_config) w in
      (w, map_err (λ e, InvalidConfig ("failed to generate libp2p TLS certificate: " ++ to_string e)) r));
  lift (
    cert ← invalid_config "failed to parse generated TLS certificate: " (x509_from_der cert_der);
    tls_builder ← invalid_config "failed to load generated cert into BoringSSL: " (set_certificate tls_builder cert);
    private_key ← invalid_config "failed to parse generated TLS private key: " (private_key_from_der key_der);
    tls_builder ← invalid_config "failed to load generated key into BoringSSL: " (set_private_key tls_builder private_key);
    _ ← invalid_config "generated TLS private key does not match certificate: " (check_private_key tls_builder);
    quiche_config ← listen_failed "failed to create quiche config: " (config_with_ctx tls_builder);
    quiche_config ← listen_failed "failed to set alpn: " (set_application_protos quiche_config [as_bytes "libp2p"]);
    let quiche_config := set_initial_max_data 10000000 quiche_config in
    let quiche_config := set_initial_max_stream_data_bidi_local 1000000 quiche_config in
    let quiche_config := set_initial_max_stream_data_bidi_remote 1000000 quiche_config in
    let quiche_config := set_initial_max_streams_bidi 100 quiche_config in
    let quiche_config := set_max_recv_udp_payload_size 1350 quiche_config in
    let quiche_config := set_max_send_udp_payload_size 1350 quiche_config in
    Ok quiche_config).

(** [QuicTransport::new]. *)
Definition quic_transport_new (node_config : QuicNodeConfig) (bind_addr : string)
    : eff W TransportError (QuicTransport (P:=PeerId MH) (Q:=Q) (Cfg:=Cfg) (Sock:=Sock)) :=
  r ← state (λ w, udp_bind w bind_addr);
  socket ← lift (match r with
                 | inl e => Err (ListenFailed ("failed to bind udp socket: " ++ to_string e))
                 | inr socket => Ok socket
                 end);
  r ← state (λ w, set_nonblocking w socket);
  _ ← lift (match r with
            | inl e => Err (ListenFailed ("failed to set nonblocking: " ++ to_string e))
            | inr _ => Ok ()
            end);
  quiche_config ← build_quiche_config node_config;
  peer ← lift (map_err (Empty_set_rect (λ _, TransportError)) (node_peer_id node_config));
  mret (transport_new socket quiche_config peer).

Definition dual_transport_new (node_config : QuicNodeConfig)
    : eff W TransportError (QuicTransport (P:=PeerId MH) (Q:=Q) (Cfg:=Cfg) (Sock:=Sock) * QuicTransport (P:=PeerId MH) (Q:=Q) (Cfg:=Cfg) (Sock:=Sock)) :=
  ipv4 ← quic_transport_new node_config DEFAULT_IPV4_BIND;
  ipv6 ← quic_transport_new node_config DEFAULT_IPV6_BIND;
  mret (ipv4, ipv6).

(** [QuicEndpoint::bind], [bind_multiaddr] and [dual_stack]: the endpoint with the
    system it was made in. *)
Definition endpoint_bind (node_config : QuicNodeConfig) (bind_addr : string) (w : W)
    : res TransportError (QuicEndpoint (P:=PeerId MH) (Q:=Q) (Cfg:=Cfg) (W:=W) (Sock:=Sock)) :=
  let '(w, r) := quic_transport_new node_config bind_addr w in
  t ← r;
  Ok (Single {| ts_world := w; ts_transport := t; ts_events := [] |}).
Definition endpoint_bind_multiaddr (node_config : QuicNodeConfig) (addr : Multiaddr (PeerId MH)) (w : W)
    : res TransportError (QuicEndpoint (P:=PeerId MH) (Q:=Q) (Cfg:=Cfg) (W:=W) (Sock:=Sock)) :=
  bind ← extract_listen_socket_addr addr "bind address";
  endpoint_bind node_config (to_string bind) w.
Definition endpoint_dual_stack (node_config : QuicNodeConfig) (w : W)
    : res TransportError (QuicEndpoint (P:=PeerId MH) (Q:=Q) (Cfg:=Cfg) (W:=W) (Sock:=Sock)) :=
  let '(w, r) := dual_transport_new node_config w in
  '(ipv4, ipv6) ← r;
  Ok (Dual {| ds_world := w; ds_ipv4 := ipv4; ds_ipv6 := ipv6 |}).


(** ** Authentication *)

Section laws.
Context `{XL : !X509Laws} `{EL : !Ed25519Laws VK} `{ML : !MultihashLaws MH}.
Context (sha256_length : ∀ b, length (sha256 b) = 32%nat).
Context `{QL : !QuicheLaws Q} `{WL : !WorldLaws W Sock} `{PD : !Display (PeerId MH)}.

(** The certificate a node presents proves the node's own peer id to every peer. *)
Lemma own_certificate secret w w' cert_der key_der :
  length secret = ED25519_SECRET_KEY_LENGTH →
  generate_certificate (from_secret_key_bytes secret) w = (w', Ok (cert_der, key_der)) →
  ∃ p, node_peer_id (node_config_new (from_secret_key_bytes secret)) = Ok p ∧ tls_verifier cert_der = Ok p.
Proof.
  intros Hs. unfold generate_certificate. destruct (validity_from_now _ _) as [e|validity]; [done|].
  destruct (generate_certificate_with_rng _ _ _) as [rng r] eqn:E. intros [= _ ->].
  pose proof (generated_certifies _ _ _ _ _ _ Hs E) as Hc.
  destruct (from_ed25519_key sha256 sha256_length (keypair_public_key (from_secret_key_bytes secret))) as (p & Hp & _);
    [done|apply derive_public_length|].
  exists p. split; [exact Hp|]. unfold tls_verifier. apply verify_certifies; [done..|]. by eexists.
Qed.

(** A keypair as its constructors make it: 32 secret bytes and the key they give. *)
Definition keypair_ok (kp : Ed25519Keypair) : Prop :=
  length (secret_key kp) = ED25519_SECRET_KEY_LENGTH ∧ public_key_bytes kp = derive_public (secret_key kp).

(** The configuration presents, in every handshake, a certificate that proves to be of
    the peer [p] to every node that verifies it: the certificate and its private key were
    put into the TLS context the configuration was made of. *)
Definition presents (cfg : Cfg) (p : PeerId MH) : Prop :=
  ∃ ctx cert_der key_der x509 pkey ctx1 ctx2 cfg0 cfg1,
    tls_verifier cert_der = Ok p ∧ ctx_new = inr ctx ∧
    x509_from_der cert_der = inr x509 ∧ set_certificate (set_verify_any_peer_cert ctx) x509 = inr ctx1 ∧
    private_key_from_der key_der = inr pkey ∧ set_private_key ctx1 pkey = inr ctx2 ∧ check_private_key ctx2 = inr () ∧
    config_with_ctx ctx2 = inr cfg0 ∧ set_application_protos cfg0 [as_bytes "libp2p"] = inr cfg1 ∧
    cfg = set_max_send_udp_payload_size 1350 (set_max_recv_udp_payload_size 1350 (set_initial_max_streams_bidi 100
            (set_initial_max_stream_data_bidi_remote 1000000 (set_initial_max_stream_data_bidi_local 1000000
              (set_initial_max_data 10000000 cfg1))))).

Lemma named_call {E A} (f : string → E) (r : string + A) a : map_err f (call r) = Ok a → r = inr a.
Proof. destruct r; [done|]. by intros [= ->]. Qed.

Lemma config_presents kp w w' cfg p :
  keypair_ok kp → node_peer_id (node_config_new kp) = Ok p →
  build_quiche_config (node_config_new kp) w = (w', Ok cfg) → presents cfg p.
Proof.
  intros [Hs Hk] Hp. assert (kp = from_secret_key_bytes (secret_key kp)) as Hkp by (destruct kp; cbn in *; by subst).
  unfold build_quiche_config, mbind at 1, eff_bind at 1, lift at 1, listen_failed at 1.
  destruct ctx_new as [e|ctx] eqn:Ectx; [done|]. cbn [call map_err]. unfold mbind at 1, eff_bind at 1. cbn [node_keypair node_config_new].
  destruct (generate_certificate kp w) as [w1 r] eqn:Eg. destruct r as [[cert_der key_der]|e|]; [|done..]. cbn [map_err]. unfold lift.
  intros [= _ E]. apply bind_Ok in E as (x509 & H1%named_call & E). apply bind_Ok in E as (ctx1 & H2%named_call & E).
  apply bind_Ok in E as (pkey & H3%named_call & E). apply bind_Ok in E as (ctx2 & H4%named_call & E).
  apply bind_Ok in E as ([] & H5%named_call & E). apply bind_Ok in E as (cfg0 & H6%named_call & E).
  apply bind_Ok in E as (cfg1 & H7%named_call & [= <-]).
  rewrite Hkp in Eg. destruct (own_certificate _ _ _ _ _ Hs Eg) as (p' & Hp' & Hv). rewrite <- Hkp, Hp in Hp'.
  injection Hp' as <-. by exists ctx, cert_der, key_der, x509, pkey, ctx1, ctx2, cfg0, cfg1.
Qed.

(** C6. Authentication end to end: with the certificate verifier of [minip2p_tls] (and
    wrapping arithmetic), whatever arrives at a connection and whatever is called on it,
    a connection is reported as connected only after the handshake was complete, and
    then [q_peer_cert], the certificate the peer presented, was a valid one: the reported
    peer id is the one of the key that signed the certificate's own key, and that key can
    be read off the peer id.  A dialed connection is reported only with the peer that was
    dialed. *)
Theorem quic_authentication (socket : Sock) (calls : list ConnCall) (w : W) (id : Z) (q : Q) (addr : SocketAddr)
    (e0 : ConnectionEndpoint (P:=PeerId MH)) :
  overflow_checks = false → Forall call_ok calls →
  let s := {| cs_world := w; cs_conn := conn_new id q addr e0; cs_events := [] |} in
  let s' := run_calls (CV:=tls_verifier) socket calls s in
  ∀ i e, TConnected i e ∈ cs_events s' →
    ∃ q1 q2 der k p,
      (q_runs q q1 ∧ q_is_established q1 = true ∧ q_runs q1 q2 ∧ q_peer_cert q2 = Some der ∧
       q_runs q2 (qc_conn (cs_conn s'))) ∧
      certifies der k ∧ from_public_key sha256 k = Ok p ∧ digest_bytes p = encode_protobuf k ∧
      endpoint_peer_id e = Some p ∧ ∀ p0, endpoint_peer_id e0 = Some p0 → p0 = p.
Proof.
  intros Hoc Hcalls s s' i e Hin.
  assert (∀ der, verify_certificate (CertVerifier:=tls_verifier) der ≠ Panic) as Hret.
  { intros der. unfold verify_certificate, tls_verifier. rewrite Hoc. by apply verify_no_panic. }
  destruct (run_conn_calls_ok (CV:=tls_verifier) Hret socket calls s) as (_ & He & _); [apply inv_new|done|].
  destruct (ev_proven _ _ He i e Hin) as
    [[]%elem_of_nil|(_ & _ & (q1 & q2 & der & p & H1 & H2 & H3 & H4 & H5 & Hv & Hp) & Hexp)].
  unfold verify_certificate, tls_verifier in Hv. apply verify_certifies in Hv as (k & Hk & Hpk); [|done..].
  exists q1, q2, der, k, p. split_and!; try done.
  - destruct Hk as (cert & ext & sig & spki & _ & _ & _ & _ & _ & Ht & Hl & _).
    destruct (from_ed25519_key sha256 sha256_length k Ht Hl) as (p' & Hp' & _ & Hd). rewrite Hpk in Hp'. by injection Hp' as <-.
  - intros p0 Hp0. apply Hexp in Hp0. congruence.
Qed.
End laws.

End config.

(** ** A concrete connection

    A dialer that expects the peer of [demo_secret] and is shown its certificate. *)

Definition demo_endpoint (expected : option (PeerId PlainMultihash)) : ConnectionEndpoint :=
  {| transport := {| Multiaddr.protocols := [Ip4 [x7f; x00; x00; x01]; Udp 4001; QuicV1] |}; endpoint_peer_id := expected |}.

Lemma quic_authentication_witness :
  ∃ (p : PeerId PlainMultihash) k,
    keypair_peer_id demo_sha256 (from_secret_key_bytes demo_secret) = Ok p ∧
    cs_events (run_calls (CV:=tls_verifier demo_sha256 false) () [hello; CallPoll]
      {| cs_world := {| tw_inbox := []; tw_sends := [] |};
         cs_conn := conn_new 1 (toy_q (Some demo_cert)) toy_addr (demo_endpoint (Some p)); cs_events := [] |})
      = [TConnected 1 (demo_endpoint (Some p))] ∧
    digest_bytes p = encode_protobuf k.
Proof.
  destruct (keypair_peer_id (MH:=PlainMultihash) demo_sha256 (from_secret_key_bytes demo_secret)) as [p| |] eqn:E;
    [|vm_compute in E; discriminate E..].
  pose (s := {| cs_world := {| tw_inbox := []; tw_sends := [] |};
         cs_conn := conn_new 1 (toy_q (Some demo_cert)) toy_addr (demo_endpoint (Some p)); cs_events := [] |}).
  assert (cs_events (run_calls (CV:=tls_verifier demo_sha256 false) () [hello; CallPoll] s) = [TConnected 1 (demo_endpoint (Some p))]) as Hev.
  { unfold s. vm_compute in E. injection E as <-. vm_compute. reflexivity. }
  destruct (quic_authentication (MH:=PlainMultihash) demo_sha256 false (λ _, eq_refl) () [hello; CallPoll]
    {| tw_inbox := []; tw_sends := [] |} 1 (toy_q (Some demo_cert)) toy_addr (demo_endpoint (Some p)) eq_refl
    (ltac:(repeat constructor)) 1 (demo_endpoint (Some p))) as (_ & _ & der & k & p' & _ & _ & _ & Hd & Hp & _).
  { fold s. rewrite Hev. by left. }
  injection Hp as <-. exists p, k. split; [reflexivity|]. split; [exact Hev|exact Hd].
Defined.
