(* ===== verification/SwarmCore.v ===== *)
(** * The swarm core ([crates/swarm/src/core.rs])

    [SwarmCore] dispatches between a transport, the protocol machines (ping, identify,
    one multistream-select machine per negotiating stream) and the application.  Its
    driver feeds it transport events and executes the actions it queues.

    Peer ids are used through the interface [SwarmPeers]: their order (the maps are
    iterated in it), text form, binary form, and derivation from a key, which is what
    the placeholder identity of an unverified connection is made with.
    [debug_assertions] tells a debug from a release build: [debug_assert_eq!] unwinds
    only in the former.

    A function of the source that can unwind, because a machine it calls can, returns
    [res Empty_set]; [let _ = machine.handle_input(..)] is [ignore], which drops an
    error but not a panic.  Loops that drain a machine have one more unit of fuel than
    the machine has outputs pending. *)
From S2P Require Import Prelude SansIo Varint Multibase PeerId Multiaddr Multistream.
From S2P Require Import IdentifyMessage Ping Identify SwarmEvents.
From Stdlib Require Import ZArith Strings.Byte Strings.String.
From stdpp Require Import base numbers list gmap strings.

#[local] Open Scope Z_scope.

(** ** The environment *)

Class SwarmPeers (P : Type) := {
  sp_eq :: EqDecision P;
  sp_count :: Countable P;
  sp_bytes :: PeerIdBytes P;
  sp_display :: Display P;
  sp_le : relation P;
  sp_le_dec :: RelDecision sp_le;
  sp_from_key : list byte → P;
}.
#[global] Hint Mode SwarmPeers ! : typeclass_instances.
Class BuildProfile := debug_assertions : bool.

(** The order of the keys of the stream maps. *)
Definition stream_key_le (x y : ConnectionId * StreamId) : Prop :=
  x.1 < y.1 ∨ (x.1 = y.1 ∧ x.2 <= y.2).
#[export] Instance stream_key_le_dec : RelDecision stream_key_le.
Proof. intros x y. unfold stream_key_le, ConnectionId, StreamId in *. apply _. Defined.

(** [Iterator::find_map]. *)
Definition find_map {A B} (f : A → option B) (l : list A) : option B := head (omap f l).

Inductive ProtocolKind : Type :=
  | KindPing
  | KindIdentifyResponder
  | KindIdentifyInitiator
  | KindUser (protocol_id : string).
#[export] Instance ProtocolKind_eq_dec : EqDecision ProtocolKind.
Proof. solve_decision. Defined.

(** [matches!(protocol, ProtocolKind::User(_))]. *)
Definition is_user (k : ProtocolKind) : bool := match k with KindUser _ => true | _ => false end.

Record PendingOutbound : Type := { negotiator : MultistreamSelect; target : ProtocolKind }.
Record PendingOpen : Type := {
  open_conn_id : ConnectionId;
  open_protocol : string;
  open_target : ProtocolKind;
}.

Section swarm.
Context {P : Type} `{SP : !SwarmPeers P} `{BP : !BuildProfile}.

#[export] Instance PingError_display : Display (PingError (PeerId:=P)) := λ e,
  match e with
  | OutboundStreamExists p s =>
      "peer " ++ to_string p ++ " already has outbound ping stream " ++ to_string (A:=Z) s
  | OutboundStreamMissing p => "peer " ++ to_string p ++ " has no outbound ping stream"
  | PingAlreadyInFlight p s =>
      "peer " ++ to_string p ++ " already has ping request in flight on stream "
        ++ to_string (A:=Z) s
  | InvalidPayloadLength actual =>
      "invalid ping payload length " ++ to_string actual ++ "; expected "
        ++ to_string PING_PAYLOAD_LEN
  end%string.
#[export] Instance IdentifyError_display : Display (IdentifyError (P:=P)) := λ e,
  match e with
  | StreamAlreadyRegistered p => "identify stream already registered for peer " ++ to_string p
  | NoOutboundStream p => "no outbound identify stream for peer " ++ to_string p
  end%string.

(** ** State *)

Record SwarmCore : Type := MkSwarm {
  ping : PingProtocol (PeerId:=P);
  identify : IdentifyProtocol (P:=P);
  conn_to_peer : gmap ConnectionId P;
  peer_to_conn : gmap P ConnectionId;
  active_connections : gmap ConnectionId bool;
  conn_to_remote_addr : gmap ConnectionId (Multiaddr P);
  inbound_negotiators : gmap (ConnectionId * StreamId) MultistreamSelect;
  outbound_negotiators : gmap (ConnectionId * StreamId) PendingOutbound;
  stream_owner : gmap (ConnectionId * StreamId) ProtocolKind;
  pending_opens : gmap OpenStreamToken PendingOpen;
  next_open_token : Z;
  supported : list string;
  user_protocols : list string;
  pending_pings : gmap P (list byte);
  local_addresses : list (Multiaddr P);
  peer_info : gmap P IdentifyMessage;
  ready_peers : gset P;
  established_peers : gset P;
  sw_events : list (SwarmEvent (P:=P));
  sw_actions : list SwarmAction;
}.

(** Assignments to fields. *)
Definition set_ping (s : SwarmCore) (v : PingProtocol (PeerId:=P)) : SwarmCore :=
  MkSwarm v (identify s) (conn_to_peer s) (peer_to_conn s) (active_connections s)
    (conn_to_remote_addr s) (inbound_negotiators s) (outbound_negotiators s) (stream_owner s)
    (pending_opens s) (next_open_token s) (supported s) (user_protocols s) (pending_pings s)
    (local_addresses s) (peer_info s) (ready_peers s) (established_peers s) (sw_events s)
    (sw_actions s).
Definition set_identify (s : SwarmCore) (v : IdentifyProtocol (P:=P)) : SwarmCore :=
  MkSwarm (ping s) v (conn_to_peer s) (peer_to_conn s) (active_connections s)
    (conn_to_remote_addr s) (inbound_negotiators s) (outbound_negotiators s) (stream_owner s)
    (pending_opens s) (next_open_token s) (supported s) (user_protocols s) (pending_pings s)
    (local_addresses s) (peer_info s) (ready_peers s) (established_peers s) (sw_events s)
    (sw_actions s).
Definition set_conn_to_peer (s : SwarmCore) (v : gmap ConnectionId P) : SwarmCore :=
  MkSwarm (ping s) (identify s) v (peer_to_conn s) (active_connections s) (conn_to_remote_addr s)
    (inbound_negotiators s) (outbound_negotiators s) (stream_owner s) (pending_opens s)
    (next_open_token s) (supported s) (user_protocols s) (pending_pings s) (local_addresses s)
    (peer_info s) (ready_peers s) (established_peers s) (sw_events s) (sw_actions s).
Definition set_peer_to_conn (s : SwarmCore) (v : gmap P ConnectionId) : SwarmCore :=
  MkSwarm (ping s) (identify s) (conn_to_peer s) v (active_connections s) (conn_to_remote_addr s)
    (inbound_negotiators s) (outbound_negotiators s) (stream_owner s) (pending_opens s)
    (next_open_token s) (supported s) (user_protocols s) (pending_pings s) (local_addresses s)
    (peer_info s) (ready_peers s) (established_peers s) (sw_events s) (sw_actions s).
Definition set_active_connections (s : SwarmCore) (v : gmap ConnectionId bool) : SwarmCore :=
  MkSwarm (ping s) (identify s) (conn_to_peer s) (peer_to_conn s) v (conn_to_remote_addr s)
    (inbound_negotiators s) (outbound_negotiators s) (stream_owner s) (pending_opens s)
    (next_open_token s) (supported s) (user_protocols s) (pending_pings s) (local_addresses s)
    (peer_info s) (ready_peers s) (established_peers s) (sw_events s) (sw_actions s).
Definition set_conn_to_remote_addr (s : SwarmCore) (v : gmap ConnectionId (Multiaddr P)) : SwarmCore :=
  MkSwarm (ping s) (identify s) (conn_to_peer s) (peer_to_conn s) (active_connections s) v
    (inbound_negotiators s) (outbound_negotiators s) (stream_owner s) (pending_opens s)
    (next_open_token s) (supported s) (user_protocols s) (pending_pings s) (local_addresses s)
    (peer_info s) (ready_peers s) (established_peers s) (sw_events s) (sw_actions s).
Definition set_inbound_negotiators (s : SwarmCore) (v : gmap (ConnectionId * StreamId) MultistreamSelect) : SwarmCore :=
  MkSwarm (ping s) (identify s) (conn_to_peer s) (peer_to_conn s) (active_connections s)
    (conn_to_remote_addr s) v (outbound_negotiators s) (stream_owner s) (pending_opens s)
    (next_open_token s) (supported s) (user_protocols s) (pending_pings s) (local_addresses s)
    (peer_info s) (ready_peers s) (established_peers s) (sw_events s) (sw_actions s).
Definition set_outbound_negotiators (s : SwarmCore) (v : gmap (ConnectionId * StreamId) PendingOutbound) : SwarmCore :=
  MkSwarm (ping s) (identify s) (conn_to_peer s) (peer_to_conn s) (active_connections s)
    (conn_to_remote_addr s) (inbound_negotiators s) v (stream_owner s) (pending_opens s)
    (next_open_token s) (supported s) (user_protocols s) (pending_pings s) (local_addresses s)
    (peer_info s) (ready_peers s) (established_peers s) (sw_events s) (sw_actions s).
Definition set_stream_owner (s : SwarmCore) (v : gmap (ConnectionId * StreamId) ProtocolKind) : SwarmCore :=
  MkSwarm (ping s) (identify s) (conn_to_peer s) (peer_to_conn s) (active_connections s)
    (conn_to_remote_addr s) (inbound_negotiators s) (outbound_negotiators s) v (pending_opens s)
    (next_open_token s) (supported s) (user_protocols s) (pending_pings s) (local_addresses s)
    (peer_info s) (ready_peers s) (established_peers s) (sw_events s) (sw_actions s).
Definition set_pending_opens (s : SwarmCore) (v : gmap OpenStreamToken PendingOpen) : SwarmCore :=
  MkSwarm (ping s) (identify s) (conn_to_peer s) (peer_to_conn s) (active_connections s)
    (conn_to_remote_addr s) (inbound_negotiators s) (outbound_negotiators s) (stream_owner s) v
    (next_open_token s) (supported s) (user_protocols s) (pending_pings s) (local_addresses s)
    (peer_info s) (ready_peers s) (established_peers s) (sw_events s) (sw_actions s).
Definition set_next_open_token (s : SwarmCore) (v : Z) : SwarmCore :=
  MkSwarm (ping s) (identify s) (conn_to_peer s) (peer_to_conn s) (active_connections s)
    (conn_to_remote_addr s) (inbound_negotiators s) (outbound_negotiators s) (stream_owner s)
    (pending_opens s) v (supported s) (user_protocols s) (pending_pings s) (local_addresses s)
    (peer_info s) (ready_peers s) (established_peers s) (sw_events s) (sw_actions s).
Definition set_supported (s : SwarmCore) (v : list string) : SwarmCore :=
  MkSwarm (ping s) (identify s) (conn_to_peer s) (peer_to_conn s) (active_connections s)
    (conn_to_remote_addr s) (inbound_negotiators s) (outbound_negotiators s) (stream_owner s)
    (pending_opens s) (next_open_token s) v (user_protocols s) (pending_pings s) (local_addresses s)
    (peer_info s) (ready_peers s) (established_peers s) (sw_events s) (sw_actions s).
Definition set_user_protocols (s : SwarmCore) (v : list string) : SwarmCore :=
  MkSwarm (ping s) (identify s) (conn_to_peer s) (peer_to_conn s) (active_connections s)
    (conn_to_remote_addr s) (inbound_negotiators s) (outbound_negotiators s) (stream_owner s)
    (pending_opens s) (next_open_token s) (supported s) v (pending_pings s) (local_addresses s)
    (peer_info s) (ready_peers s) (established_peers s) (sw_events s) (sw_actions s).
Definition set_pending_pings (s : SwarmCore) (v : gmap P (list byte)) : SwarmCore :=
  MkSwarm (ping s) (identify s) (conn_to_peer s) (peer_to_conn s) (active_connections s)
    (conn_to_remote_addr s) (inbound_negotiators s) (outbound_negotiators s) (stream_owner s)
    (pending_opens s) (next_open_token s) (supported s) (user_protocols s) v (local_addresses s)
    (peer_info s) (ready_peers s) (established_peers s) (sw_events s) (sw_actions s).
Definition set_local_addresses (s : SwarmCore) (v : list (Multiaddr P)) : SwarmCore :=
  MkSwarm (ping s) (identify s) (conn_to_peer s) (peer_to_conn s) (active_connections s)
    (conn_to_remote_addr s) (inbound_negotiators s) (outbound_negotiators s) (stream_owner s)
    (pending_opens s) (next_open_token s) (supported s) (user_protocols s) (pending_pings s) v
    (peer_info s) (ready_peers s) (established_peers s) (sw_events s) (sw_actions s).
Definition set_peer_info (s : SwarmCore) (v : gmap P IdentifyMessage) : SwarmCore :=
  MkSwarm (ping s) (identify s) (conn_to_peer s) (peer_to_conn s) (active_connections s)
    (conn_to_remote_addr s) (inbound_negotiators s) (outbound_negotiators s) (stream_owner s)
    (pending_opens s) (next_open_token s) (supported s) (user_protocols s) (pending_pings s)
    (local_addresses s) v (ready_peers s) (established_peers s) (sw_events s) (sw_actions s).
Definition set_ready_peers (s : SwarmCore) (v : gset P) : SwarmCore :=
  MkSwarm (ping s) (identify s) (conn_to_peer s) (peer_to_conn s) (active_connections s)
    (conn_to_remote_addr s) (inbound_negotiators s) (outbound_negotiators s) (stream_owner s)
    (pending_opens s) (next_open_token s) (supported s) (user_protocols s) (pending_pings s)
    (local_addresses s) (peer_info s) v (established_peers s) (sw_events s) (sw_actions s).
Definition set_established_peers (s : SwarmCore) (v : gset P) : SwarmCore :=
  MkSwarm (ping s) (identify s) (conn_to_peer s) (peer_to_conn s) (active_connections s)
    (conn_to_remote_addr s) (inbound_negotiators s) (outbound_negotiators s) (stream_owner s)
    (pending_opens s) (next_open_token s) (supported s) (user_protocols s) (pending_pings s)
    (local_addresses s) (peer_info s) (ready_peers s) v (sw_events s) (sw_actions s).
Definition set_sw_events (s : SwarmCore) (v : list (SwarmEvent (P:=P))) : SwarmCore :=
  MkSwarm (ping s) (identify s) (conn_to_peer s) (peer_to_conn s) (active_connections s)
    (conn_to_remote_addr s) (inbound_negotiators s) (outbound_negotiators s) (stream_owner s)
    (pending_opens s) (next_open_token s) (supported s) (user_protocols s) (pending_pings s)
    (local_addresses s) (peer_info s) (ready_peers s) (established_peers s) v (sw_actions s).
Definition set_sw_actions (s : SwarmCore) (v : list SwarmAction) : SwarmCore :=
  MkSwarm (ping s) (identify s) (conn_to_peer s) (peer_to_conn s) (active_connections s)
    (conn_to_remote_addr s) (inbound_negotiators s) (outbound_negotiators s) (stream_owner s)
    (pending_opens s) (next_open_token s) (supported s) (user_protocols s) (pending_pings s)
    (local_addresses s) (peer_info s) (ready_peers s) (established_peers s) (sw_events s) v.

Definition swarm_new (identify_config : IdentifyConfig) (ping_config : PingConfig) : SwarmCore :=
  {| ping := ping_new ping_config; identify := identify_new identify_config;
     conn_to_peer := ∅; peer_to_conn := ∅; active_connections := ∅; conn_to_remote_addr := ∅;
     inbound_negotiators := ∅; outbound_negotiators := ∅; stream_owner := ∅; pending_opens := ∅;
     next_open_token := 1; supported := [IDENTIFY_PROTOCOL_ID; PING_PROTOCOL_ID];
     user_protocols := []; pending_pings := ∅; local_addresses := []; peer_info := ∅;
     ready_peers := ∅; established_peers := ∅; sw_events := []; sw_actions := [] |}.

(** [VecDeque::push_back]. *)
Definition emit (s : SwarmCore) (e : SwarmEvent) : SwarmCore := set_sw_events s (sw_events s ++ [e]).
Definition act (s : SwarmCore) (a : SwarmAction) : SwarmCore := set_sw_actions s (sw_actions s ++ [a]).

(** [let _ = ...]. *)
Definition ignore {E} (x : SwarmCore * res E unit) : res Empty_set SwarmCore :=
  match x with (_, Panic) => Panic | (s, _) => Ok s end.

Definition ping_input (s : SwarmCore) (i : PingInput) : SwarmCore * res (PingError (PeerId:=P)) unit :=
  let '(m, r) := ping_handle_input sp_le (ping s) i in (set_ping s m, r).
Definition identify_input (s : SwarmCore) (i : IdentifyInput)
    : SwarmCore * res (IdentifyError (P:=P)) unit :=
  let '(m, r) := identify_handle_input (identify s) i in (set_identify s m, r).

(** ** Configuration *)

Definition set_local_addrs (s : SwarmCore) (addrs : list (Multiaddr P)) : SwarmCore :=
  set_local_addresses s addrs.

Definition add_user_protocol (s : SwarmCore) (id : string) : SwarmCore :=
  let s := if decide (id ∈ user_protocols s) then s else set_user_protocols s (user_protocols s ++ [id]) in
  let s := if decide (id ∈ supported s) then s else set_supported s (supported s ++ [id]) in
  set_identify s (add_protocol (identify s) id).

(** ** State helpers *)

Definition require_conn (s : SwarmCore) (peer_id : P) : res (SwarmError (P:=P)) ConnectionId :=
  ok_or (peer_to_conn s !! peer_id) (NotConnected peer_id).

Definition require_user_stream_conn (s : SwarmCore) (peer_id : P) (stream_id : StreamId)
    : res (SwarmError (P:=P)) ConnectionId :=
  ok_or (find_map (λ '((conn_id, sid), protocol),
           if decide (sid = stream_id ∧ is_user protocol = true ∧
                      conn_to_peer s !! conn_id = Some peer_id)
           then Some conn_id else None)
         (btree_iter stream_key_le (stream_owner s)))
    (UserStreamNotFound peer_id stream_id).

Definition conn_for_owned_stream (s : SwarmCore) (peer_id : P) (stream_id : StreamId)
    (expected : ProtocolKind) : option ConnectionId :=
  find_map (λ '((conn_id, sid), protocol),
      if decide (sid = stream_id ∧ protocol = expected ∧ conn_to_peer s !! conn_id = Some peer_id)
      then Some conn_id else None)
    (btree_iter stream_key_le (stream_owner s)).

Definition established_peer_for_conn (s : SwarmCore) (conn_id : ConnectionId) : option P :=
  peer_id ← conn_to_peer s !! conn_id;
  if decide (peer_id ∈ established_peers s) then Some peer_id else None.

Definition emit_error (s : SwarmCore) (kind : SwarmErrorKind) (peer_id : option P)
    (conn_id : option ConnectionId) (detail : string) : SwarmCore :=
  emit s (SwarmErrorEvent {| err_kind := kind; err_peer_id := peer_id; err_conn_id := conn_id;
                             err_detail := detail |}).

Definition try_emit_peer_ready (s : SwarmCore) (peer_id : P) : SwarmCore :=
  if decide (peer_id ∈ ready_peers s) then s
  else
    match peer_info s !! peer_id with
    | None => s
    | Some info =>
        if decide (peer_to_conn s !! peer_id = None) then s
        else emit (set_ready_peers s ({[peer_id]} ∪ ready_peers s))
               (PeerReady peer_id (IdentifyMessage.protocols info))
    end.

Definition find_negotiated_ping_stream (s : SwarmCore) (peer_id : P) : option StreamId :=
  get_outbound_stream (ping s) peer_id.

Definition has_pending_ping_stream (s : SwarmCore) (peer_id : P) : bool :=
  match peer_to_conn s !! peer_id with
  | None => false
  | Some conn =>
      existsb (λ '((c, _), pending), bool_decide (c = conn ∧ target pending = KindPing))
        (map_to_list (outbound_negotiators s))
      || existsb (λ '(_, open), bool_decide (open_conn_id open = conn ∧ open_target open = KindPing))
           (map_to_list (pending_opens s))
  end.

(** The loop skips the value 0 after a wrap-around, so it runs at most twice. *)
Fixpoint next_token_loop (fuel : nat) (s : SwarmCore) : OpenStreamToken * SwarmCore :=
  let raw := next_open_token s in
  let s := set_next_open_token s (wrap_u64 (raw + 1)) in
  match fuel with
  | O => (raw, s)
  | S fuel => if raw =? 0 then next_token_loop fuel s else (raw, s)
  end.
Definition take_open_token (s : SwarmCore) : OpenStreamToken * SwarmCore := next_token_loop 1 s.

Definition queue_open_protocol_stream (s : SwarmCore) (peer_id : P) (protocol_id : string)
    (tgt : ProtocolKind) : SwarmCore * res (SwarmError (P:=P)) unit :=
  match require_conn s peer_id with
  | Ok conn_id =>
      if debug_assertions && bool_decide (conn_to_peer s !! conn_id ≠ Some peer_id) then (s, Panic)
      else
        let '(token, s) := take_open_token s in
        let s := set_pending_opens s
          (<[token := {| open_conn_id := conn_id; open_protocol := protocol_id;
                         open_target := tgt |}]> (pending_opens s)) in
        (act s (OpenStream conn_id token), Ok ())
  | Err e => (s, Err e)
  | Panic => (s, Panic)
  end.

(** The key of the placeholder identity. *)
Definition synthetic_peer (conn_id : ConnectionId) : P :=
  sp_from_key (as_bytes ("minip2p-synthetic-conn-" ++ to_string (A:=Z) conn_id)%string).

Definition ensure_peer_id_for_conn (s : SwarmCore) (conn_id : ConnectionId) : P * SwarmCore :=
  match conn_to_peer s !! conn_id with
  | Some peer_id => (peer_id, s)
  | None =>
      let peer_id := synthetic_peer conn_id in
      let s := set_conn_to_peer s (<[conn_id := peer_id]> (conn_to_peer s)) in
      (peer_id, set_peer_to_conn s (<[peer_id := conn_id]> (peer_to_conn s)))
  end.

(** ** Executing what the protocol machines ask for *)

Definition execute_ping_action (s : SwarmCore) (action : PingAction) : SwarmCore :=
  match action with
  | Ping.Send peer_id stream_id data =>
      match conn_for_owned_stream s peer_id stream_id KindPing with
      | Some conn_id => act s (SendStream conn_id stream_id data)
      | None => s
      end
  | Ping.CloseStreamWrite peer_id stream_id =>
      match conn_for_owned_stream s peer_id stream_id KindPing with
      | Some conn_id => act s (SwCloseStreamWrite conn_id stream_id)
      | None => s
      end
  | Ping.ResetStream peer_id stream_id =>
      match conn_for_owned_stream s peer_id stream_id KindPing with
      | Some conn_id => act s (SwResetStream conn_id stream_id)
      | None => s
      end
  end.

Definition execute_identify_action (s : SwarmCore) (action : IdentifyAction) : SwarmCore :=
  match action with
  | Identify.Send peer_id stream_id data =>
      match peer_to_conn s !! peer_id with
      | Some conn_id => act s (SendStream conn_id stream_id data)
      | None => s
      end
  | Identify.CloseStreamWrite peer_id stream_id =>
      match peer_to_conn s !! peer_id with
      | Some conn_id => act s (SwCloseStreamWrite conn_id stream_id)
      | None => s
      end
  end.

Definition handle_ping_event (s : SwarmCore) (event : PingEvent) : SwarmCore :=
  match event with
  | RttMeasured peer_id _ rtt_ms => emit s (PingRttMeasured peer_id rtt_ms)
  | Timeout peer_id _ _ => emit s (PingTimeout peer_id)
  | ProtocolViolation peer_id _ reason =>
      emit_error s KPing (Some peer_id) (peer_to_conn s !! peer_id)
        ("ping protocol violation from " ++ to_string peer_id ++ ": " ++ reason)%string
  | _ => s
  end.

Definition handle_identify_event (s : SwarmCore) (event : IdentifyEvent) : SwarmCore :=
  match event with
  | Received peer_id info =>
      let s := set_peer_info s (<[peer_id := info]> (peer_info s)) in
      let s := emit s (IdentifyReceived peer_id info) in
      try_emit_peer_ready s peer_id
  | IdentifyErrorEvent _ _ error =>
      emit_error s KIdentify None None ("identify error: " ++ error)%string
  end.

Fixpoint drain_ping_loop (fuel : nat) (s : SwarmCore) : SwarmCore :=
  match fuel with
  | O => s
  | S fuel =>
      match ping_poll_output (ping s) with
      | (None, m) => set_ping s m
      | (Some (Ping.Action action), m) => drain_ping_loop fuel (execute_ping_action (set_ping s m) action)
      | (Some (Ping.Event event), m) => drain_ping_loop fuel (handle_ping_event (set_ping s m) event)
      end
  end.
Definition drain_ping_outputs (s : SwarmCore) : SwarmCore :=
  drain_ping_loop (S (length (pending_actions (ping s)) + length (pending_events (ping s)))) s.

Fixpoint drain_identify_loop (fuel : nat) (s : SwarmCore) : SwarmCore :=
  match fuel with
  | O => s
  | S fuel =>
      match identify_poll_output (identify s) with
      | (None, m) => set_identify s m
      | (Some (Identify.Action action), m) =>
          drain_identify_loop fuel (execute_identify_action (set_identify s m) action)
      | (Some (Identify.Event event), m) =>
          drain_identify_loop fuel (handle_identify_event (set_identify s m) event)
      end
  end.
Definition drain_identify_outputs (s : SwarmCore) : SwarmCore :=
  drain_identify_loop
    (S (length (Identify.actions (identify s)) + length (Identify.events (identify s)))) s.

Definition collect_protocol_events (s : SwarmCore) : SwarmCore :=
  drain_identify_outputs (drain_ping_outputs s).

(** ** Connections *)

Definition retain_streams {A} (conn_id : ConnectionId) (m : gmap (ConnectionId * StreamId) A)
    : gmap (ConnectionId * StreamId) A :=
  filter (λ kv, kv.1.1 ≠ conn_id) m.

(** Drops every stream, negotiation and open request of a connection. *)
Definition forget_streams (s : SwarmCore) (conn_id : ConnectionId) : SwarmCore :=
  let s := set_stream_owner s (retain_streams conn_id (stream_owner s)) in
  let s := set_inbound_negotiators s (retain_streams conn_id (inbound_negotiators s)) in
  let s := set_outbound_negotiators s (retain_streams conn_id (outbound_negotiators s)) in
  set_pending_opens s (filter (λ kv, open_conn_id kv.2 ≠ conn_id) (pending_opens s)).

(** Both protocol machines forget the peer, and are drained. *)
Definition remove_from_machines (s : SwarmCore) (peer_id : P) : res Empty_set SwarmCore :=
  s ← ignore (ping_input s (Ping.RemovePeer peer_id));
  s ← ignore (identify_input s (Identify.RemovePeer peer_id));
  Ok (drain_identify_outputs (drain_ping_outputs s)).

(** What is known about a peer, and that it was announced. *)
Definition forget_peer (s : SwarmCore) (peer_id : P) : SwarmCore :=
  let s := set_peer_info s (delete peer_id (peer_info s)) in
  let s := set_ready_peers s (ready_peers s ∖ {[peer_id]}) in
  set_established_peers s (established_peers s ∖ {[peer_id]}).

Definition forget_addresses (s : SwarmCore) (conn_id : ConnectionId) : SwarmCore :=
  let s := set_active_connections s (delete conn_id (active_connections s)) in
  set_conn_to_remote_addr s (delete conn_id (conn_to_remote_addr s)).

(** [if let Some(payload) = pending_ping { self.pending_pings.insert(peer_id, payload) }] *)
Definition restore_ping (s : SwarmCore) (peer_id : P) (pending_ping : option (list byte)) : SwarmCore :=
  set_pending_pings s (from_option (λ payload, <[peer_id := payload]> (pending_pings s))
                         (pending_pings s) pending_ping).

Definition supersede_connection (s : SwarmCore) (old_id : ConnectionId) : res Empty_set SwarmCore :=
  s ← match conn_to_peer s !! old_id with
      | Some peer_id =>
          let s := set_conn_to_peer s (delete old_id (conn_to_peer s)) in
          let pending_ping := pending_pings s !! peer_id in
          let s := set_pending_pings s (delete peer_id (pending_pings s)) in
          s ← remove_from_machines s peer_id;
          let s := restore_ping s peer_id pending_ping in
          Ok (forget_peer s peer_id)
      | None => Ok s
      end;
  let s := forget_addresses s old_id in
  let s := forget_streams s old_id in
  Ok (act s (CloseConnection old_id)).

(** [if let Err(e) = queue_open(..) { emit_error(..) }] *)
Definition open_or_report (s : SwarmCore) (peer_id : P) (conn_id : ConnectionId)
    (protocol_id : string) (tgt : ProtocolKind) (kind : SwarmErrorKind)
    (detail : SwarmError (P:=P) → string) : res Empty_set SwarmCore :=
  match queue_open_protocol_stream s peer_id protocol_id tgt with
  | (s, Ok _) => Ok s
  | (s, Err e) => Ok (emit_error s kind (Some peer_id) (Some conn_id) (detail e))
  | (_, Panic) => Panic
  end.

Definition register_connection (s : SwarmCore) (id : ConnectionId) (peer_id : P)
    : res Empty_set SwarmCore :=
  let is_new := bool_decide (conn_to_peer s !! id = None) in
  s ← match peer_to_conn s !! peer_id with
      | Some existing_id => if decide (existing_id ≠ id) then supersede_connection s existing_id else Ok s
      | None => Ok s
      end;
  let s := set_conn_to_peer s (<[id := peer_id]> (conn_to_peer s)) in
  let s := set_peer_to_conn s (<[peer_id := id]> (peer_to_conn s)) in
  if is_new then
    let s := set_established_peers s ({[peer_id]} ∪ established_peers s) in
    let s := emit s (ConnectionEstablished peer_id) in
    s ← open_or_report s peer_id id IDENTIFY_PROTOCOL_ID KindIdentifyInitiator KIdentify
          (λ e, "failed to queue identify stream to " ++ to_string peer_id ++ ": " ++ to_string e)%string;
    if bool_decide (pending_pings s !! peer_id ≠ None)
       && bool_decide (find_negotiated_ping_stream s peer_id = None)
       && negb (has_pending_ping_stream s peer_id)
    then open_or_report s peer_id id PING_PROTOCOL_ID KindPing KPing
           (λ e, "failed to requeue pending ping stream to " ++ to_string peer_id ++ ": " ++ to_string e)%string
    else Ok s
  else Ok s.

Definition swarm_rekey (old new p : P) : P := if decide (p = old) then new else p.

Definition rekey_swarm_event (old new : P) (e : SwarmEvent (P:=P)) : SwarmEvent :=
  match e with
  | ConnectionEstablished p => ConnectionEstablished (swarm_rekey old new p)
  | ConnectionClosed p => ConnectionClosed (swarm_rekey old new p)
  | PingTimeout p => PingTimeout (swarm_rekey old new p)
  | IdentifyReceived p i => IdentifyReceived (swarm_rekey old new p) i
  | PingRttMeasured p r => PingRttMeasured (swarm_rekey old new p) r
  | UserStreamReady p s i l => UserStreamReady (swarm_rekey old new p) s i l
  | UserStreamData p s d => UserStreamData (swarm_rekey old new p) s d
  | UserStreamRemoteWriteClosed p s => UserStreamRemoteWriteClosed (swarm_rekey old new p) s
  | UserStreamClosed p s => UserStreamClosed (swarm_rekey old new p) s
  | PeerReady p ps => PeerReady (swarm_rekey old new p) ps
  | SwarmErrorEvent err =>
      SwarmErrorEvent {| err_kind := err_kind err;
                         err_peer_id := if decide (err_peer_id err = Some old) then Some new
                                        else err_peer_id err;
                         err_conn_id := err_conn_id err; err_detail := err_detail err |}
  end.

Definition migrate_buffered_events (s : SwarmCore) (old new : P) : SwarmCore :=
  set_sw_events s (rekey_swarm_event old new <$> sw_events s).

(** [if set.remove(old) { set.insert(new) }] *)
Definition migrate_set (old new : P) (X : gset P) : gset P :=
  if decide (old ∈ X) then {[new]} ∪ (X ∖ {[old]}) else X.
(** [if let Some(v) = map.remove(old) { map.insert(new, v) }] *)
Definition migrate_map {A} (old new : P) (m : gmap P A) : gmap P A :=
  match m !! old with Some v => <[new := v]> (delete old m) | None => m end.

(** Both protocol machines move the peer's state, and are drained. *)
Definition migrate_in_machines (s : SwarmCore) (old new : P) : res Empty_set SwarmCore :=
  s ← ignore (ping_input s (Ping.MigratePeer old new));
  s ← ignore (identify_input s (Identify.MigratePeer old new));
  Ok (drain_identify_outputs (drain_ping_outputs s)).

(** The swarm's own tables. *)
Definition migrate_tables (s : SwarmCore) (old new : P) : SwarmCore :=
  let s := set_pending_pings s (migrate_map old new (pending_pings s)) in
  let s := set_peer_info s (migrate_map old new (peer_info s)) in
  let s := set_ready_peers s (migrate_set old new (ready_peers s)) in
  set_established_peers s (migrate_set old new (established_peers s)).

(** The [Some(ref stale)] arm: everything kept under the old identity moves. *)
Definition migrate_stale (s : SwarmCore) (stale new : P) : res Empty_set SwarmCore :=
  let s := set_peer_to_conn s (delete stale (peer_to_conn s)) in
  s ← migrate_in_machines s stale new;
  let s := migrate_tables s stale new in
  Ok (migrate_buffered_events s stale new).

Definition upgrade_connection_identity (s : SwarmCore) (conn_id : ConnectionId) (new_peer_id : P)
    : res Empty_set SwarmCore :=
  let existing := conn_to_peer s !! conn_id in
  if decide (existing = Some new_peer_id) then Ok s
  else
    s ← match existing with
        | Some stale => migrate_stale s stale new_peer_id
        | None => Ok s
        end;
    let s := set_conn_to_peer s (<[conn_id := new_peer_id]> (conn_to_peer s)) in
    let s := set_peer_to_conn s (<[new_peer_id := conn_id]> (peer_to_conn s)) in
    let s := set_established_peers s ({[new_peer_id]} ∪ established_peers s) in
    let s := emit s (ConnectionEstablished new_peer_id) in
    let s := try_emit_peer_ready s new_peer_id in
    open_or_report s new_peer_id conn_id IDENTIFY_PROTOCOL_ID KindIdentifyInitiator KIdentify
      (λ e, "failed to queue identify stream to " ++ to_string new_peer_id
              ++ " after identity upgrade: " ++ to_string e)%string.

(** ** Negotiation *)

(** Returns the new core, the negotiated protocol, and whether the stream is to be
    reset. *)
Definition handle_multistream_output (s : SwarmCore) (conn_id : ConnectionId) (stream_id : StreamId)
    (output : MultistreamOutput) (negotiated_protocol : option string)
    : SwarmCore * option string * bool :=
  match output with
  | OutboundData bytes => (act s (SendStream conn_id stream_id bytes), negotiated_protocol, false)
  | Negotiated protocol => (s, Some protocol, false)
  | NotAvailable => (s, negotiated_protocol, true)
  | ProtocolError reason =>
      (emit_error s KMultistream (established_peer_for_conn s conn_id) (Some conn_id)
         ("multistream error on stream " ++ to_string (A:=Z) stream_id ++ ": " ++ reason)%string,
       negotiated_protocol, true)
  end.

(** [while let Some(output) = negotiator.poll_output() { .. }] on a machine that is not
    in the maps yet. *)
Fixpoint poll_local (fuel : nat) (s : SwarmCore) (conn_id : ConnectionId) (stream_id : StreamId)
    (n : MultistreamSelect) : SwarmCore * MultistreamSelect :=
  match fuel with
  | O => (s, n)
  | S fuel =>
      match ms_poll_output n with
      | (None, n) => (s, n)
      | (Some output, n) =>
          let '(s, _, _) := handle_multistream_output s conn_id stream_id output None in
          poll_local fuel s conn_id stream_id n
      end
  end.

(** The same on an entry of [inbound_negotiators]: the loop returns early when the
    stream is to be reset. *)
Fixpoint poll_inbound (fuel : nat) (s : SwarmCore) (conn_id : ConnectionId) (stream_id : StreamId)
    (stop_on_failure : bool) (negotiated_protocol : option string) : SwarmCore * option string * bool :=
  match fuel with
  | O => (s, negotiated_protocol, false)
  | S fuel =>
      match inbound_negotiators s !! (conn_id, stream_id) with
      | None => (s, negotiated_protocol, false)
      | Some n =>
          match ms_poll_output n with
          | (None, n) =>
              (set_inbound_negotiators s (<[(conn_id, stream_id) := n]> (inbound_negotiators s)),
               negotiated_protocol, false)
          | (Some output, n) =>
              let s := set_inbound_negotiators s (<[(conn_id, stream_id) := n]> (inbound_negotiators s)) in
              let '(s, negotiated, failed) :=
                handle_multistream_output s conn_id stream_id output negotiated_protocol in
              if failed && stop_on_failure then (s, negotiated, true)
              else poll_inbound fuel s conn_id stream_id stop_on_failure negotiated
          end
      end
  end.

(** The loop of [feed_outbound_negotiator]: [negotiated] and whether it returned early. *)
Fixpoint poll_outbound (fuel : nat) (s : SwarmCore) (conn_id : ConnectionId) (stream_id : StreamId)
    (negotiated : bool) : SwarmCore * bool * bool :=
  match fuel with
  | O => (s, negotiated, false)
  | S fuel =>
      match outbound_negotiators s !! (conn_id, stream_id) with
      | None => (s, negotiated, false)
      | Some pending =>
          let '(output, n) := ms_poll_output (negotiator pending) in
          let s := set_outbound_negotiators s
            (<[(conn_id, stream_id) := {| negotiator := n; target := target pending |}]>
               (outbound_negotiators s)) in
          match output with
          | None => (s, negotiated, false)
          | Some (Negotiated _) => poll_outbound fuel s conn_id stream_id true
          | Some NotAvailable =>
              (emit_error s KUnsupportedProtocol (established_peer_for_conn s conn_id) (Some conn_id)
                 ("remote peer does not support protocol for stream " ++ to_string (A:=Z) stream_id)%string,
               negotiated, true)
          | Some other =>
              let '(s, _, failed) := handle_multistream_output s conn_id stream_id other None in
              if failed then (s, negotiated, true) else poll_outbound fuel s conn_id stream_id negotiated
          end
      end
  end.

Definition handle_incoming_stream (s : SwarmCore) (conn_id : ConnectionId) (stream_id : StreamId)
    : res Empty_set SwarmCore :=
  let '(l, r) := ms_handle_input (listener (supported s)) Start in
  s ← match r with
      | Ok _ => Ok s
      | Err error =>
          Ok (emit_error s KMultistream (established_peer_for_conn s conn_id) (Some conn_id)
                ("multistream start failed on inbound stream " ++ to_string (A:=Z) stream_id
                   ++ ": " ++ to_string error)%string)
      | Panic => Panic
      end;
  let s := set_inbound_negotiators s (<[(conn_id, stream_id) := l]> (inbound_negotiators s)) in
  let '(s, _, _) := poll_inbound (S (length (pending_outputs l))) s conn_id stream_id false None in
  Ok s.

Definition on_inbound_negotiated (s : SwarmCore) (conn_id : ConnectionId) (stream_id : StreamId)
    (protocol : string) : res Empty_set SwarmCore :=
  let '(peer_id, s) := ensure_peer_id_for_conn s conn_id in
  if decide (protocol = PING_PROTOCOL_ID) then
    let s := set_stream_owner s (<[(conn_id, stream_id) := KindPing]> (stream_owner s)) in
    s ← ignore (ping_input s (Ping.RegisterInboundStream peer_id stream_id));
    Ok (drain_ping_outputs s)
  else if decide (protocol = IDENTIFY_PROTOCOL_ID) then
    let observed_addr := conn_to_remote_addr s !! conn_id in
    match identify_input s (Identify.RegisterOutboundStream peer_id stream_id observed_addr
                              (local_addresses s)) with
    | (s, Ok _) =>
        let s := set_stream_owner s (<[(conn_id, stream_id) := KindIdentifyResponder]> (stream_owner s)) in
        Ok (drain_identify_outputs s)
    | (s, Err e) =>
        let s := emit_error s KIdentifyStreamRejected (Some peer_id) (Some conn_id)
                   ("identify responder error: " ++ to_string e)%string in
        Ok (act s (SwResetStream conn_id stream_id))
    | (_, Panic) => Panic
    end
  else if decide (protocol ∈ user_protocols s) then
    let s := set_stream_owner s (<[(conn_id, stream_id) := KindUser protocol]> (stream_owner s)) in
    Ok (emit s (UserStreamReady peer_id stream_id protocol false))
  else Ok s.

Definition on_outbound_negotiated (s : SwarmCore) (conn_id : ConnectionId) (stream_id : StreamId)
    (tgt : ProtocolKind) (now_ms : Z) : res Empty_set SwarmCore :=
  let '(peer_id, s) := ensure_peer_id_for_conn s conn_id in
  let s := set_stream_owner s (<[(conn_id, stream_id) := tgt]> (stream_owner s)) in
  match tgt with
  | KindPing =>
      match ping_input s (Ping.RegisterOutboundStream peer_id stream_id) with
      | (s, Err e) =>
          let s := emit_error s KPing (Some peer_id) (Some conn_id)
                     ("ping register error: " ++ to_string e)%string in
          let s := set_stream_owner s (delete (conn_id, stream_id) (stream_owner s)) in
          Ok (act s (SwResetStream conn_id stream_id))
      | (_, Panic) => Panic
      | (s, Ok _) =>
          let s := drain_ping_outputs s in
          match pending_pings s !! peer_id with
          | None => Ok s
          | Some payload =>
              let s := set_pending_pings s (delete peer_id (pending_pings s)) in
              match ping_input s (SendPing peer_id payload now_ms) with
              | (s, Ok _) => Ok (drain_ping_outputs s)
              | (s, Err e) =>
                  Ok (emit_error s KPing (Some peer_id) (Some conn_id)
                        ("deferred ping send failed: " ++ to_string e)%string)
              | (_, Panic) => Panic
              end
          end
      end
  | KindIdentifyInitiator =>
      s ← ignore (identify_input s (Identify.RegisterInboundStream peer_id stream_id));
      Ok (drain_identify_outputs s)
  | KindIdentifyResponder => Ok s
  | KindUser protocol_id => Ok (emit s (UserStreamReady peer_id stream_id protocol_id true))
  end.

(** ** Stream events *)

Definition dispatch_protocol_data (s : SwarmCore) (conn_id : ConnectionId) (stream_id : StreamId)
    (data : list byte) (now_ms : Z) : res Empty_set SwarmCore :=
  match stream_owner s !! (conn_id, stream_id) with
  | None => Ok s
  | Some protocol =>
      let '(peer_id, s) := ensure_peer_id_for_conn s conn_id in
      match protocol with
      | KindPing =>
          s ← ignore (ping_input s (Ping.StreamData peer_id stream_id data now_ms));
          Ok (drain_ping_outputs s)
      | KindIdentifyInitiator =>
          s ← ignore (identify_input s (Identify.StreamData peer_id stream_id data));
          Ok (drain_identify_outputs s)
      | KindIdentifyResponder => Ok s
      | KindUser _ => Ok (emit s (UserStreamData peer_id stream_id data))
      end
  end.

Definition reset_inbound (s : SwarmCore) (conn_id : ConnectionId) (stream_id : StreamId) : SwarmCore :=
  act (set_inbound_negotiators s (delete (conn_id, stream_id) (inbound_negotiators s)))
    (SwResetStream conn_id stream_id).
Definition reset_outbound (s : SwarmCore) (conn_id : ConnectionId) (stream_id : StreamId) : SwarmCore :=
  act (set_outbound_negotiators s (delete (conn_id, stream_id) (outbound_negotiators s)))
    (SwResetStream conn_id stream_id).

Definition feed_inbound_negotiator (s : SwarmCore) (conn_id : ConnectionId) (stream_id : StreamId)
    (data : list byte) (now_ms : Z) : res Empty_set SwarmCore :=
  match inbound_negotiators s !! (conn_id, stream_id) with
  | None => Ok s
  | Some n =>
      let '(n, r) := ms_handle_input n (Data data) in
      let s := set_inbound_negotiators s (<[(conn_id, stream_id) := n]> (inbound_negotiators s)) in
      match r with
      | Panic => Panic
      | Err error =>
          let s := emit_error s KMultistream (established_peer_for_conn s conn_id) (Some conn_id)
            ("multistream input failed on inbound stream " ++ to_string (A:=Z) stream_id
               ++ ": " ++ to_string error)%string in
          Ok (reset_inbound s conn_id stream_id)
      | Ok _ =>
          let '(s, negotiated, failed) :=
            poll_inbound (S (length (pending_outputs n))) s conn_id stream_id true None in
          if failed then Ok (reset_inbound s conn_id stream_id)
          else
            match negotiated with
            | None => Ok s
            | Some protocol =>
                let remaining := from_option recv_buf [] (inbound_negotiators s !! (conn_id, stream_id)) in
                let s := set_inbound_negotiators s (delete (conn_id, stream_id) (inbound_negotiators s)) in
                s ← on_inbound_negotiated s conn_id stream_id protocol;
                if decide (remaining ≠ []) then dispatch_protocol_data s conn_id stream_id remaining now_ms
                else Ok s
            end
      end
  end.

Definition feed_outbound_negotiator (s : SwarmCore) (conn_id : ConnectionId) (stream_id : StreamId)
    (data : list byte) (now_ms : Z) : res Empty_set SwarmCore :=
  match outbound_negotiators s !! (conn_id, stream_id) with
  | None => Ok s
  | Some pending =>
      let '(n, r) := ms_handle_input (negotiator pending) (Data data) in
      let s := set_outbound_negotiators s
        (<[(conn_id, stream_id) := {| negotiator := n; target := target pending |}]>
           (outbound_negotiators s)) in
      match r with
      | Panic => Panic
      | Err error =>
          let s := emit_error s KMultistream (established_peer_for_conn s conn_id) (Some conn_id)
            ("multistream input failed on outbound stream " ++ to_string (A:=Z) stream_id
               ++ ": " ++ to_string error)%string in
          Ok (reset_outbound s conn_id stream_id)
      | Ok _ =>
          let '(s, negotiated, failed) :=
            poll_outbound (S (length (pending_outputs n))) s conn_id stream_id false in
          if failed then Ok (reset_outbound s conn_id stream_id)
          else if negotiated then
            let remaining := from_option (λ p, recv_buf (negotiator p)) []
              (outbound_negotiators s !! (conn_id, stream_id)) in
            let s := set_outbound_negotiators s (delete (conn_id, stream_id) (outbound_negotiators s)) in
            s ← on_outbound_negotiated s conn_id stream_id (target pending) now_ms;
            if decide (remaining ≠ []) then dispatch_protocol_data s conn_id stream_id remaining now_ms
            else Ok s
          else Ok s
      end
  end.

Definition handle_stream_data (s : SwarmCore) (conn_id : ConnectionId) (stream_id : StreamId)
    (data : list byte) (now_ms : Z) : res Empty_set SwarmCore :=
  if decide (inbound_negotiators s !! (conn_id, stream_id) ≠ None)
  then feed_inbound_negotiator s conn_id stream_id data now_ms
  else if decide (outbound_negotiators s !! (conn_id, stream_id) ≠ None)
  then feed_outbound_negotiator s conn_id stream_id data now_ms
  else dispatch_protocol_data s conn_id stream_id data now_ms.

Definition handle_stream_remote_write_closed (s : SwarmCore) (conn_id : ConnectionId)
    (stream_id : StreamId) : res Empty_set SwarmCore :=
  match stream_owner s !! (conn_id, stream_id) with
  | None => Ok s
  | Some protocol =>
      let '(peer_id, s) := ensure_peer_id_for_conn s conn_id in
      match protocol with
      | KindPing =>
          s ← ignore (ping_input s (Ping.StreamRemoteWriteClosed peer_id stream_id));
          Ok (drain_ping_outputs s)
      | KindIdentifyInitiator =>
          s ← ignore (identify_input s (Identify.StreamRemoteWriteClosed peer_id stream_id));
          Ok (drain_identify_outputs s)
      | KindIdentifyResponder => Ok s
      | KindUser _ => Ok (emit s (UserStreamRemoteWriteClosed peer_id stream_id))
      end
  end.

Definition handle_stream_closed (s : SwarmCore) (conn_id : ConnectionId) (stream_id : StreamId)
    : res Empty_set SwarmCore :=
  let key := (conn_id, stream_id) in
  let owner := stream_owner s !! key in
  let s := set_stream_owner s (delete key (stream_owner s)) in
  s ← match owner, conn_to_peer s !! conn_id with
      | Some protocol, Some peer_id =>
          match protocol with
          | KindPing =>
              s ← ignore (ping_input s (Ping.StreamClosed peer_id stream_id));
              Ok (drain_ping_outputs s)
          | KindIdentifyInitiator | KindIdentifyResponder =>
              s ← ignore (identify_input s (Identify.StreamClosed peer_id stream_id));
              Ok (drain_identify_outputs s)
          | KindUser _ => Ok (emit s (UserStreamClosed peer_id stream_id))
          end
      | _, _ => Ok s
      end;
  let s := set_inbound_negotiators s (delete key (inbound_negotiators s)) in
  Ok (set_outbound_negotiators s (delete key (outbound_negotiators s))).

Definition handle_connection_closed (s : SwarmCore) (conn_id : ConnectionId)
    : res Empty_set SwarmCore :=
  let s := forget_addresses s conn_id in
  let found := conn_to_peer s !! conn_id in
  let s := set_conn_to_peer s (delete conn_id (conn_to_peer s)) in
  s ← match found with
      | Some peer_id =>
          if decide (peer_to_conn s !! peer_id = Some conn_id) then
            let s := set_peer_to_conn s (delete peer_id (peer_to_conn s)) in
            s ← remove_from_machines s peer_id;
            let s := set_pending_pings s (delete peer_id (pending_pings s)) in
            let s := forget_peer s peer_id in
            Ok (emit s (ConnectionClosed peer_id))
          else Ok s
      | None => Ok s
      end;
  Ok (forget_streams s conn_id).

(** ** Inputs *)

Definition handle_transport_event (s : SwarmCore) (event : TransportEvent (P:=P)) (now_ms : Z)
    : res Empty_set SwarmCore :=
  match event with
  | TConnected id endpoint =>
      let s := set_active_connections s (<[id := true]> (active_connections s)) in
      let s := set_conn_to_remote_addr s (<[id := transport endpoint]> (conn_to_remote_addr s)) in
      match endpoint_peer_id endpoint with
      | Some peer_id => register_connection s id peer_id
      | None => Ok (ensure_peer_id_for_conn s id).2
      end
  | TPeerIdentityVerified id endpoint _ =>
      let s := set_conn_to_remote_addr s (<[id := transport endpoint]> (conn_to_remote_addr s)) in
      match endpoint_peer_id endpoint with
      | Some peer_id => upgrade_connection_identity s id peer_id
      | None => Ok s
      end
  | TIncomingConnection id endpoint =>
      let s := set_active_connections s (<[id := false]> (active_connections s)) in
      Ok (set_conn_to_remote_addr s (<[id := transport endpoint]> (conn_to_remote_addr s)))
  | TIncomingStream id stream_id => handle_incoming_stream s id stream_id
  | TStreamOpened _ _ => Ok s
  | TStreamData id stream_id data => handle_stream_data s id stream_id data now_ms
  | TStreamRemoteWriteClosed id stream_id => handle_stream_remote_write_closed s id stream_id
  | TStreamClosed id stream_id => handle_stream_closed s id stream_id
  | TClosed id => handle_connection_closed s id
  | TListening _ => Ok s
  | TError id message =>
      Ok (emit_error s KTransport (established_peer_for_conn s id) (Some id)
            ("transport error on connection " ++ to_string (A:=Z) id ++ ": " ++ message)%string)
  end.

Definition handle_tick (s : SwarmCore) (now_ms : Z) : res Empty_set SwarmCore :=
  s ← ignore (ping_input s (Tick now_ms));
  Ok (collect_protocol_events s).

Definition handle_stream_opened (s : SwarmCore) (conn_id : ConnectionId) (stream_id : StreamId)
    (token : OpenStreamToken) (now_ms : Z) : res Empty_set SwarmCore :=
  match pending_opens s !! token with
  | None =>
      Ok (emit_error s KDriver None None
            ("unknown OpenStream token " ++ to_string (A:=Z) token ++ " reported by driver")%string)
  | Some pending =>
      let s := set_pending_opens s (delete token (pending_opens s)) in
      if decide (open_conn_id pending ≠ conn_id) then
        Ok (emit_error s KDriver (established_peer_for_conn s conn_id) (Some conn_id)
              ("driver opened stream on connection " ++ to_string (A:=Z) conn_id
                 ++ " but core requested " ++ to_string (A:=Z) (open_conn_id pending))%string)
      else
        let '(n, r) := ms_handle_input (dialer (open_protocol pending)) Start in
        s ← match r with
            | Ok _ => Ok s
            | Err error =>
                Ok (emit_error s KMultistream (established_peer_for_conn s conn_id) (Some conn_id)
                      ("multistream start failed on outbound stream " ++ to_string (A:=Z) stream_id
                         ++ ": " ++ to_string error)%string)
            | Panic => Panic
            end;
        let '(s, n) := poll_local (S (length (pending_outputs n))) s conn_id stream_id n in
        Ok (set_outbound_negotiators s
              (<[(conn_id, stream_id) := {| negotiator := n; target := open_target pending |}]>
                 (outbound_negotiators s)))
  end.

Definition handle_open_stream_failed (s : SwarmCore) (token : OpenStreamToken) (reason : string)
    (now_ms : Z) : SwarmCore :=
  match pending_opens s !! token with
  | Some p =>
      let s := set_pending_opens s (delete token (pending_opens s)) in
      emit_error s KOpenStreamFailed (established_peer_for_conn s (open_conn_id p))
        (Some (open_conn_id p))
        ("open_stream for protocol '" ++ open_protocol p ++ "' on connection "
           ++ to_string (A:=Z) (open_conn_id p) ++ " failed: " ++ reason)%string
  | None =>
      emit_error s KOpenStreamFailed None None
        ("open_stream failed (unknown token): " ++ reason)%string
  end.

Definition swarm_handle_input (s : SwarmCore) (input : SwarmInput (P:=P)) : res Empty_set SwarmCore :=
  match input with
  | SwTransport event now_ms => handle_transport_event s event now_ms
  | SwTick now_ms => handle_tick s now_ms
  | SwStreamOpened conn_id stream_id token now_ms => handle_stream_opened s conn_id stream_id token now_ms
  | SwOpenStreamFailed token reason now_ms => Ok (handle_open_stream_failed s token reason now_ms)
  | SwRuntimeError error => Ok (emit s (SwarmErrorEvent error))
  end.

Definition swarm_poll_output (s : SwarmCore) : option (SwarmOutput (P:=P)) * SwarmCore :=
  match sw_actions s with
  | action :: rest => (Some (SwAction action), set_sw_actions s rest)
  | [] =>
      match sw_events s with
      | event :: rest => (Some (SwEvent event), set_sw_events s rest)
      | [] => (None, s)
      end
  end.

Definition swarm_is_idle (s : SwarmCore) : bool :=
  bool_decide (sw_actions s = []) && bool_decide (sw_events s = []).

(** ** What the application asks for *)

Definition ping_peer (s : SwarmCore) (peer_id : P) (payload : list byte) (now_ms : Z)
    : SwarmCore * res (SwarmError (P:=P)) unit :=
  if decide (peer_to_conn s !! peer_id = None) then (s, Err (NotConnected peer_id))
  else if decide (find_negotiated_ping_stream s peer_id ≠ None) then
    match ping_input s (SendPing peer_id payload now_ms) with
    | (s, Ok _) => (drain_ping_outputs s, Ok ())
    | (s, Err e) => (s, Err (SwPingError (to_string e)))
    | (s, Panic) => (s, Panic)
    end
  else
    let pending := has_pending_ping_stream s peer_id in
    let s := set_pending_pings s (<[peer_id := payload]> (pending_pings s)) in
    if pending then (s, Ok ())
    else queue_open_protocol_stream s peer_id PING_PROTOCOL_ID KindPing.

Definition open_user_stream (s : SwarmCore) (peer_id : P) (protocol_id : string)
    : SwarmCore * res (SwarmError (P:=P)) unit :=
  if decide (protocol_id ∉ user_protocols s) then (s, Err (ProtocolNotRegistered protocol_id))
  else if decide (peer_to_conn s !! peer_id = None) then (s, Err (NotConnected peer_id))
  else if bool_decide (peer_id ∈ ready_peers s)
          && negb (from_option (λ info, bool_decide (protocol_id ∈ IdentifyMessage.protocols info)) false
                     (peer_info s !! peer_id))
  then (s, Err (RemoteDoesNotSupport peer_id protocol_id))
  else queue_open_protocol_stream s peer_id protocol_id (KindUser protocol_id).

(** The three operations on a negotiated user stream. *)
Definition user_stream_action (s : SwarmCore) (peer_id : P) (stream_id : StreamId)
    (a : ConnectionId → SwarmAction) : SwarmCore * res (SwarmError (P:=P)) unit :=
  match require_user_stream_conn s peer_id stream_id with
  | Ok conn_id => (act s (a conn_id), Ok ())
  | Err e => (s, Err e)
  | Panic => (s, Panic)
  end.
Definition send_user_stream (s : SwarmCore) (peer_id : P) (stream_id : StreamId) (data : list byte) :=
  user_stream_action s peer_id stream_id (λ conn_id, SendStream conn_id stream_id data).
Definition close_user_stream_write (s : SwarmCore) (peer_id : P) (stream_id : StreamId) :=
  user_stream_action s peer_id stream_id (λ conn_id, SwCloseStreamWrite conn_id stream_id).
Definition reset_user_stream (s : SwarmCore) (peer_id : P) (stream_id : StreamId) :=
  user_stream_action s peer_id stream_id (λ conn_id, SwResetStream conn_id stream_id).

Definition disconnect (s : SwarmCore) (peer_id : P) : SwarmCore * res (SwarmError (P:=P)) unit :=
  match require_conn s peer_id with
  | Ok conn_id => (act s (CloseConnection conn_id), Ok ())
  | Err e => (s, Err e)
  | Panic => (s, Panic)
  end.

(** ** The trait *)

#[export] Instance Swarm_sansio : SansIoProtocol SwarmCore SwarmInput SwarmOutput Empty_set := {
  handle_input s i := match swarm_handle_input s i with Ok s' => (s', Ok ()) | _ => (s, Panic) end;
  poll_output := swarm_poll_output;
  is_idle := swarm_is_idle;
}.

#[export, refine] Instance Swarm_laws : SansIoLaws Swarm_sansio := {
  pending s := (length (sw_actions s) + length (sw_events s))%nat
}.
Proof.
  - intros s. cbn. unfold swarm_is_idle, swarm_poll_output.
    rewrite andb_true_iff, !bool_decide_eq_true. destruct (sw_actions s), (sw_events s); naive_solver.
  - intros s s'. cbn. unfold swarm_is_idle, swarm_poll_output.
    rewrite andb_true_iff, !bool_decide_eq_true.
    destruct (sw_actions s) eqn:E1, (sw_events s) eqn:E2; naive_solver.
  - intros s o s'. cbn. unfold swarm_poll_output.
    destruct (sw_actions s) eqn:E1, (sw_events s) eqn:E2; intros [=]; subst; cbn; rewrite ?E1, ?E2; cbn; lia.
Qed.

End swarm.
