(* ===== verification/SwarmInvariant.v ===== *)
(** * The swarm core never loses track ([crates/swarm/src/core.rs])

    The invariant that ties the swarm's tables and machines together, that every
    operation preserves it and no operation unwinds, and what closing, superseding and
    upgrading a connection do. *)
From S2P Require Import Prelude SansIo Varint Multibase PeerId Multiaddr Multistream.
From S2P Require Import IdentifyMessage Ping Identify SwarmEvents SwarmCore.
From Stdlib Require Import ZArith Strings.Byte Strings.String.
From stdpp Require Import base numbers list gmap strings.

#[local] Open Scope Z_scope.

Create HintDb swarm discriminated.

Section invariant.
Context {P : Type} `{SP : !SwarmPeers P} `{BP : !BuildProfile}.
Implicit Types (s : SwarmCore (P:=P)) (p : P) (c : ConnectionId).

Record swarm_inv s : Prop := {
  (** The machines keep their own invariants. *)
  inv_ping : ping_inv (ping s);
  inv_identify : identify_inv (identify s);
  inv_inbound : map_Forall (λ _ n, ms_ok n) (inbound_negotiators s);
  inv_outbound : map_Forall (λ _ o, ms_ok (negotiator o)) (outbound_negotiators s);
  (** A peer's primary connection belongs to that peer. *)
  inv_primary p c : peer_to_conn s !! p = Some c → conn_to_peer s !! c = Some p;
  (** Negotiated streams belong to connections with an identity. *)
  inv_streams c st k : stream_owner s !! (c, st) = Some k → is_Some (conn_to_peer s !! c);
  (** Ready peers are connected and identified, established ones connected. *)
  inv_ready p : p ∈ ready_peers s → is_Some (peer_to_conn s !! p) ∧ is_Some (peer_info s !! p);
  inv_established p : p ∈ established_peers s → is_Some (peer_to_conn s !! p);
  inv_token : is_u64 (next_open_token s);
}.

(** ** Quiet steps

    Feeding and draining the protocol machines changes the machines, the queues, and
    what identify tells about peers; everything else stays. *)

Definition quiet_to s pg idf info rd es acts : SwarmCore :=
  MkSwarm pg idf (conn_to_peer s) (peer_to_conn s) (active_connections s) (conn_to_remote_addr s)
    (inbound_negotiators s) (outbound_negotiators s) (stream_owner s) (pending_opens s)
    (next_open_token s) (supported s) (user_protocols s) (pending_pings s) (local_addresses s)
    info rd (established_peers s) es acts.

Definition quiet s s' : Prop :=
  s' = quiet_to s (ping s') (identify s') (peer_info s') (ready_peers s') (sw_events s') (sw_actions s') ∧
  (ping_inv (ping s) → ping_inv (ping s')) ∧
  (identify_inv (identify s) → identify_inv (identify s')) ∧
  (∀ p, is_Some (peer_info s !! p) → is_Some (peer_info s' !! p)) ∧
  (∀ p, p ∈ ready_peers s' → p ∈ ready_peers s ∨
     is_Some (peer_to_conn s !! p) ∧ is_Some (peer_info s' !! p)) ∧
  sw_events s `prefix_of` sw_events s' ∧ sw_actions s `prefix_of` sw_actions s'.

#[export] Instance quiet_preorder : PreOrder quiet.
Proof.
  split.
  - intros s. split_and!; [by destruct s|done..|auto|done|done].
  - intros s1 s2 s3 (E1 & Hp1 & Hi1 & Hf1 & Hr1 & He1 & Ha1) (E2 & Hp2 & Hi2 & Hf2 & Hr2 & He2 & Ha2).
    split_and!; [|auto..|etrans; done|etrans; done].
    + rewrite E2. rewrite E1. done.
    + intros p [Hp|Hp]%Hr2; [|right; by rewrite E1 in Hp]. apply Hr1 in Hp as [?|[? ?]]; auto.
Qed.

Lemma quiet_act s a : quiet s (act s a).
Proof. split_and!; [done..|auto|done|by eexists]. Qed.
Lemma quiet_emit s e : quiet s (emit s e).
Proof. split_and!; [done..|auto|by eexists|done]. Qed.
Lemma quiet_set_ping s m : (ping_inv (ping s) → ping_inv m) → quiet s (set_ping s m).
Proof. intros H. split_and!; [done|exact H|done|done|auto|done|done]. Qed.
Lemma quiet_set_identify s m : (identify_inv (identify s) → identify_inv m) → quiet s (set_identify s m).
Proof. intros H. split_and!; [done..|exact H|done|auto|done|done]. Qed.

Lemma quiet_ready s p : quiet s (try_emit_peer_ready s p).
Proof.
  unfold try_emit_peer_ready. case_decide; [done|]. destruct (peer_info s !! p) eqn:E; [|done].
  case_decide as Hc; [done|]. etrans; [|apply quiet_emit].
  split_and!; [done..| |done|done]. intros q. cbn. rewrite elem_of_union, elem_of_singleton.
  intros [->|?]; [right|by left]. rewrite E. split; [|by eexists]. by apply not_eq_None_Some.
Qed.

Lemma quiet_error s k op oc d : quiet s (emit_error s k op oc d).
Proof. apply quiet_emit. Qed.

#[local] Hint Resolve quiet_act quiet_emit quiet_error quiet_ready : swarm.

Lemma quiet_ping_action s a : quiet s (execute_ping_action s a).
Proof. destruct a; cbn [execute_ping_action]; case_match; auto with swarm; reflexivity. Qed.
Lemma quiet_identify_action s a : quiet s (execute_identify_action s a).
Proof. destruct a; cbn [execute_identify_action]; case_match; auto with swarm; reflexivity. Qed.
Lemma quiet_ping_event s e : quiet s (handle_ping_event s e).
Proof. destruct e; cbn [handle_ping_event]; auto with swarm; reflexivity. Qed.
Lemma quiet_identify_event s e : quiet s (handle_identify_event s e).
Proof.
  destruct e as [p info|]; cbn [handle_identify_event]; [|apply quiet_emit].
  etrans; [|apply quiet_ready]. etrans; [|apply quiet_emit].
  split_and!; [done..| | |done|done]; cbn; [|auto].
  intros q Hq. destruct (decide (p = q)) as [->|]; [rewrite lookup_insert_eq; by eexists|].
  by rewrite lookup_insert_ne.
Qed.

Lemma quiet_drain_ping_loop fuel s : quiet s (drain_ping_loop fuel s).
Proof.
  revert s. induction fuel as [|fuel IH]; intros s; cbn [drain_ping_loop]; [reflexivity|].
  destruct (ping_poll_output (ping s)) as [[[a|e]|] m] eqn:E;
    assert (quiet s (set_ping s m)) as Hm
      by (apply quiet_set_ping; unfold ping_poll_output in E; repeat case_match; by simplify_eq).
  - etrans; [exact Hm|]. etrans; [apply quiet_ping_action|apply IH].
  - etrans; [exact Hm|]. etrans; [apply quiet_ping_event|apply IH].
  - exact Hm.
Qed.
Lemma quiet_drain_ping s : quiet s (drain_ping_outputs s).
Proof. apply quiet_drain_ping_loop. Qed.

Lemma quiet_drain_identify_loop fuel s : quiet s (drain_identify_loop fuel s).
Proof.
  revert s. induction fuel as [|fuel IH]; intros s; cbn [drain_identify_loop]; [reflexivity|].
  destruct (identify_poll_output (identify s)) as [[[a|e]|] m] eqn:E;
    assert (quiet s (set_identify s m)) as Hm
      by (apply quiet_set_identify; unfold identify_poll_output in E; repeat case_match; by simplify_eq).
  - etrans; [exact Hm|]. etrans; [apply quiet_identify_action|apply IH].
  - etrans; [exact Hm|]. etrans; [apply quiet_identify_event|apply IH].
  - exact Hm.
Qed.
Lemma quiet_drain_identify s : quiet s (drain_identify_outputs s).
Proof. apply quiet_drain_identify_loop. Qed.

(** Feeding a machine never unwinds. *)
Lemma ping_input_quiet s i :
  ping_inv (ping s) → ∃ s' r, ping_input s i = (s', r) ∧ r ≠ Panic ∧ quiet s s'.
Proof.
  intros Hi. unfold ping_input. destruct (ping_handle_input_inv sp_le (ping s) i Hi) as [Hm Hr].
  destruct (ping_handle_input sp_le (ping s) i) as [m r]. eexists _, _.
  split_and!; [done|done|]. by apply quiet_set_ping.
Qed.
Lemma identify_input_quiet s i :
  identify_inv (identify s) → ∃ s' r, identify_input s i = (s', r) ∧ r ≠ Panic ∧ quiet s s'.
Proof.
  intros Hi. unfold identify_input. destruct (handle_input_inv (identify s) i Hi) as [Hm Hr].
  destruct (identify_handle_input (identify s) i) as [m r]. eexists _, _.
  split_and!; [done|done|]. by apply quiet_set_identify.
Qed.

Lemma ignore_ping s i :
  ping_inv (ping s) → ∃ s', ignore (ping_input s i) = Ok s' ∧ quiet s s'.
Proof.
  intros (s' & r & -> & Hr & Hq)%(λ H, ping_input_quiet s i H). exists s'. by destruct r.
Qed.
Lemma ignore_identify s i :
  identify_inv (identify s) → ∃ s', ignore (identify_input s i) = Ok s' ∧ quiet s s'.
Proof.
  intros (s' & r & -> & Hr & Hq)%(λ H, identify_input_quiet s i H). exists s'. by destruct r.
Qed.

(** The two machines one after the other, then drained. *)
Lemma both_inputs_quiet s pi ii :
  ping_inv (ping s) → identify_inv (identify s) →
  ∃ s', ignore (ping_input s pi) ≫= (λ s1, ignore (identify_input s1 ii) ≫= (λ s2,
          Ok (drain_identify_outputs (drain_ping_outputs s2)))) = Ok s' ∧ quiet s s'.
Proof.
  intros Hp Hi. destruct (ignore_ping s pi Hp) as (s1 & -> & Q1). cbn [mbind res_bind].
  destruct (ignore_identify s1 ii) as (s2 & -> & Q2); [by apply Q1|]. cbn [mbind res_bind].
  eexists. split; [done|]. etrans; [exact Q1|]. etrans; [exact Q2|].
  etrans; [apply quiet_drain_ping|apply quiet_drain_identify].
Qed.

Lemma swarm_inv_quiet s s' : swarm_inv s → quiet s s' → swarm_inv s'.
Proof.
  intros [] (E & Hp & Hi & Hf & Hr & _). rewrite E. constructor; cbn; auto.
  intros p [Hq|[? ?]]%Hr; [|done]. destruct (inv_ready0 p Hq). auto.
Qed.

(** ** Forgetting a connection *)

(** No table mentions the connection. *)
Definition conn_forgotten s c : Prop :=
  conn_to_peer s !! c = None ∧ active_connections s !! c = None ∧ conn_to_remote_addr s !! c = None ∧
  (∀ st, stream_owner s !! (c, st) = None ∧ inbound_negotiators s !! (c, st) = None ∧
         outbound_negotiators s !! (c, st) = None) ∧
  (∀ tok o, pending_opens s !! tok = Some o → open_conn_id o ≠ c).

(** Other connections keep everything. *)
Definition others_kept s s' c : Prop :=
  (∀ c', c' ≠ c → conn_to_peer s' !! c' = conn_to_peer s !! c' ∧
    active_connections s' !! c' = active_connections s !! c' ∧
    conn_to_remote_addr s' !! c' = conn_to_remote_addr s !! c' ∧
    ∀ st, stream_owner s' !! (c', st) = stream_owner s !! (c', st) ∧
          inbound_negotiators s' !! (c', st) = inbound_negotiators s !! (c', st) ∧
          outbound_negotiators s' !! (c', st) = outbound_negotiators s !! (c', st)) ∧
  (∀ tok o, open_conn_id o ≠ c → pending_opens s' !! tok = Some o ↔ pending_opens s !! tok = Some o).

Lemma retain_same {A} c (m : gmap (ConnectionId * StreamId) A) st : retain_streams c m !! (c, st) = None.
Proof. apply map_lookup_filter_None_2. right. intros x _ H. by apply H. Qed.
Lemma retain_other {A} c c' (m : gmap (ConnectionId * StreamId) A) st :
  c' ≠ c → retain_streams c m !! (c', st) = m !! (c', st).
Proof.
  intros Hc. unfold retain_streams. rewrite map_lookup_filter.
  destruct (m !! (c', st)); cbn; [|done]. by rewrite option_guard_True.
Qed.

Lemma forget_streams_spec s c :
  conn_to_peer s !! c = None → active_connections s !! c = None → conn_to_remote_addr s !! c = None →
  conn_forgotten (forget_streams s c) c ∧ others_kept s (forget_streams s c) c.
Proof.
  intros H1 H2 H3. split.
  - split_and!; cbn; [done..| |].
    + intros st. by rewrite !retain_same.
    + intros tok o [_ Ho]%map_lookup_filter_Some. done.
  - split.
    + intros c' Hc. split_and!; [done..|]. intros st. cbn. by rewrite !retain_other.
    + intros tok o Ho. cbn. rewrite map_lookup_filter_Some. by split; [intros []|].
Qed.

Lemma forgotten_act s a c : conn_forgotten s c → conn_forgotten (act s a) c.
Proof. intros (? & ? & ? & ? & ?). by split_and!. Qed.

(** ** Connections *)

(** The invariant with holes at the peers [X] whose connections are being replaced. *)
Record swarm_inv_but (X : gset P) s : Prop := {
  but_ping : ping_inv (ping s);
  but_identify : identify_inv (identify s);
  but_inbound : map_Forall (λ _ n, ms_ok n) (inbound_negotiators s);
  but_outbound : map_Forall (λ _ o, ms_ok (negotiator o)) (outbound_negotiators s);
  but_primary p c : p ∉ X → peer_to_conn s !! p = Some c → conn_to_peer s !! c = Some p;
  but_streams c st k : stream_owner s !! (c, st) = Some k → is_Some (conn_to_peer s !! c);
  but_ready p : p ∈ ready_peers s →
    (p ∈ X ∨ is_Some (peer_to_conn s !! p)) ∧ is_Some (peer_info s !! p);
  but_established p : p ∈ established_peers s → p ∈ X ∨ is_Some (peer_to_conn s !! p);
  but_token : is_u64 (next_open_token s);
}.

Lemma swarm_inv_weaken X s : swarm_inv s → swarm_inv_but X s.
Proof.
  intros []. constructor; auto. intros q Hq. destruct (inv_ready0 q Hq). auto.
Qed.

(** Binding a connection to a peer. *)
Definition link s c p : SwarmCore :=
  set_peer_to_conn (set_conn_to_peer s (<[c := p]> (conn_to_peer s))) (<[p := c]> (peer_to_conn s)).

Lemma link_inv s c p :
  swarm_inv_but {[p]} s → (∀ q, q ≠ p → peer_to_conn s !! q ≠ Some c) → swarm_inv (link s c p).
Proof.
  intros [] Hc. constructor; cbn; auto.
  - intros q c'. destruct (decide (q = p)) as [->|Hq].
    + rewrite lookup_insert_eq. intros [= ->]. by rewrite lookup_insert_eq.
    + rewrite lookup_insert_ne by done. intros Hl.
      rewrite lookup_insert_ne by (intros ->; by apply (Hc q)).
      apply but_primary0; set_solver.
  - intros. apply lookup_insert_is_Some'. eauto.
  - intros q Hq. destruct (but_ready0 q Hq) as [[->%elem_of_singleton|?] ?]; (split; [|done]);
      [rewrite lookup_insert_eq; by eexists|by apply lookup_insert_is_Some'; right].
  - intros q Hq. destruct (but_established0 q Hq) as [->%elem_of_singleton|?];
      [rewrite lookup_insert_eq; by eexists|by apply lookup_insert_is_Some'; right].
Qed.

(** Operations on fields the invariant does not read. *)
Lemma forget_streams_but X s c : swarm_inv_but X s → swarm_inv_but X (forget_streams s c).
Proof.
  intros []. constructor; cbn; auto.
  - intros k n [Hk _]%map_lookup_filter_Some. by eapply but_inbound0.
  - intros k n [Hk _]%map_lookup_filter_Some. by eapply but_outbound0.
  - intros c' st k [Hk _]%map_lookup_filter_Some. eauto.
Qed.

Lemma but_events X s es : swarm_inv_but X s → swarm_inv_but X (set_sw_events s es).
Proof. intros []. by constructor. Qed.

Lemma established_inv s p :
  swarm_inv s → is_Some (peer_to_conn s !! p) →
  swarm_inv (set_established_peers s ({[p]} ∪ established_peers s)).
Proof.
  intros [] Hp. constructor; cbn; auto. intros q [->%elem_of_singleton|?]%elem_of_union; auto.
Qed.

(** Tokens are never 0 and two consecutive ones differ. *)
Definition fresh_token s : OpenStreamToken := if next_open_token s =? 0 then 1 else next_open_token s.

Lemma take_token s :
  is_u64 (next_open_token s) →
  take_open_token s = (fresh_token s, set_next_open_token s (wrap_u64 (fresh_token s + 1))) ∧
  is_u64 (wrap_u64 (fresh_token s + 1)) ∧
  (if wrap_u64 (fresh_token s + 1) =? 0 then 1 else wrap_u64 (fresh_token s + 1)) ≠ fresh_token s.
Proof.
  intros Hu. unfold take_open_token, next_token_loop, fresh_token.
  assert (∀ z, is_u64 (wrap_u64 z)) as Hw by (intros z; apply Z.mod_pos_bound; by u64_tac).
  destruct (Z.eqb_spec (next_open_token s) 0) as [E|E]; [by rewrite E|]. split_and!; [done|done|].
  destruct (decide (next_open_token s + 1 = u64_mod)) as [E1|E1].
  - rewrite E1. change (wrap_u64 u64_mod) with 0. cbn [Z.eqb]. u64_tac.
  - unfold wrap_u64. rewrite (Z.mod_small (next_open_token s + 1)) by u64_tac.
    destruct (Z.eqb_spec (next_open_token s + 1) 0); u64_tac.
Qed.

(** The state after an open request on [c]. *)
Definition opened s c proto tgt : SwarmCore :=
  act (set_pending_opens (set_next_open_token s (wrap_u64 (fresh_token s + 1)))
         (<[fresh_token s := {| open_conn_id := c; open_protocol := proto; open_target := tgt |}]>
            (pending_opens s)))
    (OpenStream c (fresh_token s)).

Lemma opened_inv s c proto tgt : swarm_inv s → swarm_inv (opened s c proto tgt).
Proof. intros []. constructor; cbn; auto. by apply take_token. Qed.

Lemma queue_open_spec s p c proto tgt :
  swarm_inv s → peer_to_conn s !! p = Some c →
  queue_open_protocol_stream s p proto tgt = (opened s c proto tgt, Ok ()).
Proof.
  intros Hi Hp. unfold queue_open_protocol_stream, require_conn. rewrite Hp. cbn [ok_or].
  rewrite (bool_decide_false (conn_to_peer s !! c ≠ Some p)), andb_false_r
    by (pose proof (inv_primary s Hi p c Hp); tauto).
  by rewrite (proj1 (take_token s (inv_token s Hi))).
Qed.

Lemma queue_open_ok s p proto tgt :
  swarm_inv s →
  ∃ s' r, queue_open_protocol_stream s p proto tgt = (s', r) ∧ r ≠ Panic ∧ swarm_inv s'.
Proof.
  intros Hi. destruct (peer_to_conn s !! p) as [c|] eqn:Hp.
  - rewrite (queue_open_spec s p c) by done. eexists _, _. split_and!; [done|done|by apply opened_inv].
  - unfold queue_open_protocol_stream, require_conn. rewrite Hp. by eexists _, _.
Qed.

Lemma open_or_report_spec s p c c' proto tgt kind detail :
  swarm_inv s → peer_to_conn s !! p = Some c →
  open_or_report s p c' proto tgt kind detail = Ok (opened s c proto tgt).
Proof. intros. unfold open_or_report. by rewrite (queue_open_spec s p c). Qed.

Lemma supersede_ok s p c :
  swarm_inv s → peer_to_conn s !! p = Some c →
  ∃ s', supersede_connection s c = Ok s' ∧ swarm_inv_but {[p]} s' ∧
    peer_to_conn s' = peer_to_conn s ∧ conn_forgotten s' c ∧ CloseConnection c ∈ sw_actions s'.
Proof.
  intros Hi Hpc. pose proof (inv_primary s Hi p c Hpc) as Hcp. unfold supersede_connection. rewrite Hcp.
  set (s0 := set_pending_pings _ _).
  destruct (both_inputs_quiet s0 (Ping.RemovePeer p) (Identify.RemovePeer p)) as (s1 & E1 & Q);
    [apply Hi..|].
  unfold remove_from_machines. rewrite E1. cbn [mbind res_bind]. eexists. split; [reflexivity|].
  destruct Q as (E & Hqp & Hqi & Hqf & Hqr & _ & Hqa). rewrite E. split; [|split_and!].
  - destruct Hi as [Hp Hid Hin Hout Hpr Hst Hrd Hes Ht]. constructor; cbn; [auto..| | | | | | |done].
    + intros k n [Hk _]%map_lookup_filter_Some. by eapply Hin.
    + intros k n [Hk _]%map_lookup_filter_Some. by eapply Hout.
    + intros q c' Hq Hl. pose proof (Hpr q c' Hl). rewrite lookup_delete_ne; [done|].
      intros ->. set_solver.
    + intros c' st k [Hk Hc]%map_lookup_filter_Some. rewrite lookup_delete_ne by (by intros ->). eauto.
    + intros q [Hq Hqp']%elem_of_difference. rewrite elem_of_singleton in Hqp'.
      rewrite lookup_delete_ne by done. destruct (Hqr q Hq) as [Hq'|[? ?]]; [|auto].
      destruct (Hrd q Hq'). auto.
    + intros q [Hq _]%elem_of_difference. auto.
  - done.
  - apply forgotten_act, forget_streams_spec; cbn; apply lookup_delete_eq.
  - apply elem_of_app. right. by apply list_elem_of_singleton.
Qed.

(** The first half of [register_connection]: the peer's old connection, if any, is
    superseded, and the new one can be bound. *)
Lemma make_room_ok s c p :
  swarm_inv s → (∀ q, conn_to_peer s !! c = Some q → q = p) →
  ∃ s1, match peer_to_conn s !! p with
        | Some existing_id => if decide (existing_id ≠ c) then supersede_connection s existing_id else Ok s
        | None => Ok s
        end = Ok s1 ∧ swarm_inv (link s1 c p) ∧
    (∀ c0, peer_to_conn s !! p = Some c0 → c0 ≠ c →
       conn_forgotten s1 c0 ∧ CloseConnection c0 ∈ sw_actions s1).
Proof.
  intros Hi Hc. assert (∀ q, q ≠ p → peer_to_conn s !! q ≠ Some c) as Hq
    by (intros q Hne Hl%(inv_primary s Hi); by apply Hne, Hc).
  destruct (peer_to_conn s !! p) as [c0|] eqn:Hp;
    [|exists s; split_and!; [done|by apply link_inv; [apply swarm_inv_weaken|]|done]].
  case_decide; [|exists s; split_and!; [done|by apply link_inv; [apply swarm_inv_weaken|]|naive_solver]].
  destruct (supersede_ok s p c0 Hi Hp) as (s' & -> & Hb & E & Hf & Ha). exists s'.
  split_and!; [done|apply link_inv; [done|by rewrite E]|naive_solver].
Qed.

(** The second half for a connection that is new to the swarm. *)
Definition announced s c p : SwarmCore :=
  opened (emit (set_established_peers (link s c p) ({[p]} ∪ established_peers s)) (ConnectionEstablished p))
    c IDENTIFY_PROTOCOL_ID KindIdentifyInitiator.

Lemma announced_inv s c p : swarm_inv (link s c p) → swarm_inv (announced s c p).
Proof.
  intros Hi. apply opened_inv. eapply swarm_inv_quiet; [|apply quiet_emit].
  apply (established_inv (link s c p)); [done|]. cbn. rewrite lookup_insert_eq. by eexists.
Qed.

Lemma register_spec s c p :
  swarm_inv s → (∀ q, conn_to_peer s !! c = Some q → q = p) →
  ∃ s1, (∀ c0, peer_to_conn s !! p = Some c0 → c0 ≠ c →
           conn_forgotten s1 c0 ∧ CloseConnection c0 ∈ sw_actions s1) ∧
    swarm_inv (link s1 c p) ∧
    register_connection s c p = Ok
      (if decide (conn_to_peer s !! c = None) then
         let s2 := announced s1 c p in
         if bool_decide (pending_pings s2 !! p ≠ None)
            && bool_decide (find_negotiated_ping_stream s2 p = None)
            && negb (has_pending_ping_stream s2 p)
         then opened s2 c PING_PROTOCOL_ID KindPing else s2
       else link s1 c p).
Proof.
  intros Hi Hc. destruct (make_room_ok s c p Hi Hc) as (s1 & E1 & Hl & Hf). exists s1. split_and!; [done..|].
  unfold register_connection. rewrite E1. cbn [mbind res_bind]. rewrite bool_decide_decide.
  destruct (decide (conn_to_peer s !! c = None)); [|done].
  rewrite (open_or_report_spec _ p c); [|eapply swarm_inv_quiet; [|apply quiet_emit]|cbn; apply lookup_insert_eq].
  - cbn [mbind res_bind]. cbv zeta. change (opened (emit _ _) _ _ _) with (announced s1 c p).
    destruct (_ && _); [|done]. apply open_or_report_spec; [by apply announced_inv|cbn; apply lookup_insert_eq].
  - apply (established_inv (link s1 c p)); [done|]. cbn. rewrite lookup_insert_eq. by eexists.
Qed.

Lemma register_ok s c p :
  swarm_inv s → (∀ q, conn_to_peer s !! c = Some q → q = p) →
  ∃ s', register_connection s c p = Ok s' ∧ swarm_inv s'.
Proof.
  intros Hi Hc. destruct (register_spec s c p Hi Hc) as (s1 & _ & Hl & ->). eexists. split; [done|].
  case_decide; [|done]. cbv zeta. pose proof (announced_inv s1 c p Hl). case_match; [by apply opened_inv|done].
Qed.

Lemma is_Some_migrate {A} (m : gmap P A) old new q :
  q ≠ old → (q = new → is_Some (m !! old) ∨ is_Some (m !! new)) → (q ≠ new → is_Some (m !! q)) →
  is_Some (migrate_map old new m !! q).
Proof.
  intros Ho Hn Hq. unfold migrate_map. destruct (m !! old) as [v|] eqn:E.
  - destruct (decide (q = new)) as [->|]; [rewrite lookup_insert_eq; by eexists|].
    rewrite lookup_insert_ne, lookup_delete_ne by done. auto.
  - destruct (decide (q = new)) as [->|]; [|auto]. by destruct Hn as [[? ?]|?].
Qed.

Lemma migrate_tables_but s old new :
  old ≠ new → peer_to_conn s !! old = None →
  swarm_inv_but {[old; new]} s → swarm_inv_but {[new]} (migrate_tables s old new).
Proof.
  intros Hne Hold []. constructor; cbn; auto.
  - intros q c Hq Hl. apply but_primary0; [|done]. set_solver.
  - intros q Hq. assert (q = new ∧ old ∈ ready_peers s ∨ q ≠ old ∧ q ∈ ready_peers s) as Hc.
    { revert Hq. unfold migrate_set. case_decide; set_solver. }
    split.
    + destruct Hc as [[-> _]|[Ho Hr]]; [set_solver|].
      destruct (but_ready0 q Hr) as [[? | ?]%or_comm _]; [by right|set_solver].
    + apply is_Some_migrate; [naive_solver|..].
      * intros ->. destruct Hc as [[_ Hr]|[_ Hr]]; apply but_ready0 in Hr as [_ ?]; auto.
      * intros Hn. destruct Hc as [[? _]|[_ Hr]]; [done|]. by apply but_ready0.
  - intros q. unfold migrate_set. case_decide; set_solver.
Qed.

Lemma migrate_stale_ok s c old p :
  swarm_inv s → conn_to_peer s !! c = Some old → old ≠ p →
  ∃ s1 s2, migrate_stale s old p = Ok s1 ∧ swarm_inv (link s1 c p) ∧
    migrate_in_machines (set_peer_to_conn s (delete old (peer_to_conn s))) old p = Ok s2 ∧
    quiet (set_peer_to_conn s (delete old (peer_to_conn s))) s2 ∧
    s1 = migrate_buffered_events (migrate_tables s2 old p) old p.
Proof.
  intros Hi Ho Hne. unfold migrate_stale. set (s0 := set_peer_to_conn s _).
  destruct (both_inputs_quiet s0 (Ping.MigratePeer old p) (Identify.MigratePeer old p))
    as (s2 & E2 & Q); [apply Hi..|].
  eexists _, s2. unfold migrate_in_machines. rewrite E2. cbn [mbind res_bind].
  split; [reflexivity|]. split_and!; [|done..]. destruct Q as (E & Hqp & Hqi & Hqf & Hqr & _).
  apply link_inv.
  - apply but_events, migrate_tables_but; [done|rewrite E; cbn; apply lookup_delete_eq|].
    rewrite E. destruct Hi. constructor; cbn; auto.
    + intros q c' Hq [? Hl]%lookup_delete_Some. auto.
    + intros q [Hq|[? ?]]%Hqr; [|auto]. destruct (inv_ready0 q Hq) as [? ?]. split; [|auto].
      destruct (decide (q = old)) as [->|]; [set_solver|right]. by rewrite lookup_delete_ne.
    + intros q Hq. destruct (decide (q = old)) as [->|]; [set_solver|right].
      rewrite lookup_delete_ne by done. auto.
  - intros q Hq. rewrite E. cbn. intros [Hqo Hl]%lookup_delete_Some. apply (inv_primary s Hi) in Hl.
    congruence.
Qed.

(** The second half of [upgrade_connection_identity]. *)
Definition upgraded s c p : SwarmCore :=
  opened (try_emit_peer_ready (emit (set_established_peers (link s c p) ({[p]} ∪ established_peers s))
    (ConnectionEstablished p)) p) c IDENTIFY_PROTOCOL_ID KindIdentifyInitiator.

Lemma upgrade_spec s c p s1 :
  conn_to_peer s !! c ≠ Some p →
  match conn_to_peer s !! c with Some old => migrate_stale s old p | None => Ok s end = Ok s1 →
  swarm_inv (link s1 c p) →
  upgrade_connection_identity s c p = Ok (upgraded s1 c p) ∧ swarm_inv (upgraded s1 c p).
Proof.
  intros Hc E1 Hl. unfold upgrade_connection_identity. rewrite decide_False by done. rewrite E1.
  cbn [mbind res_bind]. set (s2 := try_emit_peer_ready _ p).
  assert (swarm_inv s2) as Hi2.
  { eapply swarm_inv_quiet; [|apply quiet_ready]. eapply swarm_inv_quiet; [|apply quiet_emit].
    apply (established_inv (link s1 c p)); [done|]. cbn. rewrite lookup_insert_eq. by eexists. }
  rewrite (open_or_report_spec s2 p c); [by split; [|apply opened_inv]|done|].
  subst s2. rewrite (proj1 (quiet_ready _ _)). cbn. by rewrite lookup_insert_eq.
Qed.

Lemma upgrade_ok s c p :
  swarm_inv s → ∃ s', upgrade_connection_identity s c p = Ok s' ∧ swarm_inv s'.
Proof.
  intros Hi. destruct (decide (conn_to_peer s !! c = Some p)) as [Hc|Hc].
  { exists s. unfold upgrade_connection_identity. by rewrite decide_True. }
  destruct (conn_to_peer s !! c) as [old|] eqn:Ho.
  - destruct (migrate_stale_ok s c old p Hi Ho) as (s1 & s2 & E1 & Hl & _); [congruence|].
    eexists. apply (upgrade_spec s c p s1); [congruence|by rewrite Ho|done].
  - eexists. apply (upgrade_spec s c p s); [congruence|by rewrite Ho|].
    apply link_inv; [by apply swarm_inv_weaken|]. intros q _ Hl%(inv_primary s Hi). congruence.
Qed.

Lemma ensure_ok s c :
  swarm_inv s →
  ∃ p s', ensure_peer_id_for_conn s c = (p, s') ∧ swarm_inv s' ∧ conn_to_peer s' !! c = Some p ∧
          stream_owner s' = stream_owner s.
Proof.
  intros Hi. unfold ensure_peer_id_for_conn.
  destruct (conn_to_peer s !! c) as [p|] eqn:E; [by eexists _, _|].
  eexists _, _. split; [done|]. split_and!; [|cbn; apply lookup_insert_eq|done].
  apply (link_inv s); [by apply swarm_inv_weaken|]. intros q _ Hl%(inv_primary s Hi). congruence.
Qed.

(** A connection that is not (or no longer) anyone's primary connection is dropped. *)
Lemma drop_streams_inv s c :
  swarm_inv s → (∀ p, peer_to_conn s !! p ≠ Some c) →
  swarm_inv (forget_streams (set_conn_to_peer s (delete c (conn_to_peer s))) c).
Proof.
  intros [] Hc. constructor; cbn; auto.
  - intros k n [Hk _]%map_lookup_filter_Some. by eapply inv_inbound0.
  - intros k n [Hk _]%map_lookup_filter_Some. by eapply inv_outbound0.
  - intros q c' Hl. rewrite lookup_delete_ne; [auto|]. intros ->. by apply (Hc q).
  - intros c' st k [Hk Hn]%map_lookup_filter_Some. rewrite lookup_delete_ne by (by intros ->). eauto.
Qed.

(** The part of [handle_connection_closed] about the peer whose primary connection is
    gone: the connection tables are [c2p] by then. *)
Lemma remove_peer_ok s p c2p :
  swarm_inv s →
  ∃ s', remove_from_machines (set_peer_to_conn (set_conn_to_peer s c2p) (delete p (peer_to_conn s))) p = Ok s' ∧
    quiet (set_peer_to_conn (set_conn_to_peer s c2p) (delete p (peer_to_conn s))) s'.
Proof. intros []. unfold remove_from_machines. by apply both_inputs_quiet. Qed.

Lemma closed_ok s c :
  swarm_inv s → ∃ s', handle_connection_closed s c = Ok s' ∧ swarm_inv s'.
Proof.
  intros Hi. unfold handle_connection_closed.
  assert (swarm_inv (forget_addresses s c)) as Hi0 by (destruct Hi; by constructor).
  change (conn_to_peer (forget_addresses s c)) with (conn_to_peer s).
  set (s0 := forget_addresses s c) in *.
  destruct (conn_to_peer s !! c) as [p|] eqn:Hc; cbn [mbind res_bind].
  - case_decide as Hp; cbn in Hp.
    + destruct (remove_peer_ok s0 p (delete c (conn_to_peer s)) Hi0) as (s1 & E1 & Q).
      cbn [peer_to_conn set_conn_to_peer] in *. rewrite E1. cbn [mbind res_bind].
      eexists. split; [reflexivity|]. destruct Q as (E & Hqp & Hqi & Hqf & Hqr & _). rewrite E.
      destruct Hi. constructor; cbn; [auto..| | | | | | |done].
      * intros k n [Hk _]%map_lookup_filter_Some. by eapply inv_inbound0.
      * intros k n [Hk _]%map_lookup_filter_Some. by eapply inv_outbound0.
      * intros q c' [Hq Hl]%lookup_delete_Some. apply inv_primary0 in Hl.
        rewrite lookup_delete_ne; [done|]. intros ->. congruence.
      * intros c' st k [Hk Hn]%map_lookup_filter_Some. rewrite lookup_delete_ne by (by intros ->). eauto.
      * intros q [Hq Hne%not_elem_of_singleton]%elem_of_difference. rewrite !lookup_delete_ne by done.
        destruct (Hqr q Hq) as [Hq'|[Hq' ?]]; [destruct (inv_ready0 q Hq'); auto|].
        cbn in Hq'. by rewrite lookup_delete_ne in Hq' by done.
      * intros q [Hq Hne%not_elem_of_singleton]%elem_of_difference. rewrite lookup_delete_ne by done. auto.
    + eexists. split; [reflexivity|]. apply (drop_streams_inv s0); [done|].
      intros q Hq. cbn in Hq. pose proof (inv_primary s Hi q c Hq). congruence.
  - eexists. split; [reflexivity|]. apply (drop_streams_inv s0); [done|].
    intros q Hq. cbn in Hq. pose proof (inv_primary s Hi q c Hq). congruence.
Qed.

(** ** Negotiations and streams *)

Lemma put_inbound_inv s k n :
  swarm_inv s → ms_ok n → swarm_inv (set_inbound_negotiators s (<[k := n]> (inbound_negotiators s))).
Proof. intros [] Hn. constructor; cbn; auto. by apply map_Forall_insert_2. Qed.
Lemma put_outbound_inv s k n :
  swarm_inv s → ms_ok (negotiator n) →
  swarm_inv (set_outbound_negotiators s (<[k := n]> (outbound_negotiators s))).
Proof. intros [] Hn. constructor; cbn; auto. by apply map_Forall_insert_2. Qed.
Lemma delete_inbound_inv s k :
  swarm_inv s → swarm_inv (set_inbound_negotiators s (delete k (inbound_negotiators s))).
Proof. intros []. constructor; cbn; auto. by apply map_Forall_delete. Qed.
Lemma delete_outbound_inv s k :
  swarm_inv s → swarm_inv (set_outbound_negotiators s (delete k (outbound_negotiators s))).
Proof. intros []. constructor; cbn; auto. by apply map_Forall_delete. Qed.
Lemma put_owner_inv s c st k :
  swarm_inv s → is_Some (conn_to_peer s !! c) →
  swarm_inv (set_stream_owner s (<[(c, st) := k]> (stream_owner s))).
Proof.
  intros [] Hc. constructor; cbn; auto. intros c' st' k'.
  destruct (decide ((c, st) = (c', st'))) as [[= -> ->]|]; [done|].
  rewrite lookup_insert_ne by done. eauto.
Qed.
Lemma delete_owner_inv s k :
  swarm_inv s → swarm_inv (set_stream_owner s (delete k (stream_owner s))).
Proof. intros []. constructor; cbn; auto. intros c' st' k' [_ ?]%lookup_delete_Some. eauto. Qed.

Lemma emit_inv s e : swarm_inv s → swarm_inv (emit s e).
Proof. intros. eapply swarm_inv_quiet; [done|apply quiet_emit]. Qed.
Lemma act_inv s a : swarm_inv s → swarm_inv (act s a).
Proof. intros. eapply swarm_inv_quiet; [done|apply quiet_act]. Qed.
Lemma error_inv s k op oc d : swarm_inv s → swarm_inv (emit_error s k op oc d).
Proof. apply emit_inv. Qed.
Lemma drain_ping_inv s : swarm_inv s → swarm_inv (drain_ping_outputs s).
Proof. intros. eapply swarm_inv_quiet; [done|apply quiet_drain_ping]. Qed.
Lemma drain_identify_inv s : swarm_inv s → swarm_inv (drain_identify_outputs s).
Proof. intros. eapply swarm_inv_quiet; [done|apply quiet_drain_identify]. Qed.

#[local] Hint Resolve put_inbound_inv put_outbound_inv delete_inbound_inv delete_outbound_inv
  put_owner_inv delete_owner_inv emit_inv act_inv error_inv drain_ping_inv drain_identify_inv : swarm.

Lemma ping_input_ok s i :
  swarm_inv s → ∃ s' r, ping_input s i = (s', r) ∧ r ≠ Panic ∧ swarm_inv s' ∧
    conn_to_peer s' = conn_to_peer s.
Proof.
  intros Hi. destruct (ping_input_quiet s i (inv_ping s Hi)) as (s' & r & -> & Hr & Q).
  exists s', r. split_and!; [done..|by eapply swarm_inv_quiet|by rewrite (proj1 Q)].
Qed.
Lemma identify_input_ok s i :
  swarm_inv s → ∃ s' r, identify_input s i = (s', r) ∧ r ≠ Panic ∧ swarm_inv s' ∧
    conn_to_peer s' = conn_to_peer s.
Proof.
  intros Hi. destruct (identify_input_quiet s i (inv_identify s Hi)) as (s' & r & -> & Hr & Q).
  exists s', r. split_and!; [done..|by eapply swarm_inv_quiet|by rewrite (proj1 Q)].
Qed.

(** A step that returns, in a good state. *)
Definition safe (r : res Empty_set SwarmCore) : Prop := ∃ s', r = Ok s' ∧ swarm_inv s'.

Lemma safe_Ok s : swarm_inv s → safe (Ok s).
Proof. by eexists. Qed.
Lemma safe_bind r (k : SwarmCore → res Empty_set SwarmCore) :
  safe r → (∀ s', swarm_inv s' → safe (k s')) → safe (r ≫= k).
Proof. intros (s' & -> & Hs) Hk. by apply Hk. Qed.

#[local] Hint Resolve safe_Ok : swarm.

(** [let _ = machine.handle_input(..); self.drain_..()] *)
Lemma ping_step_safe s i :
  swarm_inv s → safe (ignore (ping_input s i) ≫= λ s1, Ok (drain_ping_outputs s1)).
Proof.
  intros Hi. destruct (ping_input_ok s i Hi) as (s' & r & -> & Hr & Hi' & _).
  destruct r; cbn [ignore mbind res_bind]; auto with swarm; done.
Qed.
Lemma identify_step_safe s i :
  swarm_inv s → safe (ignore (identify_input s i) ≫= λ s1, Ok (drain_identify_outputs s1)).
Proof.
  intros Hi. destruct (identify_input_ok s i Hi) as (s' & r & -> & Hr & Hi' & _).
  destruct r; cbn [ignore mbind res_bind]; auto with swarm; done.
Qed.
#[local] Hint Resolve ping_step_safe identify_step_safe : swarm.

Lemma multistream_output_inv s c st o n :
  swarm_inv s → swarm_inv (handle_multistream_output s c st o n).1.1.
Proof. intros. destruct o; cbn; auto with swarm. Qed.

Lemma poll_ok n o n' : ms_poll_output n = (o, n') → ms_ok n → ms_ok n'.
Proof. unfold ms_poll_output. by case_match; intros [= <- <-]. Qed.

Lemma poll_local_inv fuel s c st n :
  swarm_inv s → ms_ok n →
  swarm_inv (poll_local fuel s c st n).1 ∧ ms_ok (poll_local fuel s c st n).2.
Proof.
  revert s n. induction fuel as [|fuel IH]; intros s n Hi Hn; cbn [poll_local]; [done|].
  destruct (ms_poll_output n) as [[o|] n'] eqn:E; pose proof (poll_ok _ _ _ E Hn); [|done].
  pose proof (multistream_output_inv s c st o None Hi).
  destruct (handle_multistream_output s c st o None) as [[s' ?] ?]. by apply IH.
Qed.

Lemma poll_inbound_inv fuel s c st b neg :
  swarm_inv s → swarm_inv (poll_inbound fuel s c st b neg).1.1.
Proof.
  revert s neg. induction fuel as [|fuel IH]; intros s neg Hi; cbn [poll_inbound]; [done|].
  destruct (inbound_negotiators s !! (c, st)) as [n|] eqn:En; [|done].
  pose proof (inv_inbound s Hi _ _ En : ms_ok n) as Hn.
  destruct (ms_poll_output n) as [[o|] n'] eqn:E; pose proof (poll_ok _ _ _ E Hn);
    [|by cbn [fst]; auto with swarm].
  set (s1 := set_inbound_negotiators _ _). assert (swarm_inv s1) as Hi1 by (subst s1; auto with swarm).
  pose proof (multistream_output_inv s1 c st o neg Hi1).
  destruct (handle_multistream_output s1 c st o neg) as [[s' ?] ?]. case_match; [done|by apply IH].
Qed.

Lemma poll_outbound_inv fuel s c st b :
  swarm_inv s → swarm_inv (poll_outbound fuel s c st b).1.1.
Proof.
  revert s b. induction fuel as [|fuel IH]; intros s b Hi; cbn [poll_outbound]; [done|].
  destruct (outbound_negotiators s !! (c, st)) as [n|] eqn:En; [|done].
  pose proof (inv_outbound s Hi _ _ En : ms_ok (negotiator n)) as Hn.
  destruct (ms_poll_output (negotiator n)) as [o n'] eqn:E; pose proof (poll_ok _ _ _ E Hn).
  set (s1 := set_outbound_negotiators _ _). assert (swarm_inv s1) as Hi1 by (subst s1; auto with swarm).
  destruct o as [[d|pr| |re]|]; [|by apply IH|by cbn [fst]; auto with swarm| |done];
    pose proof (multistream_output_inv s1 c st) as Ho;
    [specialize (Ho (OutboundData d) None Hi1)|specialize (Ho (ProtocolError re) None Hi1)];
    cbn [handle_multistream_output fst] in *; by auto with swarm.
Qed.

Lemma ms_start_ok n : ms_ok n → ∃ n', ms_handle_input n Start = (n', Ok ()) ∧ ms_ok n'.
Proof.
  intros Hn. unfold ms_handle_input. destruct (start n) as [n1 os] eqn:E. eexists. split; [done|].
  unfold start in E. by destruct (started n); simplify_eq.
Qed.
Lemma ms_data_ok n d : ms_ok n → ∃ n', ms_handle_input n (Data d) = (n', Ok ()) ∧ ms_ok n'.
Proof.
  intros Hn. cbn. destruct (receive_ok n d Hn) as (n' & os & -> & Hn' & _). by eexists.
Qed.

Lemma dispatch_safe s c st d t : swarm_inv s → safe (dispatch_protocol_data s c st d t).
Proof.
  intros Hi. unfold dispatch_protocol_data. destruct (stream_owner s !! (c, st)) as [k|]; [|auto with swarm].
  destruct (ensure_ok s c Hi) as (p & s' & -> & Hi' & _). destruct k; auto with swarm.
Qed.

Lemma remote_write_closed_safe s c st : swarm_inv s → safe (handle_stream_remote_write_closed s c st).
Proof.
  intros Hi. unfold handle_stream_remote_write_closed.
  destruct (stream_owner s !! (c, st)) as [k|]; [|auto with swarm].
  destruct (ensure_ok s c Hi) as (p & s' & -> & Hi' & _). destruct k; auto with swarm.
Qed.

Lemma stream_closed_safe s c st : swarm_inv s → safe (handle_stream_closed s c st).
Proof.
  intros Hi. unfold handle_stream_closed. apply safe_bind; [|auto with swarm].
  set (s1 := set_stream_owner _ _). assert (swarm_inv s1) as Hi1 by (subst s1; auto with swarm).
  destruct (stream_owner s !! (c, st)) as [k|]; [|auto with swarm].
  destruct (conn_to_peer s1 !! c) as [p|]; [|auto with swarm]. destruct k; auto with swarm.
Qed.

Lemma inbound_negotiated_safe s c st proto : swarm_inv s → safe (on_inbound_negotiated s c st proto).
Proof.
  intros Hi. unfold on_inbound_negotiated.
  destruct (ensure_ok s c Hi) as (p & s' & -> & Hi' & Hc & _). assert (is_Some (conn_to_peer s' !! c)) by eauto.
  case_decide; [by auto with swarm|]. case_decide; [|case_decide; auto with swarm].
  destruct (identify_input_ok s' (Identify.RegisterOutboundStream p st (conn_to_remote_addr s' !! c)
    (local_addresses s')) Hi') as (s2 & r & -> & Hr & Hi2 & E).
  destruct r; [|auto with swarm|done]. apply safe_Ok, drain_identify_inv, put_owner_inv; [done|by rewrite E].
Qed.

Lemma outbound_negotiated_safe s c st k t : swarm_inv s → safe (on_outbound_negotiated s c st k t).
Proof.
  intros Hi. unfold on_outbound_negotiated.
  destruct (ensure_ok s c Hi) as (p & s' & -> & Hi' & Hc & _). assert (is_Some (conn_to_peer s' !! c)) by eauto.
  set (s1 := set_stream_owner _ _). assert (swarm_inv s1) as Hi1 by (subst s1; auto with swarm).
  destruct k; [|auto with swarm..].
  destruct (ping_input_ok s1 (Ping.RegisterOutboundStream p st) Hi1) as (s2 & r & -> & Hr & Hi2 & _).
  destruct r; [|auto with swarm|done]. pose proof (drain_ping_inv s2 Hi2) as Hi3.
  set (s3 := drain_ping_outputs s2) in *. destruct (pending_pings s3 !! p) as [d|]; [|auto with swarm].
  set (s4 := set_pending_pings _ _). assert (swarm_inv s4) as Hi4 by (destruct Hi3; by constructor).
  destruct (ping_input_ok s4 (SendPing p d t) Hi4) as (s5 & r & -> & Hr' & Hi5 & _).
  destruct r; auto with swarm; done.
Qed.

#[local] Hint Resolve dispatch_safe inbound_negotiated_safe outbound_negotiated_safe : swarm.

Lemma feed_inbound_safe s c st d t : swarm_inv s → safe (feed_inbound_negotiator s c st d t).
Proof.
  intros Hi. unfold feed_inbound_negotiator.
  destruct (inbound_negotiators s !! (c, st)) as [n|] eqn:En; [|auto with swarm].
  destruct (ms_data_ok n d) as (n' & -> & Hn'); [by apply (inv_inbound s Hi _ _ En)|].
  set (s1 := set_inbound_negotiators _ _). assert (swarm_inv s1) as Hi1 by (subst s1; auto with swarm).
  pose proof (poll_inbound_inv (S (length (pending_outputs n'))) s1 c st true None Hi1) as Hi2.
  destruct (poll_inbound _ s1 c st true None) as [[s2 neg] failed]. cbn [fst] in Hi2.
  destruct failed; [unfold reset_inbound; auto with swarm|]. destruct neg; [|auto with swarm].
  apply safe_bind; [auto with swarm|]. intros s3 Hi3. case_decide; auto with swarm.
Qed.

Lemma feed_outbound_safe s c st d t : swarm_inv s → safe (feed_outbound_negotiator s c st d t).
Proof.
  intros Hi. unfold feed_outbound_negotiator.
  destruct (outbound_negotiators s !! (c, st)) as [n|] eqn:En; [|auto with swarm].
  destruct (ms_data_ok (negotiator n) d) as (n' & -> & Hn'); [by apply (inv_outbound s Hi _ _ En)|].
  set (s1 := set_outbound_negotiators _ _). assert (swarm_inv s1) as Hi1 by (subst s1; auto with swarm).
  pose proof (poll_outbound_inv (S (length (pending_outputs n'))) s1 c st false Hi1) as Hi2.
  destruct (poll_outbound _ s1 c st false) as [[s2 neg] failed]. cbn [fst] in Hi2.
  destruct failed; [unfold reset_outbound; auto with swarm|]. destruct neg; [|auto with swarm].
  apply safe_bind; [auto with swarm|]. intros s3 Hi3. case_decide; auto with swarm.
Qed.

Lemma stream_data_safe s c st d t : swarm_inv s → safe (handle_stream_data s c st d t).
Proof.
  intros Hi. unfold handle_stream_data.
  repeat case_decide; auto using feed_inbound_safe, feed_outbound_safe with swarm.
Qed.

Lemma incoming_stream_safe s c st : swarm_inv s → safe (handle_incoming_stream s c st).
Proof.
  intros Hi. unfold handle_incoming_stream.
  destruct (ms_start_ok (listener (supported s))) as (n & -> & Hn); [by right|]. cbn [mbind res_bind].
  set (s1 := set_inbound_negotiators _ _). assert (swarm_inv s1) as Hi1 by (subst s1; auto with swarm).
  pose proof (poll_inbound_inv (S (length (pending_outputs n))) s1 c st false None Hi1) as Hi2.
  destruct (poll_inbound _ s1 c st false None) as [[s2 neg] failed]. auto with swarm.
Qed.

Lemma stream_opened_safe s c st tok t : swarm_inv s → safe (handle_stream_opened s c st tok t).
Proof.
  intros Hi. unfold handle_stream_opened. destruct (pending_opens s !! tok) as [o|]; [|auto with swarm].
  set (s1 := set_pending_opens _ _). assert (swarm_inv s1) as Hi1 by (destruct Hi; by constructor).
  case_decide; [auto with swarm|].
  destruct (ms_start_ok (dialer (open_protocol o))) as (n & -> & Hn); [by left; eexists|].
  cbn [mbind res_bind]. destruct (poll_local_inv (S (length (pending_outputs n))) s1 c st n Hi1 Hn) as [Hi2 Hn2].
  destruct (poll_local _ s1 c st n) as [s2 n2]. auto with swarm.
Qed.

(** ** Every input *)

(** The transport's contract: the handshake of a connection is reported before anything
    else about it and once, so [Connected] never gives a connection a second identity. *)
Definition input_ok s (i : SwarmInput (P:=P)) : Prop :=
  match i with
  | SwTransport (TConnected c ep) _ =>
      ∀ p q, endpoint_peer_id ep = Some p → conn_to_peer s !! c = Some q → q = p
  | _ => True
  end.

Lemma handle_input_safe s i : swarm_inv s → input_ok s i → safe (swarm_handle_input s i).
Proof.
  intros Hi Hok. destruct i as [ev t|t|c st tok t|tok r t|err]; cbn [swarm_handle_input].
  - destruct ev as [c ep|c st|c st|c st d|c st|c st|c|c m|c ep|c ep pp|a]; cbn [handle_transport_event].
    + set (s1 := set_conn_to_remote_addr _ _). assert (swarm_inv s1) as Hi1 by (destruct Hi; by constructor).
      cbn in Hok. destruct (endpoint_peer_id ep) as [p|].
      * destruct (register_ok s1 c p Hi1) as (s2 & -> & Hi2); [intros q Hq; by eapply Hok|].
        by apply safe_Ok.
      * destruct (ensure_ok s1 c Hi1) as (p & s2 & -> & Hi2 & _). by apply safe_Ok.
    + auto with swarm.
    + by apply incoming_stream_safe.
    + by apply stream_data_safe.
    + by apply remote_write_closed_safe.
    + by apply stream_closed_safe.
    + by apply closed_ok.
    + auto with swarm.
    + apply safe_Ok. destruct Hi. by constructor.
    + set (s1 := set_conn_to_remote_addr _ _). assert (swarm_inv s1) as Hi1 by (destruct Hi; by constructor).
      destruct (endpoint_peer_id ep) as [p|]; [|auto with swarm].
      destruct (upgrade_ok s1 c p Hi1) as (s2 & -> & Hi2). by apply safe_Ok.
    + auto with swarm.
  - unfold handle_tick. destruct (ping_input_ok s (Tick t) Hi) as (s1 & r & -> & Hr & Hi1 & _).
    destruct r; cbn [ignore mbind res_bind]; unfold collect_protocol_events; auto with swarm; done.
  - by apply stream_opened_safe.
  - apply safe_Ok. unfold handle_open_stream_failed.
    destruct (pending_opens s !! tok); [|auto with swarm]. apply error_inv. destruct Hi. by constructor.
  - auto with swarm.
Qed.

(** ** What the application asks for *)

Lemma ping_peer_ok s p d t :
  swarm_inv s → swarm_inv (ping_peer s p d t).1 ∧ (ping_peer s p d t).2 ≠ Panic.
Proof.
  intros Hi. unfold ping_peer. case_decide; [done|]. case_decide.
  - destruct (ping_input_ok s (SendPing p d t) Hi) as (s1 & r & -> & Hr & Hi1 & _).
    destruct r; cbn [fst snd]; auto with swarm; done.
  - set (s1 := set_pending_pings _ _). assert (swarm_inv s1) as Hi1 by (destruct Hi; by constructor).
    case_match; [done|].
    destruct (queue_open_ok s1 p PING_PROTOCOL_ID KindPing Hi1) as (s2 & r & -> & ? & ?). done.
Qed.

Lemma open_user_stream_ok s p proto :
  swarm_inv s → swarm_inv (open_user_stream s p proto).1 ∧ (open_user_stream s p proto).2 ≠ Panic.
Proof.
  intros Hi. unfold open_user_stream. do 2 (case_decide; [done|]). case_match; [done|].
  destruct (queue_open_ok s p proto (KindUser proto) Hi) as (s2 & r & -> & ? & ?). done.
Qed.

Lemma user_stream_action_inv s p st a : swarm_inv s → swarm_inv (user_stream_action s p st a).1.
Proof. intros Hi. unfold user_stream_action. destruct (require_user_stream_conn s p st); cbn [fst]; auto with swarm. Qed.

Lemma disconnect_inv s p : swarm_inv s → swarm_inv (disconnect s p).1.
Proof. intros Hi. unfold disconnect. destruct (require_conn s p); cbn [fst]; auto with swarm. Qed.

(** Everything a driver and an application can do. *)
Inductive swarm_reach (idc : IdentifyConfig) (pgc : PingConfig) : SwarmCore (P:=P) → Prop :=
  | swarm_reach_new : swarm_reach idc pgc (swarm_new idc pgc)
  | swarm_reach_input s i s' : swarm_reach idc pgc s → input_ok s i →
      swarm_handle_input s i = Ok s' → swarm_reach idc pgc s'
  | swarm_reach_poll s : swarm_reach idc pgc s → swarm_reach idc pgc (swarm_poll_output s).2
  | swarm_reach_protocol s id : swarm_reach idc pgc s → swarm_reach idc pgc (add_user_protocol s id)
  | swarm_reach_addrs s l : swarm_reach idc pgc s → swarm_reach idc pgc (set_local_addrs s l)
  | swarm_reach_ping s p d t : swarm_reach idc pgc s → swarm_reach idc pgc (ping_peer s p d t).1
  | swarm_reach_open s p id : swarm_reach idc pgc s → swarm_reach idc pgc (open_user_stream s p id).1
  | swarm_reach_stream s p st a : swarm_reach idc pgc s →
      swarm_reach idc pgc (user_stream_action s p st a).1
  | swarm_reach_disconnect s p : swarm_reach idc pgc s → swarm_reach idc pgc (disconnect s p).1.

Lemma swarm_new_inv idc pgc : swarm_inv (swarm_new idc pgc).
Proof.
  constructor; cbn; try done; try (intros *; rewrite lookup_empty; done); intros p; set_solver.
Qed.

Lemma swarm_reach_inv idc pgc s : swarm_reach idc pgc s → swarm_inv s.
Proof.
  induction 1 as [|s i s' _ IH Hok E|s _ IH|s id _ IH|s l _ IH|s p d t _ IH|s p id _ IH|s p st a _ IH|s p _ IH].
  - apply swarm_new_inv.
  - destruct (handle_input_safe s i IH Hok) as (s2 & E2 & Hi). rewrite E in E2. by simplify_eq.
  - unfold swarm_poll_output. repeat case_match; try done; destruct IH; by constructor.
  - unfold add_user_protocol. destruct IH. repeat case_decide; constructor; cbn; auto;
      unfold add_protocol; by case_decide.
  - destruct IH. by constructor.
  - by apply ping_peer_ok.
  - by apply open_user_stream_ok.
  - by apply user_stream_action_inv.
  - by apply disconnect_inv.
Qed.

(** ** Forgetting a peer *)

(** Draining leaves the machines' own tables alone. *)
Lemma drain_ping_tables fuel s :
  Ping.peers (ping (drain_ping_loop fuel s)) = Ping.peers (ping s) ∧
  identify (drain_ping_loop fuel s) = identify s.
Proof.
  revert s. induction fuel as [|fuel IH]; intros s; cbn [drain_ping_loop]; [done|].
  destruct (ping_poll_output (ping s)) as [[[a|e]|] m] eqn:E;
    assert (Ping.peers m = Ping.peers (ping s)) as Hm
      by (unfold ping_poll_output in E; repeat case_match; by simplify_eq).
  - rewrite !(proj1 (IH _)), !(proj2 (IH _)).
    destruct a; cbn [execute_ping_action]; case_match; split; done || exact Hm.
  - rewrite !(proj1 (IH _)), !(proj2 (IH _)). by destruct e.
  - by split.
Qed.

Lemma ready_machines s p : ping (try_emit_peer_ready s p) = ping s ∧ identify (try_emit_peer_ready s p) = identify s.
Proof. unfold try_emit_peer_ready. by repeat (case_decide || case_match). Qed.

Lemma drain_identify_tables fuel s :
  Identify.peers (identify (drain_identify_loop fuel s)) = Identify.peers (identify s) ∧
  ping (drain_identify_loop fuel s) = ping s.
Proof.
  revert s. induction fuel as [|fuel IH]; intros s; cbn [drain_identify_loop]; [done|].
  destruct (identify_poll_output (identify s)) as [[[a|e]|] m] eqn:E;
    assert (Identify.peers m = Identify.peers (identify s)) as Hm
      by (unfold identify_poll_output in E; repeat case_match; by simplify_eq).
  - rewrite !(proj1 (IH _)), !(proj2 (IH _)).
    destruct a; cbn [execute_identify_action]; case_match; split; done || exact Hm.
  - rewrite !(proj1 (IH _)), !(proj2 (IH _)). destruct e as [q i|]; cbn [handle_identify_event]; [|by split].
    rewrite (proj1 (ready_machines _ _)), (proj2 (ready_machines _ _)). by split.
  - by split.
Qed.

Lemma remove_from_machines_tables s p s' :
  remove_from_machines s p = Ok s' →
  Ping.peers (ping s') !! p = None ∧ Identify.peers (identify s') !! p = None.
Proof.
  unfold remove_from_machines, ping_input, identify_input.
  cbn [ping_handle_input identify_handle_input ignore mbind res_bind]. intros [= <-].
  unfold drain_identify_outputs, drain_ping_outputs.
  rewrite (proj1 (drain_identify_tables _ _)), (proj2 (drain_identify_tables _ _)).
  rewrite (proj1 (drain_ping_tables _ _)), (proj2 (drain_ping_tables _ _)).
  cbn. split; apply lookup_delete_eq.
Qed.

Lemma migrate_in_machines_tables s old new s' :
  migrate_in_machines s old new = Ok s' →
  Ping.peers (ping s') = Ping.peers (Ping.migrate_peer (ping s) old new) ∧
  Identify.peers (identify s') = Identify.peers (Identify.migrate_peer (identify s) old new).
Proof.
  unfold migrate_in_machines, ping_input, identify_input.
  cbn [ping_handle_input identify_handle_input ignore mbind res_bind]. intros [= <-].
  unfold drain_identify_outputs, drain_ping_outputs.
  rewrite (proj1 (drain_identify_tables _ _)), (proj2 (drain_identify_tables _ _)).
  by rewrite (proj1 (drain_ping_tables _ _)), (proj2 (drain_ping_tables _ _)).
Qed.

(** The peer is unknown to the swarm and its machines. *)
Definition peer_forgotten s p : Prop :=
  peer_to_conn s !! p = None ∧ peer_info s !! p = None ∧ pending_pings s !! p = None ∧
  (p ∉ ready_peers s) ∧ (p ∉ established_peers s) ∧
  Ping.peers (ping s) !! p = None ∧ Identify.peers (identify s) !! p = None.

(** Which peer a closed connection takes along: the one whose primary connection it was. *)
Definition closed_peer s c : option P :=
  p ← conn_to_peer s !! c; if decide (peer_to_conn s !! p = Some c) then Some p else None.

Lemma closed_spec s c :
  swarm_inv s →
  ∃ s', handle_connection_closed s c = Ok s' ∧ conn_forgotten s' c ∧ others_kept s s' c ∧
    match closed_peer s c with
    | Some p =>
        peer_forgotten s' p ∧
        (∀ q, q ≠ p → peer_to_conn s' !! q = peer_to_conn s !! q)
    | None => peer_to_conn s' = peer_to_conn s
    end.
Proof.
  intros Hi. unfold handle_connection_closed, closed_peer.
  set (s0 := set_conn_to_peer (forget_addresses s c) _).
  assert (∀ s1, conn_to_peer s1 = conn_to_peer s0 → active_connections s1 = active_connections s0 →
    conn_to_remote_addr s1 = conn_to_remote_addr s0 → stream_owner s1 = stream_owner s →
    inbound_negotiators s1 = inbound_negotiators s → outbound_negotiators s1 = outbound_negotiators s →
    pending_opens s1 = pending_opens s →
    conn_forgotten (forget_streams s1 c) c ∧ others_kept s (forget_streams s1 c) c) as Hforget.
  { intros s1 E1 E2 E3 E4 E5 E6 E7. destruct (forget_streams_spec s1 c) as [H1 [H2 H3]];
      [rewrite ?E1, ?E2, ?E3; apply lookup_delete_eq..|].
    split; [done|]. split; [|by rewrite E7 in H3]. intros c' Hc.
    destruct (H2 c' Hc) as (-> & -> & -> & Hs). rewrite E1, E2, E3. cbn.
    rewrite !lookup_delete_ne by done. split_and!; [done..|]. intros st. specialize (Hs st).
    by rewrite E4, E5, E6 in Hs. }
  change (conn_to_peer (forget_addresses s c)) with (conn_to_peer s).
  destruct (conn_to_peer s !! c) as [p|] eqn:Hc; cbn [mbind res_bind option_bind];
    [|eexists; split; [done|]; by destruct (Hforget s0)].
  change (peer_to_conn s0 !! p) with (peer_to_conn s !! p).
  destruct (decide (peer_to_conn s !! p = Some c)) as [Hp|Hp];
    [|eexists; split; [done|]; by destruct (Hforget s0)].
  destruct (remove_peer_ok (forget_addresses s c) p (delete c (conn_to_peer s))) as (s1 & E1 & Q);
    [destruct Hi; by constructor|].
  change (set_conn_to_peer _ _) with s0 in E1, Q. change (peer_to_conn (forget_addresses s c)) with (peer_to_conn s0) in E1, Q.
  rewrite E1. cbn [mbind res_bind]. pose proof (remove_from_machines_tables _ _ _ E1) as [Hpg Hid].
  destruct Q as (E & _ & _ & _ & _ & _). eexists. split; [reflexivity|].
  set (s2 := emit _ _). destruct (Hforget s2) as [? ?]; [subst s2; rewrite E; done..|].
  split_and!; [done..| |].
  - unfold peer_forgotten. cbn. rewrite E. cbn. rewrite !lookup_delete_eq. set_solver.
  - intros q Hq. cbn. rewrite E. cbn. by rewrite lookup_delete_ne.
Qed.

(** The outcome of a peer moving from connection [c0] to [c]: the driver is to close
    [c0], which no table mentions, [c] is the peer's connection, and the peer is announced
    and about to be identified on a stream with token [tok]. *)
Definition superseded c0 c p s (tok : OpenStreamToken) : Prop :=
  CloseConnection c0 ∈ sw_actions s ∧ conn_forgotten s c0 ∧
  peer_to_conn s !! p = Some c ∧ conn_to_peer s !! c = Some p ∧ p ∈ established_peers s ∧
  ConnectionEstablished p ∈ sw_events s ∧ OpenStream c tok ∈ sw_actions s ∧
  pending_opens s !! tok = Some {| open_conn_id := c; open_protocol := IDENTIFY_PROTOCOL_ID;
                                   open_target := KindIdentifyInitiator |}.

(** *** Identities *)

Lemma rekey_event_peer (old new : P) (e : SwarmEvent) : old ≠ new → event_peer (rekey_swarm_event old new e) ≠ Some old.
Proof.
  intros Hne. destruct e; cbn; unfold swarm_rekey; try (case_decide; congruence).
Qed.

Lemma migrate_map_old {A} (old new : P) (m : gmap P A) : old ≠ new → migrate_map old new m !! old = None.
Proof.
  intros Hne. unfold migrate_map. destruct (m !! old) eqn:E; [|done].
  by rewrite lookup_insert_ne, lookup_delete_eq.
Qed.
Lemma migrate_set_old (old new : P) (X : gset P) : old ≠ new → old ∉ migrate_set old new X.
Proof. unfold migrate_set. case_decide; set_solver. Qed.

Lemma upgraded_fields s c p :
  let s' := upgraded s c p in
  conn_to_peer s' = <[c := p]> (conn_to_peer s) ∧ peer_to_conn s' = <[p := c]> (peer_to_conn s) ∧
  p ∈ established_peers s' ∧ stream_owner s' = stream_owner s ∧
  inbound_negotiators s' = inbound_negotiators s ∧ outbound_negotiators s' = outbound_negotiators s ∧
  ping s' = ping s ∧ identify s' = identify s ∧ pending_pings s' = pending_pings s ∧
  ConnectionEstablished p ∈ sw_events s'.
Proof.
  unfold upgraded, try_emit_peer_ready.
  repeat (case_decide || case_match); (split_and!; cbn; try done; set_solver).
Qed.

Lemma migrated_lookup {A} (old new : P) (m : gmap P A) v :
  m !! old = Some v → migrate_map old new m !! new = Some v.
Proof. intros H. unfold migrate_map. rewrite H. apply lookup_insert_eq. Qed.

(** Nothing is kept under [old], and no queued event names it. *)
Definition identity_gone s old : Prop :=
  peer_forgotten s old ∧ Forall (λ e, event_peer e ≠ Some old) (sw_events s).

Lemma ready_gone s p old :
  old ≠ p → identity_gone s old → identity_gone (try_emit_peer_ready s p) old.
Proof.
  intros Hne [(H1 & H2 & H3 & H4 & H5 & H6 & H7) He]. unfold try_emit_peer_ready.
  repeat (case_decide || case_match); try done. split; [split_and!; cbn; try done; set_solver|].
  cbn. apply Forall_app. split; [done|]. apply Forall_singleton. cbn. congruence.
Qed.

Lemma migrated_gone s1 c p old :
  old ≠ p → peer_to_conn s1 !! old = None →
  Ping.peers (ping s1) !! old = None → Identify.peers (identify s1) !! old = None →
  identity_gone (upgraded (migrate_buffered_events (migrate_tables s1 old p) old p) c p) old.
Proof.
  intros Hne Hc Hp Hid. unfold upgraded.
  assert (∀ s proto tgt, identity_gone s old → identity_gone (opened s c proto tgt) old) as Hop by done.
  apply Hop, ready_gone; [done|]. split.
  - split_and!; cbn; [by rewrite lookup_insert_ne|by apply migrate_map_old..| | |done|done].
    + by apply migrate_set_old.
    + pose proof (migrate_set_old old p (established_peers s1) Hne). set_solver.
  - cbn. apply Forall_app. split; [|apply Forall_singleton; cbn; congruence].
    apply Forall_fmap, Forall_true. intros e. by apply rekey_event_peer.
Qed.

Lemma forgotten_opened s c0 c proto tgt :
  conn_forgotten s c0 → c0 ≠ c → conn_forgotten (opened s c proto tgt) c0.
Proof.
  intros (H1 & H2 & H3 & H4 & H5) Hne. split_and!; [done..|].
  intros tok o. cbn. intros [[_ <-]|[_ Ho]]%lookup_insert_Some; [done|by eapply H5].
Qed.

Lemma announced_superseded s c0 c p :
  conn_forgotten s c0 → CloseConnection c0 ∈ sw_actions s → c0 ≠ c →
  superseded c0 c p (announced s c p) (fresh_token s).
Proof.
  intros Hf Ha Hne. split_and!.
  - apply elem_of_app. by left.
  - apply forgotten_opened; [|done]. destruct Hf as (H1 & H2 & H3 & H4 & H5).
    split_and!; [|done..]. cbn. by rewrite lookup_insert_ne.
  - apply lookup_insert_eq.
  - apply lookup_insert_eq.
  - apply elem_of_union. left. by apply elem_of_singleton.
  - apply elem_of_app. right. by apply list_elem_of_singleton.
  - apply elem_of_app. right. by apply list_elem_of_singleton.
  - apply lookup_insert_eq.
Qed.

Lemma opened_superseded s c0 c p tok proto tgt :
  superseded c0 c p s tok → c0 ≠ c → fresh_token s ≠ tok →
  superseded c0 c p (opened s c proto tgt) tok.
Proof.
  intros (H1 & H2 & H3 & H4 & H5 & H6 & H7 & H8) Hne Ht.
  split_and!; [apply elem_of_app; by left|by apply forgotten_opened|done..| |].
  - apply elem_of_app. by left.
  - cbn. by rewrite lookup_insert_ne.
Qed.

(** ** Properties *)

(** C3. The swarm never unwinds and never loses track: in every state that inputs
    respecting the transport's contract, polls and application calls can produce, a
    peer's primary connection maps back to that peer, negotiated streams belong to
    connections with an identity, ready peers are connected and identified, announced
    peers are connected; and every further input or application call returns, also
    with debug assertions on. *)
Theorem swarm_consistent idc pgc s :
  swarm_reach idc pgc s →
  (∀ p c, peer_to_conn s !! p = Some c → conn_to_peer s !! c = Some p) ∧
  (∀ c st k, stream_owner s !! (c, st) = Some k → is_Some (conn_to_peer s !! c)) ∧
  (∀ p, p ∈ ready_peers s → is_Some (peer_to_conn s !! p) ∧ is_Some (peer_info s !! p)) ∧
  (∀ p, p ∈ established_peers s → is_Some (peer_to_conn s !! p)) ∧
  (∀ i, input_ok s i → ∃ s', swarm_handle_input s i = Ok s') ∧
  (∀ p d t, (ping_peer s p d t).2 ≠ Panic) ∧ (∀ p id, (open_user_stream s p id).2 ≠ Panic).
Proof.
  intros Hi%swarm_reach_inv. split_and!; [apply Hi..| | |].
  - intros i Hok. destruct (handle_input_safe s i Hi Hok) as (s' & ? & _). by eauto.
  - intros. by apply ping_peer_ok.
  - intros. by apply open_user_stream_ok.
Qed.

(** Last connection wins: when a peer that is already connected over [c0] connects
    over a new connection, the swarm asks the driver to close [c0], keeps nothing of
    [c0], makes the new connection the peer's primary one, announces the peer and asks
    for an identify stream on it. *)
Theorem swarm_supersede idc pgc s p c0 c ep now :
  swarm_reach idc pgc s → peer_to_conn s !! p = Some c0 → conn_to_peer s !! c = None →
  endpoint_peer_id ep = Some p →
  ∃ s' tok, swarm_handle_input s (SwTransport (TConnected c ep) now) = Ok s' ∧ superseded c0 c p s' tok.
Proof.
  intros Hi%swarm_reach_inv Hp Hc Hep. assert (c0 ≠ c) as Hne.
  { intros ->. apply (inv_primary s Hi) in Hp. congruence. }
  cbn [swarm_handle_input handle_transport_event]. rewrite Hep. set (s0 := set_conn_to_remote_addr _ _).
  destruct (register_spec s0 c p) as (s1 & Hf & Hl & E); [destruct Hi; by constructor|cbn; congruence|].
  change (conn_to_peer s0) with (conn_to_peer s) in E. rewrite decide_True in E by done.
  destruct (Hf c0 Hp Hne) as [Hfg Hac]. rewrite E. cbv zeta. set (s2 := announced s1 c p).
  assert (superseded c0 c p s2 (fresh_token s1)) as H2 by (by apply announced_superseded).
  destruct (_ && _); eexists _, _; (split; [reflexivity|]); [|exact H2].
  apply opened_superseded; [done..|]. exact (proj2 (proj2 (take_token s1 (inv_token _ Hl)))).
Qed.

(** C10. Identity upgrade: when the transport verifies that the peer behind connection
    [c], so far known under [old], is [p], the connection and all its streams go on
    under [p], with the ping and identify state and any queued ping payload, and [p] is
    announced.  No table kept by peer has an entry under [old] any more, and no queued
    event names it.  In the table kept by connection only the entry of [c] changes: another
    connection that was reported under [old] keeps that name. *)
Theorem swarm_upgrade idc pgc s c old p ep pp now :
  swarm_reach idc pgc s → conn_to_peer s !! c = Some old → old ≠ p → endpoint_peer_id ep = Some p →
  ∃ s', swarm_handle_input s (SwTransport (TPeerIdentityVerified c ep pp) now) = Ok s' ∧
    conn_to_peer s' = <[c := p]> (conn_to_peer s) ∧
    peer_to_conn s' = <[p := c]> (delete old (peer_to_conn s)) ∧ p ∈ established_peers s' ∧
    stream_owner s' = stream_owner s ∧ inbound_negotiators s' = inbound_negotiators s ∧
    outbound_negotiators s' = outbound_negotiators s ∧
    (∀ st, Ping.peers (ping s) !! old = Some st → Ping.peers (ping s') !! p = Some st) ∧
    (∀ st, Identify.peers (identify s) !! old = Some st → Identify.peers (identify s') !! p = Some st) ∧
    (∀ d, pending_pings s !! old = Some d → pending_pings s' !! p = Some d) ∧
    identity_gone s' old ∧ ConnectionEstablished p ∈ sw_events s'.
Proof.
  intros Hi%swarm_reach_inv Hc Hne Hep. cbn [swarm_handle_input handle_transport_event]. rewrite Hep.
  set (s0 := set_conn_to_remote_addr _ _). assert (swarm_inv s0) as Hi0 by (destruct Hi; by constructor).
  destruct (migrate_stale_ok s0 c old p Hi0 Hc Hne) as (s1 & s2 & E1 & Hl & Em & Q & Es1).
  destruct (upgrade_spec s0 c p s1) as [-> _]; [cbn; congruence|cbn; by rewrite Hc|done|].
  eexists. split; [done|]. pose proof (migrate_in_machines_tables _ _ _ _ Em) as [Hpg Hid].
  destruct Q as (E & _).
  assert (Ping.peers (ping s1) = migrate_map old p (Ping.peers (ping s))) as Hpg1.
  { rewrite Es1. cbn. rewrite Hpg. unfold Ping.migrate_peer, migrate_map. rewrite decide_False by done.
    cbn. by destruct (Ping.peers (ping s) !! old). }
  assert (Identify.peers (identify s1) = migrate_map old p (Identify.peers (identify s))) as Hid1.
  { rewrite Es1. cbn. rewrite Hid. unfold Identify.migrate_peer, migrate_map. rewrite decide_False by done.
    cbn. by destruct (Identify.peers (identify s) !! old). }
  destruct (upgraded_fields s1 c p) as (-> & -> & He & -> & -> & -> & Hp' & Hi' & -> & Hev).
  rewrite Hp', Hi', Hpg1, Hid1.
  split_and!; [| |done|..|done].
  - by rewrite Es1, E.
  - by rewrite Es1, E.
  - by rewrite Es1, E.
  - by rewrite Es1, E.
  - by rewrite Es1, E.
  - intros st. apply migrated_lookup.
  - intros st. apply migrated_lookup.
  - intros d. rewrite Es1, E. apply migrated_lookup.
  - rewrite Es1 in *. apply migrated_gone; [done|rewrite E; cbn; apply lookup_delete_eq|..].
    + cbn in Hpg1. rewrite Hpg1. by apply migrate_map_old.
    + cbn in Hid1. rewrite Hid1. by apply migrate_map_old.
Qed.

End invariant.

(** ** Concrete runs *)

#[local] Abbreviation Pid := (PeerId PlainMultihash).

(** Multihashes are compared by code, then size, then digest. *)
Fixpoint bytes_le (a b : list byte) : bool :=
  match a, b with
  | [], _ => true
  | _ :: _, [] => false
  | x :: a, y :: b => (byte_Z x <? byte_Z y) || ((byte_Z x =? byte_Z y) && bytes_le a b)
  end.
Definition demo_le (p q : Pid) : Prop :=
  let '(a, b) := (multihash p, multihash q) in
  (mh_code a <? mh_code b)
  || ((mh_code a =? mh_code b)
      && ((length (mh_digest a) <? length (mh_digest b))%nat
          || ((length (mh_digest a) =? length (mh_digest b))%nat
              && bytes_le (mh_digest a) (mh_digest b)))) = true.
#[export] Instance demo_le_dec : RelDecision demo_le.
Proof. intros p q. unfold demo_le. apply _. Defined.

#[export] Instance demo_peers : SwarmPeers Pid := {
  sp_eq := _; sp_count := _; sp_bytes := _; sp_display := _;
  sp_le := demo_le; sp_le_dec := _;
  sp_from_key k := match from_public_key_protobuf demo_sha256 k with
                   | Ok p => p
                   | _ => {| multihash := demo_mh |} (* derivation does not fail *)
                   end;
}.
#[export] Instance demo_build : BuildProfile := true.

Definition demo_pid : Pid := {| multihash := demo_mh |}.
Definition demo_endpoint : ConnectionEndpoint (P:=Pid) :=
  {| transport := demo_addr; endpoint_peer_id := Some demo_pid |}.
Definition demo_unknown : ConnectionEndpoint (P:=Pid) :=
  {| transport := demo_addr; endpoint_peer_id := None |}.

(** Run a list of inputs that all return. *)
Fixpoint run_inputs (s : SwarmCore (P:=Pid)) (inputs : list (SwarmInput (P:=Pid))) : SwarmCore :=
  match inputs with
  | [] => s
  | i :: inputs => match swarm_handle_input s i with Ok s' => run_inputs s' inputs | _ => s end
  end.

Definition demo_new : SwarmCore (P:=Pid) := swarm_new demo_config PingConfig_default.
(** One connection with a known peer, and one without. *)
Definition demo_swarm : SwarmCore (P:=Pid) := run_inputs demo_new [SwTransport (TConnected 1 demo_endpoint) 0].
Definition demo_anonymous : SwarmCore (P:=Pid) := run_inputs demo_new [SwTransport (TConnected 1 demo_unknown) 0].

Lemma demo_reach ep :
  swarm_reach demo_config PingConfig_default (run_inputs demo_new [SwTransport (TConnected 1 ep) 0]).
Proof.
  assert (input_ok demo_new (SwTransport (TConnected 1 ep) 0)) as Hok by (intros p q _ Hq; discriminate Hq).
  destruct (handle_input_safe demo_new _ (swarm_new_inv _ _) Hok) as (s' & E & _).
  unfold run_inputs. rewrite E. by eapply swarm_reach_input; [apply swarm_reach_new|..].
Qed.
Lemma demo_swarm_reach : swarm_reach demo_config PingConfig_default demo_swarm.
Proof. apply demo_reach. Qed.
Lemma demo_anonymous_reach : swarm_reach demo_config PingConfig_default demo_anonymous.
Proof. apply demo_reach. Qed.

Lemma swarm_consistent_witness :
  (∀ p c, peer_to_conn demo_swarm !! p = Some c → conn_to_peer demo_swarm !! c = Some p) ∧
  ∃ s', swarm_handle_input demo_swarm (SwTick 5) = Ok s'.
Proof.
  destruct (swarm_consistent _ _ demo_swarm demo_swarm_reach) as (H1 & _ & _ & _ & H2 & _).
  split; [exact H1|]. by apply H2.
Defined.

Lemma swarm_supersede_witness :
  ∃ s' tok, swarm_handle_input demo_swarm (SwTransport (TConnected 2 demo_endpoint) 5) = Ok s' ∧
    superseded 1 2 demo_pid s' tok.
Proof.
  apply (swarm_supersede _ _ demo_swarm demo_pid 1 2 demo_endpoint 5 demo_swarm_reach).
  - vm_compute. reflexivity.
  - vm_compute. reflexivity.
  - reflexivity.
Defined.

Lemma swarm_upgrade_witness :
  ∃ s', swarm_handle_input demo_anonymous (SwTransport (TPeerIdentityVerified 1 demo_endpoint None) 5) = Ok s' ∧
    conn_to_peer s' !! 1 = Some demo_pid ∧ identity_gone s' (synthetic_peer 1).
Proof.
  destruct (swarm_upgrade _ _ demo_anonymous 1 (synthetic_peer 1) demo_pid demo_endpoint None 5
    demo_anonymous_reach) as (s' & E & H1 & _ & _ & _ & _ & _ & _ & _ & _ & H2 & _).
  - vm_compute. reflexivity.
  - intros H. by vm_compute in H.
  - reflexivity.
  - exists s'. split_and!; [done| |done]. rewrite H1. apply lookup_insert_eq.
Defined.
