(* ===== verification/SwarmStreams.v ===== *)
(** * An inbound user stream from negotiation to delivery ([crates/swarm/src/core.rs])

    The remote opens a stream, negotiates a registered protocol and sends data, in any
    fragmentation: what the swarm answers and what the application sees. *)
From S2P Require Import Prelude SansIo Varint Multibase PeerId Multiaddr Multistream.
From S2P Require Import IdentifyMessage Ping Identify SwarmEvents SwarmCore SwarmInvariant.
From Stdlib Require Import ZArith Strings.Byte Strings.String.
From stdpp Require Import base numbers list gmap strings.

#[local] Open Scope Z_scope.

(** ** The negotiator *)

(** A frame is not decoded before it is complete. *)
Lemma decode_message_prefix q buf k :
  line_ok q → encode_message q = buf ++ k → k ≠ [] → decode_message buf = Incomplete.
Proof.
  intros Hq Hk Hne. destruct (decode_message buf) eqn:E; [|done|];
    pose proof (decode_message_app buf k) as Ha; rewrite E in Ha;
    rewrite <- Hk, <- (app_nil_r (encode_message q)), decode_encode_message in Ha by done.
  - destruct (decode_complete_bounds _ _ _ E) as [_ Hb]. specialize (Ha ltac:(discriminate)).
    apply (f_equal length) in Hk. rewrite length_app in Hk. destruct k as [|x k]; [done|].
    apply (f_equal (λ r, match r with Complete _ n => n | _ => 0%nat end)) in Ha. cbv beta iota in Ha.
    cbn [length] in Hk. lia.
  - specialize (Ha ltac:(discriminate)). discriminate Ha.
Qed.

(** The line [q] is still incomplete by the bytes [k] at the end of the buffer. *)
Definition needs (n : MultistreamSelect) (q : string) (k : list byte) : Prop :=
  encode_message q = recv_buf n ++ k ∧ k ≠ [].

(** The listener waits for the bytes [w] before it can answer the request for [p]. *)
Definition listening (p : string) (n : MultistreamSelect) (w : list byte) : Prop :=
  role n = Listener ∧ pending_outputs n = [] ∧
  ((state n = WaitingForRemoteHeader ∧
    ∃ k, needs n MULTISTREAM_PROTOCOL_ID k ∧ w = k ++ encode_message p) ∨
   (state n = WaitingForProtocolRequest ∧ needs n p w)).

(** The same, for a protocol it supports. *)
Definition awaiting (p : string) (n : MultistreamSelect) (w : list byte) : Prop :=
  p ∈ supported_protocols n ∧ listening p n w.

(** What it answers. *)
Definition answered (p : string) (n : MultistreamSelect) : list MultistreamOutput :=
  if decide (p ∈ supported_protocols n) then [OutboundData (encode_message p); Negotiated p]
  else [OutboundData (encode_message NOT_AVAILABLE); NotAvailable].

Lemma process_needs m q k :
  line_ok q → needs m q k → process m = Ok (m, []).
Proof. intros Hq [Hk Hne]. apply process_settled. right. by eapply decode_message_prefix. Qed.

Lemma split_frame {A} (b rest frame tail : list A) :
  b ++ rest = frame ++ tail →
  (∃ t, b = frame ++ t ∧ tail = t ++ rest) ∨ (∃ k, frame = b ++ k ∧ k ≠ [] ∧ rest = k ++ tail).
Proof.
  intros [(t & ? & ?)|(k & ? & ?)]%app_eq_inv; [by left; eauto|].
  destruct k as [|x k]; [left; exists []|right; exists (x :: k)]; naive_solver (by rewrite ?app_nil_r in *).
Qed.

(** The two results of receiving bytes of a stream, [rest] being still to come. *)
Definition listen_result (p : string) (n : MultistreamSelect) (rest tail : list byte)
    (r : res Empty_set (MultistreamSelect * list MultistreamOutput)) : Prop :=
  (∃ t n', tail = t ++ rest ∧ recv_buf n' = t ∧ pending_outputs n' = [] ∧ r = Ok (n', answered p n)) ∨
  (∃ w n', w ≠ [] ∧ rest = w ++ tail ∧ listening p n' w ∧
     supported_protocols n' = supported_protocols n ∧ r = Ok (n', [])).

Lemma request_step p n rest tail :
  line_ok p → role n = Listener → pending_outputs n = [] →
  state n = WaitingForProtocolRequest → recv_buf n ++ rest = encode_message p ++ tail →
  listen_result p n rest tail (process n).
Proof.
  intros Hp Hr Ho Hst Hcat. destruct (split_frame _ _ _ _ Hcat) as [(t & Hb & ->)|(k & Hk & Hne & ->)].
  - left. exists t.
    replace (process n) with (process (set_recv_buf n (encode_message p ++ t))) by by rewrite <- Hb, set_recv_buf_id.
    rewrite (process_line n p t Done (answered p n)); [|done|by rewrite Hst|].
    + rewrite process_done by done. exists (set_recv_buf (set_state n Done) t). split_and!; [done..|].
      cbn [mbind res_bind]. by rewrite app_nil_r.
    + rewrite Hst. unfold answered. cbn [handle_message]. by case_decide.
  - right. exists k, n. split_and!; [done..| |done|by eapply process_needs].
    split_and!; [done..|]. by right.
Qed.

Lemma listening_step p n w b rest tail :
  line_ok p → listening p n w → b ++ rest = w ++ tail → listen_result p n rest tail (receive n b).
Proof.
  intros Hp (Hr & Ho & Hst) Hcat. rewrite receive_process.
  rewrite decide_False by (destruct Hst as [[-> _]|[-> _]]; done).
  destruct Hst as [(Hst & k & [Hk Hne] & ->)|[Hst [Hk Hne]]].
  - assert ((recv_buf n ++ b) ++ rest = encode_message MULTISTREAM_PROTOCOL_ID ++ encode_message p ++ tail)
      as Hcat' by (rewrite Hk, <- !app_assoc, Hcat, <- app_assoc; done).
    destruct (split_frame _ _ _ _ Hcat') as [(t & Hb & Ht)|(k' & Hk' & Hne' & ->)].
    + rewrite Hb, (process_line n MULTISTREAM_PROTOCOL_ID t WaitingForProtocolRequest []);
        [|apply header_ok|by rewrite Hst|rewrite Hst, Hr; cbn [handle_message]; by rewrite decide_True].
      destruct (request_step p (set_recv_buf (set_state n WaitingForProtocolRequest) t) rest tail)
        as [(t' & n' & ? & ? & ? & E)|(w' & n' & ? & ? & ? & ? & E)]; [done..| |]; rewrite E.
      * left. by exists t', n'.
      * right. by exists w', n'.
    + right. exists (k' ++ encode_message p), (set_recv_buf n (recv_buf n ++ b)).
      split_and!; [by destruct k'|by rewrite <- app_assoc| |done|].
      * split_and!; [done..|]. left. split; [done|]. by exists k'.
      * by eapply (process_needs _ MULTISTREAM_PROTOCOL_ID); [apply header_ok|].
  - apply (request_step p (set_recv_buf n (recv_buf n ++ b))); [done..|].
    cbn. by rewrite Hk, <- !app_assoc, Hcat.
Qed.

(** ** The swarm *)

Section streams.
Context {P : Type} `{SP : !SwarmPeers P} `{BP : !BuildProfile}.
Implicit Types (s : SwarmCore (P:=P)).

(** Stream data events of one stream, in order. *)
Fixpoint stream_chunks s (c : ConnectionId) (st : StreamId) (cs : list (list byte)) (now : Z)
    : res Empty_set SwarmCore :=
  match cs with
  | [] => Ok s
  | d :: cs =>
      s ← swarm_handle_input s (SwTransport (TStreamData c st d) now);
      stream_chunks s c st cs now
  end.

(** The negotiator of a stream is [n]. *)
Definition with_negotiator s (c : ConnectionId) (st : StreamId) (n : MultistreamSelect) : SwarmCore :=
  set_inbound_negotiators s (<[(c, st) := n]> (inbound_negotiators s)).

Lemma with_negotiator_twice s c st n n' :
  with_negotiator (with_negotiator s c st n) c st n' = with_negotiator s c st n'.
Proof. unfold with_negotiator. cbn. by rewrite insert_insert_eq. Qed.

Lemma lookup_with_negotiator s c st n :
  inbound_negotiators (with_negotiator s c st n) !! (c, st) = Some n.
Proof. unfold with_negotiator. cbn. by rewrite lookup_insert_eq. Qed.
Lemma drop_negotiator s c st n :
  set_inbound_negotiators (with_negotiator s c st n)
    (delete (c, st) (inbound_negotiators (with_negotiator s c st n)))
  = set_inbound_negotiators s (delete (c, st) (inbound_negotiators s)).
Proof. unfold with_negotiator. cbn. by rewrite delete_insert_eq. Qed.
Lemma act_with_negotiator s c st n a : act (with_negotiator s c st n) a = with_negotiator (act s a) c st n.
Proof. done. Qed.

Lemma poll_inbound_step fuel s c st b n o os neg s' neg' failed :
  pending_outputs n = o :: os →
  handle_multistream_output (with_negotiator s c st (set_pending_outputs n os)) c st o neg
    = (s', neg', failed) →
  failed && b = false →
  poll_inbound (S fuel) (with_negotiator s c st n) c st b neg = poll_inbound fuel s' c st b neg'.
Proof.
  intros Ho Hh Hf. cbn [poll_inbound]. rewrite lookup_with_negotiator. unfold ms_poll_output. rewrite Ho.
  change (set_inbound_negotiators (with_negotiator s c st n) _) with
    (with_negotiator (with_negotiator s c st n) c st (set_pending_outputs n os)).
  by rewrite with_negotiator_twice, Hh, Hf.
Qed.

Lemma poll_inbound_end fuel s c st b n neg :
  pending_outputs n = [] →
  poll_inbound (S fuel) (with_negotiator s c st n) c st b neg = (with_negotiator s c st n, neg, false).
Proof.
  intros Ho. cbn [poll_inbound]. rewrite lookup_with_negotiator. unfold ms_poll_output. rewrite Ho.
  change (set_inbound_negotiators (with_negotiator s c st n) _) with
    (with_negotiator (with_negotiator s c st n) c st n).
  by rewrite with_negotiator_twice.
Qed.

(** Opening: the header is sent and the listener waits for header and request. *)
Lemma incoming_listening s c st p :
  ∃ n, handle_incoming_stream s c st =
         Ok (with_negotiator (act s (SendStream c st (encode_message MULTISTREAM_PROTOCOL_ID))) c st n) ∧
       (p ∈ supported_protocols n ↔ p ∈ supported s) ∧
       listening p n (encode_message MULTISTREAM_PROTOCOL_ID ++ encode_message p).
Proof.
  unfold handle_incoming_stream.
  set (n := set_pending_outputs (set_started (listener (supported s)) true)
              [OutboundData (encode_message MULTISTREAM_PROTOCOL_ID)]).
  change (ms_handle_input _ _) with (n, Ok (E:=MultistreamError) ()).
  exists (set_pending_outputs n []). cbn [mbind res_bind].
  change (set_inbound_negotiators s _) with (with_negotiator s c st n).
  change (S (length (pending_outputs n))) with 2%nat.
  erewrite poll_inbound_step; [|reflexivity|cbn [handle_multistream_output]; reflexivity|done].
  rewrite act_with_negotiator, poll_inbound_end by done. split; [done|].
  split; [cbn; apply elem_of_list_to_set|]. split_and!; [done..|]. left. split; [done|].
  exists (encode_message MULTISTREAM_PROTOCOL_ID). done.
Qed.

Lemma incoming_stream_spec s c st p :
  p ∈ supported s →
  ∃ n, handle_incoming_stream s c st =
         Ok (with_negotiator (act s (SendStream c st (encode_message MULTISTREAM_PROTOCOL_ID))) c st n) ∧
       awaiting p n (encode_message MULTISTREAM_PROTOCOL_ID ++ encode_message p).
Proof.
  intros Hp. destruct (incoming_listening s c st p) as (n & E & Hs & Hw). exists n.
  split; [done|]. split; [by apply Hs|done].
Qed.

Lemma with_negotiator_pending s c st n os os' :
  with_negotiator s c st (set_pending_outputs (set_pending_outputs n os) os')
  = with_negotiator s c st (set_pending_outputs n os').
Proof. done. Qed.

Lemma set_pending_same n : pending_outputs n = [] → set_pending_outputs n [] = n.
Proof. intros H. destruct n. cbn in *. by rewrite H. Qed.

Lemma feed_inbound_received s c st now n d n' os :
  receive n d = Ok (n', os) →
  feed_inbound_negotiator (with_negotiator s c st n) c st d now =
    let '(s, negotiated, failed) :=
      poll_inbound (S (length (pending_outputs n' ++ os)))
        (with_negotiator s c st (set_pending_outputs n' (pending_outputs n' ++ os))) c st true None in
    if failed then Ok (reset_inbound s c st)
    else
      match negotiated with
      | None => Ok s
      | Some protocol =>
          let remaining := from_option recv_buf [] (inbound_negotiators s !! (c, st)) in
          s ← on_inbound_negotiated
                (set_inbound_negotiators s (delete (c, st) (inbound_negotiators s))) c st protocol;
          if decide (remaining ≠ []) then dispatch_protocol_data s c st remaining now else Ok s
      end.
Proof.
  intros E. unfold feed_inbound_negotiator.
  rewrite lookup_with_negotiator. cbn [ms_handle_input]. rewrite E.
  change (set_inbound_negotiators (with_negotiator s c st n) _) with
    (with_negotiator (with_negotiator s c st n) c st (set_pending_outputs n' (pending_outputs n' ++ os))).
  by rewrite with_negotiator_twice.
Qed.

(** One more chunk while the negotiation is open. *)
Lemma feed_waiting s c st now p n w d rest tail :
  line_ok p → awaiting p n w → d ++ rest = w ++ tail →
  (∃ n' w', w' ≠ [] ∧ rest = w' ++ tail ∧ awaiting p n' w' ∧
     feed_inbound_negotiator (with_negotiator s c st n) c st d now = Ok (with_negotiator s c st n')) ∨
  (∃ t, tail = t ++ rest ∧
     feed_inbound_negotiator (with_negotiator s c st n) c st d now =
       (s1 ← on_inbound_negotiated
               (act (set_inbound_negotiators s (delete (c, st) (inbound_negotiators s)))
                  (SendStream c st (encode_message p))) c st p;
        if decide (t ≠ []) then dispatch_protocol_data s1 c st t now else Ok s1)).
Proof.
  intros Hp [Hs Hw] Hcat.
  destruct (listening_step p n w d rest tail Hp Hw Hcat)
    as [(t & n' & -> & Hb & Ho & E)|(w' & n' & Hne & -> & Hw' & Hs' & E)];
    rewrite (feed_inbound_received _ _ _ _ _ _ _ _ E).
  - right. exists t. split; [done|]. unfold answered. rewrite Ho, decide_True by done. cbn [app length].
    erewrite poll_inbound_step; [|reflexivity|cbn [handle_multistream_output]; reflexivity|done].
    rewrite act_with_negotiator.
    erewrite poll_inbound_step; [|reflexivity|cbn [handle_multistream_output]; reflexivity|done].
    rewrite with_negotiator_pending, poll_inbound_end by done.
    cbv zeta. rewrite lookup_with_negotiator, drop_negotiator.
    cbn [from_option recv_buf set_pending_outputs]. by rewrite Hb.
  - left. exists n', w'. pose proof Hw' as (_ & Ho & _). rewrite Ho. cbn [app length].
    rewrite (set_pending_same n') by done. rewrite poll_inbound_end by done. split_and!; [done..| |done].
    split; [by rewrite Hs'|done].
Qed.

(** The stream is the application's. *)
Definition handed_over s (c : ConnectionId) (st : StreamId) (p : string) (peer : P) : SwarmCore :=
  let s := act (set_inbound_negotiators s (delete (c, st) (inbound_negotiators s)))
             (SendStream c st (encode_message p)) in
  emit (set_stream_owner s (<[(c, st) := KindUser p]> (stream_owner s)))
    (UserStreamReady peer st p false).

(** Data handed to the application in pieces [ds]. *)
Definition deliver s (peer : P) (st : StreamId) (ds : list (list byte)) : SwarmCore :=
  set_sw_events s (sw_events s ++ (UserStreamData peer st <$> ds)).

Definition user_stream s c st (p : string) (peer : P) : Prop :=
  conn_to_peer s !! c = Some peer ∧ stream_owner s !! (c, st) = Some (KindUser p) ∧
  inbound_negotiators s !! (c, st) = None ∧ outbound_negotiators s !! (c, st) = None.

Lemma dispatch_user s c st p peer d now :
  user_stream s c st p peer → dispatch_protocol_data s c st d now = Ok (deliver s peer st [d]).
Proof.
  intros (Hc & Ho & _). unfold dispatch_protocol_data, ensure_peer_id_for_conn. by rewrite Ho, Hc.
Qed.

Lemma deliver_app s peer st ds ds' :
  deliver (deliver s peer st ds) peer st ds' = deliver s peer st (ds ++ ds').
Proof. unfold deliver. cbn. by rewrite fmap_app, app_assoc. Qed.

Lemma chunks_delivered s c st p peer cs now :
  user_stream s c st p peer → stream_chunks s c st cs now = Ok (deliver s peer st cs).
Proof.
  revert s. induction cs as [|d cs IH]; intros s Hu; cbn [stream_chunks].
  { unfold deliver. cbn. rewrite app_nil_r. by destruct s. }
  cbn [swarm_handle_input handle_transport_event]. unfold handle_stream_data.
  destruct Hu as (Hc & Ho & Hin & Hout). rewrite Hin, Hout, !decide_False by tauto.
  rewrite (dispatch_user s c st p peer) by done. cbn [mbind res_bind].
  rewrite (IH (deliver s peer st [d])) by done. by rewrite deliver_app.
Qed.

Lemma accepted_handed_over s c st p peer :
  conn_to_peer s !! c = Some peer → p ∈ user_protocols s → p ≠ PING_PROTOCOL_ID → p ≠ IDENTIFY_PROTOCOL_ID →
  on_inbound_negotiated (act (set_inbound_negotiators s (delete (c, st) (inbound_negotiators s)))
    (SendStream c st (encode_message p))) c st p = Ok (handed_over s c st p peer).
Proof.
  intros Hc Hu H1 H2. unfold on_inbound_negotiated, ensure_peer_id_for_conn.
  cbn [conn_to_peer act set_sw_actions set_inbound_negotiators]. rewrite Hc.
  rewrite (decide_False (P:=p = PING_PROTOCOL_ID)), (decide_False (P:=p = IDENTIFY_PROTOCOL_ID)) by done.
  by rewrite decide_True.
Qed.

Lemma negotiation_delivered s c st p peer cs now n w tail :
  line_ok p → conn_to_peer s !! c = Some peer → p ∈ user_protocols s →
  p ≠ PING_PROTOCOL_ID → p ≠ IDENTIFY_PROTOCOL_ID → outbound_negotiators s !! (c, st) = None →
  awaiting p n w → w ≠ [] → concat cs = w ++ tail →
  ∃ ds, stream_chunks (with_negotiator s c st n) c st cs now = Ok (deliver (handed_over s c st p peer) peer st ds) ∧
        concat ds = tail.
Proof.
  intros Hp Hc Hu H1 H2 Hout. revert n w. induction cs as [|d cs IH]; intros n w Hw Hne Hcat.
  { by apply eq_sym, app_eq_nil in Hcat as [? _]. }
  cbn [stream_chunks concat swarm_handle_input handle_transport_event] in *. unfold handle_stream_data.
  rewrite lookup_with_negotiator, decide_True by done.
  destruct (feed_waiting s c st now p n w d (concat cs) tail Hp Hw Hcat)
    as [(n' & w' & Hne' & Hr & Hw' & ->)|(t & -> & ->)].
  { cbn [mbind res_bind]. by apply (IH n' w'). }
  rewrite (accepted_handed_over s c st p peer) by done. cbn [mbind res_bind].
  assert (user_stream (handed_over s c st p peer) c st p peer) as Hus.
  { split_and!; [done|cbn; apply lookup_insert_eq|cbn; apply lookup_delete_eq|done]. }
  case_decide as Ht.
  - rewrite (dispatch_user _ c st p peer) by done. cbn [mbind res_bind].
    exists (t :: cs). split; [|done]. rewrite (chunks_delivered _ c st p peer) by done.
    by rewrite deliver_app.
  - exists cs. subst t. split; [|done].
    cbn [mbind res_bind]. by rewrite (chunks_delivered _ c st p peer).
Qed.

(** ** Property *)

(** An inbound user stream end to end: on a connection with a known peer, whatever the
    fragmentation of the remote's header, protocol request and data, the swarm sends the
    multistream header and the accepted protocol, announces the stream once, and then
    delivers exactly the remote's bytes, in order, as data of that stream; nothing else is
    sent or reported. *)
Theorem swarm_user_stream s c st p peer cs tail now :
  line_ok p → p ∈ user_protocols s → p ∈ supported s →
  p ≠ PING_PROTOCOL_ID → p ≠ IDENTIFY_PROTOCOL_ID →
  conn_to_peer s !! c = Some peer → outbound_negotiators s !! (c, st) = None →
  concat cs = encode_message MULTISTREAM_PROTOCOL_ID ++ encode_message p ++ tail →
  ∃ s0 s' ds,
    swarm_handle_input s (SwTransport (TIncomingStream c st) now) = Ok s0 ∧
    stream_chunks s0 c st cs now = Ok s' ∧ concat ds = tail ∧
    sw_events s' = sw_events s ++ UserStreamReady peer st p false :: (UserStreamData peer st <$> ds) ∧
    sw_actions s' = sw_actions s ++ [SendStream c st (encode_message MULTISTREAM_PROTOCOL_ID);
                                     SendStream c st (encode_message p)] ∧
    stream_owner s' !! (c, st) = Some (KindUser p).
Proof.
  intros Hp Hu Hs H1 H2 Hc Hout Hcat. cbn [swarm_handle_input handle_transport_event].
  destruct (incoming_stream_spec s c st p Hs) as (n & -> & Hw). set (s1 := act s _).
  destruct (negotiation_delivered s1 c st p peer cs now n
    (encode_message MULTISTREAM_PROTOCOL_ID ++ encode_message p) tail)
    as (ds & E & Hds); [done..| |by rewrite <- app_assoc|].
  - intros [? _]%app_eq_nil. done.
  - eexists _, _, ds. split; [done|]. split; [exact E|]. split_and!; [done| | |].
    + unfold deliver, handed_over. cbn. by rewrite <- app_assoc.
    + unfold deliver, handed_over. cbn. by rewrite <- app_assoc.
    + cbn. apply lookup_insert_eq.
Qed.

End streams.

(** ** Concrete runs *)

#[local] Abbreviation Pid := (PeerId PlainMultihash).

Definition demo_protocol : string := "/chat/1.0.0"%string.
Definition demo_chat : SwarmCore (P:=Pid) := add_user_protocol demo_swarm demo_protocol.
Definition demo_bytes : list byte :=
  encode_message MULTISTREAM_PROTOCOL_ID ++ encode_message demo_protocol ++ [x68; x69].
Definition demo_stream_chunks : list (list byte) := [take 5 demo_bytes; take 28 (drop 5 demo_bytes); drop 33 demo_bytes].

Lemma swarm_user_stream_witness :
  ∃ s0 s' ds,
    swarm_handle_input demo_chat (SwTransport (TIncomingStream 1 4) 5) = Ok s0 ∧
    stream_chunks s0 1 4 demo_stream_chunks 5 = Ok s' ∧ concat ds = [x68; x69] ∧
    sw_events s' = sw_events demo_chat ++
      UserStreamReady demo_pid 4 demo_protocol false :: (UserStreamData demo_pid 4 <$> ds).
Proof.
  destruct (swarm_user_stream demo_chat 1 4 demo_protocol demo_pid demo_stream_chunks [x68; x69] 5)
    as (s0 & s' & ds & H1 & H2 & H3 & H4 & _).
  - split_and!; [vm_compute; reflexivity|done|vm_compute; lia].
  - by vm_compute; left.
  - by vm_compute; right; right; left.
  - done.
  - done.
  - vm_compute. reflexivity.
  - vm_compute. reflexivity.
  - vm_compute. reflexivity.
  - exists s0, s', ds. by split_and!.
Defined.

(** A stream negotiated before the peer is verified is announced to the application under
    the placeholder identity. *)
Example placeholder_is_visible :
  match handle_incoming_stream (add_user_protocol demo_anonymous demo_protocol) 1 4 with
  | Ok s =>
      match stream_chunks s 1 4 [demo_bytes] 5 with
      | Ok s' => sw_events s' = [UserStreamReady (synthetic_peer 1) 4 demo_protocol false;
                                 UserStreamData (synthetic_peer 1) 4 [x68; x69]]
      | _ => False
      end
  | _ => False
  end.
Proof. vm_compute. reflexivity. Qed.

(** Verifying that a second connection belongs to an already connected peer makes it the
    primary one, but the first is neither closed nor forgotten: only [Connected] with an
    identity supersedes. *)
Definition demo_second : SwarmCore (P:=Pid) :=
  run_inputs demo_swarm [SwTransport (TConnected 2 demo_unknown) 1;
                         SwTransport (TPeerIdentityVerified 2 demo_endpoint None) 2].
Example upgrade_orphans_connection :
  peer_to_conn demo_second !! demo_pid = Some 2 ∧ conn_to_peer demo_second !! 1 = Some demo_pid ∧
  sw_actions demo_second = [OpenStream 1 1; OpenStream 2 2].
Proof. vm_compute. by split_and!. Qed.
