(* ===== verification/SwarmOpener.v ===== *)
(** * An outbound user stream from negotiation to delivery ([crates/swarm/src/core.rs])

    The side that opened the stream: how the dialer's negotiator and
    [feed_outbound_negotiator] take the remote's bytes in any fragmentation, ask for the
    protocol once, announce the stream and hand the rest to the application. *)
From S2P Require Import Prelude SansIo Varint Multibase PeerId Multiaddr Multistream.
From S2P Require Import IdentifyMessage Ping Identify SwarmEvents SwarmCore SwarmInvariant SwarmStreams.
From Stdlib Require Import ZArith Strings.Byte Strings.String.
From stdpp Require Import base numbers list gmap strings.

#[local] Open Scope Z_scope.
#[local] Abbreviation hdr := (encode_message MULTISTREAM_PROTOCOL_ID).

(** ** The negotiator *)

(** The dialer waits for the bytes [w] before it is done, the last line being the answer
    [ans]; [asked]: its request is sent. *)
Definition dial_awaiting (p ans : string) (asked : bool) (n : MultistreamSelect) (w : list byte) : Prop :=
  role n = Dialer ∧ desired_protocol n = Some p ∧ pending_outputs n = [] ∧
  if asked then state n = WaitingForProtocolResponse ∧ needs n ans w
  else state n = WaitingForRemoteHeader ∧
       ∃ k, needs n MULTISTREAM_PROTOCOL_ID k ∧ w = k ++ encode_message ans.

(** What is sent when the dialer goes from [asked] to [asked']. *)
Definition asking {A} (asked asked' : bool) (a : A) : list A :=
  if negb asked && asked' then [a] else [].

(** The verdict of the dialer on an answer. *)
Definition dial_verdict (p ans : string) : MultistreamOutput :=
  if decide (ans = p) then Negotiated p else NotAvailable.
(** An answer is the protocol, or the refusal. *)
Definition is_answer (p ans : string) : Prop := line_ok ans ∧ (ans = p ∨ ans = NOT_AVAILABLE).

(** The two results of receiving a part of what is awaited, [rest] being still to come. *)
Definition dial_result (p ans : string) (asked : bool) (rest tail : list byte)
    (r : res Empty_set (MultistreamSelect * list MultistreamOutput)) : Prop :=
  (∃ t n, tail = t ++ rest ∧ recv_buf n = t ∧ pending_outputs n = [] ∧
     r = Ok (n, asking asked true (OutboundData (encode_message p)) ++ [dial_verdict p ans])) ∨
  (∃ w asked' n, w ≠ [] ∧ rest = w ++ tail ∧ (asked = true → asked' = true) ∧
     dial_awaiting p ans asked' n w ∧ r = Ok (n, asking asked asked' (OutboundData (encode_message p)))).

Lemma response_step p ans n rest tail :
  is_answer p ans → role n = Dialer → desired_protocol n = Some p → pending_outputs n = [] →
  state n = WaitingForProtocolResponse → recv_buf n ++ rest = encode_message ans ++ tail →
  dial_result p ans true rest tail (process n).
Proof.
  intros [Hl Ha] Hr Hd Ho Hst Hcat.
  destruct (split_frame _ _ _ _ Hcat) as [(t & Hb & ->)|(k & Hk & Hne & ->)].
  - left. rewrite <- (set_recv_buf_id n), Hb.
    rewrite (process_line n ans t Done [dial_verdict p ans]); [|done|by rewrite Hst|].
    + rewrite process_done by done. by exists t, (set_recv_buf (set_state n Done) t).
    + rewrite Hst, Hd. cbn [handle_message expect mbind res_bind].
      unfold dial_verdict. case_decide; [done|]. rewrite decide_True; [done|tauto].
  - right. exists k, true, n. split_and!; [done..|by eapply process_needs].
Qed.

Lemma dial_step p ans asked n w b rest tail :
  is_answer p ans → dial_awaiting p ans asked n w → b ++ rest = w ++ tail →
  dial_result p ans asked rest tail (receive n b).
Proof.
  intros Hp (Hr & Hd & Ho & Hst) Hcat. rewrite receive_process.
  rewrite decide_False by (destruct asked, Hst as [-> _]; done).
  destruct asked; [destruct Hst as [Hst [Hk Hne]]|destruct Hst as (Hst & k & [Hk Hne] & ->)].
  { apply (response_step p ans (set_recv_buf n (recv_buf n ++ b))); [done..|].
    cbn. by rewrite Hk, <- !app_assoc, Hcat. }
  assert ((recv_buf n ++ b) ++ rest = hdr ++ encode_message ans ++ tail)
    as Hcat' by (rewrite Hk, <- !app_assoc, Hcat, <- app_assoc; done).
  destruct (split_frame _ _ _ _ Hcat') as [(t & Hb & Ht)|(k' & Hk' & Hne' & ->)].
  - rewrite Hb, (process_line n MULTISTREAM_PROTOCOL_ID t WaitingForProtocolResponse
                   [OutboundData (encode_message p)]);
      [|apply header_ok|by rewrite Hst|rewrite Hst, Hr, Hd; cbn [handle_message]; by rewrite decide_True].
    destruct (response_step p ans (set_recv_buf (set_state n WaitingForProtocolResponse) t) rest tail)
      as [(t' & n' & ? & ? & ? & E)|(w' & a' & n' & ? & ? & Ha & ? & E)]; [done..| |]; rewrite E.
    + left. by exists t', n'.
    + right. exists w', a', n'. rewrite (Ha eq_refl) in *. by split_and!.
  - right. exists (k' ++ encode_message ans), false, (set_recv_buf n (recv_buf n ++ b)).
    split_and!; [by destruct k'|by rewrite <- app_assoc|done| |].
    + split_and!; [done..|]. by exists k'.
    + by eapply (process_needs _ MULTISTREAM_PROTOCOL_ID); [apply header_ok|].
Qed.

(** ** The swarm *)

Section opener.
Context {P : Type} `{SP : !SwarmPeers P} `{BP : !BuildProfile}.
Implicit Types (s : SwarmCore (P:=P)).

(** The negotiator of a stream this side opened for [tgt] is [n]. *)
Definition dialing s (c : ConnectionId) (st : StreamId) (tgt : ProtocolKind) (n : MultistreamSelect) : SwarmCore :=
  set_outbound_negotiators s (<[(c, st) := {| negotiator := n; target := tgt |}]> (outbound_negotiators s)).

Definition act_all s (l : list SwarmAction) : SwarmCore := set_sw_actions s (sw_actions s ++ l).

Lemma lookup_dialing s c st tgt n :
  outbound_negotiators (dialing s c st tgt n) !! (c, st) = Some {| negotiator := n; target := tgt |}.
Proof. apply lookup_insert_eq. Qed.
Lemma dialing_twice s c st tgt n n' : dialing (dialing s c st tgt n) c st tgt n' = dialing s c st tgt n'.
Proof. unfold dialing. cbn. by rewrite insert_insert_eq. Qed.
Lemma drop_dialing s c st tgt n :
  set_outbound_negotiators (dialing s c st tgt n) (delete (c, st) (outbound_negotiators (dialing s c st tgt n)))
  = set_outbound_negotiators s (delete (c, st) (outbound_negotiators s)).
Proof. unfold dialing. cbn. by rewrite delete_insert_eq. Qed.
Lemma act_all_nil s : act_all s [] = s.
Proof. unfold act_all. rewrite app_nil_r. by destruct s. Qed.

Lemma poll_outbound_send fuel s c st tgt n os b neg :
  pending_outputs n = OutboundData b :: os →
  poll_outbound (S fuel) (dialing s c st tgt n) c st neg =
    poll_outbound fuel (dialing (act s (SendStream c st b)) c st tgt (set_pending_outputs n os)) c st neg.
Proof.
  intros Ho. cbn [poll_outbound]. rewrite lookup_dialing. cbn [negotiator target].
  unfold ms_poll_output. rewrite Ho. cbn [handle_multistream_output].
  by rewrite <- (dialing_twice (act s _) c st tgt n).
Qed.

Lemma poll_outbound_negotiated fuel s c st tgt n os q neg :
  pending_outputs n = Negotiated q :: os →
  poll_outbound (S fuel) (dialing s c st tgt n) c st neg =
    poll_outbound fuel (dialing s c st tgt (set_pending_outputs n os)) c st true.
Proof.
  intros Ho. cbn [poll_outbound]. rewrite lookup_dialing. cbn [negotiator target].
  unfold ms_poll_output. rewrite Ho. by rewrite <- (dialing_twice s c st tgt n (set_pending_outputs n os)).
Qed.

Lemma poll_outbound_end fuel s c st tgt n neg :
  pending_outputs n = [] →
  poll_outbound (S fuel) (dialing s c st tgt n) c st neg = (dialing s c st tgt n, neg, false).
Proof.
  intros Ho. cbn [poll_outbound]. rewrite lookup_dialing. cbn [negotiator target].
  unfold ms_poll_output. rewrite Ho.
  change (set_outbound_negotiators (dialing s c st tgt n) _) with (dialing (dialing s c st tgt n) c st tgt n).
  by rewrite dialing_twice.
Qed.

Lemma feed_outbound_received s c st tgt now n d n' os :
  receive n d = Ok (n', os) → pending_outputs n' = [] →
  feed_outbound_negotiator (dialing s c st tgt n) c st d now =
    let '(s, negotiated, failed) :=
      poll_outbound (S (length os)) (dialing s c st tgt (set_pending_outputs n' os)) c st false in
    if failed then Ok (reset_outbound s c st)
    else if negotiated then
      let remaining := from_option (λ p, recv_buf (negotiator p)) [] (outbound_negotiators s !! (c, st)) in
      s ← on_outbound_negotiated (set_outbound_negotiators s (delete (c, st) (outbound_negotiators s)))
            c st tgt now;
      if decide (remaining ≠ []) then dispatch_protocol_data s c st remaining now else Ok s
    else Ok s.
Proof.
  intros E Ho. unfold feed_outbound_negotiator. rewrite lookup_dialing.
  cbn [negotiator target ms_handle_input]. rewrite E, Ho. cbn [app].
  by rewrite <- (dialing_twice s c st tgt n (set_pending_outputs n' os)).
Qed.

(** Polling when the request, if any, is all there is. *)
Lemma poll_outbound_asks s c st tgt n asked asked' b :
  pending_outputs n = [] →
  poll_outbound (S (length (asking asked asked' (OutboundData b))))
    (dialing s c st tgt (set_pending_outputs n (asking asked asked' (OutboundData b)))) c st false
  = (dialing (act_all s (asking asked asked' (SendStream c st b))) c st tgt n, false, false).
Proof.
  intros Ho. destruct asked, asked'; cbn [asking negb andb app length];
    rewrite ?(poll_outbound_send _ _ _ _ _ _ [] b) by done;
    rewrite poll_outbound_end by done; rewrite ?act_all_nil; by destruct n; cbn in *; subst.
Qed.

(** The stream is the application's. *)
Definition opened s (c : ConnectionId) (st : StreamId) (p : string) (peer : P) : SwarmCore :=
  emit (set_stream_owner (set_outbound_negotiators s (delete (c, st) (outbound_negotiators s)))
          (<[(c, st) := KindUser p]> (stream_owner s)))
    (UserStreamReady peer st p true).

Lemma opened_user_stream s c st p peer :
  conn_to_peer s !! c = Some peer → inbound_negotiators s !! (c, st) = None →
  user_stream (opened s c st p peer) c st p peer.
Proof. intros. split_and!; [done|cbn; apply lookup_insert_eq|done|cbn; apply lookup_delete_eq]. Qed.

Lemma outbound_handed_over s c st p peer now :
  conn_to_peer s !! c = Some peer →
  on_outbound_negotiated (set_outbound_negotiators s (delete (c, st) (outbound_negotiators s)))
    c st (KindUser p) now = Ok (opened s c st p peer).
Proof.
  intros Hc. unfold on_outbound_negotiated, ensure_peer_id_for_conn.
  cbn [conn_to_peer set_outbound_negotiators]. by rewrite Hc.
Qed.

(** One more chunk while the negotiation is open. *)
Lemma feed_dialing s c st now p peer asked n w d rest tail :
  line_ok p → conn_to_peer s !! c = Some peer → inbound_negotiators s !! (c, st) = None →
  dial_awaiting p p asked n w → d ++ rest = w ++ tail →
  (∃ t, tail = t ++ rest ∧
     feed_outbound_negotiator (dialing s c st (KindUser p) n) c st d now =
       Ok (deliver (opened (act_all s (asking asked true (SendStream c st (encode_message p)))) c st p peer)
             peer st (if decide (t = []) then [] else [t]))) ∨
  (∃ w' asked' n', w' ≠ [] ∧ rest = w' ++ tail ∧ (asked = true → asked' = true) ∧ dial_awaiting p p asked' n' w' ∧
     feed_outbound_negotiator (dialing s c st (KindUser p) n) c st d now =
       Ok (dialing (act_all s (asking asked asked' (SendStream c st (encode_message p)))) c st (KindUser p) n')).
Proof.
  intros Hp Hc Hi Hw Hcat.
  destruct (dial_step p p asked n w d rest tail (conj Hp (or_introl eq_refl)) Hw Hcat)
    as [(t & n' & Ht & Hb & Ho & E)|(w' & asked' & n' & Hne & Hr & Ha & Hw' & E)].
  - unfold dial_verdict in E. rewrite decide_True in E by done.
    left. exists t. split; [done|]. rewrite (feed_outbound_received _ _ _ _ _ _ _ _ _ E) by done.
    set (s1 := act_all s _).
    assert (poll_outbound (S (length (asking asked true (OutboundData (encode_message p)) ++ [Negotiated p])))
      (dialing s c st (KindUser p) (set_pending_outputs n' (asking asked true (OutboundData (encode_message p)) ++ [Negotiated p])))
      c st false = (dialing s1 c st (KindUser p) n', true, false)) as ->.
    { subst s1. destruct asked; cbn [asking negb andb app length];
        rewrite ?(poll_outbound_send _ _ _ _ _ _ [Negotiated p] (encode_message p)) by done;
        rewrite (poll_outbound_negotiated _ _ _ _ _ _ [] p) by done;
        rewrite poll_outbound_end by done; rewrite ?act_all_nil; by destruct n'; cbn in *; subst. }
    cbv zeta. rewrite lookup_dialing, drop_dialing. cbn [from_option negotiator].
    rewrite (outbound_handed_over s1 c st p peer) by done. cbn [mbind res_bind].
    rewrite Hb. destruct (decide (t = [])) as [->|Hne].
    + rewrite decide_False by auto. unfold deliver. cbn. by rewrite app_nil_r.
    + rewrite decide_True by done. apply (dispatch_user _ c st p peer). by apply opened_user_stream.
  - right. exists w', asked', n'. split_and!; [done..|].
    pose proof Hw' as (_ & _ & Ho & _).
    rewrite (feed_outbound_received _ _ _ _ _ _ _ _ _ E) by done.
    by rewrite poll_outbound_asks.
Qed.

(** The opening: the header is sent and the dialer waits for header and answer. *)
Lemma stream_opened_dialing s c st tok now o p ans :
  pending_opens s !! tok = Some o → open_conn_id o = c → open_protocol o = p → open_target o = KindUser p →
  ∃ n, dial_awaiting p ans false n (hdr ++ encode_message ans) ∧
       handle_stream_opened s c st tok now =
         Ok (dialing (act (set_pending_opens s (delete tok (pending_opens s))) (SendStream c st hdr))
               c st (KindUser p) n).
Proof.
  intros Ho <- <- Ht. exists (set_started (dialer (open_protocol o)) true). split.
  - split_and!; [done..|]. by exists hdr.
  - unfold handle_stream_opened. rewrite Ho, Ht. cbv zeta. by rewrite decide_False by tauto.
Qed.

(** A stream that closes before its protocol is agreed on is forgotten without a word to
    the application that opened it. *)
Lemma closed_while_dialing s c st tgt n now :
  stream_owner s !! (c, st) = None →
  ∃ s', swarm_handle_input (dialing s c st tgt n) (SwTransport (TStreamClosed c st) now) = Ok s' ∧
    outbound_negotiators s' !! (c, st) = None ∧ inbound_negotiators s' !! (c, st) = None ∧
    sw_events s' = sw_events s ∧ sw_actions s' = sw_actions s.
Proof.
  intros Ho. cbn [swarm_handle_input handle_transport_event]. unfold handle_stream_closed. cbv zeta.
  cbn [stream_owner dialing set_outbound_negotiators]. rewrite Ho. cbn [mbind res_bind].
  eexists. split; [done|]. cbn. by rewrite !lookup_delete_eq.
Qed.

End opener.
