(* ===== verification/SwarmLink.v ===== *)
(** * Two swarms and one user stream between them ([crates/swarm/src/core.rs])

    Two cores joined by a reliable byte pipe in each direction: the opener's core has
    opened a stream for a registered protocol, the listener's core was told of it.  The
    pipes deliver in pieces of any size, in any interleaving with what the two applications
    write.  The theorem is about every run. *)
From S2P Require Import Prelude SansIo Varint Multibase PeerId Multiaddr Multistream.
From S2P Require Import IdentifyMessage Ping Identify SwarmEvents SwarmCore SwarmInvariant.
From S2P Require Import SwarmStreams SwarmOpener.
From Stdlib Require Import ZArith Strings.Byte Strings.String.
From stdpp Require Import base numbers list gmap strings relations.

#[local] Open Scope Z_scope.
#[local] Abbreviation hdr := (encode_message MULTISTREAM_PROTOCOL_ID).

Section link.
Context {P : Type} `{SP : !SwarmPeers P} `{BP : !BuildProfile}.
Implicit Types (s : SwarmCore (P:=P)).

(** ** What a core asks the transport to do for one stream *)

Definition sent_bytes (c : ConnectionId) (st : StreamId) (a : SwarmAction) : option (list byte) :=
  match a with
  | SendStream c' st' b => if decide (c' = c ∧ st' = st) then Some b else None
  | _ => None
  end.
Definition sent_on c st (l : list SwarmAction) : list byte := concat (omap (sent_bytes c st) l).
Definition sent_elsewhere c st (l : list SwarmAction) : list SwarmAction :=
  filter (λ a, sent_bytes c st a = None) l.

Definition flushed s : SwarmCore := set_sw_actions s [].

(** ** The link *)

Record Link : Type := {
  la : SwarmCore (P:=P);        (** the core that opened the stream *)
  lb : SwarmCore (P:=P);        (** the core that was asked *)
  a2b : list byte;              (** in flight *)
  b2a : list byte;
  wrote_a : list byte;          (** what the applications wrote, accepted by the cores *)
  wrote_b : list byte;
  others : list SwarmAction     (** every action that is not a send on the stream *)
}.

(** The two ends: connection and stream id there, and the peer each core sees. *)
Context (p : string) (cA cB : ConnectionId) (stA stB : StreamId) (alice bob : P).

Definition step_a (l : Link) (s : SwarmCore) (rest wrote : list byte) : Link :=
  {| la := flushed s; lb := lb l; a2b := a2b l ++ sent_on cA stA (sw_actions s); b2a := rest;
     wrote_a := wrote_a l ++ wrote; wrote_b := wrote_b l;
     others := others l ++ sent_elsewhere cA stA (sw_actions s) |}.
Definition step_b (l : Link) (s : SwarmCore) (rest wrote : list byte) : Link :=
  {| la := la l; lb := flushed s; a2b := rest; b2a := b2a l ++ sent_on cB stB (sw_actions s);
     wrote_a := wrote_a l; wrote_b := wrote_b l ++ wrote;
     others := others l ++ sent_elsewhere cB stB (sw_actions s) |}.

Inductive link_step : Link → Link → Prop :=
  | link_to_a l x rest now s :
      b2a l = x ++ rest → x ≠ [] →
      swarm_handle_input (la l) (SwTransport (TStreamData cA stA x) now) = Ok s →
      link_step l (step_a l s rest [])
  | link_to_b l x rest now s :
      a2b l = x ++ rest → x ≠ [] →
      swarm_handle_input (lb l) (SwTransport (TStreamData cB stB x) now) = Ok s →
      link_step l (step_b l s rest [])
  | link_write_a l d s :
      send_user_stream (la l) bob stA d = (s, Ok ()) → link_step l (step_a l s (b2a l) d)
  | link_write_b l d s :
      send_user_stream (lb l) alice stB d = (s, Ok ()) → link_step l (step_b l s (a2b l) d).

(** The driver reports the opened stream to one core and the incoming one to the other. *)
Definition link_start sA sB (tok : OpenStreamToken) (now : Z) : res Empty_set Link :=
  a ← swarm_handle_input sA (SwStreamOpened cA stA tok now);
  b ← swarm_handle_input sB (SwTransport (TIncomingStream cB stB) now);
  Ok {| la := flushed a; lb := flushed b;
        a2b := sent_on cA stA (sw_actions a); b2a := sent_on cB stB (sw_actions b);
        wrote_a := []; wrote_b := [];
        others := sent_elsewhere cA stA (sw_actions a) ++ sent_elsewhere cB stB (sw_actions b) |}.

Definition nothing_in_flight (l : Link) : Prop := a2b l = [] ∧ b2a l = [].

(** ** One end *)

#[local] Abbreviation req := (encode_message p).

(** The stream is not the application's yet: [w] is awaited. *)
Definition waiting (init asked : bool) c st s (w : list byte) : Prop :=
  if init then
    ∃ s0 n, s = dialing s0 c st (KindUser p) n ∧ dial_awaiting p p asked n w ∧
            inbound_negotiators s !! (c, st) = None
  else asked = false ∧
    ∃ s0 n, s = with_negotiator s0 c st n ∧ awaiting p n w ∧
            outbound_negotiators s !! (c, st) = None ∧ p ∈ user_protocols s.

(** The state of one end after the bytes [r], with [snt] sent, [d] of it the application's. *)
Inductive side (init : bool) c st (peer : P) (E : list SwarmEvent) s :
    list byte → list byte → list byte → Prop :=
  | side_waiting asked w r :
      waiting init asked c st s w → w ≠ [] → r ++ w = hdr ++ req →
      stream_owner s !! (c, st) = None → sw_events s = E →
      side init c st peer E s r (hdr ++ if asked then req else []) []
  | side_ready ds d :
      user_stream s c st p peer →
      sw_events s = E ++ UserStreamReady peer st p init :: (UserStreamData peer st <$> ds) →
      side init c st peer E s (hdr ++ req ++ concat ds) (hdr ++ req ++ d) d.

(** The connection is the only one to the peer, and nothing is left to be flushed. *)
Definition attached c (peer : P) s : Prop :=
  conn_to_peer s !! c = Some peer ∧ (∀ c', conn_to_peer s !! c' = Some peer → c' = c) ∧ sw_actions s = [].

Lemma side_just_ready init c st peer E s ds :
  user_stream s c st p peer →
  sw_events s = E ++ UserStreamReady peer st p init :: (UserStreamData peer st <$> ds) →
  side init c st peer E s (hdr ++ req ++ concat ds) (hdr ++ req) [].
Proof. intros Hu He. rewrite <- (app_nil_r (hdr ++ req)), <- app_assoc. by apply side_ready. Qed.

Lemma side_sent init c st peer E s r snt d :
  side init c st peer E s r snt d → ∃ more, snt ++ more = hdr ++ req ++ d ∧ (more ≠ [] → d = []).
Proof.
  intros [[] w r' _ _ _ _ _|ds d' _ _].
  - exists []. by rewrite !app_nil_r.
  - exists req. by rewrite !app_nil_r.
  - exists []. by rewrite !app_nil_r.
Qed.

Lemma sent_on_nil c st : sent_on c st [] = [].
Proof. done. Qed.
Lemma sent_on_asking c st asked asked' b :
  sent_on c st (asking asked asked' (SendStream c st b)) = if negb asked && asked' then b else [].
Proof.
  unfold asking, sent_on. destruct (negb asked && asked'); [|done].
  cbn [omap list_omap sent_bytes]. rewrite decide_True by done. apply app_nil_r.
Qed.
Lemma elsewhere_asking c st asked asked' b : sent_elsewhere c st (asking asked asked' (SendStream c st b)) = [].
Proof.
  unfold asking, sent_elsewhere. destruct (negb asked && asked'); [|done].
  rewrite filter_cons_False; [done|]. cbn [sent_bytes]. by rewrite decide_True.
Qed.
Lemma asked_app (asked asked' : bool) (u v : list byte) :
  (asked = true → asked' = true) →
  (u ++ if asked then v else []) ++ (if negb asked && asked' then v else []) = u ++ if asked' then v else [].
Proof.
  intros H. destruct asked; [rewrite (H eq_refl)|destruct asked']; cbn [negb andb]; by rewrite ?app_nil_r.
Qed.

Context (Hp : line_ok p) (Hping : p ≠ PING_PROTOCOL_ID) (Hid : p ≠ IDENTIFY_PROTOCOL_ID).

(** What is left to arrive, after [r] arrived of the header, the protocol and [tail]. *)
Lemma awaited_split r w x rest tail :
  r ++ w = hdr ++ req → r ++ x ++ rest = hdr ++ req ++ tail → x ++ rest = w ++ tail.
Proof using. intros Hw Hx. rewrite (app_assoc hdr), <- Hw, <- app_assoc in Hx. by apply app_inv_head in Hx. Qed.

Lemma still_awaited r x w tail :
  r ++ x ++ w ++ tail = hdr ++ req ++ tail → (r ++ x) ++ w = hdr ++ req.
Proof using.
  intros Hx. rewrite (app_assoc hdr), !(app_assoc x), (app_assoc r) in Hx. apply app_inv_tail in Hx.
  by rewrite <- app_assoc.
Qed.

Lemma arrived_done r x rest t :
  r ++ x ++ rest = hdr ++ req ++ t ++ rest → r ++ x = hdr ++ req ++ concat (if decide (t = []) then [] else [t]).
Proof using.
  intros Hx. assert (concat (if decide (t = []) then [] else [t]) = t) as ->.
  { case_decide as Ht; [by rewrite Ht|]. apply app_nil_r. }
  rewrite !app_assoc in Hx. apply app_inv_tail in Hx. by rewrite Hx, <- app_assoc.
Qed.

Lemma side_receive_dialing c st peer E s asked w r x rest tail now :
  attached c peer s → waiting true asked c st s w → w ≠ [] → r ++ w = hdr ++ req →
  stream_owner s !! (c, st) = None → sw_events s = E → r ++ x ++ rest = hdr ++ req ++ tail →
  ∃ s', swarm_handle_input s (SwTransport (TStreamData c st x) now) = Ok s' ∧
    attached c peer (flushed s') ∧ sent_elsewhere c st (sw_actions s') = [] ∧
    side true c st peer E (flushed s') (r ++ x)
      ((hdr ++ if asked then req else []) ++ sent_on c st (sw_actions s')) [].
Proof using Hp.
  intros (Hc & Hu & Ha) (s0 & n & -> & Hw & Hi) Hne Hr Hown HE Hx.
  cbn [swarm_handle_input handle_transport_event]. unfold handle_stream_data.
  rewrite Hi, decide_False by tauto. rewrite lookup_dialing, decide_True by done.
  destruct (feed_dialing s0 c st now p peer asked n w x rest tail Hp Hc Hi Hw)
    as [(t & -> & ->)|(w' & asked' & n' & Hne' & -> & Hask & Hw' & ->)]; [by eapply awaited_split|..];
    eexists; (split; [done|]).
  - assert (sw_actions s0 = []) as Ha' by done.
    cbn [deliver set_sw_events sw_actions opened emit set_stream_owner set_outbound_negotiators act_all set_sw_actions].
    rewrite Ha'. cbn [app]. rewrite sent_on_asking, elsewhere_asking.
    split; [by split_and!|]. split; [done|].
    rewrite (arrived_done r x rest t) by done.
    rewrite asked_app by done.
    apply side_just_ready; [by apply (opened_user_stream s0)|].
    cbn. by rewrite <- HE, <- app_assoc.
  - assert (sw_actions s0 = []) as Ha' by done.
    cbn [dialing set_outbound_negotiators sw_actions act_all set_sw_actions].
    rewrite Ha'. cbn [app]. rewrite sent_on_asking, elsewhere_asking.
    split; [by split_and!|]. split; [done|].
    rewrite asked_app by done.
    eapply (side_waiting _ _ _ _ _ _ asked' w'); [|done|..|done|done].
    + by exists (flushed (act_all s0 [])), n'.
    + by eapply still_awaited.
Qed.

(** The listening end answers when the request is complete. *)
Lemma side_receive_listening c st peer E s asked w r x rest tail now :
  attached c peer s → waiting false asked c st s w → w ≠ [] → r ++ w = hdr ++ req →
  stream_owner s !! (c, st) = None → sw_events s = E → r ++ x ++ rest = hdr ++ req ++ tail →
  ∃ s', swarm_handle_input s (SwTransport (TStreamData c st x) now) = Ok s' ∧
    attached c peer (flushed s') ∧ sent_elsewhere c st (sw_actions s') = [] ∧
    side false c st peer E (flushed s') (r ++ x)
      ((hdr ++ if asked then req else []) ++ sent_on c st (sw_actions s')) [].
Proof using Hp Hping Hid.
  intros (Hc & Hu & Ha) (-> & s0 & n & -> & Hw & Hout & Hup) Hne Hr Hown HE Hx.
  assert (sw_actions s0 = []) as Ha' by done.
  cbn [swarm_handle_input handle_transport_event]. unfold handle_stream_data.
  rewrite lookup_with_negotiator, decide_True by done.
  destruct (feed_waiting s0 c st now p n w x rest tail Hp Hw)
    as [(n' & w' & Hne' & -> & Hw' & ->)|(t & -> & ->)]; [by eapply awaited_split|..].
  - eexists. split; [done|]. cbn [sw_actions with_negotiator set_inbound_negotiators]. rewrite Ha'.
    split; [by split_and!|]. split; [done|]. rewrite sent_on_nil, app_nil_r.
    apply (side_waiting false _ _ _ _ _ false w'); [|done|..|done|done].
    + split; [done|]. by exists (flushed s0), n'.
    + by eapply still_awaited.
  - rewrite (accepted_handed_over s0 c st p peer) by done. cbn [mbind res_bind].
    assert (user_stream (handed_over s0 c st p peer) c st p peer) as Hus.
    { split_and!; [done|cbn; apply lookup_insert_eq|cbn; apply lookup_delete_eq|done]. }
    exists (deliver (handed_over s0 c st p peer) peer st (if decide (t = []) then [] else [t])). split.
    { destruct (decide (t = [])) as [->|Ht].
      - rewrite decide_False by auto. unfold deliver. cbn. by rewrite app_nil_r.
      - rewrite decide_True by done. by apply (dispatch_user _ c st p peer). }
    cbn [deliver set_sw_events sw_actions handed_over emit set_stream_owner act set_sw_actions set_inbound_negotiators].
    rewrite Ha'. change ([] ++ [SendStream c st req]) with (asking false true (SendStream c st req)).
    rewrite sent_on_asking, elsewhere_asking. cbn [negb andb]. rewrite app_nil_r.
    split; [by split_and!|]. split; [done|].
    rewrite (arrived_done r x rest t) by done. apply side_just_ready; [exact Hus|].
    cbn. by rewrite <- HE, <- app_assoc.
Qed.

(** Data for the end of a link, whatever its state: it is taken, and only the stream is
    written to. *)
Lemma side_receive init c st peer E s r snt d x rest tail now :
  attached c peer s → side init c st peer E s r snt d → r ++ x ++ rest = hdr ++ req ++ tail →
  ∃ s', swarm_handle_input s (SwTransport (TStreamData c st x) now) = Ok s' ∧
    attached c peer (flushed s') ∧ sent_elsewhere c st (sw_actions s') = [] ∧
    side init c st peer E (flushed s') (r ++ x) (snt ++ sent_on c st (sw_actions s')) d.
Proof using Hp Hping Hid.
  intros Hat [asked w r' Hw Hne Hr Ho HE|ds d' Hus HE] Hx.
  { destruct init; [by eapply side_receive_dialing|by eapply side_receive_listening]. }
  exists (deliver s peer st [x]). destruct Hat as (Hc & Hu & Ha). split.
  { cbn [swarm_handle_input handle_transport_event]. unfold handle_stream_data.
    pose proof Hus as (_ & _ & Hi & Ho). rewrite Hi, Ho, !decide_False by tauto. by eapply dispatch_user. }
  cbn [deliver set_sw_events sw_actions]. rewrite Ha. split; [by split_and!|]. split; [done|].
  rewrite sent_on_nil, app_nil_r.
  replace ((hdr ++ req ++ concat ds) ++ x) with (hdr ++ req ++ concat (ds ++ [x]))
    by (rewrite concat_app, <- !app_assoc; cbn [concat]; by rewrite app_nil_r).
  apply side_ready; [done|]. cbn. rewrite HE, fmap_app, <- app_assoc. done.
Qed.

(** The connection a write of the application goes to: with one connection to the peer
    it is that one, and there is none before the stream is the application's. *)
Lemma find_map_in {A B} (f : A → option B) l y : find_map f l = Some y → ∃ x, x ∈ l ∧ f x = Some y.
Proof. unfold find_map. intros (l' & E)%head_Some. apply list_elem_of_omap. rewrite E. by left. Qed.

Lemma find_map_some {A B} (f : A → option B) l x y : x ∈ l → f x = Some y → ∃ y', find_map f l = Some y'.
Proof.
  intros Hx Hf. assert (y ∈ omap f l) as Hy by (apply list_elem_of_omap; by exists x).
  unfold find_map. destruct (omap f l) as [|y' l']; [by apply not_elem_of_nil in Hy|by exists y'].
Qed.

Lemma require_attached c st peer s :
  attached c peer s →
  require_user_stream_conn s peer st =
    if from_option is_user false (stream_owner s !! (c, st)) then Ok c else Err (UserStreamNotFound peer st).
Proof using.
  intros (Hc & Hu & _). unfold require_user_stream_conn. set (f := λ x : _ * _, _).
  assert (∀ x y, x ∈ btree_iter stream_key_le (stream_owner s) → f x = Some y →
    y = c ∧ from_option is_user false (stream_owner s !! (c, st)) = true) as Hf.
  { intros [[c' st'] k] y Hx%elem_of_btree_iter Hy. cbn in Hy. case_decide as Hd; [|done].
    destruct Hd as (-> & Hk & Hc'). injection Hy as <-. apply Hu in Hc' as ->. by rewrite Hx. }
  destruct (from_option is_user false _) eqn:E.
  - destruct (stream_owner s !! (c, st)) as [k|] eqn:Ek; [|done].
    destruct (find_map_some f (btree_iter stream_key_le (stream_owner s)) ((c, st), k) c) as [y Hy].
    + by apply elem_of_btree_iter.
    + cbn. by rewrite decide_True.
    + rewrite Hy. cbn. destruct (find_map_in _ _ _ Hy) as (x & Hx & Hfx). by destruct (Hf x y Hx Hfx) as [-> _].
  - destruct (find_map f _) as [y|] eqn:Ey; [|done].
    destruct (find_map_in _ _ _ Ey) as (x & Hx & Hfx). by destruct (Hf x y Hx Hfx) as [_ ?].
Qed.

(** A write is accepted once the stream is ready, and then it is one send. *)
Lemma side_write init c st peer E s r snt d x s' :
  attached c peer s → side init c st peer E s r snt d → send_user_stream s peer st x = (s', Ok ()) →
  attached c peer (flushed s') ∧ sent_elsewhere c st (sw_actions s') = [] ∧
  side init c st peer E (flushed s') r (snt ++ sent_on c st (sw_actions s')) (d ++ x).
Proof using.
  intros Hat Hs. unfold send_user_stream, user_stream_action.
  rewrite (require_attached c st peer s Hat). destruct Hat as (Hc & Hu & Ha).
  destruct Hs as [asked w r' Hw Hne Hr Ho HE|ds d' Hus HE]; [by rewrite Ho|].
  pose proof Hus as (_ & -> & _). cbn [from_option is_user]. intros [= <-].
  cbn [act sw_actions set_sw_actions]. rewrite Ha.
  change ([] ++ [SendStream c st x]) with (asking false true (SendStream c st x)).
  rewrite sent_on_asking, elsewhere_asking. cbn [negb andb].
  split; [by split_and!|]. split; [done|]. rewrite <- !app_assoc. by apply side_ready.
Qed.

(** ** The invariant *)

(** [rA] and [rB] are what the two ends have received: what one sent is what the other
    received and what is in flight. *)
Record link_holds (EA EB : list SwarmEvent) (l : Link) (rA rB : list byte) : Prop := {
  inv_a : side true cA stA bob EA (la l) rA (rB ++ a2b l) (wrote_a l);
  inv_b : side false cB stB alice EB (lb l) rB (rA ++ b2a l) (wrote_b l);
  inv_attached_a : attached cA bob (la l);
  inv_attached_b : attached cB alice (lb l);
  inv_others : others l = []
}.

Lemma side_compat init c st peer E s r' r x rest d :
  side init c st peer E s r' (r ++ x ++ rest) d → ∃ rest' tail, r ++ x ++ rest' = hdr ++ req ++ tail.
Proof using.
  intros (more & Hm & _)%side_sent. exists (rest ++ more), d. by rewrite <- Hm, <- !app_assoc.
Qed.

Lemma link_holds_takes_a EA EB l rA rB x rest now :
  link_holds EA EB l rA rB → b2a l = x ++ rest →
  ∃ s, swarm_handle_input (la l) (SwTransport (TStreamData cA stA x) now) = Ok s ∧
       link_holds EA EB (step_a l s rest []) (rA ++ x) rB.
Proof using Hp Hping Hid.
  intros [Ha Hb Haa Hab Ho] Hx. rewrite Hx in Hb. destruct (side_compat _ _ _ _ _ _ _ _ _ _ _ Hb) as (rest' & tail & Hc).
  destruct (side_receive _ _ _ _ _ _ _ _ _ _ _ _ now Haa Ha Hc) as (s & E & Hat & Hoth & Hs).
  exists s. split; [done|]. split; cbn; [by rewrite app_nil_r, app_assoc|by rewrite <- app_assoc|done..|].
  by rewrite Ho, Hoth.
Qed.

Lemma link_holds_takes_b EA EB l rA rB x rest now :
  link_holds EA EB l rA rB → a2b l = x ++ rest →
  ∃ s, swarm_handle_input (lb l) (SwTransport (TStreamData cB stB x) now) = Ok s ∧
       link_holds EA EB (step_b l s rest []) rA (rB ++ x).
Proof using Hp Hping Hid.
  intros [Ha Hb Haa Hab Ho] Hx. rewrite Hx in Ha. destruct (side_compat _ _ _ _ _ _ _ _ _ _ _ Ha) as (rest' & tail & Hc).
  destruct (side_receive _ _ _ _ _ _ _ _ _ _ _ _ now Hab Hb Hc) as (s & E & Hat & Hoth & Hs).
  exists s. split; [done|]. split; cbn; [by rewrite <- app_assoc|by rewrite app_nil_r, app_assoc|done..|].
  by rewrite Ho, Hoth.
Qed.

Lemma link_holds_step EA EB l l' rA rB :
  link_step l l' → link_holds EA EB l rA rB → ∃ rA' rB', link_holds EA EB l' rA' rB'.
Proof using Hp Hping Hid.
  intros [l1 x rest now s Hx Hne E|l1 x rest now s Hx Hne E|l1 d s E|l1 d s E] Hinv.
  - destruct (link_holds_takes_a _ _ _ _ _ _ _ now Hinv Hx) as (s' & E' & ?). rewrite E in E'. injection E' as <-. eauto.
  - destruct (link_holds_takes_b _ _ _ _ _ _ _ now Hinv Hx) as (s' & E' & ?). rewrite E in E'. injection E' as <-. eauto.
  - destruct Hinv as [Ha Hb Haa Hab Ho]. exists rA, rB.
    destruct (side_write _ _ _ _ _ _ _ _ _ _ _ Haa Ha E) as (? & Hoth & ?).
    split; cbn; [by rewrite app_assoc|done..|by rewrite Ho, Hoth].
  - destruct Hinv as [Ha Hb Haa Hab Ho]. exists rA, rB.
    destruct (side_write _ _ _ _ _ _ _ _ _ _ _ Hab Hb E) as (? & Hoth & ?).
    split; cbn; [done|by rewrite app_assoc|done..|by rewrite Ho, Hoth].
Qed.

Lemma link_holds_steps EA EB l l' :
  rtc link_step l l' → (∃ rA rB, link_holds EA EB l rA rB) → ∃ rA rB, link_holds EA EB l' rA rB.
Proof using Hp Hping Hid.
  induction 1 as [|l l1 l' Hs _ IH]; [done|]. intros (rA & rB & Hinv). apply IH. by eapply link_holds_step.
Qed.

(** What arrived of the other end's data is a prefix of what the other end was given. *)
Lemma side_delivered init init' c st peer E s r snt d c' st' peer' E' s' r' inflight d' :
  side init c st peer E s r snt d → side init' c' st' peer' E' s' r' (r ++ inflight) d' →
  ∃ ds, concat ds `prefix_of` d' ∧
    ((sw_events s = E ∧ ds = []) ∨
     sw_events s = E ++ UserStreamReady peer st p init :: (UserStreamData peer st <$> ds)).
Proof using.
  intros [asked w r1 Hw Hne Hr Ho HE|ds d1 Hus HE] Hs'.
  { exists []. split; [apply prefix_nil|by left]. }
  exists ds. split; [|by right]. apply side_sent in Hs' as (more & Hm & _). exists (inflight ++ more).
  rewrite <- !app_assoc in Hm. by do 2 apply app_inv_head in Hm.
Qed.

(** ** Quiescence and progress *)

(** Before the stream is ready an end has received less than header and protocol; the
    opener asks as soon as it has the header, the listener only sends the header. *)
Lemma side_waits init c st peer E s r snt d :
  side init c st peer E s r snt d →
  (∃ ds, user_stream s c st p peer ∧
     sw_events s = E ++ UserStreamReady peer st p init :: (UserStreamData peer st <$> ds) ∧
     r = hdr ++ req ++ concat ds ∧ snt = hdr ++ req ++ d) ∨
  (length r < length hdr + length req ∧
   ((length snt = length hdr ∧ (init = true → length r < length hdr)) ∨
    (init = true ∧ length snt = length hdr + length req)))%nat.
Proof using.
  intros [asked w r1 Hw Hne Hr Ho HE|ds d1 Hus HE]; [right|left; by exists ds].
  pose proof (f_equal length Hr) as Hl. rewrite !length_app in Hl.
  assert (0 < length w)%nat as Hpos by (destruct w; [done|cbn; lia]). split; [lia|].
  destruct init; cbn [waiting] in Hw.
  - destruct Hw as (s0 & n & _ & (_ & _ & _ & Hn) & _). destruct asked.
    + right. by rewrite length_app.
    + left. destruct Hn as (_ & k & [_ Hk] & ->). rewrite length_app in *. split; [cbn; lia|].
      intros _. assert (0 < length k)%nat by (destruct k; [done|cbn; lia]). lia.
  - destruct Hw as [-> _]. left. by rewrite app_nil_r.
Qed.

(** The state of an end that everything sent to it has reached. *)
Definition complete init c st peer (E : list SwarmEvent) s (got : list byte) : Prop :=
  stream_owner s !! (c, st) = Some (KindUser p) ∧
  ∃ ds, sw_events s = E ++ UserStreamReady peer st p init :: (UserStreamData peer st <$> ds) ∧ concat ds = got.

Lemma link_holds_quiet EA EB l rA rB :
  link_holds EA EB l rA rB → nothing_in_flight l →
  complete true cA stA bob EA (la l) (wrote_b l) ∧ complete false cB stB alice EB (lb l) (wrote_a l).
Proof using.
  intros [Ha Hb _ _ _] [H1 H2]. rewrite H1, app_nil_r in Ha. rewrite H2, app_nil_r in Hb.
  assert (0 < length req)%nat as Hreq by (unfold encode_message; rewrite !length_app; cbn; lia).
  destruct (side_waits _ _ _ _ _ _ _ _ _ Ha) as [(dsA & HuA & HeA & -> & ->)|HA];
    destruct (side_waits _ _ _ _ _ _ _ _ _ Hb) as [(dsB & HuB & HeB & HrB & HsB)|HB].
  - do 2 apply app_inv_head in HrB. do 2 apply app_inv_head in HsB.
    split; (split; [by apply HuA + apply HuB|]); eexists; eauto.
  - exfalso. rewrite !length_app in HB. lia.
  - exfalso. rewrite HrB in HA. rewrite HsB, !length_app in HA. lia.
  - exfalso. destruct HA as [HA [[? HA']|[_ HA']]], HB as [HB [[? HB']|[? _]]]; try done; [specialize (HA' eq_refl)|]; lia.
Qed.

(** What an end has still to receive bounds what can still be delivered to it. *)
Lemma side_bound init c st peer E s r' r inflight d :
  side init c st peer E s r' (r ++ inflight) d →
  (length r + length inflight ≤ length hdr + length req + length d)%nat.
Proof using.
  intros (more & Hm & _)%side_sent. apply (f_equal length) in Hm. rewrite !length_app in Hm. lia.
Qed.

(** As long as bytes are in flight they can be delivered, and this comes to an end. *)
Lemma link_holds_drain EA EB l rA rB :
  link_holds EA EB l rA rB →
  ∃ l', rtc link_step l l' ∧ nothing_in_flight l' ∧ wrote_a l' = wrote_a l ∧ wrote_b l' = wrote_b l.
Proof using Hp Hping Hid.
  remember (2 * (length hdr + length req) + length (wrote_a l) + length (wrote_b l)
            - length rA - length rB)%nat as m eqn:Hm.
  revert l rA rB Hm. induction (lt_wf m) as [m _ IH]. intros l rA rB -> Hinv.
  pose proof (side_bound _ _ _ _ _ _ _ _ _ _ (inv_a _ _ _ _ _ Hinv)) as HbA.
  pose proof (side_bound _ _ _ _ _ _ _ _ _ _ (inv_b _ _ _ _ _ Hinv)) as HbB.
  destruct (decide (b2a l = [])) as [Hb|Hb]; [destruct (decide (a2b l = [])) as [Ha|Ha]|].
  - exists l. by split_and!.
  - destruct (link_holds_takes_b EA EB l rA rB (a2b l) [] 0 Hinv (eq_sym (app_nil_r _))) as (s & E & Hinv').
    edestruct IH as (l' & Hl' & ? & Hwa & Hwb); [|reflexivity|exact Hinv'|];
      [assert (0 < length (a2b l))%nat by (destruct (a2b l); [done|cbn; lia]); cbn;
       rewrite ?app_nil_r, ?length_app; lia|].
    exists l'. split_and!; [|done|done|by rewrite Hwb; cbn; rewrite app_nil_r].
    eapply rtc_l; [by eapply link_to_b; [symmetry; apply app_nil_r|..]|done].
  - destruct (link_holds_takes_a EA EB l rA rB (b2a l) [] 0 Hinv (eq_sym (app_nil_r _))) as (s & E & Hinv').
    edestruct IH as (l' & Hl' & ? & Hwa & Hwb); [|reflexivity|exact Hinv'|];
      [assert (0 < length (b2a l))%nat by (destruct (b2a l); [done|cbn; lia]); cbn;
       rewrite ?app_nil_r, ?length_app; lia|].
    exists l'. split_and!; [|done|by rewrite Hwa; cbn; rewrite app_nil_r|done].
    eapply rtc_l; [by eapply link_to_a; [symmetry; apply app_nil_r|..]|done].
Qed.

(** ** The start *)

(** The driver's view before: one connection each, the request of the opener recorded, the
    protocol registered on the listener's side, and the stream new on both. *)
Record link_ready sA sB (tok : OpenStreamToken) : Prop := {
  ready_a : attached cA bob sA;
  ready_b : attached cB alice sB;
  ready_open : pending_opens sA !! tok =
    Some {| open_conn_id := cA; open_protocol := p; open_target := KindUser p |};
  ready_new_a : stream_owner sA !! (cA, stA) = None ∧ inbound_negotiators sA !! (cA, stA) = None;
  ready_new_b : stream_owner sB !! (cB, stB) = None ∧ outbound_negotiators sB !! (cB, stB) = None;
  ready_registered : p ∈ user_protocols sB ∧ p ∈ supported sB
}.

Lemma link_start_inv sA sB tok now :
  link_ready sA sB tok →
  ∃ l, link_start sA sB tok now = Ok l ∧ link_holds (sw_events sA) (sw_events sB) l [] [] ∧
       wrote_a l = [] ∧ wrote_b l = [].
Proof using.
  intros [(Hca & Hua & Haa) (Hcb & Hub & Hab) Ho [Hoa Hia] [Hob Hib] [Hup Hsup]]. unfold link_start.
  cbn [swarm_handle_input handle_transport_event].
  destruct (stream_opened_dialing sA cA stA tok now _ p p Ho eq_refl eq_refl eq_refl) as (n & Hn & ->).
  destruct (incoming_stream_spec sB cB stB p Hsup) as (m & -> & Hm).
  eexists. split; [done|]. split; [|done].
  assert (hdr ++ req ≠ []) as Hne by (intros [? _]%app_eq_nil; done).
  assert (∀ c st, sent_on c st [SendStream c st hdr] = hdr ++ if false then req else []) as Hsent
    by (intros; rewrite app_nil_r; apply (sent_on_asking _ _ false true)).
  assert (∀ c st, sent_elsewhere c st [SendStream c st hdr] = []) as Hels
    by (intros; apply (elsewhere_asking _ _ false true)).
  split; cbn [la lb a2b b2a wrote_a wrote_b others dialing with_negotiator set_outbound_negotiators
    set_inbound_negotiators act set_sw_actions set_pending_opens sw_actions];
    rewrite ?Haa, ?Hab; cbn [app]; rewrite ?Hsent, ?Hels; [..|done].
  - apply (side_waiting true _ _ _ _ _ false (hdr ++ req)); [|done..].
    by eexists (flushed (set_pending_opens sA _)), n.
  - apply (side_waiting false _ _ _ _ _ false (hdr ++ req)); [|done..].
    split; [done|]. by exists (flushed sB), m.
  - by split_and!.
  - by split_and!.
Qed.

Lemma side_writable init c st peer E s r snt d x :
  attached c peer s → side init c st peer E s r snt d →
  (stream_owner s !! (c, st) = None ∧ sw_events s = E) ∨
  (∃ s', send_user_stream s peer st x = (s', Ok ())).
Proof using.
  intros Hat [asked w r1 Hw Hne Hr Ho HE|ds d1 Hus HE]; [by left|right].
  unfold send_user_stream, user_stream_action. rewrite (require_attached c st peer s Hat).
  destruct Hus as (_ & -> & _). by eexists.
Qed.

(** What the application of one end has seen of the other's writes [w]. *)
Definition seen init st peer (E : list SwarmEvent) s (w : list byte) : Prop :=
  ∃ ds, concat ds `prefix_of` w ∧
    ((sw_events s = E ∧ ds = []) ∨
     sw_events s = E ++ UserStreamReady peer st p init :: (UserStreamData peer st <$> ds)).

(** ** Running a link *)

(** Delivers up to [n] bytes at a time, to the opener first. *)
Fixpoint pump (n fuel : nat) (l : Link) : Link :=
  match fuel with
  | O => l
  | S fuel =>
      if decide (b2a l ≠ []) then
        match swarm_handle_input (la l) (SwTransport (TStreamData cA stA (take (S n) (b2a l))) 0) with
        | Ok s => pump n fuel (step_a l s (drop (S n) (b2a l)) [])
        | _ => l
        end
      else if decide (a2b l ≠ []) then
        match swarm_handle_input (lb l) (SwTransport (TStreamData cB stB (take (S n) (a2b l))) 0) with
        | Ok s => pump n fuel (step_b l s (drop (S n) (a2b l)) [])
        | _ => l
        end
      else l
  end.

Lemma pump_steps n fuel l : rtc link_step l (pump n fuel l).
Proof using.
  revert l. induction fuel as [|fuel IH]; intros l; cbn [pump]; [done|].
  case_decide as Hb; [|case_decide as Ha; [|done]]; destruct (swarm_handle_input _ _) as [s| |] eqn:E; try done;
    (eapply rtc_l; [|apply IH]).
  - eapply link_to_a; [symmetry; apply take_drop|by destruct (b2a l)|done].
  - eapply link_to_b; [symmetry; apply take_drop|by destruct (a2b l)|done].
Qed.

(** A write of the opener's application; nothing happens when the core refuses it. *)
Definition put_a (l : Link) (d : list byte) : Link :=
  match send_user_stream (la l) bob stA d with
  | (s, Ok _) => step_a l s (b2a l) d
  | _ => l
  end.
Lemma put_a_steps l d : rtc link_step l (put_a l d).
Proof using.
  unfold put_a. destruct (send_user_stream _ _ _ _) as [s [[]| |]] eqn:E; try done.
  apply rtc_once. by apply link_write_a.
Qed.

(** ** Property *)

(** C2. A user stream between two swarms: once the driver has opened the stream on one
    core and reported it to the other, then in every interleaving of deliveries, in pieces
    of any size, and writes of the two applications: no core unwinds or fails on what it
    receives, the cores do nothing but write to the stream, and each application sees
    nothing, or the stream announced exactly once under the protocol asked for, followed by
    a prefix of what the other wrote; an end that was announced accepts writes.  When
    nothing is in flight the stream is announced on both ends and each application has
    received exactly what the other wrote, in order; and this state is always reachable. *)
Theorem user_stream_link sA sB tok now :
  link_ready sA sB tok →
  ∃ l0, link_start sA sB tok now = Ok l0 ∧ ∀ l, rtc link_step l0 l →
    others l = [] ∧
    seen true stA bob (sw_events sA) (la l) (wrote_b l) ∧
    seen false stB alice (sw_events sB) (lb l) (wrote_a l) ∧
    (∀ x rest t, b2a l = x ++ rest →
       ∃ s, swarm_handle_input (la l) (SwTransport (TStreamData cA stA x) t) = Ok s) ∧
    (∀ x rest t, a2b l = x ++ rest →
       ∃ s, swarm_handle_input (lb l) (SwTransport (TStreamData cB stB x) t) = Ok s) ∧
    (sw_events (la l) ≠ sw_events sA → ∀ d, ∃ s, send_user_stream (la l) bob stA d = (s, Ok ())) ∧
    (sw_events (lb l) ≠ sw_events sB → ∀ d, ∃ s, send_user_stream (lb l) alice stB d = (s, Ok ())) ∧
    (nothing_in_flight l →
       complete true cA stA bob (sw_events sA) (la l) (wrote_b l) ∧
       complete false cB stB alice (sw_events sB) (lb l) (wrote_a l)) ∧
    ∃ l', rtc link_step l l' ∧ nothing_in_flight l' ∧ wrote_a l' = wrote_a l ∧ wrote_b l' = wrote_b l.
Proof using Hp Hping Hid.
  intros Hr. destruct (link_start_inv sA sB tok now Hr) as (l0 & E0 & Hinv0 & _). exists l0. split; [done|].
  intros l Hl. destruct (link_holds_steps _ _ _ _ Hl (ex_intro _ [] (ex_intro _ [] Hinv0))) as (rA & rB & Hinv).
  pose proof Hinv as [Ha Hb Haa Hab Ho]. split_and!.
  - done.
  - by eapply side_delivered.
  - by eapply side_delivered.
  - intros x rest t Hx. destruct (link_holds_takes_a _ _ _ _ _ _ _ t Hinv Hx) as (s & ? & _). by exists s.
  - intros x rest t Hx. destruct (link_holds_takes_b _ _ _ _ _ _ _ t Hinv Hx) as (s & ? & _). by exists s.
  - intros He d. by destruct (side_writable _ _ _ _ _ _ _ _ _ d Haa Ha) as [[_ ?]|?].
  - intros He d. by destruct (side_writable _ _ _ _ _ _ _ _ _ d Hab Hb) as [[_ ?]|?].
  - by eapply link_holds_quiet.
  - by eapply link_holds_drain.
Qed.

End link.

(** ** A concrete link *)

#[local] Abbreviation Pid := (PeerId PlainMultihash).

Definition demo_listening : SwarmCore (P:=Pid) := flushed demo_chat.
Definition demo_opening : SwarmCore (P:=Pid) :=
  flushed (fst (open_user_stream demo_chat demo_pid demo_protocol)).

Definition demo_link : res Empty_set Link :=
  link_start (P:=Pid) 1 1 0 0 demo_opening demo_listening 2 5.
(** In pieces of eight bytes: the negotiation, then two bytes of the opener. *)
Definition demo_after (l : Link (P:=Pid)) : Link :=
  let go := pump (P:=Pid) 1 1 0 0 7 40 in
  go (put_a 1 0 demo_pid (go l) [x68; x69]).

Lemma demo_attached (s : SwarmCore (P:=Pid)) :
  conn_to_peer s = {[1 := demo_pid]} → sw_actions s = [] → attached 1 demo_pid s.
Proof.
  intros Hc Ha. unfold attached. rewrite Hc. split_and!; [apply lookup_singleton_eq| |done].
  by intros c' [? _]%lookup_singleton_Some.
Qed.

Lemma demo_link_ready : link_ready demo_protocol 1 1 0 0 demo_pid demo_pid demo_opening demo_listening 2.
Proof.
  split.
  - apply demo_attached; vm_compute; reflexivity.
  - apply demo_attached; vm_compute; reflexivity.
  - vm_compute. reflexivity.
  - split; vm_compute; reflexivity.
  - split; vm_compute; reflexivity.
  - split; [by vm_compute; left|by vm_compute; right; right; left].
Qed.

Lemma user_stream_link_witness :
  ∃ l, demo_link = Ok l ∧ nothing_in_flight (demo_after l) ∧
    complete demo_protocol false 1 0 demo_pid (sw_events demo_listening) (lb (demo_after l)) [x68; x69].
Proof.
  destruct (user_stream_link demo_protocol 1 1 0 0 demo_pid demo_pid
    ltac:(split_and!; [vm_compute; reflexivity|done|vm_compute; lia]) ltac:(done) ltac:(done)
    demo_opening demo_listening 2 5 demo_link_ready) as (l & E & Hl).
  exists l. split; [exact E|].
  assert (match demo_link with Ok l => nothing_in_flight (demo_after l) ∧ wrote_a (demo_after l) = [x68; x69] | _ => False end)
    as Hq by (vm_compute; by split_and!).
  unfold demo_link in Hq. rewrite E in Hq. destruct Hq as [Hq Hw]. split; [exact Hq|].
  rewrite <- Hw. apply (Hl (demo_after l)); [|exact Hq].
  unfold demo_after. etrans; [apply pump_steps|].
  etrans; [apply put_a_steps|apply pump_steps].
Defined.

(** Without the single connection the ends are confused: the application names a stream by
    peer and stream id, the ids are those of the connection, and a peer verified on a
    second connection keeps the first.  What is written in answer to the stream of
    connection 2 goes out on connection 1. *)
Definition demo_two : SwarmCore (P:=Pid) :=
  run_inputs (flushed (add_user_protocol demo_second demo_protocol))
    (c ← [1; 2]; [SwTransport (TIncomingStream c 4) 5; SwTransport (TStreamData c 4 demo_bytes) 5]).
Example write_goes_to_first_connection :
  stream_owner demo_two !! (1, 4) = Some (KindUser demo_protocol) ∧
  stream_owner demo_two !! (2, 4) = Some (KindUser demo_protocol) ∧
  peer_to_conn demo_two !! demo_pid = Some 2 ∧
  sw_actions (fst (send_user_stream (flushed demo_two) demo_pid 4 [x6f])) = [SendStream 1 4 [x6f]].
Proof. vm_compute. by split_and!. Qed.

(** Right after the stream was opened it cannot be written to: a write is refused until the
    stream is announced. *)
Example write_before_ready :
  match demo_link with
  | Ok l => (send_user_stream (la l) demo_pid 0 [x68]).2 = Err (UserStreamNotFound demo_pid 0)
  | _ => False
  end.
Proof. vm_compute. reflexivity. Qed.
