(* ===== verification/SwarmRefusal.v ===== *)
(** * A user stream that is refused ([crates/swarm/src/core.rs])

    The application of one swarm opens a stream for a protocol the other does not support:
    what both cores do, for every fragmentation of what they send each other. *)
From S2P Require Import Prelude SansIo Varint Multibase PeerId Multiaddr Multistream.
From S2P Require Import IdentifyMessage Ping Identify SwarmEvents SwarmCore SwarmInvariant.
From S2P Require Import SwarmStreams SwarmOpener.
From Stdlib Require Import ZArith Strings.Byte Strings.String.
From stdpp Require Import base numbers list gmap strings.

#[local] Open Scope Z_scope.
#[local] Abbreviation hdr := (encode_message MULTISTREAM_PROTOCOL_ID).
#[local] Abbreviation na := (encode_message NOT_AVAILABLE).

Section refusal.
Context {P : Type} `{SP : !SwarmPeers P} `{BP : !BuildProfile}.
Implicit Types (s : SwarmCore (P:=P)).

(** Nothing is known of the stream: data that still arrives is dropped. *)
Definition unknown_stream s (c : ConnectionId) (st : StreamId) : Prop :=
  stream_owner s !! (c, st) = None ∧ inbound_negotiators s !! (c, st) = None ∧
  outbound_negotiators s !! (c, st) = None.

Lemma unknown_chunks s c st cs now : unknown_stream s c st → stream_chunks s c st cs now = Ok s.
Proof.
  intros (Ho & Hi & Hn). induction cs as [|d cs IH]; cbn [stream_chunks]; [done|].
  cbn [swarm_handle_input handle_transport_event]. unfold handle_stream_data, dispatch_protocol_data.
  rewrite Hi, Hn, Ho, !decide_False by tauto. exact IH.
Qed.

(** ** The listener *)

(** The refusal is sent and the stream is reset. *)
Definition declined s (c : ConnectionId) (st : StreamId) : SwarmCore :=
  act (act (set_inbound_negotiators s (delete (c, st) (inbound_negotiators s))) (SendStream c st na))
    (SwResetStream c st).

Lemma poll_inbound_refused fuel s c st n os neg :
  pending_outputs n = NotAvailable :: os →
  poll_inbound (S fuel) (with_negotiator s c st n) c st true neg =
    (with_negotiator s c st (set_pending_outputs n os), neg, true).
Proof.
  intros Ho. cbn [poll_inbound]. rewrite lookup_with_negotiator. unfold ms_poll_output. rewrite Ho.
  cbn [handle_multistream_output andb]. unfold with_negotiator. cbn. by rewrite insert_insert_eq.
Qed.

Lemma feed_unsupported s c st now p n w d rest tail :
  line_ok p → p ∉ supported_protocols n → listening p n w → d ++ rest = w ++ tail →
  (∃ n' w', w' ≠ [] ∧ rest = w' ++ tail ∧ listening p n' w' ∧ supported_protocols n' = supported_protocols n ∧
     feed_inbound_negotiator (with_negotiator s c st n) c st d now = Ok (with_negotiator s c st n')) ∨
  (∃ t, tail = t ++ rest ∧
     feed_inbound_negotiator (with_negotiator s c st n) c st d now = Ok (declined s c st)).
Proof.
  intros Hp Hs Hw Hcat. destruct (listening_step p n w d rest tail Hp Hw Hcat)
    as [(t & n' & -> & Hb & Ho & E)|(w' & n' & Hne & -> & Hw' & Hs' & E)];
    rewrite (feed_inbound_received _ _ _ _ _ _ _ _ E); [right|left].
  - exists t. split; [done|]. unfold answered. rewrite Ho, decide_False by done. cbn [app length].
    erewrite poll_inbound_step; [|reflexivity|cbn [handle_multistream_output]; reflexivity|done].
    rewrite act_with_negotiator, (poll_inbound_refused _ _ _ _ _ []) by done.
    unfold reset_inbound, declined. rewrite drop_negotiator. done.
  - exists n', w'. pose proof Hw' as (_ & Ho & _). rewrite Ho. cbn [app length].
    rewrite (set_pending_same n') by done. by rewrite poll_inbound_end.
Qed.

Lemma declined_unknown s c st :
  stream_owner s !! (c, st) = None → outbound_negotiators s !! (c, st) = None → unknown_stream (declined s c st) c st.
Proof. intros. split_and!; [done|cbn; apply lookup_delete_eq|done]. Qed.

Lemma listener_declines s c st p cs now n w tail :
  line_ok p → stream_owner s !! (c, st) = None → outbound_negotiators s !! (c, st) = None →
  p ∉ supported_protocols n → listening p n w → w ≠ [] → concat cs = w ++ tail →
  stream_chunks (with_negotiator s c st n) c st cs now = Ok (declined s c st).
Proof.
  intros Hp Ho Hn. revert n w. induction cs as [|d cs IH]; intros n w Hs Hw Hne Hcat.
  { by apply eq_sym, app_eq_nil in Hcat as [? _]. }
  cbn [stream_chunks concat swarm_handle_input handle_transport_event] in *. unfold handle_stream_data.
  rewrite lookup_with_negotiator, decide_True by done.
  destruct (feed_unsupported s c st now p n w d (concat cs) tail Hp Hs Hw Hcat)
    as [(n' & w' & Hne' & Hr & Hw' & Hs' & ->)|(t & -> & ->)]; cbn [mbind res_bind].
  - apply (IH n' w'); [by rewrite Hs'|done..].
  - by apply unknown_chunks, declined_unknown.
Qed.

(** ** The opener *)

Definition refusal_error s (c : ConnectionId) (st : StreamId) : SwarmRuntimeError (P:=P) :=
  {| err_kind := KUnsupportedProtocol; err_peer_id := established_peer_for_conn s c; err_conn_id := Some c;
     err_detail := ("remote peer does not support protocol for stream " ++ to_string (A:=Z) st)%string |}.

(** The application is told, and the stream is reset. *)
Definition turned_down s (c : ConnectionId) (st : StreamId) : SwarmCore :=
  act (emit (set_outbound_negotiators s (delete (c, st) (outbound_negotiators s)))
         (SwarmErrorEvent (refusal_error s c st))) (SwResetStream c st).

Lemma poll_outbound_refused fuel s c st tgt n os neg :
  pending_outputs n = NotAvailable :: os →
  poll_outbound (S fuel) (dialing s c st tgt n) c st neg =
    (emit (dialing s c st tgt (set_pending_outputs n os)) (SwarmErrorEvent (refusal_error s c st)), neg, true).
Proof.
  intros Ho. cbn [poll_outbound]. rewrite lookup_dialing. cbn [negotiator target].
  unfold ms_poll_output. rewrite Ho. by rewrite <- (dialing_twice s c st tgt n (set_pending_outputs n os)).
Qed.

Lemma feed_refused s c st now p asked n w d rest tail tgt :
  is_answer p NOT_AVAILABLE → p ≠ NOT_AVAILABLE → dial_awaiting p NOT_AVAILABLE asked n w → d ++ rest = w ++ tail →
  (∃ t, tail = t ++ rest ∧
     feed_outbound_negotiator (dialing s c st tgt n) c st d now =
       Ok (turned_down (act_all s (asking asked true (SendStream c st (encode_message p)))) c st)) ∨
  (∃ w' asked' n', w' ≠ [] ∧ rest = w' ++ tail ∧ (asked = true → asked' = true) ∧
     dial_awaiting p NOT_AVAILABLE asked' n' w' ∧
     feed_outbound_negotiator (dialing s c st tgt n) c st d now =
       Ok (dialing (act_all s (asking asked asked' (SendStream c st (encode_message p)))) c st tgt n')).
Proof.
  intros Hans Hna Hw Hcat.
  destruct (dial_step p NOT_AVAILABLE asked n w d rest tail Hans Hw Hcat)
    as [(t & n' & Ht & Hb & Ho & E)|(w' & asked' & n' & Hne & Hr & Ha & Hw' & E)]; [left|right].
  - unfold dial_verdict in E. rewrite decide_False in E by done. exists t. split; [done|].
    rewrite (feed_outbound_received _ _ _ _ _ _ _ _ _ E) by done.
    destruct asked; cbn [asking negb andb app length];
      rewrite ?(poll_outbound_send _ _ _ _ _ _ [NotAvailable] (encode_message p)) by done;
      rewrite (poll_outbound_refused _ _ _ _ _ _ []) by done; unfold turned_down, reset_outbound;
      rewrite ?act_all_nil; unfold emit; cbn; by rewrite delete_insert_eq.
  - exists w', asked', n'. split_and!; [done..|]. pose proof Hw' as (_ & _ & Ho & _).
    rewrite (feed_outbound_received _ _ _ _ _ _ _ _ _ E), poll_outbound_asks by done. done.
Qed.

Lemma asking_trans {A} (asked asked' : bool) (a : A) :
  (asked = true → asked' = true) → asking asked asked' a ++ asking asked' true a = asking asked true a.
Proof. intros H. destruct asked; [by rewrite (H eq_refl)|]. by destruct asked'. Qed.

Lemma turned_down_unknown s c st :
  stream_owner s !! (c, st) = None → inbound_negotiators s !! (c, st) = None → unknown_stream (turned_down s c st) c st.
Proof. intros. split_and!; [done..|cbn; apply lookup_delete_eq]. Qed.

Lemma opener_turned_down s c st p tgt cs now asked n w tail :
  is_answer p NOT_AVAILABLE → p ≠ NOT_AVAILABLE →
  stream_owner s !! (c, st) = None → inbound_negotiators s !! (c, st) = None →
  dial_awaiting p NOT_AVAILABLE asked n w → w ≠ [] → concat cs = w ++ tail →
  stream_chunks (dialing s c st tgt n) c st cs now =
    Ok (turned_down (act_all s (asking asked true (SendStream c st (encode_message p)))) c st).
Proof.
  intros Hans Hna. revert s asked n w. induction cs as [|d cs IH]; intros s asked n w Ho Hi Hw Hne Hcat.
  { by apply eq_sym, app_eq_nil in Hcat as [? _]. }
  cbn [stream_chunks concat swarm_handle_input handle_transport_event] in *. unfold handle_stream_data.
  cbn [inbound_negotiators dialing set_outbound_negotiators]. rewrite Hi, decide_False by tauto.
  change (set_outbound_negotiators s _) with (dialing s c st tgt n).
  rewrite lookup_dialing, decide_True by done.
  destruct (feed_refused s c st now p asked n w d (concat cs) tail tgt Hans Hna Hw Hcat)
    as [(t & -> & ->)|(w' & asked' & n' & Hne' & Hr & Ha & Hw' & ->)]; cbn [mbind res_bind].
  - by apply unknown_chunks, turned_down_unknown.
  - rewrite (IH _ asked' n' w') by done. unfold act_all. cbn. rewrite <- app_assoc, asking_trans by done. done.
Qed.

(** ** Property *)

(** C12. A refused stream: the opener's core has opened a stream for a protocol the
    listener's core does not support.  In every fragmentation of the opener's header and
    request the listener's core sends its header and the refusal, resets the stream, keeps
    no trace of it and says nothing to its application; and in every fragmentation of that
    answer the opener's core asks once, reports exactly one unsupported-protocol error for
    that connection to its application, resets the stream and keeps no trace of it. *)
Theorem user_stream_refused sA sB p tok cA cB stA stB now cs ds :
  line_ok p → p ≠ NOT_AVAILABLE → p ∉ supported sB →
  pending_opens sA !! tok = Some {| open_conn_id := cA; open_protocol := p; open_target := KindUser p |} →
  stream_owner sA !! (cA, stA) = None → inbound_negotiators sA !! (cA, stA) = None →
  stream_owner sB !! (cB, stB) = None → outbound_negotiators sB !! (cB, stB) = None →
  concat cs = hdr ++ encode_message p → concat ds = hdr ++ na →
  (∃ b0 b1, swarm_handle_input sB (SwTransport (TIncomingStream cB stB) now) = Ok b0 ∧
     stream_chunks b0 cB stB cs now = Ok b1 ∧ unknown_stream b1 cB stB ∧ sw_events b1 = sw_events sB ∧
     sw_actions b1 = sw_actions sB ++ [SendStream cB stB hdr; SendStream cB stB na; SwResetStream cB stB]) ∧
  (∃ a0 a1, swarm_handle_input sA (SwStreamOpened cA stA tok now) = Ok a0 ∧
     stream_chunks a0 cA stA ds now = Ok a1 ∧ unknown_stream a1 cA stA ∧
     sw_events a1 = sw_events sA ++ [SwarmErrorEvent (refusal_error sA cA stA)] ∧
     sw_actions a1 = sw_actions sA ++
       [SendStream cA stA hdr; SendStream cA stA (encode_message p); SwResetStream cA stA]).
Proof.
  intros Hp Hna Hs Ho HoA HiA HoB HnB Hcs Hds. cbn [swarm_handle_input handle_transport_event]. split.
  - destruct (incoming_listening sB cB stB p) as (n & -> & Hsup & Hw). eexists _, _. split; [done|].
    erewrite listener_declines; [|exact Hp|done|done|by rewrite Hsup|exact Hw|done|by rewrite Hcs, app_nil_r].
    split; [done|]. split; [by apply declined_unknown|]. split; [done|]. cbn. by rewrite <- !app_assoc.
  - assert (is_answer p NOT_AVAILABLE) as Hans.
    { split; [|by right]. split_and!; [done..|]. vm_compute. lia. }
    destruct (stream_opened_dialing sA cA stA tok now _ p NOT_AVAILABLE Ho eq_refl eq_refl eq_refl) as (n & Hn & ->).
    eexists _, _. split; [done|].
    erewrite opener_turned_down; [|exact Hans|done|done|done|exact Hn|done|by rewrite Hds, app_nil_r].
    split; [done|]. split; [by apply turned_down_unknown|]. split; [done|]. cbn. by rewrite <- !app_assoc.
Qed.

End refusal.

(** ** A concrete refusal *)

#[local] Abbreviation Pid := (PeerId PlainMultihash).

Definition demo_asking : SwarmCore (P:=Pid) := (open_user_stream demo_chat demo_pid demo_protocol).1.
(** Both directions in pieces of seven bytes. *)
Definition demo_request : list (list byte) :=
  let b := hdr ++ encode_message demo_protocol in [take 7 b; take 7 (drop 7 b); drop 14 b].
Definition demo_refusal : list (list byte) := let b := hdr ++ na in [take 7 b; drop 7 b].

Lemma user_stream_refused_witness :
  ∃ a0 a1, swarm_handle_input demo_asking (SwStreamOpened 1 0 2 5) = Ok a0 ∧
    stream_chunks a0 1 0 demo_refusal 5 = Ok a1 ∧
    sw_events a1 = sw_events demo_asking ++ [SwarmErrorEvent (refusal_error demo_asking 1 0)].
Proof.
  destruct (user_stream_refused demo_asking demo_swarm demo_protocol 2 1 1 0 0 5 demo_request demo_refusal)
    as [_ (a0 & a1 & H1 & H2 & _ & H3 & _)].
  - split_and!; [vm_compute; reflexivity|done|vm_compute; lia].
  - done.
  - intros H. vm_compute in H. repeat (apply list_elem_of_In in H; destruct H as [H|H]; [discriminate H|];
      apply list_elem_of_In in H). by apply not_elem_of_nil in H.
  - vm_compute. reflexivity.
  - vm_compute. reflexivity.
  - vm_compute. reflexivity.
  - vm_compute. reflexivity.
  - vm_compute. reflexivity.
  - vm_compute. reflexivity.
  - vm_compute. reflexivity.
  - exists a0, a1. by split_and!.
Defined.
