(* ===== verification/SwarmTold.v ===== *)
(** * What the application is told of connections ([crates/swarm/src/core.rs])

    [connected_peers] answers with the peers that have been surfaced to the application as
    connected: the events handed out so far, and the ones waiting, say which these are, but
    for names that verifying an identity has replaced.  Closing a connection says one
    thing, that its peer is gone, or nothing. *)
From S2P Require Import Prelude SansIo Varint Multibase PeerId Multiaddr Multistream.
From S2P Require Import IdentifyMessage Ping Identify SwarmEvents SwarmCore SwarmInvariant.
From Stdlib Require Import ZArith Strings.Byte Strings.String.
From stdpp Require Import base numbers list gmap strings sorting.

#[local] Open Scope Z_scope.

Create HintDb told discriminated.

Section told.
Context {P : Type} `{SP : !SwarmPeers P} `{BP : !BuildProfile}.
Implicit Types (s : SwarmCore (P:=P)) (p : P) (c : ConnectionId) (e : SwarmEvent (P:=P)).

(** ** Queries *)

Definition conn_for s p : option ConnectionId := peer_to_conn s !! p.
Definition peer_for s c : option P := conn_to_peer s !! c.
Definition peer_info_for s p : option IdentifyMessage := peer_info s !! p.
Definition is_peer_ready s p : bool := bool_decide (p ∈ ready_peers s).
(** The set is iterated in the order of the ids. *)
Definition connected_peers s : list P := merge_sort sp_le (elements (established_peers s)).
Definition on_dialed s (_ : ConnectionId) : SwarmCore := s.

(** ** The events as a set of peers *)

Definition told (X : gset P) e : gset P :=
  match e with
  | ConnectionEstablished p => {[p]} ∪ X
  | ConnectionClosed p => X ∖ {[p]}
  | _ => X
  end.
Definition told_of (es : list SwarmEvent) : gset P := foldl told ∅ es.

(** Events that say nothing about connections. *)
Definition neutral e : Prop :=
  match e with ConnectionEstablished _ | ConnectionClosed _ => False | _ => True end.

(** The step says nothing about connections and leaves [established_peers] alone. *)
Definition hushed s s' : Prop :=
  ∃ es, sw_events s' = sw_events s ++ es ∧ Forall neutral es ∧ established_peers s' = established_peers s.
Definition hushed_res s (r : res Empty_set (SwarmCore (P:=P))) : Prop := ∀ s', r = Ok s' → hushed s s'.

#[export] Instance hushed_preorder : PreOrder hushed.
Proof.
  split.
  - intros s. exists []. by rewrite app_nil_r.
  - intros s1 s2 s3 (es1 & E1 & N1 & X1) (es2 & E2 & N2 & X2). exists (es1 ++ es2).
    rewrite E2, E1, X2, X1, <- app_assoc, Forall_app. done.
Qed.

Lemma hushed_same s s' :
  sw_events s' = sw_events s → established_peers s' = established_peers s → hushed s s'.
Proof. intros E X. exists []. by rewrite E, X, app_nil_r. Qed.
Lemma hushed_emit s e : neutral e → hushed s (emit s e).
Proof. intros He. exists [e]. split_and!; [done|by repeat constructor|done]. Qed.
Lemma hushed_error s k op oc d : hushed s (emit_error s k op oc d).
Proof. by apply hushed_emit. Qed.

Lemma hushed_Ok s s' : hushed s s' → hushed_res s (Ok s').
Proof. by intros H ? [= <-]. Qed.
Lemma hushed_bind s r (k : SwarmCore → res Empty_set SwarmCore) :
  hushed_res s r → (∀ s', hushed_res s' (k s')) → hushed_res s (r ≫= k).
Proof. intros H1 H2 s3 (s2 & E2 & E3)%bind_Ok. etrans; [by apply H1|by eapply H2]. Qed.
Lemma hushed_after s s1 r : hushed s s1 → hushed_res s1 r → hushed_res s r.
Proof. intros H1 H2 s' E. etrans; [exact H1|by apply H2]. Qed.
Lemma hushed_from s0 s r :
  sw_events s0 = sw_events s → established_peers s0 = established_peers s → hushed_res s0 r → hushed_res s r.
Proof. intros E X. apply hushed_after. by apply hushed_same. Qed.

(** ** The machines *)

Lemma hushed_ping s i : hushed s (ping_input s i).1.
Proof. unfold ping_input. destruct (ping_handle_input _ _ _). by apply hushed_same. Qed.
Lemma hushed_identify s i : hushed s (identify_input s i).1.
Proof. unfold identify_input. destruct (identify_handle_input _ _). by apply hushed_same. Qed.
Lemma hushed_ignore {E} s (x : SwarmCore * res E unit) : hushed s x.1 → hushed_res s (ignore x).
Proof. intros H s'. destruct x as [s1 []]; intros [=]; by subst. Qed.

Lemma hushed_ready s p : hushed s (try_emit_peer_ready s p).
Proof.
  unfold try_emit_peer_ready. case_decide; [done|]. destruct (peer_info s !! p); [|done].
  case_decide; [done|]. etrans; [|by apply hushed_emit]. by apply hushed_same.
Qed.
Lemma hushed_ping_action s a : hushed s (execute_ping_action s a).
Proof. destruct a; cbn [execute_ping_action]; case_match; by apply hushed_same. Qed.
Lemma hushed_identify_action s a : hushed s (execute_identify_action s a).
Proof. destruct a; cbn [execute_identify_action]; case_match; by apply hushed_same. Qed.
Lemma hushed_ping_event s ev : hushed s (handle_ping_event s ev).
Proof. destruct ev; cbn [handle_ping_event]; first [by apply hushed_emit|by apply hushed_same]. Qed.
Lemma hushed_identify_event s ev : hushed s (handle_identify_event s ev).
Proof.
  destruct ev as [p info|]; cbn [handle_identify_event]; [|by apply hushed_emit].
  etrans; [|apply hushed_ready]. etrans; [|by apply hushed_emit]. by apply hushed_same.
Qed.

Lemma hushed_drain_ping s : hushed s (drain_ping_outputs s).
Proof.
  unfold drain_ping_outputs. generalize (S (length (pending_actions (ping s)) + length (pending_events (ping s)))).
  intros fuel. revert s. induction fuel as [|fuel IH]; intros s; cbn [drain_ping_loop]; [done|].
  destruct (ping_poll_output (ping s)) as [[[a|e]|] m]; [..|by apply hushed_same];
    (etrans; [|apply IH]); (etrans; [|first [apply hushed_ping_action|apply hushed_ping_event]]); by apply hushed_same.
Qed.
Lemma hushed_drain_identify s : hushed s (drain_identify_outputs s).
Proof.
  unfold drain_identify_outputs.
  generalize (S (length (Identify.actions (identify s)) + length (Identify.events (identify s)))).
  intros fuel. revert s. induction fuel as [|fuel IH]; intros s; cbn [drain_identify_loop]; [done|].
  destruct (identify_poll_output (identify s)) as [[[a|e]|] m]; [..|by apply hushed_same];
    (etrans; [|apply IH]);
    (etrans; [|first [apply hushed_identify_action|apply hushed_identify_event]]); by apply hushed_same.
Qed.

Lemma hushed_ping_step s i : hushed_res s (ignore (ping_input s i) ≫= λ s, Ok (drain_ping_outputs s)).
Proof.
  apply hushed_bind; [apply hushed_ignore, hushed_ping|]. intros s'. apply hushed_Ok, hushed_drain_ping.
Qed.
Lemma hushed_identify_step s i : hushed_res s (ignore (identify_input s i) ≫= λ s, Ok (drain_identify_outputs s)).
Proof.
  apply hushed_bind; [apply hushed_ignore, hushed_identify|]. intros s'. apply hushed_Ok, hushed_drain_identify.
Qed.
Lemma hushed_both s pi ii :
  hushed_res s (s ← ignore (ping_input s pi); s ← ignore (identify_input s ii);
               Ok (drain_identify_outputs (drain_ping_outputs s))).
Proof.
  apply hushed_bind; [apply hushed_ignore, hushed_ping|]. intros s1.
  apply hushed_bind; [apply hushed_ignore, hushed_identify|]. intros s2. apply hushed_Ok.
  etrans; [apply hushed_drain_ping|apply hushed_drain_identify].
Qed.

(** ** Streams *)

Lemma hushed_ensure s c : hushed s (ensure_peer_id_for_conn s c).2.
Proof. unfold ensure_peer_id_for_conn. destruct (conn_to_peer s !! c); by apply hushed_same. Qed.

Lemma hushed_queue s p proto k : hushed s (queue_open_protocol_stream s p proto k).1.
Proof.
  unfold queue_open_protocol_stream. destruct (require_conn s p); [|done..].
  case_match; [done|]. unfold take_open_token. cbn. by destruct (next_open_token s =? 0); apply hushed_same.
Qed.
Lemma hushed_report s p c proto k kind d : hushed_res s (open_or_report s p c proto k kind d).
Proof.
  intros s'. pose proof (hushed_queue s p proto k) as H. unfold open_or_report.
  destruct (queue_open_protocol_stream s p proto k) as [s1 [| |]]; intros [= <-]; [done|].
  etrans; [exact H|apply hushed_error].
Qed.
#[local] Hint Resolve hushed_Ok hushed_ping_step hushed_identify_step hushed_drain_ping hushed_drain_identify : told.

(** A handler that first makes sure that the connection has a name. *)
Lemma hushed_named s c (k : P → SwarmCore → res Empty_set SwarmCore) :
  (∀ p s1, hushed_res s1 (k p s1)) → hushed_res s (let '(p, s1) := ensure_peer_id_for_conn s c in k p s1).
Proof.
  intros Hk. pose proof (hushed_ensure s c) as He. destruct (ensure_peer_id_for_conn s c) as [p s1].
  by apply (hushed_after s s1).
Qed.

Lemma hushed_dispatch s c st d t : hushed_res s (dispatch_protocol_data s c st d t).
Proof.
  unfold dispatch_protocol_data. destruct (stream_owner s !! (c, st)) as [k|]; [|by apply hushed_Ok].
  apply hushed_named. intros p s1. destruct k; auto with told; apply hushed_Ok; by (apply hushed_emit || reflexivity).
Qed.

Lemma hushed_inbound_negotiated s c st proto : hushed_res s (on_inbound_negotiated s c st proto).
Proof.
  unfold on_inbound_negotiated. apply hushed_named. intros p s1.
  case_decide; [eapply hushed_from; [..|apply hushed_ping_step]; done|].
  case_decide; [|case_decide; apply hushed_Ok; [|done]; etrans; [|by apply hushed_emit]; by apply hushed_same].
  match goal with |- context [identify_input s1 ?i] => pose proof (hushed_identify s1 i) as Hi;
    destruct (identify_input s1 i) as [s2 [| |]] end; cbn [fst] in Hi; [| |by intros ? [=]];
    apply hushed_Ok; (etrans; [exact Hi|]).
  - etrans; [|apply hushed_drain_identify]. by apply hushed_same.
  - etrans; [apply hushed_error|]. by apply hushed_same.
Qed.

Lemma hushed_outbound_negotiated s c st k t : hushed_res s (on_outbound_negotiated s c st k t).
Proof.
  unfold on_outbound_negotiated. apply hushed_named. intros p s1. cbv zeta.
  set (s2 := set_stream_owner s1 _). apply (hushed_from s2); [done..|].
  destruct k; [|by apply hushed_Ok|apply hushed_identify_step|by apply hushed_Ok, hushed_emit].
  pose proof (hushed_ping s2 (Ping.RegisterOutboundStream p st)) as Hp.
  destruct (ping_input s2 _) as [s3 [| |]]; cbn [fst] in Hp; apply (hushed_after s2 s3 _ Hp);
    [|apply hushed_Ok; etrans; [apply hushed_error|]; by apply hushed_same|by intros ? [=]].
  apply (hushed_after s3 (drain_ping_outputs s3)); [apply hushed_drain_ping|].
  set (s4 := drain_ping_outputs s3). destruct (pending_pings s4 !! p) as [d|]; [|by apply hushed_Ok].
  set (s5 := set_pending_pings s4 _). apply (hushed_from s5); [done..|].
  pose proof (hushed_ping s5 (SendPing p d t)) as Hp'.
  destruct (ping_input s5 _) as [s6 [| |]]; cbn [fst] in Hp'; apply (hushed_after s5 s6 _ Hp');
    [apply hushed_Ok, hushed_drain_ping|apply hushed_Ok, hushed_error|by intros ? [=]].
Qed.

Lemma hushed_output s c st o n : hushed s (handle_multistream_output s c st o n).1.1.
Proof. destruct o; [by apply hushed_same|done..|apply hushed_error]. Qed.

Lemma hushed_poll_local fuel s c st n : hushed s (poll_local fuel s c st n).1.
Proof.
  revert s n. induction fuel as [|fuel IH]; intros s n; cbn [poll_local]; [done|].
  destruct (ms_poll_output n) as [[o|] n']; [|done]. pose proof (hushed_output s c st o None) as E.
  destruct (handle_multistream_output s c st o None) as [[s1 ?] ?]. etrans; [exact E|apply IH].
Qed.
Lemma hushed_poll_inbound fuel s c st b neg : hushed s (poll_inbound fuel s c st b neg).1.1.
Proof.
  revert s neg. induction fuel as [|fuel IH]; intros s neg; cbn [poll_inbound]; [done|].
  destruct (inbound_negotiators s !! (c, st)) as [n|]; [|done].
  destruct (ms_poll_output n) as [[o|] n']; [|by apply hushed_same]. set (s1 := set_inbound_negotiators _ _).
  assert (hushed s s1) as H1 by by apply hushed_same. pose proof (hushed_output s1 c st o neg) as E.
  destruct (handle_multistream_output s1 c st o neg) as [[s2 ?] ?]. etrans; [exact H1|]. etrans; [exact E|].
  case_match; [done|apply IH].
Qed.
Lemma hushed_poll_outbound fuel s c st b : hushed s (poll_outbound fuel s c st b).1.1.
Proof.
  revert s b. induction fuel as [|fuel IH]; intros s b; cbn [poll_outbound]; [done|].
  destruct (outbound_negotiators s !! (c, st)) as [n|]; [|done].
  destruct (ms_poll_output (negotiator n)) as [[o|] n']; [|by apply hushed_same]. set (s1 := set_outbound_negotiators _ _).
  assert (hushed s s1) as H1 by by apply hushed_same.
  destruct o; cbn [handle_multistream_output]; (etrans; [exact H1|]);
    [etrans; [|apply IH]; by apply hushed_same|apply IH|apply hushed_error|apply hushed_error].
Qed.

Lemma hushed_feed_inbound s c st d t : hushed_res s (feed_inbound_negotiator s c st d t).
Proof.
  unfold feed_inbound_negotiator. destruct (inbound_negotiators s !! (c, st)) as [n|]; [|by apply hushed_Ok].
  destruct (ms_handle_input n (Data d)) as [n' [| |]];
    [|apply hushed_Ok; etrans; [|by apply hushed_same]; etrans; [|apply hushed_error]; by apply hushed_same|by intros ? [=]].
  set (s1 := set_inbound_negotiators _ _). apply (hushed_from s1); [done..|].
  pose proof (hushed_poll_inbound (S (length (pending_outputs n'))) s1 c st true None) as E.
  destruct (poll_inbound _ s1 c st true None) as [[s2 neg] failed]. cbn [fst] in E.
  apply (hushed_after s1 s2); [done|]. destruct failed; [by apply hushed_Ok, hushed_same|].
  destruct neg as [proto|]; [|by apply hushed_Ok]. apply hushed_bind.
  - eapply hushed_from; [..|apply hushed_inbound_negotiated]; done.
  - intros s3. case_decide; [apply hushed_dispatch|by apply hushed_Ok].
Qed.

Lemma hushed_feed_outbound s c st d t : hushed_res s (feed_outbound_negotiator s c st d t).
Proof.
  unfold feed_outbound_negotiator. destruct (outbound_negotiators s !! (c, st)) as [n|]; [|by apply hushed_Ok].
  destruct (ms_handle_input (negotiator n) (Data d)) as [n' [| |]];
    [|apply hushed_Ok; etrans; [|by apply hushed_same]; etrans; [|apply hushed_error]; by apply hushed_same|by intros ? [=]].
  set (s1 := set_outbound_negotiators _ _). apply (hushed_from s1); [done..|].
  pose proof (hushed_poll_outbound (S (length (pending_outputs n'))) s1 c st false) as E.
  destruct (poll_outbound _ s1 c st false) as [[s2 neg] failed]. cbn [fst] in E.
  apply (hushed_after s1 s2); [done|]. destruct failed; [by apply hushed_Ok, hushed_same|].
  destruct neg; [|by apply hushed_Ok]. apply hushed_bind.
  - eapply hushed_from; [..|apply hushed_outbound_negotiated]; done.
  - intros s3. case_decide; [apply hushed_dispatch|by apply hushed_Ok].
Qed.

Lemma hushed_stream_data s c st d t : hushed_res s (handle_stream_data s c st d t).
Proof.
  unfold handle_stream_data. case_decide; [apply hushed_feed_inbound|].
  case_decide; [apply hushed_feed_outbound|apply hushed_dispatch].
Qed.

Lemma hushed_write_closed s c st : hushed_res s (handle_stream_remote_write_closed s c st).
Proof.
  unfold handle_stream_remote_write_closed. destruct (stream_owner s !! (c, st)) as [k|]; [|by apply hushed_Ok].
  apply hushed_named. intros p s1. destruct k; auto with told; apply hushed_Ok; by (apply hushed_emit || reflexivity).
Qed.

Lemma hushed_stream_closed s c st : hushed_res s (handle_stream_closed s c st).
Proof.
  unfold handle_stream_closed. cbv zeta. set (s1 := set_stream_owner s _). apply (hushed_from s1); [done..|].
  apply hushed_bind; [|intros s2; by apply hushed_Ok, hushed_same].
  destruct (stream_owner s !! (c, st)) as [k|]; [|by apply hushed_Ok].
  destruct (conn_to_peer s1 !! c) as [p|]; [|by apply hushed_Ok].
  destruct k; auto with told; apply hushed_Ok; by (apply hushed_emit || reflexivity).
Qed.

Lemma hushed_incoming s c st : hushed_res s (handle_incoming_stream s c st).
Proof.
  unfold handle_incoming_stream. destruct (ms_handle_input _ Start) as [l r]. apply hushed_bind.
  { destruct r; [by apply hushed_Ok|by apply hushed_Ok, hushed_error|by intros ? [=]]. }
  intros s1. cbv zeta. set (s2 := set_inbound_negotiators _ _). apply (hushed_from s2); [done..|].
  pose proof (hushed_poll_inbound (S (length (pending_outputs l))) s2 c st false None) as E.
  destruct (poll_inbound _ s2 c st false None) as [[s3 ?] ?]. by apply hushed_Ok.
Qed.

Lemma hushed_opened s c st tok t : hushed_res s (handle_stream_opened s c st tok t).
Proof.
  unfold handle_stream_opened. destruct (pending_opens s !! tok) as [o|]; [|apply hushed_Ok, hushed_error].
  set (s1 := set_pending_opens s _). apply (hushed_from s1); [done..|]. cbv zeta.
  case_decide; [apply hushed_Ok, hushed_error|]. destruct (ms_handle_input _ Start) as [n r]. apply hushed_bind.
  { destruct r; [by apply hushed_Ok|by apply hushed_Ok, hushed_error|by intros ? [=]]. }
  intros s2. pose proof (hushed_poll_local (S (length (pending_outputs n))) s2 c st n) as E.
  destruct (poll_local _ s2 c st n) as [s3 n2]. apply hushed_Ok. etrans; [exact E|]. by apply hushed_same.
Qed.

Lemma hushed_open_failed s tok r t : hushed s (handle_open_stream_failed s tok r t).
Proof.
  unfold handle_open_stream_failed. destruct (pending_opens s !! tok) as [o|]; [|apply hushed_error].
  etrans; [|apply hushed_error]. by apply hushed_same.
Qed.

Lemma hushed_tick s t : hushed_res s (handle_tick s t).
Proof.
  unfold handle_tick. apply hushed_bind; [apply hushed_ignore, hushed_ping|]. intros s1. apply hushed_Ok.
  etrans; [apply hushed_drain_ping|apply hushed_drain_identify].
Qed.

(** ** Connections *)

(** The connected peers are announced, by the events handed out ([log]) and the ones
    waiting, and everyone announced is connected, except under a name that was
    [replaced]. *)
Definition announced (replaced : gset P) (log : list SwarmEvent) s : Prop :=
  established_peers s ⊆ told_of (log ++ sw_events s) ∧
  told_of (log ++ sw_events s) ⊆ established_peers s ∪ replaced.

Lemma told_neutral X es : Forall neutral es → foldl told X es = X.
Proof. induction 1 as [|e es He _ IH]; [done|]. cbn. by destruct e. Qed.
Lemma told_of_app es es' : told_of (es ++ es') = foldl told (told_of es) es'.
Proof. apply foldl_app. Qed.
Lemma announced_hushed R log s s' : announced R log s → hushed s s' → announced R log s'.
Proof.
  intros Ha (es & He & Hn & HX). unfold announced. by rewrite HX, He, app_assoc, told_of_app, told_neutral.
Qed.
Lemma announced_hushed_res R log s r s' : announced R log s → hushed_res s r → r = Ok s' → announced R log s'.
Proof. intros Ha Hr E. eapply announced_hushed; [exact Ha|by apply Hr]. Qed.

(** The same but for what is said of [p]. *)
Definition announced_but (p : P) (R : gset P) (log : list SwarmEvent) s : Prop :=
  ∀ x, x ≠ p → (x ∈ established_peers s → x ∈ told_of (log ++ sw_events s)) ∧
               (x ∈ told_of (log ++ sw_events s) → x ∈ established_peers s ∨ x ∈ R).

Lemma announced_weaken p R log s : announced R log s → announced_but p R log s.
Proof. intros [H1 H2] x _. split; [apply H1|]. intros Hx%H2. by apply elem_of_union. Qed.

(** Announcing a peer. *)
Lemma announced_emit p R log s :
  announced_but p R log s →
  announced R log (emit (set_established_peers s ({[p]} ∪ established_peers s)) (ConnectionEstablished p)).
Proof.
  intros H. split; cbn; rewrite app_assoc, told_of_app; cbn; intros x;
    rewrite !elem_of_union, elem_of_singleton; (destruct (decide (x = p)) as [->|Hx]; [tauto|]);
    specialize (H x Hx); tauto.
Qed.

(** What the application is told when a connection closes: the events the machines still
    had, which are not about connections, then the one about its peer. *)
Lemma closed_events s c s' :
  handle_connection_closed s c = Ok s' →
  match closed_peer s c with
  | Some p => ∃ es, Forall neutral es ∧ sw_events s' = sw_events s ++ es ++ [ConnectionClosed p]
  | None => sw_events s' = sw_events s
  end.
Proof.
  unfold handle_connection_closed, closed_peer. cbv zeta. intros (s1 & E1 & [= <-])%bind_Ok.
  change (sw_events (forget_streams s1 c)) with (sw_events s1).
  change (conn_to_peer (forget_addresses s c)) with (conn_to_peer s) in E1.
  destruct (conn_to_peer s !! c) as [p|]; cbn [mbind option_bind]; [|by injection E1 as <-].
  match type of E1 with context [decide ?Q] => change Q with (peer_to_conn s !! p = Some c) in E1 end.
  destruct (decide (peer_to_conn s !! p = Some c)); [|by injection E1 as <-].
  apply bind_Ok in E1 as (s2 & E2 & [= <-]).
  apply (hushed_both _ (Ping.RemovePeer p) (Identify.RemovePeer p)) in E2 as (es & E & Hn & _).
  exists es. split; [done|]. cbn. by rewrite E, <- app_assoc.
Qed.

(** A connection that closes: the peer is no longer one of them, and the application is
    told so. *)
Lemma announced_closed R log s c s' :
  announced R log s → handle_connection_closed s c = Ok s' → announced R log s'.
Proof.
  intros Ha. unfold handle_connection_closed. cbv zeta. intros (s1 & E1 & [= <-])%bind_Ok.
  change (announced R log s1). destruct (conn_to_peer (forget_addresses s c) !! c) as [p|]; [|by injection E1 as <-].
  case_decide; [|by injection E1 as <-]. apply bind_Ok in E1 as (s2 & E2 & [= <-]).
  eapply (announced_hushed_res R log s) in E2 as [H1 H2]; [|done|eapply hushed_from; [..|apply hushed_both]; done].
  split; cbn; rewrite app_assoc, told_of_app; cbn; intros x;
    rewrite ?elem_of_union, !elem_of_difference, elem_of_singleton.
  - intros [Hx ?]. by split; [apply H1|].
  - intros [[Hx|Hx]%H2%elem_of_union ?]; auto.
Qed.

(** A first connection report: whatever connection the peer had is given up silently, and
    the peer is announced. *)
Lemma announced_register R log s c p s' :
  announced R log s → conn_to_peer s !! c = None →
  (∀ c0, peer_to_conn s !! p = Some c0 → conn_to_peer s !! c0 = Some p) →
  register_connection s c p = Ok s' → announced R log s'.
Proof.
  intros Ha Hc Hprim. unfold register_connection. rewrite bool_decide_true by done. cbv zeta.
  intros (s1 & E1 & E2)%bind_Ok.
  assert (announced_but p R log s1) as H1.
  { destruct (peer_to_conn s !! p) as [c0|] eqn:Ep; [case_decide|];
      [|injection E1 as <-; by apply announced_weaken..].
    unfold supersede_connection in E1. rewrite (Hprim c0) in E1 by done. cbv zeta in E1.
    apply bind_Ok in E1 as (s2 & (s3 & E3 & [= <-])%bind_Ok & [= <-]).
    eapply (announced_hushed_res R log s) in E3; [|done|eapply hushed_from; [..|apply hushed_both]; done].
    intros x Hx. destruct (announced_weaken p _ _ _ E3 x Hx). cbn in *.
    rewrite elem_of_difference, elem_of_singleton. tauto. }
  apply bind_Ok in E2 as (s3 & E3 & E4).
  pose proof (announced_emit p R log (set_peer_to_conn (set_conn_to_peer s1 (<[c := p]> (conn_to_peer s1)))
    (<[p := c]> (peer_to_conn s1))) H1) as H2.
  eapply announced_hushed_res in E3; [|exact H2|apply hushed_report].
  case_match; [|by injection E4 as <-]. by eapply announced_hushed_res; [..|apply hushed_report|exact E4].
Qed.

(** Renaming a peer in what is still waiting changes nothing but what is said of the two
    names. *)
Lemma told_rekey q p es X Y :
  (∀ x, x ≠ p → x ≠ q → x ∈ X ↔ x ∈ Y) →
  ∀ x, x ≠ p → x ≠ q → x ∈ foldl told X (rekey_swarm_event q p <$> es) ↔ x ∈ foldl told Y es.
Proof.
  revert X Y. induction es as [|e es IH]; intros X Y HXY; cbn; [done|].
  destruct e as [y|y| | | | | | | | |]; cbn; try (by apply IH); apply IH; intros x Hp Hq;
    unfold swarm_rekey; rewrite ?elem_of_union, ?elem_of_difference, !elem_of_singleton, HXY by done;
    case_decide; naive_solver.
Qed.

(** The names that verifying the identity [p] of connection [c] replaces. *)
Definition renamed s c p : gset P :=
  match conn_to_peer s !! c with Some q => if decide (q = p) then ∅ else {[q]} | None => ∅ end.

Lemma announced_upgrade R log s c p s' :
  announced R log s → upgrade_connection_identity s c p = Ok s' → announced (R ∪ renamed s c p) log s'.
Proof.
  intros Ha. unfold upgrade_connection_identity, renamed. case_decide as Hsame.
  { intros [= <-]. rewrite Hsame, decide_True by done. by rewrite union_empty_r_L. }
  intros (s1 & E1 & E2)%bind_Ok. set (R' := R ∪ _).
  assert (announced_but p R' log s1) as H1.
  { subst R'. destruct (conn_to_peer s !! c) as [q|]; cycle 1.
    { injection E1 as <-. rewrite union_empty_r_L. by apply announced_weaken. }
    rewrite decide_False by congruence.
    unfold migrate_stale in E1. cbv zeta in E1. apply bind_Ok in E1 as (s2 & E3 & [= <-]).
    eapply (announced_hushed_res R log s) in E3; [|done|eapply hushed_from; [..|apply hushed_both]; done].
    intros x Hx. destruct (announced_weaken p _ _ _ E3 x Hx) as [H1 H2]. cbn.
    rewrite told_of_app in *. unfold migrate_set. destruct (decide (x = q)) as [->|Hq].
    - split; [|intros _; right; set_solver]. case_decide; [|done]. set_solver.
    - rewrite (told_rekey q p _ (told_of log) (told_of log)) by done. case_decide; set_solver. }
  cbv zeta in E2.
  pose proof (announced_emit p R' log (set_peer_to_conn (set_conn_to_peer s1 (<[c := p]> (conn_to_peer s1)))
    (<[p := c]> (peer_to_conn s1))) H1) as H2.
  eapply announced_hushed_res; [|apply hushed_report|exact E2].
  eapply announced_hushed; [exact H2|apply hushed_ready].
Qed.

(** ** Runs *)

(** The transport reports a connection first and once. *)
Definition reported_once s (i : SwarmInput (P:=P)) : Prop :=
  match i with
  | SwTransport (TConnected c ep) _ => is_Some (endpoint_peer_id ep) → conn_to_peer s !! c = None
  | _ => True
  end.

(** The names an input replaces. *)
Definition replaces s (i : SwarmInput (P:=P)) : gset P :=
  match i with
  | SwTransport (TPeerIdentityVerified c ep _) _ => from_option (renamed s c) ∅ (endpoint_peer_id ep)
  | _ => ∅
  end.

Lemma announced_input R log s i s' :
  announced R log s → swarm_inv s → reported_once s i → swarm_handle_input s i = Ok s' →
  announced (R ∪ replaces s i) log s'.
Proof.
  intros Ha Hi Hf. assert (announced (R ∪ ∅) log s) as Ha' by by rewrite union_empty_r_L.
  destruct i as [ev t|t|c st tok t|tok r t|err]; cbn [swarm_handle_input].
  - destruct ev as [c ep|c st|c st|c st d|c st|c st|c|c m|c ep|c ep pp|a]; cbn [handle_transport_event].
    + cbv zeta. set (s0 := set_conn_to_remote_addr _ _). cbn in Hf.
      destruct (endpoint_peer_id ep) as [p|].
      * apply (announced_register (R ∪ ∅) log s0); [done|by apply Hf|intros c0; apply Hi].
      * intros [= <-]. eapply (announced_hushed (R ∪ ∅) log s0); [done|apply hushed_ensure].
    + by intros [= <-].
    + apply (announced_hushed_res (R ∪ ∅) log s); [done|apply hushed_incoming].
    + apply (announced_hushed_res (R ∪ ∅) log s); [done|apply hushed_stream_data].
    + apply (announced_hushed_res (R ∪ ∅) log s); [done|apply hushed_write_closed].
    + apply (announced_hushed_res (R ∪ ∅) log s); [done|apply hushed_stream_closed].
    + by apply announced_closed.
    + intros [= <-]. eapply announced_hushed; [done|apply hushed_error].
    + by intros [= <-].
    + cbv zeta. set (s0 := set_conn_to_remote_addr _ _). cbn in Hf.
      cbn [replaces]. destruct (endpoint_peer_id ep) as [p|]; [|by intros [= <-]].
      by apply (announced_upgrade R log s0).
    + by intros [= <-].
  - apply (announced_hushed_res (R ∪ ∅) log s); [done|apply hushed_tick].
  - apply (announced_hushed_res (R ∪ ∅) log s); [done|apply hushed_opened].
  - intros [= <-]. eapply announced_hushed; [done|apply hushed_open_failed].
  - intros [= <-]. eapply announced_hushed; [done|by apply hushed_emit].
Qed.

Lemma hushed_add_protocol s id : hushed s (add_user_protocol s id).
Proof. unfold add_user_protocol. repeat case_decide; by apply hushed_same. Qed.
Lemma hushed_ping_peer s p d t : hushed s (ping_peer s p d t).1.
Proof.
  unfold ping_peer. case_decide; [done|]. case_decide.
  - pose proof (hushed_ping s (SendPing p d t)) as Hp.
    destruct (ping_input s (SendPing p d t)) as [s1 [| |]]; [|done..].
    etrans; [exact Hp|apply hushed_drain_ping].
  - cbv zeta. case_match; [by apply hushed_same|]. etrans; [|apply hushed_queue]. by apply hushed_same.
Qed.
Lemma hushed_open_user_stream s p proto : hushed s (open_user_stream s p proto).1.
Proof. unfold open_user_stream. do 2 (case_decide; [done|]). case_match; [done|]. apply hushed_queue. Qed.
Lemma hushed_user_stream_action s p st a : hushed s (user_stream_action s p st a).1.
Proof. unfold user_stream_action. destruct (require_user_stream_conn s p st); [by apply hushed_same|done..]. Qed.
Lemma hushed_disconnect s p : hushed s (disconnect s p).1.
Proof. unfold disconnect. destruct (require_conn s p); [by apply hushed_same|done..]. Qed.

(** The events a poll hands out. *)
Definition polled s : list SwarmEvent :=
  match (swarm_poll_output s).1 with Some (SwEvent e) => [e] | _ => [] end.

(** Everything a driver and an application can do, with the names that were replaced and
    the events handed out so far. *)
Inductive surfaced (idc : IdentifyConfig) (pgc : PingConfig) : gset P → list SwarmEvent → SwarmCore (P:=P) → Prop :=
  | surfaced_new : surfaced idc pgc ∅ [] (swarm_new idc pgc)
  | surfaced_input R log s i s' : surfaced idc pgc R log s → reported_once s i →
      swarm_handle_input s i = Ok s' → surfaced idc pgc (R ∪ replaces s i) log s'
  | surfaced_poll R log s : surfaced idc pgc R log s → surfaced idc pgc R (log ++ polled s) (swarm_poll_output s).2
  | surfaced_protocol R log s id : surfaced idc pgc R log s → surfaced idc pgc R log (add_user_protocol s id)
  | surfaced_addrs R log s l : surfaced idc pgc R log s → surfaced idc pgc R log (set_local_addrs s l)
  | surfaced_ping R log s p d t : surfaced idc pgc R log s → surfaced idc pgc R log (ping_peer s p d t).1
  | surfaced_open R log s p id : surfaced idc pgc R log s → surfaced idc pgc R log (open_user_stream s p id).1
  | surfaced_stream R log s p st a : surfaced idc pgc R log s → surfaced idc pgc R log (user_stream_action s p st a).1
  | surfaced_disconnect R log s p : surfaced idc pgc R log s → surfaced idc pgc R log (disconnect s p).1.

Lemma reported_once_ok s i : reported_once s i → input_ok s i.
Proof.
  destruct i as [[] ?| | | |]; cbn; try done. intros H p q Hp Hq. rewrite H in Hq; [done|]. by exists p.
Qed.

Lemma surfaced_reach idc pgc R log s : surfaced idc pgc R log s → swarm_reach idc pgc s.
Proof. induction 1; econstructor; by try apply reported_once_ok. Qed.

Lemma surfaced_announced idc pgc R log s : surfaced idc pgc R log s → announced R log s.
Proof.
  induction 1 as [|R log s i s' Hs IH Hf E|R log s Hs IH|R log s id Hs IH|R log s l Hs IH|R log s p d t Hs IH|
    R log s p id Hs IH|R log s p st a Hs IH|R log s p Hs IH]; [done|..].
  - eapply announced_input; [done|by eapply swarm_reach_inv, surfaced_reach|done..].
  - unfold polled, swarm_poll_output. destruct (sw_actions s); cbn; [|by rewrite app_nil_r].
    destruct (sw_events s) as [|e es] eqn:E; cbn; [by rewrite app_nil_r|].
    unfold announced in *. cbn. by rewrite E, <- app_assoc in *.
  - eapply announced_hushed; [done|apply hushed_add_protocol].
  - done.
  - eapply announced_hushed; [done|apply hushed_ping_peer].
  - eapply announced_hushed; [done|apply hushed_open_user_stream].
  - eapply announced_hushed; [done|apply hushed_user_stream_action].
  - eapply announced_hushed; [done|apply hushed_disconnect].
Qed.

(** ** Property *)

(** The last thing said about [p] is that it is connected. *)
Definition told_connected (es : list SwarmEvent) p : Prop :=
  ∃ pre post, es = pre ++ ConnectionEstablished p :: post ∧ ConnectionClosed p ∉ post.

Lemma told_connected_snoc es e p :
  told_connected (es ++ [e]) p ↔
  e = ConnectionEstablished p ∨ (e ≠ ConnectionClosed p ∧ told_connected es p).
Proof.
  split.
  - intros (pre & post & E & Hc). destruct (decide (post = [])) as [->|Hne].
    + apply app_inj_tail in E as [_ ->]. by left.
    + destruct (exists_last Hne) as (post' & e' & ->).
      rewrite app_comm_cons, app_assoc in E. apply app_inj_tail in E as [-> ->]. right.
      rewrite not_elem_of_app, not_elem_of_cons in Hc. split; [naive_solver|]. exists pre, post'. naive_solver.
  - intros [->|(Hne & pre & post & -> & Hc)].
    + exists es, []. split; [done|apply not_elem_of_nil].
    + exists pre, (post ++ [e]). rewrite <- app_assoc. split; [done|].
      rewrite not_elem_of_app, list_elem_of_singleton. naive_solver.
Qed.

Lemma told_of_connected es p : p ∈ told_of es ↔ told_connected es p.
Proof.
  induction es as [|e es IH] using rev_ind.
  - split; [by intros ?%not_elem_of_empty|]. by intros (pre & post & E & _); destruct pre.
  - rewrite told_of_app, told_connected_snoc. rewrite <- IH. cbn.
    destruct e; cbn; rewrite ?elem_of_union, ?elem_of_difference, ?elem_of_singleton; naive_solver.
Qed.

(** C11. A closed connection leaves nothing behind: no table mentions it any more, and the
    other connections keep their identity, address, activity, streams, negotiations and
    pending opens.  If it was its peer's primary connection, the swarm and both protocol
    machines forget the peer, and the application is told so by exactly one event: what is
    queued is what was queued, the machines' remaining events, none of them about
    connections, and [ConnectionClosed].  Otherwise no event is produced. *)
Theorem swarm_closed idc pgc s c now :
  swarm_reach idc pgc s →
  ∃ s', swarm_handle_input s (SwTransport (TClosed c) now) = Ok s' ∧
    conn_forgotten s' c ∧ others_kept s s' c ∧
    match closed_peer s c with
    | Some p =>
        peer_forgotten s' p ∧ (∀ q, q ≠ p → peer_to_conn s' !! q = peer_to_conn s !! q) ∧
        ∃ es, Forall neutral es ∧ sw_events s' = sw_events s ++ es ++ [ConnectionClosed p]
    | None => peer_to_conn s' = peer_to_conn s ∧ sw_events s' = sw_events s
    end.
Proof.
  intros Hi%swarm_reach_inv. destruct (closed_spec s c Hi) as (s' & E & Hf & Ho & Hp).
  pose proof (closed_events s c s' E) as He. exists s'. split_and!; [done..|].
  destruct (closed_peer s c); [|done]. by destruct Hp.
Qed.

(** C4. What the application is told of connections, over a transport that reports each
    connection once: whatever the driver and the application do, every peer of
    [connected_peers] is announced, that is, the last connection event about it, among the
    events handed out and those still waiting, says that it is connected; every announced
    peer is in [connected_peers], unless it is a name that verifying the identity of its
    connection has replaced by another.  [connected_peers] has each peer once, every one of
    them has a connection that belongs to it, and a peer that is ready has one too and has
    been identified. *)
Theorem swarm_told idc pgc replaced log s :
  surfaced idc pgc replaced log s →
  (∀ p, p ∈ connected_peers s → told_connected (log ++ sw_events s) p) ∧
  (∀ p, told_connected (log ++ sw_events s) p → p ∈ connected_peers s ∨ p ∈ replaced) ∧
  NoDup (connected_peers s) ∧
  (∀ p, p ∈ connected_peers s → ∃ c, conn_for s p = Some c ∧ peer_for s c = Some p) ∧
  (∀ p, is_peer_ready s p = true → is_Some (conn_for s p) ∧ is_Some (peer_info_for s p)).
Proof.
  intros Hs. pose proof (surfaced_announced idc pgc replaced log s Hs) as [H1 H2].
  pose proof (swarm_reach_inv _ _ _ (surfaced_reach _ _ _ _ _ Hs)) as Hi.
  assert (∀ p, p ∈ connected_peers s ↔ p ∈ established_peers s) as Hc.
  { intros p. unfold connected_peers. by rewrite merge_sort_Permutation, elem_of_elements. }
  split_and!.
  - intros p Hp%Hc%H1. by apply told_of_connected.
  - intros p Hp%told_of_connected%H2. rewrite Hc. by apply elem_of_union.
  - unfold connected_peers. rewrite merge_sort_Permutation. apply NoDup_elements.
  - intros p [c Hp]%Hc%Hi. exists c. split; [done|by apply Hi].
  - intros p Hr%bool_decide_eq_true. by apply Hi.
Qed.

End told.

(** ** Concrete runs *)

#[local] Abbreviation Pid := (PeerId PlainMultihash).

(** A connection reported, and both outputs of that polled. *)
Definition demo_polled : SwarmCore (P:=Pid) := (swarm_poll_output (swarm_poll_output demo_swarm).2).2.

Lemma demo_reported : surfaced demo_config PingConfig_default ∅ [] demo_swarm.
Proof.
  assert (reported_once demo_new (SwTransport (TConnected 1 demo_endpoint) 0)) as Hok
    by (intros _; vm_compute; reflexivity).
  destruct (handle_input_safe demo_new _ (swarm_new_inv _ _) (reported_once_ok _ _ Hok)) as (s' & E & _).
  unfold demo_swarm, run_inputs. rewrite E. rewrite <- (union_empty_r_L ∅).
  exact (surfaced_input _ _ ∅ [] demo_new _ s' (surfaced_new _ _) Hok E).
Qed.

Lemma demo_surfaced : surfaced demo_config PingConfig_default ∅ [ConnectionEstablished demo_pid] demo_polled.
Proof.
  assert ([ConnectionEstablished demo_pid] = ([] ++ polled demo_swarm) ++ polled (swarm_poll_output demo_swarm).2)
    as -> by (vm_compute; reflexivity).
  apply surfaced_poll, surfaced_poll, demo_reported.
Qed.

Lemma swarm_told_witness :
  connected_peers demo_polled = [demo_pid] ∧ told_connected [ConnectionEstablished demo_pid] demo_pid ∧
  ∃ c, conn_for demo_polled demo_pid = Some c ∧ peer_for demo_polled c = Some demo_pid.
Proof.
  destruct (swarm_told demo_config PingConfig_default ∅ [ConnectionEstablished demo_pid] demo_polled demo_surfaced)
    as (H1 & _ & _ & H2 & _).
  assert (connected_peers demo_polled = [demo_pid]) as E by (vm_compute; reflexivity).
  assert (demo_pid ∈ connected_peers demo_polled) as Hin by (rewrite E; by left).
  split; [exact E|]. split; [|by apply H2]. apply H1 in Hin. exact Hin.
Defined.

Lemma swarm_closed_witness :
  ∃ s' es, swarm_handle_input demo_swarm (SwTransport (TClosed 1) 5) = Ok s' ∧
    peer_forgotten s' demo_pid ∧ Forall neutral es ∧
    sw_events s' = sw_events demo_swarm ++ es ++ [ConnectionClosed demo_pid].
Proof.
  destruct (swarm_closed _ _ demo_swarm 1 5 demo_swarm_reach) as (s' & E & _ & _ & H).
  assert (closed_peer demo_swarm 1 = Some demo_pid) as Hp by (vm_compute; reflexivity).
  rewrite Hp in H. destruct H as (H1 & _ & es & H2 & H3). exists s', es. by split_and!.
Defined.

(** A peer announced under one name, whose connection then proves to belong to another. *)
Definition demo_pid2 : Pid := {| multihash := {| plain_code := 0x12; plain_digest := [x01; x02]; plain_ok := I |} |}.
Definition demo_replaced : SwarmCore (P:=Pid) :=
  run_inputs demo_polled
    [SwTransport (TPeerIdentityVerified 1 {| transport := demo_addr; endpoint_peer_id := Some demo_pid2 |} None) 5].

(** The application, which has been told of the first name, is told of the second, and
    never that the first one is gone. *)
Example replaced_name_stays_told :
  connected_peers demo_replaced = [demo_pid2] ∧ sw_events demo_replaced = [ConnectionEstablished demo_pid2] ∧
  told_connected ([ConnectionEstablished demo_pid] ++ sw_events demo_replaced) demo_pid.
Proof.
  assert (sw_events demo_replaced = [ConnectionEstablished demo_pid2]) as E by (vm_compute; reflexivity).
  split_and!; [vm_compute; reflexivity|exact E|]. rewrite E.
  exists [], [ConnectionEstablished demo_pid2]. split; [done|].
  intros [H|H%elem_of_nil]%elem_of_cons; [discriminate H|done].
Qed.
