(* ===== verification/SwarmConns.v ===== *)
(** * Which connections the swarm core knows ([crates/swarm/src/core.rs])

    An input gives an identity to no connection but the one it is about, so what the
    swarm knows of connections is what its transport told it. *)
From S2P Require Import Prelude SansIo Varint Multibase PeerId Multiaddr Multistream.
From S2P Require Import IdentifyMessage Ping Identify SwarmEvents SwarmCore SwarmInvariant.
From Stdlib Require Import ZArith Strings.Byte Strings.String.
From stdpp Require Import base numbers list gmap strings.

#[local] Open Scope Z_scope.

Create HintDb conns discriminated.

Section conns.
Context {P : Type} `{SP : !SwarmPeers P} `{BP : !BuildProfile}.
Implicit Types (s : SwarmCore (P:=P)) (p : P) (c : ConnectionId).

(** Nothing but [c] may have become known. *)
Definition grows c s s' : Prop :=
  ∀ c', is_Some (conn_to_peer s' !! c') → c' = c ∨ is_Some (conn_to_peer s !! c').
Definition grows_res c s (r : res Empty_set (SwarmCore (P:=P))) : Prop := ∀ s', r = Ok s' → grows c s s'.

#[export] Instance grows_preorder c : PreOrder (grows c).
Proof. split; [by right|]. intros s1 s2 s3 H1 H2 c' [->|H]%H2; auto. Qed.

Lemma grows_same c s s' : conn_to_peer s' = conn_to_peer s → grows c s s'.
Proof. intros E c'. rewrite E. auto. Qed.

Lemma grows_quiet c s s' : quiet s s' → grows c s s'.
Proof. intros [E _]. apply grows_same. by rewrite E. Qed.

Lemma grows_Ok c s s' : grows c s s' → grows_res c s (Ok s').
Proof. by intros H ? [= <-]. Qed.

Lemma grows_bind c s r (k : SwarmCore → res Empty_set SwarmCore) :
  grows_res c s r → (∀ s', grows_res c s' (k s')) → grows_res c s (r ≫= k).
Proof. intros H1 H2 s3 (s2 & E2 & E3)%bind_Ok. etrans; [by apply H1|by eapply H2]. Qed.

Lemma grows_from c s0 s r : conn_to_peer s0 = conn_to_peer s → grows_res c s0 r → grows_res c s r.
Proof. intros E H s' ->. etrans; [by apply grows_same, E|by apply H]. Qed.

Lemma grows_ping c s i : grows c s (ping_input s i).1.
Proof. unfold ping_input. destruct (ping_handle_input _ _ _). by apply grows_same. Qed.
Lemma grows_identify c s i : grows c s (identify_input s i).1.
Proof. unfold identify_input. destruct (identify_handle_input _ _). by apply grows_same. Qed.
Lemma grows_ignore {E} c s (x : SwarmCore * res E unit) : grows c s x.1 → grows_res c s (ignore x).
Proof. intros H s'. destruct x as [s1 []]; intros [=]; by subst. Qed.

Lemma grows_after c s s1 r : grows c s s1 → grows_res c s1 r → grows_res c s r.
Proof. intros H1 H2 s' E. etrans; [exact H1|by apply H2]. Qed.

(** Feeding a machine and draining it. *)
Lemma grows_ping_step c s i : grows_res c s (ignore (ping_input s i) ≫= λ s, Ok (drain_ping_outputs s)).
Proof.
  apply grows_bind; [apply grows_ignore, grows_ping|]. intros s'. apply grows_Ok, grows_quiet, quiet_drain_ping.
Qed.
Lemma grows_identify_step c s i :
  grows_res c s (ignore (identify_input s i) ≫= λ s, Ok (drain_identify_outputs s)).
Proof.
  apply grows_bind; [apply grows_ignore, grows_identify|]. intros s'.
  apply grows_Ok, grows_quiet, quiet_drain_identify.
Qed.
Lemma grows_both c s pi ii :
  grows_res c s (s ← ignore (ping_input s pi); s ← ignore (identify_input s ii);
                 Ok (drain_identify_outputs (drain_ping_outputs s))).
Proof.
  apply grows_bind; [apply grows_ignore, grows_ping|]. intros s1.
  apply grows_bind; [apply grows_ignore, grows_identify|]. intros s2. apply grows_Ok.
  etrans; apply grows_quiet; [apply quiet_drain_ping|apply quiet_drain_identify].
Qed.

Lemma grows_ensure c s : grows c s (ensure_peer_id_for_conn s c).2.
Proof.
  unfold ensure_peer_id_for_conn. destruct (conn_to_peer s !! c) as [p|]; [by apply grows_same|]. cbn.
  intros c'. destruct (decide (c' = c)) as [->|Hne]; [auto|]. cbn. rewrite lookup_insert_ne by done. auto.
Qed.

Lemma queue_conns s p proto k : conn_to_peer (queue_open_protocol_stream s p proto k).1 = conn_to_peer s.
Proof.
  unfold queue_open_protocol_stream. destruct (require_conn s p); [|done..].
  case_match; [done|]. unfold take_open_token. cbn. by destruct (next_open_token s =? 0).
Qed.

Lemma grows_report c s p c' proto k kind d : grows_res c s (open_or_report s p c' proto k kind d).
Proof.
  intros s'. pose proof (grows_same c s _ (queue_conns s p proto k)) as H. unfold open_or_report.
  destruct (queue_open_protocol_stream s p proto k) as [s1 [| |]]; intros [= <-]; exact H.
Qed.

(** Giving [c] an identity. *)
Lemma grows_named c s p : grows c s (set_conn_to_peer s (<[c := p]> (conn_to_peer s))).
Proof.
  intros c'. cbn. destruct (decide (c' = c)) as [->|Hne]; [auto|]. rewrite lookup_insert_ne by done. auto.
Qed.
Lemma grows_dropped c s c0 : grows c s (set_conn_to_peer s (delete c0 (conn_to_peer s))).
Proof. intros c'. cbn. intros [q [_ Hq]%lookup_delete_Some]. right. by exists q. Qed.

Lemma grows_supersede c s c0 : grows_res c s (supersede_connection s c0).
Proof.
  unfold supersede_connection. apply grows_bind; [|intros s1; by apply grows_Ok, grows_same].
  destruct (conn_to_peer s !! c0) as [p|]; [|by apply grows_Ok]. cbv zeta.
  intros s' (s1 & E1 & [= <-])%bind_Ok. apply (grows_both c) in E1.
  etrans; [apply (grows_dropped c s c0)|]. etrans; [|by apply grows_same]. by etrans; [apply grows_same|exact E1].
Qed.

Lemma grows_register c s p : grows_res c s (register_connection s c p).
Proof.
  unfold register_connection. apply grows_bind.
  { destruct (peer_to_conn s !! p); [case_decide; [apply grows_supersede|]|]; by apply grows_Ok. }
  intros s1. cbv zeta. eapply grows_after; [apply (grows_named c s1 p)|]. case_match; [|by apply grows_Ok, grows_same].
  apply grows_bind; [eapply grows_from; [|apply grows_report]; done|]. intros s2.
  case_match; [apply grows_report|by apply grows_Ok].
Qed.

Lemma grows_upgrade c s p : grows_res c s (upgrade_connection_identity s c p).
Proof.
  unfold upgrade_connection_identity. case_decide; [by apply grows_Ok|]. apply grows_bind.
  { destruct (conn_to_peer s !! c) as [q|]; [|by apply grows_Ok]. unfold migrate_stale. cbv zeta.
    eapply (grows_from c (set_peer_to_conn s _)); [done|]. apply grows_bind; [apply grows_both|].
    intros s1. by apply grows_Ok, grows_same. }
  intros s1. cbv zeta. eapply grows_after; [apply (grows_named c s1 p)|].
  eapply grows_after; [|apply grows_report]. etrans; [|apply grows_quiet, quiet_ready]. by apply grows_same.
Qed.
#[local] Hint Resolve grows_Ok grows_ping_step grows_identify_step : conns.

Lemma grows_dispatch c s st d t : grows_res c s (dispatch_protocol_data s c st d t).
Proof.
  unfold dispatch_protocol_data. destruct (stream_owner s !! (c, st)) as [k|]; [|by apply grows_Ok].
  pose proof (grows_ensure c s) as He. destruct (ensure_peer_id_for_conn s c) as [p s1].
  apply (grows_after c s s1 _ He). destruct k; auto with conns; by apply grows_Ok, grows_same.
Qed.

Lemma grows_inbound_negotiated c s st proto : grows_res c s (on_inbound_negotiated s c st proto).
Proof.
  unfold on_inbound_negotiated. pose proof (grows_ensure c s) as He.
  destruct (ensure_peer_id_for_conn s c) as [p s1]. apply (grows_after c s s1 _ He).
  case_decide; [eapply grows_from; [|apply grows_ping_step]; done|].
  case_decide; [|case_decide; by apply grows_Ok, grows_same].
  match goal with |- context [identify_input s1 ?i] => pose proof (grows_identify c s1 i) as Hi;
    destruct (identify_input s1 i) as [s2 [| |]] end; cbn [fst] in Hi; [| |by intros ? [=]].
  - apply grows_Ok. etrans; [exact Hi|]. etrans; [|apply grows_quiet, quiet_drain_identify]. by apply grows_same.
  - apply grows_Ok. etrans; [exact Hi|]. by apply grows_same.
Qed.

Lemma grows_outbound_negotiated c s st k t : grows_res c s (on_outbound_negotiated s c st k t).
Proof.
  unfold on_outbound_negotiated. pose proof (grows_ensure c s) as He.
  destruct (ensure_peer_id_for_conn s c) as [p s1]. apply (grows_after c s s1 _ He). cbv zeta.
  set (s2 := set_stream_owner s1 _). apply (grows_from c s2); [done|].
  destruct k; [|by apply grows_identify_step || by apply grows_Ok, grows_same..].
  pose proof (grows_ping c s2 (Ping.RegisterOutboundStream p st)) as Hp.
  destruct (ping_input s2 _) as [s3 [| |]]; cbn [fst] in Hp; apply (grows_after c s2 s3 _ Hp);
    [|by apply grows_Ok, grows_same|by intros ? [=]].
  apply (grows_after c s3 (drain_ping_outputs s3)); [apply grows_quiet, quiet_drain_ping|].
  set (s4 := drain_ping_outputs s3). destruct (pending_pings s4 !! p) as [d|]; [|by apply grows_Ok].
  set (s5 := set_pending_pings s4 _). apply (grows_from c s5); [done|].
  pose proof (grows_ping c s5 (SendPing p d t)) as Hp'.
  destruct (ping_input s5 _) as [s6 [| |]]; cbn [fst] in Hp'; apply (grows_after c s5 s6 _ Hp');
    [apply grows_Ok, grows_quiet, quiet_drain_ping|by apply grows_Ok, grows_same|by intros ? [=]].
Qed.


(** The negotiation loops leave the connections alone. *)
Lemma output_conns s c st o n : conn_to_peer (handle_multistream_output s c st o n).1.1 = conn_to_peer s.
Proof. by destruct o. Qed.

Lemma poll_local_conns fuel s c st n : conn_to_peer (poll_local fuel s c st n).1 = conn_to_peer s.
Proof.
  revert s n. induction fuel as [|fuel IH]; intros s n; cbn [poll_local]; [done|].
  destruct (ms_poll_output n) as [[o|] n']; [|done]. pose proof (output_conns s c st o None) as E.
  destruct (handle_multistream_output s c st o None) as [[s1 ?] ?]. by rewrite IH.
Qed.
Lemma poll_inbound_conns fuel s c st b neg : conn_to_peer (poll_inbound fuel s c st b neg).1.1 = conn_to_peer s.
Proof.
  revert s neg. induction fuel as [|fuel IH]; intros s neg; cbn [poll_inbound]; [done|].
  destruct (inbound_negotiators s !! (c, st)) as [n|]; [|done].
  destruct (ms_poll_output n) as [[o|] n']; [|done]. set (s1 := set_inbound_negotiators _ _).
  pose proof (output_conns s1 c st o neg) as E.
  destruct (handle_multistream_output s1 c st o neg) as [[s2 ?] ?]. case_match; [done|by rewrite IH].
Qed.
Lemma poll_outbound_conns fuel s c st b : conn_to_peer (poll_outbound fuel s c st b).1.1 = conn_to_peer s.
Proof.
  revert s b. induction fuel as [|fuel IH]; intros s b; cbn [poll_outbound]; [done|].
  destruct (outbound_negotiators s !! (c, st)) as [n|]; [|done].
  destruct (ms_poll_output (negotiator n)) as [[o|] n']; [|done]. set (s1 := set_outbound_negotiators _ _).
  destruct o; [|by rewrite IH|done|done]. cbn [handle_multistream_output]. by rewrite IH.
Qed.

Lemma grows_feed_inbound c s st d t : grows_res c s (feed_inbound_negotiator s c st d t).
Proof.
  unfold feed_inbound_negotiator. destruct (inbound_negotiators s !! (c, st)) as [n|]; [|by apply grows_Ok].
  destruct (ms_handle_input n (Data d)) as [n' [| |]]; [|by apply grows_Ok, grows_same|by intros ? [=]].
  set (s1 := set_inbound_negotiators _ _). cbv zeta.
  pose proof (poll_inbound_conns (S (length (pending_outputs n'))) s1 c st true None) as E.
  destruct (poll_inbound _ s1 c st true None) as [[s2 neg] failed]. cbn [fst] in E.
  apply (grows_from c s2); [done|]. destruct failed; [by apply grows_Ok, grows_same|].
  destruct neg as [proto|]; [|by apply grows_Ok]. apply grows_bind.
  - eapply grows_from; [|apply grows_inbound_negotiated]; done.
  - intros s3. case_decide; [apply grows_dispatch|by apply grows_Ok].
Qed.

Lemma grows_feed_outbound c s st d t : grows_res c s (feed_outbound_negotiator s c st d t).
Proof.
  unfold feed_outbound_negotiator. destruct (outbound_negotiators s !! (c, st)) as [n|]; [|by apply grows_Ok].
  destruct (ms_handle_input (negotiator n) (Data d)) as [n' [| |]]; [|by apply grows_Ok, grows_same|by intros ? [=]].
  set (s1 := set_outbound_negotiators _ _). cbv zeta.
  pose proof (poll_outbound_conns (S (length (pending_outputs n'))) s1 c st false) as E.
  destruct (poll_outbound _ s1 c st false) as [[s2 neg] failed]. cbn [fst] in E.
  apply (grows_from c s2); [done|]. destruct failed; [by apply grows_Ok, grows_same|].
  destruct neg; [|by apply grows_Ok]. apply grows_bind.
  - eapply grows_from; [|apply grows_outbound_negotiated]; done.
  - intros s3. case_decide; [apply grows_dispatch|by apply grows_Ok].
Qed.

Lemma grows_write_closed c s st : grows_res c s (handle_stream_remote_write_closed s c st).
Proof.
  unfold handle_stream_remote_write_closed. destruct (stream_owner s !! (c, st)) as [k|]; [|by apply grows_Ok].
  pose proof (grows_ensure c s) as He. destruct (ensure_peer_id_for_conn s c) as [p s1].
  apply (grows_after c s s1 _ He). destruct k; auto with conns; by apply grows_Ok, grows_same.
Qed.

Lemma grows_stream_closed c s c' st : grows_res c s (handle_stream_closed s c' st).
Proof.
  unfold handle_stream_closed. cbv zeta. set (s1 := set_stream_owner s _). apply (grows_from c s1); [done|].
  apply grows_bind; [|intros s2; by apply grows_Ok, grows_same].
  destruct (stream_owner s !! (c', st)) as [k|]; [|by apply grows_Ok].
  destruct (conn_to_peer s1 !! c') as [p|]; [|by apply grows_Ok]. destruct k; auto with conns; by apply grows_Ok, grows_same.
Qed.

Lemma grows_connection_closed c s c0 : grows_res c s (handle_connection_closed s c0).
Proof.
  unfold handle_connection_closed. cbv zeta. set (s1 := forget_addresses s c0). apply (grows_from c s1); [done|].
  apply grows_bind; [|intros s2; by apply grows_Ok, grows_same].
  eapply grows_after; [apply (grows_dropped c s1 c0)|].
  destruct (conn_to_peer s1 !! c0) as [p|]; [|by apply grows_Ok]. case_decide; [|by apply grows_Ok].
  apply grows_bind; [eapply grows_from; [|apply grows_both]; done|]. intros s2. by apply grows_Ok, grows_same.
Qed.

Lemma grows_incoming c s c' st : grows_res c s (handle_incoming_stream s c' st).
Proof.
  unfold handle_incoming_stream. destruct (ms_handle_input _ Start) as [l r].
  apply grows_bind; [destruct r; [by apply grows_Ok, grows_same..|by intros ? [=]]|]. intros s1. cbv zeta.
  set (s2 := set_inbound_negotiators _ _).
  pose proof (poll_inbound_conns (S (length (pending_outputs l))) s2 c' st false None) as E.
  destruct (poll_inbound _ s2 c' st false None) as [[s3 ?] ?]. by apply grows_Ok, grows_same.
Qed.

Lemma grows_opened c s c' st tok t : grows_res c s (handle_stream_opened s c' st tok t).
Proof.
  unfold handle_stream_opened. destruct (pending_opens s !! tok) as [o|]; [|by apply grows_Ok, grows_same].
  cbv zeta. case_decide; [by apply grows_Ok, grows_same|]. destruct (ms_handle_input _ Start) as [n r].
  apply grows_bind; [destruct r; [by apply grows_Ok, grows_same..|by intros ? [=]]|]. intros s1.
  pose proof (poll_local_conns (S (length (pending_outputs n))) s1 c' st n) as E.
  destruct (poll_local _ s1 c' st n) as [s2 n2]. by apply grows_Ok, grows_same.
Qed.

(** The connection an input may make known. *)
Definition introduces (i : SwarmInput (P:=P)) : option ConnectionId :=
  match i with
  | SwTransport (TConnected c _ | TStreamData c _ _ | TStreamRemoteWriteClosed c _
      | TPeerIdentityVerified c _ _) _ => Some c
  | _ => None
  end.

Lemma handle_input_conns s i s' c :
  swarm_handle_input s i = Ok s' → is_Some (conn_to_peer s' !! c) →
  introduces i = Some c ∨ is_Some (conn_to_peer s !! c).
Proof.
  intros E Hc.
  assert (∀ r, grows_res (c + 1) s r → r = Ok s' → is_Some (conn_to_peer s !! c)) as Hn.
  { intros r H Hr. destruct (H s' Hr c Hc) as [Hbad|]; [|done]. unfold ConnectionId in *. lia. }
  destruct i as [ev t|t|c1 st tok t|tok r t|err]; cbn [swarm_handle_input] in E; cbn [introduces].
  - assert (∀ c0, grows c0 s s' → Some c0 = Some c ∨ is_Some (conn_to_peer s !! c)) as Hg.
    { intros c0 H. apply H in Hc as [->|]; auto. }
    destruct ev as [c0 ep|c0 st|c0 st|c0 st d|c0 st|c0 st|c0|c0 m|c0 ep|c0 ep pp|a];
      cbn [handle_transport_event] in E; try (injection E as <-; by right).
    + apply Hg. revert E. cbv zeta. set (s0 := set_conn_to_remote_addr _ _).
      destruct (endpoint_peer_id ep) as [p|]; intros E.
      * by apply (grows_register c0 s0 p).
      * injection E as <-. apply (grows_ensure c0 s0).
    + right. exact (Hn _ (grows_incoming _ _ _ _) E).
    + apply Hg. unfold handle_stream_data in E. case_decide; [by eapply grows_feed_inbound|].
      case_decide; [by eapply grows_feed_outbound|by eapply grows_dispatch].
    + by apply Hg, (grows_write_closed c0 s st).
    + right. exact (Hn _ (grows_stream_closed _ _ _ _) E).
    + right. exact (Hn _ (grows_connection_closed _ _ _) E).
    + apply Hg. revert E. cbv zeta. set (s0 := set_conn_to_remote_addr _ _).
      destruct (endpoint_peer_id ep) as [p|]; intros E; [by apply (grows_upgrade c0 s0 p)|]. by injection E as <-; apply grows_same.
  - right. eapply Hn; [|exact E]. apply grows_bind; [apply grows_ignore, grows_ping|]. intros s1. apply grows_Ok.
    etrans; apply grows_quiet; [apply quiet_drain_ping|apply quiet_drain_identify].
  - right. exact (Hn _ (grows_opened _ _ _ _ _ _) E).
  - right. injection E as <-. revert Hc. unfold handle_open_stream_failed. by destruct (pending_opens s !! tok).
  - right. by injection E as <-.
Qed.


(** The application's calls make no connection known. *)
Lemma ping_peer_conns s p d t : conn_to_peer (ping_peer s p d t).1 = conn_to_peer s.
Proof.
  unfold ping_peer. case_decide; [done|]. case_decide.
  - assert (conn_to_peer (ping_input s (SendPing p d t)).1 = conn_to_peer s) as E.
    { unfold ping_input. by destruct (ping_handle_input _ _ _). }
    destruct (ping_input s (SendPing p d t)) as [s1 [| |]]; [|done..].
    destruct (quiet_drain_ping s1) as [E1 _]. cbn [fst]. by rewrite E1.
  - case_match; [done|]. by rewrite queue_conns.
Qed.
Lemma open_user_stream_conns s p proto : conn_to_peer (open_user_stream s p proto).1 = conn_to_peer s.
Proof. unfold open_user_stream. do 2 (case_decide; [done|]). case_match; [done|]. apply queue_conns. Qed.
Lemma user_stream_action_conns s p st a : conn_to_peer (user_stream_action s p st a).1 = conn_to_peer s.
Proof. unfold user_stream_action. by destruct (require_user_stream_conn s p st). Qed.
Lemma disconnect_conns s p : conn_to_peer (disconnect s p).1 = conn_to_peer s.
Proof. unfold disconnect. by destruct (require_conn s p). Qed.
Lemma add_protocol_conns s id : conn_to_peer (add_user_protocol s id) = conn_to_peer s.
Proof. unfold add_user_protocol. by repeat case_decide. Qed.

End conns.
