(* ===== verification/Driver.v ===== *)
(** * The swarm driver ([crates/swarm/src/driver.rs])

    [Swarm] owns a transport and the swarm core: it feeds the core what the transport
    reports, executes the actions the core queues, and hands the core's events to the
    application.  The transport is any instance of [Transport]; time is an instance of
    [Time], whose state stands for the outside world, so that two readings may differ.

    A call of the driver returns the new driver with [Ok], an error, or [Panic] when
    it unwinds.  The loops that empty the core run on fuel, for which [work] gives a
    bound; running out of it would show as [Panic]. *)
From S2P Require Import Prelude SansIo Varint Multibase PeerId Keys Multiaddr PeerAddr Multistream.
From S2P Require Import IdentifyMessage Ping Identify SwarmEvents Transport SwarmCore SwarmInvariant SwarmConns.
From Stdlib Require Import ZArith Strings.Byte Strings.String.
From stdpp Require Import base numbers list gmap strings.

#[local] Open Scope Z_scope.

(** ** Time *)

Class Time (C : Type) := {
  (** [Clock::now_ms] *)
  now_ms : C → Z * C;
  (** [Instant::now], in milliseconds *)
  instant_now : C → Z * C;
  (** [thread::sleep(POLL_IDLE_SLEEP)] *)
  sleep : C → C;
}.
#[global] Hint Mode Time ! : typeclass_instances.

Definition POLL_IDLE_SLEEP : Z := 1.

(** Time passes; sleeping takes at least as long as asked. *)
Class TimeLaws (C : Type) `{Time C} := {
  elapsed : C → Z;
  now_ms_elapsed c : elapsed c <= elapsed (now_ms c).2;
  instant_now_elapsed c : elapsed c <= (instant_now c).1 ∧ elapsed (instant_now c).2 = (instant_now c).1;
  sleep_elapsed c : elapsed c + POLL_IDLE_SLEEP <= elapsed (sleep c);
}.
#[global] Hint Mode TimeLaws ! - : typeclass_instances.

(** ** Ping payloads *)

(** [random] is what [getrandom::fill] produced, [since_epoch] the nanoseconds of the
    system clock, if it is not set before the epoch. *)
Definition rand_ping_payload (random : option (list byte)) (since_epoch : option Z) : list byte :=
  match random with
  | Some payload => payload
  | None =>
      let seed := from_option wrap_u64 0 since_epoch in
      imap (λ i _, Z_byte (Z.lxor (byte_Z (Z_byte (Z.shiftr seed (Z.of_nat i mod 8)))) (Z.of_nat i)))
        (replicate PING_PAYLOAD_LEN x00)
  end.

Section driver.
Context {P : Type} `{SP : !SwarmPeers P} `{BP : !BuildProfile}.
Context {T : Type} `{TR : !Transport T P}.
Context {C : Type} `{TM : !Time C}.

Record Swarm : Type := MkDriver {
  sd_transport : T;
  sd_core : SwarmCore (P:=P);
  sd_local_peer_id : P;
  sd_event_buffer : list (SwarmEvent (P:=P));
  sd_clock : C;
}.

Definition set_transport (d : Swarm) (t : T) : Swarm :=
  MkDriver t (sd_core d) (sd_local_peer_id d) (sd_event_buffer d) (sd_clock d).
Definition set_core (d : Swarm) (s : SwarmCore) : Swarm :=
  MkDriver (sd_transport d) s (sd_local_peer_id d) (sd_event_buffer d) (sd_clock d).
Definition set_event_buffer (d : Swarm) (es : list SwarmEvent) : Swarm :=
  MkDriver (sd_transport d) (sd_core d) (sd_local_peer_id d) es (sd_clock d).
Definition set_clock (d : Swarm) (c : C) : Swarm :=
  MkDriver (sd_transport d) (sd_core d) (sd_local_peer_id d) (sd_event_buffer d) c.

(** [SystemClock::new] and [Instant] are part of the state of [Time]. *)
Definition with_clock (transport : T) (identify_config : IdentifyConfig) (ping_config : PingConfig)
    (local_peer_id : P) (clock : C) : Swarm :=
  {| sd_transport := transport; sd_core := swarm_new identify_config ping_config;
     sd_local_peer_id := local_peer_id; sd_event_buffer := []; sd_clock := clock |}.

(** [Swarm::new]; the argument is what [SystemClock::new()] returns. *)
Definition driver_new (transport : T) (identify_config : IdentifyConfig) (ping_config : PingConfig)
    (local_peer_id : P) (system_clock : C) : Swarm :=
  with_clock transport identify_config ping_config local_peer_id system_clock.

(** [self.now_ms()]. *)
Definition driver_now (d : Swarm) : Z * Swarm := let '(t, c) := now_ms (sd_clock d) in (t, set_clock d c).

(** ** Errors *)

Definition runtime_error (kind : SwarmErrorKind) (conn_id : option ConnectionId) (detail : string)
    : SwarmRuntimeError (P:=P) :=
  {| err_kind := kind; err_peer_id := None; err_conn_id := conn_id; err_detail := detail |}.

Definition swarm_to_transport_error (err : SwarmError (P:=P)) : TransportError :=
  match err with
  | NotConnected peer_id => PollError ("peer " ++ to_string peer_id ++ " is not connected")
  | ProtocolNotRegistered protocol_id =>
      InvalidConfig ("protocol '" ++ protocol_id ++ "' is not registered; call add_user_protocol first")
  | RemoteDoesNotSupport peer_id protocol_id =>
      PollError ("peer " ++ to_string peer_id ++ " does not support protocol '" ++ protocol_id ++ "'")
  | UserStreamNotFound peer_id stream_id =>
      PollError ("user stream " ++ to_string (A:=Z) stream_id ++ " for peer " ++ to_string peer_id
                   ++ " is not active")
  | SwPingError reason => PollError ("ping error: " ++ reason)
  | SwIdentifyError reason => PollError ("identify error: " ++ reason)
  end%string.

(** ** Executing actions *)

(** [self.core.handle_input(input)]. *)
Definition feed_core (d : Swarm) (input : SwarmInput (P:=P)) : res Empty_set Swarm :=
  set_core d <$> swarm_handle_input (sd_core d) input.

(** [if let Err(e) = self.transport.call(..) { .. }]. *)
Definition report (d : Swarm) (x : T * res TransportError unit) (conn_id : ConnectionId)
    (what : string) : res Empty_set Swarm :=
  let d := set_transport d x.1 in
  match x.2 with
  | Ok _ => Ok d
  | Err e =>
      feed_core d (SwRuntimeError (runtime_error KTransport (Some conn_id)
        (what ++ " failed: " ++ to_string e)%string))
  | Panic => Panic
  end.

Definition dispatch_action (d : Swarm) (action : SwarmAction) (captured_stream_id : option StreamId)
    : res Empty_set (Swarm * option StreamId) :=
  match action with
  | OpenStream conn_id token =>
      let '(t, r) := t_open_stream (sd_transport d) conn_id in
      let d := set_transport d t in
      match r with
      | Ok stream_id =>
          let '(now, d) := driver_now d in
          d ← feed_core d (SwStreamOpened conn_id stream_id token now);
          Ok (d, Some stream_id)
      | Err e =>
          let reason := to_string e in
          let '(now, d) := driver_now d in
          d ← feed_core d (SwOpenStreamFailed token reason now);
          Ok (d, captured_stream_id)
      | Panic => Panic
      end
  | SendStream conn_id stream_id data =>
      d ← report d (t_send_stream (sd_transport d) conn_id stream_id data) conn_id
            ("send_stream to connection " ++ to_string (A:=Z) conn_id ++ " stream "
               ++ to_string (A:=Z) stream_id)%string;
      Ok (d, captured_stream_id)
  | SwCloseStreamWrite conn_id stream_id =>
      d ← report d (t_close_stream_write (sd_transport d) conn_id stream_id) conn_id
            ("close_stream_write on connection " ++ to_string (A:=Z) conn_id ++ " stream "
               ++ to_string (A:=Z) stream_id)%string;
      Ok (d, captured_stream_id)
  | SwResetStream conn_id stream_id =>
      d ← report d (t_reset_stream (sd_transport d) conn_id stream_id) conn_id
            ("reset_stream on connection " ++ to_string (A:=Z) conn_id ++ " stream "
               ++ to_string (A:=Z) stream_id)%string;
      Ok (d, captured_stream_id)
  | CloseConnection conn_id =>
      d ← report d (t_close (sd_transport d) conn_id) conn_id
            ("close on connection " ++ to_string (A:=Z) conn_id)%string;
      Ok (d, captured_stream_id)
  end.

(** What emptying the core can still take: executing an action queues at most one
    error, or, when it opened a stream, the one message that starts a negotiation. *)
Definition action_work (a : SwarmAction) : nat := match a with OpenStream _ _ => 3 | _ => 2 end.
Definition work (s : SwarmCore (P:=P)) : nat := list_sum (action_work <$> sw_actions s) + length (sw_events s).

(** [while let Some(output) = self.core.poll_output() { .. }], events to the buffer. *)
Fixpoint flush_loop (fuel : nat) (d : Swarm) (allocated : option StreamId)
    : res Empty_set (Swarm * option StreamId) :=
  match fuel with
  | O => Panic
  | S fuel =>
      let '(output, core) := swarm_poll_output (sd_core d) in
      let d := set_core d core in
      match output with
      | None => Ok (d, allocated)
      | Some (SwAction action) =>
          '(d, allocated) ← dispatch_action d action allocated;
          flush_loop fuel d allocated
      | Some (SwEvent event) =>
          flush_loop fuel (set_event_buffer d (sd_event_buffer d ++ [event])) allocated
      end
  end.
Definition flush (d : Swarm) : res Empty_set (Swarm * option StreamId) :=
  flush_loop (S (work (sd_core d))) d None.
Definition flush_actions (d : Swarm) : res Empty_set Swarm := fst <$> flush d.

(** The same loop at the end of [poll], events to the result. *)
Fixpoint poll_rest (fuel : nat) (d : Swarm) (events : list (SwarmEvent (P:=P)))
    : res Empty_set (Swarm * list SwarmEvent) :=
  match fuel with
  | O => Panic
  | S fuel =>
      let '(output, core) := swarm_poll_output (sd_core d) in
      let d := set_core d core in
      match output with
      | None => Ok (d, events)
      | Some (SwAction action) =>
          '(d, _) ← dispatch_action d action None;
          poll_rest fuel d events
      | Some (SwEvent event) => poll_rest fuel d (events ++ [event])
      end
  end.

(** ** Calls of the application *)

(** [core.call(..).map_err(swarm_to_transport_error)?; self.flush_actions(); Ok(())]. *)
Definition call_and_flush (d : Swarm) (x : SwarmCore * res (SwarmError (P:=P)) unit)
    : Swarm * res TransportError unit :=
  let d := set_core d x.1 in
  match x.2 with
  | Ok _ => match flush_actions d with Ok d => (d, Ok ()) | _ => (d, Panic) end
  | Err e => (d, Err (swarm_to_transport_error e))
  | Panic => (d, Panic)
  end.

Definition driver_add_user_protocol (d : Swarm) (protocol_id : string) : Swarm :=
  set_core d (add_user_protocol (sd_core d) protocol_id).

Definition listen (d : Swarm) (addr : Multiaddr P) : Swarm * res TransportError (Multiaddr P) :=
  let '(t, r) := t_listen (sd_transport d) addr in (set_transport d t, r).

Definition no_bound_address : TransportError :=
  InvalidConfig "transport does not expose a bound local address"%string.

(** [PeerAddr::new(addr, self.local_peer_id.clone()).map_err(..)]. *)
Definition local_peer_addr (d : Swarm) (addr : Multiaddr P) : res TransportError (PeerAddr P) :=
  map_err (λ e, InvalidConfig ("failed to build local PeerAddr: " ++ to_string e)%string)
    (pa_new addr (sd_local_peer_id d)).

(** The body of the loop of [listen_on_bound_addrs], and of [listen_on_bound_addr]. *)
Definition listen_peer_addr (d : Swarm) (addr : Multiaddr P) : Swarm * res TransportError (PeerAddr P) :=
  let '(d, r) := listen d addr in (d, addr ← r; local_peer_addr d addr).

Fixpoint listen_loop (d : Swarm) (addrs : list (Multiaddr P)) (resolved : list (PeerAddr P))
    : Swarm * res TransportError (list (PeerAddr P)) :=
  match addrs with
  | [] => (d, Ok resolved)
  | addr :: addrs =>
      match listen_peer_addr d addr with
      | (d, Ok peer_addr) => listen_loop d addrs (resolved ++ [peer_addr])
      | (d, Err e) => (d, Err e)
      | (d, Panic) => (d, Panic)
      end
  end.
Definition listen_on_bound_addrs (d : Swarm) : Swarm * res TransportError (list (PeerAddr P)) :=
  let addrs := t_local_addresses (sd_transport d) in
  if decide (addrs = []) then (d, Err no_bound_address) else listen_loop d addrs [].

Definition listen_on_bound_addr (d : Swarm) : Swarm * res TransportError (PeerAddr P) :=
  match head (t_local_addresses (sd_transport d)) with
  | None => (d, Err no_bound_address)
  | Some addr => listen_peer_addr d addr
  end.

(** [SwarmCore::on_dialed] does nothing. *)
Definition driver_on_dialed (d : Swarm) (id : ConnectionId) : Swarm := d.
Definition dial (d : Swarm) (addr : PeerAddr P) : Swarm * res TransportError ConnectionId :=
  let '(t, r) := t_dial (sd_transport d) addr in (set_transport d t, r).

Definition driver_ping (d : Swarm) (peer_id : P) (payload : list byte) : Swarm * res TransportError unit :=
  let '(now, d) := driver_now d in
  call_and_flush d (ping_peer (sd_core d) peer_id payload now).
Definition driver_disconnect (d : Swarm) (peer_id : P) : Swarm * res TransportError unit :=
  call_and_flush d (disconnect (sd_core d) peer_id).
Definition driver_send_user_stream (d : Swarm) (peer_id : P) (stream_id : StreamId) (data : list byte) :=
  call_and_flush d (send_user_stream (sd_core d) peer_id stream_id data).
Definition driver_close_user_stream_write (d : Swarm) (peer_id : P) (stream_id : StreamId) :=
  call_and_flush d (close_user_stream_write (sd_core d) peer_id stream_id).
Definition driver_reset_user_stream (d : Swarm) (peer_id : P) (stream_id : StreamId) :=
  call_and_flush d (reset_user_stream (sd_core d) peer_id stream_id).

Definition not_allocated : TransportError :=
  PollError "core did not allocate a stream id for open_user_stream"%string.

Definition driver_open_user_stream (d : Swarm) (peer_id : P) (protocol_id : string)
    : Swarm * res TransportError StreamId :=
  let '(core, r) := open_user_stream (sd_core d) peer_id protocol_id in
  let d := set_core d core in
  match r with
  | Err e => (d, Err (swarm_to_transport_error e))
  | Panic => (d, Panic)
  | Ok _ =>
      match flush d with
      | Ok (d, allocated_stream) =>
          match flush_actions d with
          | Ok d => (d, ok_or allocated_stream not_allocated)
          | _ => (d, Panic)
          end
      | _ => (d, Panic)
      end
  end.

(** ** Polling *)

Fixpoint feed_events (s : SwarmCore (P:=P)) (events : list (TransportEvent (P:=P))) (now : Z)
    : res Empty_set SwarmCore :=
  match events with
  | [] => Ok s
  | event :: events => s ← swarm_handle_input s (SwTransport event now); feed_events s events now
  end.

(** The steps of [poll] after the transport has been polled. *)
Definition poll_events (d : Swarm) (events : list (TransportEvent (P:=P))) (now : Z)
    : res Empty_set (Swarm * list SwarmEvent) :=
  core ← feed_events (sd_core d) events now;
  core ← swarm_handle_input core (SwTick now);
  d ← flush_actions (set_core d core);
  let events := sd_event_buffer d in
  let d := set_event_buffer d [] in
  poll_rest (S (work (sd_core d))) d events.

Definition poll (d : Swarm) : Swarm * res TransportError (list SwarmEvent) :=
  let '(now, d) := driver_now d in
  let d := set_core d (set_local_addrs (sd_core d) (t_local_addresses (sd_transport d))) in
  let '(t, r) := t_poll (sd_transport d) in
  let d := set_transport d t in
  match r with
  | Err e => (d, Err e)
  | Panic => (d, Panic)
  | Ok events =>
      match poll_events d events now with
      | Ok (d, events) => (d, Ok events)
      | _ => (d, Panic)
      end
  end.

(** [None]: still in the loop after [fuel] iterations. *)
Fixpoint poll_next (fuel : nat) (d : Swarm) (deadline : Z)
    : option (Swarm * res TransportError (option SwarmEvent)) :=
  match fuel with
  | O => None
  | S fuel =>
      match sd_event_buffer d with
      | ev :: rest => Some (set_event_buffer d rest, Ok (Some ev))
      | [] =>
          match poll d with
          | (d, Err e) => Some (d, Err e)
          | (d, Panic) => Some (d, Panic)
          | (d, Ok events) =>
              let d := set_event_buffer d (sd_event_buffer d ++ events) in
              match sd_event_buffer d with
              | ev :: rest => Some (set_event_buffer d rest, Ok (Some ev))
              | [] =>
                  let '(now, c) := instant_now (sd_clock d) in
                  let d := set_clock d c in
                  if deadline <=? now then Some (d, Ok None)
                  else poll_next fuel (set_clock d (sleep (sd_clock d))) deadline
              end
          end
      end
  end.

Fixpoint run_until (fuel : nat) (d : Swarm) (deadline : Z) (predicate : SwarmEvent (P:=P) → bool)
    : option (Swarm * res TransportError (option SwarmEvent)) :=
  match fuel with
  | O => None
  | S fuel' =>
      match poll_next fuel d deadline with
      | None => None
      | Some (d, Ok (Some ev)) =>
          if predicate ev then Some (d, Ok (Some ev)) else run_until fuel' d deadline predicate
      | Some x => Some x
      end
  end.


(** ** Executing actions: lemmas *)

(** The effect of an action on the transport. *)
Definition execute (t : T) (a : SwarmAction) : T :=
  match a with
  | OpenStream c _ => (t_open_stream t c).1
  | SendStream c st data => (t_send_stream t c st data).1
  | SwCloseStreamWrite c st => (t_close_stream_write t c st).1
  | SwResetStream c st => (t_reset_stream t c st).1
  | CloseConnection c => (t_close t c).1
  end.

Definition header : list byte := encode_message MULTISTREAM_PROTOCOL_ID.
Definition starts_negotiation (a : SwarmAction) : Prop := ∃ c st, a = SendStream c st header.
Definition is_error (e : SwarmEvent (P:=P)) : Prop := ∃ err, e = SwarmErrorEvent err.

(** What a report to the core does to its queues. *)
Record reacts (s s' : SwarmCore (P:=P)) (sent : list SwarmAction) (errs : list SwarmEvent) : Prop := {
  re_actions : sw_actions s' = sw_actions s ++ sent;
  re_events : sw_events s' = sw_events s ++ errs;
  re_conns : conn_to_peer s' = conn_to_peer s;
  re_inv : swarm_inv s → swarm_inv s';
  re_sent : Forall starts_negotiation sent;
  re_errs : Forall is_error errs;
  re_one : (length sent + length errs <= 1)%nat;
  re_machines : ping s' = ping s ∧ identify s' = identify s;
}.

Lemma reacts_error s k po oc det po' :
  reacts s (emit_error (set_pending_opens s po') k po oc det) [] [SwarmErrorEvent
    {| err_kind := k; err_peer_id := po; err_conn_id := oc; err_detail := det |}].
Proof.
  split; cbn; [by rewrite app_nil_r|done|done| | | |done|done].
  - intros []. by constructor.
  - constructor.
  - repeat constructor. by eexists.
Qed.

Lemma reacts_emit s err : reacts s (emit s (SwarmErrorEvent err)) [] [SwarmErrorEvent err].
Proof.
  pose proof (reacts_error s (err_kind err) (err_peer_id err) (err_conn_id err) (err_detail err) (pending_opens s)).
  by destruct s, err.
Qed.

Lemma reacts_nothing s : reacts s s [] [].
Proof. split; rewrite ?app_nil_r; auto; cbn; lia. Qed.

(** The negotiation a stream that was asked for starts with. *)
Definition negotiating (s : SwarmCore (P:=P)) (c : ConnectionId) (st : StreamId) (tok : OpenStreamToken)
    (o : PendingOpen) : SwarmCore :=
  act (set_outbound_negotiators (set_pending_opens s (delete tok (pending_opens s)))
         (<[(c, st) := {| negotiator := set_started (dialer (open_protocol o)) true; target := open_target o |}]>
            (outbound_negotiators s)))
    (SendStream c st header).

Lemma stream_opened_found s c st tok t o :
  pending_opens s !! tok = Some o → open_conn_id o = c →
  handle_stream_opened s c st tok t = Ok (negotiating s c st tok o).
Proof. intros Ho <-. unfold handle_stream_opened. rewrite Ho. cbv zeta. rewrite decide_False by tauto. done. Qed.

Lemma stream_opened_reacts s c st tok t :
  ∃ s' sent errs, handle_stream_opened s c st tok t = Ok s' ∧ reacts s s' sent errs.
Proof.
  destruct (pending_opens s !! tok) as [o|] eqn:Ho; cycle 1.
  { unfold handle_stream_opened. rewrite Ho. eexists _, _, _. split; [done|]. apply reacts_emit. }
  destruct (decide (open_conn_id o = c)) as [Hc|Hc].
  - rewrite (stream_opened_found s c st tok t o) by done. eexists _, [SendStream c st header], [].
    split; [done|]. split; cbn; [done|by rewrite app_nil_r|done| |repeat constructor; by eexists _, _|constructor|done|done].
    intros Hi. pose proof (stream_opened_safe s c st tok t Hi) as (s' & E & Hi').
    rewrite (stream_opened_found s c st tok t o) in E by done. by injection E as <-.
  - unfold handle_stream_opened. rewrite Ho. cbv zeta. rewrite decide_True by done.
    eexists _, _, _. split; [done|]. apply reacts_error.
Qed.

Lemma open_failed_reacts s tok reason t : ∃ errs, reacts s (handle_open_stream_failed s tok reason t) [] errs.
Proof.
  unfold handle_open_stream_failed. destruct (pending_opens s !! tok); eexists; [apply reacts_error|apply reacts_emit].
Qed.

Context `{TC : !TransportContract T P}.

Lemma report_spec d x c what :
  keeps reported (sd_transport d) x →
  ∃ d' errs, report d x c what = Ok d' ∧ sd_transport d' = x.1 ∧ sd_local_peer_id d' = sd_local_peer_id d ∧
    sd_event_buffer d' = sd_event_buffer d ∧ reacts (sd_core d) (sd_core d') [] errs ∧ sd_clock d' = sd_clock d.
Proof.
  intros [Hp _]. unfold report, feed_core. destruct (x.2) as [|e|]; [| |done].
  - eexists _, []. split_and!; [done..| |done]. apply reacts_nothing.
  - eexists _, _. split_and!; [done..| |done]. apply reacts_emit.
Qed.

(** Reading the clock, any number of times. *)
Definition clock_read : relation C := rtc (λ c c', c' = (now_ms c).2).

(** One action: the transport is called once, and the core is told the result. *)
Definition dispatched d (t : T) (w : nat) (r : res Empty_set (Swarm * option StreamId)) : Prop :=
  ∃ d' cap' sent errs, r = Ok (d', cap') ∧
    sd_transport d' = t ∧ sd_local_peer_id d' = sd_local_peer_id d ∧
    sd_event_buffer d' = sd_event_buffer d ∧ reacts (sd_core d) (sd_core d') sent errs ∧
    (S (2 * length sent + length errs) <= w)%nat ∧
    (∀ c, reported (sd_transport d) c → reported (sd_transport d') c) ∧
    clock_read (sd_clock d) (sd_clock d').

Lemma reported_call d x c what (cap : option StreamId) :
  keeps reported (sd_transport d) x → dispatched d x.1 2 (d' ← report d x c what; Ok (d', cap)).
Proof.
  intros Hk. destruct (report_spec d x c what Hk) as (d' & errs & -> & Ht & Hl & He & Hr & Hc).
  eexists _, _, [], errs. rewrite Ht, Hc. split_and!; try done; [destruct Hr; cbn in *; lia|apply Hk].
Qed.

Lemma dispatch_spec d a cap :
  dispatched d (execute (sd_transport d) a) (action_work a) (dispatch_action d a cap).
Proof.
  destruct a as [c tok|c st data|c st|c st|c]; cbn [dispatch_action execute action_work].
  - pose proof (open_stream_keeps (sd_transport d) c) as [Hp Hk].
    destruct (t_open_stream (sd_transport d) c) as [t [sid|e|]]; cbn [fst snd] in *; [| |done];
      assert (clock_read (sd_clock d) (now_ms (sd_clock d)).2) by (by apply rtc_once);
      unfold driver_now; cbn [set_transport sd_clock]; destruct (now_ms (sd_clock d)) as [now clk];
      unfold feed_core; cbn [set_clock sd_core set_transport].
    + cbn [swarm_handle_input]. destruct (stream_opened_reacts (sd_core d) c sid tok now)
        as (s' & sent & errs & -> & Hr). eexists _, _, sent, errs. cbn. split_and!; try done.
      destruct Hr. lia.
    + cbn [swarm_handle_input]. destruct (open_failed_reacts (sd_core d) tok (to_string e) now) as (errs & Hr).
      eexists _, _, [], errs. cbn. split_and!; try done. destruct Hr. cbn in *. lia.
  - by apply reported_call, send_stream_keeps.
  - by apply reported_call, close_stream_write_keeps.
  - by apply reported_call, reset_stream_keeps.
  - by apply reported_call, close_keeps.
Qed.


(** ** Emptying the core *)

Definition core_idle (s : SwarmCore (P:=P)) : Prop := sw_actions s = [] ∧ sw_events s = [].

(** Every queued action has been executed, once and in order, followed by the messages
    that start the negotiations on the streams this opened; the queued events are
    handed on, followed by the errors this caused. *)
Record flushed (d d' : Swarm) (actions sent : list SwarmAction) (errs : list (SwarmEvent (P:=P))) : Prop := {
  fl_transport : sd_transport d' = foldl execute (sd_transport d) (actions ++ sent);
  fl_local : sd_local_peer_id d' = sd_local_peer_id d;
  fl_idle : core_idle (sd_core d');
  fl_conns : conn_to_peer (sd_core d') = conn_to_peer (sd_core d);
  fl_inv : swarm_inv (sd_core d) → swarm_inv (sd_core d');
  fl_sent : Forall starts_negotiation sent;
  fl_errs : Forall is_error errs;
  fl_bound : (length errs <= length actions)%nat;
  fl_reported c : reported (sd_transport d) c → reported (sd_transport d') c;
  fl_clock : clock_read (sd_clock d) (sd_clock d');
  fl_machines : ping (sd_core d') = ping (sd_core d) ∧ identify (sd_core d') = identify (sd_core d);
}.

Lemma poll_output_inv (s : SwarmCore (P:=P)) : swarm_inv s → swarm_inv (swarm_poll_output s).2.
Proof. intros []. unfold swarm_poll_output. repeat case_match; by constructor. Qed.

Lemma work_reacts s s' sent errs :
  reacts s s' sent errs → (work s' <= work s + 2 * length sent + length errs)%nat.
Proof.
  intros [Ha He _ _ Hs _ _ _]. unfold work. rewrite Ha, He, fmap_app, list_sum_app, length_app.
  assert (list_sum (action_work <$> sent) = 2 * length sent)%nat as ->; [|lia].
  clear -Hs. induction Hs as [|a l (c & st & ->) _ IH]; [done|].
  rewrite fmap_cons. cbn [list_sum foldr action_work length]. unfold list_sum in IH. lia.
Qed.

Lemma flush_loop_spec fuel d cap :
  (work (sd_core d) < fuel)%nat →
  ∃ d' cap' sent errs, flush_loop fuel d cap = Ok (d', cap') ∧
    sd_event_buffer d' = sd_event_buffer d ++ sw_events (sd_core d) ++ errs ∧
    flushed d d' (sw_actions (sd_core d)) sent errs.
Proof.
  revert d cap. induction fuel as [|fuel IH]; intros d cap Hf; [lia|].
  cbn [flush_loop]. pose proof (poll_output_inv (sd_core d)) as Hpi. unfold swarm_poll_output in *.
  destruct (sw_actions (sd_core d)) as [|a acts] eqn:Ea.
  - destruct (sw_events (sd_core d)) as [|e es] eqn:Ee.
    + eexists _, _, [], []. split; [done|]. split; [cbn; by rewrite app_nil_r|].
      split; cbn; auto; by split || apply rtc_refl.
    + cbv zeta. set (d1 := set_event_buffer _ _).
      destruct (IH d1 cap) as (d' & cap' & sent & errs & -> & Hb & Hfl).
      { unfold work in *. cbn. rewrite Ea, Ee in *. cbn in *. lia. }
      cbn in Hb. eexists _, _, sent, errs. split; [done|]. split.
      * rewrite Hb. by rewrite <- !app_assoc.
      * destruct Hfl. cbn in *. rewrite Ea in *. split; auto.
  - set (d1 := set_core d _).
    destruct (dispatch_spec d1 a cap) as (d2 & cap2 & sent1 & errs1 & -> & Ht & Hl & Hb & Hr & Hw & Hrep & Hck).
    cbn [mbind res_bind].
    destruct (IH d2 cap2) as (d' & cap' & sent2 & errs2 & -> & Hb' & Hfl).
    { pose proof (work_reacts _ _ _ _ Hr) as Hw'.
      assert (work (sd_core d) = action_work a + work (sd_core d1))%nat; [|lia].
      unfold work. rewrite Ea, fmap_cons. cbn. lia. }
    destruct Hr as [Ha' He' Hc' Hi' Hs' Her' H1 [Hp' Hid']]. cbn [d1 set_core sd_core set_sw_actions sw_actions sw_events ping identify conn_to_peer sd_transport sd_local_peer_id sd_event_buffer] in *.
    rewrite Ha' in Hfl.
    eexists _, _, (sent1 ++ sent2), (errs1 ++ errs2). split; [done|]. split.
    + rewrite Hb', Hb, He'. by rewrite <- !app_assoc.
    + destruct Hfl as [E1 E2 E3 E4 E5 E6 E7 E8 E9 E10 [E11 E12]]. rewrite length_app in E8. split.
      * rewrite E1, Ht, <- app_assoc. done.
      * by rewrite E2, Hl.
      * done.
      * by rewrite E4, Hc'.
      * intros Hi. by apply E5, Hi', Hpi.
      * by apply Forall_app.
      * by apply Forall_app.
      * rewrite length_app. cbn [length]. lia.
      * auto.
      * by etrans.
      * rewrite E11, E12. by split.
Qed.


Lemma flush_driver_spec d :
  ∃ d' cap sent errs, flush d = Ok (d', cap) ∧ flush_actions d = Ok d' ∧
    sd_event_buffer d' = sd_event_buffer d ++ sw_events (sd_core d) ++ errs ∧
    flushed d d' (sw_actions (sd_core d)) sent errs.
Proof.
  destruct (flush_loop_spec (S (work (sd_core d))) d None) as (d' & cap & sent & errs & E & Hb & Hf); [lia|].
  exists d', cap, sent, errs. unfold flush_actions, flush. rewrite E. done.
Qed.

Lemma poll_rest_idle fuel d events : core_idle (sd_core d) → poll_rest (S fuel) d events = Ok (d, events).
Proof.
  intros [Ha He]. cbn [poll_rest]. unfold swarm_poll_output. rewrite Ha, He. by destruct d.
Qed.

(** ** The invariant of the driver

    The core's tables are consistent and mention only connections the transport has
    reported; between calls the core has nothing left to do. *)
Record tables_ok (d : Swarm) : Prop := {
  ok_core : swarm_inv (sd_core d);
  ok_conns c : is_Some (conn_to_peer (sd_core d) !! c) → reported (sd_transport d) c;
}.
Definition driver_ok (d : Swarm) : Prop := tables_ok d ∧ core_idle (sd_core d).

Lemma flush_ok d : tables_ok d → ∃ d', flush_actions d = Ok d' ∧ driver_ok d' ∧ clock_read (sd_clock d) (sd_clock d').
Proof.
  intros [Hi Hc]. destruct (flush_driver_spec d) as (d' & cap & sent & errs & _ & E & _ & []).
  exists d'. split_and!; [done| |done]. split; [split; auto|done]. intros c. rewrite fl_conns0. auto.
Qed.

Lemma driver_ok_core d s :
  driver_ok d → swarm_inv s → core_idle s → conn_to_peer s = conn_to_peer (sd_core d) → driver_ok (set_core d s).
Proof. intros [[_ Hc] _] Hi Hid E. split; [split; cbn; [done|]|done]. by rewrite E. Qed.

Lemma driver_ok_transport {A} d (x : T * res TransportError A) :
  driver_ok d → keeps reported (sd_transport d) x → driver_ok (set_transport d x.1).
Proof. intros [[Hi Hc] Hid] [_ Hk]. split; [split; cbn; auto|done]. Qed.

(** A call into the core that fails has queued nothing. *)
Lemma ping_peer_err s p data t e :
  core_idle s → (ping_peer s p data t).2 = Err e → core_idle (ping_peer s p data t).1.
Proof.
  intros Hid. unfold ping_peer, ping_input. case_decide; [done|]. case_decide.
  - by destruct (ping_handle_input sp_le (ping s) _) as [m [| |]].
  - case_match; [done|]. unfold queue_open_protocol_stream. destruct (require_conn _ p); [|done..].
    case_match; [done|]. by destruct (take_open_token _).
Qed.
Lemma open_user_stream_err s p proto e :
  core_idle s → (open_user_stream s p proto).2 = Err e → core_idle (open_user_stream s p proto).1.
Proof.
  intros Hid. unfold open_user_stream. do 2 (case_decide; [done|]). case_match; [done|].
  unfold queue_open_protocol_stream. destruct (require_conn s p); [|done..].
  case_match; [done|]. by destruct (take_open_token s).
Qed.

Lemma call_and_flush_ok d x :
  driver_ok d → swarm_inv x.1 → conn_to_peer x.1 = conn_to_peer (sd_core d) → x.2 ≠ Panic →
  (∀ e, x.2 = Err e → core_idle x.1) →
  driver_ok (call_and_flush d x).1 ∧ (call_and_flush d x).2 ≠ Panic.
Proof.
  intros Hd Hi Hc Hp He. unfold call_and_flush. destruct (x.2) as [|e|]; [| |done].
  - destruct (flush_ok (set_core d x.1)) as (d' & -> & Hd' & _); [|done].
    split; [done|]. cbn. rewrite Hc. apply Hd.
  - split; [|done]. apply driver_ok_core; naive_solver.
Qed.

Lemma user_stream_call_ok d p st a :
  driver_ok d →
  driver_ok (call_and_flush d (user_stream_action (sd_core d) p st a)).1 ∧
  (call_and_flush d (user_stream_action (sd_core d) p st a)).2 ≠ Panic.
Proof.
  intros Hd. pose proof Hd as [[Hi _] Hid]. apply call_and_flush_ok; [done|by apply user_stream_action_inv|
    apply user_stream_action_conns|..]; unfold user_stream_action, require_user_stream_conn; by destruct (find_map _ _).
Qed.

(** ** Feeding what the transport reported *)

Lemma introduces_mentions (e : TransportEvent (P:=P)) now c : introduces (SwTransport e now) = Some c → mentions e = Some c.
Proof. by destruct e. Qed.

Lemma feed_events_ok events s up now :
  swarm_inv s → (∀ c, is_Some (conn_to_peer s !! c) → up c) → connects_first up events →
  ∃ s', feed_events s events now = Ok s' ∧ swarm_inv s' ∧
    ∀ c, is_Some (conn_to_peer s' !! c) → up c ∨ mentioned_in events c.
Proof.
  revert s up. induction events as [|e events IH]; intros s up Hi Hup Ho.
  { exists s. split_and!; [done|done|]. auto. }
  cbn [feed_events]. destruct Ho as [He Ho].
  assert (input_ok s (SwTransport e now)) as Hok.
  { destruct e; try done. intros p q _ Hq. destruct He. apply Hup. by exists q. }
  destruct (handle_input_safe s _ Hi Hok) as (s1 & E1 & Hi1). rewrite E1. cbn [mbind res_bind].
  destruct (IH s1 (λ c, mentions e = Some c ∨ up c) Hi1) as (s' & -> & Hi' & Hc'); [|done|].
  - intros c Hc. destruct (handle_input_conns s _ s1 c E1 Hc) as [?%introduces_mentions|]; auto.
  - exists s'. split_and!; [done|done|]. intros c [[Hc|Hc]|(e' & Hin & Hc)]%Hc'; [right; exists e|by left|right; exists e'].
    + split; [by left|done].
    + split; [by right|done].
Qed.

(** What is known of [poll] when the invariant holds. *)
Lemma driver_poll_ok d :
  driver_ok d →
  driver_ok (poll d).1 ∧ (poll d).2 ≠ Panic ∧ clock_read (sd_clock d) (sd_clock (poll d).1) ∧
  (∀ events, (poll d).2 = Ok events → sd_event_buffer (poll d).1 = []) ∧
  (∀ e, (poll d).2 = Err e → sd_event_buffer (poll d).1 = sd_event_buffer d).
Proof.
  intros Hd. unfold poll, driver_now. assert (clock_read (sd_clock d) (now_ms (sd_clock d)).2) as Hck by by apply rtc_once.
  destruct (now_ms (sd_clock d)) as [now clk]. cbn [snd] in Hck.
  set (d1 := set_core (set_clock d clk) _).
  assert (driver_ok d1) as Hd1.
  { destruct Hd as [[Hi Hc] Hid]. split; [split; [|done]|done]. destruct Hi. by constructor. }
  pose proof (poll_keeps (sd_transport d)) as Hk. pose proof (poll_in_order (sd_transport d)) as Ho.
  change (sd_transport d1) with (sd_transport d).
  pose proof (driver_ok_transport d1 _ Hd1 Hk) as Hd2. destruct Hk as [Hp Hk].
  destruct (t_poll (sd_transport d)) as [t [events|e|]]; cbn [fst snd] in *; [| |done].
  2: { split_and!; try done. }
  destruct (Ho events eq_refl) as [Ho1 Ho2]. set (d2 := set_transport d1 t) in *.
  unfold poll_events. destruct Hd1 as [[Hi1 Hc1] _].
  destruct (feed_events_ok events (sd_core d2) (reported (sd_transport d)) now) as (s1 & E1 & Hi' & Hc'); [done|done|done|].
  rewrite E1. cbn [mbind res_bind]. destruct (handle_input_safe s1 (SwTick now) Hi' I) as (s2 & E2 & Hi2).
  rewrite E2. cbn [mbind res_bind]. destruct (flush_ok (set_core d2 s2)) as (d3 & E3 & Hd3 & Hck3).
  { split; [done|]. cbn. intros c Hc. destruct (handle_input_conns s1 _ s2 c E2 Hc) as [[=]|Hc1'].
    apply Hc' in Hc1' as [?|?]; auto. }
  rewrite E3. cbn [mbind res_bind]. rewrite poll_rest_idle by apply Hd3. cbn [fst snd].
  split_and!; [|done| |done|done].
  - destruct Hd3 as [[? ?] ?]. by split.
  - by etrans.
Qed.


(** ** Every call *)

Lemma listen_ok d a : driver_ok d → driver_ok (listen d a).1 ∧ (listen d a).2 ≠ Panic.
Proof.
  intros Hd. unfold listen. pose proof (listen_keeps (sd_transport d) a) as Hk.
  pose proof (driver_ok_transport d _ Hd Hk). destruct Hk, (t_listen (sd_transport d) a). done.
Qed.

Lemma pa_new_no_panic (t : Multiaddr P) p : pa_new t p ≠ Panic.
Proof. unfold pa_new. case_match; [done|]. by case_decide. Qed.

Lemma listen_peer_addr_ok d a : driver_ok d → driver_ok (listen_peer_addr d a).1 ∧ (listen_peer_addr d a).2 ≠ Panic.
Proof.
  intros Hd. unfold listen_peer_addr. destruct (listen_ok d a Hd) as [Hd' Hp].
  destruct (listen d a) as [d' r]. split; [done|]. apply bind_no_panic; [done|]. intros b _.
  apply map_err_no_panic, pa_new_no_panic.
Qed.

Lemma listen_loop_ok addrs d acc : driver_ok d → driver_ok (listen_loop d addrs acc).1 ∧ (listen_loop d addrs acc).2 ≠ Panic.
Proof.
  revert d acc. induction addrs as [|a addrs IH]; intros d acc Hd; [done|]. cbn [listen_loop].
  destruct (listen_peer_addr_ok d a Hd) as [Hd' Hp]. destruct (listen_peer_addr d a) as [d' [| |]]; [|done..]. by apply IH.
Qed.

Lemma open_user_stream_call_ok d p proto :
  driver_ok d → driver_ok (driver_open_user_stream d p proto).1 ∧ (driver_open_user_stream d p proto).2 ≠ Panic.
Proof.
  intros Hd. pose proof Hd as [[Hi Hc] Hid]. unfold driver_open_user_stream.
  destruct (open_user_stream_ok (sd_core d) p proto Hi) as [Hi' Hp].
  pose proof (open_user_stream_conns (sd_core d) p proto) as Hc'.
  pose proof (open_user_stream_err (sd_core d) p proto) as He.
  destruct (open_user_stream (sd_core d) p proto) as [s r]. cbn [fst snd] in *.
  destruct r as [|e|]; [| |done]; cycle 1.
  { split; [|done]. apply driver_ok_core; auto. by eapply He. }
  destruct (flush_driver_spec (set_core d s)) as (d1 & cap & sent & errs & -> & _ & _ & []).
  destruct (flush_ok d1) as (d2 & -> & Hd2 & _); [|split; [done|apply ok_or_no_panic]].
  split; [auto|]. intros c. rewrite fl_conns0. cbn [set_core sd_core]. rewrite Hc'. auto.
Qed.

Lemma poll_next_ok fuel d deadline d' r :
  driver_ok d → poll_next fuel d deadline = Some (d', r) → driver_ok d' ∧ r ≠ Panic.
Proof.
  revert d. induction fuel as [|fuel IH]; intros d Hd; [done|]. cbn [poll_next].
  destruct (sd_event_buffer d) as [|ev rest]; [|intros [= <- <-]; by destruct Hd as [[? ?] ?]].
  destruct (driver_poll_ok d Hd) as (Hd1 & Hp & _). destruct (poll d) as [d1 [events|e|]]; cbn [fst snd] in *;
    [|by intros [= <- <-]|done].
  assert (∀ es c, driver_ok (set_clock (set_event_buffer d1 es) c)) as Hd1' by (intros; by destruct Hd1 as [[? ?] ?]).
  destruct (sd_event_buffer (set_event_buffer d1 _)); [|intros [= <- <-]; by destruct Hd1 as [[? ?] ?]].
  destruct (instant_now _) as [now c]. destruct (deadline <=? now).
  - intros [= <- <-]. by split.
  - apply IH, Hd1'.
Qed.

Lemma run_until_ok fuel d deadline predicate d' r :
  driver_ok d → run_until fuel d deadline predicate = Some (d', r) → driver_ok d' ∧ r ≠ Panic.
Proof.
  revert d. induction fuel as [|fuel IH]; intros d Hd; [done|]. cbn [run_until].
  destruct (poll_next (S fuel) d deadline) as [[d1 r1]|] eqn:E; [|done].
  apply poll_next_ok in E as [Hd1 Hr1]; [|done].
  destruct r1 as [[ev|]|e|]; [|by intros [= <- <-]..]. case_match; [by intros [= <- <-]|by apply IH].
Qed.

(** What an application can call.  [transport_mut], which hands out the transport itself,
    is left to the transport's own theorems; the getters change nothing.  The two calls
    that wait are looked at after [fuel] iterations. *)
Inductive DriverCall : Type :=
  | CallListen (addr : Multiaddr P)
  | CallListenOnBoundAddrs
  | CallListenOnBoundAddr
  | CallDial (addr : PeerAddr P)
  | CallOnDialed (id : ConnectionId)
  | CallAddUserProtocol (protocol_id : string)
  | CallPing (peer_id : P) (payload : list byte)
  | CallDisconnect (peer_id : P)
  | CallOpenUserStream (peer_id : P) (protocol_id : string)
  | CallSendUserStream (peer_id : P) (stream_id : StreamId) (data : list byte)
  | CallCloseUserStreamWrite (peer_id : P) (stream_id : StreamId)
  | CallResetUserStream (peer_id : P) (stream_id : StreamId)
  | CallPoll
  | CallPollNext (fuel : nat) (deadline : Z)
  | CallRunUntil (fuel : nat) (deadline : Z) (predicate : SwarmEvent (P:=P) → bool).

(** The calls that may still be waiting. *)
Definition waits (x : DriverCall) : Prop :=
  match x with CallPollNext _ _ | CallRunUntil _ _ _ => True | _ => False end.

(** The new driver, and whether the call returned rather than unwound; [None] if it is
    still waiting. *)
Definition call (d : Swarm) (x : DriverCall) : option (Swarm * bool) :=
  let returned {A} (y : Swarm * res TransportError A) := (y.1, negb (is_panic y.2)) in
  match x with
  | CallListen addr => Some (returned (listen d addr))
  | CallListenOnBoundAddrs => Some (returned (listen_on_bound_addrs d))
  | CallListenOnBoundAddr => Some (returned (listen_on_bound_addr d))
  | CallDial addr => Some (returned (dial d addr))
  | CallOnDialed id => Some (driver_on_dialed d id, true)
  | CallAddUserProtocol protocol_id => Some (driver_add_user_protocol d protocol_id, true)
  | CallPing peer_id payload => Some (returned (driver_ping d peer_id payload))
  | CallDisconnect peer_id => Some (returned (driver_disconnect d peer_id))
  | CallOpenUserStream peer_id protocol_id => Some (returned (driver_open_user_stream d peer_id protocol_id))
  | CallSendUserStream peer_id stream_id data => Some (returned (driver_send_user_stream d peer_id stream_id data))
  | CallCloseUserStreamWrite peer_id stream_id => Some (returned (driver_close_user_stream_write d peer_id stream_id))
  | CallResetUserStream peer_id stream_id => Some (returned (driver_reset_user_stream d peer_id stream_id))
  | CallPoll => Some (returned (poll d))
  | CallPollNext fuel deadline => returned <$> poll_next fuel d deadline
  | CallRunUntil fuel deadline predicate => returned <$> run_until fuel d deadline predicate
  end.

(** The call left a good driver behind, or is still waiting. *)
Definition call_fine (x : DriverCall) (o : option (Swarm * bool)) : Prop :=
  match o with Some (d', returned) => driver_ok d' ∧ returned = true | None => waits x end.

Lemma call_ok d x : driver_ok d → call_fine x (call d x).
Proof.
  intros Hd. assert (∀ {A} (y : Swarm * res TransportError A),
    driver_ok y.1 ∧ y.2 ≠ Panic → call_fine x (Some (y.1, negb (is_panic y.2)))) as H.
  { intros A [d' []] [? ?]; done. }
  destruct x; cbn [call]; try (apply H; cbn [fst snd]).
  - by apply listen_ok.
  - unfold listen_on_bound_addrs. case_decide; [done|by apply listen_loop_ok].
  - unfold listen_on_bound_addr. case_match; [by apply listen_peer_addr_ok|done].
  - unfold dial. pose proof (dial_keeps (sd_transport d) addr) as Hk.
    pose proof (driver_ok_transport d _ Hd Hk). destruct Hk, (t_dial (sd_transport d) addr). done.
  - done.
  - split; [|done]. pose proof Hd as [[Hi _] [Ha He]]. apply driver_ok_core; [done| | |apply add_protocol_conns].
    + destruct Hi. unfold add_user_protocol. repeat case_decide; constructor; cbn; auto; unfold add_protocol; by case_decide.
    + unfold add_user_protocol. by repeat case_decide.
  - unfold driver_ping, driver_now. destruct (now_ms (sd_clock d)) as [now clk].
    assert (driver_ok (set_clock d clk)) as Hd' by (destruct Hd as [[? ?] ?]; by split).
    pose proof Hd as [[Hi _] Hid]. destruct (ping_peer_ok (sd_core d) peer_id payload now Hi).
    apply call_and_flush_ok; try done; [apply ping_peer_conns|]. intros e. by apply ping_peer_err.
  - pose proof Hd as [[Hi _] Hid]. apply call_and_flush_ok; [done|by apply disconnect_inv|apply disconnect_conns|..];
      unfold disconnect, require_conn; by destruct (peer_to_conn (sd_core d) !! peer_id).
  - by apply open_user_stream_call_ok.
  - by apply user_stream_call_ok.
  - by apply user_stream_call_ok.
  - by apply user_stream_call_ok.
  - split; by apply driver_poll_ok.
  - destruct (poll_next fuel d deadline) as [[d' r]|] eqn:E; [|done]. apply (H _ (d', r)). by eapply poll_next_ok.
  - destruct (run_until fuel d deadline predicate) as [[d' r]|] eqn:E; [|done].
    apply (H _ (d', r)). by eapply run_until_ok.
Qed.

(** One call after the other; after one that has not returned there is no next one. *)
Fixpoint run_calls (d : Swarm) (calls : list DriverCall) : Swarm :=
  match calls with
  | [] => d
  | x :: calls => match call d x with Some (d', true) => run_calls d' calls | _ => d end
  end.

Lemma run_calls_ok calls d : driver_ok d → driver_ok (run_calls d calls).
Proof.
  revert d. induction calls as [|x calls IH]; intros d Hd; [done|]. cbn [run_calls].
  pose proof (call_ok d x Hd) as Hx. destruct (call d x) as [[d' []]|]; [|done..]. apply IH, Hx.
Qed.

Lemma with_clock_ok t idc pgc p clk : driver_ok (with_clock t idc pgc p clk).
Proof.
  split; [split|done]; cbn; [apply swarm_new_inv|]. intros c. rewrite lookup_empty. by intros [? [=]].
Qed.


(** ** Opening a stream *)

Lemma flush_idle d : core_idle (sd_core d) → flush d = Ok (d, None).
Proof.
  intros [Ha He]. unfold flush. cbn [flush_loop]. unfold swarm_poll_output. rewrite Ha, He. by destruct d.
Qed.

(** Whether the swarm lets the application open a stream. *)
Definition may_open (s : SwarmCore (P:=P)) (p : P) (proto : string) (c : ConnectionId) : Prop :=
  proto ∈ user_protocols s ∧ peer_to_conn s !! p = Some c ∧
  (p ∈ ready_peers s → ∃ info, peer_info s !! p = Some info ∧ proto ∈ IdentifyMessage.protocols info).

Lemma may_open_dec s p proto :
  swarm_inv s →
  (∃ c, may_open s p proto c ∧ open_user_stream s p proto = (opened s c proto (KindUser proto), Ok ())) ∨
  ((∀ c, ¬ may_open s p proto c) ∧ ∃ e, open_user_stream s p proto = (s, Err e)).
Proof.
  intros Hi. unfold open_user_stream, may_open. case_decide as Hu; [right; split; [naive_solver|by eexists]|].
  destruct (peer_to_conn s !! p) as [c|] eqn:Hp; [|right; rewrite decide_True by done; split; [naive_solver|by eexists]].
  rewrite decide_False by done. destruct (bool_decide (p ∈ ready_peers s)) eqn:Hr; cbn [andb].
  - apply bool_decide_eq_true in Hr. destruct (peer_info s !! p) as [info|] eqn:Hinfo; cbn [from_option].
    + destruct (bool_decide (proto ∈ IdentifyMessage.protocols info)) eqn:Hpr; cbn [negb].
      * left. exists c. rewrite queue_open_spec with (c := c) by done. split; [|done].
        apply bool_decide_eq_true in Hpr. split_and!; [done|done|]. by eexists.
      * right. split; [|by eexists]. intros c' (_ & _ & H). destruct (H Hr) as (i & [= <-] & Hin).
        apply bool_decide_eq_false in Hpr. done.
    + right. split; [|by eexists]. intros c' (_ & _ & H). destruct (H Hr) as (i & [=] & _).
  - left. exists c. rewrite queue_open_spec with (c := c) by done. split; [|done].
    apply bool_decide_eq_false in Hr. done.
Qed.

(** The state of the negotiation that opening the stream started. *)
Definition dialing (proto : string) : PendingOutbound :=
  {| negotiator := set_started (dialer proto) true; target := KindUser proto |}.

Lemma flush_action fuel d cap a rest :
  sw_actions (sd_core d) = a :: rest →
  flush_loop (S fuel) d cap =
    ('(d', cap') ← dispatch_action (set_core d (set_sw_actions (sd_core d) rest)) a cap; flush_loop fuel d' cap').
Proof. intros Ha. cbn [flush_loop]. unfold swarm_poll_output. by rewrite Ha. Qed.

(** After the last action, the events are moved to the buffer. *)
Lemma flush_events fuel d cap :
  sw_actions (sd_core d) = [] → (length (sw_events (sd_core d)) < fuel)%nat →
  flush_loop fuel d cap =
    Ok (set_event_buffer (set_core d (set_sw_events (sd_core d) [])) (sd_event_buffer d ++ sw_events (sd_core d)), cap).
Proof.
  revert d. induction fuel as [|fuel IH]; intros d Ha Hf; [lia|]. cbn [flush_loop]. unfold swarm_poll_output. rewrite Ha.
  destruct (sw_events (sd_core d)) as [|e es] eqn:He.
  - rewrite app_nil_r. destruct d as [t s ? ? ?]. cbn in *. destruct s. cbn in *. by subst.
  - rewrite IH; [|done|cbn in *; lia]. cbn. by rewrite <- app_assoc.
Qed.

Lemma open_flush d c proto t1 sid :
  core_idle (sd_core d) → t_open_stream (sd_transport d) c = (t1, Ok sid) →
  ∃ d', flush (set_core d (opened (sd_core d) c proto (KindUser proto))) = Ok (d', Some sid) ∧
    sd_transport d' = (t_send_stream t1 c sid header).1 ∧ core_idle (sd_core d') ∧
    outbound_negotiators (sd_core d') = <[(c, sid) := dialing proto]> (outbound_negotiators (sd_core d)) ∧
    ((t_send_stream t1 c sid header).2 = Ok () → sd_event_buffer d' = sd_event_buffer d).
Proof.
  intros [Ha He] Hop. unfold flush. set (d0 := set_core d _).
  assert (sw_actions (sd_core d0) = [OpenStream c (fresh_token (sd_core d))]) as Ha0 by (cbn; by rewrite Ha).
  assert (sw_events (sd_core d0) = []) as He0 by done.
  unfold work. rewrite Ha0, He0. cbn [fmap list_fmap list_sum foldr action_work length Nat.add].
  erewrite flush_action by exact Ha0. unfold dispatch_action, driver_now, feed_core.
  cbn [set_core sd_transport d0 sd_clock set_transport]. rewrite Hop. destruct (now_ms (sd_clock d)) as [now clk].
  cbn [set_clock sd_core swarm_handle_input].
  rewrite (stream_opened_found _ c sid _ _ {| open_conn_id := c; open_protocol := proto; open_target := KindUser proto |})
    by first [done|by cbn; rewrite lookup_insert_eq].
  cbn [fmap res_fmap mbind res_bind]. erewrite flush_action by (cbn; done).
  cbn [dispatch_action]. pose proof (send_stream_keeps t1 c sid header) as [Hp _].
  unfold report. cbn [set_core set_clock set_transport sd_transport]. destruct (t_send_stream t1 c sid header) as [t2 [[]|e|]]; [| |done];
    cbn [fst snd feed_core swarm_handle_input fmap res_fmap mbind res_bind] in *; rewrite flush_events by (cbn; rewrite ?He; cbn; first [done|lia]);
    cbn [fmap res_fmap]; eexists; (split; [done|]); cbn; rewrite ?He, ?app_nil_r; split_and!; done.
Qed.

Lemma open_failed_found (s : SwarmCore (P:=P)) tok o reason t :
  pending_opens s !! tok = Some o →
  ∃ err, err_kind err = KOpenStreamFailed ∧
    handle_open_stream_failed s tok reason t
      = emit (set_pending_opens s (delete tok (pending_opens s))) (SwarmErrorEvent err).
Proof. intros Ho. unfold handle_open_stream_failed. rewrite Ho. eexists. split; [|reflexivity]. done. Qed.

Lemma failed_flush d c proto t1 e :
  core_idle (sd_core d) → t_open_stream (sd_transport d) c = (t1, Err e) →
  ∃ d' err, flush (set_core d (opened (sd_core d) c proto (KindUser proto))) = Ok (d', None) ∧
    sd_transport d' = t1 ∧ core_idle (sd_core d') ∧
    outbound_negotiators (sd_core d') = outbound_negotiators (sd_core d) ∧
    err_kind err = KOpenStreamFailed ∧ sd_event_buffer d' = sd_event_buffer d ++ [SwarmErrorEvent err].
Proof.
  intros [Ha He] Hop. unfold flush. set (d0 := set_core d _).
  assert (sw_actions (sd_core d0) = [OpenStream c (fresh_token (sd_core d))]) as Ha0 by (cbn; by rewrite Ha).
  assert (sw_events (sd_core d0) = []) as He0 by done.
  unfold work. rewrite Ha0, He0. cbn [fmap list_fmap list_sum foldr action_work length Nat.add].
  erewrite flush_action by exact Ha0. unfold dispatch_action, driver_now, feed_core.
  cbn [set_core sd_transport d0 sd_clock set_transport]. rewrite Hop. destruct (now_ms (sd_clock d)) as [now clk].
  cbn [set_clock sd_core swarm_handle_input]. 
  edestruct open_failed_found as (err & Hk & ->); [by cbn; rewrite lookup_insert_eq|]. cbn [fmap res_fmap mbind res_bind].
  rewrite flush_events by (cbn; rewrite ?He; cbn; first [done|lia]). cbn [fmap res_fmap].
  eexists _, err. split; [done|]. cbn. rewrite He. by split_and!.
Qed.

(** ** Properties *)


(** C5. Whatever the application calls, in whatever order, over any transport that keeps
    the contract of the trait, the calls that wait ([poll_next] and [run_until])
    included: no call unwinds, and every call other than those two returns.  After each
    call that returns, the core has no action or event left that was not executed or
    handed on; each peer's primary connection belongs to that peer and is one the
    transport has reported as connected or delivered data of.  The contract is that the
    transport's methods do not unwind, and that it does not report a connection as
    connected twice or after data of it.  (When the two waiting calls return is the subject of
    theorems of their own: [run_until] need not, while the transport has events.) *)
Theorem driver_safe t idc pgc p clk calls :
  let d := run_calls (with_clock t idc pgc p clk) calls in
  swarm_is_idle (sd_core d) = true ∧
  (∀ q c, peer_to_conn (sd_core d) !! q = Some c →
     conn_to_peer (sd_core d) !! c = Some q ∧ reported (sd_transport d) c) ∧
  ∀ x, match call d x with
       | Some (d', returned) => returned = true ∧ swarm_is_idle (sd_core d') = true
       | None => waits x
       end.
Proof.
  cbv zeta. set (d := run_calls _ _). assert (driver_ok d) as Hd by apply run_calls_ok, with_clock_ok.
  assert (∀ d', driver_ok d' → swarm_is_idle (sd_core d') = true) as Hidle.
  { intros d' [_ [Ha He]]. unfold swarm_is_idle. by rewrite Ha, He. }
  pose proof Hd as [[Hi Hc] _]. split_and!.
  - by apply Hidle.
  - intros q c Hq%(inv_primary _ Hi). split; [done|]. apply Hc. by exists q.
  - intros x. pose proof (call_ok d x Hd) as Hx. destruct (call d x) as [[d' returned]|]; [|done].
    destruct Hx as [Hd' ->]. split; [done|by apply Hidle].
Qed.

(** C14. [open_user_stream] answers with the stream of its own request.  When the swarm
    lets the application open the protocol towards the peer and the transport opens a
    stream, that stream id is returned, its negotiation for exactly this protocol is
    under way and its first message sent; when the transport fails, the caller gets an
    error and the failure is reported as an event; and when the swarm refuses, nothing
    is changed. *)
Theorem driver_opens_user_stream t idc pgc local clk calls p proto :
  let d := run_calls (with_clock t idc pgc local clk) calls in
  (∀ c t1 sid, may_open (sd_core d) p proto c → t_open_stream (sd_transport d) c = (t1, Ok sid) →
     ∃ d', driver_open_user_stream d p proto = (d', Ok sid) ∧
       sd_transport d' = (t_send_stream t1 c sid header).1 ∧
       outbound_negotiators (sd_core d') = <[(c, sid) := dialing proto]> (outbound_negotiators (sd_core d)) ∧
       ((t_send_stream t1 c sid header).2 = Ok () → sd_event_buffer d' = sd_event_buffer d)) ∧
  (∀ c t1 e, may_open (sd_core d) p proto c → t_open_stream (sd_transport d) c = (t1, Err e) →
     ∃ d' err, driver_open_user_stream d p proto = (d', Err not_allocated) ∧ sd_transport d' = t1 ∧
       outbound_negotiators (sd_core d') = outbound_negotiators (sd_core d) ∧
       err_kind err = KOpenStreamFailed ∧ sd_event_buffer d' = sd_event_buffer d ++ [SwarmErrorEvent err]) ∧
  ((∀ c, ¬ may_open (sd_core d) p proto c) → ∃ e, driver_open_user_stream d p proto = (d, Err e)).
Proof.
  cbv zeta. set (d := run_calls _ _). assert (driver_ok d) as [[Hi Hc] Hid] by apply run_calls_ok, with_clock_ok.
  clearbody d. unfold driver_open_user_stream, flush_actions.
  destruct (may_open_dec (sd_core d) p proto Hi) as [(c & Hm & ->)|(Hno & e & ->)]; cycle 1.
  { split_and!; [naive_solver..|]. intros _. eexists. by destruct d. }
  assert (∀ c', may_open (sd_core d) p proto c' → c' = c) as Heq.
  { intros c' (_ & H1 & _). destruct Hm as (_ & H2 & _). congruence. }
  split_and!.
  - intros c' t1 sid ->%Heq Hop. destruct (open_flush d c proto t1 sid Hid Hop) as (d' & -> & Ht & Hid' & Ho & Hb).
    rewrite flush_idle by done. by exists d'.
  - intros c' t1 e ->%Heq Hop. destruct (failed_flush d c proto t1 e Hid Hop) as (d' & err & -> & Ht & Hid' & Ho & Hk & Hb).
    rewrite flush_idle by done. by exists d', err.
  - intros Hno. by destruct (Hno c).
Qed.


(** ** Waiting for an event *)

Lemma poll_next_more fuel d deadline x : poll_next fuel d deadline = Some x → poll_next (S fuel) d deadline = Some x.
Proof.
  revert d. induction fuel as [|fuel IH]; intros d; [done|]. intros E. cbn [poll_next] in E. remember (S fuel) as f.
  cbn [poll_next]. destruct (sd_event_buffer d); [|done]. destruct (poll d) as [d1 [events|e|]]; [|done..].
  destruct (sd_event_buffer (set_event_buffer d1 _)); [|done]. destruct (instant_now _) as [now c].
  destruct (deadline <=? now); [done|]. subst f. by apply IH.
Qed.

Lemma poll_next_more_le n fuel d deadline x :
  (n <= fuel)%nat → poll_next n d deadline = Some x → poll_next fuel d deadline = Some x.
Proof. induction 1; [done|]. intros. by apply poll_next_more, IHle. Qed.

Context `{TL : !TimeLaws C}.

Lemma clock_read_elapsed c c' : clock_read c c' → elapsed c <= elapsed c'.
Proof.
  induction 1 as [|c1 c2 c3 -> _ IH]; [lia|]. pose proof (now_ms_elapsed c1). lia.
Qed.

(** One round of waiting: nothing was buffered, the poll brought nothing, and the
    deadline had not passed. *)
Definition waited (deadline : Z) (d d' : Swarm) : Prop :=
  sd_event_buffer d = [] ∧ ∃ d1, poll d = (d1, Ok []) ∧
    (instant_now (sd_clock d1)).1 < deadline ∧ d' = set_clock d1 (sleep (instant_now (sd_clock d1)).2).

(** The poll that ends the waiting. *)
Definition last_poll (deadline : Z) (d0 d' : Swarm) (r : res TransportError (option (SwarmEvent (P:=P)))) : Prop :=
  match poll d0, r with
  | (d1, Ok (ev :: rest)), Ok (Some ev') => ev' = ev ∧ d' = set_event_buffer d1 rest
  | (d1, Ok []), Ok None =>
      d' = set_clock d1 (instant_now (sd_clock d1)).2 ∧ deadline <= elapsed (sd_clock d') ∧ sd_event_buffer d' = []
  | (d1, Err e), Err e' => e' = e ∧ d' = d1
  | _, _ => False
  end.

(** What a call that waits for an event answers: the oldest buffered event, if there is
    one; otherwise, after rounds that brought nothing, the outcome of the last poll. *)
Definition next_answer (d : Swarm) (deadline : Z) (d' : Swarm) (r : res TransportError (option (SwarmEvent (P:=P)))) : Prop :=
  (∃ ev rest, sd_event_buffer d = ev :: rest ∧ d' = set_event_buffer d rest ∧ r = Ok (Some ev)) ∨
  (∃ d0, rtc (waited deadline) d d0 ∧ sd_event_buffer d0 = [] ∧ last_poll deadline d0 d' r).

Lemma next_answer_waited d deadline d1 d' r :
  waited deadline d d1 → sd_event_buffer d1 = [] → next_answer d1 deadline d' r → next_answer d deadline d' r.
Proof.
  intros Hw Hb [(ev & rest & Hb' & _)|(d0 & Hr & H)]; [congruence|]. right. exists d0. split; [by eapply rtc_l|done].
Qed.

(** The answers, without the rounds before them. *)
Lemma next_answer_cases d deadline d' r :
  next_answer d deadline d' r →
  match r with
  | Ok None => sd_event_buffer d' = [] ∧ deadline <= elapsed (sd_clock d')
  | Panic => False
  | _ => True
  end.
Proof.
  intros [(ev & rest & _ & _ & ->)|(d0 & _ & _ & H)]; [done|]. unfold last_poll in H.
  destruct (poll d0) as [d1 [[|ev rest]|e|]]; destruct r as [[]| |]; try done. by destruct H as (_ & ? & ?).
Qed.

Lemma poll_next_returns fuel d deadline :
  driver_ok d → 0 < Z.of_nat fuel → deadline - elapsed (sd_clock d) < Z.of_nat fuel →
  ∃ d' r, poll_next fuel d deadline = Some (d', r) ∧ driver_ok d' ∧ next_answer d deadline d' r.
Proof.
  revert d. induction fuel as [|fuel IH]; intros d Hd H0 Hf; [lia|]. cbn [poll_next].
  destruct (sd_event_buffer d) as [|ev rest] eqn:Eb; cycle 1.
  { eexists _, _. split_and!; [done|by destruct Hd as [[? ?] ?]|]. left. by exists ev, rest. }
  destruct (driver_poll_ok d Hd) as (Hd1 & Hp & Hck & Hb & _). apply clock_read_elapsed in Hck.
  assert (∀ d' r, last_poll deadline d d' r → next_answer d deadline d' r) as Hnow by (intros; right; by exists d).
  unfold last_poll in Hnow.
  destruct (poll d) as [d1 [events|e|]] eqn:E; cbn [fst snd] in *; [| |done]; cycle 1.
  { eexists _, _. split_and!; [done|done|by apply Hnow]. }
  cbn [set_event_buffer sd_event_buffer]. specialize (Hb events eq_refl). rewrite Hb. cbn [app].
  destruct events as [|ev rest]; cycle 1.
  { eexists _, _. split_and!; [done|by destruct Hd1 as [[? ?] ?]|by apply Hnow]. }
  assert (∀ c, set_clock (set_event_buffer d1 []) c = set_clock d1 c) as Hset by (intros; destruct d1; cbn in *; by subst).
  change (sd_clock (set_event_buffer d1 [])) with (sd_clock d1). destruct (instant_now_elapsed (sd_clock d1)) as [Hi1 Hi2].
  assert (waited deadline d (set_clock d1 (sleep (instant_now (sd_clock d1)).2)) ∨
    deadline <= (instant_now (sd_clock d1)).1) as Hw.
  { destruct (Z.le_gt_cases deadline (instant_now (sd_clock d1)).1) as [|Hlt]; [by right|left]. split; [done|]. by exists d1. }
  destruct (instant_now (sd_clock d1)) as [now c] eqn:Ec. cbn [fst snd] in *. rewrite !Hset.
  destruct (Z.leb_spec deadline now) as [Hle|Hlt].
  { eexists _, _. split_and!; [done|by destruct Hd1 as [[? ?] ?]|]. apply Hnow. split_and!; [done|cbn; lia|done]. }
  destruct Hw as [Hw|?]; [|lia]. pose proof (sleep_elapsed c) as Hs. unfold POLL_IDLE_SLEEP in Hs.
  destruct (IH (set_clock d1 (sleep c))) as (d' & r & E' & Hd' & Ha); [by destruct Hd1 as [[? ?] ?]|lia|cbn; lia|].
  exists d', r. split_and!; [exact E'|done|]. by eapply next_answer_waited.
Qed.

(** C18. [poll_next] returns: at the latest one iteration per millisecond until the
    deadline, and the answer does not depend on when the loop is looked at.  No event is
    lost: if an event is buffered, the answer is the oldest one and the others stay; if
    not, the driver is polled, one poll after the other, each from the state the one
    before left, as long as the polls bring nothing and the deadline has not passed, and
    the last poll decides.  Its first event is the answer and all the others are
    buffered, in order; or its error is the answer; or it brought nothing, and the
    deadline has passed. *)
Theorem driver_poll_next t idc pgc p clk calls deadline :
  let d := run_calls (with_clock t idc pgc p clk) calls in
  ∃ d' r, (∀ fuel, deadline - elapsed (sd_clock d) < Z.of_nat fuel → (1 <= fuel)%nat →
             poll_next fuel d deadline = Some (d', r)) ∧
    next_answer d deadline d' r ∧ swarm_is_idle (sd_core d') = true.
Proof.
  cbv zeta. set (d := run_calls _ _). assert (driver_ok d) as Hd by apply run_calls_ok, with_clock_ok.
  clearbody d. set (n := Z.to_nat (Z.max 1 (deadline - elapsed (sd_clock d) + 1))).
  destruct (poll_next_returns n d deadline Hd) as (d' & r & E & Hd' & Ha); [lia..|].
  exists d', r. split_and!; [|done|].
  - intros fuel Hf H1. apply (poll_next_more_le n); [lia|done].
  - destruct Hd' as [_ [Ha' He']]. unfold swarm_is_idle. by rewrite Ha', He'.
Qed.

Lemma run_until_answer fuel d deadline predicate d' ev :
  run_until fuel d deadline predicate = Some (d', Ok (Some ev)) → predicate ev = true.
Proof.
  revert d. induction fuel as [|fuel IH]; intros d; [done|]. cbn [run_until].
  destruct (poll_next (S fuel) d deadline) as [[d1 [[ev'|]|e|]]|]; try done.
  destruct (predicate ev') eqn:E; [by intros [= <- <-]|apply IH].
Qed.


(** ** Announcing the local addresses *)

Lemma listen_loop_resolved addrs d acc l :
  (listen_loop d addrs acc).2 = Ok l →
  ∃ l', l = acc ++ l' ∧ length l' = length addrs ∧
    Forall (λ a, peer_addr_ok a ∧ pa_peer_id a = sd_local_peer_id d) l'.
Proof.
  revert d acc. induction addrs as [|a addrs IH]; intros d acc; cbn [listen_loop].
  { intros [= <-]. exists []. by rewrite app_nil_r. }
  unfold listen_peer_addr, listen. destruct (t_listen (sd_transport d) a) as [t [b|e|]]; cbn [mbind res_bind]; [|done..].
  unfold local_peer_addr. destruct (pa_new b _) as [pa|e|] eqn:Ep; cbn [map_err]; [|done..].
  intros (l' & -> & Hl & Hf)%IH. exists (pa :: l'). rewrite <- app_assoc. split_and!; [done|cbn; lia|].
  constructor; [|done]. by apply pa_new_ok in Ep as (? & _ & ?).
Qed.

End driver.

#[global] Arguments Swarm P {SP} T C.

(** ** Concrete runs *)

#[local] Abbreviation Pid := (PeerId PlainMultihash).

(** A transport that reports one connection, the first time it is polled, and numbers
    the streams opened on it. *)
Record OneConn : Type := { oc_polled : bool; oc_next : StreamId; oc_sent : list (StreamId * list byte) }.

#[export] Instance OneConn_transport : Transport OneConn Pid := {
  t_dial t a := (t, Err (DialFailed 0 EmptyString));
  t_listen t a := (t, Ok a);
  t_open_stream t c :=
    ({| oc_polled := oc_polled t; oc_next := oc_next t + 4; oc_sent := oc_sent t |}, Ok (oc_next t));
  t_send_stream t c st d :=
    ({| oc_polled := oc_polled t; oc_next := oc_next t; oc_sent := oc_sent t ++ [(st, d)] |}, Ok ());
  t_close_stream_write t c st := (t, Ok ());
  t_reset_stream t c st := (t, Ok ());
  t_close t c := (t, Err (ConnectionNotFound c));
  t_poll t :=
    ({| oc_polled := true; oc_next := oc_next t; oc_sent := oc_sent t |},
     Ok (if oc_polled t then [] else [TConnected 1 demo_endpoint]));
  t_local_addresses t := [demo_addr];
}.
#[export, refine] Instance OneConn_contract : TransportContract OneConn Pid := {
  reported t c := oc_polled t = true ∧ c = 1;
}.
Proof.
  all: intros; try (split; [done|]; by cbn; auto).
  - split; [done|]. cbn. intros c [_ ->]. done.
  - cbn in *. destruct (oc_polled t) eqn:E; simplify_eq; cbn; rewrite ?E.
    + split; [done|]. by intros c (e & []%elem_of_nil & _).
    + split; [split; [by intros [? _]|done]|]. intros c (e & ->%list_elem_of_singleton & [= <-]). done.
Qed.

(** Milliseconds; only sleeping takes time. *)
#[export] Instance Z_time : Time Z := {
  now_ms c := (c, c); instant_now c := (c, c); sleep c := c + 1;
}.
#[export, refine] Instance Z_time_laws : TimeLaws Z := { elapsed c := c }.
Proof. all: intros; cbn; unfold POLL_IDLE_SLEEP; lia. Defined.

Definition demo_calls : list (DriverCall (P:=Pid)) := [CallAddUserProtocol "/chat/1.0.0"%string; CallPoll].
Definition demo_fresh : Swarm Pid OneConn Z :=
  with_clock {| oc_polled := false; oc_next := 0; oc_sent := [] |} demo_config PingConfig_default demo_pid 0.
Definition demo_driver : Swarm Pid OneConn Z := run_calls demo_fresh demo_calls.


Lemma driver_safe_witness :
  swarm_is_idle (sd_core demo_driver) = true ∧
  match call demo_driver (CallPing demo_pid (replicate 32 x07)) with
  | Some (d', returned) => returned = true ∧ swarm_is_idle (sd_core d') = true
  | None => False
  end.
Proof.
  destruct (driver_safe {| oc_polled := false; oc_next := 0; oc_sent := [] |} demo_config PingConfig_default
    demo_pid 0 demo_calls) as (H1 & _ & H2). split; [exact H1|].
  exact (H2 (CallPing demo_pid (replicate 32 x07))).
Defined.

(** The connection brought an identify stream, so the new stream is number 4. *)
Lemma driver_opens_user_stream_witness :
  ∃ d', driver_open_user_stream demo_driver demo_pid "/chat/1.0.0"%string = (d', Ok 4).
Proof.
  destruct (driver_opens_user_stream {| oc_polled := false; oc_next := 0; oc_sent := [] |} demo_config
    PingConfig_default demo_pid 0 demo_calls demo_pid "/chat/1.0.0"%string) as [H _].
  destruct (H 1 (t_open_stream (sd_transport demo_driver) 1).1 4) as (d' & E & _).
  - split_and!; [by vm_compute; left|by vm_compute|]. 
    assert (bool_decide (demo_pid ∈ ready_peers (sd_core demo_driver)) = false) as E by by vm_compute.
    apply bool_decide_eq_false in E. intros Hr. exact (False_ind _ (E Hr)).
  - by vm_compute.
  - exists d'. exact E.
Defined.

Lemma driver_poll_next_witness :
  ∃ d' r, (∀ fuel, (10 <= fuel)%nat → poll_next fuel demo_fresh 9 = Some (d', r)) ∧ next_answer demo_fresh 9 d' r.
Proof.
  destruct (driver_poll_next {| oc_polled := false; oc_next := 0; oc_sent := [] |} demo_config
    PingConfig_default demo_pid 0 [] 9) as (d' & r & H & Ha & _).
  exists d', r. split; [|exact Ha]. intros fuel Hf. apply H; [cbn; lia|lia].
Defined.

(** A transport that always has something to say. *)
Definition Chatty : Type := unit.
#[export] Instance Chatty_transport : Transport Chatty Pid := {
  t_dial t a := (t, Err NotListening);
  t_listen t a := (t, Err NotListening);
  t_open_stream t c := (t, Err (ConnectionNotFound c));
  t_send_stream t c st d := (t, Err (ConnectionNotFound c));
  t_close_stream_write t c st := (t, Err (ConnectionNotFound c));
  t_reset_stream t c st := (t, Err (ConnectionNotFound c));
  t_close t c := (t, Err (ConnectionNotFound c));
  t_poll t := (t, Ok [TError 1 "noise"%string]);
  t_local_addresses t := [];
}.

Definition chatty : Swarm Pid Chatty Z := with_clock () demo_config PingConfig_default demo_pid 1000.
Definition noise : SwarmEvent (P:=Pid) :=
  SwarmErrorEvent {| err_kind := KTransport; err_peer_id := None; err_conn_id := Some 1;
                     err_detail := "transport error on connection 1: noise"%string |}.
Lemma chatty_poll : poll chatty = (chatty, Ok [noise]).
Proof. reflexivity. Qed.

(** [run_until] looks at the deadline only when a poll brings no event: while there are
    events it keeps going, however late it is, if the predicate accepts none. *)
Example run_until_ignores_deadline fuel : run_until fuel chatty 0 (λ _, false) = None.
Proof.
  induction fuel as [|fuel IH]; [done|]. cbn [run_until poll_next].
  change (sd_event_buffer chatty) with (@nil (SwarmEvent (P:=Pid))). rewrite chatty_poll. exact IH.
Qed.

(** The fallback payload depends on the low fifteen bits of the clock only: it repeats
    every 32768 nanoseconds, where the comment says it does not repeat. *)
Example fallback_payload_repeats seed :
  0 <= seed < u64_mod - 32768 →
  rand_ping_payload None (Some seed) = rand_ping_payload None (Some (seed + 32768)).
Proof.
  intros Hs. unfold rand_ping_payload. cbn [from_option]. apply imap_ext. intros i b _. do 3 f_equal.
  unfold Z_byte. do 3 f_equal. unfold wrap_u64. rewrite !(Z.mod_small _ u64_mod) by lia.
  rewrite !Z.shiftr_div_pow2 by (apply Z.mod_pos_bound; lia).
  assert (0 <= Z.of_nat i mod 8 < 8) as Hk by (apply Z.mod_pos_bound; lia).
  set (k := Z.of_nat i mod 8) in *.
  replace 32768 with (2 ^ (15 - k) * 2 ^ k) by (rewrite <- Z.pow_add_r by lia; by replace (15 - k + k) with 15 by lia).
  rewrite Z.div_add by lia. replace (2 ^ (15 - k)) with (2 ^ (7 - k) * 256).
  - by rewrite Z.mod_add by done.
  - change 256 with (2 ^ 8). rewrite <- Z.pow_add_r by lia. f_equal. lia.
Qed.
