(* ===== verification/Silence.v ===== *)
(** * Waiting ends when the network falls silent

    [run_until] of the driver looks at its deadline only when a poll brings no event, so
    peers that always have something to say keep it busy for ever.  Here: if the
    transport brings events in only finitely many more polls, waiting ends by the
    deadline.  The swarm itself says only so much: each in-flight ping can time out once,
    and what its machines have queued comes out once. *)
From S2P Require Import Prelude SansIo Varint PeerId Multiaddr PeerAddr Ping IdentifyMessage Identify.
From S2P Require Import SwarmEvents Transport SwarmCore SwarmInvariant Driver.
From Stdlib Require Import ZArith Lia.
From stdpp Require Import base numbers list gmap fin_maps relations.

#[local] Open Scope Z_scope.

(** In [budget t] more polls at most will the transport report events, whatever is
    called in between. *)
Class Silence (T P : Type) `{Transport T P} := {
  budget : T → nat;
  budget_dial t a : (budget (t_dial t a).1 <= budget t)%nat;
  budget_listen t a : (budget (t_listen t a).1 <= budget t)%nat;
  budget_open t c : (budget (t_open_stream t c).1 <= budget t)%nat;
  budget_send t c s d : (budget (t_send_stream t c s d).1 <= budget t)%nat;
  budget_close_write t c s : (budget (t_close_stream_write t c s).1 <= budget t)%nat;
  budget_reset t c s : (budget (t_reset_stream t c s).1 <= budget t)%nat;
  budget_close t c : (budget (t_close t c).1 <= budget t)%nat;
  budget_poll t : (budget (t_poll t).1 <= budget t)%nat;
  budget_event t events : (t_poll t).2 = Ok events → events ≠ [] → (budget (t_poll t).1 < budget t)%nat;
}.
#[global] Hint Mode Silence ! - - : typeclass_instances.

Section silence.
Context {P : Type} `{SP : !SwarmPeers P} `{BP : !BuildProfile}.
Context {T : Type} `{TR : !Transport T P} `{TC : !TransportContract T P} `{SL : !Silence T P}.
Context {C : Type} `{TM : !Time C} `{TL : !TimeLaws C}.

#[local] Abbreviation Core := (SwarmCore (P:=P)).
#[local] Abbreviation Node := (Swarm P T C).

(** ** What the core still owes *)

Definition in_flight (p : PeerPingState) : nat := if decide (pending_ping p = None) then 0 else 1.
Definition flights (m : gmap P PeerPingState) : nat := map_fold (λ _ p n, in_flight p + n)%nat 0%nat m.

Definition queued (s : Core) : nat :=
  length (pending_actions (ping s)) + length (pending_events (ping s))
  + length (Identify.actions (identify s)) + length (Identify.events (identify s)).
Definition owed (s : Core) : nat := flights (Ping.peers (ping s)) + queued s.

Lemma flights_insert k p m :
  m !! k = None → flights (<[k := p]> m) = (in_flight p + flights m)%nat.
Proof. intros Hk. unfold flights. rewrite map_fold_insert_L; [done| |done]. lia. Qed.

(** Dropping pings, one at least, lowers the count. *)
Lemma flights_fmap (f : PeerPingState → PeerPingState) (m : gmap P PeerPingState) :
  (∀ p, in_flight (f p) <= in_flight p)%nat → (flights (f <$> m) <= flights m)%nat.
Proof.
  intros Hf. induction m as [|k p m Hk IH] using map_ind; [by rewrite fmap_empty|].
  rewrite fmap_insert, !flights_insert by (rewrite ?lookup_fmap, ?Hk; done). specialize (Hf p). lia.
Qed.
Lemma flights_drop (f : PeerPingState → PeerPingState) (m : gmap P PeerPingState) k p :
  (∀ p, in_flight (f p) <= in_flight p)%nat → m !! k = Some p → (in_flight (f p) < in_flight p)%nat →
  (flights (f <$> m) < flights m)%nat.
Proof.
  intros Hf Hk Hp. rewrite <- (insert_delete_id m k p) by done.
  rewrite fmap_insert, !flights_insert by (rewrite ?lookup_fmap, lookup_delete_eq; done).
  pose proof (flights_fmap f (delete k m) Hf). lia.
Qed.

Lemma expire_in_flight t now p : (in_flight (expire t now p) <= in_flight p)%nat.
Proof. unfold expire, overdue, in_flight. repeat case_match; simpl; try case_decide; lia || done. Qed.
Lemma expire_overdue t now p s : overdue t now p = Some s → (in_flight (expire t now p) < in_flight p)%nat.
Proof.
  intros E. unfold expire. rewrite E. unfold overdue in E. unfold in_flight.
  destruct (pending_ping p); [|by destruct (Ping.outbound_stream p)].
  rewrite decide_True by done. rewrite decide_False by done. lia.
Qed.

(** A machine's outputs are all handed on. *)
Lemma drain_ping_loop_all fuel (s : Core) :
  (length (pending_actions (ping s)) + length (pending_events (ping s)) < fuel)%nat →
  pending_actions (ping (drain_ping_loop fuel s)) = [] ∧ pending_events (ping (drain_ping_loop fuel s)) = [].
Proof.
  revert s. induction fuel as [|fuel IH]; intros s Hf; [lia|]. cbn [drain_ping_loop]. unfold ping_poll_output.
  destruct (pending_actions (ping s)) as [|a rest] eqn:Ea; [destruct (pending_events (ping s)) as [|e es] eqn:Ee|].
  - done.
  - apply IH. destruct e; cbn in *; lia.
  - apply IH. destruct a; cbn [execute_ping_action]; case_match; cbn in *; lia.
Qed.
Lemma drain_identify_loop_all fuel (s : Core) :
  (length (Identify.actions (identify s)) + length (Identify.events (identify s)) < fuel)%nat →
  Identify.actions (identify (drain_identify_loop fuel s)) = [] ∧ Identify.events (identify (drain_identify_loop fuel s)) = [].
Proof.
  revert s. induction fuel as [|fuel IH]; intros s Hf; [lia|]. cbn [drain_identify_loop]. unfold identify_poll_output.
  destruct (Identify.actions (identify s)) as [|a rest] eqn:Ea; [destruct (Identify.events (identify s)) as [|e es] eqn:Ee|].
  - done.
  - apply IH. destruct e; cbn [handle_identify_event]; rewrite ?(proj2 (ready_machines _ _)); cbn in *; lia.
  - apply IH. destruct a; cbn [execute_identify_action]; case_match; cbn in *; lia.
Qed.

Lemma collect_all (s : Core) :
  queued (collect_protocol_events s) = 0%nat ∧
  Ping.peers (ping (collect_protocol_events s)) = Ping.peers (ping s) ∧
  (queued s = 0%nat → sw_actions (collect_protocol_events s) = sw_actions s ∧ sw_events (collect_protocol_events s) = sw_events s).
Proof.
  unfold collect_protocol_events, drain_identify_outputs, drain_ping_outputs, queued.
  set (n := S (length (pending_actions (ping s)) + length (pending_events (ping s)))).
  set (s1 := drain_ping_loop n s).
  set (k := S (length (Identify.actions (identify s1)) + length (Identify.events (identify s1)))).
  destruct (drain_ping_loop_all n s) as [H1 H2]; [lia|]. destruct (drain_identify_loop_all k s1) as [H3 H4]; [lia|].
  destruct (drain_identify_tables k s1) as [_ Hp]. destruct (drain_ping_tables n s) as [Hpp _].
  rewrite H3, H4, Hp. fold s1 in H1, H2, Hpp. rewrite H1, H2. split_and!; [done|done|]. intros Hq.
  assert (s1 = set_ping s (ping s)) as E1.
  { unfold s1, n. destruct (pending_actions (ping s)) eqn:E1, (pending_events (ping s)) eqn:E2; try (cbn in Hq; lia).
    cbn [drain_ping_loop length Nat.add]. unfold ping_poll_output. by rewrite E1, E2. }
  assert (identify s1 = identify s) as Ei by (by rewrite E1).
  assert (drain_identify_loop k s1 = set_identify s1 (identify s1)) as ->; [|by rewrite E1].
  unfold k. rewrite Ei in *. destruct (Identify.actions (identify s)) eqn:E3, (Identify.events (identify s)) eqn:E4; try (cbn in Hq; lia).
  cbn [drain_identify_loop length Nat.add]. unfold identify_poll_output. by rewrite Ei, E3, E4.
Qed.


(** A tick that queues something at all lowers what the core owes. *)
Lemma tick_owed (s : Core) now s' :
  handle_tick s now = Ok s' →
  (owed s' < owed s)%nat ∨ (owed s' <= owed s)%nat ∧ sw_actions s' = sw_actions s ∧ sw_events s' = sw_events s.
Proof.
  unfold handle_tick, ping_input. cbn [ping_handle_input].
  pose proof (on_tick_spec sp_le (ping s) now) as Hs. cbv zeta in Hs. destruct (on_tick sp_le (ping s) now) as [m acts].
  destruct Hs as (Hp & _ & Ha & -> & He). cbn [ignore mbind res_bind]. intros [= <-].
  set (t := request_timeout_ms _) in *. set (due := omap _ _) in *. set (s1 := set_ping s _).
  destruct (collect_all s1) as (Hq & Hpp & Hq0). unfold owed. rewrite Hq, Hpp.
  change (Ping.peers (ping s1)) with (Ping.peers m). rewrite Hp.
  pose proof (flights_fmap (expire t now) (Ping.peers (ping s)) (expire_in_flight t now)) as Hle.
  destruct due as [|[k st] due'] eqn:Edue; cycle 1.
  - assert ((k, st) ∈ due) as (kp & Hin & Hov)%list_elem_of_omap by (rewrite Edue; left).
    destruct kp as [k' p]. apply elem_of_btree_iter in Hin. unfold overdue_entry in Hov.
    destruct (overdue t now (k', p).2) as [st'|] eqn:Eo; [|done]. cbn in Eo.
    left. pose proof (flights_drop (expire t now) _ k' p (expire_in_flight t now) Hin (expire_overdue t now p st' Eo)). lia.
  - destruct (decide (queued s = 0%nat)) as [E0|E0]; [|left; lia]. right. split; [lia|].
    assert (queued s1 = 0%nat) as E1; [|by destruct (Hq0 E1)].
    revert E0. unfold queued, s1. cbn. rewrite Ha, He, !app_nil_r. done.
Qed.


(** ** How much noise there can still be *)

(** Of the buffered events only those are counted that a loop is interested in. *)
Definition weight (w : SwarmEvent (P:=P) → bool) (events : list (SwarmEvent (P:=P))) : nat := length (filter w events).
Definition noise w (d : Node) : nat * nat * nat := (budget (sd_transport d), owed (sd_core d), weight w (sd_event_buffer d)).
Definition below (x y : nat * nat * nat) : Prop :=
  (x.1.1 < y.1.1 ∨ x.1.1 = y.1.1 ∧ (x.1.2 < y.1.2 ∨ x.1.2 = y.1.2 ∧ x.2 < y.2))%nat.
Definition upto (x y : nat * nat * nat) : Prop :=
  (x.1.1 < y.1.1 ∨ x.1.1 = y.1.1 ∧ (x.1.2 < y.1.2 ∨ x.1.2 = y.1.2 ∧ x.2 <= y.2))%nat.
#[export] Instance upto_preorder : PreOrder upto.
Proof. split; unfold upto; intros ?; intros; lia. Qed.
Lemma below_upto x y : below x y → upto x y.
Proof. unfold below, upto. lia. Qed.
Lemma upto_below x y z : upto x y → below y z → below x z.
Proof. unfold below, upto. lia. Qed.
Lemma below_within x y z : below x y → upto y z → below x z.
Proof. unfold below, upto. lia. Qed.
Lemma below_wf : well_founded below.
Proof.
  intros [[a b] c]. revert b c. induction a as [a IHa] using lt_wf_ind. intros b.
  induction b as [b IHb] using lt_wf_ind. intros c. induction c as [c IHc] using lt_wf_ind.
  constructor. intros [[a' b'] c'] [?|[? [?|[? ?]]]]; cbn in *; subst; auto.
Qed.

Lemma budget_execute (t : T) (a : SwarmAction) : (budget (execute t a) <= budget t)%nat.
Proof.
  destruct a; cbn; auto using budget_open, budget_send, budget_close_write, budget_reset, budget_close.
Qed.
Lemma budget_executes (t : T) (l : list SwarmAction) : (budget (foldl execute t l) <= budget t)%nat.
Proof.
  revert t. induction l as [|a l IH]; intros t; [done|]. cbn. pose proof (IH (execute t a)). pose proof (budget_execute t a). lia.
Qed.

Lemma owed_machines (s s' : Core) : ping s' = ping s → identify s' = identify s → owed s' = owed s.
Proof. unfold owed, queued. by intros -> ->. Qed.

Lemma weight_cons w ev events : weight w (ev :: events) = ((if w ev then 1 else 0) + weight w events)%nat.
Proof. unfold weight. rewrite filter_cons. by destruct (w ev). Qed.
Lemma weight_pos w ev events : ev ∈ events → w ev = true → (0 < weight w events)%nat.
Proof.
  intros Hin Hw. assert (ev ∈ filter w events) as H by (apply list_elem_of_filter; rewrite Hw; done).
  unfold weight. destruct (filter w events); [by apply not_elem_of_nil in H|cbn; lia].
Qed.

Lemma poll_noise w (d : Node) :
  driver_ok d →
  upto (noise w (poll d).1) (noise w d) ∧
  ∀ events ev, (poll d).2 = Ok events → ev ∈ events → w ev = true → below (noise w (poll d).1) (noise w d).
Proof.
  intros Hd. destruct (driver_poll_ok d Hd) as (_ & Hp & _ & Hb & _). revert Hp Hb. unfold poll, driver_now.
  destruct (now_ms (sd_clock d)) as [now clk]. set (d1 := set_core (set_clock d clk) _).
  change (sd_transport d1) with (sd_transport d). pose proof (budget_poll (sd_transport d)) as Hle.
  pose proof (budget_event (sd_transport d)) as Hlt.
  destruct (t_poll (sd_transport d)) as [t [events|e|]]; cbn [fst snd] in *; [| |done]; cycle 1.
  { intros _ _. split; [|done]. unfold upto. cbn -[budget owed weight]. change (owed _) with (owed (sd_core d)). lia. }
  set (d2 := set_transport d1 t). unfold poll_events.
  destruct (feed_events (sd_core d2) events now) as [s1|[]|] eqn:E1; cbn [mbind res_bind]; [|done].
  destruct (swarm_handle_input s1 (SwTick now)) as [s2|[]|] eqn:E2; cbn [mbind res_bind]; [|done].
  destruct (flush_driver_spec (set_core d2 s2)) as (d3 & cap & sent & errs & _ & -> & Hb3 & Hfl).
  cbn [mbind res_bind]. rewrite poll_rest_idle by apply Hfl. cbn [fst snd]. intros _ _.
  pose proof (budget_executes t (sw_actions s2 ++ sent)) as Hx.
  assert (budget (sd_transport d3) <= budget t)%nat as Hx' by (by rewrite (fl_transport _ _ _ _ _ Hfl)).
  assert (owed (sd_core d3) = owed s2) as Ho by (apply owed_machines; apply Hfl).
  unfold below, upto, noise. cbn -[budget owed weight]. rewrite Ho. cbn in Hb3. change (weight w []) with 0%nat.
  destruct (decide (events = [])) as [->|Hne]; cycle 1.
  { specialize (Hlt events eq_refl Hne). split; [lia|]. intros. lia. }
  cbn [feed_events] in E1. assert (owed s1 = owed (sd_core d)) as Hs1 by (by injection E1 as <-).
  apply tick_owed in E2 as [Hlo|(Hlo & Ea & Ee)]; rewrite Hs1 in Hlo.
  - split; [lia|]. intros. lia.
  - split; [lia|]. intros es ev [= <-] Hin Hw.
    destruct Hd as [_ [Ha He]]. injection E1 as <-. cbn in Ea, Ee. rewrite Ha in Ea. rewrite He in Ee.
    pose proof (fl_bound _ _ _ _ _ Hfl) as Hbd. cbn in Hbd. rewrite Ea in Hbd. destruct errs; [|cbn in Hbd; lia].
    rewrite Ee in Hb3. rewrite app_nil_r in Hb3. rewrite Hb3 in Hin. pose proof (weight_pos w ev _ Hin Hw). lia.
Qed.

Lemma poll_next_noise w fuel (d d' : Node) deadline r :
  driver_ok d → poll_next fuel d deadline = Some (d', r) →
  upto (noise w d') (noise w d) ∧ ∀ ev, r = Ok (Some ev) → w ev = true → below (noise w d') (noise w d).
Proof.
  revert d. induction fuel as [|fuel IH]; intros d Hd; [done|]. cbn [poll_next].
  destruct (sd_event_buffer d) as [|ev rest] eqn:Eb; cycle 1.
  { intros [= <- <-]. unfold upto, below. cbn -[budget owed weight]. rewrite Eb, weight_cons. split; [lia|]. intros ? [= <-] ->. lia. }
  destruct (driver_poll_ok d Hd) as (Hd1 & Hp & _ & Hb & _). pose proof (λ w, poll_noise w d Hd) as Hn.
  destruct (poll d) as [d1 [events|e|]]; cbn [fst snd] in *; [| |done]; cycle 1.
  { intros [= <- <-]. split; [apply Hn|done]. }
  specialize (Hb events eq_refl). cbn [set_event_buffer sd_event_buffer]. rewrite Hb. cbn [app].
  destruct events as [|ev rest]; cycle 1.
  { intros [= <- <-]. destruct (Hn (λ _, true)) as [_ Hlt]. specialize (Hlt _ ev eq_refl (list_elem_of_here _ _) eq_refl).
    unfold below, upto, noise in *. cbn [fst snd set_event_buffer sd_transport sd_core sd_event_buffer] in *.
    rewrite Hb, Eb in Hlt. split; intros; lia. }
  assert (∀ c, set_clock (set_event_buffer d1 []) c = set_clock d1 c) as Hset by (intros; destruct d1; cbn in *; by subst).
  change (sd_clock (set_event_buffer d1 [])) with (sd_clock d1). destruct (instant_now (sd_clock d1)) as [now c].
  rewrite Hset. destruct (Hn w) as [Hu _]. destruct (deadline <=? now).
  { intros [= <- <-]. split; [exact Hu|done]. }
  intros [Hu' Hlt']%IH; [|by destruct Hd1 as [[? ?] ?]]. change (noise w (set_clock _ _)) with (noise w d1) in *.
  split; [by etrans|]. intros ev' Hr Hw. specialize (Hlt' ev' Hr Hw). unfold below, upto in *. lia.
Qed.


(** Waiting, one event after the other, is well founded: the loop body may look at each
    event and use the host before it waits for the next. *)
Lemma wait_ind (Q : Node → Prop) deadline :
  (∀ d, driver_ok d →
     (∃ d' r n, (∀ fuel, (n <= fuel)%nat → poll_next fuel d deadline = Some (d', r)) ∧ driver_ok d' ∧
        next_answer d deadline d' r ∧
        (∀ w, upto (noise w d') (noise w d) ∧ ∀ ev, r = Ok (Some ev) → w ev = true → below (noise w d') (noise w d)) ∧
        ∀ ev, r = Ok (Some ev) → ∀ c, Q (set_clock d' c)) → Q d) →
  ∀ d, driver_ok d → Q d.
Proof.
  intros Hstep d. remember (noise (λ _, true) d) as x eqn:Ex. revert d Ex.
  induction x as [x IH] using (well_founded_induction below_wf). intros d -> Hd. apply Hstep; [done|].
  set (n := Z.to_nat (Z.max 1 (deadline - elapsed (sd_clock d) + 1))).
  destruct (poll_next_returns n d deadline Hd) as (d' & r & E & Hd' & Ha); [lia..|].
  pose proof (λ w, poll_next_noise w n d d' deadline r Hd E) as Hn. exists d', r, n. split_and!; [|done..|].
  - intros fuel Hf. by apply (poll_next_more_le n).
  - intros ev Hr c. eapply IH; [by eapply Hn|done|]. by destruct Hd' as [[? ?] ?].
Qed.

(** C19. Waiting ends.  If the transport brings events in only finitely many more polls,
    then from every state that calls of the application lead to, waiting for an event
    that is wanted returns, after finitely many iterations and with an answer that does
    not depend on how many more are allowed: a wanted event, an error of the transport,
    or nothing, and then the deadline has passed and no event is left. *)
Theorem run_until_returns (t : T) idc pgc (p : P) (clk : C) calls deadline predicate :
  let d := run_calls (with_clock t idc pgc p clk) calls in
  ∃ d' r n, (∀ fuel, (n <= fuel)%nat → run_until fuel d deadline predicate = Some (d', r)) ∧
    swarm_is_idle (sd_core d') = true ∧
    match r with
    | Ok (Some ev) => predicate ev = true
    | Ok None => sd_event_buffer d' = [] ∧ deadline <= elapsed (sd_clock d')
    | Err _ => True
    | Panic => False
    end.
Proof.
  cbv zeta. set (d := run_calls _ _). assert (driver_ok d) as Hd by apply run_calls_ok, with_clock_ok. clearbody d.
  revert d Hd. apply (wait_ind _ deadline). intros d Hd (d1 & r1 & n1 & E1 & Hd1 & Ha & _ & Hev).
  assert (swarm_is_idle (sd_core d1) = true) as Hi by (destruct Hd1 as [_ [Ha' He']]; unfold swarm_is_idle; by rewrite Ha', He').
  assert (∀ x y, (match r1 with Ok (Some ev) => predicate ev = true | _ => True end) → x = d1 → y = r1 →
    ∀ fuel, (S n1 <= fuel)%nat → run_until fuel d deadline predicate = Some (x, y)) as Hone.
  { intros x y Hr -> -> [|fuel] Hf; [lia|]. cbn [run_until]. rewrite E1 by lia. destruct r1 as [[ev|]|e|]; [|done..]. by rewrite Hr. }
  destruct r1 as [[ev|]|e|]; [|eexists _, _, _; split; [by apply Hone|by apply next_answer_cases in Ha]
                              |eexists _, _, _; split; [by apply Hone|done]|by apply next_answer_cases in Ha].
  destruct (predicate ev) eqn:Ep; [eexists _, _, _; split; [by apply Hone|done]|].
  pose proof (Hev ev eq_refl (sd_clock d1)) as HQ. replace (set_clock d1 (sd_clock d1)) with d1 in HQ by by destruct d1.
  destruct HQ as (d' & r & n & E & Hrest). exists d', r, (S (n + n1)). split; [|done].
  intros [|fuel] Hf; [lia|]. cbn [run_until]. rewrite E1 by lia. rewrite Ep. apply E. lia.
Qed.

End silence.

(** ** A transport that reports one connection and then nothing *)

#[export, refine] Instance OneConn_silence : Silence OneConn (PeerId PlainMultihash) := {
  budget t := if oc_polled t then 0%nat else 1%nat;
}.
Proof. all: intros t; intros; try done; cbn in *; destruct (oc_polled t); simplify_eq; by auto with lia. Defined.

Lemma run_until_returns_witness :
  ∃ d' r n, ∀ fuel, (n <= fuel)%nat → run_until fuel demo_driver 9 (λ _, false) = Some (d', r).
Proof.
  destruct (run_until_returns {| oc_polled := false; oc_next := 0; oc_sent := [] |} demo_config
    PingConfig_default demo_pid 0 demo_calls 9 (λ _, false)) as (d' & r & n & H & _).
  exists d', r, n. exact H.
Defined.
