(* ===== verification/Builder.v ===== *)
(** * The swarm builder ([crates/swarm/src/builder.rs])

    From a keypair to a ready driver: the identity the node advertises through identify
    and the one it announces in its addresses are the keypair's. *)
From S2P Require Import Prelude Varint Multibase PeerId Keys Multiaddr PeerAddr Ping.
From S2P Require Import IdentifyMessage Identify SwarmEvents Transport SwarmCore SwarmInvariant Driver.
From Stdlib Require Import ZArith Strings.Byte Strings.String.
From stdpp Require Import base numbers list gmap strings.

#[local] Open Scope Z_scope.

Definition DEFAULT_PROTOCOL_VERSION : string := "minip2p/0.1.0"%string.
Definition DEFAULT_AGENT_VERSION : string := "minip2p/0.1.0"%string.

Section builder.
Context {MH : Type} `{MA : MultihashApi MH} (sha256 : list byte → list byte).
Context {VK : Type} `{EA : !Ed25519Api VK}.
Context `{SP : !SwarmPeers (PeerId MH)} `{BP : !BuildProfile}.

Record SwarmBuilder : Type := {
  b_protocol_version : string;
  b_agent_version : string;
  b_protocols : list string;
  b_public_key : list byte;
  b_local_peer_id : PeerId MH;
  b_ping_config : PingConfig;
}.

Definition builder_new (keypair : Ed25519Keypair) : res Empty_set SwarmBuilder :=
  local_peer_id ← keypair_peer_id sha256 keypair;
  Ok {| b_protocol_version := DEFAULT_PROTOCOL_VERSION; b_agent_version := DEFAULT_AGENT_VERSION;
        b_protocols := [IDENTIFY_PROTOCOL_ID; PING_PROTOCOL_ID];
        b_public_key := encode_protobuf (keypair_public_key keypair);
        b_local_peer_id := local_peer_id; b_ping_config := PingConfig_default |}.

Definition b_set_protocol_version (b : SwarmBuilder) (value : string) : SwarmBuilder :=
  {| b_protocol_version := value; b_agent_version := b_agent_version b; b_protocols := b_protocols b;
     b_public_key := b_public_key b; b_local_peer_id := b_local_peer_id b; b_ping_config := b_ping_config b |}.
Definition b_set_agent_version (b : SwarmBuilder) (value : string) : SwarmBuilder :=
  {| b_protocol_version := b_protocol_version b; b_agent_version := value; b_protocols := b_protocols b;
     b_public_key := b_public_key b; b_local_peer_id := b_local_peer_id b; b_ping_config := b_ping_config b |}.
Definition advertise_protocol (b : SwarmBuilder) (id : string) : SwarmBuilder :=
  if decide (id ∈ b_protocols b) then b
  else {| b_protocol_version := b_protocol_version b; b_agent_version := b_agent_version b;
          b_protocols := b_protocols b ++ [id]; b_public_key := b_public_key b;
          b_local_peer_id := b_local_peer_id b; b_ping_config := b_ping_config b |}.
Definition b_set_ping_config (b : SwarmBuilder) (config : PingConfig) : SwarmBuilder :=
  {| b_protocol_version := b_protocol_version b; b_agent_version := b_agent_version b;
     b_protocols := b_protocols b; b_public_key := b_public_key b; b_local_peer_id := b_local_peer_id b;
     b_ping_config := config |}.

Definition into_identify_config (b : SwarmBuilder) : IdentifyConfig :=
  {| cfg_protocol_version := b_protocol_version b; cfg_agent_version := b_agent_version b;
     cfg_protocols := b_protocols b; cfg_public_key := b_public_key b |}.

(** [build], with the system clock that [Swarm::new] makes. *)
Definition build {T C} (b : SwarmBuilder) (transport : T) (system_clock : C) : Swarm (PeerId MH) T C :=
  let identify := {| cfg_protocol_version := b_protocol_version b; cfg_agent_version := b_agent_version b;
                     cfg_protocols := b_protocols b; cfg_public_key := b_public_key b |} in
  driver_new transport identify (b_ping_config b) (b_local_peer_id b) system_clock.

Definition build_with_clock {T C} (b : SwarmBuilder) (transport : T) (clock : C) : Swarm (PeerId MH) T C :=
  with_clock transport (into_identify_config b) (b_ping_config b) (b_local_peer_id b) clock.

(** The two ways to build differ in the clock only. *)
Lemma build_is_with_clock {T C} b (transport : T) (clock : C) :
  build b transport clock = build_with_clock b transport clock.
Proof. done. Qed.

(** The setters, in any order and number. *)
Inductive BuilderStep : Type :=
  | SetProtocolVersion (value : string)
  | SetAgentVersion (value : string)
  | AdvertiseProtocol (id : string)
  | SetPingConfig (config : PingConfig).
Definition builder_step (b : SwarmBuilder) (x : BuilderStep) : SwarmBuilder :=
  match x with
  | SetProtocolVersion v => b_set_protocol_version b v
  | SetAgentVersion v => b_set_agent_version b v
  | AdvertiseProtocol id => advertise_protocol b id
  | SetPingConfig c => b_set_ping_config b c
  end.

Lemma builder_steps steps b :
  let b' := foldl builder_step b steps in
  b_public_key b' = b_public_key b ∧ b_local_peer_id b' = b_local_peer_id b ∧
  (NoDup (b_protocols b) → NoDup (b_protocols b')) ∧ b_protocols b `prefix_of` b_protocols b' ∧
  (∀ id, AdvertiseProtocol id ∈ steps → id ∈ b_protocols b').
Proof.
  cbv zeta. revert b. induction steps as [|x steps IH]; intros b.
  { split_and!; try done. by intros id ?%elem_of_nil. }
  cbn [foldl]. destruct (IH (builder_step b x)) as (-> & -> & Hn & Hp & Ha).
  assert (b_public_key (builder_step b x) = b_public_key b ∧ b_local_peer_id (builder_step b x) = b_local_peer_id b ∧
    (NoDup (b_protocols b) → NoDup (b_protocols (builder_step b x))) ∧
    b_protocols b `prefix_of` b_protocols (builder_step b x) ∧
    ∀ id, x = AdvertiseProtocol id → id ∈ b_protocols (builder_step b x)) as (-> & -> & Hn' & Hp' & Ha').
  { destruct x as [v|v|id|c]; cbn; try done. unfold advertise_protocol. case_decide as Hin.
    - split_and!; [done..|]. by intros ? [= <-].
    - cbn. split_and!; [done|done| |by eexists|intros ? [= <-]; apply elem_of_app; right; by left].
      intros H. apply NoDup_app. split_and!; [done| |apply NoDup_singleton].
      by intros y Hy ->%list_elem_of_singleton. }
  split_and!; [done|done|auto|by etrans|].
  intros id [Hx|Hid]%elem_of_cons; [|auto]. destruct Hp as [l Hp]. rewrite Hp. apply elem_of_app. left. by apply Ha'.
Qed.

Context `{ML : !MultihashLaws MH} `{EL : !Ed25519Laws VK}.
Context (sha256_length : ∀ b, length (sha256 b) = 32%nat).

(** A node has one identity.  A driver built from a keypair, with any of the
    builder's settings, advertises through identify the keypair's public key, from which
    every peer derives the node's own peer id; that id ends every address the driver
    announces; and the advertised protocols are identify, ping and the added ones,
    without duplicates. *)
Theorem builder_identity secret steps {T C} (transport : T) (clock : C) `{TR : !Transport T (PeerId MH)} :
  length secret = ED25519_SECRET_KEY_LENGTH →
  let kp := from_secret_key_bytes secret in
  ∃ b p, builder_new kp = Ok b ∧ keypair_peer_id sha256 kp = Ok p ∧
    let d := build_with_clock (foldl builder_step b steps) transport clock in
    let cfg := Identify.config (identify (sd_core d)) in
    decode_protobuf true (cfg_public_key cfg) = Ok (keypair_public_key kp) ∧
    from_public_key sha256 (keypair_public_key kp) = Ok p ∧ sd_local_peer_id d = p ∧
    (∀ addrs, (listen_on_bound_addrs d).2 = Ok addrs →
       Forall (λ a, peer_addr_ok a ∧ pa_peer_id a = p) addrs) ∧
    [IDENTIFY_PROTOCOL_ID; PING_PROTOCOL_ID] `prefix_of` cfg_protocols cfg ∧
    (∀ id, AdvertiseProtocol id ∈ steps → id ∈ cfg_protocols cfg) ∧ NoDup (cfg_protocols cfg).
Proof.
  intros Hs kp.
  destruct (from_public_key_protobuf_spec (MH:=MH) sha256 sha256_length (encode_protobuf (keypair_public_key kp)))
    as (p & Hp & _). unfold builder_new. change (keypair_peer_id sha256 kp) with (from_public_key_protobuf sha256
    (encode_protobuf (keypair_public_key kp)) : res Empty_set (PeerId MH)). rewrite Hp. cbn [mbind res_bind].
  eexists _, p. split; [done|]. split; [done|]. cbv zeta. set (b0 := Build_SwarmBuilder _ _ _ _ _ _).
  destruct (builder_steps steps b0) as (Hk & Hl & Hn & Hpre & Ha). set (b := foldl builder_step b0 steps) in *.
  cbn. rewrite Hk, Hl. split_and!; try done.
  - apply decode_encode_protobuf. rewrite encode_protobuf_eq.
    cbn [key_type key_data keypair_public_key kp from_secret_key_bytes public_key_bytes].
    by rewrite derive_public_length, !length_app, derive_public_length.
  - intros addrs. unfold listen_on_bound_addrs. case_decide; [done|].
    intros (l & -> & _ & Hf)%listen_loop_resolved. cbn in *. by rewrite Hl in Hf.
  - apply Hn. cbn. apply NoDup_cons. split; [|apply NoDup_singleton]. by intros ?%list_elem_of_singleton.
Qed.

End builder.

Lemma builder_identity_witness :
  ∃ b p, builder_new demo_sha256 (from_secret_key_bytes (repeat x07 32)) = Ok b ∧
    sd_local_peer_id (build_with_clock (foldl builder_step b [AdvertiseProtocol "/chat/1.0.0"%string])
      {| oc_polled := false; oc_next := 0; oc_sent := [] |} 0) = p ∧
    from_public_key (MH:=PlainMultihash) demo_sha256 {| key_type := Ed25519; key_data := repeat x07 32 |} = Ok p.
Proof.
  destruct (builder_identity (MH:=PlainMultihash) demo_sha256 (λ _, eq_refl) (repeat x07 32)
    [AdvertiseProtocol "/chat/1.0.0"%string] {| oc_polled := false; oc_next := 0; oc_sent := [] |} 0 eq_refl)
    as (b & p & H1 & _ & _ & H2 & H3 & _).
  exists b, p. split; [exact H1|]. split; [exact H3|exact H2].
Defined.
