(* ===== verification/Facade.v ===== *)
(** * The facade ([crates/minip2p/src/lib.rs])

    [Endpoint] is the swarm driver over the QUIC endpoint, built from one keypair: the
    application's way to bind, listen, dial, ping and wait. *)
From S2P Require Import Prelude NetAddr Effects Varint Multibase PeerId Keys Tls Multiaddr PeerAddr Ping.
From S2P Require Import IdentifyMessage Identify SwarmEvents Transport SwarmCore SwarmInvariant Driver Builder.
From S2P Require Import QuicConnection QuicGuarantees QuicTransport QuicIndexes QuicEndpoint QuicConfig.
From Stdlib Require Import ZArith Strings.Byte Strings.String.
From stdpp Require Import base numbers list gmap strings.

#[local] Open Scope Z_scope.

Section facade.
Context {MH : Type} `{SP : !SwarmPeers (PeerId MH)} `{BP : !BuildProfile}.
Context `{MHeq : EqDecision MH} `{MHcount : !Countable MH} `{MA : !MultihashApi MH} (sha256 : list byte → list byte).
Context {VK : Type} `{EA : !Ed25519Api VK}.
Context {Cert Validity Bld PK SG SK RNG : Type} `{XA : !X509Api Cert Validity Bld PK SG SK RNG}.
Context {Q : Type} `{QA : !Quiche Q} {Cfg : Type} `{QE : !QuicheEndpoint Q Cfg}.
Context {Ctx X509 PKey : Type} `{TS : !TlsStack Ctx X509 PKey Cfg}.
Context {W Sock : Type} `{WA : !World W Sock} `{SR : !SysRandom W Validity RNG}.
Context (overflow_checks : bool).
Context {C : Type} `{TM : !Time C}.

(** The QUIC endpoint, authenticating its peers with [minip2p_tls]. *)
Definition Quic : Type :=
  QuicEndpoint (P:=PeerId MH) (PidEq:=PeerId_eq_dec) (PidCount:=PeerId_countable) (Q:=Q) (Cfg:=Cfg) (W:=W) (Sock:=Sock).
#[local] Instance Quic_transport : Transport Quic (PeerId MH) :=
  QuicEndpoint_transport (P:=PeerId MH) (PidEq:=PeerId_eq_dec) (CV:=tls_verifier sha256 overflow_checks).

Record Endpoint : Type := { ep_swarm : Swarm (PeerId MH) Quic C }.

Definition on_swarm {A} (f : Swarm (PeerId MH) Quic C → Swarm (PeerId MH) Quic C * A) (e : Endpoint) : Endpoint * A :=
  let '(d, a) := f (ep_swarm e) in ({| ep_swarm := d |}, a).
(** [self.swarm.transport_mut().call(..)] *)
Definition on_transport {A} (m : emeth (P:=PeerId MH) (PidEq:=PeerId_eq_dec) (PidCount:=PeerId_countable) A) (e : Endpoint)
    : Endpoint * res TransportError A :=
  on_swarm (λ d, let '(t, r) := m (sd_transport d) in (set_transport d t, r)) e.

Definition peer_id (e : Endpoint) : PeerId MH := sd_local_peer_id (ep_swarm e).
Definition ep_listen : Endpoint → Endpoint * res TransportError (PeerAddr (PeerId MH)) := on_swarm Driver.listen_on_bound_addr.
Definition listen_all : Endpoint → Endpoint * res TransportError (list (PeerAddr (PeerId MH))) := on_swarm Driver.listen_on_bound_addrs.

(** The driver is told of each new connection: [on_dialed] does nothing. *)
Definition ep_dial (addr : PeerAddr (PeerId MH)) : Endpoint → Endpoint * res TransportError (list ConnectionId) :=
  on_transport (endpoint_dial_all (PidEq:=PeerId_eq_dec) addr).
Definition dial_ip4 (addr : PeerAddr (PeerId MH)) : Endpoint → Endpoint * res TransportError ConnectionId :=
  on_transport (endpoint_dial_ip4 (PidEq:=PeerId_eq_dec) addr).
Definition dial_ip6 (addr : PeerAddr (PeerId MH)) : Endpoint → Endpoint * res TransportError ConnectionId :=
  on_transport (endpoint_dial_ip6 (PidEq:=PeerId_eq_dec) addr).

(** [random] and [since_epoch] feed [rand_ping_payload]. *)
Definition ep_ping (peer : PeerId MH) (random : option (list byte)) (since_epoch : option Z)
    : Endpoint → Endpoint * res TransportError unit :=
  on_swarm (λ d, driver_ping d peer (rand_ping_payload random since_epoch)).
Definition ep_poll : Endpoint → Endpoint * res TransportError (list SwarmEvent) := on_swarm Driver.poll.

Definition waiting {A} (o : option (Swarm (PeerId MH) Quic C * A)) : option (Endpoint * A) :=
  '(d, a) ← o; Some ({| ep_swarm := d |}, a).
Definition next_event (fuel : nat) (e : Endpoint) (deadline : Z) := waiting (poll_next fuel (ep_swarm e) deadline).

Definition is_peer_ready (peer : PeerId MH) (event : SwarmEvent (P:=PeerId MH)) : bool :=
  match event with PeerReady ready _ => bool_decide (ready = peer) | _ => false end.
Definition is_ping_rtt (peer : PeerId MH) (event : SwarmEvent (P:=PeerId MH)) : bool :=
  match event with PingRttMeasured ready _ => bool_decide (ready = peer) | _ => false end.
Definition wait_peer_ready (fuel : nat) (e : Endpoint) (peer : PeerId MH) (deadline : Z) :=
  waiting (run_until fuel (ep_swarm e) deadline (is_peer_ready peer)).
Definition wait_ping_rtt (fuel : nat) (e : Endpoint) (peer : PeerId MH) (deadline : Z)
    : option (Endpoint * res TransportError (option Z)) :=
  '(e, event) ← waiting (run_until fuel (ep_swarm e) deadline (is_ping_rtt peer));
  Some (e, event ← event;
           Ok (match event with Some (PingRttMeasured _ rtt_ms) => Some rtt_ms | _ => None end)).

(** ** The builder *)

Record EndpointBuilder : Type := { eb_keypair : option Ed25519Keypair; eb_agent_version : string }.
Definition eb_default : EndpointBuilder := {| eb_keypair := None; eb_agent_version := "minip2p/0.1.0" |}.
Definition builder : EndpointBuilder := eb_default.
Definition eb_identity (b : EndpointBuilder) (keypair : Ed25519Keypair) : EndpointBuilder :=
  {| eb_keypair := Some keypair; eb_agent_version := eb_agent_version b |}.
Definition agent_version (b : EndpointBuilder) (value : string) : EndpointBuilder :=
  {| eb_keypair := eb_keypair b; eb_agent_version := value |}.

(** [Ed25519Keypair::generate], from the secret key the system's randomness gave. *)
Definition keypair_generate (secret : list byte) : Ed25519Keypair :=
  {| secret_key := secret; public_key_bytes := derive_public secret |}.

Definition into_parts (b : EndpointBuilder) (random : list byte) : Ed25519Keypair * string :=
  (default (keypair_generate random) (eb_keypair b), eb_agent_version b).

Definition build_endpoint (keypair : Ed25519Keypair) (agent : string) (transport : Quic) (clock : C) : res Empty_set Endpoint :=
  b ← builder_new sha256 keypair;
  Ok {| ep_swarm := build_with_clock (b_set_agent_version b agent) transport clock |}.

(** [let (keypair, agent) = self.into_parts(); let transport = bind(..)?;
    Ok(build_endpoint(..))] *)
Definition bind_with (bind : QuicNodeConfig → W → res TransportError Quic) (b : EndpointBuilder)
    (random : list byte) (w : W) (clock : C) : res TransportError Endpoint :=
  let '(keypair, agent) := into_parts b random in
  transport ← bind (node_config_new keypair) w;
  map_err (Empty_set_rect (λ _, TransportError)) (build_endpoint keypair agent transport clock).
Definition bind_quic (b : EndpointBuilder) (bind_addr : string) :=
  bind_with (λ c, endpoint_bind (MHeq:=MHeq) sha256 c bind_addr) b.
Definition bind_quic_multiaddr (b : EndpointBuilder) (addr : Multiaddr (PeerId MH)) :=
  bind_with (λ c, endpoint_bind_multiaddr (MHeq:=MHeq) sha256 c addr) b.
Definition bind_quic_dual_stack (b : EndpointBuilder) :=
  bind_with (endpoint_dual_stack (MHeq:=MHeq) sha256) b.

(** ** Properties *)

Section identity.
Context `{XL : !X509Laws} `{EL : !Ed25519Laws VK} `{ML : !MultihashLaws MH}.
Context (sha256_length : ∀ b, length (sha256 b) = 32%nat).

#[local] Abbreviation Socket :=
  (QuicTransport (P:=PeerId MH) (PidEq:=PeerId_eq_dec) (PidCount:=PeerId_countable) (Q:=Q) (Cfg:=Cfg) (Sock:=Sock)).

Definition quic_sockets (t : Quic) : list Socket :=
  match t with Single s => [ts_transport s] | Dual s => [ds_ipv4 s; ds_ipv6 s] end.

(** The socket goes by the name [p], and presents a certificate that proves it. *)
Definition socket_of (p : PeerId MH) (s : Socket) : Prop :=
  local_peer_id s = p ∧ presents (Ctx:=Ctx) (X509:=X509) (PKey:=PKey) sha256 overflow_checks (quiche_config s) p.
Definition node_has (p : PeerId MH) (t : Quic) : Prop := Forall (socket_of p) (quic_sockets t).

Lemma transport_new_identity kp p addr w w' t :
  keypair_ok kp → node_peer_id sha256 (node_config_new kp) = Ok p →
  quic_transport_new (MHeq:=MHeq) (Q:=Q) sha256 (node_config_new kp) addr w = (w', Ok t) → socket_of p t.
Proof.
  intros Hk Hp. unfold quic_transport_new. rewrite Hp. cbn [map_err].
  unfold mbind, eff_bind, state, lift. destruct (udp_bind w addr) as [w1 [e|s]]; [done|].
  destruct (set_nonblocking w1 s) as [w2 [e|[]]]; [done|].
  destruct (build_quiche_config (node_config_new kp) w2) as [w3 [cfg|e|]] eqn:E; [|done..]. intros [= _ <-].
  split; [done|]. by eapply config_presents.
Qed.

(** Every way to bind gives sockets of the identity of the configuration. *)
Definition binds_as (bind : QuicNodeConfig → W → res TransportError Quic) : Prop :=
  ∀ kp w p t, keypair_ok kp → node_peer_id sha256 (node_config_new kp) = Ok p → bind (node_config_new kp) w = Ok t → node_has p t.

Lemma endpoint_bind_as addr : binds_as (λ c, endpoint_bind (MHeq:=MHeq) sha256 c addr).
Proof.
  intros kp w p t Hk Hp. unfold endpoint_bind.
  destruct (quic_transport_new (Q:=Q) sha256 (node_config_new kp) addr w) as [w' [x|e|]] eqn:E; [|done..].
  intros [= <-]. apply Forall_singleton. by eapply transport_new_identity.
Qed.

Lemma dual_stack_as : binds_as (endpoint_dual_stack (MHeq:=MHeq) sha256).
Proof.
  intros kp w p t Hk Hp. unfold endpoint_dual_stack, dual_transport_new, mbind, eff_bind.
  destruct (quic_transport_new (Q:=Q) sha256 (node_config_new kp) DEFAULT_IPV4_BIND w) as [w1 [x|e|]] eqn:E1; [|done..].
  destruct (quic_transport_new (Q:=Q) sha256 (node_config_new kp) DEFAULT_IPV6_BIND w1) as [w2 [y|e|]] eqn:E2; [|done..].
  intros [= <-]. apply Forall_cons. split; [|apply Forall_singleton]; by eapply transport_new_identity.
Qed.

Inductive Binding : Type :=
  | BindQuic (bind_addr : string)
  | BindQuicMultiaddr (addr : Multiaddr (PeerId MH))
  | BindQuicDualStack.
Definition bind_endpoint (x : Binding) (b : EndpointBuilder) : list byte → W → C → res TransportError Endpoint :=
  match x with
  | BindQuic addr => bind_quic b addr
  | BindQuicMultiaddr addr => bind_quic_multiaddr b addr
  | BindQuicDualStack => bind_quic_dual_stack b
  end.

Lemma bind_with_identity bind b random w clock e :
  binds_as bind → keypair_ok (into_parts b random).1 → bind_with bind b random w clock = Ok e →
  let kp := (into_parts b random).1 in
  keypair_peer_id sha256 kp = Ok (peer_id e) ∧ node_has (peer_id e) (sd_transport (ep_swarm e)) ∧
  Identify.config (identify (sd_core (ep_swarm e))) =
    {| cfg_protocol_version := DEFAULT_PROTOCOL_VERSION; cfg_agent_version := eb_agent_version b;
       cfg_protocols := [IDENTIFY_PROTOCOL_ID; PING_PROTOCOL_ID];
       cfg_public_key := encode_protobuf (keypair_public_key kp) |}.
Proof.
  intros Hb. unfold bind_with, into_parts. cbn [fst]. set (kp := default _ _). intros Hk.
  destruct (bind (node_config_new kp) w) as [t|err|] eqn:E; [|done..]. cbn [mbind res_bind].
  unfold build_endpoint, builder_new. destruct (keypair_peer_id sha256 kp) as [p|[]|] eqn:Ep; [|done].
  cbn. intros [= <-]. cbn. split_and!; [done| |done]. apply (Hb kp w); [done| |exact E]. exact Ep.
Qed.

Lemma bind_endpoint_identity x b random w clock e :
  keypair_ok (into_parts b random).1 → bind_endpoint x b random w clock = Ok e →
  let kp := (into_parts b random).1 in
  keypair_peer_id sha256 kp = Ok (peer_id e) ∧ node_has (peer_id e) (sd_transport (ep_swarm e)) ∧
  Identify.config (identify (sd_core (ep_swarm e))) =
    {| cfg_protocol_version := DEFAULT_PROTOCOL_VERSION; cfg_agent_version := eb_agent_version b;
       cfg_protocols := [IDENTIFY_PROTOCOL_ID; PING_PROTOCOL_ID];
       cfg_public_key := encode_protobuf (keypair_public_key kp) |}.
Proof.
  destruct x; apply bind_with_identity; [apply endpoint_bind_as| |apply dual_stack_as].
  intros kp w' p t Hk Hp. unfold endpoint_bind_multiaddr. destruct (extract_listen_socket_addr _ _) as [s|err|]; [|done..].
  by apply endpoint_bind_as.
Qed.

Lemma listened_addrs (e : Endpoint) addrs :
  (listen_all e).2 = Ok addrs → Forall (λ a, peer_addr_ok a ∧ pa_peer_id a = peer_id e) addrs.
Proof.
  unfold listen_all, on_swarm. destruct (listen_on_bound_addrs (ep_swarm e)) as [d r] eqn:E. cbn. intros ->.
  revert E. unfold listen_on_bound_addrs. case_decide; [done|]. intros E.
  assert ((listen_loop (ep_swarm e) (t_local_addresses (sd_transport (ep_swarm e))) []).2 = Ok addrs) as Hl by by rewrite E.
  by apply listen_loop_resolved in Hl as (l & -> & _ & Hf).
Qed.

(** C31. An endpoint has one identity.  However it is bound, with a given keypair or a
    generated one (of 32 secret bytes and the public key they give), the endpoint's peer
    id is the keypair's; every QUIC socket it opened goes by it, and was configured with
    a certificate that [verify_libp2p_certificate] verifies to that peer id; identify
    advertises the public key that hashes to it, and the agent version that was set; and
    every address the endpoint announces when it listens ends with it. *)
Theorem endpoint_identity x b random w clock e :
  keypair_ok (into_parts b random).1 → bind_endpoint x b random w clock = Ok e →
  let kp := (into_parts b random).1 in
  let cfg := Identify.config (identify (sd_core (ep_swarm e))) in
  keypair_peer_id sha256 kp = Ok (peer_id e) ∧
  from_public_key_protobuf sha256 (cfg_public_key cfg) = (Ok (peer_id e) : res Empty_set _) ∧
  cfg_agent_version cfg = eb_agent_version b ∧
  Forall (λ s, local_peer_id s = peer_id e ∧
               presents (Ctx:=Ctx) (X509:=X509) (PKey:=PKey) sha256 overflow_checks (quiche_config s) (peer_id e))
    (quic_sockets (sd_transport (ep_swarm e))) ∧
  ∀ addrs, (listen_all e).2 = Ok addrs → Forall (λ a, peer_addr_ok a ∧ pa_peer_id a = peer_id e) addrs.
Proof.
  intros Hk (Hp & Hn & Hc)%bind_endpoint_identity; [|done]. cbv zeta. rewrite Hc. split_and!; try done. by apply listened_addrs.
Qed.
End identity.

(** What the waiting calls answer is about the peer that was asked for. *)
Lemma wait_ping_rtt_answer fuel (e e' : Endpoint) peer deadline rtt :
  wait_ping_rtt fuel e peer deadline = Some (e', Ok (Some rtt)) →
  ∃ ev d', run_until fuel (ep_swarm e) deadline (is_ping_rtt peer) = Some (d', Ok (Some ev)) ∧ ev = PingRttMeasured peer rtt.
Proof.
  unfold wait_ping_rtt, waiting. destruct (run_until _ _ _ _) as [[d' r]|] eqn:E; [|done]. cbn.
  destruct r as [[ev|]|err|]; [|done..]. apply run_until_answer in E as Hp. destruct ev; try done. cbn in Hp.
  apply bool_decide_eq_true in Hp as ->. intros [= _ <-]. by eexists _, _.
Qed.

End facade.

(** ** A concrete endpoint *)

#[export] Instance ToyTls : TlsStack unit unit unit unit := {
  ctx_new := inr (); set_verify_any_peer_cert c := c; x509_from_der _ := inr (); set_certificate _ _ := inr ();
  private_key_from_der _ := inr (); set_private_key _ _ := inr (); check_private_key _ := inr ();
  config_with_ctx _ := inr (); set_application_protos c _ := inr c;
  set_initial_max_data _ c := c; set_initial_max_stream_data_bidi_local _ c := c;
  set_initial_max_stream_data_bidi_remote _ c := c; set_initial_max_streams_bidi _ c := c;
  set_max_recv_udp_payload_size _ c := c; set_max_send_udp_payload_size _ c := c;
}.
#[export] Instance ToySysRandom : SysRandom ToyW unit unit := {
  validity_from_now _ _ := inr (); sys_rng _ := (); put_rng _ w := w;
}.

Definition demo_bound : res TransportError Endpoint :=
  bind_endpoint (MH:=PlainMultihash) (C:=Z) (Q:=ToyQ) demo_sha256 BindQuicDualStack
    (agent_version builder "demo/1") demo_secret {| tw_inbox := []; tw_sends := [] |} 0.

Lemma endpoint_identity_witness :
  ∃ e p, demo_bound = Ok e ∧ keypair_peer_id demo_sha256 (from_secret_key_bytes demo_secret) = Ok p ∧
    p = peer_id e ∧
    Forall (λ s, local_peer_id s = p ∧ presents (Ctx:=unit) (X509:=unit) (PKey:=unit) demo_sha256 false (quiche_config s) p)
      (quic_sockets (sd_transport (ep_swarm e))).
Proof.
  assert ((λ _, ()) <$> demo_bound = Ok ()) as Hok by by vm_compute.
  destruct demo_bound as [e| |] eqn:E; [|discriminate Hok..]. clear Hok.
  destruct (endpoint_identity (MH:=PlainMultihash) (C:=Z) (Q:=ToyQ) demo_sha256 false (λ _, eq_refl) BindQuicDualStack
    (agent_version builder "demo/1") demo_secret {| tw_inbox := []; tw_sends := [] |} 0 e) as (H1 & _ & _ & H2 & _);
    [by split|exact E|].
  exists e, (peer_id e). split_and!; [reflexivity|exact H1|reflexivity|exact H2].
Defined.
