(* ===== verification/Cli.v ===== *)
(** * The command line of the example peer ([examples/peer/src/cli.rs], [main.rs])

    From the arguments of the program to the mode it runs in. *)
From S2P Require Import Prelude Utf8 NetAddr TextParse Varint Multibase PeerId Multiaddr PeerAddr MultiaddrText.
From Stdlib Require Import ZArith Strings.Byte Strings.Ascii Strings.String.
From stdpp Require Import base numbers list strings.

#[local] Open Scope Z_scope.

Definition usage : string :=
  "minip2p-peer -- demo CLI for the full minip2p stack.

USAGE:
    minip2p-peer listen [--key <path>] [--listen <quic-multiaddr>]
    minip2p-peer dial   <peer-addr> [--key <path>] [--listen <quic-multiaddr>]
    minip2p-peer autonat [--key <path>] [--listen <quic-multiaddr>]
    minip2p-peer listen --relay <relay-peer-addr> [--autonat <peer-addr>] [--key <path>] [--listen <quic-multiaddr>] [--external-addr <quic-multiaddr>]...
    minip2p-peer dial   --relay <relay-peer-addr> --target <peer-id> [--autonat <peer-addr>] [--key <path>] [--listen <quic-multiaddr>] [--external-addr <quic-multiaddr>]...

NOTES:
    <peer-addr>        full libp2p-style address ending in /p2p/<peer-id>
                       (e.g. /ip4/127.0.0.1/udp/4001/quic-v1/p2p/12D3...)
    <relay-peer-addr>  same format, pointing at the relay server
    <peer-id>          bare libp2p PeerId (12D3... or Qm...)
    --key              persistent Ed25519 raw-secret file (hex)
    --listen           bind multiaddr; default is 127.0.0.1:0
    --external-addr    repeatable relay-mode DCUtR candidate
    --autonat          relay-mode public AutoNAT service for dialability checks

    See examples/peer/README.md for full usage examples.".

Section cli.
Context {P : Type} `{PidEq : EqDecision P} `{PB : !PeerIdBytes P} `{PD : !Display P} `{PT : !PeerIdText P}.

(** [PathBuf] is the text it was made from. *)
Record RunOptions : Type := {
  key_path : option string;
  opt_listen_addr : option (Multiaddr P);
  external_addrs : list (Multiaddr P);
  autonat : option (PeerAddr P);
}.
Definition default_options : RunOptions :=
  {| key_path := None; opt_listen_addr := None; external_addrs := []; autonat := None |}.

Inductive Mode : Type :=
  | DirectListen (options : RunOptions)
  | DirectDial (target : PeerAddr P) (options : RunOptions)
  | RelayListen (relay : PeerAddr P) (options : RunOptions)
  | RelayDial (relay : PeerAddr P) (target : P) (options : RunOptions)
  | AutoNatServer (options : RunOptions).

(** [CliError] is its text. *)
Definition CliError : Type := string.

Definition has_relay_mode_only_flags (o : RunOptions) : bool :=
  negb (bool_decide (external_addrs o = [])) || bool_decide (is_Some (autonat o)).

Record Flags : Type := { relay : option (PeerAddr P); target : option P; options : RunOptions }.
Definition no_flags : Flags := {| relay := None; target := None; options := default_options |}.

Definition set_relay (a : PeerAddr P) (f : Flags) : Flags :=
  {| relay := Some a; target := target f; options := options f |}.
Definition set_target (p : P) (f : Flags) : Flags :=
  {| relay := relay f; target := Some p; options := options f |}.
Definition set_options (o : RunOptions) (f : Flags) : Flags :=
  {| relay := relay f; target := target f; options := o |}.
Definition set_key_path (v : string) (o : RunOptions) : RunOptions :=
  {| key_path := Some v; opt_listen_addr := opt_listen_addr o; external_addrs := external_addrs o; autonat := autonat o |}.
Definition set_listen_addr (a : Multiaddr P) (o : RunOptions) : RunOptions :=
  {| key_path := key_path o; opt_listen_addr := Some a; external_addrs := external_addrs o; autonat := autonat o |}.
Definition push_external_addr (a : Multiaddr P) (o : RunOptions) : RunOptions :=
  {| key_path := key_path o; opt_listen_addr := opt_listen_addr o; external_addrs := external_addrs o ++ [a]; autonat := autonat o |}.
Definition set_autonat (a : PeerAddr P) (o : RunOptions) : RunOptions :=
  {| key_path := key_path o; opt_listen_addr := opt_listen_addr o; external_addrs := external_addrs o; autonat := Some a |}.

(** [args.get(i + 1)], given the arguments after [args[i]]. *)
Definition flag_value (rest : list string) (key : string) : res CliError string :=
  ok_or (head rest) ("flag '" ++ key ++ "' requires a value")%string.

Definition parse_quic_multiaddr (flag value : string) : res CliError (Multiaddr P) :=
  addr ← map_err (λ e, "invalid " ++ flag ++ " '" ++ value ++ "': " ++ to_string e)%string (parse_multiaddr value);
  if negb (is_quic_transport addr)
  then Err (flag ++ " must be /ip4|ip6|dns|dns4|dns6/<host>/udp/<port>/quic-v1, got '" ++ value ++ "'")%string
  else Ok addr.

Definition is_ip_host (addr : Multiaddr P) : bool :=
  match head (protocols addr) with Some (Ip4 _ | Ip6 _) => true | _ => false end.

(** [if x.is_some() { return Err(..) }]. *)
Definition once {A} (o : option A) (flag : string) : res CliError unit :=
  match o with Some _ => Err (flag ++ " specified twice")%string | None => Ok () end.

(** The arms of [match key.as_str()]. *)
Definition set_flag (key : string) (rest : list string) (f : Flags) : res CliError Flags :=
  let o := options f in
  if decide (key = "--relay"%string) then
    value ← flag_value rest key;
    _ ← once (relay f) key;
    a ← map_err (λ e, "invalid --relay '" ++ value ++ "': " ++ to_string e)%string (peer_addr_from_str value);
    Ok (set_relay a f)
  else if decide (key = "--target"%string) then
    value ← flag_value rest key;
    _ ← once (target f) key;
    p ← map_err (λ e, "invalid --target peer id '" ++ value ++ "': " ++ to_string e)%string (pid_from_str value);
    Ok (set_target p f)
  else if decide (key = "--key"%string) then
    value ← flag_value rest key;
    _ ← once (key_path o) key;
    Ok (set_options (set_key_path value o) f)
  else if decide (key = "--listen"%string) then
    value ← flag_value rest key;
    _ ← once (opt_listen_addr o) key;
    addr ← parse_quic_multiaddr "--listen" value;
    if negb (is_ip_host addr) then Err ("--listen requires /ip4 or /ip6 host, got '" ++ value ++ "'")%string
    else Ok (set_options (set_listen_addr addr o) f)
  else if decide (key = "--external-addr"%string) then
    value ← flag_value rest key;
    addr ← parse_quic_multiaddr "--external-addr" value;
    Ok (set_options (push_external_addr addr o) f)
  else if decide (key = "--autonat"%string) then
    value ← flag_value rest key;
    _ ← once (autonat o) key;
    a ← map_err (λ e, "invalid --autonat peer-addr '" ++ value ++ "': " ++ to_string e)%string (peer_addr_from_str value);
    Ok (set_options (set_autonat a o) f)
  else Err ("unknown flag '" ++ key ++ "'")%string.

(** [Flags::from]: each round takes a key and its value. *)
Fixpoint flags_loop (args : list string) (f : Flags) : res CliError Flags :=
  match args with
  | [] => Ok f
  | key :: rest =>
      f ← set_flag key rest f;
      match rest with [] => Ok f | _ :: rest => flags_loop rest f end
  end.
Definition flags_from (args : list string) : res CliError Flags := flags_loop args no_flags.

Definition relay_only : CliError := "--autonat and --external-addr are only valid with relay modes".

Definition parse_listen (args : list string) : res CliError Mode :=
  flags ← flags_from args;
  if decide (is_Some (target flags)) then Err "--target is only valid with `dial --relay`"%string
  else
    let options := options flags in
    if bool_decide (relay flags = None) && has_relay_mode_only_flags options then Err relay_only
    else match relay flags with
         | None => Ok (DirectListen options)
         | Some relay => Ok (RelayListen relay options)
         end.

(** The loop of [parse_dial]: flags with their values are set aside. *)
Fixpoint split_args (args positional rest : list string) : res CliError (list string * list string) :=
  match args with
  | [] => Ok (positional, rest)
  | arg :: args =>
      if starts_with "--" arg then
        match args with
        | [] => Err ("flag '" ++ arg ++ "' requires a value")%string
        | value :: args => split_args args positional (rest ++ [arg; value])
        end
      else split_args args (positional ++ [arg]) rest
  end.

Definition parse_dial (args : list string) : res CliError Mode :=
  '(positional, rest) ← split_args args [] [];
  flags ← flags_from rest;
  let options := options flags in
  match positional, relay flags, target flags with
  | [raw], None, None =>
      if has_relay_mode_only_flags options then Err relay_only
      else
        target ← map_err (λ e, "invalid peer-addr '" ++ raw ++ "': " ++ to_string e)%string (peer_addr_from_str raw);
        Ok (DirectDial target options)
  | [], Some relay, Some target => Ok (RelayDial relay target options)
  | [], Some _, None => Err "`dial --relay <addr>` requires `--target <peer-id>`"%string
  | [], None, Some _ => Err "`--target` requires `--relay <relay-peer-addr>`"%string
  | _ :: _ :: _, _, _ =>
      Err ("expected exactly one positional <peer-addr>, got " ++ to_string (length positional))%string
  | _, _, _ => Err usage
  end.

Definition parse_autonat (args : list string) : res CliError Mode :=
  flags ← flags_from args;
  if bool_decide (is_Some (relay flags)) || bool_decide (is_Some (target flags)) || has_relay_mode_only_flags (options flags)
  then Err "`autonat` accepts only --key and --listen"%string
  else Ok (AutoNatServer (options flags)).

Definition parse (args : list string) : res CliError Mode :=
  match args with
  | [] => Err usage
  | subcommand :: args =>
      if decide (subcommand = "listen"%string) then parse_listen args
      else if decide (subcommand = "dial"%string) then parse_dial args
      else if decide (subcommand = "autonat"%string) then parse_autonat args
      else if decide (subcommand = "-h"%string ∨ subcommand = "--help"%string ∨ subcommand = "help"%string) then Err usage
      else Err ("unknown subcommand '" ++ subcommand ++ "'" ++ String "010" (String "010" usage))%string
  end.

(** ** What is accepted *)

(** Addresses as the parser makes them. *)
Definition addr_parsed (a : Multiaddr P) : Prop := protocols a ≠ [] ∧ Forall parsed_ok (protocols a).
Definition peer_parsed (a : PeerAddr P) : Prop :=
  peer_addr_ok a ∧ Forall parsed_ok (protocols (pa_transport a)) ∧ pid_ok (pa_peer_id a).

Definition options_ok (o : RunOptions) : Prop :=
  (∀ a, opt_listen_addr o = Some a → addr_parsed a ∧ is_quic_transport a = true ∧ is_ip_host a = true) ∧
  Forall (λ a, addr_parsed a ∧ is_quic_transport a = true) (external_addrs o) ∧
  (∀ a, autonat o = Some a → peer_parsed a).

Definition mode_ok (m : Mode) : Prop :=
  match m with
  | DirectListen o => options_ok o ∧ has_relay_mode_only_flags o = false
  | DirectDial t o => peer_parsed t ∧ options_ok o ∧ has_relay_mode_only_flags o = false
  | RelayListen r o => peer_parsed r ∧ options_ok o
  | RelayDial r t o => peer_parsed r ∧ pid_ok t ∧ options_ok o
  | AutoNatServer o => options_ok o ∧ has_relay_mode_only_flags o = false
  end.

Definition flags_ok (f : Flags) : Prop :=
  (∀ a, relay f = Some a → peer_parsed a) ∧ (∀ p, target f = Some p → pid_ok p) ∧ options_ok (options f).

(** A computation that returns, and with a good value if it succeeds. *)
Definition returns {E A} (Q : A → Prop) (r : res E A) : Prop :=
  match r with Ok a => Q a | Err _ => True | Panic => False end.

Lemma returns_bind {E A B} (Q : A → Prop) (R : B → Prop) (r : res E A) (k : A → res E B) :
  returns Q r → (∀ a, Q a → returns R (k a)) → returns R (r ≫= k).
Proof. destruct r; cbn; auto. Qed.
Lemma returns_map_err {E F A} (Q : A → Prop) (g : E → F) (r : res E A) : returns Q r → returns Q (map_err g r).
Proof. by destruct r. Qed.

Lemma peer_addr_returns s : name_ok s → returns peer_parsed (peer_addr_from_str s).
Proof. intros Hs. exact (peer_addr_from_str_inv s Hs). Qed.

Lemma flag_value_returns rest key : Forall name_ok rest → returns name_ok (flag_value rest key).
Proof. intros H. unfold flag_value. destruct rest; cbn; [done|]. by apply Forall_cons in H as [H _]. Qed.

Lemma once_returns {A} (o : option A) flag : returns (λ _, True) (once o flag).
Proof. by destruct o. Qed.

Lemma quic_multiaddr_returns flag s : name_ok s →
  returns (λ a, addr_parsed a ∧ is_quic_transport a = true) (parse_quic_multiaddr flag s).
Proof.
  intros Hs. unfold parse_quic_multiaddr. apply (returns_bind addr_parsed); [apply returns_map_err; exact (parse_multiaddr_inv s Hs)|].
  intros a Ha. by destruct (is_quic_transport a) eqn:E.
Qed.

Lemma set_flag_returns key rest f : Forall name_ok rest → flags_ok f → returns flags_ok (set_flag key rest f).
Proof.
  intros Hrest (Hr & Ht & Ho). pose proof Ho as (Hl & He & Ha). unfold set_flag, flags_ok, options_ok.
  repeat case_decide; try done; (apply (returns_bind name_ok); [by apply flag_value_returns|]); intros value Hv;
    try (apply (returns_bind (λ _, True)); [by apply once_returns|]; intros _ _).
  - apply (returns_bind peer_parsed); [by apply returns_map_err, peer_addr_returns|]. intros a Hpa.
    split_and!; cbn; try done. by intros a' [= <-].
  - apply (returns_bind pid_ok).
    { apply returns_map_err. destruct (pid_from_str value) eqn:E; cbn; [by apply pid_from_str_ok in E|done|by apply pid_from_str_no_panic in E]. }
    intros p Hp. split_and!; cbn; try done. by intros p' [= <-].
  - by split_and!.
  - eapply returns_bind; [by apply quic_multiaddr_returns|]. intros a [Hpa Hq]. destruct (is_ip_host a) eqn:Eh; cbn [negb]; [|done].
    split_and!; cbn; try done. by intros a' [= <-].
  - eapply returns_bind; [by apply quic_multiaddr_returns|]. intros a [Hpa Hq]. split_and!; cbn; try done.
    apply Forall_app. split; [done|]. by apply Forall_singleton.
  - apply (returns_bind peer_parsed); [by apply returns_map_err, peer_addr_returns|]. intros a Hpa.
    split_and!; cbn; try done. by intros a' [= <-].
Qed.

Lemma flags_loop_returns args f : Forall name_ok args → flags_ok f → returns flags_ok (flags_loop args f).
Proof.
  assert (∀ n args f, (length args < n)%nat → Forall name_ok args → flags_ok f → returns flags_ok (flags_loop args f)) as H; [|eauto].
  clear. induction n as [|n IH]; intros args f Hn Hargs Hf; [lia|]. destruct args as [|key rest]; cbn [flags_loop]; [done|].
  apply Forall_cons in Hargs as [_ Hrest]. eapply returns_bind; [by apply set_flag_returns|]. intros f' Hf'.
  destruct rest as [|v rest]; [done|]. apply Forall_cons in Hrest as [_ Hrest]. apply IH; [cbn in *; lia|done..].
Qed.

Lemma no_flags_ok : flags_ok no_flags.
Proof. by split_and!. Qed.

Lemma split_args_returns args pos rest : Forall name_ok args → Forall name_ok pos → Forall name_ok rest →
  returns (λ pr, Forall name_ok pr.1 ∧ Forall name_ok pr.2) (split_args args pos rest).
Proof.
  assert (∀ n args pos rest, (length args < n)%nat → Forall name_ok args → Forall name_ok pos → Forall name_ok rest →
    returns (λ pr, Forall name_ok pr.1 ∧ Forall name_ok pr.2) (split_args args pos rest)) as H; [|eauto].
  clear. induction n as [|n IH]; intros args pos rest Hn Ha Hp Hr; [lia|]. destruct args as [|arg args]; cbn [split_args]; [done|].
  apply Forall_cons in Ha as [Harg Hargs]. case_match.
  - destruct args as [|v args]; [done|]. apply Forall_cons in Hargs as [Hv Hargs]. apply IH; [cbn in *; lia|done..|].
    apply Forall_app. split; [done|]. by do 2 (apply Forall_cons; split; [done|]).
  - apply IH; [cbn in *; lia|done| |done]. apply Forall_app. split; [done|]. by apply Forall_singleton.
Qed.

Lemma parse_returns args : Forall name_ok args → returns mode_ok (parse args).
Proof.
  intros Hargs. unfold parse. destruct args as [|sub args]; [done|]. apply Forall_cons in Hargs as [_ Hargs].
  assert (∀ l, Forall name_ok l → returns flags_ok (flags_from l)) as Hfrom by (intros; by apply flags_loop_returns, no_flags_ok).
  repeat case_decide; try done.
  - unfold parse_listen. eapply returns_bind; [by apply Hfrom|]. intros f (Hr & _ & Ho). case_decide; [done|].
    destruct (relay f) as [r|] eqn:Er; cbn.
    + by split; [apply Hr|].
    + by destruct (has_relay_mode_only_flags (options f)) eqn:E.
  - unfold parse_dial. eapply returns_bind; [by apply (split_args_returns args [] [])|]. intros [pos rest] [Hpos Hrest].
    eapply returns_bind; [by apply Hfrom|]. intros f (Hr & Ht & Ho). cbn [fst snd] in *.
    destruct pos as [|raw [|? ?]], (relay f) as [r|] eqn:Er, (target f) as [t|] eqn:Et; cbn; try done.
    + by split_and!; [apply Hr|apply Ht|..].
    + destruct (has_relay_mode_only_flags (options f)) eqn:E; [done|]. apply Forall_cons in Hpos as [Hraw _].
      apply (returns_bind peer_parsed); [by apply returns_map_err, peer_addr_returns|]. by intros a Ha.
  - unfold parse_autonat. eapply returns_bind; [by apply Hfrom|]. intros f (_ & _ & Ho).
    destruct (has_relay_mode_only_flags (options f)) eqn:E; [by rewrite orb_true_r|]. by case_match.
Qed.


(** ** Writing a mode as a command line *)

Definition option_args (o : RunOptions) : list string :=
  (match key_path o with Some k => ["--key"%string; k] | None => [] end)
  ++ (match opt_listen_addr o with Some a => ["--listen"%string; to_string a] | None => [] end)
  ++ (external_addrs o ≫= λ a, ["--external-addr"%string; to_string a])
  ++ (match autonat o with Some a => ["--autonat"%string; to_string a] | None => [] end).

Definition argv (m : Mode) : list string :=
  match m with
  | DirectListen o => "listen"%string :: option_args o
  | DirectDial t o => "dial"%string :: to_string t :: option_args o
  | RelayListen r o => "listen"%string :: "--relay"%string :: to_string r :: option_args o
  | RelayDial r t o => "dial"%string :: "--relay"%string :: to_string r :: "--target"%string :: to_string t :: option_args o
  | AutoNatServer o => "autonat"%string :: option_args o
  end.

(** The peer ids of a mode must print readably ([PeerIdText]); everything else does. *)
Definition mode_peers (m : Mode) : list P :=
  let peers o := pa_peer_id <$> option_list (autonat o) in
  match m with
  | DirectListen o | AutoNatServer o => peers o
  | DirectDial t o => pa_peer_id t :: peers o
  | RelayListen r o => pa_peer_id r :: peers o
  | RelayDial r t o => pa_peer_id r :: t :: peers o
  end.

Lemma no_peer_printable ps : Forall parsed_ok ps → Forall (λ p, is_p2p p = false) ps → Forall printable ps.
Proof.
  intros Hp Hn. rewrite Forall_forall in *. intros p Hin. split; [by apply Hp|]. specialize (Hn p Hin). by destruct p.
Qed.

Lemma peer_text a : peer_parsed a → pid_printable (pa_peer_id a) → peer_addr_from_str (to_string a) = Ok a.
Proof.
  intros (Ha & Ht & _) Hp. apply peer_addr_from_display; [done| |done]. apply no_peer_printable; [done|]. by destruct Ha.
Qed.

Lemma quic_text flag a : addr_parsed a → is_quic_transport a = true → parse_quic_multiaddr flag (to_string a) = Ok a.
Proof.
  intros [Hne Hp] Hq. unfold parse_quic_multiaddr. rewrite parse_display; [cbn; by rewrite Hq|done|].
  apply no_peer_printable; [done|]. destruct a as [ps]. unfold is_quic_transport in Hq. cbn [protocols] in *.
  destruct ps as [|p1 [|[] [|[] [|? ?]]]]; try discriminate Hq. destruct p1; try discriminate Hq; by each.
Qed.

Lemma flags_loop_pair key v rest f f' : set_flag key [v] f = Ok f' → flags_loop (key :: v :: rest) f = flags_loop rest f'.
Proof.
  intros H. cbn [flags_loop]. assert (set_flag key (v :: rest) f = set_flag key [v] f) as -> by done. by rewrite H.
Qed.

(** The options of a command line, added to options without them. *)
Lemma flags_external addrs rest f : Forall (λ a, addr_parsed a ∧ is_quic_transport a = true) addrs →
  flags_loop ((addrs ≫= λ a, ["--external-addr"%string; to_string a]) ++ rest) f
  = flags_loop rest (set_options (foldl (λ o a, push_external_addr a o) (options f) addrs) f).
Proof.
  intros Ha. revert f. induction Ha as [|a addrs [Hp Hq] _ IH]; intros f; cbn [mbind list_bind app foldl].
  - by destruct f.
  - rewrite (flags_loop_pair _ _ _ _ (set_options (push_external_addr a (options f)) f)); [by rewrite IH|].
    unfold set_flag. decides. cbn [flag_value head ok_or mbind res_bind]. by rewrite quic_text.
Qed.

Lemma push_external_all o addrs :
  foldl (λ o a, push_external_addr a o) o addrs
  = {| key_path := key_path o; opt_listen_addr := opt_listen_addr o; external_addrs := external_addrs o ++ addrs; autonat := autonat o |}.
Proof.
  revert o. induction addrs as [|a addrs IH]; intros o; cbn [foldl]; [rewrite app_nil_r; by destruct o|]. rewrite IH. cbn. by rewrite <- app_assoc.
Qed.

Lemma flags_options o f : options_ok o → (∀ a, autonat o = Some a → pid_printable (pa_peer_id a)) → options f = default_options →
  flags_loop (option_args o) f = Ok (set_options o f).
Proof.
  intros (Hl & He & Ha) Hp Hf. destruct o as [key listen ext auto]. unfold option_args. cbn [key_path opt_listen_addr external_addrs autonat] in *.
  set (f1 := set_options {| key_path := key; opt_listen_addr := None; external_addrs := []; autonat := None |} f).
  set (f2 := set_options {| key_path := key; opt_listen_addr := listen; external_addrs := []; autonat := None |} f).
  set (f3 := set_options {| key_path := key; opt_listen_addr := listen; external_addrs := ext; autonat := None |} f).
  assert (∀ rest, flags_loop ((match key with Some k => ["--key"%string; k] | None => [] end) ++ rest) f = flags_loop rest f1) as E1.
  { intros rest. destruct key as [k|]; cbn [app]; [|f_equal; destruct f; cbn in *; by rewrite Hf].
    apply flags_loop_pair. unfold set_flag. decides. cbn. by rewrite Hf. }
  assert (∀ rest, flags_loop ((match listen with Some a => ["--listen"%string; to_string a] | None => [] end) ++ rest) f1 = flags_loop rest f2) as E2.
  { intros rest. destruct listen as [a|]; cbn [app]; [|done]. destruct (Hl a eq_refl) as (Hpa & Hq & Hip).
    apply flags_loop_pair. unfold set_flag. decides. cbn [flag_value head ok_or mbind res_bind once options f1 set_options opt_listen_addr].
    rewrite quic_text by done. cbn [mbind res_bind]. by rewrite Hip. }
  assert (∀ rest, flags_loop ((ext ≫= λ a, ["--external-addr"%string; to_string a]) ++ rest) f2 = flags_loop rest f3) as E3.
  { intros rest. rewrite flags_external by done. by rewrite push_external_all. }
  rewrite E1, E2, E3. destruct auto as [a|]; [|done].
  rewrite (flags_loop_pair _ _ [] _ (set_options {| key_path := key; opt_listen_addr := listen; external_addrs := ext; autonat := Some a |} f)); [done|].
  unfold set_flag. decides. cbn [flag_value head ok_or mbind res_bind once options f3 set_options autonat]. by rewrite peer_text by auto.
Qed.

(** Flags are set aside by [dial], positional arguments kept. *)
Lemma split_args_pair key v args pos rest : starts_with "--" key = true →
  split_args (key :: v :: args) pos rest = split_args args pos (rest ++ [key; v]).
Proof. intros H. cbn [split_args]. by rewrite H. Qed.

Lemma split_option_args o pos rest : split_args (option_args o) pos rest = Ok (pos, rest ++ option_args o).
Proof.
  unfold option_args. destruct o as [key listen ext auto]. cbn [key_path opt_listen_addr external_addrs autonat].
  assert (∀ (o : option string) flag args rest, starts_with "--" flag = true →
    split_args ((match o with Some v => [flag; v] | None => [] end) ++ args) pos rest
    = split_args args pos (rest ++ match o with Some v => [flag; v] | None => [] end)) as Hopt.
  { intros [v|] flag args r Hflag; cbn [app]; [by apply split_args_pair|by rewrite app_nil_r]. }
  rewrite Hopt by reflexivity.
  assert (∀ args r, split_args ((match listen with Some a => ["--listen"%string; to_string a] | None => [] end) ++ args) pos r
    = split_args args pos (r ++ match listen with Some a => ["--listen"%string; to_string a] | None => [] end)) as ->.
  { intros args r. specialize (Hopt (to_string <$> listen) "--listen"%string args r eq_refl). by destruct listen. }
  assert (∀ args r, split_args ((ext ≫= λ a, ["--external-addr"%string; to_string a]) ++ args) pos r
    = split_args args pos (r ++ (ext ≫= λ a, ["--external-addr"%string; to_string a]))) as ->.
  { clear. induction ext as [|a ext IH]; intros args r; cbn [mbind list_bind app]; [by rewrite app_nil_r|].
    rewrite split_args_pair by reflexivity. rewrite IH. by rewrite <- app_assoc. }
  specialize (Hopt (to_string <$> auto) "--autonat"%string [] (((rest ++ match key with Some k => ["--key"%string; k] | None => [] end)
    ++ match listen with Some a => ["--listen"%string; to_string a] | None => [] end)
    ++ (ext ≫= λ a, ["--external-addr"%string; to_string a])) eq_refl).
  rewrite app_nil_r in Hopt. destruct auto; cbn [fmap option_fmap option_map app] in *; rewrite Hopt; cbn [split_args]; by rewrite <- !app_assoc.
Qed.


Lemma parse_argv m : mode_ok m → Forall pid_printable (mode_peers m) → parse (argv m) = Ok m.
Proof.
  assert (∀ o : RunOptions, Forall pid_printable (pa_peer_id <$> option_list (autonat o)) →
    ∀ a, autonat o = Some a → pid_printable (pa_peer_id a)) as Hauto.
  { intros o H a E. rewrite E in H. by apply Forall_cons in H as [H _]. }
  assert (∀ o, set_options o no_flags = {| relay := None; target := None; options := o |}) as Hset by done.
  destruct m as [o|t o|r o|r t o|o]; cbn [argv mode_peers mode_ok]; unfold parse; decides.
  - intros [Ho Hr] Hp. unfold parse_listen, flags_from. rewrite (flags_options o) by (done || by apply Hauto). cbn [mbind res_bind]. rewrite Hset. cbn.
    by rewrite Hr.
  - intros (Ht & Ho & Hr) [Hpt Hp]%Forall_cons. unfold parse_dial. cbn [split_args].
    assert (starts_with "--" (to_string t) = false) as ->.
    { unfold to_string, PeerAddr_display, to_string, Multiaddr_display, to_multiaddr, starts_with. cbn [protocols].
      rewrite (display_segments (P:=P)). destruct Ht as ([Hne _] & _ & _). destruct (protocols (pa_transport t)) as [|p ps]; [done|].
      destruct p; reflexivity. }
    rewrite split_option_args. cbn [mbind res_bind app]. unfold flags_from. rewrite (flags_options o) by (done || by apply Hauto).
    cbn [mbind res_bind]. rewrite Hset. cbn [relay target options]. rewrite Hr, peer_text by done. done.
  - intros (Hr & Ho) [Hpr Hp]%Forall_cons. unfold parse_listen, flags_from.
    rewrite (flags_loop_pair _ _ _ _ (set_relay r no_flags)).
    + rewrite (flags_options o) by (done || by apply Hauto). done.
    + unfold set_flag. decides. cbn [flag_value head ok_or mbind res_bind once relay no_flags]. by rewrite peer_text.
  - intros (Hr & Ht & Ho) [Hpr [Hpt Hp]%Forall_cons]%Forall_cons. unfold parse_dial.
    rewrite !split_args_pair by reflexivity. rewrite split_option_args. cbn [mbind res_bind app]. unfold flags_from.
    rewrite (flags_loop_pair _ _ _ _ (set_relay r no_flags)).
    + rewrite (flags_loop_pair _ _ _ _ (set_target t (set_relay r no_flags))); [by rewrite (flags_options o) by (done || by apply Hauto)|].
      unfold set_flag. decides. cbn [flag_value head ok_or mbind res_bind once target set_relay no_flags]. by rewrite pid_text_roundtrip.
    + unfold set_flag. decides. cbn [flag_value head ok_or mbind res_bind once relay no_flags]. by rewrite peer_text.
  - intros [Ho Hr] Hp. unfold parse_autonat, flags_from. rewrite (flags_options o) by (done || by apply Hauto). cbn [mbind res_bind]. rewrite Hset. cbn.
    by rewrite Hr.
Qed.

(** C40. The command line: every mode whose peer ids are of the identity or SHA-256 hash
    ([pid_printable]: those whose base58 text is read back) can be written as one and is
    read back from it.  Whatever the arguments are, the parser returns a message or a
    mode whose addresses are well-formed, whose listening address is a QUIC address of an
    IP host, whose external addresses are QUIC addresses, and which has relay options
    only with a relay; and if the peer ids of that mode are of these hashes, the accepted
    command line means the same as its canonical form. *)
Theorem cli_modes m args :
  (mode_ok m → Forall pid_printable (mode_peers m) → parse (argv m) = Ok m) ∧
  (Forall name_ok args →
   match parse args with
   | Ok m' => mode_ok m' ∧ (Forall pid_printable (mode_peers m') → parse (argv m') = Ok m')
   | Err _ => True
   | Panic => False
   end).
Proof.
  split; [apply parse_argv|]. intros Hargs. pose proof (parse_returns args Hargs) as H.
  destruct (parse args) as [m'|e|]; [|done..]. split; [exact H|]. by apply parse_argv.
Qed.

End cli.

(** ** Concrete command lines *)

Definition demo_peer_id : PeerId PlainMultihash := {| multihash := demo_mh |}.
Definition demo_relay : PeerAddr (PeerId PlainMultihash) :=
  {| pa_transport := {| protocols := [Ip4 [x7f; x00; x00; x01]; Udp 4001; QuicV1] |}; pa_peer_id := demo_peer_id |}.
Definition demo_mode : Mode (P:=PeerId PlainMultihash) :=
  RelayDial demo_relay demo_peer_id
    {| key_path := Some "./peer.key"%string; opt_listen_addr := Some {| protocols := [Ip6 (replicate 16 x00); Udp 0; QuicV1] |};
       external_addrs := [{| protocols := [Dns "example.com"; Udp 4001; QuicV1] |}]; autonat := Some demo_relay |}.

Lemma demo_relay_parsed : peer_parsed demo_relay.
Proof.
  unfold demo_relay. split_and!; [split; [done|cbn [protocols pa_transport]; by each]| |done].
  cbn [protocols pa_transport]. each; (split; [cbn; try done; lia|done]).
Qed.

Lemma demo_mode_ok : mode_ok demo_mode ∧ Forall pid_printable (mode_peers demo_mode).
Proof.
  split.
  - split; [exact demo_relay_parsed|]. split; [exact (proj2 (proj2 demo_relay_parsed))|]. unfold options_ok. split_and!.
    + intros a [= <-]. split_and!; [split; [done|]; cbn [protocols]; each; (split; [cbn; try done; lia|done])|done|done].
    + apply Forall_singleton. split; [|done]. split; [done|].
      cbn [protocols]. each; (split; [|done]); cbn; try done; try lia; split; vm_compute; done.
    + intros a [= <-]. exact demo_relay_parsed.
  - assert (pid_printable demo_peer_id) as Hd by (split; [done|by right]). 
    change (Forall pid_printable [demo_peer_id; demo_peer_id; demo_peer_id]). by each.
Qed.

Lemma cli_modes_witness :
  parse (argv demo_mode) = Ok demo_mode ∧ parse (P:=PeerId PlainMultihash) ["listen"%string; "--key"%string] ≠ Panic.
Proof.
  split.
  - apply (cli_modes demo_mode []); apply demo_mode_ok.
  - intros E. pose proof (proj2 (cli_modes demo_mode ["listen"%string; "--key"%string])) as H. rewrite E in H. apply H.
    clear. each; split; vm_compute; try done; split; congruence.
Defined.

Example refused_command_lines :
  let parse := parse (P:=PeerId PlainMultihash) in
  parse [] = Err usage ∧ parse ["help"%string] = Err usage ∧
  parse ["listen"; "--key"]%string = Err "flag '--key' requires a value"%string ∧
  parse ["listen"; "--key"; "a"; "--key"; "b"]%string = Err "--key specified twice"%string ∧
  parse ["listen"; "--external-addr"; "/ip4/1.2.3.4/udp/1/quic-v1"]%string = Err relay_only ∧
  parse ["listen"; "--listen"; "/dns/a/udp/1/quic-v1"]%string = Err "--listen requires /ip4 or /ip6 host, got '/dns/a/udp/1/quic-v1'"%string ∧
  parse ["dial"; "a"; "b"]%string = Err "expected exactly one positional <peer-addr>, got 2"%string ∧
  parse ["dial"; "--key"; "k"]%string = Err usage.
Proof. split_and!; vm_compute; reflexivity. Qed.
