(* ===== verification/ErrorText.v ===== *)
(** * The texts of errors and states ([Display] and [Debug] of the protocol crates)

    What the example peer prints and fails with: the [#[error(..)]] texts of the relay,
    DCUtR and AutoNAT errors and the derived [Debug] texts of their states. *)
From S2P Require Import Prelude Varint RelayMessage DcutrMessage AutonatMessage SwarmEvents.
From S2P Require Relay Dcutr.
From Stdlib Require Import ZArith Strings.Byte Strings.String.
From stdpp Require Import base numbers list strings pretty.

#[local] Open Scope Z_scope.
#[local] Open Scope string_scope.

(** [Debug] of a string escapes with the tables of Unicode. *)
Class StrDebug := str_debug : string → string.

#[local] Abbreviation n := (to_string (A:=nat)).
#[local] Abbreviation z := (to_string (A:=Z)).

(** The texts the three message decoders share. *)
Definition varint_text (e : VarintError) : string := "varint error: " ++ to_string e.
Definition field_overflow_text (offset : nat) (length : Z) (remaining : nat) : string :=
  "field at offset " ++ n offset ++ " claims length " ++ z length ++ " but only " ++ n remaining ++ " bytes remain".
Definition wire_type_text (wire_type : Z) (offset : nat) : string :=
  "unsupported wire type " ++ z wire_type ++ " at offset " ++ n offset.
Definition missing_type_text : string := "required `type` field missing".

#[export] Instance RelayMessageError_display : Display RelayMessageError := λ e,
  match e with
  | RelayMessage.Varint e => varint_text e
  | RelayMessage.FieldOverflow offset length remaining => field_overflow_text offset length remaining
  | RelayMessage.UnsupportedWireType wire_type offset => wire_type_text wire_type offset
  | RelayMessage.MissingType => missing_type_text
  | RelayMessage.InvalidMessageType value => "invalid message type value: " ++ z value
  end.
#[export] Instance RelayError_display : Display Relay.RelayError := λ e,
  match e with
  | Relay.MessageTooLarge len =>
      "relay message exceeds maximum size (" ++ n len ++ " > " ++ z Relay.MAX_MESSAGE_SIZE ++ ")"
  | Relay.Malformed e => "malformed relay message: " ++ to_string e
  | Relay.UnexpectedMessage reason => "unexpected message: " ++ reason
  end.

#[export] Instance DcutrMessageError_display : Display DcutrMessageError := λ e,
  match e with
  | DcutrMessage.Varint e => varint_text e
  | DcutrMessage.FieldOverflow offset length remaining => field_overflow_text offset length remaining
  | DcutrMessage.UnsupportedWireType wire_type offset => wire_type_text wire_type offset
  | DcutrMessage.MissingType => missing_type_text
  | DcutrMessage.InvalidType value => "invalid HolePunch type value: " ++ z value
  end.
#[export] Instance DcutrError_display : Display Dcutr.DcutrError := λ e,
  match e with
  | Dcutr.MessageTooLarge len =>
      "DCUtR message exceeds maximum size (" ++ n len ++ " > " ++ z Dcutr.MAX_MESSAGE_SIZE ++ ")"
  | Dcutr.Malformed e => "malformed DCUtR message: " ++ to_string e
  | Dcutr.UnexpectedMessage reason => "unexpected message: " ++ reason
  end.

#[export] Instance AutoNatError_display : Display AutoNatError := λ e,
  match e with
  | AutonatMessage.MessageTooLarge len =>
      "AutoNAT message exceeds maximum size (" ++ n len ++ " > " ++ z AutonatMessage.MAX_MESSAGE_SIZE ++ ")"
  | FrameTooLarge len =>
      "AutoNAT frame length exceeds maximum size (" ++ z len ++ " > " ++ z AutonatMessage.MAX_MESSAGE_SIZE ++ ")"
  | AutonatMessage.Varint e => varint_text e
  | AutonatMessage.FieldOverflow offset length remaining => field_overflow_text offset length remaining
  | AutonatMessage.UnsupportedWireType wire_type offset => wire_type_text wire_type offset
  | AutonatMessage.MissingType => missing_type_text
  | AutonatMessage.InvalidMessageType value => "invalid message type value: " ++ z value
  | MissingField name => "required field missing: " ++ name
  | AutonatMessage.UnexpectedMessage reason => "unexpected message: " ++ reason
  | InvalidPeerId reason => "invalid peer id in AutoNAT message: " ++ reason
  end.

(** [{:?}]. *)
Definition status_debug (s : Status) : string :=
  match s with
  | Unused => "Unused" | StatusOk => "Ok" | ReservationRefused => "ReservationRefused"
  | ResourceLimitExceeded => "ResourceLimitExceeded" | PermissionDenied => "PermissionDenied"
  | ConnectionFailed => "ConnectionFailed" | NoReservation => "NoReservation"
  | MalformedMessage => "MalformedMessage" | UnexpectedMessageStatus => "UnexpectedMessage"
  end.
Definition response_status_debug (s : ResponseStatus) : string :=
  match s with
  | DialOk => "Ok" | DialError => "DialError" | DialRefused => "DialRefused"
  | BadRequest => "BadRequest" | InternalError => "InternalError"
  end.
Definition error_kind_debug `{StrDebug} (k : SwarmErrorKind) : string :=
  match k with
  | KTransport => "Transport" | KMultistream => "Multistream" | KIdentify => "Identify" | KPing => "Ping"
  | KUserProtocol protocol_id => "UserProtocol { protocol_id: " ++ str_debug protocol_id ++ " }"
  | KIdentifyStreamRejected => "IdentifyStreamRejected" | KOpenStreamFailed => "OpenStreamFailed"
  | KUnsupportedProtocol => "UnsupportedProtocol" | KDriver => "Driver"
  end.
