(* ===== verification/PeerRuntime.v ===== *)
(** * The runtime of the example peer ([examples/peer/src/runtime.rs])

    What the example uses of the machine it runs on, its errors, and its key file. *)
From S2P Require Import Prelude Utf8 TextParse Effects Varint Multibase PeerId Keys Multiaddr MultiaddrText PeerAddr Cli.
From Stdlib Require Import ZArith Strings.Byte Strings.String.
From stdpp Require Import base numbers list gmap strings.

#[local] Open Scope Z_scope.

(** ** The host *)

(** The console, the clock, the randomness and the files of the system; an operation
    that fails gives the text of its error.  Files are read as text. *)
Class Host (C : Type) := {
  stdout : string → C → C;
  stderr : string → C → C;
  (** [std::thread::sleep], in milliseconds *)
  sleep_for : Z → C → C;
  (** [getrandom::fill]; [None] when it fails *)
  fill_random : nat → C → C * option (list byte);
  (** [SigningKey::generate] over the randomness of the system *)
  generate_secret : C → C * option (list byte);
  (** nanoseconds since the epoch, if the system clock is not set before it *)
  unix_time : C → C * option Z;
  path_exists : string → C → C * bool;
  read_file : string → C → C * (string + string);
  create_dir_all : string → C → C * (string + unit);
  write_file : string → string → C → C * (string + unit);
  set_mode : string → Z → C → C * (string + unit);
}.
#[global] Hint Mode Host ! : typeclass_instances.

(** A file has the text that was last written to it.  The other operations leave the
    files alone, except that [create_dir_all] makes directories. *)
Class FileLaws (C : Type) `{Host C} := {
  file_at : C → string → option string;
  exists_file p c s : file_at c p = Some s → path_exists p c = ((path_exists p c).1, true);
  exists_keeps p c : file_at (path_exists p c).1 = file_at c;
  read_text p c s : (read_file p c).2 = inr s → file_at c p = Some s;
  read_keeps p c : file_at (read_file p c).1 = file_at c;
  write_text p s c : (write_file p s c).2 = inr () → file_at (write_file p s c).1 p = Some s;
  mode_keeps p m c : file_at (set_mode p m c).1 = file_at c;
  stdout_keeps s c : file_at (stdout s c) = file_at c;
}.

(** Every error of the example is a text in the end; [OutOfFuel] is a loop that the
    model stopped. *)
Inductive PeerError : Type := Failed (msg : string) | OutOfFuel.

(** [?] on a fallible call of the host. *)
Definition io {C A} (what : string) (f : C → C * (string + A)) : eff C PeerError A := λ c,
  let '(c, r) := f c in
  (c, match r with inl e => Err (Failed (what ++ e)) | inr a => Ok a end).
Definition println {C} `{Host C} (s : string) : eff C PeerError unit := modify (stdout s).
Definition eprintln {C} `{Host C} (s : string) : eff C PeerError unit := modify (stderr s).
Definition tagged (role s : string) : string := "[" ++ role ++ "] " ++ s.

(** ** Paths and texts *)

Definition slash : byte := x2f.
Definition dot : byte := x2e.

(** [Path::parent] on Unix, on the bytes of the path in reverse.  A component is what
    follows the last separator of the body; empty and [.] components do not count.
    [before] is the length of the part before the body. *)
Definition cut_component (body : list byte) : list byte * list byte :=
  let n := count_while (λ b, negb (Byte.eqb b slash)) body in
  (take n body, drop (S n) body).
Definition counts (component : list byte) : bool :=
  negb (bool_decide (component = []) || bool_decide (component = [dot])).
(** [next_back] in the body: whether a component was found, and the body before it. *)
Fixpoint next_back (fuel : nat) (body : list byte) : option (list byte) :=
  match fuel, body with
  | S fuel, _ :: _ =>
      let '(component, rest) := cut_component body in
      if counts component then Some rest else next_back fuel rest
  | _, _ => None
  end.
(** [trim_right]: components that do not count are cut off the end. *)
Fixpoint trim_components (fuel : nat) (body : list byte) : list byte :=
  match fuel, body with
  | S fuel, _ :: _ =>
      let '(component, rest) := cut_component body in
      if counts component then body else trim_components fuel rest
  | _, _ => body
  end.
Definition path_parent (path : string) : option string :=
  let bytes := as_bytes path in
  let has_root := bool_decide (head bytes = Some slash) in
  let cur_dir := negb has_root && bool_decide (take 1 bytes = [dot])
                 && (bool_decide (length bytes = 1%nat) || bool_decide (take 2 bytes = [dot; slash])) in
  let before := if has_root || cur_dir then 1%nat else 0%nat in
  let body := rev (drop before bytes) in
  match next_back (length body) body with
  | Some rest => Some (Prelude.from_bytes (take before bytes ++ rev (trim_components (length rest) rest)))
  | None => if cur_dir then Some EmptyString else None
  end.

(** [str::trim]. *)
Definition str_trim (s : string) : string :=
  let drop_blank l := drop (count_while is_whitespace l) l in
  str_join EmptyString (char_text <$> rev (drop_blank (rev (drop_blank (chars s))))).

(** ** The key file *)

Definition HEX : list byte := as_bytes "0123456789abcdef".
Fixpoint encode_hex (bytes : list byte) : list byte :=
  match bytes with
  | [] => []
  | b :: bytes =>
      nth (Z.to_nat (Z.shiftr (byte_Z b) 4)) HEX x00 :: nth (Z.to_nat (Z.land (byte_Z b) 15)) HEX x00 :: encode_hex bytes
  end.

Definition hex_value (b : byte) : res string Z :=
  let v := byte_Z b in
  if (0x30 <=? v) && (v <=? 0x39) then Ok (v - 0x30)
  else if (0x61 <=? v) && (v <=? 0x66) then Ok (v - 0x61 + 10)
  else if (0x41 <=? v) && (v <=? 0x46) then Ok (v - 0x41 + 10)
  else Err ("non-hex byte 0x" ++ hex02 b)%string.

(** [for idx in 0..ED25519_SECRET_KEY_LENGTH], two characters at a time. *)
Fixpoint decode_pairs (bytes : list byte) : res string (list byte) :=
  match bytes with
  | h :: l :: bytes =>
      hi ← hex_value h;
      lo ← hex_value l;
      out ← decode_pairs bytes;
      Ok (Z_byte (Z.lor (Z.shiftl hi 4) lo) :: out)
  | _ => Ok []
  end.
Definition decode_secret (input : string) : res string (list byte) :=
  let bytes := as_bytes input in
  if decide (length bytes ≠ (ED25519_SECRET_KEY_LENGTH * 2)%nat) then
    Err ("expected " ++ to_string (ED25519_SECRET_KEY_LENGTH * 2)%nat ++ " hex chars, got " ++ to_string (length bytes))%string
  else decode_pairs bytes.

Section runtime.
Context {MH : Type} `{MA : !MultihashApi MH} (sha256 : list byte → list byte).
Context {VK : Type} `{EA : !Ed25519Api VK}.
Context {C : Type} `{HC : !Host C}.

(** [Ed25519Keypair::generate]: [UnwrapErr] unwinds when there is no randomness. *)
Definition generate : eff C PeerError Ed25519Keypair := λ c,
  let '(c, r) := generate_secret c in
  (c, match r with Some secret => Ok (from_secret_key_bytes secret) | None => Panic end).

Definition write_secret (path : string) (secret : list byte) : eff C PeerError unit :=
  _ ← match path_parent path with
      | Some parent =>
          if decide (parent = EmptyString) then mret ()
          else io ("failed to create key directory " ++ parent ++ ": ") (create_dir_all parent)
      | None => mret ()
      end;
  let data := (Prelude.from_bytes (encode_hex secret) ++ Prelude.from_bytes [x0a])%string in
  _ ← io ("failed to write key file " ++ path ++ ": ") (write_file path data);
  (* mode 0o600 *)
  io ("failed to chmod key file " ++ path ++ ": ") (set_mode path 384).

(** [println!("[{role}] peer={} identity={..}", keypair.peer_id())]. *)
Definition print_identity (role : string) (keypair : Ed25519Keypair) (identity : string) : eff C PeerError unit :=
  peer ← lift (map_err (Empty_set_rect (λ _, PeerError)) (keypair_peer_id (MH:=MH) sha256 keypair));
  println (tagged role ("peer=" ++ to_string peer ++ " identity=" ++ identity))%string.

Definition load_keypair {P} (options : RunOptions (P:=P)) (role : string) : eff C PeerError Ed25519Keypair :=
  match key_path options with
  | None =>
      keypair ← generate;
      _ ← print_identity role keypair "ephemeral";
      mret keypair
  | Some path =>
      found ← state (path_exists path);
      if found : bool then
        raw ← io ("failed to read key file " ++ path ++ ": ") (read_file path);
        secret ← lift (map_err (λ e, Failed ("invalid key file " ++ path ++ ": " ++ e)) (decode_secret (str_trim raw)));
        let keypair := from_secret_key_bytes secret in
        _ ← print_identity role keypair (path ++ " persisted=loaded");
        mret keypair
      else
        keypair ← generate;
        _ ← write_secret path (secret_key keypair);
        _ ← print_identity role keypair (path ++ " persisted=created");
        mret keypair
  end.

(** ** Lemmas *)

Lemma hex_pair b :
  let h := nth (Z.to_nat (Z.shiftr (byte_Z b) 4)) HEX x00 in
  let l := nth (Z.to_nat (Z.land (byte_Z b) 15)) HEX x00 in
  (∃ hi lo, hex_value h = Ok hi ∧ hex_value l = Ok lo ∧ Z_byte (Z.lor (Z.shiftl hi 4) lo) = b) ∧
  Forall (λ c, byte_Z c < 128 ∧ is_whitespace (byte_Z c) = false) [h; l].
Proof. destruct b; (split; [eexists _, _; split_and!; reflexivity|each; split; reflexivity]). Qed.

Lemma decode_encode_hex s : decode_pairs (encode_hex s) = Ok s.
Proof.
  induction s as [|b s IH]; [done|]. cbn [encode_hex decode_pairs].
  destruct (hex_pair b) as [(hi & lo & -> & -> & Hb) _]. cbn [mbind res_bind]. rewrite IH. cbn. by rewrite Hb.
Qed.

Lemma encode_hex_chars s : Forall (λ c, byte_Z c < 128 ∧ is_whitespace (byte_Z c) = false) (encode_hex s).
Proof.
  induction s as [|b s IH]; [constructor|]. cbn [encode_hex]. destruct (hex_pair b) as [_ Hf].
  rewrite !Forall_cons in Hf. destruct Hf as (? & ? & _). by repeat apply Forall_cons_2.
Qed.

Lemma encode_hex_length s : length (encode_hex s) = (2 * length s)%nat.
Proof. induction s as [|b s IH]; [done|]. cbn [encode_hex length]. rewrite IH. lia. Qed.

Lemma ascii_text_chars l : Forall (λ b, byte_Z b < 128) l → chars (Prelude.from_bytes l) = byte_Z <$> l.
Proof. intros Hl. unfold chars. by rewrite as_from_bytes, utf8_decode_ascii. Qed.

Lemma join_ascii l : Forall (λ b, byte_Z b < 128) l →
  str_join EmptyString (char_text <$> (byte_Z <$> l)) = Prelude.from_bytes l.
Proof.
  induction 1 as [|b l Hb _ IH]; [done|]. rewrite !fmap_cons.
  transitivity (char_text (byte_Z b) ++ str_join EmptyString (char_text <$> (byte_Z <$> l)))%string.
  { apply as_bytes_inj. rewrite as_bytes_app. unfold str_join. destruct l; [by rewrite app_nil_r|].
    cbn [fmap list_fmap String.concat]. by rewrite as_bytes_app. }
  rewrite IH. unfold char_text. rewrite (proj2 (Z.ltb_lt _ _) Hb), Z_byte_byte_Z. done.
Qed.

Lemma no_blank_prefix l : Forall (λ c, is_whitespace c = false) l → drop (count_while is_whitespace l) l = l.
Proof. by destruct 1 as [|c l Hc _]; cbn [count_while]; rewrite ?Hc. Qed.

Lemma trim_line l :
  Forall (λ c, byte_Z c < 128 ∧ is_whitespace (byte_Z c) = false) l → l ≠ [] →
  str_trim (Prelude.from_bytes l ++ Prelude.from_bytes [x0a]) = Prelude.from_bytes l.
Proof.
  intros [Ha Hw]%Forall_and Hne. unfold str_trim.
  assert (chars (Prelude.from_bytes l ++ Prelude.from_bytes [x0a]) = (byte_Z <$> l) ++ [10]) as ->.
  { replace (Prelude.from_bytes l ++ Prelude.from_bytes [x0a])%string with (Prelude.from_bytes (l ++ [x0a]))
      by (apply as_bytes_inj; by rewrite as_bytes_app, !as_from_bytes).
    rewrite ascii_text_chars by (apply Forall_app; split; [done|]; each; done). by rewrite fmap_app. }
  assert (drop (count_while is_whitespace ((byte_Z <$> l) ++ [10])) ((byte_Z <$> l) ++ [10]) = (byte_Z <$> l) ++ [10]) as ->.
  { destruct l as [|c l]; [done|]. inversion Hw; simplify_eq. cbn [fmap list_fmap app count_while]. by rewrite H1. }
  rewrite rev_app_distr. cbn [rev app count_while is_whitespace]. change (is_whitespace 10) with true. cbn [drop].
  rewrite no_blank_prefix by (apply Forall_rev, Forall_fmap; done). rewrite rev_involutive. by apply join_ascii.
Qed.

Lemma secret_line secret : length secret = ED25519_SECRET_KEY_LENGTH →
  decode_secret (str_trim (Prelude.from_bytes (encode_hex secret) ++ Prelude.from_bytes [x0a])) = Ok secret.
Proof.
  intros Hl. rewrite trim_line; [|apply encode_hex_chars|]; cycle 1.
  { intros E. apply (f_equal length) in E. by rewrite encode_hex_length, Hl in E. }
  unfold decode_secret. rewrite as_from_bytes, encode_hex_length, Hl, decide_False by (intros []; done).
  apply decode_encode_hex.
Qed.


Section files.
Context `{FL : !FileLaws C}.
Context (generated_length : ∀ (c c' : C) secret, generate_secret c = (c', Some secret) → length secret = ED25519_SECRET_KEY_LENGTH).

Lemma print_identity_ok role kp identity c c' u :
  print_identity role kp identity c = (c', Ok u) →
  ∃ p, keypair_peer_id (MH:=MH) sha256 kp = Ok p ∧ file_at c' = file_at c.
Proof.
  unfold print_identity, mbind, eff_bind, lift. destruct (keypair_peer_id sha256 kp) as [p|[]|]; [|done].
  cbn. intros [= <- _]. exists p. by rewrite stdout_keeps.
Qed.

Lemma print_identity_again role kp identity c p :
  keypair_peer_id (MH:=MH) sha256 kp = Ok p →
  ∃ c', print_identity role kp identity c = (c', Ok ()) ∧ file_at c' = file_at c.
Proof. intros Hp. unfold print_identity, mbind, eff_bind, lift. rewrite Hp. eexists. split; [done|]. by rewrite stdout_keeps. Qed.

Lemma write_secret_ok path secret c c' :
  write_secret path secret c = (c', Ok ()) →
  file_at c' path = Some (Prelude.from_bytes (encode_hex secret) ++ Prelude.from_bytes [x0a])%string.
Proof.
  unfold write_secret. set (mk := match path_parent path with Some _ => _ | None => _ end).
  unfold mbind, eff_bind. destruct (mk c) as [c1 [[]|e|]]; [|done..]. unfold io.
  destruct (write_file path _ c1) as [c2 [e|[]]] eqn:Ew; [done|].
  destruct (set_mode path 384 c2) as [c3 [e|[]]] eqn:Em; [done|]. intros [= <-].
  change c3 with (c3, inr () : string + unit).1. rewrite <- Em, mode_keeps.
  change c2 with (c2, inr () : string + unit).1. rewrite <- Ew. apply write_text. by rewrite Ew.
Qed.

(** What a successful run leaves behind: the file holds the key it used. *)
Lemma load_keypair_leaves {P} (options : RunOptions (P:=P)) role path c c' kp :
  key_path options = Some path → load_keypair options role c = (c', Ok kp) →
  ∃ raw secret p, file_at c' path = Some raw ∧ decode_secret (str_trim raw) = Ok secret ∧
    kp = from_secret_key_bytes secret ∧ keypair_peer_id (MH:=MH) sha256 kp = Ok p.
Proof.
  intros Hpath. unfold load_keypair. rewrite Hpath. unfold mbind, eff_bind, state.
  destruct (path_exists path c) as [c0 [|]] eqn:Ex.
  - unfold io. destruct (read_file path c0) as [c1 [e|raw]] eqn:Er; [done|]. unfold lift.
    destruct (decode_secret (str_trim raw)) as [secret|e|] eqn:Ed; cbn [map_err]; [|done..].
    destruct (print_identity _ _ _ _) as [c2 [[]|e|]] eqn:Ep; [|done..]. intros [= <- <-].
    apply print_identity_ok in Ep as (p & Hp & ->). exists raw, secret, p. split_and!; try done.
    change c1 with (c1, inr raw : string + string).1. rewrite <- Er, read_keeps. apply read_text. by rewrite Er.
  - unfold generate. destruct (generate_secret c0) as [c1 [secret|]] eqn:Eg; [|done].
    destruct (write_secret path _ c1) as [c2 [[]|e|]] eqn:Ew; [|done..].
    destruct (print_identity _ _ _ _) as [c3 [[]|e|]] eqn:Ep; [|done..]. intros [= <- <-].
    apply print_identity_ok in Ep as (p & Hp & ->). apply write_secret_ok in Ew.
    eexists _, secret, p. split_and!; [exact Ew| |done..]. apply secret_line. by eapply generated_length.
Qed.

(** C32. A key file is an identity that lasts.  After a run with [--key path] that got
    its keypair, whether it loaded the file or created it, every later run with the same
    path whose file was not touched, and can be read, uses the same keypair, and leaves
    the files as they are. *)
Theorem key_file {P} (options options' : RunOptions (P:=P)) role role' path c c1 kp :
  key_path options = Some path → key_path options' = Some path →
  load_keypair options role c = (c1, Ok kp) →
  ∀ c2 text, file_at c2 path = file_at c1 path → (read_file path (path_exists path c2).1).2 = inr text →
    ∃ c3, load_keypair options' role' c2 = (c3, Ok kp) ∧ file_at c3 = file_at c2.
Proof.
  intros Hp1 Hp2 Hload. destruct (load_keypair_leaves _ _ _ _ _ _ Hp1 Hload) as (raw & secret & p & Hf & Hd & -> & Hp). intros c2 text Hsame Hread.
  rewrite Hf in Hsame. unfold load_keypair. rewrite Hp2. unfold mbind, eff_bind, state.
  rewrite (exists_file _ _ _ Hsame). set (c2' := (path_exists path c2).1) in *.
  assert (file_at c2' = file_at c2) as Hk by apply exists_keeps.
  assert (text = raw) as -> by (apply read_text in Hread; rewrite Hk, Hsame in Hread; by injection Hread).
  unfold io. pose proof (read_keeps path c2') as Hr. destruct (read_file path c2') as [c3 r]. cbn in Hread, Hr. subst r.
  unfold lift. rewrite Hd. cbn [map_err].
  destruct (print_identity_again role' (from_secret_key_bytes secret) (path ++ " persisted=loaded") c3 p Hp) as (c4 & -> & Hc4).
  exists c4. split; [done|]. congruence.
Qed.
End files.

End runtime.

(** ** A concrete host *)

Record DemoHost : Type := {
  dh_now : Z;
  dh_files : gmap string string;
  dh_console : list string;
}.
Definition dh_print (s : string) (c : DemoHost) : DemoHost :=
  {| dh_now := dh_now c; dh_files := dh_files c; dh_console := dh_console c ++ [s] |}.
Definition dh_wait (ms : Z) (c : DemoHost) : DemoHost :=
  {| dh_now := dh_now c + ms; dh_files := dh_files c; dh_console := dh_console c |}.
Definition dh_write (p s : string) (c : DemoHost) : DemoHost :=
  {| dh_now := dh_now c; dh_files := <[p := s]> (dh_files c); dh_console := dh_console c |}.

#[export] Instance DemoHost_host : Host DemoHost := {
  stdout := dh_print; stderr := dh_print; sleep_for := dh_wait;
  fill_random n c := (c, Some (repeat x2a n));
  generate_secret c := (c, Some (repeat x07 32));
  unix_time c := (c, Some 0);
  path_exists p c := (c, bool_decide (is_Some (dh_files c !! p)));
  read_file p c := (c, match dh_files c !! p with Some s => inr s | None => inl "No such file or directory (os error 2)"%string end);
  create_dir_all p c := (c, inr ());
  write_file p s c := (dh_write p s c, inr ());
  set_mode p m c := (c, inr ());
}.
#[export, refine] Instance DemoHost_files : FileLaws DemoHost := { file_at c p := dh_files c !! p }.
Proof.
  all: cbn; try done.
  - intros p c s ->. by rewrite bool_decide_eq_true_2 by eauto.
  - intros p c s. by destruct (dh_files c !! p); intros [= ->].
  - intros p s c _. apply lookup_insert_eq.
Defined.

Definition demo_host : DemoHost := {| dh_now := 0; dh_files := ∅; dh_console := [] |}.
Definition demo_key_options : RunOptions (P:=PeerId PlainMultihash) :=
  {| key_path := Some "keys/peer.key"%string; opt_listen_addr := None; external_addrs := []; autonat := None |}.
Definition demo_created : DemoHost * res PeerError Ed25519Keypair :=
  load_keypair (MH:=PlainMultihash) demo_sha256 demo_key_options "listen" demo_host.

Example path_parents :
  path_parent <$> ["keys/peer.key"; "peer.key"; "/peer.key"; "./peer.key"; "a//b/./c/"; "/"; ""]%string
  = [Some "keys"; Some ""; Some "/"; Some "."; Some "a//b"; None; None]%string.
Proof. by vm_compute. Qed.

Lemma demo_generated (c c' : DemoHost) secret :
  generate_secret c = (c', Some secret) → length secret = ED25519_SECRET_KEY_LENGTH.
Proof. cbn. by intros [= _ <-]. Qed.

(** The first run creates the key, the second finds it. *)
Lemma key_file_witness :
  demo_created.2 = Ok (from_secret_key_bytes (repeat x07 32)) ∧
  (load_keypair (MH:=PlainMultihash) demo_sha256 demo_key_options "dial" demo_created.1).2
    = Ok (from_secret_key_bytes (repeat x07 32)).
Proof.
  assert (demo_created.2 = Ok (from_secret_key_bytes (repeat x07 32))) as H1 by by vm_compute.
  split; [exact H1|].
  destruct (key_file (MH:=PlainMultihash) demo_sha256 (C:=DemoHost)
    demo_generated
    demo_key_options demo_key_options "listen" "dial" "keys/peer.key" demo_host demo_created.1
    (from_secret_key_bytes (repeat x07 32)) eq_refl eq_refl) with (c2 := demo_created.1)
    (text := (Prelude.from_bytes (encode_hex (repeat x07 32)) ++ Prelude.from_bytes [x0a])%string) as (c3 & E & _).
  - rewrite <- H1. by vm_compute.
  - reflexivity.
  - by vm_compute.
  - by rewrite E.
Defined.
