(* ===== verification/PeerFlows.v ===== *)
(** * The helpers of the relay mode ([examples/peer/src/relay.rs], pure part)

    How the example drives the protocol machines: each helper feeds one input and polls
    one output.  The theorems say that a whole handshake over one relayed stream, with
    the DCUtR exchange behind the relay's answer, comes out the same however the stream
    is cut into chunks; and what the example makes of addresses. *)
From S2P Require Import Prelude NetAddr SansIo Varint Protobuf Framing Multibase PeerId Multiaddr MultiaddrText PeerAddr.
From S2P Require Import RelayMessage DcutrMessage AutonatMessage ErrorText IdentifyMessage SwarmEvents.
From S2P Require Import PeerRuntime Relay Dcutr Autonat.
From Stdlib Require Import ZArith Strings.Byte Strings.String.
From stdpp Require Import base numbers list strings.

#[local] Open Scope Z_scope.

(** ** Driving a machine *)

Section drive.
Context {M I O E : Type} (handle : M → I → M * res E unit) (poll : M → option O * M) `{DE : !Display E}.

(** [match flow.poll_output() { Some(..) => .., _ => default }] *)
Definition poll_for {A} (pick : O → option A) (flow : M) : M * option A :=
  let '(o, flow) := poll flow in (flow, o ≫= pick).

(** [let _ = flow.handle_input(Flush); match flow.poll_output() { Some(Outbound(bytes)) => bytes, _ => Vec::new() }] *)
Definition flush_with (flush : I) (outbound : O → option (list byte)) (flow : M) : M * list byte :=
  let '(flow, bytes) := poll_for outbound (handle flow flush).1 in (flow, default [] bytes).

(** [flow.handle_input(input).map_err(..)?; Ok(match flow.poll_output() { .. })] *)
Definition feed_with {A} (what : string) (input : I) (pick : O → option A) (flow : M) : M * res string (option A) :=
  let '(flow, r) := handle flow input in
  match r with
  | Ok _ => let '(flow, a) := poll_for pick flow in (flow, Ok a)
  | Err e => (flow, Err (what ++ ": " ++ to_string e)%string)
  | Panic => (flow, Panic)
  end.
End drive.

Section flows.
Context {P : Type} `{PidEq : EqDecision P} `{PB : !PeerIdBytes P} `{PD : !Display P} `{PT : !PeerIdText P}.
Context (utf8_error_text : list byte → string) (overflow_checks : bool).

Definition hr_bytes (o : HopReservationOutput) : option (list byte) :=
  match o with HrOutbound bytes => Some bytes | _ => None end.
Definition hr_result (o : HopReservationOutput) : option ReservationOutcome :=
  match o with HrOutcome outcome => Some outcome | _ => None end.
Definition relay_reservation_flush : HopReservation → HopReservation * list byte :=
  flush_with (hr_handle_input overflow_checks) hr_poll_output HrFlush hr_bytes.
Definition relay_reservation_feed (flow : HopReservation) (data : list byte) : HopReservation * res string (option ReservationOutcome) :=
  feed_with (hr_handle_input overflow_checks) hr_poll_output "HOP decode" (HrData data) hr_result flow.

Definition hc_bytes (o : HopConnectOutput) : option (list byte) :=
  match o with HcOutbound bytes => Some bytes | _ => None end.
Definition hc_result (o : HopConnectOutput) : option ConnectOutcome :=
  match o with HcOutcome outcome => Some outcome | _ => None end.
Definition hc_bridged (o : HopConnectOutput) : option (list byte) :=
  match o with HcBridgeData bytes => Some bytes | _ => None end.
Definition hop_connect_flush : HopConnect → HopConnect * list byte :=
  flush_with (hc_handle_input overflow_checks) hc_poll_output HcFlush hc_bytes.
Definition hop_connect_feed (flow : HopConnect) (data : list byte) : HopConnect * res string (option ConnectOutcome) :=
  feed_with (hc_handle_input overflow_checks) hc_poll_output "HOP decode" (HcData data) hc_result flow.
Definition hop_connect_bridge_bytes (flow : HopConnect) : HopConnect * list byte :=
  let '(flow, bytes) := poll_for hc_poll_output hc_bridged flow in (flow, default [] bytes).

Definition sr_bytes (o : StopResponderOutput) : option (list byte) :=
  match o with SrOutbound bytes => Some bytes | _ => None end.
Definition sr_asked (o : StopResponderOutput) : option StopConnectRequest :=
  match o with SrRequest request => Some request | _ => None end.
Definition sr_bridged (o : StopResponderOutput) : option (list byte) :=
  match o with SrBridgeData bytes => Some bytes | _ => None end.
Definition stop_feed (flow : StopResponder) (data : list byte) : StopResponder * res string (option StopConnectRequest) :=
  feed_with (sr_handle_input overflow_checks) sr_poll_output "STOP decode" (SrData data) sr_asked flow.
Definition stop_accept_flush (flow : StopResponder) : StopResponder * res string (list byte) :=
  let '(flow, r) := feed_with (sr_handle_input overflow_checks) sr_poll_output "STOP accept" SrAccept sr_bytes flow in
  (flow, default [] <$> r).
Definition stop_bridge_bytes (flow : StopResponder) : StopResponder * list byte :=
  let '(flow, bytes) := poll_for sr_poll_output sr_bridged flow in (flow, default [] bytes).

Definition di_bytes (o : DcutrInitiatorOutput (P:=P)) : option (list byte) :=
  match o with DiOutbound bytes => Some bytes | _ => None end.
Definition di_result (o : DcutrInitiatorOutput (P:=P)) : option (InitiatorOutcome (P:=P)) :=
  match o with DiOutcome outcome => Some outcome | _ => None end.
Definition dcutr_initiator_flush : DcutrInitiator (P:=P) → DcutrInitiator * list byte :=
  flush_with (di_handle_input utf8_error_text overflow_checks) di_poll_output DiFlush di_bytes.
Definition dcutr_initiator_feed (flow : DcutrInitiator) (bytes : list byte) (rtt_ms : Z)
    : DcutrInitiator * res string (option (InitiatorOutcome (P:=P))) :=
  feed_with (di_handle_input utf8_error_text overflow_checks) di_poll_output "DCUtR decode" (DiData bytes rtt_ms) di_result flow.
Definition dcutr_initiator_send_sync_flush (flow : DcutrInitiator (P:=P)) : DcutrInitiator * res string (list byte) :=
  let '(flow, r) := di_handle_input utf8_error_text overflow_checks flow DiSendSync in
  match r with
  | Ok _ => let '(flow, bytes) := dcutr_initiator_flush flow in (flow, Ok bytes)
  | Err e => (flow, Err ("DCUtR send_sync: " ++ to_string e)%string)
  | Panic => (flow, Panic)
  end.

Definition dcutr_responder_feed (flow : DcutrResponder (P:=P)) (data : list byte) : DcutrResponder * res string unit :=
  let '(flow, r) := dr_handle_input utf8_error_text overflow_checks flow (DrData data) in
  (flow, map_err (λ e, ("DCUtR decode: " ++ to_string e)%string) r).

Definition cl_bytes (o : AutoNatClientOutput (P:=P)) : option (list byte) :=
  match o with ClOutbound bytes => Some bytes | _ => None end.
Definition cl_result (o : AutoNatClientOutput (P:=P)) : option (Reachability (P:=P)) :=
  match o with ClOutcome outcome => Some outcome | _ => None end.
Definition autonat_client_flush : AutoNatClient (P:=P) → AutoNatClient * list byte :=
  flush_with (cl_handle_input utf8_error_text) cl_poll_output ClFlush cl_bytes.
Definition autonat_client_feed (flow : AutoNatClient (P:=P)) (data : list byte)
    : AutoNatClient * res string (option (Reachability (P:=P))) :=
  feed_with (cl_handle_input utf8_error_text) cl_poll_output "AutoNAT decode" (ClData data) cl_result flow.

Definition sv_bytes (o : AutoNatServerOutput (P:=P)) : option (list byte) :=
  match o with SvOutbound bytes => Some bytes | _ => None end.
Definition sv_asked (o : AutoNatServerOutput (P:=P)) : option (AutoNatRequest (P:=P)) :=
  match o with SvRequest request => Some request | _ => None end.
Definition autonat_server_feed (flow : AutoNatServer (P:=P)) (data : list byte)
    : AutoNatServer * res string (option (AutoNatRequest (P:=P))) :=
  feed_with (sv_handle_input utf8_error_text) sv_poll_output "AutoNAT decode" (SvData data) sv_asked flow.
Definition autonat_server_flush : AutoNatServer (P:=P) → AutoNatServer * list byte :=
  flush_with (sv_handle_input utf8_error_text) sv_poll_output SvFlush sv_bytes.

(** ** Addresses *)

(** [(host, port)] of an address that starts with a host and a UDP port. *)
Definition extract_ip_port (addr : Multiaddr P) : option (string * Z) :=
  match Multiaddr.protocols addr with
  | host :: second :: _ =>
      host ← match host with
             | Ip4 b => Some (str_join "." (to_string ∘ byte_Z <$> take 4 b))
             | Ip6 b => Some (to_string (V6 b))
             | Dns v | Dns4 v | Dns6 v => Some v
             | _ => None
             end;
      match second with Udp port => Some (host, port) | _ => None end
  | _ => None
  end.

Definition any_source_matches (sources : list (Multiaddr P)) (targets : list (string * Z)) : bool :=
  match targets with
  | [] => false
  | _ => existsb (λ src, existsb (λ tgt, bool_decide (src = tgt)) targets) (omap extract_ip_port sources)
  end.

Definition dialback_bind_addrs (addr : Multiaddr P) : list string :=
  match head (Multiaddr.protocols addr) with
  | Some (Ip6 _) | Some (Dns6 _) => ["[::]:0"]
  | Some (Dns _) => ["[::]:0"; "0.0.0.0:0"]
  | _ => ["0.0.0.0:0"]
  end%string.

(** The results are computed as the loop asks for them. *)
Fixpoint merge_dialback_results {S} (results : list (S → S * res PeerError bool)) (last_error : option string)
    (saw_completion : bool) (s : S) : S * res PeerError bool :=
  match results with
  | [] =>
      (s, if saw_completion then Ok false
          else match last_error with Some error => Err (Failed error) | None => Ok false end)
  | result :: results =>
      let '(s, r) := result s in
      match r with
      | Ok true => (s, Ok true)
      | Ok false => merge_dialback_results results last_error true s
      | Err (Failed e) => merge_dialback_results results (Some e) saw_completion s
      | Err OutOfFuel => (s, Err OutOfFuel)
      | Panic => (s, Panic)
      end
  end.

(** The selection of [candidate_addrs]: external and observed addresses, then the bound
    ones, each selected by itself. *)
Definition add_bound_candidate (selection : DirectCandidateSelection (P:=P)) (candidate : DirectCandidate) : DirectCandidateSelection :=
  if existsb (λ a, bool_decide (cand_addr a = cand_addr candidate)) (accepted selection) then
    reject selection (cand_source candidate) (cand_addr candidate) Duplicate
  else {| accepted := accepted selection ++ [candidate]; rejected := rejected selection |}.
Definition add_bound_addr (selection : DirectCandidateSelection (P:=P)) (bound_addr : Multiaddr P) : DirectCandidateSelection :=
  let bound_selection := select_direct_candidates [] None (Some bound_addr) in
  let selection := foldl add_bound_candidate selection (accepted bound_selection) in
  {| accepted := accepted selection; rejected := rejected selection ++ rejected bound_selection |}.
Definition candidate_selection (bound_addrs external_addrs : list (Multiaddr P)) (observed_addr : option (Multiaddr P))
    : DirectCandidateSelection :=
  foldl add_bound_addr (select_direct_candidates external_addrs observed_addr None) bound_addrs.

Definition successful_candidates_in_original_order (candidates successful : list (Multiaddr P)) : list (Multiaddr P) :=
  filter (λ candidate, existsb (λ addr, bool_decide (addr = candidate)) successful = true) candidates.

Definition push_unique (addrs : list (Multiaddr P)) (addr : Multiaddr P) : list (Multiaddr P) :=
  if existsb (λ existing, bool_decide (existing = addr)) addrs then addrs else addrs ++ [addr].

Definition earlier_deadline (a b : Z) : Z := if a <=? b then a else b.

(** ** Events *)

Definition is_direct_connection_event (ev : SwarmEvent (P:=P)) (remote : P) : bool :=
  match ev with ConnectionEstablished peer_id => bool_decide (peer_id = remote) | _ => false end.
Definition is_bridge_closed_event (ev : SwarmEvent (P:=P)) (bridge_stream : StreamId) : bool :=
  match ev with
  | UserStreamRemoteWriteClosed _ stream_id | UserStreamClosed _ stream_id => stream_id =? bridge_stream
  | _ => false
  end.

(** [str::contains]. *)
Fixpoint contains_bytes (needle l : list byte) : bool :=
  bool_decide (needle `prefix_of` l) || match l with [] => false | _ :: l => contains_bytes needle l end.
Definition str_contains (s needle : string) : bool := contains_bytes (as_bytes needle) (as_bytes s).

Definition is_benign_retry_close_error (ev : SwarmEvent (P:=P)) : bool :=
  match ev with
  | SwarmErrorEvent error =>
      str_contains (err_detail error) "close on connection" && str_contains (err_detail error) "close error: Done"
  | _ => false
  end.

(** The address to dial this listener from the same machine ([direct.rs]). *)
Definition local_dialable_peer_addr (peer_addr : PeerAddr P) : PeerAddr P :=
  match Multiaddr.protocols (pa_transport peer_addr) with
  | [] => peer_addr
  | first :: rest =>
      let replacement :=
        match first with
        | Ip4 b => if decide (b = replicate 4 x00) then Some (Ip4 [x7f; x00; x00; x01]) else None
        | Ip6 b => if decide (b = replicate 16 x00) then Some (Ip6 (replicate 15 x00 ++ [x01])) else None
        | _ => None
        end in
      match replacement with
      | None => peer_addr
      | Some replacement =>
          match pa_new {| Multiaddr.protocols := replacement :: rest |} (pa_peer_id peer_addr) with
          | Ok rewritten => rewritten
          | _ => peer_addr
          end
      end
  end.

(** ** Candidates: properties *)

(** Selecting a bound address by itself and merging it is pushing it. *)
Lemma add_bound_push selection b : add_bound_addr selection b = push_candidate selection Listen b.
Proof.
  unfold add_bound_addr, select_direct_candidates, push_candidate. cbn [fold_left].
  destruct (is_wildcard_addr b); [by destruct selection|]. destruct (is_quic_transport b); cbn [negb]; [|by destruct selection].
  cbn [existsb accepted rejected foldl]. unfold add_bound_candidate. cbn [cand_addr cand_source].
  cbn. rewrite app_nil_r. set (seen := existsb _ _) at 3. replace (existsb _ _) with seen by done. by destruct seen, selection.
Qed.

Lemma candidate_selection_push bound external observed :
  candidate_selection bound external observed
    = push_all (candidates external observed None ++ (Build_DirectCandidate Listen <$> bound)).
Proof.
  unfold candidate_selection. rewrite select_push_all. unfold push_all. rewrite foldl_app.
  generalize (foldl (λ (s : DirectCandidateSelection (P:=P)) c, push_candidate s (cand_source c) (cand_addr c))
    {| accepted := []; rejected := [] |} (candidates external observed None)).
  induction bound as [|b bound IH]; intros s; [done|]. cbn [foldl fmap list_fmap cand_source cand_addr].
  rewrite add_bound_push. apply IH.
Qed.

Lemma successful_spec candidates successful :
  successful_candidates_in_original_order candidates successful `sublist_of` candidates ∧
  ∀ a, a ∈ successful_candidates_in_original_order candidates successful ↔ a ∈ candidates ∧ a ∈ successful.
Proof.
  unfold successful_candidates_in_original_order. split; [apply sublist_filter|].
  intros a. rewrite list_elem_of_filter, existsb_exists. setoid_rewrite bool_decide_eq_true.
  setoid_rewrite <- list_elem_of_In. naive_solver.
Qed.

(** The addresses a relayed peer offers.  The external addresses, the address the
    relay observed and all bound addresses go through one selection, as if they had been
    given to the selector together: each is accepted or refused with the selector's
    reason, in this order; the offered ones can be dialed, are pairwise different and
    none that can be dialed is missing.  What an AutoNAT service confirms filters them,
    keeping the order: exactly the confirmed ones remain. *)
Theorem relay_candidates (bound external : list (Multiaddr P)) (observed : option (Multiaddr P)) :
  let cs := candidates external observed None ++ (Build_DirectCandidate Listen <$> bound) in
  let sel := candidate_selection bound external observed in
  accepted sel = with_before PeerAddr.keep cs ∧ rejected sel = with_before refuse cs ∧
  Forall dialable (accepted sel) ∧ NoDup (into_addrs sel) ∧
  (∀ c, c ∈ cs → dialable c → cand_addr c ∈ into_addrs sel) ∧
  ∀ confirmed, let offered := successful_candidates_in_original_order (into_addrs sel) confirmed in
    offered `sublist_of` into_addrs sel ∧ ∀ a, a ∈ offered ↔ a ∈ into_addrs sel ∧ a ∈ confirmed.
Proof.
  cbv zeta. rewrite candidate_selection_push.
  destruct (push_all_spec (candidates external observed None ++ (Build_DirectCandidate Listen <$> bound)))
    as (Ha & Hr & Hd & Hn & Hin & _). split_and!; try done. intros confirmed. apply successful_spec.
Qed.


(** ** Reading an answer chunk by chunk *)

(** [loop { let data = wait(..)?; if let Some(x) = feed(.., data)? { break x; } }] on the
    chunks that arrive: the answer, and the chunks that were not read. *)
Fixpoint feed_until {M X A} (feed : M → X → M * res string (option A)) (m : M) (cs : list X)
    : M * res string (option (A * list X)) :=
  match cs with
  | [] => (m, Ok None)
  | c :: cs =>
      match feed m c with
      | (m, Ok (Some a)) => (m, Ok (Some (a, cs)))
      | (m, Ok None) => feed_until feed m cs
      | (m, Err e) => (m, Err e)
      | (m, Panic) => (m, Panic)
      end
  end.

Section await.
Context {M X A E Msg : Type} (feed : M → X → M * res string (option A)) (bytes : X → list byte).
Context (read : list byte → res E (option (Msg * list byte))) (max : Z).
Context (waiting : M → Prop) (buf : M → list byte) (set_buf : M → list byte → M) (finish : M → X → list byte → M * A).
Context (msg : Msg) (frame : list byte).
Hypothesis set_buf_waiting : ∀ m b, waiting m → waiting (set_buf m b) ∧ buf (set_buf m b) = b.
Hypothesis finish_set_buf : ∀ m b c rest, finish (set_buf m b) c rest = finish m c rest.
Hypothesis feed_incomplete : ∀ m c, waiting m → read (buf m ++ bytes c) = Ok None →
  feed m c = (set_buf m (buf m ++ bytes c), Ok None).
Hypothesis feed_complete : ∀ m c rest, waiting m → read (buf m ++ bytes c) = Ok (Some (msg, rest)) →
  feed m c = ((finish m c rest).1, Ok (Some (finish m c rest).2)).
Context {reader : MessageReader read max msg frame}.

Lemma feed_until_answer m tail cs k :
  waiting m → buffer_fits max frame (buf m) (bytes <$> cs) →
  buf m ++ concat (bytes <$> cs) = frame ++ tail → frame = buf m ++ k → k ≠ [] →
  ∃ pre c t cs', cs = pre ++ c :: cs' ∧ tail = t ++ concat (bytes <$> cs') ∧
    feed_until feed m cs = ((finish m c t).1, Ok (Some ((finish m c t).2, cs'))).
Proof using All.
  revert m k. induction cs as [|c cs IH]; intros m k Hw Hfit Hcat Hpre Hne.
  { exfalso. cbn in Hcat. rewrite app_nil_r in Hcat. apply (f_equal length) in Hcat, Hpre.
    rewrite !length_app in *. destruct k; [done|]. simpl in *. lia. }
  cbn [fmap list_fmap concat] in Hcat. rewrite app_assoc in Hcat. cbn [feed_until].
  apply buffer_fits_cons in Hfit as [Hlen Hfit]; [|rewrite Hpre, length_app; destruct k; [done|simpl; lia]].
  destruct (chunk_cases _ _ _ _ _ Hcat) as [(t & Ht & ->)|(k' & Hf & Hne' & Hr)].
  - exists [], c, t, cs. split_and!; [done..|]. rewrite (feed_complete m c t Hw); [done|].
    rewrite Ht. apply read_complete. by rewrite <- Ht.
  - rewrite feed_incomplete; [|done|by apply (read_incomplete _ k')].
    destruct (set_buf_waiting m (buf m ++ bytes c) Hw) as [Hw' Hb].
    destruct (IH (set_buf m (buf m ++ bytes c)) k') as (pre & c' & t & cs' & -> & -> & ->);
      rewrite ?Hb; [done..| |done|done|].
    + by rewrite Hr, app_assoc, <- Hf.
    + exists (c :: pre), c', t, cs'. by rewrite finish_set_buf.
Qed.
End await.

(** ** The dialer: HOP CONNECT, then DCUtR over the same stream *)

Lemma hop_connect_flush_new target :
  hop_connect_flush (hc_new target) = (hc_started target, encode_frame (hop_encode (connect_request target))).
Proof. unfold hop_connect_flush, flush_with, poll_for. cbn [hc_handle_input fst]. by rewrite hc_drain_new. Qed.

(** Waiting for the answer, everything sent and nothing told. *)
Definition hc_waits (m : HopConnect) : Prop :=
  hc_state m = Relay.AwaitingResponse ∧ hc_outbound m = [] ∧ hc_outcome m = None ∧ hc_bridge m = [].

Lemma hc_started_waits target : hc_waits (hc_started target) ∧ hc_recv_buf (hc_started target) = [].
Proof.
  unfold hc_started, hc_poll_output. cbn -[decide encode_frame]. rewrite decide_True by apply encode_frame_ne. done.
Qed.

(** The machine after the answer [msg] was read and reported, with [rest] behind it. *)
Definition hc_answered (m : HopConnect) (msg : HopMessage) (rest : list byte) : HopConnect :=
  (hc_poll_output (hc_finish m msg rest)).2.

Lemma hc_quiet_poll m : hc_waits m → hc_poll_output m = (None, m).
Proof.
  intros (Hs & Ho & Hc & Hb). destruct m; cbn in *; subst. unfold hc_poll_output. cbn -[decide].
  rewrite decide_False by (by intros []). by destruct hc_emitted.
Qed.

Lemma hc_finish_poll m msg rest :
  hc_waits m → hc_poll_output (hc_finish m msg rest) = (Some (HcOutcome (connect_outcome msg)), hc_answered m msg rest).
Proof.
  intros (Hs & Ho & Hc & Hb). unfold hc_answered, hc_poll_output, hc_finish, hc_take_outbound. cbn -[decide].
  rewrite Ho. rewrite (decide_False (P:=Done = _)) by done. cbn -[decide]. by rewrite decide_False by (by intros []).
Qed.

Lemma hop_connect_feed_quiet m c :
  hc_waits m → Relay.read_message overflow_checks hop_decode (hc_recv_buf m ++ c) = Ok None →
  hop_connect_feed m c = (hc_set_buf m (hc_recv_buf m ++ c), Ok None).
Proof.
  intros Hw Hr. unfold hop_connect_feed, feed_with, poll_for. cbn [hc_handle_input]. unfold hc_on_data.
  pose proof Hw as (Hs & _). rewrite decide_False by (by rewrite Hs). unfold hc_try_decode_response.
  rewrite decide_False by (cbn; by rewrite Hs). cbn [hc_recv_buf hc_set_buf]. rewrite Hr. by rewrite hc_quiet_poll.
Qed.

Lemma hop_connect_feed_answer m msg c rest :
  hc_waits m → hop_kind msg = HopStatus →
  Relay.read_message overflow_checks hop_decode (hc_recv_buf m ++ c) = Ok (Some (msg, rest)) →
  hop_connect_feed m c = (hc_answered m msg rest, Ok (Some (connect_outcome msg))).
Proof.
  intros Hw Hk Hr. unfold hop_connect_feed, feed_with, poll_for. cbn [hc_handle_input]. pose proof Hw as (Hs & _).
  rewrite (hc_on_complete overflow_checks m msg c rest) by (first [done|by rewrite Hs]).
  by rewrite hc_finish_poll.
Qed.

Lemma hc_answered_bridge m msg rest :
  hc_waits m → hop_status msg = Some StatusOk → (hop_connect_bridge_bytes (hc_answered m msg rest)).2 = rest.
Proof.
  intros (Hs & Ho & Hc & Hb) Hst. destruct m as [o b s oc e g]. cbn in *. subst.
  assert (hc_answered {| hc_outbound := []; hc_recv_buf := b; hc_state := Relay.AwaitingResponse; hc_outcome := None;
     hc_emitted := e; hc_bridge := [] |} msg rest = {| hc_outbound := []; hc_recv_buf := []; hc_state := Done;
     hc_outcome := Some (connect_outcome msg); hc_emitted := true; hc_bridge := rest |}) as ->.
  { unfold hc_answered, hc_finish. rewrite Hst. generalize (connect_outcome msg). reflexivity. }
  generalize (connect_outcome msg). intros outcome. unfold hop_connect_bridge_bytes, poll_for, hc_poll_output.
  cbn -[decide]. by destruct rest.
Qed.

(** The answer of the relay, and the bytes behind it. *)
Lemma hop_answer target msg cs tail :
  hop_ok msg → hop_kind msg = HopStatus → hop_status msg = Some StatusOk →
  chunks_fit Relay.MAX_MESSAGE_SIZE (encode_frame (hop_encode msg)) cs → concat cs = encode_frame (hop_encode msg) ++ tail →
  ∃ hop hop' bridge cs',
    feed_until hop_connect_feed (hc_started target) cs = (hop, Ok (Some (Bridged (hop_limit msg), cs'))) ∧
    hop_connect_bridge_bytes hop = (hop', bridge) ∧ bridge ++ concat cs' = tail.
Proof.
  intros Hok Hk Hst Hfit Hcat. destruct (hc_started_waits target) as [Hw Hb].
  assert (framed hop_decode msg (encode_frame (hop_encode msg))) as Hf
    by (apply hop_framed; [done|eapply first_chunk_fits; [apply encode_frame_ne|done..]]).
  pose proof (relay_reader overflow_checks _ _ _ Hf) as Hreader.
  rewrite <- (list_fmap_id cs) in Hfit, Hcat.
  destruct (feed_until_answer hop_connect_feed id (Relay.read_message overflow_checks hop_decode) Relay.MAX_MESSAGE_SIZE
    hc_waits hc_recv_buf hc_set_buf (λ m _ rest, (hc_answered m msg rest, connect_outcome msg)) msg
    (encode_frame (hop_encode msg))) with (hc_started target) tail cs (encode_frame (hop_encode msg))
    as (pre & c & t & cs' & _ & -> & Hrun); rewrite ?Hb; try done.
  - intros m c Hwm Hr. by apply hop_connect_feed_quiet.
  - intros m c rest Hwm Hr. by apply hop_connect_feed_answer.
  - by apply chunks_fit_buffer.
  - cbn [fst snd] in Hrun. eexists _, _, t, cs'. rewrite Hrun. rewrite list_fmap_id.
    unfold connect_outcome. rewrite Hst. cbn [default]. rewrite decide_True by done. split_and!; [done| |done].
    by rewrite (surjective_pairing (hop_connect_bridge_bytes _)), hc_answered_bridge.
Qed.

Definition initiator_feed (d : DcutrInitiator (P:=P)) (c : list byte * Z) := dcutr_initiator_feed d c.1 c.2.

Definition di_waits (m : DcutrInitiator (P:=P)) : Prop :=
  di_state m = AwaitingConnectReply ∧ di_outbound m = [] ∧ di_outcome m = None.

Lemma di_flush_new own :
  dcutr_initiator_flush (di_new own) = (di_started own, connect_frame own) ∧
  di_waits (di_started own) ∧ di_recv_buf (di_started own) = [].
Proof.
  unfold di_started, dcutr_initiator_flush, flush_with, poll_for, di_poll_output. cbn -[decide encode_frame].
  by rewrite decide_True by apply encode_frame_ne.
Qed.

(** The initiator after the reply was read and reported. *)
Definition di_answered (m : DcutrInitiator (P:=P)) (msg : HolePunch) (rtt : Z) (rest : list byte) : DcutrInitiator :=
  {| di_outbound := []; di_recv_buf := rest; di_state := ReadyToSync;
     di_outcome := di_outcome (di_finish utf8_error_text m msg rtt rest); di_emitted := true |}.
Definition di_answer (msg : HolePunch) (rtt : Z) : InitiatorOutcome (P:=P) :=
  DialNow (decode_remote_addrs utf8_error_text (obs_addrs msg)) (obs_addrs msg) rtt.

Lemma initiator_feed_quiet m c :
  di_waits m → Dcutr.read_message overflow_checks (di_recv_buf m ++ c.1) = Ok None →
  initiator_feed m c = (di_set_buf m (di_recv_buf m ++ c.1), Ok None).
Proof.
  intros (Hs & Ho & Hc) Hr. unfold initiator_feed, dcutr_initiator_feed, feed_with, poll_for. cbn [di_handle_input].
  rewrite di_on_data_waiting by done. cbv zeta. cbn [di_recv_buf di_set_buf]. rewrite Hr.
  destruct m as [o b s oc e]. cbn in *. subst. unfold di_poll_output. cbn -[decide].
  rewrite decide_False by (by intros []). by destruct e.
Qed.

Lemma initiator_feed_answer m msg c rest :
  di_waits m → punch_kind msg = PunchConnect →
  Dcutr.read_message overflow_checks (di_recv_buf m ++ c.1) = Ok (Some (msg, rest)) →
  initiator_feed m c = (di_answered m msg c.2 rest, Ok (Some (di_answer msg c.2))).
Proof.
  intros (Hs & Ho & Hc) Hk Hr. unfold initiator_feed, dcutr_initiator_feed, feed_with, poll_for. cbn [di_handle_input].
  rewrite di_on_data_waiting by done. cbv zeta. cbn [di_recv_buf di_set_buf]. rewrite Hr.
  rewrite decide_False by (rewrite Hk; by intros []). destruct m as [o b s oc e]. cbn in *. subst.
  unfold di_answered, di_answer, di_finish. cbn -[decide]. by rewrite decide_False by (by intros []).
Qed.

(** The reply of the responder, however it arrives, and the SYNC that follows. *)
Lemma initiator_answer own b extra chunks :
  addrs_ok b → Z.of_nat (length (connect_frame b ++ extra)) <= Dcutr.MAX_MESSAGE_SIZE →
  concat chunks.*1 = connect_frame b ++ extra →
  ∃ d d' rtt later,
    feed_until initiator_feed (di_started own) chunks
      = (d, Ok (Some (DialNow b (encode_multiaddr <$> b) rtt, later))) ∧
    rtt ∈ chunks.*2 ∧ dcutr_initiator_send_sync_flush d = (d', Ok sync_frame) ∧ di_is_done d' = true.
Proof.
  intros Hb Hl Hcat. destruct (di_flush_new own) as (_ & Hw & Hbuf).
  pose proof (connect_ok b Hb) as Hok. set (msg := connect_message (encode_multiaddr <$> b)) in *.
  assert (Z.of_nat (length (connect_frame b)) <= Dcutr.MAX_MESSAGE_SIZE) as Hl' by (rewrite length_app in Hl; lia).
  pose proof (punch_reader overflow_checks msg Hok Hl') as Hreader.
  destruct (feed_until_answer initiator_feed fst (Dcutr.read_message overflow_checks) Dcutr.MAX_MESSAGE_SIZE
    di_waits di_recv_buf di_set_buf (λ m c rest, (di_answered m msg c.2 rest, di_answer msg c.2)) msg
    (connect_frame b)) with (di_started own) extra chunks (connect_frame b)
    as (pre & c & t & cs' & Hcs & _ & Hrun); rewrite ?Hbuf; try done.
  - intros m c Hwm Hr. by apply initiator_feed_quiet.
  - intros m c rest Hwm Hr. by apply initiator_feed_answer.
  - apply total_fits. cbn [app]. by rewrite Hcat.
  - cbn [fst snd] in Hrun. rewrite Hrun. eexists _, _, c.2, cs'. split; [|split; [|split]].
    + unfold di_answer. cbn [obs_addrs msg connect_message]. by rewrite decode_encode_addrs.
    + subst chunks. rewrite fmap_app. apply elem_of_app. right. by left.
    + unfold dcutr_initiator_send_sync_flush, di_answered. reflexivity.
    + reflexivity.
Qed.

(** C26. The dialer's handshake.  Over the one stream to the relay the dialer asks for
    the circuit, and whatever the fragmentation of what comes back (into chunks that fit
    the receive buffer next to the relay's answer), the relay's OK with
    the responder's DCUtR reply right behind it or in later chunks, it learns that the
    circuit is up, feeds DCUtR exactly the bytes behind the relay's answer, is told to
    dial the addresses the responder sent, with the round trip time of a chunk it
    received, and sends SYNC. *)
Theorem dialer_handshake target own msg b extra cs :
  hop_ok msg → hop_kind msg = HopStatus → hop_status msg = Some StatusOk →
  chunks_fit Relay.MAX_MESSAGE_SIZE (encode_frame (hop_encode msg)) cs →
  addrs_ok b → Z.of_nat (length (connect_frame b ++ extra)) <= Dcutr.MAX_MESSAGE_SIZE →
  concat cs = encode_frame (hop_encode msg) ++ connect_frame b ++ extra →
  (hop_connect_flush (hc_new target)).2 = encode_frame (hop_encode (connect_request target)) ∧
  (dcutr_initiator_flush (di_new own)).2 = connect_frame own ∧
  ∃ hop hop' bridge cs',
    feed_until hop_connect_feed (hop_connect_flush (hc_new target)).1 cs
      = (hop, Ok (Some (Bridged (hop_limit msg), cs'))) ∧
    hop_connect_bridge_bytes hop = (hop', bridge) ∧ bridge ++ concat cs' = connect_frame b ++ extra ∧
    ∀ times, length times = length cs' →
      let chunks := (if decide (bridge = []) then [] else [(bridge, 0)]) ++ zip cs' times in
      ∃ d d' rtt later,
        feed_until initiator_feed (dcutr_initiator_flush (di_new own)).1 chunks
          = (d, Ok (Some (DialNow b (encode_multiaddr <$> b) rtt, later))) ∧
        rtt ∈ chunks.*2 ∧ dcutr_initiator_send_sync_flush d = (d', Ok sync_frame) ∧ di_is_done d' = true.
Proof.
  intros Hok Hk Hst Hfit Hb Hl Hcat. rewrite hop_connect_flush_new, (proj1 (di_flush_new own)).
  split; [done|]. split; [done|].
  destruct (hop_answer target msg cs _ Hok Hk Hst Hfit Hcat) as (hop & hop' & bridge & cs' & H1 & H2 & H3).
  exists hop, hop', bridge, cs'. split; [exact H1|]. split; [exact H2|]. split; [exact H3|].
  intros times Hlen chunks. apply initiator_answer with extra; [done|done|].
  subst chunks. rewrite fmap_app, concat_app, fst_zip by lia. rewrite <- H3. f_equal.
  case_decide as Hbr; [by rewrite Hbr|]. cbn. by rewrite app_nil_r.
Qed.

(** ** The listener: STOP, then DCUtR over the same stream *)

(** [while let Some(output) = flow.poll_output() { .. }] of
    [drain_dcutr_responder_outputs]: the bytes to send, and the events in order. *)
Fixpoint drain_responder (fuel : nat) (flow : DcutrResponder (P:=P)) (outbound : list byte) (events : list (ResponderEvent (P:=P)))
    : DcutrResponder * list byte * list ResponderEvent :=
  match fuel with
  | O => (flow, outbound, events)
  | S fuel =>
      match dr_poll_output flow with
      | (None, flow) => (flow, outbound, events)
      | (Some (DrOutbound bytes), flow) => drain_responder fuel flow (outbound ++ bytes) events
      | (Some (DrEvent ev), flow) => drain_responder fuel flow outbound (events ++ [ev])
      end
  end.
(** At most one output for the bytes and one for each event. *)
Definition dcutr_responder_outputs (flow : DcutrResponder (P:=P)) : DcutrResponder * list byte * list ResponderEvent :=
  drain_responder (2 + length (dr_events flow)) (dr_handle_input utf8_error_text overflow_checks flow DrFlush).1 [] [].

(** [*captured = ..] of [handle_dcutr_responder_event]. *)
Definition capture (captured : option (list (Multiaddr P))) (ev : ResponderEvent (P:=P)) : option (list (Multiaddr P)) :=
  match ev with ConnectReceived remote_addrs _ => Some remote_addrs | SyncReceived => captured end.

(** Feeding one chunk and draining: the machine, what it captured and what it sends. *)
Definition respond (flow : DcutrResponder (P:=P)) (captured : option (list (Multiaddr P))) (data : list byte)
    : DcutrResponder * option (list (Multiaddr P)) * res string (list byte) :=
  let '(flow, r) := dcutr_responder_feed flow data in
  match r with
  | Ok _ =>
      let '(flow, outbound, events) := dcutr_responder_outputs flow in
      (flow, foldl capture captured events, Ok outbound)
  | Err e => (flow, captured, Err e)
  | Panic => (flow, captured, Panic)
  end.

(** The listener's loop on the chunks that arrive, until the machine is done: the
    captured addresses and all it sent. *)
Fixpoint respond_until (flow : DcutrResponder (P:=P)) (captured : option (list (Multiaddr P))) (sent : list byte)
    (cs : list (list byte)) : option (list (Multiaddr P) * list byte) :=
  if dr_is_done flow then Some (default [] captured, sent)
  else
    match cs with
    | [] => None
    | c :: cs =>
        match respond flow captured c with
        | (flow, captured, Ok outbound) => respond_until flow captured (sent ++ outbound) cs
        | _ => None
        end
    end.

Section listener.
Context (own a : list (Multiaddr P)) (extra : list byte).
Hypothesis a_ok : addrs_ok a.
Hypothesis stream_fits : Z.of_nat (length (connect_frame a ++ sync_frame ++ extra)) <= Dcutr.MAX_MESSAGE_SIZE.

Definition responder_at (state : ResponderState) (buf : list byte) : DcutrResponder (P:=P) :=
  {| dr_own_addrs := encode_multiaddr <$> own; dr_outbound := []; dr_recv_buf := buf; dr_state := state; dr_events := [] |}.

(** The machine after [n] bytes of the stream, when everything was polled. *)
Inductive stage : list byte → DcutrResponder (P:=P) → option (list (Multiaddr P)) → list byte → Prop :=
  | stage_connect x k : connect_frame a = x ++ k → k ≠ [] →
      stage (k ++ sync_frame ++ extra) (responder_at AwaitingConnect x) None []
  | stage_sync y k : sync_frame = y ++ k → k ≠ [] →
      stage (k ++ extra) (responder_at AwaitingSync y) (Some a) (connect_frame own)
  | stage_done todo buf : stage todo (responder_at ResponderDone buf) (Some a) (connect_frame own).

Lemma connect_reads tail :
  Z.of_nat (length (connect_frame a ++ tail)) <= Dcutr.MAX_MESSAGE_SIZE →
  Dcutr.read_message overflow_checks (connect_frame a ++ tail) = Ok (Some (connect_message (encode_multiaddr <$> a), tail)).
Proof.
  intros Hl. assert (Z.of_nat (length (connect_frame a)) <= Dcutr.MAX_MESSAGE_SIZE) as H1 by (rewrite length_app in Hl; lia).
  by apply (read_complete (MessageReader:=punch_reader overflow_checks _ (connect_ok a a_ok) H1)).
Qed.
Lemma connect_waits x k :
  connect_frame a = x ++ k → k ≠ [] → Dcutr.read_message overflow_checks x = Ok None.
Proof.
  intros Hx Hk. assert (Z.of_nat (length (connect_frame a)) <= Dcutr.MAX_MESSAGE_SIZE) as H1
    by (rewrite length_app in stream_fits; lia).
  eapply (read_incomplete (MessageReader:=punch_reader overflow_checks _ (connect_ok a a_ok) H1)); [exact Hx|done|].
  rewrite Hx, length_app in H1. lia.
Qed.
Lemma sync_reads tail :
  Z.of_nat (length (sync_frame ++ tail)) <= Dcutr.MAX_MESSAGE_SIZE →
  Dcutr.read_message overflow_checks (sync_frame ++ tail) = Ok (Some (sync_message, tail)).
Proof.
  intros Hl. apply (read_complete (MessageReader:=punch_reader overflow_checks sync_message ltac:(constructor) ltac:(done))). done.
Qed.
Lemma sync_waits x k : sync_frame = x ++ k → k ≠ [] → Dcutr.read_message overflow_checks x = Ok None.
Proof.
  intros Hx Hk. assert (Z.of_nat (length sync_frame) <= Dcutr.MAX_MESSAGE_SIZE) as H1 by done.
  apply (read_incomplete (MessageReader:=punch_reader overflow_checks sync_message ltac:(constructor) H1) _ k); [done..|].
  rewrite Hx, length_app in H1. lia.
Qed.
(** The loop of the decoder at each stage of the stream. *)
Lemma loop_sync_waits fuel own' ob (evs : list (ResponderEvent (P:=P))) y k :
  sync_frame = y ++ k → k ≠ [] →
  let m := {| dr_own_addrs := own'; dr_outbound := ob; dr_recv_buf := y; dr_state := AwaitingSync; dr_events := evs |} in
  dr_try_decode_loop (P:=P) utf8_error_text overflow_checks (S fuel) m = (m, Ok ()).
Proof.
  intros Hy Hk m. cbn [dr_try_decode_loop]. rewrite decide_False by done. cbn [dr_recv_buf m].
  by rewrite (sync_waits y k Hy Hk).
Qed.

Lemma loop_sync_reads fuel own' ob (evs : list (ResponderEvent (P:=P))) t :
  Z.of_nat (length (sync_frame ++ t)) <= Dcutr.MAX_MESSAGE_SIZE →
  dr_try_decode_loop (P:=P) utf8_error_text overflow_checks (S (S fuel))
    {| dr_own_addrs := own'; dr_outbound := ob; dr_recv_buf := sync_frame ++ t; dr_state := AwaitingSync; dr_events := evs |}
  = ({| dr_own_addrs := own'; dr_outbound := ob; dr_recv_buf := t; dr_state := ResponderDone;
        dr_events := evs ++ [SyncReceived] |}, Ok ()).
Proof.
  intros Hl. cbn [dr_try_decode_loop]. rewrite decide_False by done. cbn [dr_recv_buf].
  rewrite sync_reads by done. done.
Qed.

Lemma loop_connect_reads fuel t :
  Z.of_nat (length (connect_frame a ++ t)) <= Dcutr.MAX_MESSAGE_SIZE →
  dr_try_decode_loop (P:=P) utf8_error_text overflow_checks (S fuel) (responder_at AwaitingConnect (connect_frame a ++ t))
  = dr_try_decode_loop (P:=P) utf8_error_text overflow_checks fuel
      {| dr_own_addrs := encode_multiaddr <$> own; dr_outbound := connect_frame own; dr_recv_buf := t;
         dr_state := AwaitingSync; dr_events := [ConnectReceived a (encode_multiaddr <$> a)] |}.
Proof.
  intros Hl. cbn [dr_try_decode_loop]. rewrite decide_False by done. cbn [dr_recv_buf responder_at].
  rewrite connect_reads by done. pose proof (decode_encode_addrs utf8_error_text a a_ok) as Hd.
  unfold dr_on_message, responder_at, dr_set_buf. cbn [dr_state punch_kind connect_message obs_addrs]. by rewrite Hd.
Qed.

Lemma respond_waiting state x c :
  state ≠ ResponderDone → dr_try_decode_loop (P:=P) utf8_error_text overflow_checks 3 (responder_at state (x ++ c)) = (responder_at state (x ++ c), Ok ()) →
  ∀ captured, respond (responder_at state x) captured c = (responder_at state (x ++ c), captured, Ok []).
Proof.
  intros Hs Hloop captured. unfold respond, dcutr_responder_feed. cbn [dr_handle_input]. unfold dr_on_data.
  rewrite decide_False by done. change (dr_set_buf (responder_at state x) (dr_recv_buf (responder_at state x) ++ c))
    with (responder_at state (x ++ c)). unfold dr_try_decode. by rewrite Hloop.
Qed.

(** A chunk that made the machine move on. *)
Lemma respond_moves state x c m captured :
  state ≠ ResponderDone → dr_try_decode_loop (P:=P) utf8_error_text overflow_checks 3 (responder_at state (x ++ c)) = (m, Ok ()) →
  respond (responder_at state x) captured c
    = let '(flow, outbound, events) := dcutr_responder_outputs m in (flow, foldl capture captured events, Ok outbound).
Proof.
  intros Hs Hloop. unfold respond, dcutr_responder_feed. cbn [dr_handle_input]. unfold dr_on_data.
  rewrite decide_False by done. change (dr_set_buf (responder_at state x) (dr_recv_buf (responder_at state x) ++ c))
    with (responder_at state (x ++ c)). unfold dr_try_decode. by rewrite Hloop.
Qed.

Lemma drain_step fuel flow ob acc :
  drain_responder (S fuel) flow ob acc =
    match dr_poll_output flow with
    | (None, flow) => (flow, ob, acc)
    | (Some (DrOutbound bytes), flow) => drain_responder fuel flow (ob ++ bytes) acc
    | (Some (DrEvent ev), flow) => drain_responder fuel flow ob (acc ++ [ev])
    end.
Proof. done. Qed.

Lemma drain_events own' t st evs ob acc :
  drain_responder (S (length evs)) {| dr_own_addrs := own'; dr_outbound := []; dr_recv_buf := t; dr_state := st; dr_events := evs |} ob acc
  = ({| dr_own_addrs := own'; dr_outbound := []; dr_recv_buf := t; dr_state := st; dr_events := [] |}, ob, acc ++ evs).
Proof.
  revert acc. induction evs as [|e evs IH]; intros acc; cbn [length]; rewrite drain_step; unfold dr_poll_output;
    cbn [dr_take_outbound dr_outbound]; rewrite decide_False by (by intros []); cbn [dr_set_outbound dr_events].
  - by rewrite app_nil_r.
  - unfold dr_set_events. cbn [dr_own_addrs dr_outbound dr_recv_buf dr_state]. rewrite IH, <- app_assoc. done.
Qed.

Lemma outputs_connected own' t st evs :
  dcutr_responder_outputs {| dr_own_addrs := own'; dr_outbound := connect_frame own; dr_recv_buf := t;
    dr_state := st; dr_events := evs |}
  = ({| dr_own_addrs := own'; dr_outbound := []; dr_recv_buf := t; dr_state := st; dr_events := [] |}, connect_frame own, evs).
Proof.
  unfold dcutr_responder_outputs. cbn [dr_handle_input fst dr_events Nat.add].
  rewrite drain_step. unfold dr_poll_output. cbn [dr_take_outbound dr_outbound].
  rewrite decide_True by apply encode_frame_ne. rewrite app_nil_l. apply drain_events.
Qed.

(** Every chunk of the stream brings the machine to the next stage. *)
Lemma stage_step todo flow captured sent c rest :
  stage todo flow captured sent → dr_is_done flow = false → todo = c ++ rest →
  ∃ flow' captured' outbound, respond flow captured c = (flow', captured', Ok outbound) ∧
    stage rest flow' captured' (sent ++ outbound).
Proof.
  intros Hst Hnd Htodo. pose proof stream_fits as Hfit. destruct Hst as [x k Hx Hk|y k Hy Hk|todo buf]; [| |done].
  - assert ((x ++ c) ++ rest = connect_frame a ++ sync_frame ++ extra) as Hcat
      by (rewrite Hx, <- !app_assoc; f_equal; by rewrite Htodo).
    rewrite <- Hcat in Hfit. destruct (chunk_cases _ _ _ _ _ Hcat) as [(t & Ht & Htail)|(k' & Hf & Hk' & Hr)].
    + assert (Z.of_nat (length (connect_frame a ++ t)) <= Dcutr.MAX_MESSAGE_SIZE) as Hl by (rewrite <- Ht; rewrite length_app in Hfit; lia).
      assert (([] ++ t) ++ rest = sync_frame ++ extra) as Hs by (by rewrite Htail).
      destruct (chunk_cases _ _ _ _ _ Hs) as [(t' & Ht' & Hextra)|(k' & Hf & Hk' & Hr)]; cbn [app] in *.
      * eexists _, _, _. split.
        { erewrite respond_moves; [|done|]; cycle 1.
          { rewrite Ht, loop_connect_reads by done. rewrite Ht'. apply loop_sync_reads. rewrite <- Ht'.
            rewrite length_app in Hl. lia. }
          rewrite outputs_connected. cbn [foldl capture fst snd app]. reflexivity. }
        apply stage_done.
      * eexists _, _, _. split.
        { erewrite respond_moves; [|done|]; cycle 1.
          { rewrite Ht, loop_connect_reads by done. by apply (loop_sync_waits 1 _ _ _ t k'). }
          rewrite outputs_connected. cbn [foldl capture fst snd app]. reflexivity. }
        rewrite Hr. by apply (stage_sync t k').
    + eexists _, _, _. split.
      { apply respond_waiting; [done|]. cbn [dr_try_decode_loop]. rewrite decide_False by done. cbn [dr_recv_buf responder_at].
        by rewrite (connect_waits _ _ Hf Hk'). }
      rewrite Hr. by apply (stage_connect (x ++ c) k').
  - assert ((y ++ c) ++ rest = sync_frame ++ extra) as Hcat by (rewrite Hy, <- !app_assoc; f_equal; by rewrite Htodo).
    destruct (chunk_cases _ _ _ _ _ Hcat) as [(t & Ht & Htail)|(k' & Hf & Hk' & Hr)].
    + eexists _, _, _. split.
      { erewrite respond_moves; [|done|]; cycle 1.
        { rewrite Ht. apply (loop_sync_reads 1). rewrite <- Ht. rewrite !length_app in Hfit. 
          apply (f_equal length) in Hcat. rewrite !length_app in Hcat. rewrite length_app. lia. }
        reflexivity. }
      rewrite app_nil_r. apply stage_done.
    + eexists _, _, _. split.
      { apply respond_waiting; [done|]. by apply (loop_sync_waits 2 _ _ _ _ k'). }
      rewrite app_nil_r, Hr. by apply (stage_sync (y ++ c) k').
Qed.

Lemma stage_run todo flow captured sent cs :
  stage todo flow captured sent → todo = concat cs →
  respond_until flow captured sent cs = Some (a, connect_frame own).
Proof.
  revert todo flow captured sent. induction cs as [|c cs IH]; intros todo flow captured sent Hst Hcat.
  - assert (∃ buf, flow = responder_at ResponderDone buf ∧ captured = Some a ∧ sent = connect_frame own) as (buf & -> & -> & ->);
      [|done]. destruct Hst as [x k _ Hk|y k _ Hk|todo buf]; [by destruct k..|by exists buf].
  - cbn [respond_until]. destruct (dr_is_done flow) eqn:Hd.
    { destruct Hst as [| |todo buf]; [done..|]. done. }
    destruct (stage_step todo flow captured sent c (concat cs) Hst Hd Hcat) as (flow' & captured' & outbound & -> & Hst').
    by apply (IH (concat cs)).
Qed.
End listener.

Definition sr_waits (m : StopResponder) : Prop :=
  sr_state m = Relay.AwaitingConnect ∧ sr_outbound m = [] ∧ sr_request m = None ∧ sr_bridge m = [].

(** The request of a STOP message, and the machine once it was reported. *)
Definition stop_request (msg : StopMessage) : StopConnectRequest :=
  {| source_peer_id := from_option p_id [] (stop_peer msg); request_limit := stop_limit msg |}.
Definition sr_asked_for (msg : StopMessage) (rest : list byte) : StopResponder :=
  {| sr_outbound := []; sr_recv_buf := rest; sr_state := AwaitingDecision; sr_request := Some (stop_request msg);
     sr_emitted := true; sr_bridge := [] |}.

Lemma stop_feed_quiet m c :
  sr_waits m → Relay.read_message overflow_checks stop_decode (sr_recv_buf m ++ c) = Ok None →
  stop_feed m c = (sr_set_buf m (sr_recv_buf m ++ c), Ok None).
Proof.
  intros (Hs & Ho & Hq & Hb) Hr. destruct m as [o b s q e g]. cbn in *. subst.
  unfold stop_feed, feed_with, poll_for. cbn [sr_handle_input]. unfold sr_on_data.
  rewrite !decide_False by done. unfold sr_try_decode_connect. cbn [sr_state sr_recv_buf sr_set_buf].
  rewrite decide_False by tauto. rewrite Hr. unfold sr_poll_output. cbn -[decide]. by destruct e.
Qed.

Lemma stop_feed_request m msg peer c rest :
  sr_waits m → stop_kind msg = StopConnectType → stop_peer msg = Some peer →
  Relay.read_message overflow_checks stop_decode (sr_recv_buf m ++ c) = Ok (Some (msg, rest)) →
  stop_feed m c = (sr_asked_for msg rest, Ok (Some (stop_request msg))).
Proof.
  intros (Hs & Ho & Hq & Hb) Hk Hp Hr. destruct m as [o b s q e g]. cbn in *. subst.
  unfold stop_feed, feed_with, poll_for. cbn [sr_handle_input]. unfold sr_on_data.
  rewrite !decide_False by done. unfold sr_try_decode_connect. cbn [sr_state sr_recv_buf sr_set_buf].
  rewrite decide_False by tauto. rewrite Hr, decide_False by tauto. rewrite Hp.
  unfold sr_asked_for, stop_request. rewrite Hp. reflexivity.
Qed.

(** Accepting sends one STATUS OK, and hands out what came behind the request. *)
Lemma stop_accept msg rest :
  ∃ stop stop', stop_accept_flush (sr_asked_for msg rest)
      = (stop, Ok (encode_frame (stop_encode (status_response StatusOk)))) ∧
    stop_bridge_bytes stop = (stop', rest).
Proof.
  eexists _, _. split; [reflexivity|]. generalize (stop_request msg). intros q. by destruct rest.
Qed.

(** C27. The listener's handshake.  Whatever the fragmentation of the relay's STOP request
    and the dialer's DCUtR messages behind it, into chunks that fit the receive buffer
    next to the request, the listener is told the source of the
    circuit, answers with one STATUS OK, feeds DCUtR exactly the bytes behind the
    request, answers the dialer's CONNECT with its own addresses, once, and is done at
    SYNC with exactly the addresses the dialer sent. *)
Theorem listener_handshake own msg peer a extra cs :
  stop_ok msg → stop_kind msg = StopConnectType → stop_peer msg = Some peer →
  chunks_fit Relay.MAX_MESSAGE_SIZE (encode_frame (stop_encode msg)) cs →
  addrs_ok a → Z.of_nat (length (connect_frame a ++ sync_frame ++ extra)) <= Dcutr.MAX_MESSAGE_SIZE →
  concat cs = encode_frame (stop_encode msg) ++ connect_frame a ++ sync_frame ++ extra →
  ∃ stop stop' stop'' bridge cs',
    feed_until stop_feed sr_new cs = (stop, Ok (Some ({| source_peer_id := p_id peer; request_limit := stop_limit msg |}, cs'))) ∧
    stop_accept_flush stop = (stop', Ok (encode_frame (stop_encode (status_response StatusOk)))) ∧
    stop_bridge_bytes stop' = (stop'', bridge) ∧ bridge ++ concat cs' = connect_frame a ++ sync_frame ++ extra ∧
    respond_until (dr_new own) None [] ((if decide (bridge = []) then [] else [bridge]) ++ cs') = Some (a, connect_frame own).
Proof.
  intros Hok Hk Hp Hfit Ha Hl Hcat.
  assert (framed stop_decode msg (encode_frame (stop_encode msg))) as Hf
    by (apply stop_framed; [done|eapply first_chunk_fits; [apply encode_frame_ne|done..]]).
  pose proof (relay_reader overflow_checks _ _ _ Hf) as Hreader.
  rewrite <- (list_fmap_id cs) in Hfit, Hcat.
  destruct (feed_until_answer stop_feed id (Relay.read_message overflow_checks stop_decode) Relay.MAX_MESSAGE_SIZE
    sr_waits sr_recv_buf sr_set_buf (λ m _ rest, (sr_asked_for msg rest, stop_request msg)) msg
    (encode_frame (stop_encode msg))) with sr_new (connect_frame a ++ sync_frame ++ extra) cs (encode_frame (stop_encode msg))
    as (pre & c & t & cs' & _ & Htail & Hrun); try done.
  - intros m c Hwm Hr. by apply stop_feed_quiet.
  - intros m c rest Hwm Hr. by eapply stop_feed_request.
  - by apply chunks_fit_buffer.
  - cbn [fst snd] in Hrun. rewrite list_fmap_id in Htail.
    destruct (stop_accept msg t) as (stop' & stop'' & H1 & H2).
    exists (sr_asked_for msg t), stop', stop'', t, cs'. split_and!; [|done..|].
    + rewrite Hrun. unfold stop_request. by rewrite Hp.
    + apply (stage_run own a extra Ha Hl (connect_frame a ++ sync_frame ++ extra)).
      * by apply (stage_connect own a extra [] (connect_frame a)).
      * rewrite Htail, concat_app. f_equal. case_decide as Ht; [by rewrite Ht|]. cbn. by rewrite app_nil_r.
Qed.

End flows.

(** ** Concrete runs *)

#[local] Abbreviation Pid := (PeerId PlainMultihash).

(** The relay's answer and the first bytes of the reply share a chunk. *)
Definition demo_dialer_chunks : list (list byte) :=
  [take 3 demo_frame; drop 3 demo_frame ++ take 5 demo_reply; drop 5 demo_reply].

Lemma dialer_handshake_witness :
  ∃ hop hop' bridge cs',
    feed_until (hop_connect_feed false) (hc_started [x00; x01]) demo_dialer_chunks
      = (hop, Ok (Some (Bridged (hop_limit demo_hop), cs'))) ∧
    hop_connect_bridge_bytes hop = (hop', bridge) ∧ bridge ++ concat cs' = demo_reply.
Proof.
  destruct (dialer_handshake (P:=Pid) (λ _, EmptyString) false [x00; x01] [demo_addr] demo_hop
    [demo_addr; encapsulate demo_addr demo_p2p] [] demo_dialer_chunks) as (_ & _ & hop & hop' & bridge & cs' & H1 & H2 & H3 & _).
  - repeat split; repeat constructor; vm_compute; done.
  - reflexivity.
  - reflexivity.
  - repeat constructor; vm_compute; done.
  - apply demo_addrs_ok.
  - by vm_compute.
  - by vm_compute.
  - exists hop, hop', bridge, cs'. split; [|split; [exact H2|]].
    + rewrite <- H1. by rewrite hop_connect_flush_new.
    + rewrite H3. apply app_nil_r.
Defined.

(** The whole stream in two chunks, cut inside the DCUtR message. *)
Definition demo_listener_stream : list byte := demo_stop_frame ++ demo_connect ++ sync_frame.
Definition demo_listener_chunks : list (list byte) :=
  [take (length demo_stop_frame + 4) demo_listener_stream; drop (length demo_stop_frame + 4) demo_listener_stream].

Lemma listener_handshake_witness :
  ∃ stop stop' stop'' bridge cs',
    feed_until (stop_feed false) sr_new demo_listener_chunks
      = (stop, Ok (Some ({| source_peer_id := [x00; x01]; request_limit := None |}, cs'))) ∧
    stop_accept_flush false stop = (stop', Ok (encode_frame (stop_encode (status_response StatusOk)))) ∧
    stop_bridge_bytes stop' = (stop'', bridge) ∧
    respond_until (P:=Pid) (λ _, EmptyString) false (dr_new [demo_addr; encapsulate demo_addr demo_p2p]) None []
      ((if decide (bridge = []) then [] else [bridge]) ++ cs') = Some ([demo_addr], demo_reply).
Proof.
  destruct (listener_handshake (P:=Pid) (λ _, EmptyString) false [demo_addr; encapsulate demo_addr demo_p2p] demo_stop
    {| p_id := [x00; x01]; p_addrs := [] |} [demo_addr] [] demo_listener_chunks)
    as (stop & stop' & stop'' & bridge & cs' & H1 & H2 & H3 & _ & H4).
  - repeat split; repeat constructor; vm_compute; done.
  - reflexivity.
  - reflexivity.
  - repeat constructor; vm_compute; done.
  - apply demo_addrs_ok.
  - by vm_compute.
  - by vm_compute.
  - exists stop, stop', stop'', bridge, cs'. split; [exact H1|]. split; [exact H2|]. split; [exact H3|exact H4].
Defined.
