(* ===== verification/PeerScript.v ===== *)
(** * Scripts over a swarm ([examples/peer/src]: [print_event] of [cli.rs], the waiting
      helpers of [relay.rs], and [direct.rs])

    A mode of the example is a linear script against [Swarm::run_until].  A script is a
    method of the swarm that fails with a text; the console and the clock are part of
    the swarm's host.  Every loop of a script runs on [fuel]: a script that has not come
    to an end by then gives [OutOfFuel]. *)
From S2P Require Import Prelude NetAddr Effects Varint Multibase PeerId Keys Multiaddr PeerAddr MultiaddrText ErrorText.
From S2P Require Import IdentifyMessage Ping Identify SwarmEvents Transport SwarmCore SwarmInvariant SwarmConns Driver.
From S2P Require Import Cli PeerRuntime PeerFlows.
From Stdlib Require Import ZArith Strings.Byte Strings.String.
From stdpp Require Import base numbers list gmap strings.

#[local] Open Scope Z_scope.

(** What the example needs of its node beyond the transport trait: the ways to bind the
    QUIC endpoint of a keypair, the endpoint's own methods, and the builder of a swarm
    [SwarmBuilder::new(&keypair).agent_version(agent).build(transport)]. *)
Class PeerNode (T P C : Type) `{SP : !SwarmPeers P} := {
  node_bind_multiaddr : Ed25519Keypair → Multiaddr P → C → C * res TransportError T;
  node_dual_stack : Ed25519Keypair → C → C * res TransportError T;
  node_bind : Ed25519Keypair → string → C → C * res TransportError T;
  node_build : Ed25519Keypair → string → T → C → res Empty_set (Swarm P T C);
  node_dial_all : T → PeerAddr P → T * res TransportError (list ConnectionId);
  node_send_raw_udp : T → Multiaddr P → list byte → T * res TransportError unit;
  node_inbound_sources : T → T * list (Multiaddr P);
}.
#[global] Hint Mode PeerNode ! - - - : typeclass_instances.

Definition AGENT : string := "minip2p-peer/0.1.0".
(** One year, in milliseconds. *)
Definition LISTEN_FOREVER : Z := 60 * 60 * 24 * 365 * 1000.
Definition DIAL_DEADLINE : Z := 10000.

Section script.
Context {P : Type} `{SP : !SwarmPeers P} `{PT : !PeerIdText P} `{BP : !BuildProfile} `{SD : !StrDebug}.
Context {T : Type} `{TR : !Transport T P}.
Context {C : Type} `{TM : !Time C} `{HC : !Host C} `{PN : !PeerNode T P C}.
Context (utf8_error_text : list byte → string) (fuel : nat).

(** ** Printing events ([cli.rs]) *)

Definition format_protocols (protocols : list string) : string := str_join "," protocols.

Definition print_event (role : string) (event : SwarmEvent (P:=P)) : C → C :=
  let out s := stdout (tagged role s) in
  match event with
  | ConnectionEstablished peer_id => out ("connected peer=" ++ to_string peer_id)
  | ConnectionClosed peer_id => out ("disconnected peer=" ++ to_string peer_id)
  | IdentifyReceived peer_id info =>
      let agent := default "?" (IdentifyMessage.agent_version info) in
      let observed := default "?" (bytes ← observed_addr info;
                                   match from_bytes utf8_error_text bytes with
                                   | Ok addr => Some (to_string (addr : Multiaddr P))
                                   | _ => None
                                   end) in
      out ("identify peer=" ++ to_string peer_id ++ " agent=" ++ agent ++ " protocols="
             ++ to_string (length (IdentifyMessage.protocols info)) ++ " list=["
             ++ format_protocols (IdentifyMessage.protocols info) ++ "] observed=" ++ observed)
  | PeerReady peer_id protocols =>
      out ("peer-ready peer=" ++ to_string peer_id ++ " protocols=" ++ to_string (length protocols)
             ++ " list=[" ++ format_protocols protocols ++ "]")
  | PingRttMeasured peer_id rtt_ms => out ("ping peer=" ++ to_string peer_id ++ " rtt=" ++ to_string rtt_ms ++ "ms")
  | PingTimeout peer_id => out ("ping-timeout peer=" ++ to_string peer_id)
  | UserStreamReady peer_id stream_id protocol_id initiated_locally =>
      out ("user-stream-ready peer=" ++ to_string peer_id ++ " stream=" ++ to_string (A:=Z) stream_id
             ++ " protocol=" ++ protocol_id ++ " dir=" ++ (if initiated_locally : bool then "outbound" else "inbound"))
  | UserStreamData peer_id stream_id data =>
      out ("user-stream-data peer=" ++ to_string peer_id ++ " stream=" ++ to_string (A:=Z) stream_id
             ++ " bytes=" ++ to_string (length data))
  | UserStreamRemoteWriteClosed peer_id stream_id =>
      out ("user-stream-remote-write-closed peer=" ++ to_string peer_id ++ " stream=" ++ to_string (A:=Z) stream_id)
  | UserStreamClosed peer_id stream_id =>
      out ("user-stream-closed peer=" ++ to_string peer_id ++ " stream=" ++ to_string (A:=Z) stream_id)
  | SwarmErrorEvent error =>
      stderr (tagged role ("error " ++ error_kind_debug (err_kind error) ++ ": " ++ err_detail error))
  end%string.

(** ** Scripts *)

Definition script (A : Type) : Type := eff (Swarm P T C) PeerError A.

Definition put_host (c : C) (d : Swarm P T C) : Swarm P T C := set_clock d c.
Definition in_host {A} (m : eff C PeerError A) : script A := zoom sd_clock put_host m.
Definition say (role s : string) : script unit := in_host (println (tagged role s)).
Definition complain (role s : string) : script unit := in_host (eprintln (tagged role s)).
(** [Instant::now()] *)
Definition now : script Z := in_host (state (λ c, let '(t, c) := instant_now c in (c, t))).
Definition fail {A} (msg : string) : script A := throw (Failed msg).
(** [swarm.call(..).map_err(|e| format!("{what}: {e}"))?] *)
Definition on_driver {A} (what : string) (f : Swarm P T C → Swarm P T C * res TransportError A) : script A := λ d,
  let '(d, r) := f d in
  (d, map_err (λ e, Failed (what ++ ": " ++ to_string e)) r).
(** [match swarm.call(..) { Ok(a) => .., Err(e) => .. }], with the text of the error. *)
Definition attempt {A} (f : Swarm P T C → Swarm P T C * res TransportError A) : script (string + A) := λ d,
  let '(d, r) := f d in
  (d, match r with Ok a => Ok (inr a) | Err e => Ok (inl (to_string e)) | Panic => Panic end).
(** [match script { Ok(a) => .., Err(e) => handler(e) }] *)
Definition catch {A} (m : script A) (handler : string → script A) : script A := λ d,
  match m d with
  | (d, Err (Failed e)) => handler e d
  | x => x
  end.
Definition ok_or_fail {A} (o : option A) (msg : string) : script A :=
  match o with Some a => mret a | None => fail msg end.
(** [?] on a helper of a protocol machine. *)
Definition try_flow {A} (r : res string A) : script A := lift (map_err Failed r).

(** [Swarm::run_until] with a predicate that prints. *)
Fixpoint run_until_with (fuel : nat) (d : Swarm P T C) (deadline : Z) (predicate : SwarmEvent (P:=P) → C → C * bool)
    : option (Swarm P T C * res TransportError (option (SwarmEvent (P:=P)))) :=
  match fuel with
  | O => None
  | S fuel' =>
      match poll_next fuel d deadline with
      | None => None
      | Some (d, Ok (Some ev)) =>
          let '(c, stop) := predicate ev (sd_clock d) in
          let d := set_clock d c in
          if stop : bool then Some (d, Ok (Some ev)) else run_until_with fuel' d deadline predicate
      | Some x => Some x
      end
  end.
Definition run_until_do (deadline : Z) (predicate : SwarmEvent (P:=P) → C → C * bool) (what : string)
    : script (option (SwarmEvent (P:=P))) := λ d,
  match run_until_with fuel d deadline predicate with
  | None => (d, Err OutOfFuel)
  | Some (d, r) => (d, map_err (λ e, Failed (what ++ ": " ++ to_string e)) r)
  end.
(** [swarm.run_until(deadline, |ev| { print_event(role, ev); wanted(ev) })] *)
Definition wait_for (role : string) (deadline : Z) (wanted : SwarmEvent (P:=P) → bool) (what : string)
    : script (option (SwarmEvent (P:=P))) :=
  run_until_do deadline (λ ev c, (print_event role ev c, wanted ev)) what.

Definition do_ping (peer_id : P) (what : string) : script unit :=
  random ← in_host (state (fill_random PING_PAYLOAD_LEN));
  since_epoch ← match random with
                | Some _ => mret None
                | None => in_host (state unix_time)
                end;
  on_driver what (λ d, driver_ping d peer_id (rand_ping_payload random since_epoch)).

Definition is_peer_ready (peer : P) (ev : SwarmEvent (P:=P)) : bool :=
  match ev with PeerReady peer_id _ => bool_decide (peer_id = peer) | _ => false end.
Definition is_ping_rtt (peer : P) (ev : SwarmEvent (P:=P)) : bool :=
  match ev with PingRttMeasured peer_id _ => bool_decide (peer_id = peer) | _ => false end.

(** ** The direct modes ([direct.rs]) *)

Definition first_or_fail {A} (l : list A) (msg : string) : script A := ok_or_fail (head l) msg.

(** [while endpoint.swarm_mut().run_until(..)?.is_some() {}] *)
Fixpoint print_forever (n : nat) (role : string) (deadline : Z) : script unit :=
  match n with
  | O => throw OutOfFuel
  | S n =>
      ev ← wait_for role deadline (λ _, false) "swarm run_until";
      match ev with Some _ => print_forever n role deadline | None => mret () end
  end.

Definition direct_listen : script unit :=
  peer_addrs ← on_driver "listen failed" listen_on_bound_addrs;
  peer_addr ← first_or_fail peer_addrs "listen completed without any bound peer addresses";
  _ ← say "listen" ("bound=" ++ to_string (local_dialable_peer_addr peer_addr));
  _ ← for_each peer_addrs (λ addr, say "listen" ("listen-addr=" ++ to_string addr));
  _ ← complain "listen" "waiting for dialers (Ctrl-C to stop)";
  start ← now;
  print_forever fuel "listen" (start + LISTEN_FOREVER).

Definition direct_dial (target : PeerAddr P) : script unit :=
  let target_peer_id := pa_peer_id target in
  _ ← on_driver "dial failed" (λ d, let '(t, r) := node_dial_all (sd_transport d) target in (set_transport d t, r));
  _ ← say "dial" ("dialing " ++ to_string target);
  start ← now;
  let deadline := start + DIAL_DEADLINE in
  ready ← wait_for "dial" deadline (is_peer_ready target_peer_id) "waiting for peer ready";
  _ ← ok_or_fail ready "deadline exceeded before peer became ready";
  _ ← do_ping target_peer_id "ping failed";
  rtt ← wait_for "dial" deadline (is_ping_rtt target_peer_id) "waiting for ping rtt";
  _ ← ok_or_fail rtt "deadline exceeded before ping rtt arrived";
  mret ().

End script.
