(* ===== verification/PeerRelay.v ===== *)
(** * The relay modes of the example ([examples/peer/src/relay.rs])

    The listener reserves a slot on the relay, accepts a circuit, answers DCUtR and
    punches; the dialer asks for the circuit, runs DCUtR and dials directly; both fall
    back to the relayed stream.  The AutoNAT server dials its clients back. *)
From S2P Require Import Prelude NetAddr Effects Varint Multibase PeerId Keys Multiaddr PeerAddr MultiaddrText ErrorText.
From S2P Require Import IdentifyMessage Ping Identify SwarmEvents Transport SwarmCore SwarmInvariant SwarmConns Driver.
From S2P Require Import RelayMessage DcutrMessage AutonatMessage Cli Relay Dcutr Autonat PeerRuntime PeerFlows PeerScript.
From Stdlib Require Import ZArith Strings.Byte Strings.String.
From stdpp Require Import base numbers list gmap strings.

#[local] Open Scope Z_scope.

(** In milliseconds. *)
Definition LISTEN_DEADLINE : Z := 60000.
Definition HOLEPUNCH_DEADLINE : Z := 3000.
Definition HOLEPUNCH_INTERVAL : Z := 100.
Definition RESPONDER_SYNC_DELAY : Z := 50.
Definition RELAY_PING_LEN : nat := 32.
Definition AUTONAT_CLIENT_DEADLINE : Z := 20000.
Definition AUTONAT_REQUEST_DEADLINE : Z := 5000.
Definition AUTONAT_DIALBACK_DEADLINE : Z := 5000.
Definition RELAY_READY_ATTEMPTS : nat := 3.
Definition RELAY_READY_ATTEMPT_DEADLINE : Z := 12000.
Definition RELAY_READY_RETRY_BACKOFF : Z := 500.

Section relay_mode.
Context {P : Type} `{SP : !SwarmPeers P} `{PT : !PeerIdText P} `{BP : !BuildProfile} `{SD : !StrDebug}.
Context {T : Type} `{TR : !Transport T P}.
Context {C : Type} `{TM : !Time C} `{HC : !Host C} `{PN : !PeerNode T P C}.
Context {VK : Type} `{EA : !Ed25519Api VK}.
Context (utf8_error_text : list byte → string) (overflow_checks : bool) (fuel : nat).

#[local] Abbreviation script := (script (P:=P) (T:=T) (C:=C)).
#[local] Abbreviation Event := (SwarmEvent (P:=P)).
#[local] Abbreviation wait_for := (wait_for utf8_error_text fuel).
#[local] Abbreviation run_until_do := (run_until_do fuel).
#[local] Abbreviation print_event := (print_event utf8_error_text).
#[local] Abbreviation Text := (to_string (A:=Z)).

(** [loop { let data = wait()?; if let Some(x) = feed(data)? { break x; } }] *)
Fixpoint read_until {M A} (n : nat) (wait : script (list byte)) (feed : M → list byte → M * res string (option A)) (flow : M)
    : script (M * A) :=
  match n with
  | O => throw OutOfFuel
  | S n =>
      data ← wait;
      let '(flow, r) := feed flow data in
      answer ← try_flow r;
      match answer with Some a => mret (flow, a) | None => read_until n wait feed flow end
  end.

(** ** Waiting *)

Definition wait_connected (role : string) (peer_id : P) (deadline : Z) : script unit :=
  found ← wait_for role deadline (λ ev, is_direct_connection_event ev peer_id) "wait-connected";
  _ ← ok_or_fail found ("deadline exceeded before connection to " ++ to_string peer_id);
  mret ().

Definition is_stream_ready (stream_id : StreamId) (ev : Event) : bool :=
  match ev with
  | UserStreamReady _ s _ true => s =? stream_id
  | UserStreamClosed _ s => s =? stream_id
  | SwarmErrorEvent error => str_contains (err_detail error) ("stream " ++ Text stream_id)
  | _ => false
  end.
Definition wait_user_stream_ready (role : string) (stream_id : StreamId) (deadline : Z) : script unit :=
  found ← wait_for role deadline (is_stream_ready stream_id) "wait-user-stream-ready";
  match found with
  | Some (UserStreamReady _ _ _ _) => mret ()
  | Some (UserStreamClosed _ _) => fail ("stream " ++ Text stream_id ++ " closed before becoming ready")
  | Some (SwarmErrorEvent error) =>
      fail ("stream " ++ Text stream_id ++ " failed before becoming ready: " ++ error_kind_debug (err_kind error)
              ++ ": " ++ err_detail error)
  | Some _ => panic
  | None => fail ("deadline exceeded before stream " ++ Text stream_id ++ " ready")
  end.

Definition is_inbound_stream (peer_id : P) (protocol_id : string) (ev : Event) : bool :=
  match ev with
  | UserStreamReady p _ pid false => bool_decide (p = peer_id) && bool_decide (pid = protocol_id)
  | _ => false
  end.
Definition wait_inbound_stream (role : string) (peer_id : P) (protocol_id : string) (deadline : Z) : script StreamId :=
  found ← wait_for role deadline (is_inbound_stream peer_id protocol_id) "wait-inbound-stream";
  ev ← ok_or_fail found ("deadline exceeded before inbound " ++ protocol_id);
  match ev with UserStreamReady _ stream_id _ _ => mret stream_id | _ => panic end.

Definition is_stream_data (stream_id : StreamId) (ev : Event) : bool :=
  match ev with UserStreamData _ s _ => s =? stream_id | _ => false end.
Definition wait_user_stream_data (role : string) (stream_id : StreamId) (deadline : Z) : script (list byte) :=
  found ← wait_for role deadline (is_stream_data stream_id) "wait-user-stream-data";
  ev ← ok_or_fail found ("deadline exceeded before data on stream " ++ Text stream_id);
  match ev with UserStreamData _ _ data => mret data | _ => panic end.

(** Send [data] if there is any. *)
Definition send (peer_id : P) (stream_id : StreamId) (data : list byte) : script unit :=
  match data with
  | [] => mret ()
  | _ => on_driver "send_user_stream" (λ d, driver_send_user_stream d peer_id stream_id data)
  end.
Definition open_user_stream (what : string) (peer_id : P) (protocol_id : string) : script StreamId :=
  on_driver what (λ d, driver_open_user_stream d peer_id protocol_id).
Definition dial_peer (addr : PeerAddr P) : Swarm P T C → Swarm P T C * res TransportError ConnectionId :=
  λ d, dial d addr.

(** ** The relay connection *)

(** The printing predicate of the two functions below. *)
Definition print_unless_benign (role : string) (ev : Event) (c : C) : C :=
  if is_benign_retry_close_error ev then c else print_event role ev c.

Definition is_protocols_event (peer_id : P) (ev : Event) : bool :=
  match ev with
  | IdentifyReceived p _ | PeerReady p _ => bool_decide (p = peer_id)
  | _ => false
  end.
Definition wait_relay_protocols_after_dial (role : string) (peer_id : P) (deadline : Z) : script (list string) :=
  found ← run_until_do deadline (λ ev c, (print_unless_benign role ev c, is_protocols_event peer_id ev)) "wait-relay-protocols";
  ev ← ok_or_fail found ("deadline exceeded before relay peer " ++ to_string peer_id ++ " advertised protocols");
  match ev with
  | IdentifyReceived _ info => mret (IdentifyMessage.protocols info)
  | PeerReady _ protocols => mret protocols
  | _ => panic
  end.

Definition retry_relay_connection (role : string) (relay_peer_id : P) : script unit :=
  r ← attempt (λ d, driver_disconnect d relay_peer_id);
  _ ← match r with
      | inl e => complain role ("relay-disconnect-for-retry failed: " ++ e)
      | inr _ => mret ()
      end;
  start ← now;
  _ ← run_until_do (start + RELAY_READY_RETRY_BACKOFF) (λ ev c, (print_unless_benign role ev c, false)) "relay retry drain";
  mret ().

(** [for attempt in 1..=RELAY_READY_ATTEMPTS], with the attempts that are left. *)
Fixpoint relay_attempts (attempts : list nat) (role : string) (relay_addr : PeerAddr P) (relay_peer_id : P) (deadline : Z)
    (last_protocols : list string) : script unit :=
  match attempts with
  | [] =>
      fail ("relay did not advertise " ++ HOP_PROTOCOL_ID ++ " after " ++ to_string RELAY_READY_ATTEMPTS
              ++ " attempts; advertised=[" ++ str_join "," last_protocols ++ "]")
  | attempt :: attempts =>
      let n := to_string attempt in
      _ ← on_driver ("dial relay attempt " ++ n) (dial_peer relay_addr);
      _ ← say role ("dialing-relay attempt=" ++ n ++ " " ++ to_string relay_addr);
      start ← now;
      let attempt_deadline := earlier_deadline (start + RELAY_READY_ATTEMPT_DEADLINE) deadline in
      protocols ← wait_relay_protocols_after_dial role relay_peer_id attempt_deadline;
      let has_hop := bool_decide (HOP_PROTOCOL_ID ∈ protocols) in
      _ ← say role ("relay-ready attempt=" ++ n ++ " hop=" ++ (if has_hop then "true" else "false")
                      ++ " protocols=[" ++ str_join "," protocols ++ "]");
      if has_hop then mret ()
      else
        _ ← complain role ("relay-hop-not-advertised attempt=" ++ n ++ "; retrying after relay readiness backoff");
        _ ← retry_relay_connection role relay_peer_id;
        relay_attempts attempts role relay_addr relay_peer_id deadline protocols
  end.
Definition prepare_relay (role : string) (relay_addr : PeerAddr P) (relay_peer_id : P) (deadline : Z) : script unit :=
  relay_attempts (seq 1 RELAY_READY_ATTEMPTS) role relay_addr relay_peer_id deadline [].

(** ** Candidates *)

Definition listen_on_bound_addrs (role : string) : script (list (PeerAddr P)) :=
  addrs ← on_driver "listen failed" Driver.listen_on_bound_addrs;
  match addrs with
  | [] => fail "listen completed without any bound peer addresses"
  | _ => _ ← for_each addrs (λ addr, say role ("listen-addr=" ++ to_string addr)); mret addrs
  end.

Definition relay_observed_addr (relay_peer_id : P) (role : string) : script (option (Multiaddr P)) :=
  info ← gets (λ d, peer_info (sd_core d) !! relay_peer_id);
  match info ≫= observed_addr with
  | None => mret None
  | Some raw =>
      match from_bytes utf8_error_text raw with
      | Ok addr => mret (Some addr)
      | Err e =>
          _ ← complain role ("candidate-skipped source=identify-observed reason=parse-failed error=" ++ to_string e);
          mret None
      | Panic => panic
      end
  end.

Definition candidate_addrs (role : string) (bound_addrs external_addrs : list (Multiaddr P)) (observed_addr : option (Multiaddr P))
    : script (list (Multiaddr P)) :=
  let selection := candidate_selection bound_addrs external_addrs observed_addr in
  _ ← for_each (accepted selection) (λ c, say role ("candidate-added source=" ++ source_as_str (cand_source c)
        ++ " addr=" ++ to_string (cand_addr c)));
  _ ← for_each (rejected selection) (λ c, say role ("candidate-skipped source=" ++ source_as_str (rej_source c)
        ++ " addr=" ++ to_string (rej_addr c) ++ " reason=" ++ reason_as_str (rej_reason c)));
  _ ← (if selection_is_empty selection
       then complain role "no-dialable-dcutr-candidates; add --external-addr or bind a non-wildcard address"
       else mret ());
  mret (into_addrs selection).

Definition rendered (addrs : list (Multiaddr P)) : string := str_join "," (to_string <$> addrs).
Definition print_candidates (role : string) (addrs : list (Multiaddr P)) : script unit :=
  say role ("dcutr-candidates [" ++ rendered addrs ++ "]").
Definition print_remote_candidates (role : string) (addrs : list (Multiaddr P)) : script unit :=
  say role ("remote-dcutr-candidates [" ++ rendered addrs ++ "]").

Definition validate_candidates_with_autonat (role : string) (options : RunOptions (P:=P)) (candidates : list (Multiaddr P))
    (deadline : Z) : script (list (Multiaddr P)) :=
  match autonat options with
  | None => mret candidates
  | Some service =>
      let service_peer := pa_peer_id service in
      _ ← on_driver "dial AutoNAT service" (dial_peer service);
      _ ← say role ("autonat-dialing " ++ to_string service);
      _ ← wait_connected role service_peer deadline;
      stream_id ← open_user_stream "open AutoNAT stream" service_peer AUTONAT_PROTOCOL_ID;
      _ ← wait_user_stream_ready role stream_id deadline;
      local_peer ← gets sd_local_peer_id;
      let '(client, bytes) := autonat_client_flush utf8_error_text (cl_new local_peer candidates) in
      _ ← send service_peer stream_id bytes;
      '(_, outcome) ← read_until fuel (wait_user_stream_data role stream_id deadline) (autonat_client_feed utf8_error_text) client;
      match outcome with
      | Public addrs raw_addrs =>
          _ ← (if (length addrs <? length raw_addrs)%nat
               then complain role ("autonat-public: " ++ to_string (length addrs) ++ " of " ++ to_string (length raw_addrs)
                                     ++ " addrs parsed; unsupported addrs ignored")
               else mret ());
          _ ← say role ("autonat-public addrs=" ++ to_string (length addrs));
          mret (successful_candidates_in_original_order candidates addrs)
      | Private status reason =>
          _ ← say role ("autonat-private status=" ++ response_status_debug status ++ " reason=" ++ reason);
          mret candidates
      | Unknown status reason =>
          _ ← say role ("autonat-unknown status=" ++ response_status_debug status ++ " reason=" ++ reason);
          mret candidates
      end
  end.

(** The steps both modes start with: the relay connection and the offered addresses. *)
Definition observed_candidates (role : string) (options : RunOptions (P:=P)) (our_addrs : list (PeerAddr P)) (relay_peer_id : P)
    : script (list (Multiaddr P)) :=
  observed ← relay_observed_addr relay_peer_id role;
  initial_candidates ← candidate_addrs role (pa_transport <$> our_addrs) (external_addrs options) observed;
  start ← now;
  our_observed ← validate_candidates_with_autonat role options initial_candidates (start + AUTONAT_CLIENT_DEADLINE);
  _ ← print_candidates role our_observed;
  mret our_observed.

(** ** After the hole punch *)

Definition dial_direct_candidates (role : string) (peer_id : P) (addrs : list (Multiaddr P)) : script unit :=
  for_each addrs (λ addr,
    match pa_new addr peer_id with
    | Ok peer_addr =>
        r ← attempt (dial_peer peer_addr);
        match r with
        | inr _ => say role ("direct-dial-attempt " ++ to_string peer_addr)
        | inl e => complain role ("direct-dial-failed addr=" ++ to_string peer_addr ++ " reason=" ++ e)
        end
    | Err e => complain role ("bad PeerAddr for " ++ to_string addr ++ ": " ++ to_string e)
    | Panic => panic
    end).

Definition relay_ping_fallback (role : string) (relay_peer_id : P) (bridge_stream : StreamId) : script unit :=
  start ← now;
  ev ← wait_for role (start + 15000) (λ ev, is_stream_data bridge_stream ev || is_bridge_closed_event ev bridge_stream) "fallback poll";
  match ev with
  | Some (UserStreamData _ _ data) =>
      _ ← send relay_peer_id bridge_stream data;
      say role "relay-ping-echoed -- done"
  | Some _ => say role "bridge-closed during fallback -- done"
  | None => fail "fallback deadline exceeded before any bridge activity"
  end.

(** The events of one poll: whether the bridge was closed. *)
Fixpoint print_until_closed (role : string) (bridge_stream : StreamId) (events : list Event) : script bool :=
  match events with
  | [] => mret false
  | ev :: events =>
      _ ← in_host (modify (print_event role ev));
      if is_bridge_closed_event ev bridge_stream then mret true else print_until_closed role bridge_stream events
  end.
(** [while Instant::now() < drain_deadline { .. }] *)
Fixpoint drain_bridge (n : nat) (role : string) (bridge_stream : StreamId) (drain_deadline : Z) : script unit :=
  match n with
  | O => throw OutOfFuel
  | S n =>
      t ← now;
      if t <? drain_deadline then
        events ← on_driver "bridge close poll" poll;
        match events with
        | [] => mret ()
        | _ =>
            closed ← print_until_closed role bridge_stream events;
            if closed : bool then mret () else drain_bridge n role bridge_stream drain_deadline
        end
      else mret ()
  end.
Definition close_relay_bridge_after_direct_success (role : string) (relay_peer_id : P) (bridge_stream : StreamId) : script unit :=
  _ ← say role ("bridge-close stream=" ++ Text bridge_stream ++ " reason=direct-path-ready");
  closed ← attempt (λ d, driver_close_user_stream_write d relay_peer_id bridge_stream);
  match closed with
  | inl e => say role ("bridge-close-skipped stream=" ++ Text bridge_stream ++ " reason=" ++ e)
  | inr _ =>
      start ← now;
      drain_bridge fuel role bridge_stream (start + 200)
  end.

Definition ping_and_exit (role : string) (peer_id relay_peer_id : P) (bridge_stream : StreamId) (deadline : Z) : script unit :=
  _ ← do_ping peer_id "ping";
  found ← wait_for role deadline (is_ping_rtt peer_id) "wait-rtt";
  ev ← ok_or_fail found "deadline exceeded before ping rtt arrived";
  match ev with
  | PingRttMeasured _ rtt_ms =>
      let measured := ("ping-direct peer=" ++ to_string peer_id ++ " rtt=" ++ Text rtt_ms ++ "ms")%string in
      _ ← say role measured;
      _ ← close_relay_bridge_after_direct_success role relay_peer_id bridge_stream;
      say role (measured ++ " -- done")
  | _ => panic
  end.

(** [random_bytes]: zeros when there is no randomness. *)
Definition random_bytes (len : nat) : script (list byte) :=
  r ← in_host (state (fill_random len));
  mret (default (replicate len x00) r).

Definition blast_remote_addrs (addrs : list (Multiaddr P)) (role : string) : script unit :=
  payload ← random_bytes RELAY_PING_LEN;
  for_each addrs (λ addr,
    r ← attempt (λ d, let '(t, r) := node_send_raw_udp (sd_transport d) addr payload in (set_transport d t, r));
    match r with
    | inl e => complain role ("udp-blast " ++ to_string addr ++ " failed: " ++ e)
    | inr _ => mret ()
    end).

(** ** The dialer *)

(** [loop { .. }] of the DCUtR exchange: the bytes behind the relay's answer first, and
    then what arrives, with the time since the CONNECT was sent. *)
Fixpoint dcutr_dial_loop (n : nat) (role : string) (bridge_stream : StreamId) (deadline sent_at : Z)
    (dcutr : DcutrInitiator (P:=P)) (pending_dialnow : option (InitiatorOutcome (P:=P)))
    : script (DcutrInitiator (P:=P) * InitiatorOutcome (P:=P)) :=
  match pending_dialnow with
  | Some outcome => mret (dcutr, outcome)
  | None =>
      match n with
      | O => throw OutOfFuel
      | S n =>
          data ← wait_user_stream_data role bridge_stream deadline;
          t ← now;
          let elapsed_ms := Z.max 0 (t - sent_at) in
          let '(dcutr, r) := dcutr_initiator_feed utf8_error_text overflow_checks dcutr data elapsed_ms in
          outcome ← try_flow r;
          dcutr_dial_loop n role bridge_stream deadline sent_at dcutr outcome
      end
  end.

(** [loop { let data = ..; if data == payload { .. return Ok(()) } }] *)
Fixpoint await_echo (n : nat) (role : string) (target : P) (bridge_stream : StreamId) (deadline sent_at : Z) (payload : list byte)
    : script unit :=
  match n with
  | O => throw OutOfFuel
  | S n =>
      data ← wait_user_stream_data role bridge_stream deadline;
      if decide (data = payload) then
        t ← now;
        say role ("ping-via-relay peer=" ++ to_string target ++ " rtt=" ++ Text (Z.max 0 (t - sent_at)) ++ "ms -- done")
      else await_echo n role target bridge_stream deadline sent_at payload
  end.

Definition relay_dial (relay_addr : PeerAddr P) (target : P) (options : RunOptions (P:=P)) : script unit :=
  let role := "relay-dial"%string in
  our_addrs ← listen_on_bound_addrs role;
  local ← gets sd_local_peer_id;
  _ ← say role ("us=" ++ to_string local);
  _ ← say role ("target=" ++ to_string target);
  let relay_peer_id := pa_peer_id relay_addr in
  start ← now;
  let deadline := start + LISTEN_DEADLINE in
  (* 1. the relay connection *)
  _ ← prepare_relay role relay_addr relay_peer_id deadline;
  our_observed ← observed_candidates role options our_addrs relay_peer_id;
  (* 2. HOP CONNECT *)
  hop_stream ← open_user_stream "open HOP" relay_peer_id HOP_PROTOCOL_ID;
  _ ← wait_user_stream_ready role hop_stream deadline;
  let '(hop, bytes) := hop_connect_flush overflow_checks (hc_new (pid_to_bytes target)) in
  _ ← send relay_peer_id hop_stream bytes;
  '(hop, hop_outcome) ← read_until fuel (wait_user_stream_data role hop_stream deadline) (hop_connect_feed overflow_checks) hop;
  _ ← match hop_outcome with
      | Bridged _ => say role "bridge-established via-relay"
      | ConnectRefused status reason =>
          fail ("relay refused CONNECT: status=" ++ status_debug status ++ " reason=" ++ reason)
      end;
  let bridge_stream := hop_stream in
  let '(_, bridge_bytes) := hop_connect_bridge_bytes hop in
  (* 3. DCUtR over the bridge *)
  sent_at ← now;
  let '(dcutr, bytes) := dcutr_initiator_flush utf8_error_text overflow_checks (di_new our_observed) in
  _ ← send relay_peer_id bridge_stream bytes;
  '(dcutr, pending_dialnow) ←
    match bridge_bytes with
    | [] => mret (dcutr, None)
    | _ =>
        let '(dcutr, r) := dcutr_initiator_feed utf8_error_text overflow_checks dcutr bridge_bytes 0 in
        outcome ← try_flow r;
        mret (dcutr, outcome)
    end;
  '(dcutr, DialNow remote_addrs remote_addr_bytes rtt_ms) ←
    dcutr_dial_loop fuel role bridge_stream deadline sent_at dcutr pending_dialnow;
  _ ← (if (length remote_addrs <? length remote_addr_bytes)%nat
       then complain role ("dcutr-reply: " ++ to_string (length remote_addr_bytes - length remote_addrs)%nat ++ " of "
                             ++ to_string (length remote_addr_bytes) ++ " addrs unparsable, ignoring")
       else mret ());
  _ ← say role ("dcutr-dialnow addrs=" ++ to_string (length remote_addrs) ++ " rtt=" ++ Text rtt_ms ++ "ms");
  _ ← print_remote_candidates role remote_addrs;
  (* 4. SYNC, and dial *)
  let '(_, r) := dcutr_initiator_send_sync_flush utf8_error_text overflow_checks dcutr in
  sync ← try_flow r;
  _ ← send relay_peer_id bridge_stream sync;
  _ ← dial_direct_candidates role target remote_addrs;
  (* 5. the direct connection *)
  start ← now;
  punched ← wait_for role (start + HOLEPUNCH_DEADLINE) (λ ev, is_direct_connection_event ev target) "holepunch poll";
  (* 6. ping *)
  match punched with
  | Some _ =>
      _ ← say role ("direct-connected peer=" ++ to_string target ++ " (hole-punch success)");
      ping_and_exit role target relay_peer_id bridge_stream deadline
  | None =>
      _ ← say role "hole-punch-timeout reason=deadline elapsed -> relay-ping fallback";
      payload ← random_bytes RELAY_PING_LEN;
      sent_at ← now;
      _ ← send relay_peer_id bridge_stream payload;
      await_echo fuel role target bridge_stream deadline sent_at payload
  end.

(** ** The listener *)

Inductive HolePunchOutcome : Type :=
  | DirectConnected (peer_id : P)
  | InboundConnectionSeen
  | BridgeClosed
  | Timeout.

Definition handle_dcutr_responder_event (role : string) (ev : ResponderEvent (P:=P)) : script unit :=
  match ev with
  | ConnectReceived remote_addrs remote_addr_bytes =>
      _ ← (if (length remote_addrs <? length remote_addr_bytes)%nat
           then complain role ("dcutr-connect-received: " ++ to_string (length remote_addr_bytes - length remote_addrs)%nat
                                 ++ " of " ++ to_string (length remote_addr_bytes)
                                 ++ " remote addrs failed to parse and were ignored")
           else mret ());
      say role ("dcutr-connect-received addrs=" ++ to_string (length remote_addrs))
  | SyncReceived => mret ()
  end.
Definition drain_dcutr_responder_outputs (role : string) (flow : DcutrResponder (P:=P)) (captured : option (list (Multiaddr P)))
    : script (DcutrResponder (P:=P) * option (list (Multiaddr P)) * list byte) :=
  let '(flow, outbound, events) := dcutr_responder_outputs utf8_error_text overflow_checks flow in
  _ ← for_each events (handle_dcutr_responder_event role);
  mret (flow, foldl capture captured events, outbound).

(** [loop { if dcutr.is_done() { break .. } .. }] *)
Fixpoint dcutr_respond_loop (n : nat) (role : string) (relay_peer_id : P) (bridge_stream : StreamId) (deadline : Z)
    (dcutr : DcutrResponder (P:=P)) (captured : option (list (Multiaddr P))) : script (list (Multiaddr P)) :=
  if dr_is_done dcutr then mret (default [] captured)
  else
    match n with
    | O => throw OutOfFuel
    | S n =>
        data ← wait_user_stream_data role bridge_stream deadline;
        let '(dcutr, r) := dcutr_responder_feed utf8_error_text overflow_checks dcutr data in
        _ ← try_flow r;
        '(dcutr, captured, outbound) ← drain_dcutr_responder_outputs role dcutr captured;
        _ ← send relay_peer_id bridge_stream outbound;
        dcutr_respond_loop n role relay_peer_id bridge_stream deadline dcutr captured
    end.

(** [for ev in swarm.poll()? { .. }] of the hole punch. *)
Fixpoint punch_events (role : string) (remote_peer_id : P) (bridge_stream : StreamId) (events : list Event)
    : script (option HolePunchOutcome) :=
  match events with
  | [] => mret None
  | ev :: events =>
      _ ← in_host (modify (print_event role ev));
      match ev with
      | ConnectionEstablished peer_id =>
          if is_direct_connection_event ev remote_peer_id then mret (Some (DirectConnected peer_id))
          else punch_events role remote_peer_id bridge_stream events
      | _ =>
          if is_bridge_closed_event ev bridge_stream then mret (Some BridgeClosed)
          else punch_events role remote_peer_id bridge_stream events
      end
  end.

Definition inbound_sources : script (list (Multiaddr P)) :=
  state (λ d, let '(t, l) := node_inbound_sources (sd_transport d) in (set_transport d t, l)).

Fixpoint punch_loop (n : nat) (role : string) (remote_peer_id : P) (bridge_stream : StreamId) (remote_addrs : list (Multiaddr P))
    (targets : list (string * Z)) (punch_deadline next_blast : Z) (saw_inbound_conn : bool) : script HolePunchOutcome :=
  match n with
  | O => throw OutOfFuel
  | S n =>
      t ← now;
      if punch_deadline <=? t then mret Timeout
      else
        next_blast ← (if next_blast <=? t
                      then _ ← blast_remote_addrs remote_addrs role; mret (t + HOLEPUNCH_INTERVAL)
                      else mret next_blast);
        events ← on_driver "holepunch poll" poll;
        outcome ← punch_events role remote_peer_id bridge_stream events;
        match outcome with
        | Some outcome => mret outcome
        | None =>
            sources ← inbound_sources;
            let saw_inbound_conn := any_source_matches sources targets || saw_inbound_conn in
            if saw_inbound_conn then mret InboundConnectionSeen
            else
              _ ← in_host (modify (sleep_for 5));
              punch_loop n role remote_peer_id bridge_stream remote_addrs targets punch_deadline next_blast saw_inbound_conn
        end
  end.

(** What the listener does with the outcome of the hole punch. *)
Definition finish_punch (role : string) (relay_peer_id remote_peer_id : P) (bridge_stream : StreamId) (deadline : Z)
    (outcome : HolePunchOutcome) : script unit :=
  match outcome with
  | DirectConnected peer_id =>
      _ ← say role ("direct-connected peer=" ++ to_string peer_id ++ " (hole-punch success)");
      ping_and_exit role peer_id relay_peer_id bridge_stream deadline
  | InboundConnectionSeen =>
      _ ← say role "inbound-direct-connection detected (hole-punch success; waiting for verified mTLS identity)";
      start ← now;
      verified ← wait_for role (start + 2000) (λ ev, is_direct_connection_event ev remote_peer_id) "grace poll";
      match verified with
      | Some (ConnectionEstablished peer_id) =>
          _ ← say role ("direct-connected peer=" ++ to_string peer_id ++ " (mTLS verified)");
          ping_and_exit role peer_id relay_peer_id bridge_stream deadline
      | _ =>
          _ ← say role "grace-elapsed before mTLS identity -> relay-ping fallback";
          relay_ping_fallback role relay_peer_id bridge_stream
      end
  | BridgeClosed =>
      say role "bridge-closed (remote likely completed via direct path; relay no longer needed) -- done"
  | Timeout =>
      _ ← say role "hole-punch-timeout reason=deadline elapsed -> relay-ping fallback";
      relay_ping_fallback role relay_peer_id bridge_stream
  end.

Definition relay_listen (relay_addr : PeerAddr P) (options : RunOptions (P:=P)) : script unit :=
  let role := "relay-listen"%string in
  our_addrs ← listen_on_bound_addrs role;
  local ← gets sd_local_peer_id;
  _ ← say role ("us=" ++ to_string local);
  let relay_peer_id := pa_peer_id relay_addr in
  start ← now;
  let deadline := start + LISTEN_DEADLINE in
  (* 1. the relay connection *)
  _ ← prepare_relay role relay_addr relay_peer_id deadline;
  our_observed ← observed_candidates role options our_addrs relay_peer_id;
  (* 2. reserve *)
  hop_stream ← open_user_stream "open HOP" relay_peer_id HOP_PROTOCOL_ID;
  _ ← wait_user_stream_ready role hop_stream deadline;
  let '(reservation, bytes) := relay_reservation_flush overflow_checks hr_new in
  _ ← send relay_peer_id hop_stream bytes;
  '(_, outcome) ← read_until fuel (wait_user_stream_data role hop_stream deadline) (relay_reservation_feed overflow_checks) reservation;
  _ ← match outcome with
      | Accepted _ _ => say role "reserved-on-relay"
      | ReservationRefusedWith status reason =>
          fail ("relay refused reservation: status=" ++ status_debug status ++ " reason=" ++ reason)
      end;
  (* 3. the relay's STOP stream *)
  bridge_stream ← wait_inbound_stream role relay_peer_id STOP_PROTOCOL_ID deadline;
  _ ← say role ("incoming-circuit via-relay stream=" ++ Text bridge_stream);
  (* 4. accept *)
  '(stop, request) ← read_until fuel (wait_user_stream_data role bridge_stream deadline) (stop_feed overflow_checks) sr_new;
  remote_peer_id ← lift (map_err (λ e, Failed ("bad STOP source peer id: " ++ to_string e)) (pid_from_bytes (source_peer_id request)));
  _ ← say role ("stop-connect-from peer=" ++ to_string (A:=P) remote_peer_id);
  let '(stop, r) := stop_accept_flush overflow_checks stop in
  bytes ← try_flow r;
  _ ← send relay_peer_id bridge_stream bytes;
  let '(_, bridge_bytes) := stop_bridge_bytes stop in
  (* 5. DCUtR over the same stream *)
  dcutr ← match bridge_bytes with
          | [] => mret (dr_new our_observed)
          | _ =>
              let '(dcutr, r) := dcutr_responder_feed utf8_error_text overflow_checks (dr_new our_observed) bridge_bytes in
              _ ← try_flow r;
              mret dcutr
          end;
  '(dcutr, captured, outbound) ← drain_dcutr_responder_outputs role dcutr None;
  _ ← send relay_peer_id bridge_stream outbound;
  remote_addrs ← dcutr_respond_loop fuel role relay_peer_id bridge_stream deadline dcutr captured;
  (* 6. punch *)
  _ ← say role "dcutr-sync-received -> holepunching";
  _ ← print_remote_candidates role remote_addrs;
  _ ← dial_direct_candidates role remote_peer_id remote_addrs;
  punch_start ← now;
  let targets := omap extract_ip_port remote_addrs in
  sources ← inbound_sources;
  outcome ← punch_loop fuel role remote_peer_id bridge_stream remote_addrs targets (punch_start + HOLEPUNCH_DEADLINE)
              (punch_start + RESPONDER_SYNC_DELAY) (any_source_matches sources targets);
  (* 7. ping *)
  finish_punch role relay_peer_id remote_peer_id bridge_stream deadline outcome.

(** ** The AutoNAT server *)

(** [QuicTransport::new(QuicNodeConfig::new(keypair), bind)] *)
Definition bind_probe (keypair : Ed25519Keypair) (bind : string) : script T :=
  in_host (λ c, let '(c, r) := node_bind keypair bind c in
    (c, map_err (λ e, Failed ("dialback bind " ++ bind ++ ": " ++ to_string e)) r)).
Definition build_probe (keypair : Ed25519Keypair) (transport : T) : script (Swarm P T C) := λ d,
  (d, map_err (Empty_set_rect (λ _, PeerError)) (node_build keypair AGENT transport (sd_clock d))).
(** A script of the probe, a swarm of its own; its host is the server's. *)
Definition in_probe {A} (probe : Swarm P T C) (m : script A) : script A := λ d,
  let '(probe, r) := m (set_clock probe (sd_clock d)) in (set_clock d (sd_clock probe), r).

Definition dialback_candidate_with_bind (peer_id : P) (addr : Multiaddr P) (timeout : Z) (bind : string) : script bool :=
  keypair ← in_host generate;
  transport ← bind_probe keypair bind;
  probe ← build_probe keypair transport;
  peer_addr ← lift (map_err (λ e, Failed ("bad dialback peer addr " ++ to_string addr ++ ": " ++ to_string e)) (pa_new addr peer_id));
  in_probe probe (
    _ ← on_driver ("dialback start " ++ to_string peer_addr) (dial_peer peer_addr);
    start ← now;
    found ← run_until_do (start + timeout) (λ ev c, (c, is_direct_connection_event ev peer_id))
              ("dialback poll " ++ to_string peer_addr);
    mret (bool_decide (is_Some found))).

Definition dialback_candidate (peer_id : P) (addr : Multiaddr P) (timeout : Z) : script bool :=
  merge_dialback_results (dialback_candidate_with_bind peer_id addr timeout <$> dialback_bind_addrs addr) None false.

(** [for addr in &request.addrs { .. }]: the addresses that could be dialed back. *)
Fixpoint dialback_all (role : string) (peer_id : P) (addrs dialable : list (Multiaddr P)) : script (list (Multiaddr P)) :=
  match addrs with
  | [] => mret dialable
  | addr :: addrs =>
      r ← catch (ok ← dialback_candidate peer_id addr AUTONAT_DIALBACK_DEADLINE; mret (inr ok)) (λ e, mret (inl e));
      dialable ← match r with
                 | inr true => _ ← say role ("dialback-success addr=" ++ to_string addr); mret (push_unique dialable addr)
                 | inr false => _ ← say role ("dialback-timeout addr=" ++ to_string addr); mret dialable
                 | inl e => _ ← complain role ("dialback-bad-addr addr=" ++ to_string addr ++ " reason=" ++ e); mret dialable
                 end;
      dialback_all role peer_id addrs dialable
  end.

(** [server.handle_input(input).map_err(|e| format!("AutoNAT respond: {e}"))?] *)
Definition autonat_respond (server : AutoNatServer (P:=P)) (input : AutoNatServerInput (P:=P)) : script (AutoNatServer (P:=P)) :=
  let '(server, r) := sv_handle_input utf8_error_text server input in
  _ ← lift (map_err (λ e, Failed ("AutoNAT respond: " ++ to_string e)) r);
  mret server.

Definition handle_autonat_request (role : string) (requester_peer : P) (stream_id : StreamId) : script unit :=
  start ← now;
  let request_deadline := start + AUTONAT_REQUEST_DEADLINE in
  '(server, request) ← read_until fuel (wait_user_stream_data role stream_id request_deadline)
                         (autonat_server_feed utf8_error_text) sv_new;
  let '(peer, n, raw) := (req_peer_id request, length (req_addrs request), length (req_raw_addrs request)) in
  _ ← say role ("probe-request peer=" ++ to_string peer ++ " addrs=" ++ to_string n);
  _ ← (if (n <? raw)%nat
       then complain role ("probe-request: " ++ to_string n ++ " of " ++ to_string raw ++ " addrs parsed; unsupported addrs ignored")
       else mret ());
  if decide (peer ≠ requester_peer) then
    server ← autonat_respond server (SvRespondError BadRequest "AutoNAT request peer id did not match stream peer");
    let '(_, bytes) := autonat_server_flush utf8_error_text server in
    _ ← send requester_peer stream_id bytes;
    say role "probe-rejected reason=peer-id-mismatch"
  else
    dialable ← dialback_all role peer (req_addrs request) [];
    server ←
      match dialable with
      | _ :: _ =>
          server ← autonat_respond server (SvRespondPublic dialable);
          _ ← say role ("probe-public peer=" ++ to_string peer ++ " addrs=" ++ to_string (length dialable));
          mret server
      | [] =>
          server ← autonat_respond server (SvRespondError DialError "dialback deadline elapsed");
          _ ← say role ("probe-private peer=" ++ to_string peer ++ " reason=timeout");
          mret server
      end;
    let '(_, bytes) := autonat_server_flush utf8_error_text server in
    send requester_peer stream_id bytes.

Definition is_autonat_stream (ev : Event) : bool :=
  match ev with UserStreamReady _ _ protocol_id false => bool_decide (protocol_id = AUTONAT_PROTOCOL_ID) | _ => false end.

(** [while Instant::now() < deadline { .. }] *)
Fixpoint serve_probes (n : nat) (role : string) (deadline : Z) : script unit :=
  match n with
  | O => throw OutOfFuel
  | S n =>
      t ← now;
      if t <? deadline then
        ev ← wait_for role deadline is_autonat_stream "autonat wait stream";
        match ev with
        | Some (UserStreamReady peer_id stream_id _ _) =>
            _ ← catch (handle_autonat_request role peer_id stream_id)
                  (λ e, complain role ("request-failed stream=" ++ Text stream_id ++ " reason=" ++ e));
            serve_probes n role deadline
        | _ => mret ()
        end
      else mret ()
  end.

Definition autonat_server : script unit :=
  let role := "autonat"%string in
  _ ← listen_on_bound_addrs role;
  local ← gets sd_local_peer_id;
  _ ← say role ("us=" ++ to_string local);
  _ ← complain role "waiting for AutoNAT probes (Ctrl-C to stop)";
  start ← now;
  serve_probes fuel role (start + LISTEN_FOREVER).

End relay_mode.
