(* ===== verification/PeerSafety.v ===== *)
(** * What the scripts of the example guarantee

    Over any transport that keeps its contract, the scripts whose protocol machines
    cannot be unwound by their peer never unwind themselves: the [unreachable!()] of the
    waiting helpers are never reached.  And what a mode reports is what happened. *)
From S2P Require Import Prelude NetAddr Effects Varint Multibase PeerId Keys Multiaddr PeerAddr MultiaddrText ErrorText.
From S2P Require Import IdentifyMessage Ping Identify SwarmEvents Transport SwarmCore SwarmInvariant SwarmConns Driver.
From S2P Require Import RelayMessage DcutrMessage AutonatMessage Cli Relay Dcutr Autonat PeerRuntime PeerFlows PeerScript PeerRelay.
From Stdlib Require Import ZArith Strings.Byte Strings.String.
From stdpp Require Import base numbers list gmap strings.

#[local] Open Scope Z_scope.

Create HintDb scripts discriminated.

(** What the example relies on in its node. *)
Class PeerNodeLaws (T P C : Type) `{SP : !SwarmPeers P} `{TR : !Transport T P} `{TC : !TransportContract T P}
    `{PN : !PeerNode T P C} : Prop := {
  dial_all_keeps (t : T) (a : PeerAddr P) : keeps reported t (node_dial_all (C:=C) t a);
  raw_udp_keeps (t : T) (a : Multiaddr P) payload : keeps reported t (node_send_raw_udp (C:=C) t a payload);
  sources_keep (t : T) id : reported t id → reported (node_inbound_sources (C:=C) t).1 id;
  bind_multiaddr_returns kp a (c : C) : (node_bind_multiaddr (T:=T) kp a c).2 ≠ Panic;
  dual_stack_returns kp (c : C) : (node_dual_stack (T:=T) kp c).2 ≠ Panic;
  node_bind_returns kp bind (c : C) : (node_bind (T:=T) kp bind c).2 ≠ Panic;
  node_build_ok kp agent (t : T) (c : C) : ∃ d : Swarm P T C, node_build kp agent t c = Ok d ∧ driver_ok d;
}.

Section safety.
Context {P : Type} `{SP : !SwarmPeers P} `{PT : !PeerIdText P} `{BP : !BuildProfile} `{SD : !StrDebug}.
Context {T : Type} `{TR : !Transport T P} `{TC : !TransportContract T P}.
Context {C : Type} `{TM : !Time C} `{HC : !Host C} `{PN : !PeerNode T P C} `{NL : !PeerNodeLaws T P C}.
Context {VK : Type} `{EA : !Ed25519Api VK}.
Context (utf8_error_text : list byte → string) (overflow_checks : bool) (fuel : nat).
(** The system has randomness. *)
Context (randomness : ∀ c : C, (generate_secret c).2 ≠ None).

#[local] Abbreviation script := (script (P:=P) (T:=T) (C:=C)).
#[local] Abbreviation Event := (SwarmEvent (P:=P)).

Definition anyhow : relation (Swarm P T C) := λ _ _, True.
#[local] Instance anyhow_preorder : PreOrder anyhow.
Proof. done. Qed.

(** The script keeps the driver's invariant and does not unwind. *)
Definition safe {A} (m : script A) : Prop := respects driver_ok anyhow m.

Lemma safe_iff {A} (m : script A) : safe m ↔ ∀ d, driver_ok d → driver_ok (m d).1 ∧ (m d).2 ≠ Panic.
Proof.
  unfold safe, respects, run_ok. split.
  - intros H d Hd. destruct (H d Hd) as (? & ? & _). done.
  - intros H d Hd. destruct (H d Hd). done.
Qed.

Lemma driver_ok_host (d : Swarm P T C) c : driver_ok d → driver_ok (set_clock d c).
Proof. intros [[? ?] ?]. by split. Qed.

Lemma safe_ret {A} (a : A) : safe (mret a).
Proof. by apply safe_iff. Qed.
Lemma safe_throw {A} e : safe (throw (A:=A) e).
Proof. by apply safe_iff. Qed.
Lemma safe_fail {A} msg : safe (fail (A:=A) msg).
Proof. apply safe_throw. Qed.
Lemma safe_lift {A} (r : res PeerError A) : r ≠ Panic → safe (lift r).
Proof. intros. by apply safe_iff. Qed.
Lemma safe_gets {A} (f : Swarm P T C → A) : safe (gets f).
Proof. by apply safe_iff. Qed.
Lemma safe_then {A B} (m : script A) (k : A → script B) : safe m → (∀ a, safe (k a)) → safe (m ≫= k).
Proof. apply respects_bind, _. Qed.

(** The rest of the script may use what the first part answers. *)
Lemma safe_bind_post {A B} (m : script A) (k : A → script B) (Q : A → Prop) :
  safe m → (∀ d d' a, m d = (d', Ok a) → Q a) → (∀ a, Q a → safe (k a)) → safe (m ≫= k).
Proof.
  intros Hm HQ Hk d Hd. apply ok_call_bind; [apply _|done..|]. intros a d' E Hd' _ _.
  eapply ok_call; [apply _|by eapply Hk, HQ|done..].
Qed.

Lemma safe_for_each {A} (l : list A) body : (∀ x, safe (body x)) → safe (for_each l body).
Proof. apply respects_for_each, _. Qed.

Lemma safe_in_host {A} (m : eff C PeerError A) : (∀ c, (m c).2 ≠ Panic) → safe (in_host m).
Proof.
  intros Hm. apply safe_iff. intros d Hd. unfold in_host, zoom. specialize (Hm (sd_clock d)).
  destruct (m (sd_clock d)) as [c r]. split; [by apply driver_ok_host|done].
Qed.
Lemma safe_say role s : safe (say role s).
Proof. by apply safe_in_host. Qed.
Lemma safe_complain role s : safe (complain role s).
Proof. by apply safe_in_host. Qed.
Lemma safe_now : safe now.
Proof. apply safe_in_host. intros c. unfold state. by destruct (instant_now c). Qed.
Lemma safe_in_host_modify f : safe (in_host (modify f)).
Proof. by apply safe_in_host. Qed.
Lemma safe_in_host_state {A} (f : C → C * A) : safe (in_host (state f)).
Proof. apply safe_in_host. intros c. unfold state. by destruct (f c). Qed.

Lemma safe_on_driver {A} what (f : Swarm P T C → Swarm P T C * res TransportError A) :
  (∀ d, driver_ok d → driver_ok (f d).1 ∧ (f d).2 ≠ Panic) → safe (on_driver what f).
Proof.
  intros Hf. apply safe_iff. intros d Hd. destruct (Hf d Hd) as [H1 H2]. unfold on_driver.
  destruct (f d) as [d' r]. split; [done|]. by apply map_err_no_panic.
Qed.
Lemma safe_attempt {A} (f : Swarm P T C → Swarm P T C * res TransportError A) :
  (∀ d, driver_ok d → driver_ok (f d).1 ∧ (f d).2 ≠ Panic) → safe (attempt f).
Proof.
  intros Hf. apply safe_iff. intros d Hd. destruct (Hf d Hd) as [H1 H2]. unfold attempt.
  destruct (f d) as [d' []]; done.
Qed.
Lemma safe_catch {A} (m : script A) handler : safe m → (∀ e, safe (handler e)) → safe (catch m handler).
Proof.
  intros Hm Hh. apply safe_iff. intros d Hd. rewrite safe_iff in Hm. destruct (Hm d Hd) as [H1 H2]. unfold catch.
  destruct (m d) as [d' [a|[e|]|]]; try done. by apply safe_iff.
Qed.
Lemma safe_ok_or_fail {A} (o : option A) msg : safe (ok_or_fail o msg).
Proof. destruct o; [apply safe_ret|apply safe_fail]. Qed.
Lemma safe_try_flow {A} (r : res string A) : r ≠ Panic → safe (try_flow r).
Proof. intros. apply safe_lift. by apply map_err_no_panic. Qed.
(** ** Waiting *)

Lemma run_until_with_ok n (d d' : Swarm P T C) deadline predicate r :
  driver_ok d → run_until_with n d deadline predicate = Some (d', r) →
  driver_ok d' ∧ r ≠ Panic ∧
  ∀ ev, r = Ok (Some ev) → ∃ c, sd_clock d' = (predicate ev c).1 ∧ (predicate ev c).2 = true.
Proof.
  revert d. induction n as [|n IH]; intros d Hd; [done|]. cbn [run_until_with].
  destruct (poll_next (S n) d deadline) as [[d1 r1]|] eqn:E; [|done]. apply poll_next_ok in E as [Hd1 Hr1]; [|done].
  destruct r1 as [[ev|]|e|]; [|by intros [= <- <-]..|done].
  destruct (predicate ev (sd_clock d1)) as [c stop] eqn:Ep. destruct stop.
  - intros [= <- <-]. split_and!; [by apply driver_ok_host|done|]. intros ? [= <-]. exists (sd_clock d1). by rewrite Ep.
  - apply IH. by apply driver_ok_host.
Qed.

Lemma safe_run_until_do deadline predicate what : safe (run_until_do fuel deadline predicate what).
Proof.
  apply safe_iff. intros d Hd. unfold run_until_do.
  destruct (run_until_with fuel d deadline predicate) as [[d' r]|] eqn:E; [|done].
  apply run_until_with_ok in E as (? & ? & _); [|done]. split; [done|]. by apply map_err_no_panic.
Qed.
Lemma safe_wait_for role deadline wanted what : safe (wait_for utf8_error_text fuel role deadline wanted what).
Proof. apply safe_run_until_do. Qed.

(** The event that ends the wait satisfies the predicate. *)
Lemma run_until_do_wanted deadline (report : Event → C → C) (wanted : Event → bool) what (d d' : Swarm P T C) ev :
  run_until_do fuel deadline (λ ev c, (report ev c, wanted ev)) what d = (d', Ok (Some ev)) → wanted ev = true.
Proof.
  unfold run_until_do. destruct (run_until_with _ _ _ _) as [[d1 r]|] eqn:E; [|done].
  intros [= <- Hr]. destruct r as [o|e|]; [|done..]. injection Hr as ->. clear -E.
  revert d E. induction fuel as [|n IH]; intros d; [done|]. cbn [run_until_with].
  destruct (poll_next (S n) d deadline) as [[d2 [[ev'|]|e|]]|]; try done.
  destruct (wanted ev') eqn:Ew; [by intros [= _ <-]|apply IH].
Qed.
Lemma wait_for_wanted role deadline wanted what (d d' : Swarm P T C) ev :
  wait_for utf8_error_text fuel role deadline wanted what d = (d', Ok (Some ev)) → wanted ev = true.
Proof. apply run_until_do_wanted. Qed.

(** Wait, and then look at the event. *)
Lemma safe_wait_then {A} role deadline wanted what (k : option Event → script A) :
  (∀ ev, wanted ev = true → safe (k (Some ev))) → safe (k None) →
  safe (wait_for utf8_error_text fuel role deadline wanted what ≫= k).
Proof.
  intros Hs Hn. eapply (safe_bind_post _ _ (λ o, ∀ ev, o = Some ev → wanted ev = true)); [apply safe_wait_for| |].
  - intros d d' o E ev ->. by eapply wait_for_wanted.
  - intros [ev|] Ho; [by apply Hs, Ho|done].
Qed.

(** ** Calls of the driver *)

(** A call of the driver, seen through [DriverCall]. *)
Lemma returned_ok {A} (x : DriverCall (P:=P)) (f : Swarm P T C → Swarm P T C * res TransportError A) :
  (∀ d, call d x = Some ((f d).1, negb (is_panic (f d).2))) →
  ∀ d, driver_ok d → driver_ok (f d).1 ∧ (f d).2 ≠ Panic.
Proof.
  intros Hx d Hd. pose proof (call_ok d x Hd) as H. rewrite Hx in H. destruct H as [H1 H2]. split; [done|].
  by destruct (f d) as [? []].
Qed.

Lemma safe_send peer stream data : safe (send (P:=P) (T:=T) (C:=C) peer stream data).
Proof.
  unfold send. destruct data as [|b data]; [apply safe_ret|].
  apply safe_on_driver, (returned_ok (CallSendUserStream peer stream (b :: data))). done.
Qed.
Lemma safe_open what peer proto : safe (PeerRelay.open_user_stream (P:=P) (T:=T) (C:=C) what peer proto).
Proof. apply safe_on_driver, (returned_ok (CallOpenUserStream peer proto)). done. Qed.
Lemma safe_dial what addr : safe (on_driver (T:=T) (C:=C) what (dial_peer (P:=P) addr)).
Proof. apply safe_on_driver, (returned_ok (CallDial addr)). done. Qed.
Lemma safe_attempt_dial addr : safe (attempt (T:=T) (C:=C) (dial_peer (P:=P) addr)).
Proof. apply safe_attempt, (returned_ok (CallDial addr)). done. Qed.
Lemma safe_poll what : safe (on_driver (P:=P) (T:=T) (C:=C) what poll).
Proof. apply safe_on_driver, (returned_ok CallPoll). done. Qed.
Lemma safe_do_ping peer what : safe (do_ping (P:=P) (T:=T) (C:=C) peer what).
Proof.
  unfold do_ping. apply safe_then; [apply safe_in_host_state|]. intros random.
  apply safe_then; [destruct random; [apply safe_ret|apply safe_in_host_state]|]. intros since_epoch.
  apply safe_on_driver, (returned_ok (CallPing peer (rand_ping_payload random since_epoch))). done.
Qed.
Lemma safe_disconnect peer : safe (attempt (T:=T) (C:=C) (λ d, driver_disconnect (P:=P) d peer)).
Proof. apply safe_attempt, (returned_ok (CallDisconnect peer)). done. Qed.
Lemma safe_close_write peer stream : safe (attempt (T:=T) (C:=C) (λ d, driver_close_user_stream_write (P:=P) d peer stream)).
Proof. apply safe_attempt, (returned_ok (CallCloseUserStreamWrite peer stream)). done. Qed.
Lemma safe_listen_all what : safe (on_driver (P:=P) (T:=T) (C:=C) what Driver.listen_on_bound_addrs).
Proof. apply safe_on_driver, (returned_ok CallListenOnBoundAddrs). done. Qed.

(** ** The scripts *)

Lemma safe_ret_bind {A B} (a : A) (k : A → script B) : safe (k a) → safe (mret a ≫= k).
Proof. intros Hk. apply safe_iff. intros d Hd. rewrite safe_iff in Hk. by apply Hk. Qed.
Lemma safe_fail_bind {A B} msg (k : A → script B) : safe (fail msg ≫= k).
Proof. by apply safe_iff. Qed.

#[local] Hint Resolve safe_ret safe_throw safe_fail safe_gets safe_say safe_complain safe_now safe_in_host_modify
  safe_in_host_state safe_ok_or_fail safe_wait_for safe_run_until_do safe_send safe_open safe_dial safe_attempt_dial
  safe_poll safe_do_ping safe_disconnect safe_close_write safe_listen_all safe_fail_bind : scripts.

#[local] Ltac safely := repeat match goal with
  | |- safe (mbind _ (ok_or_fail (Some _) _)) => apply safe_ret_bind
  | |- safe (mbind _ (ok_or_fail None _)) => apply safe_fail_bind
  | |- safe (mbind _ _) => apply safe_then; [|intros ?]
  | |- safe (for_each _ _) => apply safe_for_each; intros ?
  | |- safe (match ?x with _ => _ end) => destruct x
  | |- safe _ => solve [eauto 2 with scripts]
  end.

(** The event is of the kind that was waited for, so that the [unreachable!()] is. *)
#[local] Ltac waits := apply safe_wait_then; [intros [] Hw; try discriminate Hw; safely|safely].

Lemma safe_wait_connected role peer deadline : safe (wait_connected utf8_error_text fuel (T:=T) (C:=C) role peer deadline).
Proof. unfold wait_connected. safely. Qed.
Lemma safe_wait_ready role stream deadline :
  safe (wait_user_stream_ready utf8_error_text fuel (P:=P) (T:=T) (C:=C) role stream deadline).
Proof. unfold wait_user_stream_ready. waits. Qed.
Lemma safe_wait_inbound role peer proto deadline :
  safe (wait_inbound_stream utf8_error_text fuel (T:=T) (C:=C) role peer proto deadline).
Proof. unfold wait_inbound_stream. waits. Qed.
Lemma safe_wait_data role stream deadline :
  safe (wait_user_stream_data utf8_error_text fuel (P:=P) (T:=T) (C:=C) role stream deadline).
Proof. unfold wait_user_stream_data. waits. Qed.
#[local] Hint Resolve safe_wait_connected safe_wait_ready safe_wait_inbound safe_wait_data : scripts.

Lemma safe_wait_protocols role peer deadline :
  safe (wait_relay_protocols_after_dial utf8_error_text fuel (T:=T) (C:=C) role peer deadline).
Proof.
  unfold wait_relay_protocols_after_dial.
  eapply (safe_bind_post _ _ (λ o, ∀ ev, o = Some ev → is_protocols_event peer ev = true)); [apply safe_run_until_do| |].
  - intros d d' o E ev ->. by eapply run_until_do_wanted.
  - intros [ev|] Ho; [|safely]. specialize (Ho ev eq_refl). destruct ev; try discriminate Ho; safely.
Qed.
Lemma safe_retry role peer : safe (retry_relay_connection utf8_error_text fuel (T:=T) (C:=C) role peer).
Proof. unfold retry_relay_connection. safely. Qed.
#[local] Hint Resolve safe_wait_protocols safe_retry : scripts.

Lemma safe_prepare_relay role addr peer deadline :
  safe (prepare_relay utf8_error_text fuel (T:=T) (C:=C) role addr peer deadline).
Proof.
  unfold prepare_relay. generalize (seq 1 RELAY_READY_ATTEMPTS), (@nil string).
  induction l as [|n l IH]; intros last; cbn [relay_attempts]; cbv zeta; safely.
Qed.

Lemma safe_read_until {M A} n (wait : script (list byte)) (feed : M → list byte → M * res string (option A)) flow :
  safe wait → (∀ flow data, (feed flow data).2 ≠ Panic) → safe (read_until n wait feed flow).
Proof.
  intros Hw Hf. revert flow. induction n as [|n IH]; intros flow; cbn [read_until]; [safely|].
  apply safe_then; [done|]. intros data. specialize (Hf flow data). destruct (feed flow data) as [flow' r].
  apply safe_then; [by apply safe_try_flow|]. intros [a|]; safely.
Qed.

Lemma feed_with_returns {M I O E A} handle poll `{!Display E} what (i : I) (pick : O → option A) (m : M) :
  (handle m i).2 ≠ Panic → (feed_with (E:=E) handle poll what i pick m).2 ≠ Panic.
Proof.
  intros H. unfold feed_with, poll_for. destruct (handle m i) as [m' []]; try done. by destruct (poll m') as [o m''].
Qed.

Lemma safe_listen_on role : safe (PeerRelay.listen_on_bound_addrs (P:=P) (T:=T) (C:=C) role).
Proof. unfold PeerRelay.listen_on_bound_addrs. safely. Qed.
#[local] Hint Resolve safe_prepare_relay safe_listen_on : scripts.

Lemma safe_observed_addr peer role : safe (relay_observed_addr utf8_error_text (T:=T) (C:=C) (P:=P) peer role).
Proof.
  unfold relay_observed_addr. apply safe_then; [safely|]. intros info. destruct (info ≫= observed_addr) as [raw|]; [|safely].
  pose proof (from_bytes_no_panic (P:=P) utf8_error_text raw) as Hn. destruct (from_bytes _ raw); [safely..|done].
Qed.
Lemma safe_candidate_addrs role bound external observed :
  safe (candidate_addrs (P:=P) (T:=T) (C:=C) role bound external observed).
Proof. unfold candidate_addrs. cbv zeta. safely. Qed.
Lemma safe_validate role options candidates deadline :
  safe (validate_candidates_with_autonat utf8_error_text fuel (P:=P) (T:=T) (C:=C) role options candidates deadline).
Proof.
  unfold validate_candidates_with_autonat. destruct (autonat options) as [service|]; [|safely]. cbv zeta. safely.
  apply safe_read_until; [safely|]. intros flow data. apply feed_with_returns, cl_input_no_panic.
Qed.
#[local] Hint Resolve safe_observed_addr safe_candidate_addrs safe_validate : scripts.
Lemma safe_observed_candidates role options addrs peer :
  safe (observed_candidates utf8_error_text fuel (P:=P) (T:=T) (C:=C) role options addrs peer).
Proof. unfold observed_candidates, print_candidates. safely. Qed.

Lemma safe_pa_new {A} what addr (peer : P) (k : PeerAddr P → script A) :
  (∀ a, safe (k a)) → safe (lift (map_err what (pa_new addr peer)) ≫= k).
Proof.
  intros Hk. apply safe_then; [|done]. apply safe_lift, map_err_no_panic, pa_new_no_panic.
Qed.

Lemma safe_dial_direct role peer addrs : safe (dial_direct_candidates (P:=P) (T:=T) (C:=C) role peer addrs).
Proof.
  unfold dial_direct_candidates. apply safe_for_each. intros addr. pose proof (pa_new_no_panic addr peer).
  destruct (pa_new addr peer); [safely..|done].
Qed.
Lemma safe_fallback role peer stream : safe (relay_ping_fallback utf8_error_text fuel (P:=P) (T:=T) (C:=C) role peer stream).
Proof. unfold relay_ping_fallback. safely. Qed.

Lemma safe_print_closed role stream events : safe (print_until_closed utf8_error_text (P:=P) (T:=T) (C:=C) role stream events).
Proof. induction events as [|ev events IH]; cbn [print_until_closed]; safely. Qed.
#[local] Hint Resolve safe_dial_direct safe_fallback safe_print_closed : scripts.
Lemma safe_drain_bridge n role stream deadline : safe (drain_bridge utf8_error_text (P:=P) (T:=T) (C:=C) n role stream deadline).
Proof. induction n as [|n IH]; cbn [drain_bridge]; safely. Qed.
#[local] Hint Resolve safe_drain_bridge : scripts.
Lemma safe_close_bridge role peer stream :
  safe (close_relay_bridge_after_direct_success utf8_error_text fuel (P:=P) (T:=T) (C:=C) role peer stream).
Proof. unfold close_relay_bridge_after_direct_success. safely. Qed.
#[local] Hint Resolve safe_close_bridge : scripts.
Lemma safe_ping_and_exit role peer relay stream deadline :
  safe (ping_and_exit utf8_error_text fuel (P:=P) (T:=T) (C:=C) role peer relay stream deadline).
Proof. unfold ping_and_exit. apply safe_then; [safely|]. intros _. waits. Qed.

(** ** The AutoNAT server *)

Lemma safe_generate : safe (in_host (P:=P) (T:=T) (C:=C) generate).
Proof.
  apply safe_in_host. intros c. unfold generate. specialize (randomness c). by destruct (generate_secret c) as [c' []].
Qed.
Lemma safe_bind_probe kp bind : safe (bind_probe (P:=P) (T:=T) (C:=C) kp bind).
Proof.
  apply safe_in_host. intros c. pose proof (node_bind_returns (T:=T) kp bind c). destruct (node_bind kp bind c) as [c' r].
  by apply map_err_no_panic.
Qed.

(** What the probe does stays in the probe. *)
Lemma safe_in_probe {A} probe (m : script A) : driver_ok probe → safe m → safe (in_probe probe m).
Proof.
  intros Hp Hm. apply safe_iff. intros d Hd. rewrite safe_iff in Hm. unfold in_probe.
  destruct (Hm (set_clock probe (sd_clock d)) (driver_ok_host _ _ Hp)) as [_ Hr].
  destruct (m _) as [probe' r]. split; [by apply driver_ok_host|done].
Qed.
Lemma safe_build_probe {A} kp t (k : Swarm P T C → script A) :
  (∀ d, driver_ok d → safe (k d)) → safe (build_probe kp t ≫= k).
Proof.
  intros Hk. apply (safe_bind_post _ _ driver_ok); [| |done].
  - apply safe_iff. intros d Hd. unfold build_probe. split; [done|]. destruct (node_build_ok kp AGENT t (sd_clock d)) as (d' & -> & _). done.
  - intros d d' a. unfold build_probe. destruct (node_build_ok kp AGENT t (sd_clock d)) as (d1 & -> & Hd1). by intros [= _ <-].
Qed.

#[local] Hint Resolve safe_ping_and_exit safe_generate safe_bind_probe : scripts.

Lemma safe_dialback_bind peer addr timeout bind :
  safe (dialback_candidate_with_bind fuel (P:=P) (T:=T) (C:=C) peer addr timeout bind).
Proof.
  unfold dialback_candidate_with_bind. apply safe_then; [safely|]. intros kp. apply safe_then; [safely|]. intros t.
  apply safe_build_probe. intros probe Hp. apply safe_pa_new. intros a. apply safe_in_probe; [done|]. safely.
Qed.
Lemma safe_merge (results : list (script bool)) last saw : Forall safe results → safe (merge_dialback_results results last saw).
Proof.
  intros Hs. revert last saw. induction Hs as [|m results Hm _ IH]; intros last saw; apply safe_iff; intros d Hd.
  - cbn. by destruct saw, last.
  - cbn [merge_dialback_results]. rewrite safe_iff in Hm. destruct (Hm d Hd) as [H1 H2].
    destruct (m d) as [d' [[]|[e|]|]]; try done; (specialize (IH (Some e) saw) || specialize (IH last true)); by apply safe_iff.
Qed.
Lemma safe_dialback peer addr timeout : safe (dialback_candidate fuel (P:=P) (T:=T) (C:=C) peer addr timeout).
Proof.
  apply safe_merge, Forall_fmap, Forall_true. intros bind. apply safe_dialback_bind.
Qed.
#[local] Hint Resolve safe_dialback : scripts.

Lemma safe_dialback_all role peer addrs dialable : safe (dialback_all fuel (P:=P) (T:=T) (C:=C) role peer addrs dialable).
Proof.
  revert dialable. induction addrs as [|addr addrs IH]; intros dialable; cbn [dialback_all]; [safely|].
  apply safe_then; [apply safe_catch; [safely|intros; safely]|]. intros r. safely.
Qed.
Lemma safe_respond server input : safe (autonat_respond utf8_error_text (P:=P) (T:=T) (C:=C) server input).
Proof.
  unfold autonat_respond. pose proof (sv_input_no_panic utf8_error_text server input).
  destruct (sv_handle_input _ _ _) as [server' r]. apply safe_then; [by apply safe_lift, map_err_no_panic|]. intros. safely.
Qed.
#[local] Hint Resolve safe_dialback_all safe_respond : scripts.

Lemma safe_handle_request role peer stream :
  safe (handle_autonat_request utf8_error_text fuel (P:=P) (T:=T) (C:=C) role peer stream).
Proof.
  unfold handle_autonat_request. apply safe_then; [safely|]. intros start. apply safe_then.
  { apply safe_read_until; [safely|]. intros flow data. apply feed_with_returns, sv_input_no_panic. }
  intros [server request]. cbv beta iota zeta. safely.
Qed.
#[local] Hint Resolve safe_handle_request : scripts.
Lemma safe_serve n role deadline : safe (serve_probes utf8_error_text fuel (P:=P) (T:=T) (C:=C) n role deadline).
Proof.
  induction n as [|n IH]; cbn [serve_probes]; [safely|]. apply safe_then; [safely|]. intros t. destruct (t <? deadline); [|safely].
  apply safe_then; [safely|]. intros [[]|]; try safely. apply safe_catch; intros; safely.
Qed.
#[local] Hint Resolve safe_serve : scripts.

Lemma safe_autonat_server : safe (autonat_server utf8_error_text fuel (P:=P) (T:=T) (C:=C)).
Proof. unfold autonat_server. safely. Qed.

(** ** The direct modes *)

Lemma safe_print_forever n role deadline : safe (print_forever utf8_error_text fuel (P:=P) (T:=T) (C:=C) n role deadline).
Proof. induction n as [|n IH]; cbn [print_forever]; safely. Qed.
#[local] Hint Resolve safe_print_forever : scripts.
Lemma safe_direct_listen : safe (direct_listen utf8_error_text fuel (P:=P) (T:=T) (C:=C)).
Proof. unfold direct_listen, first_or_fail. safely. Qed.

Lemma safe_dial_all what target :
  safe (on_driver (P:=P) (T:=T) (C:=C) what
    (λ d, let '(t, r) := node_dial_all (sd_transport d) target in (set_transport d t, r))).
Proof.
  apply safe_on_driver. intros d Hd. pose proof (dial_all_keeps (C:=C) (sd_transport d) target) as Hk.
  pose proof (driver_ok_transport d _ Hd Hk) as Hd'. destruct Hk as [Hp _]. by destruct (node_dial_all _ _).
Qed.
#[local] Hint Resolve safe_dial_all : scripts.
Lemma safe_direct_dial target : safe (direct_dial utf8_error_text fuel (P:=P) (T:=T) (C:=C) target).
Proof. unfold direct_dial. safely. Qed.

(** ** Properties *)

Lemma script_bind_ok {A B} (m : script A) (k : A → script B) d d' b :
  (m ≫= k) d = (d', Ok b) → ∃ d1 a, m d = (d1, Ok a) ∧ k a d1 = (d', Ok b).
Proof. unfold mbind, eff_bind. destruct (m d) as [d1 [a|e|]]; [|done..]. by eauto. Qed.

Lemma ok_or_fail_ok {A} (o : option A) msg (d d' : Swarm P T C) a :
  ok_or_fail o msg d = (d', Ok a) → o = Some a ∧ d' = d.
Proof. destruct o; [by intros [= <- <-]|done]. Qed.

(** A wait prints the event that ended it last. *)
Lemma wait_for_prints role deadline wanted what (d d' : Swarm P T C) ev :
  wait_for utf8_error_text fuel role deadline wanted what d = (d', Ok (Some ev)) →
  wanted ev = true ∧ ∃ c, sd_clock d' = print_event utf8_error_text role ev c.
Proof.
  intros H. split; [by eapply wait_for_wanted|]. revert H. unfold wait_for, run_until_do.
  destruct (run_until_with _ _ _ _) as [[d1 r]|] eqn:E; [|done]. intros [= <- Hr].
  destruct r as [o|e|]; [|done..]. injection Hr as ->. clear -E.
  revert d E. induction fuel as [|n IH]; intros d; [done|]. cbn [run_until_with].
  destruct (poll_next (S n) d deadline) as [[d2 [[ev'|]|e|]]|]; try done.
  destruct (wanted ev'); [|apply IH]. intros [= <- <-]. by eexists.
Qed.

(** A script that does not unwind and leaves the swarm with nothing undone. *)
Definition ends_well (x : Swarm P T C * res PeerError unit) : Prop :=
  x.2 ≠ Panic ∧ swarm_is_idle (sd_core x.1) = true.

Lemma safe_ends_well (m : script unit) d : safe m → driver_ok d → ends_well (m d).
Proof.
  rewrite safe_iff. intros Hm Hd. destruct (Hm d Hd) as [[_ [Ha He]] Hp]. split; [done|].
  unfold swarm_is_idle. by rewrite Ha, He.
Qed.


(** ** The reading loop and the pure handshakes *)

(** The waits deliver these chunks, one after the other. *)
Inductive delivers (wait : script (list byte)) : Swarm P T C → list (list byte) → Swarm P T C → Prop :=
  | delivers_nil d : delivers wait d [] d
  | delivers_cons d d1 d2 c cs : wait d = (d1, Ok c) → delivers wait d1 cs d2 → delivers wait d (c :: cs) d2.

(** A script that reads until its machine answers gets the answer of [feed_until] on the
    chunks that were delivered, and stops waiting at the chunk that brought it. *)
Lemma read_until_delivers {M A} n wait (feed : M → list byte → M * res string (option A)) flow flow' a d d' cs :
  delivers wait d cs d' → (length cs <= n)%nat → feed_until feed flow cs = (flow', Ok (Some (a, []))) →
  read_until n wait feed flow d = (d', Ok (flow', a)).
Proof.
  intros Hd. revert n flow. induction Hd as [d|d d1 d2 c cs Hw Hd IH]; intros n flow Hn; [done|].
  destruct n as [|n]; [cbn in Hn; lia|]. cbn [feed_until read_until]. unfold mbind, eff_bind. rewrite Hw.
  destruct (feed flow c) as [flow1 [[a1|]|e|]]; [| |done..].
  - intros [= <- -> ->]. inversion Hd; subst. done.
  - intros E. cbn. apply IH; [cbn in Hn; lia|done].
Qed.

(** ** What the AutoNAT server reports *)

Lemma merge_true (results : list (script bool)) last saw d d' :
  merge_dialback_results results last saw d = (d', Ok true) → ∃ m d1 d2, m ∈ results ∧ m d1 = (d2, Ok true).
Proof.
  revert last saw d. induction results as [|m results IH]; intros last saw d; cbn [merge_dialback_results].
  { destruct saw, last; done. }
  destruct (m d) as [d1 [[]|[e|]|]] eqn:E; try done.
  - intros _. exists m, d, d1. split; [by left|done].
  - intros (m' & ? & ? & ? & ?)%IH. exists m'. eexists _, _. split; [by right|done].
  - intros (m' & ? & ? & ? & ?)%IH. exists m'. eexists _, _. split; [by right|done].
Qed.

Lemma catch_ok {A} (m : script A) handler d d' a :
  catch m handler d = (d', Ok a) → m d = (d', Ok a) ∨ ∃ d1 e, handler e d1 = (d', Ok a).
Proof. unfold catch. destruct (m d) as [d1 [x|[e|]|]]; [by left|by right; eauto|done..]. Qed.

(** The events a driver hands out, one [poll_next] after the other. *)
Inductive handed (deadline : Z) : Swarm P T C → list Event → Swarm P T C → Prop :=
  | handed_nil d : handed deadline d [] d
  | handed_cons d d1 d2 n ev evs : poll_next n d deadline = Some (d1, Ok (Some ev)) →
      handed deadline d1 evs d2 → handed deadline d (ev :: evs) d2.

Lemma run_until_handed n deadline (wanted : Event → bool) d d' ev :
  run_until_with n d deadline (λ ev c, (c, wanted ev)) = Some (d', Ok (Some ev)) →
  wanted ev = true ∧ ∃ evs, handed deadline d (evs ++ [ev]) d'.
Proof.
  revert d. induction n as [|n IH]; intros d; [done|]. cbn [run_until_with].
  destruct (poll_next (S n) d deadline) as [[d1 [[ev1|]|e|]]|] eqn:E; try done.
  replace (set_clock d1 (sd_clock d1)) with d1 by by destruct d1. destruct (wanted ev1) eqn:Ew.
  - intros [= <- <-]. split; [done|]. exists []. eapply handed_cons; [exact E|constructor].
  - intros (Hw & evs & Hh)%IH. split; [done|]. exists (ev1 :: evs). by eapply handed_cons.
Qed.

(** A probe reached the peer at the address: a node with a keypair made for it, on a
    socket bound to an address of the right family, dialed the peer at that address, and
    then, within the time that was set, its driver handed out the event that the peer is
    connected. *)
Definition probed (peer : P) (addr : Multiaddr P) : Prop :=
  ∃ bind c0 c keypair c1 transport probe target probe1 id evs probe2,
    bind ∈ dialback_bind_addrs addr ∧ generate c0 = (c, Ok keypair) ∧
    node_bind keypair bind c = (c1, Ok transport) ∧ node_build keypair AGENT transport c1 = Ok probe ∧
    pa_new addr peer = Ok target ∧ dial (set_clock probe c1) target = (probe1, Ok id) ∧
    let '(start, c2) := instant_now (sd_clock probe1) in
    handed (start + AUTONAT_DIALBACK_DEADLINE) (set_clock probe1 c2) (evs ++ [ConnectionEstablished peer]) probe2.

Lemma map_err_Ok {E E' A} (f : E → E') (r : res E A) a : map_err f r = Ok a → r = Ok a.
Proof. by destruct r; intros [=]; subst. Qed.

Lemma in_probe_ok {A} (probe : Swarm P T C) (m : script A) d d' a :
  in_probe probe m d = (d', Ok a) → ∃ p', m (set_clock probe (sd_clock d)) = (p', Ok a).
Proof. unfold in_probe. destruct (m _) as [p' r]. intros [= _ ->]. by exists p'. Qed.

Lemma candidate_probed peer addr bind (d d' : Swarm P T C) :
  bind ∈ dialback_bind_addrs addr →
  dialback_candidate_with_bind fuel peer addr AUTONAT_DIALBACK_DEADLINE bind d = (d', Ok true) → probed peer addr.
Proof.
  intros Hb. unfold dialback_candidate_with_bind. intros (d1 & kp & Hg & E)%script_bind_ok.
  apply script_bind_ok in E as (d2 & transport & Ht & E). apply script_bind_ok in E as (d3 & probe & Hp & E).
  apply script_bind_ok in E as (d4 & target & Hpa & E).
  unfold bind_probe in Ht. unfold in_host, zoom in Hg, Ht. destruct (generate (sd_clock d)) as [c rg] eqn:Eg. injection Hg as <- ->.
  cbn [put_host set_clock sd_clock] in Ht. destruct (node_bind (T:=T) kp bind c) as [c1 rt] eqn:Et. injection Ht as <- Ht%map_err_Ok.
  unfold build_probe in Hp. injection Hp as <- Hp%map_err_Ok. unfold lift in Hpa. injection Hpa as <- Hpa%map_err_Ok.
  apply in_probe_ok in E as (p' & Ep).
  apply script_bind_ok in Ep as (p1 & id & Hdial & Ep). apply script_bind_ok in Ep as (p2 & start & Hnow & Ep).
  apply script_bind_ok in Ep as (p3 & found & Hf & Ep).
  unfold on_driver, dial_peer in Hdial. destruct (dial _ target) as [p1' rd] eqn:Ed. injection Hdial as -> Hd%map_err_Ok.
  exists bind, (sd_clock d), c, kp, c1, transport, probe, target, p1, id.
  unfold now, in_host, zoom, state in Hnow. destruct (instant_now (sd_clock p1)) as [start' c2] eqn:Ei.
  injection Hnow as <- <-. unfold run_until_do in Hf. destruct (run_until_with _ _ _ _) as [[p4 r4]|] eqn:Er; [|done].
  injection Hf as -> Hf%map_err_Ok. injection Ep as _ Hs%bool_decide_eq_true. destruct Hs as [ev ->]. subst r4.
  apply run_until_handed in Er as (Hw & evs & Hh). destruct ev; try done. apply bool_decide_eq_true in Hw as ->.
  exists evs, p3. subst. done.
Qed.

Lemma push_unique_spec addrs (addr : Multiaddr P) :
  (NoDup addrs → NoDup (push_unique addrs addr)) ∧ ∀ a, a ∈ push_unique addrs addr ↔ a ∈ addrs ∨ a = addr.
Proof.
  unfold push_unique. destruct (existsb _ addrs) eqn:E.
  - split; [done|]. intros a. split; [by left|]. intros [?| ->]; [done|].
    apply existsb_exists in E as (b & Hb%list_elem_of_In & Hab). apply bool_decide_eq_true in Hab as <-. done.
  - split.
    + intros Hn. apply NoDup_app. split_and!; [done| |apply NoDup_singleton]. intros x Hx ->%list_elem_of_singleton.
      apply not_true_iff_false in E. apply E, existsb_exists. exists addr. split; [by apply list_elem_of_In|].
      by apply bool_decide_eq_true.
    + intros a. rewrite elem_of_app, list_elem_of_singleton. done.
Qed.

Lemma dialback_all_spec role peer addrs dialable (d d' : Swarm P T C) l :
  dialback_all fuel role peer addrs dialable d = (d', Ok l) → NoDup dialable →
  NoDup l ∧ (∀ a, a ∈ l → a ∈ dialable ∨ a ∈ addrs ∧ probed peer a) ∧ dialable ⊆ l.
Proof.
  revert dialable d. induction addrs as [|addr addrs IH]; intros dialable d; cbn [dialback_all].
  { intros [= _ <-] Hn. split_and!; [done|by left|done]. }
  intros (d1 & r & Hr & E)%script_bind_ok Hn. apply script_bind_ok in E as (d2 & dialable' & Hd & E).
  assert (NoDup dialable' ∧ (∀ a, a ∈ dialable' → a ∈ dialable ∨ a = addr ∧ probed peer addr) ∧ dialable ⊆ dialable')
    as (Hn' & Hin & Hsub).
  { destruct r as [e|[]]; apply script_bind_ok in Hd as (d3 & _ & _ & [= _ <-]); [by split_and!; auto| |by split_and!; auto].
    destruct (push_unique_spec dialable addr) as [Hu Hiff]. split_and!; [by apply Hu| |].
    - intros a [?| ->]%Hiff; [by left|right]. split; [done|].
      apply catch_ok in Hr as [Ec|(? & ? & [=])].
      apply script_bind_ok in Ec as (d5 & ok & Hok & [= _ ->]). apply merge_true in Hok as (m & da & db & Hm & Ht).
      apply list_elem_of_fmap in Hm as (bind & -> & Hb). by eapply candidate_probed.
    - intros a Ha. apply Hiff. by left. }
  apply IH in E as (H1 & H2 & H3); [|done]. split_and!; [done| |by etrans].
  intros a [Ha|[Ha Hp]]%H2; [|right; split; [by right|done]].
  apply Hin in Ha as [?|[-> ?]]; [by left|right; split; [by left|done]].
Qed.


End safety.

(** ** A concrete node *)

#[local] Abbreviation Pid := (PeerId PlainMultihash).

#[export] Instance DemoHost_time : Time DemoHost := {
  now_ms c := (dh_now c, c); instant_now c := (dh_now c, c); sleep c := dh_wait 1 c;
}.
#[export] Instance demo_str_debug : StrDebug := λ s, s.
Definition demo_oneconn : OneConn := {| oc_polled := false; oc_next := 0; oc_sent := [] |}.
#[export] Instance demo_node : PeerNode OneConn Pid DemoHost := {
  node_bind_multiaddr kp a c := (c, Ok demo_oneconn);
  node_dual_stack kp c := (c, Ok demo_oneconn);
  node_bind kp b c := (c, Ok demo_oneconn);
  node_build kp agent t c := Ok (with_clock t demo_config PingConfig_default demo_pid c);
  node_dial_all t a := (t, Ok [1]);
  node_send_raw_udp t a payload := (t, Ok ());
  node_inbound_sources t := (t, []);
}.
#[export] Instance demo_node_laws : PeerNodeLaws OneConn Pid DemoHost.
Proof. split; try done. intros. eexists. split; [done|]. apply with_clock_ok. Qed.

Definition demo_target : PeerAddr Pid := {| pa_transport := demo_addr; pa_peer_id := demo_pid |}.

Lemma demo_randomness (c : DemoHost) : (generate_secret c).2 ≠ None.
Proof. done. Qed.


(** The waiting helpers look at the stream id only, which is not unique across
    connections, and an error about stream 12 is taken for one about stream 1. *)
Example loose_matches (p q : Pid) data kind conn :
  is_stream_data 4 (UserStreamData p 4 data) = is_stream_data 4 (UserStreamData q 4 data) ∧
  is_bridge_closed_event (UserStreamClosed q 4) 4 = true ∧
  is_stream_ready 1 (SwarmErrorEvent {| err_kind := kind; err_peer_id := Some q; err_conn_id := conn;
    err_detail := "send_stream to connection 3 stream 12 failed"%string |}) = true.
Proof. split_and!; reflexivity. Qed.
