(* ===== verification/PeerReturns.v ===== *)
(** * The scripts of the example return

    On a host where sleeping takes time and a network that falls silent, every script
    comes to an end: with enough iterations allowed it never stops as [OutOfFuel], and
    its outcome is the same for every larger number. *)
From S2P Require Import Prelude NetAddr Effects Varint Multibase PeerId Keys Multiaddr PeerAddr MultiaddrText ErrorText.
From S2P Require Import IdentifyMessage Ping Identify SwarmEvents Transport SwarmCore SwarmInvariant SwarmConns Driver Silence.
From S2P Require Import RelayMessage DcutrMessage AutonatMessage Cli Relay Dcutr Autonat PeerRuntime PeerFlows PeerScript PeerRelay PeerSafety.
From Stdlib Require Import ZArith Lia Strings.Byte Strings.String.
From stdpp Require Import base numbers list gmap strings.

#[local] Open Scope Z_scope.

Create HintDb settles discriminated.

(** Using the host does not turn the clock back. *)
Class HostTime (C : Type) `{Host C} `{TimeLaws C} : Prop := {
  stdout_elapsed s (c : C) : elapsed c <= elapsed (stdout s c);
  stderr_elapsed s (c : C) : elapsed c <= elapsed (stderr s c);
  random_elapsed n (c : C) : elapsed c <= elapsed (fill_random n c).1;
  sleep_for_elapsed ms (c : C) : elapsed c + ms <= elapsed (sleep_for ms c);
}.

Section returns.
Context {P : Type} `{SP : !SwarmPeers P} `{PT : !PeerIdText P} `{BP : !BuildProfile} `{SD : !StrDebug}.
Context {T : Type} `{TR : !Transport T P} `{TC : !TransportContract T P} `{SL : !Silence T P}.
Context {C : Type} `{TM : !Time C} `{TL : !TimeLaws C} `{HC : !Host C} `{HT : !HostTime C}.
Context `{PN : !PeerNode T P C} `{NL : !PeerNodeLaws T P C}.
Context {VK : Type} `{EA : !Ed25519Api VK}.
Context (utf8_error_text : list byte → string) (overflow_checks : bool).

#[local] Abbreviation script := (script (P:=P) (T:=T) (C:=C)).
#[local] Abbreviation Event := (SwarmEvent (P:=P)).
#[local] Abbreviation Node := (Swarm P T C).

(** ** Scripts and how many iterations their loops may take

    A family is a script for every bound on the loop it is in the middle of and every
    bound on the loops it has yet to enter. *)
Definition family (A : Type) : Type := nat → nat → script A.

(** From [d] on, the family has one outcome for all large bounds: it answers as [Φ]
    says, fails as [E] says, or unwinds. *)
Definition ends {A} (m : family A) (d : Node) (Φ : Node → A → Prop) (E : Node → Prop) : Prop :=
  ∃ N d' r, (∀ n f, (N <= n)%nat → (N <= f)%nat → m n f d = (d', r)) ∧
    match r with Ok a => Φ d' a | Err (Failed _) => E d' | Err OutOfFuel => False | Panic => True end.

Lemma ends_mono {A} (m : family A) d (Φ Φ' : Node → A → Prop) (E E' : Node → Prop) :
  ends m d Φ E → (∀ d' a, Φ d' a → Φ' d' a) → (∀ d', E d' → E' d') → ends m d Φ' E'.
Proof.
  intros (N & d' & r & Hm & Hr) HΦ HE. exists N, d', r. split; [done|]. destruct r as [a|[e|]|]; auto.
Qed.

Lemma ends_const {A} (m : script A) d (Φ : Node → A → Prop) (E : Node → Prop) :
  (match m d with
   | (d', Ok a) => Φ d' a | (d', Err (Failed _)) => E d' | (_, Err OutOfFuel) => False | (_, Panic) => True
   end) → ends (λ _ _, m) d Φ E.
Proof. intros H. destruct (m d) as [d' r] eqn:Em. exists 0%nat, d', r. done. Qed.

Lemma ends_bind {A B} (m : family A) (k : A → family B) d Φ E :
  ends m d (λ d' a, ends (k a) d' Φ E) E → ends (λ n f, m n f ≫= λ a, k a n f) d Φ E.
Proof.
  intros (N & d' & r & Hm & Hr). destruct r as [a|[e|]|]; [|exists N, d', (Err (Failed e))|done|exists N, d', Panic].
  - destruct Hr as (N' & d'' & r & Hk & Hr). exists (Nat.max N N'), d'', r. split; [|done]. intros n f Hn Hf.
    unfold mbind, eff_bind. rewrite Hm by lia. apply Hk; lia.
  - split; [|done]. intros n f Hn Hf. unfold mbind, eff_bind. by rewrite Hm.
  - split; [|done]. intros n f Hn Hf. unfold mbind, eff_bind. by rewrite Hm.
Qed.

Lemma ends_catch {A} (m : family A) (handler : string → family A) d Φ E :
  ends m d Φ (λ d', ∀ e, ends (handler e) d' Φ E) → ends (λ n f, catch (m n f) (λ e, handler e n f)) d Φ E.
Proof.
  intros (N & d' & r & Hm & Hr). destruct r as [a|[e|]|]; [exists N, d', (Ok a)| |done|exists N, d', Panic].
  - split; [|done]. intros n f Hn Hf. unfold catch. by rewrite Hm.
  - destruct (Hr e) as (N' & d'' & r & Hk & Hr'). exists (Nat.max N N'), d'', r. split; [|done]. intros n f Hn Hf.
    unfold catch. rewrite Hm by lia. apply Hk; lia.
  - split; [|done]. intros n f Hn Hf. unfold catch. by rewrite Hm.
Qed.

(** One more iteration; entering a loop with the bound of the loops to come. *)
Lemma ends_S {A} (m : family A) d Φ E : ends (λ n f, m (S n) f) d Φ E → ends m d Φ E.
Proof.
  intros (N & d' & r & Hm & Hr). exists (S N), d', r. split; [|done]. intros [|n] f Hn Hf; [lia|]. apply Hm; lia.
Qed.
Lemma ends_enter {A} (m : family A) d Φ E : ends m d Φ E → ends (λ n f, m f f) d Φ E.
Proof. intros (N & d' & r & Hm & Hr). exists N, d', r. split; [|done]. intros n f Hn Hf. by apply Hm. Qed.

(** ** Scripts that return, and what they do to the node *)

(** There is no more noise than before. *)
Definition calm (w : Event → bool) : relation Node := λ d d', upto (noise w d') (noise w d).
#[export] Instance calm_preorder w : PreOrder (calm w).
Proof. split; unfold calm; [intros d; reflexivity|intros d d' d'' H1 H2; by etrans]. Qed.

(** What is said of the node before and after holds when there is no more noise at all,
    as after using the host or waiting. *)
Class Steady (R : relation Node) : Prop := {
  steady_preorder :: PreOrder R;
  steady_calm d d' : (∀ w, calm w d d') → R d d';
}.
#[export] Instance anyhow_steady : Steady (anyhow (P:=P)).
Proof. by split. Qed.
#[export] Instance calm_steady w : Steady (calm w).
Proof. split; [apply _|auto]. Qed.

Definition settles (R : relation Node) {A} (m : family A) : Prop :=
  ∀ d, driver_ok d → ends m d (λ d' _, driver_ok d' ∧ R d d') (λ d', driver_ok d' ∧ R d d').

Section rules.
Context (R : relation Node) `{HR : !PreOrder R}.

Lemma settles_bind_post {A B} (m : family A) (k : A → family B) (Q : A → Prop) :
  (∀ d, driver_ok d → ends m d (λ d' a, driver_ok d' ∧ R d d' ∧ Q a) (λ d', driver_ok d' ∧ R d d')) →
  (∀ a, Q a → settles R (k a)) → settles R (λ n f, m n f ≫= λ a, k a n f).
Proof.
  intros Hm Hk d Hd. apply ends_bind. eapply ends_mono; [by apply Hm| |done]. intros d' a (Hd' & Hdd & Ha).
  eapply ends_mono; [by apply (Hk a)| |]; cbn; intros d''.
  - intros _ [? ?]. split; [done|by etrans].
  - intros [? ?]. split; [done|by etrans].
Qed.
Lemma settles_bind {A B} (m : family A) (k : A → family B) :
  settles R m → (∀ a, settles R (k a)) → settles R (λ n f, m n f ≫= λ a, k a n f).
Proof.
  intros Hm Hk. apply (settles_bind_post _ _ (λ _, True)); [|auto]. intros d Hd.
  eapply ends_mono; [by apply Hm| |done]. cbn. tauto.
Qed.
Lemma settles_enter {A} (m : family A) : settles R m → settles R (λ n f, m f f).
Proof. intros Hm d Hd. by apply ends_enter, Hm. Qed.

Lemma settles_ret {A} (a : A) : settles R (λ _ _, mret a).
Proof. intros d Hd. by apply ends_const. Qed.
Lemma settles_fail {A} msg : settles R (λ _ _, fail (A:=A) msg).
Proof. intros d Hd. by apply ends_const. Qed.
Lemma settles_gets {A} (g : Node → A) : settles R (λ _ _, gets g).
Proof. intros d Hd. by apply ends_const. Qed.
Lemma settles_lift {A} (r : res PeerError A) : r ≠ Err OutOfFuel → settles R (λ _ _, lift r).
Proof. intros Hr d Hd. apply ends_const. unfold lift. by destruct r as [|[]|]. Qed.
Lemma settles_try_flow {A} (r : res string A) : settles R (λ _ _, try_flow r).
Proof. apply settles_lift. by destruct r. Qed.
Lemma settles_ok_or_fail {A} (o : option A) msg : settles R (λ _ _, ok_or_fail o msg).
Proof. destruct o; [apply settles_ret|apply settles_fail]. Qed.

Lemma settles_for_each {A} (l : list A) (body : A → script unit) :
  (∀ x, settles R (λ _ _, body x)) → settles R (λ _ _, for_each l body).
Proof.
  intros Hb. induction l as [|x l IH]; cbn [for_each]; [apply settles_ret|].
  apply (settles_bind (λ _ _, body x) (λ _ _ _, for_each l body)); [apply Hb|done].
Qed.

Lemma settles_on_driver {A} what (g : Node → Node * res TransportError A) :
  (∀ d, driver_ok d → driver_ok (g d).1 ∧ R d (g d).1) → settles R (λ _ _, on_driver what g).
Proof.
  intros Hg d Hd. apply ends_const. unfold on_driver. specialize (Hg d Hd). by destruct (g d) as [d' []].
Qed.
Lemma settles_attempt {A} (g : Node → Node * res TransportError A) :
  (∀ d, driver_ok d → driver_ok (g d).1 ∧ R d (g d).1) → settles R (λ _ _, attempt g).
Proof.
  intros Hg d Hd. apply ends_const. unfold attempt. specialize (Hg d Hd). by destruct (g d) as [d' []].
Qed.
Lemma settles_catch {A} (m : family A) (handler : string → family A) :
  settles R m → (∀ e, settles R (handler e)) → settles R (λ n f, catch (m n f) (λ e, handler e n f)).
Proof.
  intros Hm Hh d Hd. apply ends_catch. eapply ends_mono; [by apply Hm|done|]. cbn. intros d' [Hd' Hdd] e.
  eapply ends_mono; [by apply Hh| |]; cbn; intros d''.
  - intros _ [? ?]. split; [done|by etrans].
  - intros [? ?]. split; [done|by etrans].
Qed.
End rules.

Section host.
Context (R : relation Node) `{HR : !Steady R}.

Lemma settles_in_host {A} (m : eff C PeerError A) : (∀ c, (m c).2 ≠ Err OutOfFuel) → settles R (λ _ _, in_host m).
Proof.
  intros Hm d Hd. apply ends_const. unfold in_host, zoom. specialize (Hm (sd_clock d)).
  assert (∀ c, driver_ok (set_clock d c) ∧ R d (set_clock d c)) as H by (intros c; split; [by apply driver_ok_host|apply steady_calm; intros w; unfold calm; reflexivity]).
  destruct (m (sd_clock d)) as [c [a|[e|]|]]; done || exact (H c).
Qed.
Lemma settles_host_state {A} (g : C → C * A) : settles R (λ _ _, in_host (state g)).
Proof. apply settles_in_host. intros c. unfold state. by destruct (g c). Qed.
Lemma settles_host_modify (g : C → C) : settles R (λ _ _, in_host (modify g)).
Proof. by apply settles_in_host. Qed.
Lemma settles_say role s : settles R (λ _ _, say role s).
Proof. by apply settles_in_host. Qed.
Lemma settles_complain role s : settles R (λ _ _, complain role s).
Proof. by apply settles_in_host. Qed.
Lemma settles_now : settles R (λ _ _, now).
Proof. apply settles_in_host. intros c. unfold state. by destruct (instant_now c). Qed.
End host.

Lemma settles_anyhow R {A} (m : family A) : settles R m → settles anyhow m.
Proof. intros Hm d Hd. eapply ends_mono; [by apply Hm| |]; cbn; intros; split; done || tauto. Qed.

(** ** Waiting *)

(** The answer of a wait. *)
Definition heard (d : Node) (wanted : Event → Prop) (d' : Node) (o : option Event) : Prop :=
  driver_ok d' ∧ (∀ w, calm w d d') ∧
  ∀ ev, o = Some ev → wanted ev ∧ ∀ w, w ev = true → below (noise w d') (noise w d).

Lemma run_until_ends deadline (predicate : Event → C → C * bool) what d :
  driver_ok d →
  ends (λ _ f, run_until_do f deadline predicate what) d
    (heard d (λ ev, ∃ c, (predicate ev c).2 = true)) (λ d', driver_ok d' ∧ ∀ w, calm w d d').
Proof.
  intros Hd. assert (∃ N d' r, (∀ f, (N <= f)%nat → run_until_with f d deadline predicate = Some (d', r)) ∧
    r ≠ Panic ∧ driver_ok d' ∧ (∀ w, calm w d d') ∧ ∀ ev, r = Ok (Some ev) →
      (∃ c, (predicate ev c).2 = true) ∧ ∀ w, w ev = true → below (noise w d') (noise w d)) as H; cycle 1.
  { destruct H as (N & d' & r & E & Hp & Hd' & Hc & Hev).
    exists N, d', (map_err (λ e, Failed (what ++ ": " ++ to_string e)%string) r). split.
    - intros n f _ Hf. unfold run_until_do. by rewrite E.
    - destruct r as [o|e|]; [|done..]. split_and!; [done..|]. intros ev ->. by apply Hev. }
  revert d Hd. apply (wait_ind _ deadline). intros d Hd (d1 & r1 & n1 & E1 & Hd1 & Ha & Hn & Hev).
  destruct r1 as [[ev|]|e|]; [| | |by apply next_answer_cases in Ha].
  - destruct (predicate ev (sd_clock d1)) as [c stop] eqn:Ep. destruct stop.
    + exists (S n1), (set_clock d1 c), (Ok (Some ev)). split_and!; [|done|by apply driver_ok_host|intros w; apply Hn|].
      * intros [|f] Hf; [lia|]. cbn [run_until_with]. rewrite E1 by lia. by rewrite Ep.
      * intros ? [= <-]. split; [eexists; by rewrite Ep|]. intros w Hw. destruct (Hn w) as [_ Hlt]. exact (Hlt ev eq_refl Hw).
    + destruct (Hev ev eq_refl c) as (N & d' & r & E & Hp & Hd' & Hc & Hev').
      exists (S (N + n1)), d', r. split_and!; [|done|done| |].
      * intros [|f] Hf; [lia|]. cbn [run_until_with]. rewrite E1 by lia. rewrite Ep. apply E. lia.
      * intros w. destruct (Hn w) as [Hu _]. transitivity (set_clock d1 c); [exact Hu|exact (Hc w)].
      * intros ev' Hr. destruct (Hev' ev' Hr) as [? Hb]. split; [done|]. intros w Hw.
        specialize (Hb w Hw). destruct (Hn w) as [Hu _]. unfold below, upto in *.
        change (noise w (set_clock d1 c)) with (noise w d1) in Hb. lia.
  - exists (S n1), d1, (Ok None). split_and!; try done; [|intros w; apply Hn].
    intros [|f] Hf; [lia|]. cbn [run_until_with]. by rewrite E1 by lia.
  - exists (S n1), d1, (Err e). split_and!; try done; [|intros w; apply Hn].
    intros [|f] Hf; [lia|]. cbn [run_until_with]. by rewrite E1 by lia.
Qed.

Lemma wait_for_ends role deadline (wanted : Event → bool) what d :
  driver_ok d →
  ends (λ _ f, wait_for utf8_error_text f role deadline wanted what) d
    (heard d (λ ev, wanted ev = true)) (λ d', driver_ok d' ∧ ∀ w, calm w d d').
Proof.
  intros Hd. eapply ends_mono; [by apply run_until_ends| |done]. cbn. intros d' o (Hd' & Hc & Ho).
  split_and!; [done..|]. intros ev Hev. destruct (Ho ev Hev) as [[_ ?] ?]. done.
Qed.

Section waits.
Context (R : relation Node) `{HR : !Steady R}.

Lemma settles_run_until deadline predicate what : settles R (λ _ f, run_until_do f deadline predicate what).
Proof.
  intros d Hd. eapply ends_mono; [by apply run_until_ends| |]; cbn; intros d'.
  - intros o (? & ? & _). split; [done|by apply steady_calm].
  - intros [? ?]. split; [done|by apply steady_calm].
Qed.
Lemma settles_wait_for role deadline wanted what : settles R (λ _ f, wait_for utf8_error_text f role deadline wanted what).
Proof. apply settles_run_until. Qed.

(** The rest of the script may use that the event was wanted. *)
Lemma settles_wait_then {B} role deadline (wanted : Event → bool) what (k : option Event → family B) :
  (∀ o, (∀ ev, o = Some ev → wanted ev = true) → settles R (k o)) →
  settles R (λ n f, wait_for utf8_error_text f role deadline wanted what ≫= λ o, k o n f).
Proof.
  apply settles_bind_post; [apply _|]. intros d Hd.
  eapply ends_mono; [by apply wait_for_ends| |]; cbn; intros d'.
  - intros o (? & ? & Ho). split_and!; [done|by apply steady_calm|]. intros ev Hev. by destruct (Ho ev Hev).
  - intros [? ?]. split; [done|by apply steady_calm].
Qed.
End waits.


#[local] Hint Resolve settles_ret settles_fail settles_gets settles_try_flow settles_ok_or_fail settles_host_state
  settles_host_modify settles_say settles_complain settles_now settles_wait_for settles_run_until : settles.
#[local] Hint Extern 0 (Steady _) => apply _ : settles.
#[local] Hint Extern 0 (PreOrder _) => apply _ : settles.

(** Follows the structure of a script. *)
Ltac settle :=
  cbv beta zeta;
  lazymatch goal with
  | |- settles _ (fun n f => @mbind _ _ _ _ (@?k n f) (@?m n f)) =>
      let k' := constr:(fun a n f => k n f a) in
      apply (settles_bind _ m k'); [settle|intros ?; settle]
  | |- settles ?R ?m =>
      let b := eval cbv beta in (m O O) in
      lazymatch b with
      | match ?x with _ => _ end => destruct x; settle
      | _ => try solve [eauto with settles]
      end
  | |- _ => idtac
  end.

(** Calls of the driver, of which only safety is known. *)
Lemma settles_safe {A} (m : script A) : safe m → (∀ d, (m d).2 ≠ Err OutOfFuel) → settles anyhow (λ _ _, m).
Proof.
  rewrite safe_iff. intros Hs Hm d Hd. apply ends_const. destruct (Hs d Hd) as [Hd' _]. specialize (Hm d).
  by destruct (m d) as [d' [|[]|]].
Qed.
Lemma on_driver_answers {A} what (g : Node → Node * res TransportError A) d : (on_driver what g d).2 ≠ Err OutOfFuel.
Proof. unfold on_driver. by destruct (g d) as [? []]. Qed.
Lemma attempt_answers {A} (g : Node → Node * res TransportError A) d : (attempt g d).2 ≠ Err OutOfFuel.
Proof. unfold attempt. by destruct (g d) as [? []]. Qed.
Lemma settles_driver {A} what (g : Node → Node * res TransportError A) :
  safe (on_driver what g) → settles anyhow (λ _ _, on_driver what g).
Proof. intros. apply settles_safe; [done|]. apply on_driver_answers. Qed.
Lemma settles_attempted {A} (g : Node → Node * res TransportError A) :
  safe (attempt g) → settles anyhow (λ _ _, attempt g).
Proof. intros. apply settles_safe; [done|]. apply attempt_answers. Qed.

Lemma settles_listen what : settles anyhow (λ _ _, on_driver what Driver.listen_on_bound_addrs).
Proof. apply settles_driver, safe_listen_all. Qed.
Lemma settles_open what peer proto : settles anyhow (λ _ _, PeerRelay.open_user_stream what peer proto).
Proof. apply settles_driver, safe_open. Qed.
Lemma settles_dial what addr : settles anyhow (λ _ _, on_driver what (dial_peer addr)).
Proof. apply settles_driver, safe_dial. Qed.
Lemma settles_attempt_dial addr : settles anyhow (λ _ _, attempt (dial_peer addr)).
Proof. apply settles_attempted, safe_attempt_dial. Qed.
Lemma settles_disconnect peer : settles anyhow (λ _ _, attempt (λ d, driver_disconnect d peer)).
Proof. apply settles_attempted, safe_disconnect. Qed.
Lemma settles_close_write peer stream : settles anyhow (λ _ _, attempt (λ d, driver_close_user_stream_write d peer stream)).
Proof. apply settles_attempted, safe_close_write. Qed.
Lemma settles_do_ping peer what : settles anyhow (λ _ _, do_ping peer what).
Proof.
  apply settles_safe; [apply safe_do_ping|]. intros d. unfold do_ping, mbind, eff_bind, in_host, zoom, state.
  destruct (fill_random _ _) as [c [l|]]; cbn; [apply on_driver_answers|].
  unfold zoom. destruct (unix_time _) as [c' o]. apply on_driver_answers.
Qed.
#[local] Hint Resolve settles_listen settles_open settles_dial settles_attempt_dial settles_disconnect settles_close_write
  settles_do_ping : settles.

(** Nothing is wanted, so the loop runs once. *)
Lemma settles_print_forever role deadline :
  settles anyhow (λ n f, print_forever utf8_error_text f n role deadline).
Proof.
  intros d Hd. apply ends_S. cbn [print_forever]. revert d Hd. apply settles_wait_then; [apply _|].
  intros [ev|] Ho; [|settle]. by specialize (Ho ev eq_refl).
Qed.

Lemma settles_direct_listen : settles anyhow (λ _ f, direct_listen utf8_error_text f).
Proof.
  unfold direct_listen, first_or_fail. settle.
  - apply settles_for_each; [apply _|]. intros. settle.
  - apply (settles_enter _ (λ n f, print_forever utf8_error_text f n _ _)), settles_print_forever.
Qed.


Lemma settles_direct_dial target : settles anyhow (λ _ f, direct_dial utf8_error_text f target).
Proof.
  unfold direct_dial. settle. apply settles_driver, safe_on_driver. intros d Hd.
  destruct (dial_all_keeps (C:=C) (sd_transport d) target) as [Hp Hk].
  pose proof (driver_ok_transport d _ Hd (conj Hp Hk)) as Hd'.
  by destruct (node_dial_all (sd_transport d) target) as [t r].
Qed.

(** ** Loops that wait for an event in every round *)

(** From where there is less noise than at [d0], the script returns and makes none. *)
Definition falls (w : Event → bool) (d0 : Node) {A} (m : family A) : Prop :=
  ∀ d, driver_ok d → below (noise w d) (noise w d0) →
    ends m d (λ d' _, driver_ok d' ∧ calm w d d') (λ d', driver_ok d' ∧ calm w d d').

Lemma falls_settles w d0 {A} (m : family A) : settles (calm w) m → falls w d0 m.
Proof. intros Hm d Hd _. by apply Hm. Qed.
Lemma falls_bind w d0 {A B} (m : family A) (k : A → family B) :
  settles (calm w) m → (∀ a, falls w d0 (k a)) → falls w d0 (λ n f, m n f ≫= λ a, k a n f).
Proof.
  intros Hm Hk d Hd Hb. apply ends_bind. eapply ends_mono; [by apply Hm| |done]. cbn. intros d' a [Hd' Hc].
  eapply ends_mono; [apply (Hk a); [done|by eapply upto_below]| |]; cbn; intros d''.
  - intros _ [? ?]. split; [done|by etrans].
  - intros [? ?]. split; [done|by etrans].
Qed.

(** A round may assume that the next ones, after less noise, return. *)
Lemma settles_loop w {X A} (loop : X → family A) :
  (∀ x d, driver_ok d → (∀ x', falls w d (loop x')) →
     ends (λ n f, loop x (S n) f) d (λ d' _, driver_ok d' ∧ calm w d d') (λ d', driver_ok d' ∧ calm w d d')) →
  ∀ x, settles (calm w) (loop x).
Proof.
  intros Hstep x d Hd. remember (noise w d) as y eqn:Ey. revert x d Ey Hd.
  induction y as [y IH] using (well_founded_induction below_wf). intros x d -> Hd.
  apply (ends_S (loop x)), Hstep; [done|]. intros x' d' Hd' Hb. by eapply IH.
Qed.

(** Waiting for an event that counts, then the rest of the round. *)
Lemma wait_then_falls w {A B} (m : family A) (k : A → family B) d :
  ends m d (λ d' _, driver_ok d' ∧ below (noise w d') (noise w d)) (λ d', driver_ok d' ∧ calm w d d') →
  (∀ a, falls w d (k a)) →
  ends (λ n f, m n f ≫= λ a, k a n f) d (λ d' _, driver_ok d' ∧ calm w d d') (λ d', driver_ok d' ∧ calm w d d').
Proof.
  intros Hm Hk. apply ends_bind. eapply ends_mono; [exact Hm| |done]. cbn. intros d' a [Hd' Hb].
  eapply ends_mono; [by apply (Hk a)| |]; cbn; intros d''; intros;
    (split; [tauto|]); (transitivity d'; [by apply below_upto|tauto]).
Qed.


Lemma settles_panic R {A} : settles R (λ _ _, panic (A:=A)).
Proof. intros d Hd. by apply ends_const. Qed.
#[local] Hint Resolve settles_panic : settles.

(** The rules for a sequence of two scripts, at the sequence of the goal. *)
Ltac bind_ends :=
  lazymatch goal with
  | |- ends (fun n f => @mbind _ _ _ _ (@?k n f) (@?m n f)) _ _ _ => apply (ends_bind m (fun a n f => k n f a))
  end; cbv beta.
Ltac bind_wait :=
  lazymatch goal with
  | |- ends (fun n f => @mbind _ _ _ _ (@?k n f) (@?m n f)) _ _ _ => apply (wait_then_falls _ m (fun a n f => k n f a))
  end; cbv beta; [|intros ?].
Ltac bind_falls :=
  cbv beta zeta;
  lazymatch goal with
  | |- falls _ _ (fun n f => @mbind _ _ _ _ (@?k n f) (@?m n f)) => apply (falls_bind _ _ m (fun a n f => k n f a))
  end; cbv beta; [settle|intros ?].

(** The events the loops wait for. *)
Definition traffic (ev : Event) : bool :=
  match ev with UserStreamReady _ _ _ _ | UserStreamData _ _ _ => true | _ => false end.
#[local] Abbreviation quiet := (calm traffic).

Lemma wait_data_ends role stream deadline d :
  driver_ok d →
  ends (λ _ f, wait_user_stream_data utf8_error_text f role stream deadline) d
    (λ d' _, driver_ok d' ∧ below (noise traffic d') (noise traffic d)) (λ d', driver_ok d' ∧ quiet d d').
Proof.
  intros Hd. unfold wait_user_stream_data. bind_ends.
  eapply ends_mono; [by apply wait_for_ends| |]; cbn; [|by intros d' [? ?]].
  intros d' o (Hd' & Hc & Ho). apply ends_const. destruct o as [ev|]; [|by split].
  destruct (Ho ev eq_refl) as [Hw Hb]. destruct ev; try done. split; [done|by apply Hb].
Qed.
Lemma settles_wait_data role stream deadline :
  settles quiet (λ _ f, wait_user_stream_data utf8_error_text f role stream deadline).
Proof.
  intros d Hd. eapply ends_mono; [by apply wait_data_ends| |done]. cbn. intros d' _ [? ?]. split; [done|by apply below_upto].
Qed.

Lemma settles_read_until {M A} role stream deadline (feed : M → list byte → M * res string (option A)) flow :
  settles quiet (λ n f, read_until n (wait_user_stream_data utf8_error_text f role stream deadline) feed flow).
Proof.
  revert flow. apply settles_loop. intros flow d Hd IH. cbn [read_until].
  bind_wait; [by apply wait_data_ends|]. destruct (feed flow a) as [flow' r]. bind_falls.
  destruct a0; [apply falls_settles; settle|apply IH].
Qed.

Lemma settles_reading {M A} role stream deadline (feed : M → list byte → M * res string (option A)) flow :
  settles quiet (λ _ f, read_until f (wait_user_stream_data utf8_error_text f role stream deadline) feed flow).
Proof. apply (settles_enter _ (λ n f, read_until n (wait_user_stream_data utf8_error_text f role stream deadline) feed flow)), settles_read_until. Qed.
Lemma settles_read {M A} role stream deadline (feed : M → list byte → M * res string (option A)) flow :
  settles anyhow (λ _ f, read_until f (wait_user_stream_data utf8_error_text f role stream deadline) feed flow).
Proof. eapply settles_anyhow, settles_reading. Qed.


(** Sending can only add errors to the events. *)
Lemma weight_errors (events errs : list Event) : Forall is_error errs → weight traffic (events ++ errs) = weight traffic events.
Proof.
  intros He. unfold weight. rewrite filter_app. assert (filter traffic errs = []) as ->; [|by rewrite app_nil_r].
  induction He as [|e errs [err ->] _ IH]; [done|]. by rewrite filter_cons.
Qed.
Lemma user_action_quiet (d : Node) p st a :
  driver_ok d → quiet d (call_and_flush d (user_stream_action (sd_core d) p st a)).1.
Proof.
  intros [_ [Ha He]]. unfold call_and_flush, user_stream_action. destruct (require_user_stream_conn _ _ _) as [c|e|]; cbn [fst snd].
  2-3: unfold calm, upto; cbn -[budget owed weight]; lia.
  set (d1 := set_core d _). destruct (flush_driver_spec d1) as (d' & cap & sent & errs & _ & -> & Hb & Hfl).
  cbn [fst]. assert (owed (sd_core d') = owed (sd_core d)) as Ho by (apply owed_machines; apply Hfl).
  assert (budget (sd_transport d') <= budget (sd_transport d))%nat as Hle by (rewrite (fl_transport _ _ _ _ _ Hfl); apply budget_executes).
  cbn in Hb. rewrite He in Hb. assert (weight traffic (sd_event_buffer d') = weight traffic (sd_event_buffer d)) as Hw
    by (rewrite Hb; apply weight_errors, Hfl).
  unfold calm, upto, noise. cbn [fst snd]. rewrite Ho, Hw. lia.
Qed.
Lemma settles_send peer stream data : settles quiet (λ _ _, send peer stream data).
Proof.
  unfold send. destruct data as [|b data]; [settle|]. apply settles_on_driver. intros d Hd. unfold driver_send_user_stream, send_user_stream.
  split; [by apply user_stream_call_ok|by apply user_action_quiet].
Qed.
Lemma settles_sent peer stream data : settles anyhow (λ _ _, send peer stream data).
Proof. eapply settles_anyhow, settles_send. Qed.
#[local] Hint Resolve settles_send settles_sent settles_read settles_reading : settles.
#[local] Hint Extern 1 (settles _ (λ _ _, for_each _ _)) => apply settles_for_each; [apply _|intros ?; settle] : settles.

Lemma settles_wait_connected role peer deadline : settles anyhow (λ _ f, wait_connected utf8_error_text f role peer deadline).
Proof. unfold wait_connected. settle. Qed.
Lemma settles_wait_ready role stream deadline : settles anyhow (λ _ f, wait_user_stream_ready utf8_error_text f role stream deadline).
Proof. unfold wait_user_stream_ready. settle. Qed.
Lemma settles_wait_inbound role peer proto deadline :
  settles anyhow (λ _ f, wait_inbound_stream utf8_error_text f role peer proto deadline).
Proof. unfold wait_inbound_stream. settle. Qed.
Lemma settles_wait_protocols role peer deadline :
  settles anyhow (λ _ f, wait_relay_protocols_after_dial utf8_error_text f role peer deadline).
Proof. unfold wait_relay_protocols_after_dial. settle. Qed.
Lemma settles_retry role peer : settles anyhow (λ _ f, retry_relay_connection utf8_error_text f role peer).
Proof. unfold retry_relay_connection. settle. Qed.
#[local] Hint Resolve settles_wait_connected settles_wait_ready settles_wait_inbound settles_wait_protocols settles_retry : settles.

Lemma settles_prepare role addr peer deadline : settles anyhow (λ _ f, prepare_relay utf8_error_text f role addr peer deadline).
Proof.
  unfold prepare_relay. generalize (@nil string). induction (seq 1 RELAY_READY_ATTEMPTS) as [|n l IH]; intros last; cbn [relay_attempts]; settle.
Qed.
Lemma settles_listening role : settles anyhow (λ _ _, PeerRelay.listen_on_bound_addrs role).
Proof. unfold PeerRelay.listen_on_bound_addrs. settle. Qed.
Lemma settles_validate role options cands deadline :
  settles anyhow (λ _ f, validate_candidates_with_autonat utf8_error_text f role options cands deadline).
Proof. unfold validate_candidates_with_autonat. settle. Qed.
Lemma settles_observed role options addrs peer :
  settles anyhow (λ _ f, observed_candidates utf8_error_text f role options addrs peer).
Proof.
  unfold observed_candidates, relay_observed_addr, candidate_addrs, print_candidates. settle. apply settles_validate.
Qed.
#[local] Hint Resolve settles_prepare settles_listening settles_observed : settles.


Definition any_event (_ : Event) : bool := true.

Lemma settles_print_until R `{!Steady R} role stream events : settles R (λ _ _, print_until_closed utf8_error_text role stream events).
Proof. induction events as [|ev events IH]; cbn [print_until_closed]; settle. Qed.

Lemma settles_drain_bridge role stream deadline :
  settles (calm any_event) (λ n f, drain_bridge utf8_error_text n role stream deadline).
Proof.
  apply (settles_loop _ (λ (_ : unit) n f, drain_bridge utf8_error_text n role stream deadline)); [|exact ()].
  intros _ d Hd IH. cbn [drain_bridge]. bind_ends. eapply ends_mono; [by apply (settles_now (calm any_event))| |done]. cbn. intros d1 t [Hd1 Hc1].
  assert (∀ d', driver_ok d' → calm any_event d1 d' → driver_ok d' ∧ calm any_event d d') as Hlater by (intros; split; [done|by etrans]).
  destruct (t <? deadline); [|apply ends_const; by apply Hlater]. bind_ends.
  apply ends_const. unfold on_driver. destruct (driver_poll_ok d1 Hd1) as (Hd2 & Hp & _). destruct (poll_noise any_event d1 Hd1) as [Hu Hb].
  destruct (poll d1) as [d2 [events|e|]]; cbn [fst snd] in *; [|by apply Hlater|done].
  destruct events as [|ev events]; [apply ends_const; by apply Hlater|].
  assert (below (noise any_event d2) (noise any_event d)) as Hbelow.
  { specialize (Hb _ ev eq_refl (list_elem_of_here _ _) eq_refl). unfold calm, below, upto in *. lia. }
  assert (falls any_event d (λ n f, closed ← print_until_closed utf8_error_text role stream (ev :: events);
    if closed : bool then mret () else drain_bridge utf8_error_text n role stream deadline)) as Hf.
  { bind_falls; [apply settles_print_until, _|]. destruct a; [apply falls_settles; settle|apply (IH ())]. }
  eapply ends_mono; [by apply Hf|..]; cbn; intros; apply Hlater; try tauto; etrans; [exact Hu|tauto|exact Hu|tauto].
Qed.
Lemma settles_close_bridge role peer stream :
  settles anyhow (λ _ f, close_relay_bridge_after_direct_success utf8_error_text f role peer stream).
Proof.
  unfold close_relay_bridge_after_direct_success. settle. eapply settles_anyhow.
  apply (settles_enter _ (λ n f, drain_bridge utf8_error_text n _ _ _)), settles_drain_bridge.
Qed.
#[local] Hint Resolve settles_close_bridge : settles.

Lemma settles_ping_and_exit role peer relay stream deadline :
  settles anyhow (λ _ f, ping_and_exit utf8_error_text f role peer relay stream deadline).
Proof. unfold ping_and_exit. settle. Qed.
Lemma settles_fallback role peer stream : settles anyhow (λ _ f, relay_ping_fallback utf8_error_text f role peer stream).
Proof. unfold relay_ping_fallback. settle. Qed.
Lemma settles_dial_candidates role peer addrs : settles anyhow (λ _ _, dial_direct_candidates role peer addrs).
Proof. unfold dial_direct_candidates. settle. Qed.
Lemma settles_random len : settles anyhow (λ _ _, random_bytes len).
Proof. unfold random_bytes. settle. Qed.
#[local] Hint Resolve settles_ping_and_exit settles_fallback settles_dial_candidates settles_random : settles.

(** ** The dialer behind a relay *)

Lemma settles_dcutr_dial role stream deadline sent_at dcutr pending :
  settles quiet (λ n f, dcutr_dial_loop utf8_error_text overflow_checks f n role stream deadline sent_at dcutr pending).
Proof.
  revert pending. assert (∀ dcutr, settles quiet (λ n f, dcutr_dial_loop utf8_error_text overflow_checks f n role stream deadline sent_at dcutr None)) as H.
  { apply settles_loop. intros flow d Hd IH. cbn [dcutr_dial_loop]. bind_wait; [by apply wait_data_ends|]. bind_falls.
    destruct (dcutr_initiator_feed _ _ _ _ _) as [flow' r]. bind_falls. destruct a1; [|apply IH].
    apply falls_settles. intros d1 Hd1. apply ends_S. revert d1 Hd1. change (settles quiet (λ _ _, mret (M:=eff Node PeerError) (flow', i))). settle. }
  intros [outcome|]; [|apply H]. intros d Hd. apply ends_S. revert d Hd.
  change (settles quiet (λ _ _, mret (M:=eff Node PeerError) (dcutr, outcome))). settle.
Qed.
Lemma settles_await_echo role target stream deadline sent_at payload :
  settles quiet (λ n f, await_echo utf8_error_text f n role target stream deadline sent_at payload).
Proof.
  apply (settles_loop _ (λ (_ : unit) n f, await_echo utf8_error_text f n role target stream deadline sent_at payload)); [|exact ()].
  intros _ d Hd IH. cbn [await_echo]. bind_wait; [by apply wait_data_ends|]. case_decide; [apply falls_settles; settle|apply (IH ())].
Qed.


Lemma settles_dialing role stream deadline sent_at dcutr pending :
  settles anyhow (λ _ f, dcutr_dial_loop utf8_error_text overflow_checks f f role stream deadline sent_at dcutr pending).
Proof.
  eapply settles_anyhow, (settles_enter _ (λ n f, dcutr_dial_loop utf8_error_text overflow_checks f n _ _ _ _ _ _)), settles_dcutr_dial.
Qed.
Lemma settles_echo role target stream deadline sent_at payload :
  settles anyhow (λ _ f, await_echo utf8_error_text f f role target stream deadline sent_at payload).
Proof. eapply settles_anyhow, (settles_enter _ (λ n f, await_echo utf8_error_text f n _ _ _ _ _ _)), settles_await_echo. Qed.
#[local] Hint Resolve settles_dialing settles_echo : settles.

Lemma settles_relay_dial relay target options :
  settles anyhow (λ _ f, relay_dial utf8_error_text overflow_checks f relay target options).
Proof. unfold relay_dial, print_remote_candidates. settle. Qed.

(** ** The hole punch ends by the clock *)

(** Time has not gone back. *)
Definition later : relation Node := λ d d', elapsed (sd_clock d) <= elapsed (sd_clock d').
#[export] Instance later_preorder : PreOrder later.
Proof. split; unfold later; [intros d|intros d d' d'']; lia. Qed.

Lemma later_in_host {A} (m : eff C PeerError A) :
  (∀ c, (m c).2 ≠ Err OutOfFuel) → (∀ c, elapsed c <= elapsed (m c).1) → settles later (λ _ _, in_host m).
Proof.
  intros Hm Ht d Hd. apply ends_const. unfold in_host, zoom. specialize (Hm (sd_clock d)). specialize (Ht (sd_clock d)).
  pose proof (λ c, driver_ok_host d c Hd) as Hok. destruct (m (sd_clock d)) as [c [a|[e|]|]]; done || (split; [apply Hok|exact Ht]).
Qed.
Lemma later_complain role s : settles later (λ _ _, complain role s).
Proof. apply later_in_host; [done|]. intros c. apply stderr_elapsed. Qed.
Lemma later_now : settles later (λ _ _, now).
Proof.
  apply later_in_host; intros c; unfold state; pose proof (instant_now_elapsed c); destruct (instant_now c); cbn in *; [done|lia].
Qed.
Lemma later_print role (ev : Event) : settles later (λ _ _, in_host (modify (print_event utf8_error_text role ev))).
Proof. apply later_in_host; [done|]. intros c. destruct ev; apply stdout_elapsed || apply stderr_elapsed. Qed.
Lemma later_random len : settles later (λ _ _, random_bytes len).
Proof.
  unfold random_bytes. settle. apply later_in_host; intros c; unfold state; pose proof (random_elapsed len c); by destruct (fill_random len c).
Qed.
Lemma later_poll what : settles later (λ _ _, on_driver what poll).
Proof.
  apply settles_on_driver. intros d Hd. destruct (driver_poll_ok d Hd) as (? & _ & Hc & _). split; [done|by apply clock_read_elapsed].
Qed.
Lemma later_sources : settles later (λ _ _, inbound_sources).
Proof.
  intros d Hd. apply ends_const. unfold inbound_sources, state. pose proof (sources_keep (C:=C) (sd_transport d)) as Hk.
  destruct (node_inbound_sources (sd_transport d)) as [t l]. split; [|unfold later; cbn; lia].
  by apply (driver_ok_transport d (t, Ok ())).
Qed.
#[local] Hint Resolve later_complain later_now later_print later_random later_poll later_sources : settles.

Lemma later_blast addrs role : settles later (λ _ _, blast_remote_addrs addrs role).
Proof.
  unfold blast_remote_addrs. settle. apply settles_for_each; [apply _|]. intros x. settle. apply settles_attempt.
  intros d Hd. pose proof (raw_udp_keeps (C:=C) (sd_transport d) x a) as Hk.
  pose proof (driver_ok_transport d _ Hd Hk) as Hd'. destruct (node_send_raw_udp (sd_transport d) x a) as [t r].
  split; [done|]. unfold later. cbn. lia.
Qed.
Lemma later_punch_events role peer stream events : settles later (λ _ _, punch_events (C:=C) utf8_error_text role peer stream events).
Proof. induction events as [|ev events IH]; cbn [punch_events]; settle. Qed.
#[local] Hint Resolve later_blast later_punch_events : settles.

(** Each round sleeps, so there is one for every five milliseconds at most. *)
Lemma settles_punch role peer stream addrs targets deadline next saw :
  settles anyhow (λ n f, punch_loop utf8_error_text n role peer stream addrs targets deadline next saw).
Proof.
  intros d Hd. remember (Z.to_nat (Z.max 0 (deadline - elapsed (sd_clock d)))) as k eqn:Ek.
  revert d next saw Hd Ek. induction k as [k IH] using lt_wf_ind. intros d next saw Hd ->. apply ends_S. cbn [punch_loop].
  bind_ends. apply ends_const. unfold now, in_host, zoom, state. destruct (instant_now_elapsed (sd_clock d)) as [Ht1 Ht2].
  destruct (instant_now (sd_clock d)) as [t c]. cbn [fst snd] in *. set (d1 := put_host c d). assert (driver_ok d1) as Hd1 by by apply driver_ok_host.
  destruct (Z.leb_spec deadline t) as [Hdl|Hdl]; [by apply ends_const|].
  assert (settles later (λ _ _, if next <=? t then _ ← blast_remote_addrs addrs role; mret (t + HOLEPUNCH_INTERVAL) else mret next)) as Hblast
    by (destruct (next <=? t); settle).
  bind_ends. eapply ends_mono; [by apply Hblast| |by intros ? []]. cbn. intros d2 next' [Hd2 Hl2].
  bind_ends. eapply ends_mono; [by apply later_poll| |by intros ? []]. cbn. intros d3 events [Hd3 Hl3].
  bind_ends. eapply ends_mono; [by apply later_punch_events| |by intros ? []]. cbn. intros d4 [o|] [Hd4 Hl4]; [by apply ends_const|].
  bind_ends. eapply ends_mono; [by apply later_sources| |by intros ? []]. cbn. intros d5 sources [Hd5 Hl5].
  destruct (any_source_matches sources targets || saw); [by apply ends_const|].
  bind_ends. apply ends_const. cbn. pose proof (sleep_for_elapsed 5 (sd_clock d5)) as Hs.
  unfold later in *. cbn in Hl2. eapply ends_mono; [eapply IH; [|by apply driver_ok_host|done]|done|done]. cbn. lia.
Qed.


Lemma settles_failing R `{!PreOrder R} {E A} (g : E → string) (r : res E A) :
  settles R (λ _ _, lift (map_err (λ e, Failed (g e)) r)).
Proof. apply settles_lift; [apply _|]. by destruct r. Qed.
#[local] Hint Extern 1 (settles _ (λ _ _, lift (map_err _ _))) => apply (settles_failing _ (λ e, _)) : settles.

(** ** The listener behind a relay *)

Lemma settles_responder_event R `{!Steady R} role ev : settles R (λ _ _, handle_dcutr_responder_event role ev).
Proof. unfold handle_dcutr_responder_event. settle. Qed.
Lemma settles_responder_outputs R `{!Steady R} role flow captured :
  settles R (λ _ _, drain_dcutr_responder_outputs utf8_error_text overflow_checks role flow captured).
Proof.
  unfold drain_dcutr_responder_outputs. settle. apply settles_for_each; [apply _|]. intros ev. by apply settles_responder_event.
Qed.
#[local] Hint Resolve settles_responder_outputs : settles.

Lemma settles_respond_loop role peer stream deadline dcutr captured :
  settles quiet (λ n f, dcutr_respond_loop utf8_error_text overflow_checks f n role peer stream deadline dcutr captured).
Proof.
  set (loop (x : DcutrResponder (P:=P) * option (list (Multiaddr P))) n f :=
    dcutr_respond_loop (T:=T) (C:=C) utf8_error_text overflow_checks f n role peer stream deadline x.1 x.2).
  change (settles quiet (loop (dcutr, captured))). generalize (dcutr, captured). apply settles_loop. intros [flow cap] d Hd IH.
  unfold loop. cbn [dcutr_respond_loop fst snd]. destruct (dr_is_done flow); [by apply ends_const|].
  bind_wait; [by apply wait_data_ends|]. destruct (dcutr_responder_feed _ _ _ _) as [flow' r]. bind_falls.
  bind_falls. destruct a1 as [[flow'' cap'] outbound]. bind_falls. apply (IH (flow'', cap')).
Qed.
Lemma settles_responding role peer stream deadline dcutr captured :
  settles anyhow (λ _ f, dcutr_respond_loop utf8_error_text overflow_checks f f role peer stream deadline dcutr captured).
Proof.
  eapply settles_anyhow, (settles_enter _ (λ n f, dcutr_respond_loop utf8_error_text overflow_checks f n _ _ _ _ _ _)), settles_respond_loop.
Qed.
Lemma settles_punching role peer stream addrs targets deadline next saw :
  settles anyhow (λ _ f, punch_loop utf8_error_text f role peer stream addrs targets deadline next saw).
Proof. apply (settles_enter _ (λ n f, punch_loop utf8_error_text n _ _ _ _ _ _ _ _)), settles_punch. Qed.
Lemma settles_sources : settles anyhow (λ _ _, inbound_sources).
Proof. eapply settles_anyhow, later_sources. Qed.
#[local] Hint Resolve settles_responding settles_punching settles_sources : settles.

Lemma settles_relay_listen relay options :
  settles anyhow (λ _ f, relay_listen utf8_error_text overflow_checks f relay options).
Proof. unfold relay_listen, finish_punch, print_remote_candidates. settle. Qed.


(** ** The AutoNAT server *)

(** Going on in one way after an answer and in another after a failure. *)
Lemma ends_cases {A B} (m : family A) (k : A → family B) (h : string → family B) (x : family B) d Φ E :
  (∀ n f, x n f d = match m n f d with
                    | (d', Ok a) => k a n f d' | (d', Err (Failed e)) => h e n f d'
                    | (d', Err OutOfFuel) => (d', Err OutOfFuel) | (d', Panic) => (d', Panic)
                    end) →
  ends m d (λ d' a, ends (k a) d' Φ E) (λ d', ∀ e, ends (h e) d' Φ E) → ends x d Φ E.
Proof.
  intros Hx (N & d' & r & Hm & Hr). destruct r as [a|[e|]|]; [|specialize (Hr e)|done|].
  1-2: destruct Hr as (N' & d'' & r & Hk & Hr); exists (Nat.max N N'), d'', r; (split; [|done]);
    intros n f Hn Hf; rewrite Hx, Hm by lia; apply Hk; lia.
  exists N, d', Panic. split; [|done]. intros n f Hn Hf. by rewrite Hx, Hm.
Qed.

Section probes.
Context (R : relation Node) `{HR : !Steady R}.

Lemma settles_in_probe {A} (probe : Node) (m : family A) :
  driver_ok probe → settles anyhow m → settles R (λ n f, in_probe probe (m n f)).
Proof.
  intros Hp Hm d Hd. destruct (Hm (set_clock probe (sd_clock d))) as (N & p' & r & E & Hr); [by apply driver_ok_host|].
  exists N, (set_clock d (sd_clock p')), r. split; [intros n f Hn Hf; unfold in_probe; by rewrite E|].
  assert (driver_ok (set_clock d (sd_clock p')) ∧ R d (set_clock d (sd_clock p'))) as H
    by (split; [by apply driver_ok_host|apply steady_calm; intros w; unfold calm; reflexivity]).
  by destruct r as [a|[e|]|].
Qed.

Lemma settles_bind_probe keypair bind : settles R (λ _ _, bind_probe keypair bind).
Proof. unfold bind_probe. apply settles_in_host; [done|]. intros c. by destruct (node_bind keypair bind c) as [? []]. Qed.

Lemma settles_build_probe {B} keypair transport (k : Node → family B) :
  (∀ probe, driver_ok probe → settles R (k probe)) →
  settles R (λ n f, build_probe keypair transport ≫= λ probe, k probe n f).
Proof.
  apply (settles_bind_post R (λ _ _, build_probe keypair transport)). intros d Hd. apply ends_const. unfold build_probe.
  destruct (node_build_ok keypair AGENT transport (sd_clock d)) as (probe & -> & Hp). split_and!; [done| |done]. reflexivity.
Qed.

Lemma settles_generate : settles R (λ _ _, in_host generate).
Proof. apply settles_in_host; [done|]. intros c. unfold generate. by destruct (generate_secret c) as [? []]. Qed.
#[local] Hint Resolve settles_bind_probe settles_generate : settles.

#[local] Ltac bind_settles :=
  cbv beta zeta;
  lazymatch goal with
  | |- settles _ (fun n f => @mbind _ _ _ _ (@?k n f) (@?m n f)) => apply (settles_bind _ m (fun a n f => k n f a))
  end; cbv beta; [settle|intros ?].
#[local] Ltac bind_built :=
  lazymatch goal with
  | |- settles _ (fun n f => @mbind _ _ _ _ (@?k n f) _) => apply (settles_build_probe _ _ (fun a n f => k n f a))
  end; cbv beta; intros ? ?.

Lemma settles_dialback_bind peer addr timeout bind :
  settles R (λ _ f, dialback_candidate_with_bind f peer addr timeout bind).
Proof.
  unfold dialback_candidate_with_bind. do 2 bind_settles. bind_built. bind_settles.
  lazymatch goal with |- settles _ (fun n f => in_probe ?p (@?m n f)) => apply (settles_in_probe p m) end; [done|]. settle.
Qed.

Lemma settles_dialback peer addr timeout : settles R (λ _ f, dialback_candidate f peer addr timeout).
Proof.
  unfold dialback_candidate. generalize (@None string) false.
  induction (dialback_bind_addrs addr) as [|bind binds IH]; intros last saw.
  { intros d Hd. eexists 0%nat, d, _. split; [intros; reflexivity|]. destruct saw; [|destruct last]; (split; [done|reflexivity]). }
  intros d Hd.
  apply (ends_cases (λ _ f, dialback_candidate_with_bind f peer addr timeout bind)
    (λ (ok : bool) _ f, if ok then (mret true : script bool) else merge_dialback_results (dialback_candidate_with_bind f peer addr timeout <$> binds) last true)
    (λ e _ f, merge_dialback_results (dialback_candidate_with_bind f peer addr timeout <$> binds) (Some e) saw)).
  { intros _ f. cbn [fmap list_fmap merge_dialback_results]. by destruct (dialback_candidate_with_bind _ _ _ _ _ _) as [? [[]|[]|]]. }
  assert (∀ d' last saw, driver_ok d' ∧ R d d' →
    ends (λ _ f, merge_dialback_results (dialback_candidate_with_bind f peer addr timeout <$> binds) last saw) d'
      (λ d'' _, driver_ok d'' ∧ R d d'') (λ d'', driver_ok d'' ∧ R d d'')) as Hrest.
  { intros d' last' saw' [Hd' HRd]. eapply ends_mono; [by apply IH|..]; cbn; intros; (split; [tauto|]); (etrans; [exact HRd|tauto]). }
  eapply ends_mono; [by apply settles_dialback_bind|..]; cbn.
  - intros d' [] Hd'; [by apply ends_const|by apply Hrest].
  - intros d' Hd' e. by apply Hrest.
Qed.
End probes.


Lemma settles_dialback_all role peer addrs dialable : settles quiet (λ _ f, dialback_all f role peer addrs dialable).
Proof.
  revert dialable. induction addrs as [|addr addrs IH]; intros dialable; cbn [dialback_all]; settle.
  apply (settles_catch _ (λ _ f, ok ← dialback_candidate f peer addr AUTONAT_DIALBACK_DEADLINE; mret (inr ok)) (λ e _ _, mret (inl e)));
    [|intros; settle]. settle. by apply settles_dialback, _.
Qed.
Lemma settles_autonat_respond server input : settles quiet (λ _ _, autonat_respond utf8_error_text server input).
Proof. unfold autonat_respond. settle. Qed.
#[local] Hint Resolve settles_dialback_all settles_autonat_respond : settles.

Lemma settles_handle_request role peer stream : settles quiet (λ _ f, handle_autonat_request utf8_error_text f role peer stream).
Proof. unfold handle_autonat_request. settle. Qed.

Lemma wait_probe_ends role deadline d :
  driver_ok d →
  ends (λ _ f, wait_for utf8_error_text f role deadline is_autonat_stream "autonat wait stream") d
    (λ d' o, driver_ok d' ∧ quiet d d' ∧ (is_Some o → below (noise traffic d') (noise traffic d))) (λ d', driver_ok d' ∧ quiet d d').
Proof.
  intros Hd. eapply ends_mono; [by apply wait_for_ends|..]; cbn; [|by intros d' [? ?]]. intros d' o (Hd' & Hc & Ho). split_and!; [done..|].
  intros [ev ->]. destruct (Ho ev eq_refl) as [Hw Hb]. apply Hb. by destruct ev.
Qed.

Lemma settles_serve_probes role deadline : settles quiet (λ n f, serve_probes utf8_error_text f n role deadline).
Proof.
  apply (settles_loop _ (λ (_ : unit) n f, serve_probes utf8_error_text f n role deadline)); [|exact ()].
  intros _ d Hd IH. cbn [serve_probes]. bind_ends. eapply ends_mono; [by apply (settles_now quiet)| |done]. cbn. intros d1 t [Hd1 Hc1].
  assert (∀ d', driver_ok d' → quiet d1 d' → driver_ok d' ∧ quiet d d') as Hlater by (intros; split; [done|by etrans]).
  destruct (t <? deadline); [|apply ends_const; by apply Hlater]. bind_ends.
  eapply ends_mono; [by apply wait_probe_ends|..]; cbn; [|by intros d' [? ?]; apply Hlater]. intros d2 o (Hd2 & Hc2 & Hb).
  assert (∀ A (a : A), ends (λ _ _, mret a) d2 (λ d' _, driver_ok d' ∧ quiet d d') (λ d', driver_ok d' ∧ quiet d d')) as Hstop
    by (intros; apply ends_const; by apply Hlater).
  destruct o as [ev|]; [|apply Hstop]. destruct ev as [| | | | | |peer stream proto loc| | | |]; try apply Hstop.
  assert (below (noise traffic d2) (noise traffic d)) as Hbelow by (eapply below_within; [by apply Hb|exact Hc1]).
  lazymatch goal with |- ends ?m d2 _ _ => assert (falls traffic d m) as Hf end.
  { bind_falls; [|apply (IH ())].
    apply (settles_catch _ (λ _ f, handle_autonat_request utf8_error_text f role peer stream) (λ e _ _, complain _ _));
      [apply settles_handle_request|intros; settle]. }
  eapply ends_mono; [by apply Hf|..]; cbn; intros; apply Hlater; try tauto; etrans; [exact Hc2|tauto|exact Hc2|tauto].
Qed.

Lemma settles_autonat_server : settles anyhow (λ _ f, autonat_server utf8_error_text f).
Proof.
  unfold autonat_server. settle. eapply settles_anyhow, (settles_enter _ (λ n f, serve_probes utf8_error_text f n _ _)), settles_serve_probes.
Qed.

End returns.

(** ** A concrete host *)

#[export, refine] Instance DemoHost_time_laws : TimeLaws DemoHost := { elapsed := dh_now }.
Proof. all: intros; cbn; unfold POLL_IDLE_SLEEP; lia. Defined.
#[export] Instance DemoHost_keeps_time : HostTime DemoHost.
Proof. split; intros; cbn; lia. Qed.
