(* ===== verification/Peer.v ===== *)
(** * The example program ([examples/peer/src/main.rs], and the parts of [runtime.rs],
      [direct.rs] and [relay.rs] that build its swarm)

    From the command line to a mode: the keypair, the endpoint of the keypair, the swarm
    with the mode's protocols, and the mode's script. *)
From S2P Require Import Prelude NetAddr Effects Varint Multibase PeerId Keys Tls Multiaddr PeerAddr MultiaddrText ErrorText.
From S2P Require Import IdentifyMessage Ping Identify SwarmEvents Transport SwarmCore SwarmInvariant SwarmConns Driver Silence Builder.
From S2P Require Import QuicConnection QuicTransport QuicEndpoint QuicConfig Facade.
From S2P Require Import Relay Dcutr Autonat Cli PeerRuntime PeerFlows PeerScript PeerRelay PeerSafety PeerReturns.
From Stdlib Require Import ZArith Strings.Byte Strings.String.
From stdpp Require Import base numbers list gmap strings.

#[local] Open Scope Z_scope.

Section peer.
Context {MH : Type} `{SP : !SwarmPeers (PeerId MH)} `{PT : !PeerIdText (PeerId MH)} `{BP : !BuildProfile} `{SD : !StrDebug}.
Context `{MA : !MultihashApi MH} (sha256 : list byte → list byte).
Context {VK : Type} `{EA : !Ed25519Api VK}.
Context {T : Type} `{TR : !Transport T (PeerId MH)}.
Context {C : Type} `{TM : !Time C} `{HC : !Host C} `{PN : !PeerNode T (PeerId MH) C}.
Context (utf8_error_text : list byte → string) (overflow_checks : bool) (fuel : nat).

#[local] Abbreviation Pid := (PeerId MH).
#[local] Abbreviation Options := (RunOptions (P:=Pid)).
#[local] Abbreviation Node := (Swarm Pid T C).

Definition build_peer_transport (options : Options) (keypair : Ed25519Keypair) : eff C PeerError T := λ c,
  let '(what, (c, r)) :=
    match opt_listen_addr options with
    | Some addr => ("quic bind " ++ to_string addr, node_bind_multiaddr keypair addr c)
    | None => ("quic dual-stack bind", node_dual_stack keypair c)
    end%string in
  (c, map_err (λ e, Failed (what ++ ": " ++ to_string e)) r).

(** [SwarmBuilder::new(&keypair).agent_version(AGENT).build(transport)] *)
Definition build_node (keypair : Ed25519Keypair) (transport : T) : eff C PeerError Node := λ c,
  (c, map_err (Empty_set_rect (λ _, PeerError)) (node_build keypair AGENT transport c)).

(** [build_endpoint] of [direct.rs]: the facade binds and builds in the same way. *)
Definition build_direct_endpoint (options : Options) (role : string) : eff C PeerError Node :=
  keypair ← load_keypair (MH:=MH) sha256 options role;
  transport ← build_peer_transport options keypair;
  build_node keypair transport.
Definition build_swarm_with_relay_protocols (options : Options) (role : string) : eff C PeerError Node :=
  keypair ← load_keypair (MH:=MH) sha256 options role;
  transport ← build_peer_transport options keypair;
  swarm ← build_node keypair transport;
  let swarm := driver_add_user_protocol swarm HOP_PROTOCOL_ID in
  let swarm := driver_add_user_protocol swarm STOP_PROTOCOL_ID in
  let swarm := driver_add_user_protocol swarm DCUTR_PROTOCOL_ID in
  let swarm := driver_add_user_protocol swarm AUTONAT_PROTOCOL_ID in
  mret swarm.
Definition build_autonat_swarm (options : Options) (keypair : Ed25519Keypair) : eff C PeerError Node :=
  transport ← build_peer_transport options keypair;
  swarm ← build_node keypair transport;
  mret (driver_add_user_protocol swarm AUTONAT_PROTOCOL_ID).

(** Runs a script on the swarm; the host goes on where the script left it. *)
Definition with_node {A} (node : Node) (m : script (P:=Pid) (T:=T) (C:=C) A) : eff C PeerError A := λ c,
  let '(node, r) := m (set_clock node c) in (sd_clock node, r).

(** [run] *)
Definition run_mode (mode : Mode (P:=Pid)) : eff C PeerError unit :=
  match mode with
  | DirectListen options =>
      node ← build_direct_endpoint options "listen";
      with_node node (direct_listen utf8_error_text fuel)
  | DirectDial target options =>
      node ← build_direct_endpoint options "dial";
      with_node node (direct_dial utf8_error_text fuel target)
  | RelayListen relay options =>
      node ← build_swarm_with_relay_protocols options "relay-listen";
      with_node node (relay_listen utf8_error_text overflow_checks fuel relay options)
  | RelayDial relay target options =>
      node ← build_swarm_with_relay_protocols options "relay-dial";
      with_node node (relay_dial utf8_error_text overflow_checks fuel relay target options)
  | Cli.AutoNatServer options =>
      keypair ← load_keypair (MH:=MH) sha256 options "autonat";
      node ← build_autonat_swarm options keypair;
      with_node node (autonat_server utf8_error_text fuel)
  end.

(** The exit code of the process. *)
Definition main (args : list string) : eff C PeerError Z := λ c,
  match Cli.parse args with
  | Err msg => (stderr msg c, Ok 2)
  | Panic => (c, Panic)
  | Ok mode =>
      match run_mode mode c with
      | (c, Ok _) => (c, Ok 0)
      | (c, Err (Failed e)) => (stderr ("error: " ++ e)%string c, Ok 1)
      | (c, Err OutOfFuel) => (c, Err OutOfFuel)
      | (c, Panic) => (c, Panic)
      end
  end.

End peer.

(** ** Properties *)

Section laws.
Context {MH : Type} `{SP : !SwarmPeers (PeerId MH)} `{PT : !PeerIdText (PeerId MH)} `{BP : !BuildProfile} `{SD : !StrDebug}.
Context `{MA : !MultihashApi MH} (sha256 : list byte → list byte).
Context {VK : Type} `{EA : !Ed25519Api VK}.
Context {T : Type} `{TR : !Transport T (PeerId MH)}.
Context {C : Type} `{TM : !Time C} `{HC : !Host C} `{PN : !PeerNode T (PeerId MH) C}.
Context (utf8_error_text : list byte → string) (overflow_checks : bool).

#[local] Abbreviation Pid := (PeerId MH).
#[local] Abbreviation Options := (RunOptions (P:=Pid)).
#[local] Abbreviation Node := (Swarm Pid T C).
#[local] Abbreviation build_peer_transport := (build_peer_transport (MH:=MH) (T:=T) (C:=C)).
#[local] Abbreviation build_node := (build_node (MH:=MH) (T:=T) (C:=C)).

Context `{TC : !TransportContract T (PeerId MH)} `{NL : !PeerNodeLaws T (PeerId MH) C} `{ML : !MultihashLaws MH}.
Context (sha256_length : ∀ b, length (sha256 b) = 32%nat).
Context (randomness : ∀ c : C, (generate_secret c).2 ≠ None).

(** A part of the program that returns, with an answer or a message. *)
Definition returns_ok {A} (m : eff C PeerError A) (Q : A → Prop) : Prop :=
  ∀ c, match (m c).2 with Ok a => Q a | Err (Failed _) => True | _ => False end.

Lemma returns_ok_bind {A B} (m : eff C PeerError A) (k : A → eff C PeerError B) Q R :
  returns_ok m Q → (∀ a, Q a → returns_ok (k a) R) → returns_ok (m ≫= k) R.
Proof.
  intros Hm Hk c. specialize (Hm c). unfold mbind, eff_bind. destruct (m c) as [c' [a|[e|]|]]; [|done..]. by apply Hk.
Qed.
Lemma returns_any {A} (m : eff C PeerError A) :
  (∀ c, (m c).2 ≠ Panic ∧ (m c).2 ≠ Err OutOfFuel) → returns_ok m (λ _, True).
Proof. intros Hm c. specialize (Hm c). by destruct (m c) as [c' [|[]|]], Hm. Qed.
Lemma failing_returns {A E} (g : E → string) (r : res E A) :
  r ≠ Panic → map_err (λ e, Failed (g e)) r ≠ Panic ∧ map_err (λ e, Failed (g e)) r ≠ Err OutOfFuel.
Proof. by destruct r. Qed.
Lemma returns_ret {A} (a : A) (Q : A → Prop) : Q a → returns_ok (mret a) Q.
Proof. by intros ? c. Qed.
Lemma returns_io {A} what (f : C → C * (string + A)) : returns_ok (io what f) (λ _, True).
Proof. apply returns_any. intros c. unfold io. by destruct (f c) as [c' []]. Qed.

Lemma returns_generate : returns_ok generate (λ _, True).
Proof. apply returns_any. intros c. unfold generate. specialize (randomness c). by destruct (generate_secret c) as [c' []]. Qed.
Lemma returns_print_identity role kp identity : returns_ok (print_identity (MH:=MH) sha256 role kp identity) (λ _, True).
Proof.
  unfold print_identity, keypair_peer_id, from_public_key.
  destruct (from_public_key_protobuf_spec (MH:=MH) sha256 sha256_length (encode_protobuf (keypair_public_key kp))) as (p & -> & _).
  done.
Qed.
Lemma returns_write_secret path secret : returns_ok (write_secret path secret) (λ _, True).
Proof.
  unfold write_secret. eapply returns_ok_bind with (λ _, True).
  - destruct (path_parent path) as [parent|]; [case_decide|]; [by apply returns_ret|apply returns_io|by apply returns_ret].
  - intros _ _. eapply returns_ok_bind; [apply returns_io|]. intros _ _. apply returns_io.
Qed.
Lemma decode_secret_returns s : decode_secret s ≠ Panic.
Proof.
  unfold decode_secret. case_decide as Hlen; [done|]. clear Hlen. generalize (as_bytes s). intros l.
  assert (∀ n l, (length l <= n)%nat → decode_pairs l ≠ Panic) as H; [|by apply (H (length l))].
  clear. induction n as [|n IH]; intros [|h [|l bytes]] Hn; cbn in Hn; try done; [lia|].
  cbn [decode_pairs]. assert (∀ b, hex_value b ≠ Panic) as Hh by (intros b; unfold hex_value; cbv zeta; repeat case_match; done).
  apply bind_no_panic; [done|]. intros hi _. apply bind_no_panic; [done|]. intros lo _. apply bind_no_panic; [|done].
  apply IH. lia.
Qed.
Lemma returns_load_keypair (options : Options) role : returns_ok (load_keypair (MH:=MH) sha256 options role) (λ _, True).
Proof.
  unfold load_keypair. destruct (key_path options) as [path|].
  - eapply returns_ok_bind; [apply returns_any; intros c; unfold state; by destruct (path_exists path c)|]. intros [] _.
    + eapply returns_ok_bind; [apply returns_io|]. intros raw _. eapply returns_ok_bind.
      { apply returns_any. intros c. apply (failing_returns (λ e, _)), decode_secret_returns. }
      intros secret _. eapply returns_ok_bind; [apply returns_print_identity|]. intros _ _. by apply returns_ret.
    + eapply returns_ok_bind; [apply returns_generate|]. intros kp _. eapply returns_ok_bind; [apply returns_write_secret|].
      intros _ _. eapply returns_ok_bind; [apply returns_print_identity|]. intros _ _. by apply returns_ret.
  - eapply returns_ok_bind; [apply returns_generate|]. intros kp _.
    eapply returns_ok_bind; [apply returns_print_identity|]. intros _ _. by apply returns_ret.
Qed.

Lemma returns_transport options kp : returns_ok (build_peer_transport options kp) (λ _, True).
Proof.
  apply returns_any. intros c. unfold Peer.build_peer_transport. destruct (opt_listen_addr options) as [a|].
  - pose proof (bind_multiaddr_returns (T:=T) kp a c). destruct (node_bind_multiaddr kp a c). by apply (failing_returns (λ e, _)).
  - pose proof (dual_stack_returns (T:=T) kp c). destruct (node_dual_stack kp c). by apply (failing_returns (λ e, _)).
Qed.
Lemma returns_node kp t : returns_ok (build_node kp t) driver_ok.
Proof. intros c. unfold Peer.build_node. destruct (node_build_ok kp AGENT t c) as (d & -> & Hd). done. Qed.

Definition uses_relay (mode : Mode (P:=Pid)) : bool :=
  match mode with RelayListen _ _ | RelayDial _ _ _ => true | _ => false end.

Lemma add_protocol_ok (d : Node) proto : driver_ok d → driver_ok (driver_add_user_protocol d proto).
Proof. intros Hd. apply (call_ok d (CallAddUserProtocol proto) Hd). Qed.

Lemma returns_swarm options kp (f : Node → Node) :
  (∀ d, driver_ok d → driver_ok (f d)) →
  returns_ok (transport ← build_peer_transport options kp; swarm ← build_node kp transport; mret (f swarm)) driver_ok.
Proof.
  intros Hf. eapply returns_ok_bind; [apply returns_transport|]. intros t _. eapply returns_ok_bind; [apply returns_node|].
  intros d Hd. apply returns_ret. auto.
Qed.

(** A mode is the swarm it builds, and its script on it. *)
Definition mode_node (mode : Mode (P:=Pid)) : eff C PeerError Node :=
  match mode with
  | DirectListen options => build_direct_endpoint sha256 options "listen"
  | DirectDial _ options => build_direct_endpoint sha256 options "dial"
  | RelayListen _ options => build_swarm_with_relay_protocols sha256 options "relay-listen"
  | RelayDial _ _ options => build_swarm_with_relay_protocols sha256 options "relay-dial"
  | Cli.AutoNatServer options => keypair ← load_keypair (MH:=MH) sha256 options "autonat"; build_autonat_swarm options keypair
  end.
Definition mode_script (mode : Mode (P:=Pid)) (fuel : nat) : script (P:=Pid) (T:=T) (C:=C) unit :=
  match mode with
  | DirectListen _ => direct_listen utf8_error_text fuel
  | DirectDial target _ => direct_dial utf8_error_text fuel target
  | RelayListen relay options => relay_listen utf8_error_text overflow_checks fuel relay options
  | RelayDial relay target options => relay_dial utf8_error_text overflow_checks fuel relay target options
  | Cli.AutoNatServer _ => autonat_server utf8_error_text fuel
  end.

#[local] Abbreviation run_mode := (run_mode (MH:=MH) (T:=T) (C:=C) sha256 utf8_error_text overflow_checks).
#[local] Abbreviation main := (main (MH:=MH) (T:=T) (C:=C) sha256 utf8_error_text overflow_checks).

Lemma run_mode_parts fuel mode c : run_mode fuel mode c = (node ← mode_node mode; with_node node (mode_script mode fuel)) c.
Proof.
  destruct mode as [| | | |options]; try reflexivity. cbn [Peer.run_mode mode_node mode_script]. unfold mbind, eff_bind.
  by destruct (load_keypair _ _ _ _) as [c' []].
Qed.

Lemma mode_node_returns mode : returns_ok (mode_node mode) driver_ok.
Proof.
  destruct mode as [options|target options|relay options|relay target options|options]; cbn [mode_node];
    (eapply returns_ok_bind; [apply returns_load_keypair|]; intros kp _).
  1-2: eapply returns_ok_bind; [apply returns_transport|]; intros t _; apply returns_node.
  1-2: apply (returns_swarm _ _ (λ d, driver_add_user_protocol (driver_add_user_protocol (driver_add_user_protocol
    (driver_add_user_protocol d HOP_PROTOCOL_ID) STOP_PROTOCOL_ID) DCUTR_PROTOCOL_ID) AUTONAT_PROTOCOL_ID)); auto using add_protocol_ok.
  apply (returns_swarm _ _ (λ d, driver_add_user_protocol d AUTONAT_PROTOCOL_ID)); auto using add_protocol_ok.
Qed.

Context `{SL : !Silence T (PeerId MH)} `{TL : !TimeLaws C} `{HT : !HostTime C}.

Lemma mode_script_settles mode : settles anyhow (λ _ fuel, mode_script mode fuel).
Proof.
  destruct mode; [apply settles_direct_listen|apply settles_direct_dial|apply settles_relay_listen|apply settles_relay_dial|
    apply settles_autonat_server].
Qed.
Lemma mode_script_safe mode fuel : uses_relay mode = false → safe (mode_script mode fuel).
Proof.
  destruct mode; try done; intros _; [by apply safe_direct_listen|by apply safe_direct_dial|by apply safe_autonat_server].
Qed.

(** Every mode comes to an end, and only the relayed ones can unwind. *)
Lemma run_mode_ends mode c :
  ∃ N c' r, (∀ fuel, (N <= fuel)%nat → run_mode fuel mode c = (c', r)) ∧ r ≠ Err OutOfFuel ∧ (r = Panic → uses_relay mode = true).
Proof.
  pose proof (mode_node_returns mode c) as Hn. destruct (mode_node mode c) as [c1 r1] eqn:E1. cbn [snd] in Hn.
  assert (∀ fuel, run_mode fuel mode c = match r1 with Ok node => with_node node (mode_script mode fuel) c1 | Err e => (c1, Err e) | Panic => (c1, Panic) end) as Hrun.
  { intros fuel. rewrite run_mode_parts. unfold mbind, eff_bind. rewrite E1. by destruct r1. }
  destruct r1 as [node|[e|]|]; [|by exists 0%nat, c1, (Err (Failed e))|done..].
  pose proof (driver_ok_host node c1 Hn) as Hd. destruct (mode_script_settles mode _ Hd) as (N & d' & r & E & Hr).
  exists N, (sd_clock d'), r. split_and!.
  - intros fuel Hf. rewrite Hrun. unfold with_node. by rewrite (E N).
  - by intros ->.
  - intros ->. destruct (uses_relay mode) eqn:Hu; [done|]. pose proof (mode_script_safe mode N Hu) as Hs. rewrite safe_iff in Hs.
    destruct (Hs _ Hd) as [_ Hp]. by rewrite (E N) in Hp.
Qed.

(** C28. The program comes to an end, under these assumptions: the transport falls silent
    ([Silence]: it brings events in finitely many more polls), its methods do not unwind
    and it does not report a connection as connected twice or after data of it
    ([TransportContract]; less than the documented order of events that [QuicEndpoint]
    breaks, [endpoint_breaks_event_order], but assumed of it, not proved); binding and
    building a node do not unwind ([PeerNodeLaws]); time does not go back and sleeping
    takes time ([TimeLaws], [HostTime]); and the system has randomness.  A command line
    that is refused prints its message, touches nothing else and exits with 2.  Any other
    runs its mode to the end, with one outcome for every large enough number of loop
    iterations: it exits with 0 when the mode succeeded, and with 1 and the message when
    it failed; and only in the modes that go through a relay can it unwind. *)
Theorem peer_main args c :
  Forall name_ok args →
  ∃ N c' r, (∀ fuel, (N <= fuel)%nat → main fuel args c = (c', r)) ∧
    match Cli.parse args with
    | Err msg => c' = stderr msg c ∧ r = Ok 2
    | Ok mode =>
        (∀ fuel, (N <= fuel)%nat → run_mode fuel mode c = (c', Ok ())) ∧ r = Ok 0 ∨
        (∃ c'' e, (∀ fuel, (N <= fuel)%nat → run_mode fuel mode c = (c'', Err (Failed e))) ∧
           c' = stderr ("error: " ++ e)%string c'' ∧ r = Ok 1) ∨
        uses_relay mode = true ∧ r = Panic
    | Panic => False
    end.
Proof.
  intros Hargs. pose proof (parse_returns args Hargs) as Hp. unfold Peer.main.
  destruct (Cli.parse args) as [mode|msg|]; [|by exists 0%nat, (stderr msg c), (Ok 2)|done].
  destruct (run_mode_ends mode c) as (N & c' & r & E & Hf & Hu). destruct r as [[]|[e|]|]; [| |done|].
  - exists N, c', (Ok 0). split; [intros fuel HN; by rewrite E|]. by left.
  - exists N, (stderr ("error: " ++ e)%string c'), (Ok 1). split; [intros fuel HN; by rewrite E|]. right. left. by exists c', e.
  - exists N, c', Panic. split; [intros fuel HN; by rewrite E|]. right. right. auto.
Qed.
End laws.

(** ** The node of the program *)

(** The part of the system a new endpoint sees: its sockets, resolver and randomness. *)
Class SystemOf (C W : Type) := open_system : C → C * W.
#[global] Hint Mode SystemOf ! - : typeclass_instances.

Section quic_node.
Context {MH : Type} `{SP : !SwarmPeers (PeerId MH)}.
Context `{MHeq : EqDecision MH} `{MHcount : !Countable MH} `{MA : !MultihashApi MH} (sha256 : list byte → list byte).
Context {VK : Type} `{EA : !Ed25519Api VK}.
Context {Cert Validity Bld PK SG SK RNG : Type} `{XA : !X509Api Cert Validity Bld PK SG SK RNG}.
Context {Q : Type} `{QA : !Quiche Q} {Cfg : Type} `{QE : !QuicheEndpoint Q Cfg}.
Context {Ctx X509 PKey : Type} `{TS : !TlsStack Ctx X509 PKey Cfg}.
Context {W Sock : Type} `{WA : !World W Sock} `{SR : !SysRandom W Validity RNG}.
Context {C : Type} `{SC : !SystemOf C W}.

Definition open_endpoint (bind : W → res TransportError (Quic (MH:=MH) (Q:=Q) (Cfg:=Cfg) (W:=W) (Sock:=Sock))) (c : C)
    : C * res TransportError (Quic (MH:=MH) (Q:=Q) (Cfg:=Cfg) (W:=W) (Sock:=Sock)) :=
  let '(c, w) := open_system c in (c, bind w).

(** [QuicTransport] by itself is an endpoint with one socket. *)
Definition quic_node : PeerNode (Quic (MH:=MH) (Q:=Q) (Cfg:=Cfg) (W:=W) (Sock:=Sock)) (PeerId MH) C := {|
  node_bind_multiaddr kp addr := open_endpoint (endpoint_bind_multiaddr (MHeq:=MHeq) sha256 (node_config_new kp) addr);
  node_dual_stack kp := open_endpoint (endpoint_dual_stack (MHeq:=MHeq) sha256 (node_config_new kp));
  node_bind kp bind := open_endpoint (endpoint_bind (MHeq:=MHeq) sha256 (node_config_new kp) bind);
  node_build kp agent t c :=
    b ← builder_new sha256 kp;
    Ok (build_with_clock (b_set_agent_version b agent) t c);
  node_dial_all t addr := endpoint_dial_all (PidEq:=PeerId_eq_dec) addr t;
  node_send_raw_udp t addr payload := endpoint_send_raw_udp (PidEq:=PeerId_eq_dec) addr payload t;
  node_inbound_sources t :=
    let '(t, r) := endpoint_active_inbound_connection_sources (PidEq:=PeerId_eq_dec) t in
    (t, match r with Ok sources => sources | _ => [] end);
|}.
End quic_node.

(** ** Concrete runs *)

Lemma demo_refused :
  Cli.parse (P:=PeerId PlainMultihash) ["frobnicate"%string]
    = Err ("unknown subcommand 'frobnicate'" ++ Prelude.from_bytes [x0a; x0a] ++ usage)%string.
Proof. by vm_compute. Qed.
Lemma demo_listen :
  Cli.parse (P:=PeerId PlainMultihash) ["listen"; "--key"; "keys/peer.key"]%string = Ok (DirectListen demo_key_options).
Proof. by vm_compute. Qed.

Lemma peer_main_witness :
  ∃ N c' r, (∀ fuel, (N <= fuel)%nat →
      main (MH:=PlainMultihash) (T:=OneConn) demo_sha256 (λ _, EmptyString) false fuel ["listen"; "--key"; "keys/peer.key"]%string demo_host
        = (c', r)) ∧ (r = Ok 0 ∨ r = Ok 1).
Proof.
  destruct (peer_main (MH:=PlainMultihash) (T:=OneConn) (C:=DemoHost) demo_sha256 (λ _, EmptyString) false
    (λ _, eq_refl) demo_randomness ["listen"; "--key"; "keys/peer.key"]%string demo_host) as (N & c' & r & H & Hr).
  - repeat apply Forall_cons_2; [..|by apply Forall_nil]; (split; [by vm_compute|by vm_compute]).
  - exists N, c', r. split; [exact H|]. rewrite demo_listen in Hr. destruct Hr as [[_ Hr]|[(c'' & e & _ & _ & Hr)|[Hr _]]].
    + left. exact Hr.
    + right. exact Hr.
    + discriminate Hr.
Defined.
